(* ===== verification/_CoqProject ===== *)
-Q . S2P
Prelude.v
Sentinel.v
Search.v
Crates.v
Streams.v
Chunks.v
RawSse.v
Sse.v
EventStreams.v
Shutdown.v
Outcome.v
RawStr.v
Method.v
Status.v
MediaType.v
UriTables.v
MediaParse.v
Uri.v
UriForms.v
Indexed.v
Endpoint.v
Route.v
Catcher.v
Header.v
Request.v
Router.v
FormName.v
FormParser.v
Data.v
Limits.v
DataStream.v
Transforms.v
Cookies.v
Response.v
DefaultCatcher.v
Responders.v
Flash.v
FileServer.v
Templates.v
UnixSocket.v
Fairings.v
Config.v
Lifecycle.v
WebSocket.v
Rocket.v
Launch.v
AdHoc.v
Params.v
UriFmt.v
FormError.v
FromForm.v
FormGuard.v
TempFile.v
SerdeGuards.v
FormContext.v
DeriveForm.v
Validate.v
Shield.v
Codegen.v
Derives.v
Generated.v
DeriveUri.v
UriMacro.v
Server.v
Tls.v
LocalClient.v
SyncPool.v
