(* ===== verification/Prelude.v ===== *)
(** * Rocket: a verification development

    Rocket is a web framework: it turns HTTP requests into calls of user
    handlers and their results into HTTP responses.  This library models the
    program's own logic, the code of [core/http/src], [core/lib/src] and
    [core/codegen/src] that decides which handler runs, on what, and what is
    sent back, and proves what makes it correct.

    ** The parts and how they interact

    - text: [RawStr] (core/http/src/raw_str.rs), [Method] (method.rs),
      [Status] (status.rs), the tables everything above reads;
    - URIs: [UriTables] (parse/uri/tables.rs, parser.rs) has the character
      tables and the grammar of origin-form URIs, [Uri] (uri/origin.rs,
      path_query.rs, segments.rs) normalization, segments and their conversion
      to file paths, [UriForms] (uri/absolute.rs, authority.rs, reference.rs,
      host.rs) the other forms, [Indexed] (parse/indexed.rs) how origins are
      represented, by indices into their source and caches of segments,
      [UriFmt] (uri/fmt) writes URIs from typed values;
    - headers: [MediaType], [MediaParse] (header/media_type.rs, accept.rs,
      parse/media_type.rs, parse/accept.rs) and [Header] (header/header.rs);
    - routing: [Route] (lib/src/route) and [Catcher] (lib/src/catcher) have the
      items that are mounted, [Request] (lib/src/request/request.rs) what they
      are matched against, [Router] (lib/src/router) collisions, matching,
      finalization and lookup;
    - what a handler is given: [Params] (lib/src/request/from_param.rs), [Data],
      [DataStream] and [Transforms] (lib/src/data) for bodies, [Cookies]
      (lib/src/http/cookies.rs);
    - forms (lib/src/form): [FormName] (name) and [FormParser] (parser.rs,
      field.rs) split a form into fields, [FromForm] (from_form.rs,
      from_form_field.rs) pushes these into parsers of values, [FormError]
      (error.rs) has their errors, [FormContext] (context.rs) keeps both,
      [FormGuard] (parser.rs, form.rs) is the guard for bodies,
      [SerdeGuards] (lib/src/serde) that for JSON and MessagePack,
      [DeriveForm] (codegen/src/derive) is what structures derive,
      [DeriveUri] the same for writing them as queries, and
      [Validate] (validate.rs) the checks of values;
    - what it gives back: [Outcome] (lib/src/outcome.rs), [Response]
      (lib/src/response/response.rs, body.rs), [Responders] and [Flash]
      (lib/src/response), [FileServer] and [TempFile] (lib/src/fs);
    - streams: [Streams] and [Chunks] (lib/src/util and response/stream/
      reader.rs) have readers and streams that are polled, [RawSse], [Sse] and
      [EventStreams] (response/stream/raw_sse.rs, sse.rs) server-sent events;
    - code generation: [Codegen] (codegen/src/attribute) is what a route
      attribute accepts, [Generated] the handler it expands to, [Derives]
      (attribute/catch, derive/responder.rs, from_param.rs) the same for
      catchers and what types derive, [UriMacro]
      (codegen/src/bang) the macro for its URIs, [Sentinel]
      (lib/src/sentinel.rs, codegen/src/syn_ext.rs) the sentries it lists and
      the query at launch;
    - an instance: [Limits] (lib/src/data/limits.rs) and [Config]
      (lib/src/config) configure it, [Fairings] (lib/src/fairing) hook into it,
      among them [Shield] (lib/src/shield) with its security headers and those
      of [AdHoc] (fairing/ad_hoc.rs), made from closures, and the URI normalizer,
      [Rocket] (lib/src/rocket.rs, phase.rs) builds and ignites it from all of
      these, [Launch] (rocket.rs, server.rs, error.rs) runs it,
      [Shutdown] (lib/src/shutdown, listener/cancellable.rs, bounced.rs) ends it
      and its connections;
    - [Lifecycle] (lib/src/lifecycle.rs) composes them: a request is
      preprocessed, routed with the router's routes, answered by a handler or
      a catcher ([DefaultCatcher] has the error pages), and its response
      completed; [Server] (lib/src/server.rs, request/request.rs,
      from_request.rs) makes the request of what hyper parsed and hands the
      response back, [Endpoint] (lib/src/listener/endpoint.rs) is where it
      comes from, [UnixSocket] (listener/unix.rs, default.rs, tcp.rs) what is
      bound, [Tls] (lib/src/tls, mtls) what secures it,
      [LocalClient] (lib/src/local) dispatches without a network;
    - beside it, [SyncPool] (contrib/sync_db_pools) shares the connections of a
      blocking database driver among tasks, and [Templates]
      (contrib/dyn_templates) finds, renders and reloads templates, [WebSocket]
      (contrib/ws) upgrades connections;
    - [Search] has the binary search of the standard library, which [Limits]
      and [Fairings] use; [Crates] the interfaces of third-party crates that
      several files use.

    A file models the source files named in its opening comment; a definition
    has the name of the Rust item, or [type_item] where the name is taken; the
    comment before it names the item where they differ.

    ** Conventions

    A [str] is the list of its bytes.  A [usize] is a [nat], other machine
    integers are in [Z].  A [Result] whose error only carries a message is an
    [option]; a panic is [None].  A method with a [&mut self] receiver returns
    the new value.  A [HashMap] is a [gmap]; an [IndexMap] keeps its order.  A
    future or stream is polled by a function of its state, with the answers of
    what it polls.

    Third-party crates are type classes of operations, with their documented
    behaviour in classes of laws ([Crates], [UriTables], [MediaParse],
    [Cookies], [Shutdown], [Config], [Rocket], [Endpoint], [Server],
    [SyncPool], [FormGuard], [TempFile], [SerdeGuards], [Templates], [WebSocket]); modules named [...Reference]
    have an instance of each with the laws proved, which the witnesses use.  No
    law is assumed that does not hold of the instance.

    In [Shutdown], the tasks that share a trip wire interleave at every access
    to shared memory, each of which is sequentially consistent; in [SyncPool]
    tasks and jobs interleave where they wait, and tasks may be cancelled there;
    in [UnixSocket] processes interleave at every system call and may be killed.

    ** What the theorems show

    - routing: [Router.finalize_spec], [route_strictly_sorted], [catch_spec],
      [catch_unambiguous]: finalizing fails exactly on collisions, after which
      the handlers and catchers to try are determined;
      [Rocket.mount_order_irrelevant]: by the set of what is mounted, not the
      order;
    - launch: [Launch.launch_spec], [Rocket.ignite_spec],
      [Sentinel.sentinels_queried],
      [Catcher.catcher_invariant], [Fairings.add_spec], [Limits.limits_spec],
      [Config.secret_key_roundtrip], [AdHoc.normalizer_compat];
    - the life cycle: [Lifecycle.route_loop_iff], [dispatch_total],
      [dispatch_error_spec], [head_autohandling], [finish_spec],
      [preprocess_override], [Server.from_hyp_spec], [service_answers]: every
      request is answered, [LocalClient.local_session];
    - attributes: [Codegen.from_spec], [Generated.params_found]: a handler runs
      with the parameters its attribute names, [Params.int_param_bounds],
      [Derives.generated_catcher], [derived_responder], [derived_param];
      [UriMacro.validate_spec], [uri_matches_route]: the URIs made for a route
      are matched by it;
    - URIs: [Route.try_new_mounts], [default_rank_table],
      [Uri.into_normalized_correct], [segments_cursor], [to_path_buf_spec],
      [UriTables.origin_from_str_iff], [UriForms.uri_forms_roundtrip],
      [Indexed.zero_copy_origin], with [prepend_parsed_suffix_panics] for
      references that are mixed up,
      [to_absolute_whitelisted], [UriFmt.built_path_segments],
      [built_query_fields], [DeriveUri.derived_query_roundtrip];
    - headers: [Header.header_map_spec], [remove_all_iter], [header_validity],
      [Request.header_cache_coherent], [MediaParse.media_type_roundtrip],
      [MediaType.extension_roundtrip], [preferred_unweighted];
    - bodies: [DataStream.data_guards_limited], [Transforms.transformed_body],
      [empty_read_loses] for a read without room, [Data.peek_spec],
      [SerdeGuards.serde_guards_spec], [TempFile.temp_file_made],
      [temp_file_keeps_contents],
      [FormParser.fields_spec], [FormName.keys_terminate], [keys_diverge];
    - forms: [FormGuard.form_guard_spec], [FromForm.single_field_spec], [sequence_spec],
      [map_collection_spec], [DeriveForm.derived_spec],
      [enum_from_value_spec]: what each push parser makes of the fields,
      [FormContext.contextual_spec], [Validate.range_checks_exact],
      [one_of_spec];
    - responses: [EventStreams.Delivery.event_stream_delivers],
      [FileServer.file_server_confined], [Flash.flash_spec],
      [Cookies.cookie_jar_pending], [Response.strip_keeps_size],
      [merge_join_spec], [RawStr.html_escape_roundtrip],
      [Shield.shield_headers];
    - contrib: [SyncPool.pool_sound], [pool_drains],
      [Templates.templates_consistent], [WebSocket.websocket_upgraded];
    - shutdown: [Shutdown.TripWire.wake_ups_never_lost],
      [Cancellable.connection_ends], [Rocket.try_wait_shutdown_spec];
    - listeners: [UnixSocket.unix_exclusive], with [lock_file_race] for when
      its premise fails, [default_bind_spec]; [Tls.server_config_spec],
      [tls_bind_spec], [certificate_guard_spec].

    ** Fuel

    [Lifecycle.dispatch_error_loop] turns at most twice ([dispatch_total]).
    [FormParser.parser_run] consumes a byte per turn, so the length of the
    source is enough ([fields_spec]).  [FormName.run] needs one turn more than
    the name has bytes ([keys_terminate]), unless the name has a [=], when no
    fuel is enough ([keys_diverge]).  [Sentinel.query_loop] takes a sentinel per
    turn, so their number is enough ([query_reached]).  The loops of the
    pollers ([RawSse], [Streams], [Shutdown]) run as often as what they poll is
    ready at once, and the theorems give bounds; [Fairings.handle_ignite] ends
    unless fairings attach fairings for ever.

    ** What is not modelled

    Input and output (connections, HTTP/3, TLS handshakes, files, signals), the scheduling of tasks,
    logging, the macros other than those above, and what
    only wraps a third-party crate: the extraction of the configuration,
    the asynchronous database pools, the bytes of multipart
    forms, private cookies. *)

From Stdlib Require Import DecimalString DecimalNat DecimalFacts.
From Stdlib Require Export ZArith Lia Ascii.
From stdpp Require Export base list strings gmap sorting.

(** ** Strings

    A Rust [str] is modelled by the list of its UTF-8 bytes. *)

Abbreviation str := (list ascii).

Definition lit (s : string) : str := String.list_ascii_of_string s.
Arguments lit s%_string_scope : simpl never.

Declare Scope rocket_scope.
Delimit Scope rocket_scope with rocket.
Notation "# s" := (lit s) (at level 1, s at level 0, format "# s") : rocket_scope.
Open Scope rocket_scope.

(** [str::split(char)]: the pieces between the delimiters, at least one. *)
Fixpoint split_on (d : ascii) (s : str) : list str :=
  match s with
  | [] => [[]]
  | c :: s' =>
    if decide (c = d) then [] :: split_on d s'
    else match split_on d s' with
         | [] => [[c]]
         | w :: ws => (c :: w) :: ws
         end
  end.

(** [[T]::join]: the pieces with the delimiter between them. *)
Fixpoint join (d : ascii) (ws : list str) : str :=
  match ws with
  | [] => []
  | [w] => w
  | w :: ws' => w ++ d :: join d ws'
  end.

(** [str::starts_with(&str)], [str::ends_with(&str)], [str::strip_prefix]. *)
Fixpoint strip_prefix (p s : str) : option str :=
  match p, s with
  | [], _ => Some s
  | c :: p', c' :: s' => if decide (c = c') then strip_prefix p' s' else None
  | _ :: _, [] => None
  end.

Definition starts_with (p s : str) : bool :=
  match strip_prefix p s with Some _ => true | None => false end.

Definition ends_with (p s : str) : bool := starts_with (reverse p) (reverse s).

(** The offset of the first [d] of [s], as [memchr] and [str::find(char)]. *)
Fixpoint find_byte (d : ascii) (s : str) : option nat :=
  match s with
  | [] => None
  | c :: s' => if decide (c = d) then Some 0 else S <$> find_byte d s'
  end.

(** The offset of the first byte of [s] with the property. *)
Fixpoint find_by (P : ascii → bool) (s : str) : option nat :=
  match s with
  | [] => None
  | c :: s' => if P c then Some 0 else S <$> find_by P s'
  end.

(** The offsets of all the [d] of [s], in order. *)
Fixpoint find_bytes (d : ascii) (s : str) : list nat :=
  match s with
  | [] => []
  | c :: s' => (if decide (c = d) then [0] else []) ++ (S <$> find_bytes d s')
  end.

(** [std::borrow::Cow<'_, str>], and the string it dereferences to. *)
Inductive Cow := Borrowed (s : str) | Owned (s : str).

Definition cow_value (c : Cow) : str := match c with Borrowed s | Owned s => s end.

(** [str::split_once(char)]. *)
Definition split_once (d : ascii) (s : str) : option (str * str) :=
  match find_byte d s with
  | Some i => Some (take i s, drop (S i) s)
  | None => None
  end.

(** ASCII lower case, [u8::to_ascii_lowercase]. *)
Definition to_lower (c : ascii) : ascii :=
  let n := nat_of_ascii c in
  if (65 <=? n)%nat && (n <=? 90)%nat then ascii_of_nat (n + 32) else c.

(** ** Trimming

    [str::trim] removes the Unicode white space at both ends
    ([char::is_whitespace]); these are its characters in UTF-8. *)

Definition bytes (l : list nat) : str := ascii_of_nat <$> l.

Definition whitespace : list str :=
  bytes <$>
  ([[9]; [10]; [11]; [12]; [13]; [32]; [194; 133]; [194; 160]; [225; 154; 128]] ++
   ((λ k, [226; 128; k]) <$> seq 128 11) ++
   [[226; 128; 168]; [226; 128; 169]; [226; 128; 175]; [226; 129; 159]; [227; 128; 128]])%nat.

(** Removes one of the words [ws] at the front, the first that fits. *)
Fixpoint strip_one (ws : list str) (s : str) : option str :=
  match ws with
  | [] => None
  | w :: ws' => match strip_prefix w s with
                | Some s' => Some s'
                | None => strip_one ws' s
                end
  end.

(** Removes words at the front as long as one fits; every word is non-empty,
    so the length of [s] is enough fuel. *)
Fixpoint strip_all (fuel : nat) (ws : list str) (s : str) : str :=
  match fuel with
  | O => s
  | S n => match strip_one ws s with
           | Some s' => strip_all n ws s'
           | None => s
           end
  end.

Definition trim_start (s : str) : str := strip_all (length s) whitespace s.

Definition trim_end (s : str) : str :=
  reverse (strip_all (length s) (reverse <$> whitespace) (reverse s)).

Definition trim (s : str) : str := trim_end (trim_start s).

(** [std::str::from_utf8]: whether bytes are well-formed UTF-8.  A lead byte
    determines the number of continuation bytes and the range of the first. *)
Definition utf8_lead (n : nat) : option (nat * nat * nat) :=
  if (n <? 128)%nat then Some (0, 128, 191)%nat
  else if (n <? 194)%nat then None
  else if (n <? 224)%nat then Some (1, 128, 191)%nat
  else if (n =? 224)%nat then Some (2, 160, 191)%nat
  else if (n =? 237)%nat then Some (2, 128, 159)%nat
  else if (n <? 240)%nat then Some (2, 128, 191)%nat
  else if (n =? 240)%nat then Some (3, 144, 191)%nat
  else if (n <? 244)%nat then Some (3, 128, 191)%nat
  else if (n =? 244)%nat then Some (3, 128, 143)%nat
  else None.

(** [need] continuation bytes are due, the next one within [lo, hi]. *)
Fixpoint utf8_from (need lo hi : nat) (s : str) : bool :=
  match s with
  | [] => (need =? 0)%nat
  | c :: s =>
    let n := nat_of_ascii c in
    match need with
    | O => match utf8_lead n with
           | Some (need, lo, hi) => utf8_from need lo hi s
           | None => false
           end
    | S need => (lo <=? n)%nat && (n <=? hi)%nat && utf8_from need 128 191 s
    end
  end.

Definition is_utf8 (s : str) : bool := utf8_from 0 128 191 s.

(** [slice::sort_by_key]: the stable sort by an integer key. *)
Fixpoint insert_by {A} (key : A → Z) (x : A) (l : list A) : list A :=
  match l with
  | [] => [x]
  | y :: l' => if (key x <=? key y)%Z then x :: l else y :: insert_by key x l'
  end.

Fixpoint sort_by_key {A} (key : A → Z) (l : list A) : list A :=
  match l with
  | [] => []
  | x :: l' => insert_by key x (sort_by_key key l')
  end.

(** The emptiness test of strings, [str::is_empty]. *)
Definition is_empty {A} (l : list A) : bool :=
  match l with [] => true | _ => false end.

(** The decimal text of a number. *)
Definition decimal_text (n : nat) : str := lit (NilEmpty.string_of_uint (Nat.to_uint n)).

(** The text of an integer. *)
Definition integer_text (z : Z) : str :=
  let text n := lit (NilEmpty.string_of_uint (N.to_uint (Z.to_N n))) in
  if (z <? 0)%Z then "-"%char :: text (- z)%Z else text z.

(** [str::parse] of unsigned integers up to [max]: decimal digits, at least
    one, after an optional [+]. *)
Definition is_digit (c : ascii) : bool :=
  (48 <=? nat_of_ascii c)%nat && (nat_of_ascii c <=? 57)%nat.

Fixpoint parse_digits (max acc : Z) (s : str) : option Z :=
  match s with
  | [] => Some acc
  | c :: s =>
    if is_digit c then
      let acc := (10 * acc + (Z.of_nat (nat_of_ascii c) - 48))%Z in
      if (acc <=? max)%Z then parse_digits max acc s else None
    else None
  end.

Definition parse_unsigned (max : Z) (s : str) : option Z :=
  match s with
  | [] => None
  | ["+"%char] => None
  | c :: s' => parse_digits max 0 (if decide (c = "+"%char) then s' else s)
  end.

Definition usize_max : Z := 2 ^ 64 - 1.

(** ** Decimal numbers *)

Lemma of_uint_acc_le d acc : (acc ≤ Nat.of_uint_acc d acc)%nat.
Proof.
  rewrite Unsigned.of_uint_acc_spec. pose proof (Nat.pow_nonzero 10 (Unsigned.usize d)). nia.
Qed.

Lemma parse_digits_uint max d acc :
  (Z.of_nat (Nat.of_uint_acc d acc) ≤ max)%Z →
  parse_digits max (Z.of_nat acc) (lit (NilEmpty.string_of_uint d)) =
    Some (Z.of_nat (Nat.of_uint_acc d acc)).
Proof.
  unfold lit. revert acc. induction d; intros acc;
    cbn [Nat.of_uint_acc NilEmpty.string_of_uint String.list_ascii_of_string parse_digits]; [done|..];
    rewrite Nat.tail_mul_spec; intros Hmax; rewrite <-IHd by done;
    match goal with |- context [nat_of_ascii ?c] =>
      let n := eval vm_compute in (nat_of_ascii c) in
      change (nat_of_ascii c) with n; change (is_digit c) with true end;
    match goal with |- context [parse_digits _ (Z.of_nat ?n) _] =>
      pose proof (of_uint_acc_le d n) end;
    rewrite (proj2 (Z.leb_le _ _)) by lia; f_equal; lia.
Qed.

Lemma integer_text_Forall (P : ascii → Prop) z :
  Forall P (lit "-0123456789") → Forall P (integer_text z).
Proof.
  intros HP. assert (∀ c, c ∈ lit "-0123456789" → P c) as Hc by (by apply Forall_forall).
  assert (∀ d, Forall P (lit (NilEmpty.string_of_uint d))) as Hd.
  { intros d. induction d; cbn; constructor; auto; apply Hc; set_solver. }
  unfold integer_text. destruct (z <? 0)%Z; [constructor|]; auto. apply Hc. set_solver.
Qed.

Lemma decimal_text_ne n : decimal_text n ≠ [].
Proof.
  unfold decimal_text, lit. pose proof (Unsigned.of_to n) as Hn.
  destruct (Nat.to_uint n) eqn:E; try done. simpl in Hn. by subst n.
Qed.

Lemma parse_decimal_text max n :
  (Z.of_nat n ≤ max)%Z → parse_digits max 0 (decimal_text n) = Some (Z.of_nat n).
Proof.
  intros Hn. unfold decimal_text. pose proof (Unsigned.of_to n) as Hu. unfold Nat.of_uint in Hu.
  pose proof (parse_digits_uint max (Nat.to_uint n) 0) as Hp. rewrite Hu in Hp. by apply Hp.
Qed.

Lemma parse_digits_all max acc s z : parse_digits max acc s = Some z → Forall (λ c, is_digit c = true) s.
Proof.
  revert acc. induction s as [|c s IH]; intros acc; simpl; [by constructor|].
  destruct (is_digit c) eqn:Hc; [|done]. case_match; [|done]. eauto.
Qed.

Lemma decimal_text_digits n : Forall (λ c, is_digit c = true) (decimal_text n).
Proof. eapply parse_digits_all, (parse_decimal_text (Z.of_nat n)). done. Qed.

Lemma parse_unsigned_decimal max n :
  (Z.of_nat n ≤ max)%Z → parse_unsigned max (decimal_text n) = Some (Z.of_nat n).
Proof.
  intros Hn. pose proof (parse_decimal_text max n Hn) as Hp. pose proof (decimal_text_digits n) as Hd.
  destruct (decimal_text n) as [|c s] eqn:E; [by destruct (decimal_text_ne n)|].
  inversion_clear Hd as [|? ? Hc _]. assert (c ≠ "+"%char) by (by intros ->).
  rewrite <-Hp. unfold parse_unsigned. rewrite decide_False by done.
  destruct c as [[] [] [] [] [] [] [] []], s; done.
Qed.

Lemma uint_of_digits k n : n < 10 ^ k → ∃ d, Decimal.nb_digits d = k ∧ Nat.of_uint d = n.
Proof.
  revert n. induction k as [|k IH]; intros n Hn.
  - exists Decimal.Nil. simpl in *. split; [done|]. unfold Nat.of_uint. simpl. lia.
  - destruct (IH (n mod 10 ^ k)) as (d & Hd & Hv); [by apply Nat.mod_upper_bound, Nat.pow_nonzero|].
    pose proof (Nat.div_mod n (10 ^ k) ltac:(by apply Nat.pow_nonzero)) as Hdm.
    assert (n / 10 ^ k < 10) as Hq by (apply Nat.Div0.div_lt_upper_bound; simpl in Hn; lia).
    assert (∀ q, Nat.of_uint_acc d q = n mod 10 ^ k + q * 10 ^ k) as Hacc.
    { intros q. unfold Nat.of_uint in Hv. rewrite Unsigned.of_uint_acc_spec in Hv |- *.
      assert (Unsigned.usize d = k) as <-; [|lia].
      rewrite <-Hd. clear. induction d; simpl; congruence. }
    set (q := n / 10 ^ k) in *.
    exists (match q with
            | 0 => Decimal.D0 d | 1 => Decimal.D1 d | 2 => Decimal.D2 d | 3 => Decimal.D3 d
            | 4 => Decimal.D4 d | 5 => Decimal.D5 d | 6 => Decimal.D6 d | 7 => Decimal.D7 d
            | 8 => Decimal.D8 d | _ => Decimal.D9 d end).
    unfold Nat.of_uint. do 10 (destruct q as [|q]; [simpl; rewrite Hacc, Hd; simpl; split; [done|lia]|]). lia.
Qed.

Lemma decimal_text_length n k : 0 < k → n < 10 ^ k → length (decimal_text n) ≤ k.
Proof.
  intros Hk (d & Hd & <-)%uint_of_digits. unfold decimal_text. rewrite Unsigned.to_of.
  assert (∀ u, length (lit (NilEmpty.string_of_uint u)) = Decimal.nb_digits u) as ->.
  { unfold lit. induction u; simpl; congruence. }
  etrans; [apply nb_digits_unorm|lia]. apply nb_digits_n0. lia.
Qed.

(** ** Emptiness *)

Lemma is_empty_true {A} (l : list A) : is_empty l = true ↔ l = [].
Proof. destruct l; naive_solver. Qed.

Lemma is_empty_false {A} (l : list A) : is_empty l = false ↔ l ≠ [].
Proof. destruct l; naive_solver. Qed.

(** ** Boolean tests

    [reflect_tests] turns the boolean tests of a goal and its hypotheses into
    propositions. *)

Lemma elem_of_filter_bool {A} (P : A → bool) x l : x ∈ List.filter P l ↔ x ∈ l ∧ P x = true.
Proof. rewrite !list_elem_of_In. apply filter_In. Qed.

Create Rewrite HintDb rocket.
#[export] Hint Rewrite @elem_of_filter_bool @is_empty_true @is_empty_false @bool_decide_eq_true
  @bool_decide_eq_false andb_true_iff andb_false_iff orb_true_iff orb_false_iff negb_true_iff
  negb_false_iff : rocket.

Ltac reflect_tests := autorewrite with rocket in *.

(** ** Splitting and joining *)

Lemma split_on_ne d s : split_on d s ≠ [].
Proof. destruct s; simpl; [done|]. case_decide; [done|]. by destruct (split_on d s). Qed.

Lemma split_on_cons_ne d c s :
  c ≠ d → ∃ w ws, split_on d s = w :: ws ∧ split_on d (c :: s) = (c :: w) :: ws.
Proof.
  intros Hne. simpl. rewrite decide_False by done.
  pose proof (split_on_ne d s). destruct (split_on d s) as [|w ws]; [done|]. eauto.
Qed.

Lemma split_on_no_delim d s : Forall (λ w, d ∉ w) (split_on d s).
Proof.
  induction s as [|c s IH]; simpl; [repeat constructor; set_solver|].
  case_decide; [constructor; [set_solver|done]|].
  destruct (split_on d s); inversion IH; repeat constructor; set_solver.
Qed.

Lemma join_cons d w ws : ws ≠ [] → join d (w :: ws) = w ++ d :: join d ws.
Proof. by destruct ws. Qed.

Lemma join_split d s : join d (split_on d s) = s.
Proof.
  induction s as [|c s IH]; [done|]. simpl. case_decide as Hc.
  - subst. rewrite join_cons by apply split_on_ne. by rewrite IH.
  - pose proof (split_on_ne d s). destruct (split_on d s) as [|w ws]; [done|].
    destruct ws; simpl in *; by rewrite IH.
Qed.

Lemma split_on_app d u v :
  d ∉ u → split_on d (u ++ d :: v) = u :: split_on d v.
Proof.
  induction u as [|c u IH]; intros Hu; simpl.
  - by rewrite decide_True.
  - rewrite decide_False by set_solver. rewrite IH by set_solver. done.
Qed.

Lemma split_on_none d u : d ∉ u → split_on d u = [u].
Proof.
  induction u as [|c u IH]; intros Hu; simpl; [done|].
  rewrite decide_False by set_solver. by rewrite IH by set_solver.
Qed.

Lemma split_join d ws :
  ws ≠ [] → Forall (λ w, d ∉ w) ws → split_on d (join d ws) = ws.
Proof.
  induction ws as [|w ws IH]; [done|]. intros _ Hall. inversion_clear Hall.
  destruct ws as [|w' ws]; [by apply split_on_none|].
  rewrite join_cons, split_on_app by done. by rewrite IH.
Qed.

Lemma split_on_app_delim d u v :
  split_on d (u ++ d :: v) = split_on d u ++ split_on d v.
Proof.
  induction u as [|c u IH]; simpl; [by rewrite decide_True|].
  rewrite IH. case_decide; [done|]. pose proof (split_on_ne d u).
  by destruct (split_on d u).
Qed.

Lemma join_snoc d ws w : ws ≠ [] → join d (ws ++ [w]) = join d ws ++ d :: w.
Proof.
  induction ws as [|x ws IH]; [done|]. intros _. destruct ws as [|y ws]; [done|].
  cbn [app]. rewrite join_cons by done.
  rewrite (join_cons d x (y :: ws)) by done. rewrite <-app_assoc. simpl. do 2 f_equal.
  by apply IH.
Qed.

Lemma split_on_app_last d u v :
  ∃ ws w ws' w', split_on d u = ws ++ [w] ∧ split_on d v = w' :: ws' ∧
    split_on d (u ++ v) = ws ++ (w ++ w') :: ws'.
Proof.
  induction u as [|c u IH]; simpl.
  - pose proof (split_on_ne d v). destruct (split_on d v) as [|w' ws']; [done|].
    by exists [], [], ws', w'.
  - destruct IH as (ws & w & ws' & w' & Hu & Hv & Huv).
    rewrite Hu, Huv, Hv. case_decide.
    + by exists ([] :: ws), w, ws', w'.
    + destruct ws as [|x ws]; simpl.
      * by exists [], (c :: w), ws', w'.
      * by exists ((c :: x) :: ws), w, ws', w'.
Qed.

(** ** Prefixes *)

Lemma strip_prefix_Some p s r : strip_prefix p s = Some r ↔ s = p ++ r.
Proof.
  revert s. induction p as [|c p IH]; intros [|c' s]; simpl; try naive_solver.
  case_decide; [subst; rewrite IH; naive_solver|naive_solver].
Qed.

Lemma strip_prefix_app p s : strip_prefix p (p ++ s) = Some s.
Proof. by apply strip_prefix_Some. Qed.

Lemma starts_with_spec p s : starts_with p s = true ↔ ∃ r, s = p ++ r.
Proof.
  unfold starts_with. destruct (strip_prefix p s) as [r|] eqn:Hs.
  - apply strip_prefix_Some in Hs. naive_solver.
  - split; [done|]. intros [r ->]. by rewrite strip_prefix_app in Hs.
Qed.

Lemma ends_with_spec p s : ends_with p s = true ↔ ∃ r, s = r ++ p.
Proof.
  unfold ends_with. rewrite starts_with_spec. split; intros [r Hr].
  - exists (reverse r). apply (f_equal reverse) in Hr.
    by rewrite reverse_involutive, reverse_app, reverse_involutive in Hr.
  - exists (reverse r). by rewrite Hr, reverse_app.
Qed.

Lemma ends_with_snoc c d s : ends_with [c] (s ++ [d]) = bool_decide (c = d).
Proof.
  unfold ends_with. rewrite reverse_snoc. unfold starts_with. simpl.
  case_decide; [rewrite bool_decide_true by done|rewrite bool_decide_false by done]; done.
Qed.

Lemma find_byte_Some d s i :
  find_byte d s = Some i →
  (s = take i s ++ (d :: drop (S i) s)) ∧ (d ∉ take i s) ∧ (i < length s).
Proof.
  revert i. induction s as [|c s IH]; intros i; simpl; [done|].
  case_decide.
  - intros [= <-]. subst. simpl. split_and!; [done|set_solver|lia].
  - intros (j & (Hs & Hd & Hlt)%IH & ->)%fmap_Some. simpl.
    split_and!; [by f_equal|set_solver|lia].
Qed.

Lemma find_by_Some P s k :
  find_by P s = Some k →
  ∃ u c v, s = u ++ c :: v ∧ length u = k ∧ P c = true ∧ Forall (λ c, P c = false) u.
Proof.
  revert k. induction s as [|c s IH]; intros k; simpl; [done|]. destruct (P c) eqn:Hc.
  - intros [= <-]. by exists [], c, s.
  - intros (j & (u & d & v & -> & <- & Hd & Hu)%IH & ->)%fmap_Some.
    exists (c :: u), d, v. split_and!; try done. by constructor.
Qed.

Lemma find_by_None P s : find_by P s = None → Forall (λ c, P c = false) s.
Proof.
  induction s as [|c s IH]; simpl; [by constructor|]. destruct (P c) eqn:Hc; [done|].
  intros ?%fmap_None. constructor; auto.
Qed.

Lemma find_byte_None d s : find_byte d s = None ↔ d ∉ s.
Proof.
  induction s as [|c s IH]; simpl; [set_solver|].
  case_decide; [set_solver|]. rewrite fmap_None, IH. set_solver.
Qed.

Lemma find_byte_app d u v : d ∉ u → find_byte d (u ++ d :: v) = Some (length u).
Proof.
  induction u as [|c u IH]; intros Hu; simpl; [by rewrite decide_True|].
  rewrite decide_False by set_solver. by rewrite IH by set_solver.
Qed.

(** ** Trimming *)

(** No byte of a white-space character is an ASCII graphic byte, so these
    bytes stop [trim] at either end. *)
Definition graphic (c : ascii) : bool :=
  let n := nat_of_ascii c in (33 <=? n)%nat && (n <=? 126)%nat.

Lemma whitespace_not_graphic :
  forallb (forallb (λ c, negb (graphic c))) whitespace = true.
Proof. vm_compute. reflexivity. Qed.

Lemma reverse_whitespace_not_graphic :
  forallb (forallb (λ c, negb (graphic c))) (reverse <$> whitespace) = true.
Proof. vm_compute. reflexivity. Qed.

Lemma strip_prefix_stop w u d v :
  forallb (λ c, negb (graphic c)) w = true → graphic d = true →
  strip_prefix w (u ++ d :: v) = (λ u', u' ++ d :: v) <$> strip_prefix w u.
Proof.
  intros Hw Hd. revert u Hw. induction w as [|c w IH]; intros u Hw; [done|].
  simpl in Hw. apply andb_prop in Hw as [Hc Hw].
  destruct u as [|c' u]; simpl.
  - rewrite decide_False; [done|]. intros ->. by rewrite Hd in Hc.
  - case_decide; [by apply IH|done].
Qed.

Lemma strip_one_stop ws u d v :
  forallb (forallb (λ c, negb (graphic c))) ws = true → graphic d = true →
  strip_one ws (u ++ d :: v) = (λ u', u' ++ d :: v) <$> strip_one ws u.
Proof.
  intros Hws Hd. induction ws as [|w ws IH]; [done|]. simpl in *.
  apply andb_prop in Hws as [Hw Hws].
  rewrite strip_prefix_stop by done. destruct (strip_prefix w u); simpl; auto.
Qed.

Lemma strip_one_length ws s s' :
  Forall (λ w, w ≠ []) ws → strip_one ws s = Some s' → length s' < length s.
Proof.
  induction ws as [|w ws IH]; [done|]. intros Hws. inversion_clear Hws. simpl.
  destruct (strip_prefix w s) eqn:Hw; [|auto]. intros [= ->].
  apply strip_prefix_Some in Hw. subst. rewrite length_app.
  destruct w; simpl; [done|lia].
Qed.

Lemma strip_all_fuel ws n m s :
  Forall (λ w, w ≠ []) ws → length s ≤ n → length s ≤ m →
  strip_all n ws s = strip_all m ws s.
Proof.
  intros Hws. revert m s. induction n as [|n IH]; intros [|m] s Hn Hm; simpl; try done.
  - destruct s; simpl in *; [|lia]. destruct (strip_one ws []) eqn:E; [|done].
    apply strip_one_length in E; simpl in *; [lia|done].
  - destruct s; simpl in *; [|lia]. destruct (strip_one ws []) eqn:E; [|done].
    apply strip_one_length in E; simpl in *; [lia|done].
  - destruct (strip_one ws s) eqn:E; [|done].
    apply strip_one_length in E; [|done]. apply IH; lia.
Qed.

Lemma whitespace_ne : Forall (λ w : str, w ≠ []) whitespace.
Proof. repeat constructor; discriminate. Qed.

Lemma reverse_whitespace_ne : Forall (λ w : str, w ≠ []) (reverse <$> whitespace).
Proof. repeat constructor; discriminate. Qed.

Lemma strip_all_stop n ws u d v :
  forallb (forallb (λ c, negb (graphic c))) ws = true → graphic d = true →
  strip_all n ws (u ++ d :: v) = strip_all n ws u ++ d :: v.
Proof.
  intros Hws Hd. revert u. induction n as [|n IH]; intros u; [done|]. simpl.
  rewrite strip_one_stop by done. destruct (strip_one ws u); simpl; auto.
Qed.

Lemma strip_all_idem n ws s :
  Forall (λ w, w ≠ []) ws → length s ≤ n → strip_one ws (strip_all n ws s) = None.
Proof.
  intros Hws. revert s. induction n as [|n IH]; intros s Hn; simpl.
  - destruct s; simpl in *; [|lia]. destruct (strip_one ws []) eqn:E; [|done].
    apply strip_one_length in E; simpl in *; [lia|done].
  - destruct (strip_one ws s) eqn:E; [|done].
    pose proof (strip_one_length _ _ _ Hws E). apply IH. lia.
Qed.

Lemma strip_all_suffix n ws s : ∃ p, s = p ++ strip_all n ws s.
Proof.
  revert s. induction n as [|n IH]; intros s; [by exists []|]. simpl.
  destruct (strip_one ws s) as [s'|] eqn:E; [|by exists []].
  assert (∃ p, s = p ++ s') as [p ->].
  { clear -E. induction ws as [|w ws IH]; [done|]. simpl in E.
    destruct (strip_prefix w s) eqn:Hw; [|auto]. simplify_eq.
    apply strip_prefix_Some in Hw. eauto. }
  destruct (IH s') as [q Hq]. exists (p ++ q). rewrite <-app_assoc. by f_equal.
Qed.

(** Trimming at a graphic byte: what lies on the far side is untouched. *)
Lemma trim_end_stop u d v : graphic d = true → trim_end (u ++ d :: v) = u ++ d :: trim_end v.
Proof.
  intros Hd. unfold trim_end. rewrite reverse_app, reverse_cons, <-app_assoc. simpl.
  rewrite (strip_all_fuel _ _ (length (u ++ d :: v) + length v))
    by (try apply reverse_whitespace_ne; rewrite ?length_app, ?length_reverse; simpl;
        rewrite ?length_app, ?length_reverse; lia).
  rewrite strip_all_stop by (done || apply reverse_whitespace_not_graphic).
  rewrite (strip_all_fuel _ _ (length v) (reverse v))
    by (try apply reverse_whitespace_ne; rewrite ?length_reverse; lia).
  by rewrite reverse_app, reverse_cons, reverse_involutive, <-app_assoc.
Qed.

Lemma trim_start_graphic c s : graphic c = true → trim_start (c :: s) = c :: s.
Proof.
  intros Hc. unfold trim_start.
  apply (strip_all_stop _ _ [] c s) in Hc as ->; [|apply whitespace_not_graphic].
  by destruct (length (c :: s)).
Qed.

Lemma trim_end_nil : trim_end [] = [].
Proof. done. Qed.

Lemma trim_end_snoc c s : graphic c = true → trim_end (s ++ [c]) = s ++ [c].
Proof. intros Hc. by rewrite trim_end_stop, trim_end_nil. Qed.

(** A string whose first and last bytes are graphic is its own trimming. *)
Lemma trim_graphic s :
  (∀ c, head s = Some c → graphic c = true) →
  (∀ c, last s = Some c → graphic c = true) → trim s = s.
Proof.
  intros Hh Hl. unfold trim. destruct s as [|c s]; [done|].
  rewrite trim_start_graphic by (apply Hh; done).
  destruct (exists_last (l:=c :: s)) as (u & d & Hu); [done|].
  rewrite Hu in *. apply trim_end_snoc, Hl. by rewrite last_snoc.
Qed.

Lemma trim_end_prefix s : ∃ w, s = trim_end s ++ w.
Proof.
  unfold trim_end.
  destruct (strip_all_suffix (length s) (reverse <$> whitespace) (reverse s)) as [p Hp].
  exists (reverse p). apply (f_equal reverse) in Hp.
  by rewrite reverse_involutive, reverse_app in Hp.
Qed.

Lemma trim_end_idem s : trim_end (trim_end s) = trim_end s.
Proof.
  unfold trim_end at 1.
  assert (strip_one (reverse <$> whitespace) (reverse (trim_end s)) = None) as Hn.
  { unfold trim_end. rewrite reverse_involutive.
    apply strip_all_idem; [apply reverse_whitespace_ne|by rewrite length_reverse]. }
  destruct (length (trim_end s)); cbn [strip_all]; [by rewrite reverse_involutive|].
  by rewrite Hn, reverse_involutive.
Qed.

(** ** Sorting *)

Section sort.
Context {A : Type} (key : A → Z).

Definition key_le (x y : A) : Prop := (key x ≤ key y)%Z.

Lemma insert_by_perm x l : insert_by key x l ≡ₚ x :: l.
Proof.
  induction l as [|y l IH]; simpl; [done|].
  destruct (key x <=? key y)%Z; [done|]. rewrite IH. apply Permutation_swap.
Qed.

Lemma sort_by_key_perm l : sort_by_key key l ≡ₚ l.
Proof. induction l as [|x l IH]; simpl; [done|]. by rewrite insert_by_perm, IH. Qed.

Lemma elem_of_sort_by_key x l : x ∈ sort_by_key key l ↔ x ∈ l.
Proof. by rewrite sort_by_key_perm. Qed.

Lemma insert_by_sorted x l : StronglySorted key_le l → StronglySorted key_le (insert_by key x l).
Proof.
  unfold key_le. induction 1 as [|y l Hs IH Hy]; simpl; [repeat constructor|].
  destruct (Z.leb_spec (key x) (key y)).
  - constructor; [by constructor|]. constructor; [done|].
    eapply Forall_impl; [done|]. simpl. lia.
  - constructor; [done|]. rewrite insert_by_perm. constructor; [lia|done].
Qed.

Lemma sort_by_key_sorted l : StronglySorted key_le (sort_by_key key l).
Proof. induction l; simpl; [constructor|by apply insert_by_sorted]. Qed.

(** Inserting before everything no smaller. *)
Lemma insert_by_head x l : Forall (key_le x) l → insert_by key x l = x :: l.
Proof.
  unfold key_le. destruct 1 as [|y l Hy]; simpl; [done|].
  by rewrite (proj2 (Z.leb_le _ _)) by done.
Qed.

(** Sorting commutes with filtering, which is its stability: the survivors
    of equal keys keep their order. *)
Lemma filter_insert_by (P : A → bool) x l :
  StronglySorted key_le l →
  List.filter P (insert_by key x l) =
    if P x then insert_by key x (List.filter P l) else List.filter P l.
Proof.
  unfold key_le. induction 1 as [|y l Hs IH Hy]; simpl; [done|].
  destruct (Z.leb_spec (key x) (key y)) as [Hle|Hlt].
  - simpl. destruct (P x) eqn:Hx; [|done].
    rewrite insert_by_head; [done|]. apply Forall_forall. intros z Hz.
    assert (z ∈ y :: l) as [->|Hz']%elem_of_cons.
    { apply list_elem_of_In. apply list_elem_of_In, (filter_In P (z) (y :: l)) in Hz. apply Hz. }
    + done.
    + rewrite Forall_forall in Hy. specialize (Hy z Hz'). unfold key_le. lia.
  - simpl. rewrite IH. destruct (P y) eqn:HPy, (P x); simpl; try done.
    by rewrite (proj2 (Z.leb_gt _ _)) by lia.
Qed.

Lemma filter_sort_by_key (P : A → bool) l :
  List.filter P (sort_by_key key l) = sort_by_key key (List.filter P l).
Proof.
  induction l as [|x l IH]; simpl; [done|].
  rewrite filter_insert_by, IH by apply sort_by_key_sorted. by destruct (P x).
Qed.
End sort.

Lemma sort_by_key_fmap {A B} (f : A → B) (key : B → Z) l :
  f <$> sort_by_key (λ x, key (f x)) l = sort_by_key key (f <$> l).
Proof.
  assert (∀ x l, f <$> insert_by (λ x, key (f x)) x l = insert_by key (f x) (f <$> l)) as Hi.
  { intros x l'. induction l' as [|y l' IH]; simpl; [done|].
    destruct (key (f x) <=? key (f y))%Z; [done|]. rewrite fmap_cons. f_equal. apply IH. }
  induction l as [|x l IH]; simpl; [done|]. by rewrite Hi, IH.
Qed.
