(* ===== verification/Sentinel.v ===== *)
(** * Sentinel: which types are asked whether to abort a launch
    (core/lib/src/sentinel.rs, core/codegen/src/attribute/route/mod.rs and
    syn_ext.rs)

    The attribute macros write a [Sentry] for each type of a handler's
    signature; [query] walks the graph of them when an instance ignites.  A
    [TypeId] is a number, as is the function pointer [abort], which [call]
    applies to the instance. *)

From S2P Require Import Prelude.

(** ** Sentries *)

(** [struct Sentry]. *)
Record Sentry := mkSentry {
  type_id : nat;
  type_name : str;
  sentry_parent : option nat;
  sentry_location : str * Z * Z;
  specialized : bool;
  abort : nat;
}.

(** [impl Sentinel for Option<T>], [Result<T, E>], [Either<T, E>],
    [response::Debug<T>], given the results for [T] and [E]. *)
Definition option_abort (t : bool) : bool := t.
Definition result_abort (t e : bool) : bool := let left := t in let right := e in left || right.
Definition either_abort (t e : bool) : bool := let left := t in let right := e in left || right.
Definition debug_abort : bool := false.

Section query.
Context (call : nat → bool).

(** The loop that builds the graph. *)
Definition add_sentinel (st : list Sentry * gmap nat (list Sentry)) (sentinel : Sentry)
  : list Sentry * gmap nat (list Sentry) :=
  let '(roots, map) := st in
  match sentry_parent sentinel with
  | Some parent => (roots, <[parent := default [] (map !! parent) ++ [sentinel]]> map)
  | None => (roots ++ [sentinel], map)
  end.

Definition build (sentinels : list Sentry) : list Sentry * gmap nat (list Sentry) :=
  foldl add_sentinel ([], ∅) sentinels.

(** [visited.entry(id).or_insert_with(abort)]. *)
Definition visit_entry (sentinel : Sentry) (visited : gmap nat bool) : bool * gmap nat bool :=
  match visited !! type_id sentinel with
  | Some b => (b, visited)
  | None => let b := call (abort sentinel) in (b, <[type_id sentinel := b]> visited)
  end.

(** The traversal; each turn takes a sentinel from [remaining]. *)
Fixpoint query_loop (fuel : nat) (remaining : list Sentry) (map : gmap nat (list Sentry))
    (visited : gmap nat bool) (aborted : list Sentry) : option (list Sentry) :=
  match remaining with
  | [] => Some aborted
  | sentinel :: remaining =>
    match fuel with
    | O => None
    | S fuel =>
      if specialized sentinel then
        let '(b, visited) := visit_entry sentinel visited in
        query_loop fuel remaining map visited (if b then aborted ++ [sentinel] else aborted)
      else
        match map !! type_id sentinel with
        | Some children =>
          query_loop fuel (remaining ++ children) (delete (type_id sentinel) map) visited aborted
        | None => query_loop fuel remaining map visited aborted
        end
    end
  end.

(** [sentinel::query]; every sentinel is taken at most once. *)
Definition query (sentinels : list Sentry) : option (unit + list Sentry) :=
  let '(roots, map) := build sentinels in
  aborted ← query_loop (length sentinels) roots map ∅ [];
  Some (match aborted with [] => inl tt | _ => inr aborted end).

(** What is reached from the roots through types that are not sentinels. *)
Inductive reached (sentinels : list Sentry) : Sentry → Prop :=
  | reached_root s : s ∈ sentinels → sentry_parent s = None → reached sentinels s
  | reached_child p s :
      reached sentinels p → specialized p = false → s ∈ sentinels →
      sentry_parent s = Some (type_id p) → reached sentinels s.
End query.

(** ** Sentries of a route *)

(** [syn::Type]: a path with its generic arguments, a macro with what the
    expected macros' parser makes of its tokens, or another type; [nested] are
    the types right below it, in the order [syn::visit] has. *)
Inductive Kind :=
  | KPath (segments : list str)
  | KImplTrait
  | KInfer
  | KBareFn
  | KNever
  | KOther (text : str).

#[warnings="-register-all"]
Inductive SynType :=
  | TNode (kind : Kind) (nested : list SynType)
  | TMacro (last_ident : str) (tokens : option SynType).

(** [macro_inner_ty]. *)
Definition is_expected (names : list str) (last_ident : str) : bool :=
  bool_decide (last_ident ∈ names).

(** [TypeExt::unfold_with_ty_macros]: the types with their parents. *)
Fixpoint unfold_type (names : list str) (parent : option SynType) (ty : SynType)
  : list (option SynType * SynType) :=
  match ty with
  | TMacro last_ident (Some inner_ty) =>
    if is_expected names last_ident then unfold_type names parent inner_ty else [(parent, ty)]
  | TMacro _ None => [(parent, ty)]
  | TNode _ nested => (parent, ty) :: concat (unfold_type names (Some ty) <$> nested)
  end.

Definition unfold_with_ty_macros (names : list str) (ty : SynType) := unfold_type names None ty.

(** [ConcreteVisitor::visit_type], on the visitor's flag. *)
Definition is_generic (generics : list str) (kind : Kind) (nested : list SynType) : bool :=
  match kind, nested with
  | KPath [ident], [] => bool_decide (ident ∈ generics)
  | _, _ => false
  end.

Fixpoint visit_type (generics : list str) (flag : bool) (ty : SynType) : bool :=
  match ty with
  | TMacro _ _ => false
  | TNode kind nested =>
    if is_generic generics kind nested then false
    else
      match kind with
      | KImplTrait | KInfer => false
      | KBareFn | KNever => true
      | _ => foldl (visit_type generics) flag nested
      end
  end.

(** [TypeExt::is_concrete]. *)
Definition is_concrete (generics : list str) (ty : SynType) : bool := visit_type generics true ty.

Section sentinels.
Context (tid : SynType → nat) (special : nat → bool) (name : SynType → str)
  (place : SynType → str * Z * Z).

(** [resolve!], as the type is resolved: its [TypeId], and whether it is a
    [Sentinel], whose [abort] is then the type's. *)
Definition resolve (ty : SynType) (parent : option SynType) : Sentry :=
  mkSentry (tid ty) (name ty) (tid <$> parent) (place ty) (special (tid ty)) (tid ty).

Definition TY_MACS : list str :=
  [ #"ReaderStream"; #"TextStream"; #"ByteStream"; #"EventStream"].

(** [sentinels_expr]: [types] are those of the guards and the result. *)
Definition eligible_types (generics : list str) (types : list SynType)
  : list (option SynType * SynType) :=
  List.filter (λ child, is_concrete generics child.2)
    (concat (unfold_with_ty_macros TY_MACS <$> types)).

Definition sentinels_expr (generics : list str) (types : list SynType) : list Sentry :=
  (λ child, resolve child.2
     (match child.1 with
      | Some p => if is_concrete generics p then Some p else None
      | None => None
      end)) <$> eligible_types generics types.
End sentinels.

(** ** Occurrences

    The types embedded in a type, each with all the types it is embedded in,
    the innermost first. *)
Fixpoint occurrences (above : list SynType) (ty : SynType) : list (list SynType * SynType) :=
  match ty with
  | TMacro last_ident (Some inner_ty) =>
    if is_expected TY_MACS last_ident then occurrences above inner_ty else [(above, ty)]
  | TMacro _ None => [(above, ty)]
  | TNode _ nested => (above, ty) :: concat (occurrences (ty :: above) <$> nested)
  end.

(** Types without function pointers and [!]. *)
Fixpoint fn_free (ty : SynType) : bool :=
  match ty with
  | TMacro _ (Some inner_ty) => fn_free inner_ty
  | TMacro _ None => true
  | TNode kind nested =>
    match kind with KBareFn | KNever => false | _ => forallb fn_free nested end
  end.

(** A type that the documentation says is considered: it is embedded in a type
    of some route, it can be named, and no type it is embedded in that can be
    named is a sentinel. *)
Definition considered (tid : SynType → nat) (special : nat → bool)
    (routes : list (list str * list SynType)) (t : SynType) : Prop :=
  ∃ generics types ty above,
    (generics, types) ∈ routes ∧ ty ∈ types ∧ (above, t) ∈ occurrences [] ty ∧
    is_concrete generics t = true ∧
    ∀ a, a ∈ above → is_concrete generics a = true → special (tid a) = false.

(** ** Lemmas on the traversal *)

(** What is left in the graph. *)
Definition content (map : gmap nat (list Sentry)) : list Sentry := concat (map_to_list map).*2.

Lemma content_delete k l (map : gmap nat (list Sentry)) :
  map !! k = Some l → content map ≡ₚ l ++ content (delete k map).
Proof. intros Hk. unfold content. by rewrite <-(map_to_list_delete _ _ _ Hk). Qed.

Lemma content_push k s (map : gmap nat (list Sentry)) :
  content (<[k := default [] (map !! k) ++ [s]]> map) ≡ₚ s :: content map.
Proof.
  rewrite (content_delete k (default [] (map !! k) ++ [s])) by apply lookup_insert_eq.
  rewrite delete_insert_eq. destruct (map !! k) as [l|] eqn:Hk; simpl.
  - rewrite (content_delete k l map Hk). by rewrite Permutation_middle, <-!app_assoc.
  - by rewrite delete_id.
Qed.

Lemma foldl_add_permutation sentinels roots map roots' map' :
  foldl add_sentinel (roots, map) sentinels = (roots', map') →
  roots' ++ content map' ≡ₚ sentinels ++ roots ++ content map.
Proof.
  revert roots map. induction sentinels as [|s sentinels IH]; simpl; intros roots map.
  - by intros [= -> ->].
  - intros Hf. destruct (sentry_parent s) as [k|]; apply IH in Hf as ->.
    + rewrite content_push. solve_Permutation.
    + solve_Permutation.
Qed.

(** Every sentinel is a root or below its parent, and nothing else is. *)
Definition sorted_out (sentinels roots : list Sentry) (map : gmap nat (list Sentry)) : Prop :=
  (∀ s, s ∈ roots ↔ s ∈ sentinels ∧ sentry_parent s = None) ∧
  ∀ k s, s ∈ default [] (map !! k) ↔ s ∈ sentinels ∧ sentry_parent s = Some k.

Lemma foldl_add_sorted_out done sentinels roots map roots' map' :
  sorted_out done roots map →
  foldl add_sentinel (roots, map) sentinels = (roots', map') →
  sorted_out (done ++ sentinels) roots' map'.
Proof.
  revert done roots map. induction sentinels as [|s sentinels IH]; simpl; intros done roots map Hs Hf.
  - rewrite app_nil_r. by injection Hf as -> ->.
  - rewrite cons_middle, app_assoc. destruct Hs as [Hr Hm].
    destruct (sentry_parent s) as [k|] eqn:Hp; (eapply IH in Hf; [exact Hf|]); split.
    + intros s'. rewrite elem_of_app, list_elem_of_singleton, Hr. naive_solver.
    + intros k' s'. rewrite elem_of_app, list_elem_of_singleton. destruct (decide (k' = k)) as [->|Hk].
      * rewrite lookup_insert_eq. simpl. rewrite elem_of_app, list_elem_of_singleton, Hm. naive_solver.
      * rewrite lookup_insert_ne by done. rewrite Hm. naive_solver.
    + intros s'. rewrite !elem_of_app, !list_elem_of_singleton, Hr. naive_solver.
    + intros k' s'. rewrite elem_of_app, list_elem_of_singleton, Hm. naive_solver.
Qed.

Lemma build_spec sentinels roots map :
  build sentinels = (roots, map) →
  roots ++ content map ≡ₚ sentinels ∧ sorted_out sentinels roots map.
Proof.
  unfold build. intros Hb. split.
  - rewrite (foldl_add_permutation _ _ _ _ _ Hb). by rewrite app_nil_r.
  - apply (foldl_add_sorted_out [] sentinels [] ∅); [|done]. split; set_solver.
Qed.

Section traversal.
Context (call : nat → bool) (sentinels : list Sentry).
Context (same_abort : ∀ s s', s ∈ sentinels → s' ∈ sentinels → type_id s = type_id s' →
  abort s = abort s').

Definition aborts (s : Sentry) : bool := specialized s && call (abort s).

(** The state of the traversal after the sentinels [seen] were taken. *)
Record walk (seen remaining : list Sentry) (map : gmap nat (list Sentry))
    (visited : gmap nat bool) (aborted : list Sentry) : Prop := mkWalk {
  walk_all : seen ++ remaining ++ content map ≡ₚ sentinels;
  walk_reached : ∀ s, s ∈ seen ++ remaining → reached sentinels s;
  walk_roots : ∀ s, s ∈ sentinels → sentry_parent s = None → s ∈ seen ++ remaining;
  walk_map : ∀ k s, s ∈ default [] (map !! k) → s ∈ sentinels ∧ sentry_parent s = Some k;
  walk_children : ∀ k s, s ∈ sentinels → sentry_parent s = Some k →
    s ∈ seen ++ remaining ∨ s ∈ default [] (map !! k);
  walk_expanded : ∀ p, p ∈ seen → specialized p = false → default [] (map !! type_id p) = [];
  walk_aborted : aborted = List.filter aborts seen;
  walk_visited : ∀ t b, visited !! t = Some b →
    ∃ s, s ∈ sentinels ∧ type_id s = t ∧ b = call (abort s);
}.

Lemma reached_in s : reached sentinels s → s ∈ sentinels.
Proof. by destruct 1. Qed.

Lemma walk_done seen map visited aborted :
  walk seen [] map visited aborted → ∀ s, s ∈ seen ↔ reached sentinels s.
Proof.
  intros [_ Hre Hro _ Hch Hex _ _] s. rewrite app_nil_r in *. split; [apply Hre|].
  induction 1 as [s Hs Hp|p s _ IH Hsp Hs Hp]; [by apply Hro|].
  destruct (Hch _ _ Hs Hp) as [|Hin]; [done|]. rewrite (Hex _ IH Hsp) in Hin. set_solver.
Qed.

Lemma visit_entry_spec s visited b visited' :
  s ∈ sentinels →
  (∀ t b, visited !! t = Some b → ∃ s, s ∈ sentinels ∧ type_id s = t ∧ b = call (abort s)) →
  visit_entry call s visited = (b, visited') →
  b = call (abort s) ∧
  ∀ t b, visited' !! t = Some b → ∃ s, s ∈ sentinels ∧ type_id s = t ∧ b = call (abort s).
Proof.
  intros Hs Hv. unfold visit_entry. destruct (visited !! type_id s) as [b'|] eqn:Hl; intros [= <- <-].
  - destruct (Hv _ _ Hl) as (s' & Hs' & Ht & ->). by rewrite (same_abort s s').
  - split; [done|]. intros t b. rewrite lookup_insert_Some. naive_solver.
Qed.

(** A turn that moves nothing but the sentinel. *)
Lemma walk_take s seen remaining map visited aborted visited' :
  walk seen (s :: remaining) map visited aborted →
  (specialized s = false → default [] (map !! type_id s) = []) →
  (∀ t b, visited' !! t = Some b → ∃ s, s ∈ sentinels ∧ type_id s = t ∧ b = call (abort s)) →
  walk (seen ++ [s]) remaining map visited'
    (if aborts s then aborted ++ [s] else aborted).
Proof.
  intros [Ha Hre Hro Hm Hch Hex -> _] Hs Hv. split; [..|done]; rewrite <-?app_assoc; [done..| |].
  - intros p [Hp|Hp]%elem_of_app; [by apply Hex|]. by apply list_elem_of_singleton in Hp as ->.
  - rewrite List.filter_app. simpl. by destruct (aborts s); [|rewrite app_nil_r].
Qed.

(** A turn that moves the children of a type. *)
Lemma walk_expand s seen remaining children map visited aborted :
  walk seen (s :: remaining) map visited aborted →
  specialized s = false → map !! type_id s = Some children →
  walk (seen ++ [s]) (remaining ++ children) (delete (type_id s) map) visited aborted.
Proof.
  intros [Ha Hre Hro Hm Hch Hex -> Hv] Hs Hl.
  assert (∀ k, default [] (delete (type_id s) map !! k) =
    if decide (k = type_id s) then [] else default [] (map !! k)) as Hd.
  { intros k. case_decide; [subst; by rewrite lookup_delete_eq|by rewrite lookup_delete_ne]. }
  split; [.. |done]; repeat setoid_rewrite Hd; rewrite <-?app_assoc; simpl.
  - rewrite <-Ha, (content_delete _ _ _ Hl). solve_Permutation.
  - intros x [Hx|[->|[Hx|Hx]%elem_of_app]%elem_of_cons]%elem_of_app; [apply Hre; set_solver..|].
    destruct (Hm (type_id s) x) as [Hin Hp]; [by rewrite Hl|].
    eapply reached_child; [apply Hre, elem_of_app; right; by left|done..].
  - intros x Hx Hp. specialize (Hro x Hx Hp). set_solver.
  - intros k x. case_decide; [set_solver|apply Hm].
  - intros k x Hx Hp. destruct (Hch k x Hx Hp) as [|Hin]; [left; set_solver|].
    case_decide as Hk; [subst; left; rewrite Hl in Hin; set_solver|by right].
  - intros p [Hp|Hp]%elem_of_app Hsp; case_decide; try done; [by apply Hex|set_solver].
  - rewrite List.filter_app. simpl. unfold aborts at 3. rewrite Hs. by rewrite app_nil_r.
Qed.

Lemma query_loop_spec fuel seen remaining map visited aborted :
  walk seen remaining map visited aborted →
  length remaining + length (content map) ≤ fuel →
  ∃ seen', query_loop call fuel remaining map visited aborted = Some (List.filter aborts seen') ∧
    (∀ s, s ∈ seen' ↔ reached sentinels s) ∧ seen' ⊆+ sentinels.
Proof.
  revert seen remaining map visited aborted. induction fuel as [|fuel IH];
    intros seen [|s remaining] map visited aborted Hw Hf; simpl in *; try lia.
  1, 2: exists seen; rewrite <-(walk_aborted _ _ _ _ _ Hw); split_and!;
    [done|by eapply walk_done|rewrite <-(walk_all _ _ _ _ _ Hw); by apply submseteq_inserts_r].
  assert (s ∈ sentinels) as Hs
    by (rewrite <-(walk_all _ _ _ _ _ Hw), !elem_of_app; right; left; by left).
  destruct (specialized s) eqn:Hsp.
  - destruct (visit_entry call s visited) as [b visited'] eqn:Hv.
    apply visit_entry_spec in Hv as [-> Hv]; [|done|apply Hw].
    apply (walk_take _ _ _ _ _ _ visited') in Hw; [|by rewrite Hsp|done].
    unfold aborts in Hw at 1. rewrite Hsp in Hw. simpl in Hw. apply (IH _ _ _ _ _ Hw). lia.
  - destruct (map !! type_id s) as [children|] eqn:Hl.
    + apply (IH _ _ _ _ _ (walk_expand _ _ _ _ _ _ _ Hw Hsp Hl)).
      rewrite (content_delete _ _ _ Hl) in Hf. rewrite !length_app in *. lia.
    + apply (walk_take _ _ _ _ _ _ visited) in Hw; [|by rewrite Hl|apply Hw].
      unfold aborts in Hw at 1. rewrite Hsp in Hw. simpl in Hw. apply (IH _ _ _ _ _ Hw). lia.
Qed.

Lemma query_reached :
  ∃ seen, query call sentinels =
      Some (match List.filter aborts seen with [] => inl tt | l => inr l end) ∧
    (∀ s, s ∈ seen ↔ reached sentinels s) ∧ seen ⊆+ sentinels.
Proof.
  unfold query. destruct (build sentinels) as [roots map] eqn:Hb.
  apply build_spec in Hb as [Hp [Hr Hm]].
  destruct (query_loop_spec (length sentinels) [] roots map ∅ []) as (seen & -> & Hs & Hsub);
    [|apply Permutation_length in Hp; rewrite length_app in Hp; lia|exists seen; split_and!; [by destruct (List.filter _ seen)|done..]]. split; simpl; try done.
  - intros s Hs. apply Hr in Hs as []. by apply reached_root.
  - intros s Hs Hn. by apply Hr.
  - intros k s. apply Hm.
  - intros k s Hs Hk. right. by apply Hm.
  - set_solver.
Qed.
End traversal.

(** ** Lemmas on types *)

Lemma SynType_nested_ind (P : SynType → Prop) :
  (∀ kind nested, (∀ x, x ∈ nested → P x) → P (TNode kind nested)) →
  (∀ l, P (TMacro l None)) → (∀ l inner, P inner → P (TMacro l (Some inner))) →
  ∀ ty, P ty.
Proof.
  intros Hn H0 H1. fix IH 1. intros [kind nested|l [inner|]]; [|apply H1, IH|apply H0].
  apply Hn, Forall_forall. induction nested; constructor; [apply IH|assumption].
Qed.

Lemma elem_of_concat_fmap {A B} (f : A → list B) l b :
  b ∈ concat (f <$> l) ↔ ∃ a, a ∈ l ∧ b ∈ f a.
Proof.
  rewrite list_elem_of_In, in_concat. setoid_rewrite <-list_elem_of_In.
  setoid_rewrite list_elem_of_fmap. naive_solver.
Qed.

Lemma elem_of_single {A B} (a a' : A) (b b' : B) : (a, b) ∈ [(a', b')] ↔ a = a' ∧ b = b'.
Proof. rewrite list_elem_of_singleton. naive_solver. Qed.

Lemma single_above {A B} (above : list A) (ty : B) a t :
  (a, t) ∈ [(above, ty)] ↔ ∃ b, a = b ++ above ∧ (b, t) ∈ [([], ty)].
Proof.
  setoid_rewrite elem_of_single. split; [intros [-> ->]; by exists []|by intros (b & -> & -> & ->)].
Qed.

Lemma single_head {A B} (above : list A) (ty : B) p t :
  (p, t) ∈ [(head above, ty)] ↔ ∃ a, p = head a ∧ (a, t) ∈ [(above, ty)].
Proof.
  setoid_rewrite elem_of_single. split; [intros [-> ->]; by exists above|by intros (a & -> & -> & ->)].
Qed.

Lemma occurrences_above above ty a t :
  (a, t) ∈ occurrences above ty ↔ ∃ b, a = b ++ above ∧ (b, t) ∈ occurrences [] ty.
Proof.
  revert above a. induction ty as [kind nested IH|l|l inner IH] using SynType_nested_ind; intros above a; simpl.
  - rewrite !elem_of_cons, elem_of_concat_fmap. setoid_rewrite elem_of_cons.
    setoid_rewrite elem_of_concat_fmap. split.
    + intros [[= -> ->]|(x & Hx & Hin)]; [exists []; auto|].
      apply IH in Hin as (b & -> & Hb); [|done]. exists (b ++ [TNode kind nested]).
      rewrite <-app_assoc. split; [done|]. right. exists x. split; [done|]. apply IH; eauto.
    + intros (b & -> & [[= -> ->]|(x & Hx & Hin)]); [auto|]. right. exists x. split; [done|].
      apply IH in Hin as (b' & -> & Hb'); [|done]. apply IH; [done|]. exists b'.
      by rewrite <-app_assoc.
  - apply single_above.
  - destruct (is_expected TY_MACS l); [apply IH|apply single_above].
Qed.

(** The types [unfold_with_ty_macros] has are the occurrences. *)
Lemma unfold_type_occurrences above ty p t :
  (p, t) ∈ unfold_type TY_MACS (head above) ty ↔ ∃ a, p = head a ∧ (a, t) ∈ occurrences above ty.
Proof.
  revert above. induction ty as [kind nested IH|l|l inner IH] using SynType_nested_ind; intros above; simpl.
  - rewrite elem_of_cons, elem_of_concat_fmap. setoid_rewrite elem_of_cons.
    setoid_rewrite elem_of_concat_fmap. split.
    + intros [[= -> ->]|(x & Hx & Hin)]; [eauto|].
      apply (IH x Hx (TNode kind nested :: above)) in Hin as (a & -> & Ha). eauto 6.
    + intros (a & -> & [[= -> ->]|(x & Hx & Hin)]); [auto|]. right. exists x. split; [done|].
      apply (IH x Hx (TNode kind nested :: above)). eauto.
  - apply single_head.
  - destruct (is_expected TY_MACS l); [apply IH|apply single_head].
Qed.

(** The type right above an occurrence is one, and has its occurrences. *)
Lemma occurrences_parent above ty p a t :
  (p :: a, t) ∈ occurrences above ty →
  p :: a = above ∨
  (a, p) ∈ occurrences above ty ∧
  ∃ kind nested x, p = TNode kind nested ∧ x ∈ nested ∧ ([], t) ∈ occurrences [] x.
Proof.
  revert above. induction ty as [kind nested IH|l|l inner IH] using SynType_nested_ind; intros above; simpl.
  - rewrite !elem_of_cons, !elem_of_concat_fmap. intros [[= <- <-]|(x & Hx & Hin)]; [auto|].
    destruct (IH x Hx _ Hin) as [[= -> ->]|(Hp & Hk)].
    + right. split; [auto|]. exists kind, nested, x. split_and!; [done..|].
      apply occurrences_above in Hin as ([|y b] & Hb & Hin); [done|].
      by apply (f_equal length) in Hb; rewrite length_app in Hb; simpl in Hb; lia.
    + right. split; [|done]. right. eauto.
  - intros [-> _]%elem_of_single. by left.
  - destruct (is_expected TY_MACS l); [apply IH|]. intros [-> _]%elem_of_single. by left.
Qed.

Lemma occurrences_below above ty a kind nested x b t :
  (a, TNode kind nested) ∈ occurrences above ty → x ∈ nested →
  (b, t) ∈ occurrences (TNode kind nested :: a) x → (b, t) ∈ occurrences above ty.
Proof.
  revert above. induction ty as [k n IH|l|l inner IH] using SynType_nested_ind; intros above; simpl.
  - rewrite !elem_of_cons, !elem_of_concat_fmap. intros [[= -> -> ->]|(y & Hy & Hin)] Hx Hb; [eauto|].
    right. exists y. split; [done|]. by apply (IH y Hy _ Hin).
  - by intros [? ?]%elem_of_single.
  - destruct (is_expected TY_MACS l); [apply IH|]. by intros [? ?]%elem_of_single.
Qed.

Section concrete.
Context (g : list str).

Lemma fn_free_nested kind nested x :
  fn_free (TNode kind nested) = true → x ∈ nested → fn_free x = true.
Proof.
  simpl. intros Hf Hx. destruct kind; try done; rewrite forallb_forall in Hf; by apply Hf, list_elem_of_In.
Qed.

Lemma visit_type_false ty : fn_free ty = true → visit_type g false ty = false.
Proof.
  induction ty as [kind nested IH|l|l inner IH] using SynType_nested_ind; simpl; [|done..].
  intros Hf. destruct (is_generic g kind nested); [done|].
  assert (∀ x, x ∈ nested → fn_free x = true) as Hn by (intros x; by apply fn_free_nested with kind).
  destruct kind; try done; clear Hf; induction nested as [|x nested IHn]; simpl; try done;
    rewrite IH by set_solver; apply IHn; set_solver.
Qed.

Lemma foldl_visit_true nested x :
  Forall (λ x, fn_free x = true) nested → foldl (visit_type g) true nested = true → x ∈ nested →
  is_concrete g x = true.
Proof.
  assert (∀ l, Forall (λ x, fn_free x = true) l → foldl (visit_type g) false l = false) as Hfalse.
  { induction 1 as [|y l Hy _ IH]; simpl; [done|]. by rewrite visit_type_false. }
  intros Hf Ht Hx. unfold is_concrete. revert Ht. induction Hf as [|y nested Hy Hf IH]; simpl; [set_solver|].
  destruct (visit_type g true y) eqn:Hv; [|by rewrite Hfalse].
  intros Ht. apply elem_of_cons in Hx as [->|Hx]; auto.
Qed.

(** What is in a type that can be named can be named. *)
Lemma concrete_nested kind nested x :
  fn_free (TNode kind nested) = true → is_concrete g (TNode kind nested) = true → x ∈ nested →
  is_concrete g x = true.
Proof.
  intros Hf Hc Hx. assert (Forall (λ x, fn_free x = true) nested) as Hn.
  { apply Forall_forall. intros y. by apply fn_free_nested with kind. }
  unfold is_concrete in Hc. simpl in Hc, Hf. destruct (is_generic g kind nested); [done|].
  destruct kind; try done; by apply (foldl_visit_true nested).
Qed.

Lemma occurrences_concrete ty above a t :
  fn_free ty = true → is_concrete g ty = true → (a, t) ∈ occurrences above ty →
  is_concrete g t = true.
Proof.
  revert above. induction ty as [kind nested IH|l|l inner IH] using SynType_nested_ind; intros above Hf Hc.
  - simpl. rewrite elem_of_cons, elem_of_concat_fmap. intros [[= _ ->]|(x & Hx & Hin)]; [done|].
    eapply IH; [done|by eapply fn_free_nested|by eapply concrete_nested|done].
  - done.
  - done.
Qed.

Lemma occurrences_fn_free ty above a t :
  fn_free ty = true → (a, t) ∈ occurrences above ty → fn_free t = true.
Proof.
  revert above. induction ty as [kind nested IH|l|l inner IH] using SynType_nested_ind; intros above Hf.
  - simpl. rewrite elem_of_cons, elem_of_concat_fmap. intros [[= _ ->]|(x & Hx & Hin)]; [done|].
    eapply IH; [done|by eapply fn_free_nested|done].
  - simpl. by intros [_ ->]%elem_of_single.
  - simpl in *. destruct (is_expected TY_MACS l); [by apply IH|]. by intros [_ ->]%elem_of_single.
Qed.

Lemma occurrences_sorted ty a t :
  fn_free ty = true → (a, t) ∈ occurrences [] ty →
  StronglySorted (λ lower upper, is_concrete g upper = true → is_concrete g lower = true) (t :: a).
Proof.
  revert a. induction ty as [kind nested IH|l|l inner IH] using SynType_nested_ind; intros a Hf; simpl.
  - rewrite elem_of_cons, elem_of_concat_fmap. intros [[= -> ->]|(x & Hx & Hin)]; [by repeat constructor|].
    pose proof (fn_free_nested _ _ _ Hf Hx) as Hfx.
    apply occurrences_above in Hin as (b & -> & Hb). rewrite app_comm_cons, StronglySorted_app.
    split_and!; [|by apply IH with x|by repeat constructor].
    intros l u Hl ->%list_elem_of_singleton Hc.
    pose proof (concrete_nested _ _ _ Hf Hc Hx) as Hcx.
    revert l Hl. cut (∀ l, l ∈ t :: b → ∃ c, (c, l) ∈ occurrences [] x).
    { intros Hl l (c & Hin)%Hl. by apply (occurrences_concrete x [] c). }
    clear -Hb. revert t Hb. induction b as [|p b IHb]; intros t Hb l Hl.
    + apply elem_of_cons in Hl as [->|Hl]; [eauto|set_solver].
    + apply elem_of_cons in Hl as [->|Hl]; [eauto|].
      apply occurrences_parent in Hb as [Hb|[Hb _]]; [done|]. by apply (IHb p).
  - intros [-> ->]%elem_of_single. by repeat constructor.
  - destruct (is_expected TY_MACS l); [by apply IH|]. intros [-> ->]%elem_of_single. by repeat constructor.
Qed.
End concrete.

(** ** The sentinels of the routes of an instance *)

Section routes.
Context (tid : SynType → nat) (special : nat → bool) (name : SynType → str)
  (place : SynType → str * Z * Z) (call : nat → bool).
Context (routes : list (list str * list SynType)).

(** All the sentinels of an instance's routes, which [ignite] queries. *)
Definition route_sentinels : list Sentry :=
  concat ((λ r, sentinels_expr tid special name place r.1 r.2) <$> routes).

Definition concrete_parent (g : list str) (above : list SynType) : option SynType :=
  match head above with
  | Some p => if is_concrete g p then Some p else None
  | None => None
  end.

Lemma elem_of_route_sentinels s :
  s ∈ route_sentinels ↔ ∃ g types ty above t,
    (g, types) ∈ routes ∧ ty ∈ types ∧ (above, t) ∈ occurrences [] ty ∧ is_concrete g t = true ∧
    s = resolve tid special name place t (concrete_parent g above).
Proof.
  unfold route_sentinels, sentinels_expr, eligible_types, unfold_with_ty_macros.
  rewrite elem_of_concat_fmap. setoid_rewrite list_elem_of_fmap. setoid_rewrite elem_of_filter_bool.
  setoid_rewrite elem_of_concat_fmap. split.
  - intros ([g types] & Hr & [p t] & -> & (ty & Hty & Hin) & Hc).
    apply (unfold_type_occurrences []) in Hin as (above & -> & Hin). by exists g, types, ty, above, t.
  - intros (g & types & ty & above & t & Hr & Hty & Hin & Hc & ->).
    exists (g, types). split; [done|]. exists (head above, t). split; [done|]. split; [|done].
    exists ty. split; [done|]. apply (unfold_type_occurrences []). eauto.
Qed.

(** The types that occur are told apart by their [TypeId]s, that is, none is an
    alias of another; none has function pointers or [!]. *)
Context (no_alias : ∀ r r' ty ty' a a' t t', r ∈ routes → r' ∈ routes → ty ∈ r.2 → ty' ∈ r'.2 →
  (a, t) ∈ occurrences [] ty → (a', t') ∈ occurrences [] ty' → tid t = tid t' → t = t').
Context (no_fn : ∀ r ty, r ∈ routes → ty ∈ r.2 → fn_free ty = true).

Lemma considered_reached t :
  considered tid special routes t →
  ∃ s, reached route_sentinels s ∧ type_id s = tid t ∧ specialized s = special (tid t).
Proof.
  intros (g & types & ty & above & Hr & Hty & Hin & Hc & Hab). revert t Hin Hc.
  induction above as [|p above IH]; intros t Hin Hc.
  { exists (resolve tid special name place t None). split; [|done].
    apply reached_root; [apply elem_of_route_sentinels; by exists g, types, ty, [], t|done]. }
  exists (resolve tid special name place t (concrete_parent g (p :: above))). split; [|done].
  assert (resolve tid special name place t (concrete_parent g (p :: above)) ∈ route_sentinels) as Hs
    by (apply elem_of_route_sentinels; by exists g, types, ty, (p :: above), t).
  unfold concrete_parent in *. simpl in *. destruct (is_concrete g p) eqn:Hp; [|by apply reached_root].
  apply occurrences_parent in Hin as [Hp'|[Hin _]]; [done|].
  destruct (IH ltac:(intros a Ha; apply Hab; set_solver) p Hin Hp) as (s & Hre & Hid & Hsp).
  eapply reached_child; [exact Hre| |exact Hs|simpl; congruence]. rewrite Hsp. apply Hab; set_solver.
Qed.

Lemma reached_considered s :
  reached route_sentinels s →
  ∃ t, considered tid special routes t ∧ type_id s = tid t ∧ specialized s = special (tid t).
Proof.
  induction 1 as [s Hs Hp|p s _ (t1 & Hcon & Hid & Hsp) Hns Hs Hp].
  all: apply elem_of_route_sentinels in Hs as (g & types & ty & above & t & Hr & Hty & Hin & Hc & ->).
  all: exists t; split; [|done]; unfold concrete_parent in Hp.
  - exists g, types, ty, above. split_and!; [done..|]. intros a Ha Hca. destruct above as [|p above]; [set_solver|].
    simpl in Hp. destruct (is_concrete g p) eqn:Hpc; [done|].
    pose proof (occurrences_sorted g ty _ _ (no_fn _ _ Hr Hty) Hin) as Hs.
    inversion_clear Hs as [|?? Hs' _]. inversion_clear Hs' as [|?? _ Hall].
    apply elem_of_cons in Ha as [->|Ha]; [congruence|]. rewrite Forall_forall in Hall.
    specialize (Hall a Ha Hca). congruence.
  - destruct above as [|p0 above]; [done|]. simpl in Hp. destruct (is_concrete g p0) eqn:Hpc; [|done].
    injection Hp as Hp. destruct Hcon as (g1 & types1 & ty1 & above1 & Hr1 & Hty1 & Hin1 & Hc1 & Hab1).
    apply occurrences_parent in Hin as [|(Hin & kind & nested & x & -> & Hx & Ht)]; [done|].
    assert (t1 = TNode kind nested) as ->
      by (apply (no_alias _ _ _ _ _ _ _ _ Hr1 Hr Hty1 Hty Hin1 Hin); congruence).
    exists g1, types1, ty1, (TNode kind nested :: above1). split_and!; [done..| | |].
    + eapply occurrences_below; [exact Hin1|exact Hx|]. apply occurrences_above. by exists [].
    + pose proof (occurrences_fn_free _ _ _ _ (no_fn _ _ Hr1 Hty1) Hin1) as Hf.
      by apply (occurrences_concrete g1 x [] [] t (fn_free_nested _ _ _ Hf Hx)
        (concrete_nested g1 _ _ _ Hf Hc1 Hx)).
    + intros a [->|Ha]%elem_of_cons Hca; [congruence|by apply Hab1].
Qed.

(** C11: Launch asks the documented sentinels: the query ends, and the types it
    reports are exactly those that are sentinels which abort, among the types
    embedded in a route's guards and result that can be named and are embedded
    in no sentinel that can be named; each is reported at most as often as it
    occurs. *)
Theorem sentinels_queried :
  ∃ aborted,
    query call route_sentinels =
      Some (match aborted with [] => inl tt | _ => inr aborted end) ∧
    aborted ⊆+ route_sentinels ∧
    ∀ i, i ∈ type_id <$> aborted ↔
      ∃ t, i = tid t ∧ considered tid special routes t ∧ special i = true ∧ call i = true.
Proof.
  destruct (query_reached call route_sentinels) as (seen & -> & Hseen & Hsub).
  { intros s s' (?&?&?&?&?&_&_&_&_&->)%elem_of_route_sentinels
      (?&?&?&?&?&_&_&_&_&->)%elem_of_route_sentinels. done. }
  exists (List.filter (aborts call) seen). split; [by destruct (List.filter _ seen)|]. split.
  { etrans; [|exact Hsub]. clear. induction seen as [|s seen IH]; simpl; [done|].
    destruct (aborts call s); [by apply submseteq_skip|by apply submseteq_cons]. }
  intros i. rewrite list_elem_of_fmap. setoid_rewrite elem_of_filter_bool. setoid_rewrite Hseen.
  assert (∀ s, reached route_sentinels s → abort s = type_id s) as Habort.
  { intros s Hs. apply reached_in, elem_of_route_sentinels in Hs. naive_solver. }
  unfold aborts. split.
  - intros (s & -> & Hre & [Hsp Hcall]%andb_true_iff).
    destruct (reached_considered s Hre) as (t & Hcon & Hid & Hspt). rewrite Habort in Hcall by done.
    exists t. rewrite <-Hid in *. split_and!; congruence.
  - intros (t & -> & Hcon & Hsp & Hcall). destruct (considered_reached t Hcon) as (s & Hre & Hid & Hspt).
    exists s. rewrite Habort, Hspt, Hid, Hsp, Hcall by done. done.
Qed.
End routes.

(** The graph has no broken links: the parent a sentry names has one too. *)
Lemma sentinels_linked tid special name place g types s k :
  s ∈ sentinels_expr tid special name place g types → sentry_parent s = Some k →
  ∃ p, p ∈ sentinels_expr tid special name place g types ∧ type_id p = k.
Proof.
  pose proof (elem_of_route_sentinels tid special name place [(g, types)]) as He.
  unfold route_sentinels in He. simpl in He. rewrite app_nil_r in He. setoid_rewrite He.
  intros (g' & types' & ty & above & t & Hr & Hty & Hin & Hc & ->). unfold concrete_parent. simpl.
  destruct above as [|p above]; [done|]. simpl. destruct (is_concrete g' p) eqn:Hp; [|done].
  intros [= <-]. apply occurrences_parent in Hin as [|[Hin _]]; [done|].
  eexists. split; [by exists g', types', ty, above, p|done].
Qed.

(** A function pointer, or [!], after a generic parameter hides it. *)
Definition hidden_generic : SynType :=
  TNode (KPath [ #"Foo"]) [TNode (KPath [ #"T"]) []; TNode KBareFn []].

Lemma generic_not_noticed :
  is_concrete [ #"T"] hidden_generic = true ∧ is_concrete [ #"T"] (TNode (KPath [ #"T"]) []) = false.
Proof. done. Qed.

(** ** Witness: the handler of the documentation, its state not managed *)

Module Documented.
Definition ty (name : str) (args : list SynType) : SynType := TNode (KPath [name]) args.
Definition state : SynType := ty #"State" [ty #"String" []].
Definition guard : SynType := ty #"Option" [TNode (KOther #"&") [state]].
Definition inner : SynType := ty #"Inner" [ty #"Bar" []].
Definition result : SynType := ty #"Either" [ty #"Foo" []; inner].

Definition types : list SynType :=
  [guard; TNode (KOther #"&") [state]; state; ty #"String" []; result; ty #"Foo" []; inner; ty #"Bar" []].

Definition names : list str :=
  [ #"Option"; #"&"; #"State"; #"String"; #"Either"; #"Foo"; #"Inner"; #"Bar"].

Definition head_name (t : SynType) : str :=
  match t with
  | TNode (KPath [name]) _ => name
  | TNode (KOther name) _ => name
  | _ => []
  end.

Definition tid (t : SynType) : nat :=
  match list_find (eq (head_name t)) names with Some (i, _) => i | None => 8 end.

(** [&State<_>] and [Foo] are sentinels; the state is not managed. *)
Definition special (i : nat) : bool := (i =? 1) || (i =? 5).
Definition call (i : nat) : bool := i =? 1.
Definition routes : list (list str * list SynType) := [([], [guard; result])].

Lemma tid_types r t a t' : r ∈ routes → t ∈ r.2 → (a, t') ∈ occurrences [] t → types !! tid t' = Some t'.
Proof.
  intros ->%list_elem_of_singleton Ht Hin.
  assert (t' ∈ types) as Ht'.
  { simpl in Ht. rewrite !elem_of_cons in Ht. destruct Ht as [->|[->|Ht]]; [| |set_solver];
      simpl in Hin; rewrite ?elem_of_cons in Hin; unfold types; set_solver. }
  assert (Forall (λ t, types !! tid t = Some t) types) as Hf by (repeat constructor).
  rewrite Forall_forall in Hf. by apply Hf.
Qed.

Example sentinels_queried_witness :
  query call (route_sentinels tid special head_name (λ _, ([], 0, 0)%Z) routes) =
    Some (inr [resolve tid special head_name (λ _, ([], 0, 0)%Z) (TNode (KOther #"&") [state]) (Some guard)]) ∧
  ∃ aborted, query call (route_sentinels tid special head_name (λ _, ([], 0, 0)%Z) routes) =
      Some (match aborted with [] => inl tt | _ => inr aborted end) ∧
    aborted ⊆+ route_sentinels tid special head_name (λ _, ([], 0, 0)%Z) routes ∧
    ∀ i, i ∈ type_id <$> aborted ↔
      ∃ t, i = tid t ∧ considered tid special routes t ∧ special i = true ∧ call i = true.
Proof.
  split; [vm_compute; reflexivity|]. apply sentinels_queried.
  - intros r r' t t' a a' u u' Hr Hr' Ht Ht' Hu Hu' Heq.
    apply (tid_types _ _ _ _ Hr Ht) in Hu. apply (tid_types _ _ _ _ Hr' Ht') in Hu'. congruence.
  - intros r t ->%list_elem_of_singleton Ht. simpl in Ht. rewrite !elem_of_cons in Ht.
    destruct Ht as [->|[->|Ht]]; [done|done|set_solver].
Defined.
End Documented.
