(* ===== verification/Search.v ===== *)
(** * Search: binary search and the order of strings, as std has them

    [slice::binary_search_by] is the loop of the standard library: it halves
    the range until one item is left.  On a slice that is sorted with respect
    to the comparison it finds an equal item or the place to insert one; on
    another slice its result is that of the loop. *)

From S2P Require Import Prelude.

(** The comparison of the item at an index; the loop stays in range. *)
Definition cmp_at {A} (cmp : A → comparison) (l : list A) (i : nat) : comparison :=
  match l !! i with Some a => cmp a | None => Eq end.

(** The loop narrowing [base .. base + size]. *)
Fixpoint search_loop (fuel : nat) (f : nat → comparison) (base size : nat) : nat :=
  match fuel with
  | O => base
  | S fuel =>
    if (1 <? size)%nat then
      let half := (size / 2)%nat in
      let mid := (base + half)%nat in
      search_loop fuel f (match f mid with Gt => base | _ => mid end) (size - half)
    else base
  end.

(** [slice::binary_search_by]: the index of an equal item, or where one would
    be inserted. *)
Definition binary_search_by {A} (cmp : A → comparison) (l : list A) : nat + nat :=
  match l with
  | [] => inr 0%nat
  | _ =>
    let base := search_loop (length l) (cmp_at cmp l) 0 (length l) in
    match cmp_at cmp l base with
    | Eq => inl base
    | Lt => inr (base + 1)%nat
    | Gt => inr base
    end
  end.

(** [Ord::cmp] of byte strings. *)
Fixpoint str_cmp (s t : str) : comparison :=
  match s, t with
  | [], [] => Eq
  | [], _ => Lt
  | _, [] => Gt
  | a :: s, b :: t =>
    match Nat.compare (nat_of_ascii a) (nat_of_ascii b) with
    | Eq => str_cmp s t
    | c => c
    end
  end.

(** [Iterator::cmp] of two sequences of strings. *)
Fixpoint strs_cmp (s t : list str) : comparison :=
  match s, t with
  | [], [] => Eq
  | [], _ => Lt
  | _, [] => Gt
  | a :: s, b :: t => match str_cmp a b with Eq => strs_cmp s t | c => c end
  end.

(** ** Lemmas *)

Section loop.
Context (f : nat → comparison) (n : nat).
Hypothesis mono_gt : ∀ i j, (i ≤ j < n)%nat → f i = Gt → f j = Gt.
Hypothesis mono_lt : ∀ i j, (i ≤ j < n)%nat → f j = Lt → f i = Lt.

(** What holds of the range at every turn. *)
Definition in_range (base size : nat) : Prop :=
  (base + size ≤ n)%nat ∧ (1 ≤ size)%nat ∧ (base = 0%nat ∨ f base ≠ Gt) ∧
  ∀ j, (base + size ≤ j < n)%nat → f j = Gt.

Lemma search_loop_range fuel base size :
  (size ≤ fuel)%nat → in_range base size → in_range (search_loop fuel f base size) 1.
Proof.
  revert base size. induction fuel as [|fuel IH]; intros base size Hf (Hn & Hs & Hb & Hg); [lia|].
  cbn [search_loop]. destruct (Nat.ltb_spec 1 size) as [Hlt|Hle];
    [|by replace size with 1%nat in * by lia].
  pose proof (Nat.div_lt size 2). pose proof (Nat.div_le_lower_bound size 2 1).
  pose proof (Nat.Div0.mul_div_le size 2).
  set (half := (size / 2)%nat) in *.
  apply IH; [lia|]. destruct (f (base + half)) eqn:E.
  1-2: split_and!; [lia|lia|right; congruence|]; intros j Hj; apply Hg; lia.
  split_and!; [lia|lia|done|]. intros j Hj. apply (mono_gt (base + half)); [lia|done].
Qed.
End loop.

(** A slice is sorted with respect to [cmp]: the items before come first. *)
Definition sorted_by {A} (cmp : A → comparison) (l : list A) : Prop :=
  ∀ i j a b, (i ≤ j)%nat → l !! i = Some a → l !! j = Some b →
    (cmp a = Gt → cmp b = Gt) ∧ (cmp b = Lt → cmp a = Lt).

Lemma binary_search_by_spec {A} (cmp : A → comparison) (l : list A) :
  sorted_by cmp l →
  match binary_search_by cmp l with
  | inl i => ∃ a, l !! i = Some a ∧ cmp a = Eq
  | inr i => (i ≤ length l)%nat ∧ Forall (λ a, cmp a = Lt) (take i l) ∧
             Forall (λ a, cmp a = Gt) (drop i l)
  end.
Proof.
  intros Hs. destruct (decide (l = [])) as [->|Hne]; [split_and!; [simpl; lia|constructor..]|].
  assert (binary_search_by cmp l =
    let base := search_loop (length l) (cmp_at cmp l) 0 (length l) in
    match cmp_at cmp l base with
    | Eq => inl base | Lt => inr (base + 1)%nat | Gt => inr base end) as -> by (by destruct l).
  assert (∀ i, (i < length l)%nat → ∃ a, l !! i = Some a ∧ cmp_at cmp l i = cmp a) as Hat.
  { intros i Hi. destruct (lookup_lt_is_Some_2 l i Hi) as [a Ha]. exists a.
    unfold cmp_at. by rewrite Ha. }
  assert (∀ i j, (i ≤ j < length l)%nat → cmp_at cmp l i = Gt → cmp_at cmp l j = Gt) as Hgt.
  { intros i j Hij. destruct (Hat i) as (a & Ha & ->); [lia|]. destruct (Hat j) as (b & Hb & ->);
      [lia|]. apply (proj1 (Hs i j a b (proj1 Hij) Ha Hb)). }
  assert (∀ i j, (i ≤ j < length l)%nat → cmp_at cmp l j = Lt → cmp_at cmp l i = Lt) as Hlt.
  { intros i j Hij. destruct (Hat i) as (a & Ha & ->); [lia|]. destruct (Hat j) as (b & Hb & ->);
      [lia|]. apply (proj2 (Hs i j a b (proj1 Hij) Ha Hb)). }
  destruct (search_loop_range (cmp_at cmp l) (length l) Hgt (length l) 0 (length l))
    as (Hn & _ & Hb & Hg); [done| |].
  { assert (length l ≠ 0%nat) by (by rewrite length_zero_iff_nil).
    split_and!; [lia|lia|by left|intros; lia]. }
  set (base := search_loop _ _ _ _) in *. cbn zeta.
  assert (∀ P : A → Prop, ∀ k, (∀ i a, (i < k)%nat → l !! i = Some a → P a) →
            Forall P (take k l)) as Htake.
  { intros P k HP. apply Forall_lookup. intros i a Hi. apply lookup_take_Some in Hi. naive_solver. }
  assert (∀ P : A → Prop, ∀ k, (∀ i a, (k ≤ i < length l)%nat → l !! i = Some a → P a) →
            Forall P (drop k l)) as Hdrop.
  { intros P k HP. apply Forall_lookup. intros i a Hi. rewrite lookup_drop in Hi.
    apply (HP (k + i)); [|done]. apply lookup_lt_Some in Hi. lia. }
  assert (∀ i a, l !! i = Some a → cmp_at cmp l i = cmp a) as Hcmp
    by (intros i a Hi; unfold cmp_at; by rewrite Hi).
  destruct (cmp_at cmp l base) eqn:E.
  - destruct (Hat base) as (a & Ha & He); [lia|]. exists a. split; [done|congruence].
  - split_and!; [lia| |].
    + apply Htake. intros i a Hi Ha. rewrite <-(Hcmp i a Ha). apply (Hlt i base); [lia|done].
    + apply Hdrop. intros i a Hi Ha. rewrite <-(Hcmp i a Ha). apply Hg. lia.
  - destruct Hb as [Hb|Hb]; [|done]. rewrite Hb in *. split_and!; [lia|constructor|].
    apply Hdrop. intros i a Hi Ha. rewrite <-(Hcmp i a Ha). apply (Hgt 0 i); [lia|done].
Qed.

(** The order of strings is a strict total order. *)
Lemma str_cmp_eq s t : str_cmp s t = Eq ↔ s = t.
Proof.
  revert t. induction s as [|a s IH]; intros [|b t]; simpl; try done.
  destruct (Nat.compare_spec (nat_of_ascii a) (nat_of_ascii b)) as [He| |]; [| |].
  - rewrite IH. assert (a = b) as ->; [|naive_solver].
    by rewrite <-(ascii_nat_embedding a), He, ascii_nat_embedding.
  - split; [done|]. intros [= -> ->]. lia.
  - split; [done|]. intros [= -> ->]. lia.
Qed.

Lemma str_cmp_sym s t : str_cmp t s = CompOpp (str_cmp s t).
Proof.
  revert t. induction s as [|a s IH]; intros [|b t]; simpl; try done.
  rewrite Nat.compare_antisym. destruct (Nat.compare _ _); simpl; auto.
Qed.

Lemma str_cmp_trans s t u : str_cmp s t = Lt → str_cmp t u = Lt → str_cmp s u = Lt.
Proof.
  revert t u. induction s as [|a s IH]; intros [|b t] [|c u]; simpl; try done.
  destruct (Nat.compare_spec (nat_of_ascii a) (nat_of_ascii b)) as [He| |];
    destruct (Nat.compare_spec (nat_of_ascii b) (nat_of_ascii c)) as [He'| |]; try done; intros H1 H2;
    destruct (Nat.compare_spec (nat_of_ascii a) (nat_of_ascii c)); try done; try lia.
  by apply (IH t).
Qed.

Lemma sorted_lookup {A} (R : A → A → Prop) l i j a b :
  StronglySorted R l → (i < j)%nat → l !! i = Some a → l !! j = Some b → R a b.
Proof.
  intros Hs. revert i j. induction Hs as [|x l Hs IH Hx]; intros [|i] [|j] Hij Hi Hj; simplify_eq/=;
    try lia.
  - rewrite Forall_lookup in Hx. by apply (Hx j).
  - apply (IH i j); [lia|done..].
Qed.

(** The first item that satisfies a test. *)
Lemma find_middle {A} (P : A → bool) l1 x l2 :
  Forall (λ y, P y = false) l1 → P x = true → List.find P (l1 ++ x :: l2) = Some x.
Proof. intros Hl Hx. induction Hl as [|y l1 Hy _ IH]; simpl; [by rewrite Hx|by rewrite Hy]. Qed.

Lemma find_None {A} (P : A → bool) l : Forall (λ y, P y = false) l → List.find P l = None.
Proof. induction 1 as [|y l Hy _ IH]; simpl; [done|by rewrite Hy]. Qed.
