(* ===== verification/Crates.v ===== *)
(** * Crates: the interfaces of the third-party code the program calls

    Rocket calls these crates; their source is not part of the repository, so
    each is a class of operations, an argument of every definition that uses
    it, and a class of laws, the documented behaviour the proofs rely on.  The
    module [Reference] has one instance of each that satisfies the laws; the
    witnesses evaluate the definitions with it. *)

From S2P Require Import Prelude.

(** [memchr::memchr]: the offset of the first occurrence of a byte;
    [memchr2], [memchr3]: of one of several bytes; [memchr::memchr_iter]: the
    offsets of all, in order. *)
Class Memchr := {
  memchr : ascii → str → option nat;
  memchr2 : ascii → ascii → str → option nat;
  memchr3 : ascii → ascii → ascii → str → option nat;
  memchr_iter : ascii → str → list nat;
}.

Class MemchrLaws `{Memchr} : Prop := {
  memchr_spec b s : memchr b s = find_byte b s;
  memchr2_spec a b s : memchr2 a b s = find_by (λ x, bool_decide (x ∈ [a; b])) s;
  memchr3_spec a b c s : memchr3 a b c s = find_by (λ x, bool_decide (x ∈ [a; b; c])) s;
  memchr_iter_spec b s : memchr_iter b s = find_bytes b s;
}.

(** [stable_pattern::Pattern], through which [RawStr] does its searches: the
    stable copy of the pattern interface of [std::str]. *)
Class StablePattern := {
  sp_split : ascii → str → list str;
  sp_is_prefix_of : str → str → bool;
  sp_is_suffix_of : str → str → bool;
  sp_strip_prefix : str → str → option str;
}.

Class StablePatternLaws `{StablePattern} : Prop := {
  sp_split_spec d s : sp_split d s = split_on d s;
  sp_is_prefix_of_spec p s : sp_is_prefix_of p s = starts_with p s;
  sp_is_suffix_of_spec p s : sp_is_suffix_of p s = ends_with p s;
  sp_strip_prefix_spec p s : sp_strip_prefix p s = strip_prefix p s;
}.

(** [uncased]: strings compared without regard to ASCII case. *)
Class Uncased := { uncased_eq : str → str → bool }.

Class UncasedLaws `{Uncased} : Prop := {
  uncased_eq_spec s t :
    uncased_eq s t = bool_decide (to_lower <$> s = to_lower <$> t);
}.

(** [percent_encoding::percent_decode(..).decode_utf8_lossy()]: borrowed when
    the input is its own decoding. *)
Class PercentEncoding := { percent_decode_utf8_lossy : str → Cow }.

Definition is_ascii (c : ascii) : bool := (nat_of_ascii c <? 128)%nat.

Class PercentEncodingLaws `{PercentEncoding} : Prop := {
  percent_decode_plain s :
    Forall (λ c, is_ascii c = true) s → "%"%char ∉ s →
    cow_value (percent_decode_utf8_lossy s) = s;
  percent_decode_borrowed s t : percent_decode_utf8_lossy s = Borrowed t → t = s;
  percent_decode_nonempty s : s ≠ [] → cow_value (percent_decode_utf8_lossy s) ≠ [];
}.

(** [indexmap::IndexMap]: a map that iterates in insertion order; [eqk] is the
    [Eq] of its keys.  [im_or_default] is [*entry(k).or_default() = f(..)]. *)
Class IndexMap (K V : Type) (eqk : K → K → bool) := {
  index_map : Type;
  im_entries : index_map → list (K * V);
  im_new : index_map;
  im_get : K → index_map → option V;
  im_insert : K → V → index_map → option V * index_map;
  im_or_default : V → K → (V → V) → index_map → index_map;
  im_swap_remove : K → index_map → index_map;
}.
Arguments index_map {K V eqk} _.

(** The operations on the list of entries. *)
Section assoc.
Context {K V : Type} (eqk : K → K → bool).

Fixpoint assoc_get (k : K) (l : list (K * V)) : option V :=
  match l with
  | [] => None
  | (k', v) :: l => if eqk k k' then Some v else assoc_get k l
  end.

(** Replaces the value at the key, which stays, or appends an entry. *)
Fixpoint assoc_update (d : V) (k : K) (f : V → V) (l : list (K * V)) : list (K * V) :=
  match l with
  | [] => [(k, f d)]
  | (k', v) :: l => if eqk k k' then (k', f v) :: l else (k', v) :: assoc_update d k f l
  end.

(** The removed entry's place is taken by the last one. *)
Fixpoint assoc_swap_remove (k : K) (l : list (K * V)) : list (K * V) :=
  match l with
  | [] => []
  | (k', v) :: l =>
    if eqk k k' then match last l with
                     | Some p => p :: take (length l - 1) l
                     | None => []
                     end
    else (k', v) :: assoc_swap_remove k l
  end.

Fixpoint assoc_wf (l : list (K * V)) : Prop :=
  match l with
  | [] => True
  | (k, v) :: l => assoc_get k l = None ∧ assoc_wf l
  end.
End assoc.

Class IndexMapLaws {K V eqk} (IM : IndexMap K V eqk) : Prop := {
  im_entries_wf m : assoc_wf eqk (im_entries m);
  im_entries_new : im_entries im_new = [];
  im_get_spec k m : im_get k m = assoc_get eqk k (im_entries m);
  im_insert_spec k v m :
    (im_insert k v m).1 = assoc_get eqk k (im_entries m) ∧
    im_entries (im_insert k v m).2 = assoc_update eqk v k (λ _, v) (im_entries m);
  im_or_default_spec d k f m :
    im_entries (im_or_default d k f m) = assoc_update eqk d k f (im_entries m);
  im_swap_remove_spec k m :
    im_entries (im_swap_remove k m) = assoc_swap_remove eqk k (im_entries m);
}.

(** Facts about lists of entries whose key equality is an equivalence. *)
Section assoc_lemmas.
Context {K V : Type} (eqk : K → K → bool).
Hypothesis eqk_sym : ∀ a b, eqk a b = eqk b a.
Hypothesis eqk_trans : ∀ a b c, eqk a b = true → eqk b c = true → eqk a c = true.

Lemma assoc_get_eq a b (l : list (K * V)) : eqk a b = true → assoc_get eqk a l = assoc_get eqk b l.
Proof.
  intros Hab. induction l as [|[k v] l IH]; [done|]. simpl.
  destruct (eqk a k) eqn:Ha, (eqk b k) eqn:Hb; try done.
  - rewrite (eqk_trans b a k) in Hb; [done|by rewrite eqk_sym|done].
  - rewrite (eqk_trans a b k) in Ha; done.
Qed.

Lemma assoc_get_None k (l : list (K * V)) :
  assoc_get eqk k l = None ↔ ∀ p, p ∈ l → eqk k p.1 = false.
Proof.
  induction l as [|[k' v] l IH]; simpl; [set_solver|].
  destruct (eqk k k') eqn:E; split.
  - done.
  - intros Hl. pose proof (Hl (k', v) (list_elem_of_here _ _)) as Hk. simpl in Hk. congruence.
  - intros Hn p [->|Hp]%elem_of_cons; [done|]. by apply IH.
  - intros Hl. apply IH. set_solver.
Qed.

Lemma assoc_wf_update d k f (l : list (K * V)) :
  assoc_wf eqk l → assoc_wf eqk (assoc_update eqk d k f l).
Proof.
  induction l as [|[k' v] l IH]; simpl; [done|]. intros [Hn Hw].
  destruct (eqk k k') eqn:E; simpl; [done|]. split; [|by apply IH].
  clear IH Hw. induction l as [|[k2 v2] l IH]; simpl in *.
  - by rewrite eqk_sym, E.
  - destruct (eqk k' k2) eqn:E2; [done|]. destruct (eqk k k2); simpl; rewrite E2; auto.
Qed.

Lemma assoc_wf_app (l1 l2 : list (K * V)) :
  assoc_wf eqk (l1 ++ l2) → assoc_wf eqk l1 ∧ assoc_wf eqk l2 ∧
    ∀ p q, p ∈ l1 → q ∈ l2 → eqk p.1 q.1 = false.
Proof.
  induction l1 as [|[k v] l1 IH]; simpl; [set_solver|]. intros [Hn (H1 & H2 & H3)%IH].
  rewrite assoc_get_None in Hn. split_and!; [|done..|].
  - apply assoc_get_None. set_solver.
  - intros p q [->|Hp]%elem_of_cons Hq; [apply Hn; set_solver|auto].
Qed.

Lemma assoc_get_swap_remove_None k k' (l : list (K * V)) :
  assoc_get eqk k' l = None → assoc_get eqk k' (assoc_swap_remove eqk k l) = None.
Proof.
  rewrite !assoc_get_None. intros Hl. induction l as [|[k2 v2] l IH]; simpl; [done|].
  destruct (eqk k k2).
  - destruct l as [|p l _] using rev_ind; [set_solver|].
    rewrite last_snoc, length_app, Nat.add_sub, take_app_length. set_solver.
  - intros p [->|Hp]%elem_of_cons; [set_solver|]. apply IH; set_solver.
Qed.

Lemma assoc_wf_swap_remove k (l : list (K * V)) :
  assoc_wf eqk l → assoc_wf eqk (assoc_swap_remove eqk k l).
Proof.
  induction l as [|[k' v] l IH]; simpl; [done|]. intros [Hn Hw].
  destruct (eqk k k'); simpl; [|by auto using assoc_get_swap_remove_None].
  destruct l as [|[k2 v2] l _] using rev_ind; [done|].
  rewrite last_snoc, length_app, Nat.add_sub, take_app_length. simpl.
  apply assoc_wf_app in Hw as (Hw & _ & Hd). split; [|done].
  apply assoc_get_None. intros p Hp. rewrite eqk_sym. by apply (Hd p (k2, v2)); [|set_solver].
Qed.


Lemma assoc_get_update d k f k' (l : list (K * V)) :
  (∀ a, eqk a a = true) →
  assoc_get eqk k' (assoc_update eqk d k f l) =
    if eqk k' k then Some (f (default d (assoc_get eqk k l))) else assoc_get eqk k' l.
Proof.
  intros Hr. induction l as [|[k2 v] l IH]; simpl; [done|].
  destruct (eqk k k2) eqn:E; simpl.
  - destruct (eqk k' k) eqn:E'; [by rewrite (eqk_trans _ _ _ E' E)|].
    destruct (eqk k' k2) eqn:E2; [|done].
    rewrite (eqk_trans k' k2 k) in E'; [done|done|by rewrite eqk_sym].
  - rewrite IH. destruct (eqk k' k2) eqn:E2; [|done].
    destruct (eqk k' k) eqn:E'; [|done].
    rewrite (eqk_trans k k' k2) in E; [done|by rewrite eqk_sym|done].
Qed.

Lemma assoc_get_Some k v (l : list (K * V)) :
  assoc_wf eqk l → assoc_get eqk k l = Some v ↔ ∃ k', eqk k k' = true ∧ (k', v) ∈ l.
Proof.
  induction l as [|[k2 v2] l IH]; simpl; [intros _; split; [done|intros (? & _ & []%not_elem_of_nil)]|].
  intros [Hn Hw]. setoid_rewrite elem_of_cons.
  destruct (eqk k k2) eqn:E; [|rewrite IH by done; naive_solver congruence].
  split; [intros [= ->]; eauto|]. intros (k' & Hk & [[= -> ->]|Hin]); [done|].
  rewrite assoc_get_None in Hn. specialize (Hn _ Hin). simpl in Hn.
  rewrite (eqk_trans k2 k k') in Hn; [done|by rewrite eqk_sym|done].
Qed.

Lemma elem_of_assoc_swap_remove k p (l : list (K * V)) :
  assoc_wf eqk l → p ∈ assoc_swap_remove eqk k l ↔ p ∈ l ∧ eqk k p.1 = false.
Proof.
  induction l as [|[k2 v2] l IH]; simpl; [set_solver|]. intros [Hn Hw].
  rewrite assoc_get_None in Hn. destruct (eqk k k2) eqn:E.
  - assert (∀ p, p ∈ l → eqk k p.1 = false) as Hl.
    { intros q Hq. destruct (eqk k q.1) eqn:Eq; [|done].
      specialize (Hn q Hq). rewrite (eqk_trans k2 k q.1) in Hn; [done|by rewrite eqk_sym|done]. }
    assert (p ∈ match last l with Some q => q :: take (length l - 1) l | None => [] end ↔ p ∈ l)
      as ->.
    { destruct l as [|q l _] using rev_ind; [done|].
      rewrite last_snoc, length_app, Nat.add_sub, take_app_length. set_solver. }
    rewrite elem_of_cons. split; [auto|]. intros [[->|?] Hk]; [|done]. simpl in Hk. congruence.
  - rewrite elem_of_cons, IH, elem_of_cons by done. split; [|tauto].
    intros [->|[? ?]]; auto.
Qed.

Lemma assoc_get_swap_remove k k' (l : list (K * V)) :
  assoc_wf eqk l →
  assoc_get eqk k' (assoc_swap_remove eqk k l) =
    if eqk k' k then None else assoc_get eqk k' l.
Proof.
  intros Hw. pose proof (assoc_wf_swap_remove k l Hw) as Hw'. apply option_eq. intros v.
  rewrite assoc_get_Some by done. setoid_rewrite elem_of_assoc_swap_remove; [|done].
  destruct (eqk k' k) eqn:E.
  - split; [|done]. intros (k2 & Hk & _ & Hk2). simpl in Hk2.
    rewrite (eqk_trans k k' k2) in Hk2; [done|by rewrite eqk_sym|done].
  - rewrite assoc_get_Some by done. split; [naive_solver|]. intros (k2 & Hk & Hin).
    exists k2. split_and!; [done..|]. simpl. destruct (eqk k k2) eqn:E2; [|done].
    rewrite (eqk_trans k' k2 k) in E; [done|done|by rewrite eqk_sym].
Qed.
End assoc_lemmas.

(** The laws as rewrite rules. *)
Create Rewrite HintDb crates.
#[export] Hint Rewrite @memchr_spec @memchr2_spec @memchr3_spec @memchr_iter_spec @sp_split_spec @sp_is_prefix_of_spec
  @sp_is_suffix_of_spec @sp_strip_prefix_spec @uncased_eq_spec using typeclasses eauto : crates.

Module Reference.
(** Decoding of [%XX]; a [%] not followed by two hexadecimal digits stays. *)
Definition hex_digit (c : ascii) : option nat :=
  let n := nat_of_ascii c in
  if (48 <=? n)%nat && (n <=? 57)%nat then Some (n - 48)
  else if (65 <=? n)%nat && (n <=? 70)%nat then Some (n - 55)
  else if (97 <=? n)%nat && (n <=? 102)%nat then Some (n - 87)
  else None.

Fixpoint percent_decode (s : str) : str :=
  match s with
  | c :: ((h :: l :: s') as rest) =>
    if decide (c = "%"%char) then
      match hex_digit h, hex_digit l with
      | Some a, Some b => ascii_of_nat (16 * a + b) :: percent_decode s'
      | _, _ => c :: percent_decode rest
      end
    else c :: percent_decode rest
  | c :: rest => c :: percent_decode rest
  | [] => []
  end.

Lemma percent_decode_no_percent s : "%"%char ∉ s → percent_decode s = s.
Proof.
  induction s as [|c [|h [|l s]] IH]; intros Hs; try done.
  cbn [percent_decode]. rewrite decide_False by set_solver.
  f_equal. apply IH. set_solver.
Qed.

#[export] Instance memchr_ref : Memchr := {|
  memchr := find_byte;
  memchr2 a b := find_by (λ x, bool_decide (x ∈ [a; b]));
  memchr3 a b c := find_by (λ x, bool_decide (x ∈ [a; b; c]));
  memchr_iter := find_bytes |}.
#[export] Instance memchr_laws : MemchrLaws.
Proof. split; done. Qed.

#[export] Instance stable_pattern_ref : StablePattern := {|
  sp_split := split_on;
  sp_is_prefix_of := starts_with;
  sp_is_suffix_of := ends_with;
  sp_strip_prefix := strip_prefix |}.
#[export] Instance stable_pattern_laws : StablePatternLaws.
Proof. split; done. Qed.

#[export] Instance uncased_ref : Uncased := {|
  uncased_eq s t := bool_decide (to_lower <$> s = to_lower <$> t) |}.
#[export] Instance uncased_laws : UncasedLaws.
Proof. split. done. Qed.

#[export] Instance percent_encoding_ref : PercentEncoding := {| percent_decode_utf8_lossy s := Owned (percent_decode s) |}.
#[export] Instance percent_encoding_laws : PercentEncodingLaws.
Proof.
  split; [|done|].
  - intros s _. apply percent_decode_no_percent.
  - intros s Hs. destruct s as [|c [|h [|l s]]]; [done|done|done|].
    cbn [percent_encoding_ref percent_decode_utf8_lossy cow_value percent_decode].
    repeat case_match; done.
Qed.

(** The entries themselves, with the proof that no two keys are equal. *)
Section index_map.
Context {K V : Type} (eqk : K → K → bool).
Hypothesis eqk_sym : ∀ a b, eqk a b = eqk b a.
Hypothesis eqk_trans : ∀ a b c, eqk a b = true → eqk b c = true → eqk a c = true.

Definition index_map_ref : IndexMap K V eqk := {|
  index_map := { l : list (K * V) | assoc_wf eqk l };
  im_entries := proj1_sig;
  im_new := exist _ [] I;
  im_get k m := assoc_get eqk k (proj1_sig m);
  im_insert k v m := (assoc_get eqk k (proj1_sig m),
    exist _ (assoc_update eqk v k (λ _, v) (proj1_sig m)) (assoc_wf_update eqk eqk_sym _ _ _ _ (proj2_sig m)));
  im_or_default d k f m :=
    exist _ (assoc_update eqk d k f (proj1_sig m)) (assoc_wf_update eqk eqk_sym _ _ _ _ (proj2_sig m));
  im_swap_remove k m :=
    exist _ (assoc_swap_remove eqk k (proj1_sig m)) (assoc_wf_swap_remove eqk eqk_sym eqk_trans _ _ (proj2_sig m)) |}.

Lemma index_map_laws : IndexMapLaws index_map_ref.
Proof. split; try done. intros m. apply (proj2_sig m). Qed.
End index_map.
End Reference.

(** Case-insensitive equality is an equivalence. *)
Section uncased.
Context `{UncasedLaws}.

Lemma uncased_eq_true s t : uncased_eq s t = true ↔ to_lower <$> s = to_lower <$> t.
Proof. rewrite uncased_eq_spec. apply bool_decide_eq_true. Qed.

Lemma uncased_eq_refl s : uncased_eq s s = true.
Proof. by apply uncased_eq_true. Qed.

Lemma uncased_eq_sym s t : uncased_eq s t = uncased_eq t s.
Proof. rewrite !uncased_eq_spec. apply bool_decide_ext. naive_solver. Qed.

Lemma uncased_eq_trans s t u :
  uncased_eq s t = true → uncased_eq t u = true → uncased_eq s u = true.
Proof. rewrite !uncased_eq_true. congruence. Qed.
End uncased.
