(* ===== verification/Streams.v ===== *)
(** * Streams: asynchronous readers and streams

    The interfaces through which the program produces bodies piece by piece,
    [AsyncRead] and [Stream] of the crates tokio and futures, and the code
    that composes them: [Join] (lib/src/util/join.rs), [Chain]
    (lib/src/util/chain.rs), the [ReaderStream] of lib/src/response/stream
    ([Reader]: a stream of readers read as one) and [One]
    (lib/src/response/stream/one.rs).

    A state of a reader or a stream includes what its environment will do, so
    that polling is a function; a theorem about all states is about all
    interleavings with the environment. *)

From S2P Require Import Prelude Crates.

(** [std::task::Poll]. *)
Inductive Poll (A : Type) := Pending | Ready (a : A).
Arguments Pending {A}.
Arguments Ready {A} a.

(** [tokio::io::AsyncRead]: with room for that many bytes in the buffer, the
    bytes that were put there, or [None] for an error; as a whole [None] when
    the call does not return. *)
Class AsyncRead (R : Type) := poll_read : nat → R → option (Poll (option str) * R).

(** [futures::Stream]. *)
Class Stream (A S : Type) := poll_next : S → Poll (option A) * S.

(** Reading with buffers of the given sizes; polls that are not ready put
    nothing there. *)
Section read_polls.
Context `{AsyncRead R}.

Fixpoint read_polls (rooms : list nat) (r : R) : option (list str * R) :=
  match rooms with
  | [] => Some ([], r)
  | room :: rooms =>
    match poll_read room r with
    | Some (Pending, r') => prod_map (cons []) id <$> read_polls rooms r'
    | Some (Ready (Some out), r') => prod_map (cons out) id <$> read_polls rooms r'
    | _ => None
    end
  end.
End read_polls.

(** What an in-memory reader promises when the buffer has room: it never waits
    or fails, its content comes in order, whatever the sizes of the buffers,
    and only at its end nothing is put into the buffer. *)
Class Readable (R : Type) `{AsyncRead R} := {
  readable : R → Prop;
  content : R → str;
  readable_poll room r :
    0 < room → readable r →
    ∃ out r', poll_read room r = Some (Ready (Some out), r') ∧ readable r' ∧
      content r = out ++ content r' ∧ length out ≤ room ∧
      (out = [] → content r = []);
}.

(** The items a stream yields until its end, when it is not ready [n] times,
    and those it yields until some moment. *)
Section yields.
Context {A S : Type} `{Stream A S}.

Inductive yields : nat → S → list A → Prop :=
  | yields_end s s' : poll_next s = (Ready None, s') → yields 0 s []
  | yields_pending n s s' l : poll_next s = (Pending, s') → yields n s' l → yields (1 + n) s l
  | yields_item n s s' x l :
      poll_next s = (Ready (Some x), s') → yields n s' l → yields n s (x :: l).

Inductive yielded : S → list A → S → Prop :=
  | yielded_now s : yielded s [] s
  | yielded_pending s s' l s2 : poll_next s = (Pending, s') → yielded s' l s2 → yielded s l s2
  | yielded_item s s' x l s2 :
      poll_next s = (Ready (Some x), s') → yielded s' l s2 → yielded s (x :: l) s2.

Lemma yields_fun n m s l1 l2 : yields n s l1 → yields m s l2 → l1 = l2.
Proof.
  intros H1. revert m l2.
  induction H1 as [s s' Hp|n s s' l Hp _ IH|n s s' x l Hp _ IH];
    inversion 1; subst; rewrite Hp in *; simplify_eq; try done; [eauto|f_equal; eauto].
Qed.
End yields.

(** ** Readers of bytes in memory *)

(** [std::io::Cursor] over bytes. *)
Record Cursor := Cursor_with { get_ref : str; position : nat }.

Definition Cursor_new (s : str) : Cursor := Cursor_with s 0.

Definition set_position (n : nat) (c : Cursor) : Cursor := Cursor_with (get_ref c) n.

Definition unread (c : Cursor) : str := drop (position c) (get_ref c).

(** tokio reads a cursor and the [Take] of one, a cursor with a limit; the
    crate bytes tells whether one has bytes left. *)
Class TokioIo := {
  poll_read_cursor : nat → Cursor → str * Cursor;
  poll_read_take : nat → Cursor * nat → str * (Cursor * nat);
  has_remaining : Cursor → bool;
}.

Class TokioIoLaws `{TokioIo} : Prop := {
  poll_read_cursor_spec room c :
    poll_read_cursor room c =
      (take room (unread c), set_position (position c + length (take room (unread c))) c);
  poll_read_take_spec room c limit :
    poll_read_take room (c, limit) =
      let '(out, c') := poll_read_cursor (Nat.min room limit) c in (out, (c', limit - length out));
  has_remaining_spec c : has_remaining c = negb (is_empty (unread c));
}.

#[export] Hint Rewrite @poll_read_cursor_spec @poll_read_take_spec @has_remaining_spec
  using typeclasses eauto : crates.

Module TokioReference.
Definition read_cursor (room : nat) (c : Cursor) : str * Cursor :=
  (take room (unread c), set_position (position c + length (take room (unread c))) c).

#[export] Instance tokio_io_ref : TokioIo := {|
  poll_read_cursor := read_cursor;
  poll_read_take room '(c, limit) :=
    let '(out, c') := read_cursor (Nat.min room limit) c in (out, (c', limit - length out));
  has_remaining c := negb (is_empty (unread c)) |}.
#[export] Instance tokio_io_laws : TokioIoLaws.
Proof. split; done. Qed.
End TokioReference.

Lemma unread_advance c n : unread (set_position (position c + n) c) = drop n (unread c).
Proof. unfold unread. simpl. by rewrite drop_drop. Qed.

Section cursor.
Context `{TokioIoLaws}.

#[export] Instance cursor_poll_read : AsyncRead Cursor := λ room c,
  let '(out, c') := poll_read_cursor room c in Some (Ready (Some out), c').

#[export] Program Instance cursor_Readable : Readable Cursor := {|
  readable _ := True; content := unread |}.
Next Obligation.
  intros room c Hr _. unfold poll_read, cursor_poll_read. autorewrite with crates.
  eexists _, _. split; [done|]. rewrite unread_advance, length_take. split_and!; [done|..].
  - destruct (Nat.le_ge_cases room (length (unread c))) as [Hl|Hl].
    + by rewrite Nat.min_l, take_drop by done.
    + by rewrite Nat.min_r, take_ge, drop_all, app_nil_r by done.
  - lia.
  - destruct (unread c); [done|]. by destruct room; [lia|].
Qed.
End cursor.

(** ** [One] *)

Record One (A : Type) := One_with { item : option A }.
Arguments One_with {A}.
Arguments item {A}.

(** [One::from]. *)
Definition One_from {A} (value : A) : One A := One_with (Some value).

#[export] Instance One_poll_next A : Stream A (One A) := λ o, (Ready (item o), One_with None).

Lemma One_yields {A} (x : A) : yields 0 (One_from x) [x].
Proof. eapply yields_item; [done|]. by eapply yields_end. Qed.

(** A stream that is ready for the given polls and then ends. *)
Definition script_poll {A} (s : list (option A)) : Poll (option A) * list (option A) :=
  match s with
  | [] => (Ready None, [])
  | None :: s => (Pending, s)
  | Some x :: s => (Ready (Some x), s)
  end.

#[export] Instance script_stream A : Stream A (list (option A)) := script_poll.

Lemma script_yields {A} (s : list (option A)) : ∃ n, yields n s (omap id s).
Proof.
  induction s as [|[x|] s [n IH]]; simpl.
  - exists 0. by eapply yields_end.
  - exists n. by eapply yields_item.
  - exists (1 + n). by eapply yields_pending.
Qed.

(** ** Adaptors of futures *)

(** [StreamExt::map]; [StreamExt::map(..).flatten()] when the streams it
    flattens are [stream::iter]s, which are always ready. *)
Class StreamMap {A B T M : Type} `{Stream A T} `{Stream B M} := stream_map : (A → B) → T → M.

Class StreamMapLaws `{StreamMap} : Prop := {
  stream_map_yielded f s l m :
    yielded (stream_map f s) l m → ∃ l0 s', yielded s l0 s' ∧ l = f <$> l0;
}.

Class FlatMap {A B T F : Type} `{Stream A T} `{Stream B F} := flat_map : (A → list B) → T → F.

Class FlatMapLaws `{FlatMap} : Prop := {
  flat_map_yields f n s l : yields n s l → ∃ m, yields m (flat_map f s) (l ≫= f);
}.

Module AdaptorReference.
Definition script_map {A B} (f : A → B) (s : list (option A)) : list (option B) :=
  (λ o : option A, f <$> o) <$> s.

Definition script_flat_map {A B} (f : A → list B) (s : list (option A)) : list (option B) :=
  s ≫= (λ o, match o with Some x => Some <$> f x | None => [None] end).

#[export] Instance script_map_ref A B :
  StreamMap (A := A) (B := B) (T := list (option A)) (M := list (option B)) := script_map.
#[export] Instance script_map_laws A B :
  StreamMapLaws (A := A) (B := B) (T := list (option A)) (M := list (option B)).
Proof.
  split. intros f s l m. remember (stream_map f s) as t eqn:Ht. intros Hy. revert s Ht.
  induction Hy as [t|t t' l t2 Hp _ IH|t t' x l t2 Hp _ IH]; intros s ->.
  - exists [], s. split; [constructor|done].
  - destruct s as [|[x|] s]; try done. injection Hp as <-.
    destruct (IH s eq_refl) as (l0 & s' & ? & ->). exists l0, s'. split; [by eapply yielded_pending|done].
  - destruct s as [|[y|] s]; try done. injection Hp as <- <-.
    destruct (IH s eq_refl) as (l0 & s' & ? & ->). exists (y :: l0), s'.
    split; [by eapply yielded_item|done].
Qed.

#[export] Instance script_flat_map_ref A B :
  FlatMap (A := A) (B := B) (T := list (option A)) (F := list (option B)) := script_flat_map.

Lemma script_ready {B} n (l l2 : list B) (s : list (option B)) :
  yields n s l2 → yields n ((Some <$> l) ++ s) (l ++ l2).
Proof. intros Hs. induction l as [|x l IH]; [done|]. by eapply yields_item. Qed.

#[export] Instance script_flat_map_laws A B :
  FlatMapLaws (A := A) (B := B) (T := list (option A)) (F := list (option B)).
Proof.
  split. intros f n s l. induction 1 as [s s' Hp|n s s' l Hp _ [m IH]|n s s' x l Hp _ [m IH]].
  - exists 0. destruct s as [|[]]; try done. by eapply yields_end.
  - destruct s as [|[]]; try done. injection Hp as <-. exists (1 + m). by eapply yields_pending.
  - destruct s as [|[y|]]; try done. injection Hp as <- <-. exists m. by apply script_ready.
Qed.
End AdaptorReference.

(** ** [Join] *)
Module Join.
Section join.
Context {X A B : Type} `{Stream X A} `{Stream X B}.

Record Join := Join_with { a : A; b : option B; done : bool }.

Definition join (a : A) (b : B) : Join := Join_with a (Some b) false.

#[global] Instance join_poll_next : Stream X Join := λ j,
  if done j then (Ready None, j)
  else match poll_next (a j) with
       | (Ready opt, a') => (Ready opt, Join_with a' (b j) (match opt with None => true | _ => false end))
       | (Pending, a') =>
         match b j with
         | None => (Pending, Join_with a' None (done j))
         | Some b' =>
           match poll_next b' with
           | (Pending, b') => (Pending, Join_with a' (Some b') (done j))
           | (Ready (Some value), b') => (Ready (Some value), Join_with a' (Some b') (done j))
           | (Ready None, _) => (Pending, Join_with a' None (done j))
           end
         end
       end.

(** [Stream::size_hint]; [max] is [usize::MAX], and no second stream is
    [Default::default()]. *)
Definition size_hint (max : nat) (hint_a : A → nat * option nat) (hint_b : B → nat * option nat)
    (j : Join) : nat * option nat :=
  let '(left_low, left_high) := hint_a (a j) in
  let '(right_low, right_high) := default (0, None) (hint_b <$> b j) in
  (Nat.min max (left_low + right_low),
   match left_high, right_high with
   | Some h1, Some h2 => if h1 + h2 <=? max then Some (h1 + h2) else None
   | _, _ => None
   end).

(** The lists merge into one. *)
Inductive interleave : list X → list X → list X → Prop :=
  | interleave_nil : interleave [] [] []
  | interleave_left x l1 l2 l : interleave l1 l2 l → interleave (x :: l1) l2 (x :: l)
  | interleave_right x l1 l2 l : interleave l1 l2 l → interleave l1 (x :: l2) (x :: l).

Lemma interleave_Forall (P : X → Prop) l1 l2 l :
  interleave l1 l2 l → Forall P l1 → Forall P l2 → Forall P l.
Proof.
  induction 1; intros Hl1 Hl2; [done|..]; [inversion Hl1|inversion Hl2]; simplify_eq;
    constructor; auto.
Qed.

(** What the second stream yielded so far. *)
Definition yielded_opt (b : option B) (l : list X) : Prop :=
  match b with
  | Some b => ∃ b', yielded b l b'
  | None => l = []
  end.

Lemma yielded_opt_nil o : yielded_opt o [].
Proof. destruct o as [b0|]; [exists b0; constructor|done]. Qed.

Lemma join_inv n j l :
  yields n j l → done j = false →
  ∃ m la lb, yields m (a j) la ∧ yielded_opt (b j) lb ∧ interleave la lb l.
Proof.
  induction 1 as [j j' Hp|n j j' l Hp _ IH|n j j' x l Hp _ IH]; intros Hd;
    unfold poll_next, join_poll_next in Hp; rewrite Hd in Hp;
    destruct (poll_next (a j)) as [[|[y|]] a'] eqn:Ha;
    try destruct (b j) as [b0|] eqn:Hb;
    try match type of Hp with context [poll_next ?c] =>
      destruct (poll_next c) as [[|[z|]] b'] eqn:Hb' end; simplify_eq/=.
  - exists 0, [], []. split; [by eapply yields_end|]. split; [|constructor]. exists b0. constructor.
  - exists 0, [], []. split; [by eapply yields_end|]. split; [done|constructor].
  - destruct IH as (m & la & lb & Hla & [b2 Hlb] & Hi); [done|].
    exists (1 + m), la, lb. split; [by eapply yields_pending|]. split; [|done].
    exists b2. by eapply yielded_pending.
  - destruct IH as (m & la & lb & Hla & -> & Hi); [done|].
    exists (1 + m), la, []. split; [by eapply yields_pending|]. split; [|done]. exists b0. constructor.
  - destruct IH as (m & la & lb & Hla & -> & Hi); [done|].
    exists (1 + m), la, []. split; [by eapply yields_pending|done].
  - destruct IH as (m & la & lb & Hla & [b2 Hlb] & Hi); [done|].
    exists (1 + m), la, (x :: lb). split; [by eapply yields_pending|]. split; [|by constructor].
    exists b2. by eapply yielded_item.
  - destruct IH as (m & la & lb & Hla & [b2 Hlb] & Hi); [done|].
    exists m, (x :: la), lb. split; [by eapply yields_item|]. split; [by exists b2|by constructor].
  - destruct IH as (m & la & lb & Hla & -> & Hi); [done|].
    exists m, (x :: la), []. split; [by eapply yields_item|]. split; [done|by constructor].
Qed.

(** The joined stream ends when the first one does, whatever the second. *)
Lemma join_ends n a0 la :
  yields n a0 la → ∀ o, ∃ m l, yields m (Join_with a0 o false) l.
Proof.
  induction 1 as [s s' Hp|n s s' l Hp _ IH|n s s' x l Hp _ IH]; intros o.
  - exists 0, []. eapply yields_end. unfold poll_next, join_poll_next. simpl. by rewrite Hp.
  - destruct o as [b0|].
    + destruct (poll_next b0) as [[|[z|]] b'] eqn:Hb.
      * destruct (IH (Some b')) as (m & l' & Hl). exists (1 + m), l'. eapply yields_pending; [|done].
        unfold poll_next at 1, join_poll_next. simpl. by rewrite Hp, Hb.
      * destruct (IH (Some b')) as (m & l' & Hl). exists m, (z :: l'). eapply yields_item; [|done].
        unfold poll_next at 1, join_poll_next. simpl. by rewrite Hp, Hb.
      * destruct (IH None) as (m & l' & Hl). exists (1 + m), l'. eapply yields_pending; [|done].
        unfold poll_next at 1, join_poll_next. simpl. by rewrite Hp, Hb.
    + destruct (IH None) as (m & l' & Hl). exists (1 + m), l'. eapply yields_pending; [|done].
      unfold poll_next at 1, join_poll_next. simpl. by rewrite Hp.
  - destruct (IH o) as (m & l' & Hl). exists m, (x :: l'). eapply yields_item; [|done].
    unfold poll_next at 1, join_poll_next. simpl. by rewrite Hp.
Qed.

(** Joining two streams ends when the first one ends, and yields an
    interleaving of all the items of the first and of the items the second had
    yielded by then; nothing is lost or reordered. *)
Lemma join_spec n a0 b0 la :
  yields n a0 la →
  ∃ m l lb b1, yields m (join a0 b0) l ∧ yielded b0 lb b1 ∧ interleave la lb l.
Proof.
  intros Ha. destruct (join_ends n a0 la Ha (Some b0)) as (m & l & Hl).
  destruct (join_inv _ _ l Hl eq_refl) as (k & la' & lb & Hla & [b1 Hlb] & Hi).
  rewrite (yields_fun _ _ _ _ _ Ha Hla). by exists m, l, lb, b1.
Qed.
End join.
Arguments Join : clear implicits.

Lemma interleave_fmap {X Y} (f : X → Y) l1 l2 l :
  interleave l1 l2 l → interleave (f <$> l1) (f <$> l2) (f <$> l).
Proof. induction 1; by constructor. Qed.
End Join.

(** ** [Chain] *)
Module Chain.
Section chain.
Context {T U : Type} `{AsyncRead T} `{AsyncRead U}.

Record Chain := Chain_with { first : option T; second : U }.

Definition new (t : T) (u : U) : Chain := Chain_with (Some t) u.

Definition get_ref (c : Chain) : option T * U := (first c, second c).

Definition poll_second (room : nat) (o : option T) (u : U) : option (Poll (option str) * Chain) :=
  prod_map id (Chain_with o) <$> poll_read room u.

(** The first reader is dropped when it leaves the buffer as it was. *)
#[global] Instance chain_poll_read : AsyncRead Chain := λ room c,
  match first c with
  | None => poll_second room None (second c)
  | Some f =>
    match poll_read room f with
    | None => None
    | Some (Ready (Some out), f') =>
      if is_empty out then poll_second room None (second c)
      else Some (Ready (Some out), Chain_with (Some f') (second c))
    | Some (p, f') => Some (p, Chain_with (Some f') (second c))
    end
  end.

Context `{!Readable T} `{!Readable U}.

Definition chain_content (c : Chain) : str := from_option content [] (first c) ++ content (second c).

Definition chain_readable (c : Chain) : Prop := from_option readable True (first c) ∧ readable (second c).

Lemma poll_second_content room u :
  0 < room → readable u →
  ∃ out c', poll_second room None u = Some (Ready (Some out), c') ∧ chain_readable c' ∧
    content u = out ++ chain_content c' ∧ length out ≤ room ∧ (out = [] → content u = []).
Proof.
  intros Hr (out & u' & Hp & ? & ? & ? & ?)%(readable_poll room); [|done].
  exists out, (Chain_with None u'). unfold poll_second. by rewrite Hp.
Qed.

(** A chain of readers reads as the first and then the second. *)
#[global] Program Instance chain_Readable : Readable Chain := {|
  readable := chain_readable; content := chain_content |}.
Next Obligation.
  intros room [[f|] u] Hr [Hf Hu]; simpl in *; unfold chain_content; simpl;
    [|by apply poll_second_content].
  unfold poll_read, chain_poll_read. simpl.
  destruct (readable_poll room f Hr Hf) as (out & f' & -> & Hf' & Hc & Hl & He).
  destruct out as [|x out]; simpl.
  - rewrite He by done. by apply poll_second_content.
  - exists (x :: out), (Chain_with (Some f') u). unfold chain_content. simpl.
    rewrite Hc, app_assoc. done.
Qed.
End chain.
Arguments Chain : clear implicits.
End Chain.

(** ** The [ReaderStream] of responses: a stream of readers read as one *)
Module Reader.
Section reader.
Context {S R : Type} `{Stream R S} `{AsyncRead R}.

Inductive State := Pending | Reading (reader : R) | Done.

Record ReaderStream := ReaderStream_with { stream : S; state : State }.

Definition from (s : S) : ReaderStream := ReaderStream_with s Pending.

(** [poll_read]; [fuel] bounds the turns of its loop. *)
Fixpoint poll_read (fuel room : nat) (me : ReaderStream) : option (Poll (option str) * ReaderStream) :=
  match fuel with
  | O => None
  | Datatypes.S fuel =>
    match state me with
    | Pending =>
      match poll_next (stream me) with
      | (Streams.Pending, s) => Some (Streams.Pending, ReaderStream_with s Pending)
      | (Ready None, s) => poll_read fuel room (ReaderStream_with s Done)
      | (Ready (Some reader), s) => poll_read fuel room (ReaderStream_with s (Reading reader))
      end
    | Reading reader =>
      match Streams.poll_read room reader with
      | None => None
      | Some (Ready (Some out), r) =>
        if is_empty out then poll_read fuel room (ReaderStream_with (stream me) Pending)
        else Some (Ready (Some out), ReaderStream_with (stream me) (Reading r))
      | Some (p, r) => Some (p, ReaderStream_with (stream me) (Reading r))
      end
    | Done => Some (Ready (Some []), me)
    end
  end.

Context `{!Readable R}.

(** The readers that are still to be read, the stream being not ready [n] more
    times. *)
Definition left_to_read (n : nat) (me : ReaderStream) (rs : list R) : Prop :=
  match state me with
  | Pending => yields n (stream me) rs
  | Reading r => ∃ rs', rs = r :: rs' ∧ yields n (stream me) rs'
  | Done => n = 0 ∧ rs = []
  end.

Definition contents (rs : list R) : str := concat (content <$> rs).

(** What a poll leaves to be read. *)
Definition poll_result (room n : nat) (rs : list R) (p : Poll (option str)) (me : ReaderStream) : Prop :=
  ∃ n' rs', left_to_read n' me rs' ∧ Forall readable rs' ∧ length rs' ≤ length rs ∧
    match p with
    | Streams.Pending => contents rs' = contents rs ∧ n = 1 + n'
    | Ready None => False
    | Ready (Some out) =>
      contents rs = out ++ contents rs' ∧ n' = n ∧ length out ≤ room ∧ (out = [] → rs' = [])
    end.

Lemma poll_done fuel room s : poll_read (1 + fuel) room (ReaderStream_with s Done) =
  Some (Ready (Some []), ReaderStream_with s Done).
Proof. done. Qed.

Lemma poll_reading room (Hr : 0 < room) rs fuel n r s :
  (∀ fuel n s, 2 * length rs + 2 ≤ fuel → yields n s rs → Forall readable rs →
    ∃ p me', poll_read fuel room (ReaderStream_with s Pending) = Some (p, me') ∧
      poll_result room n rs p me') →
  2 * length rs + 3 ≤ fuel → yields n s rs → readable r → Forall readable rs →
  ∃ p me', poll_read fuel room (ReaderStream_with s (Reading r)) = Some (p, me') ∧
    poll_result room n (r :: rs) p me'.
Proof.
  intros IH Hf Hs Hw Hws. destruct fuel as [|fuel]; [lia|]. simpl.
  destruct (readable_poll room r Hr Hw) as (out & r' & -> & Hw' & Hc & Hl & He).
  destruct out as [|x out]; simpl.
  - destruct (IH fuel n s ltac:(lia) Hs Hws) as (p & me' & -> & n' & rs' & H1 & H2 & H3 & H4).
    exists p, me'. split; [done|]. exists n', rs'. split_and!; [done..|simpl; lia|].
    unfold contents in *. simpl. by rewrite He.
  - eexists _, _. split; [done|]. exists n, (r' :: rs). split; [by eexists|].
    split_and!; [by constructor|done|..|done|done].
    + unfold contents. simpl. by rewrite Hc, <-app_assoc.
    + done.
Qed.

Lemma poll_pending room (Hr : 0 < room) rs fuel n s :
  2 * length rs + 2 ≤ fuel → yields n s rs → Forall readable rs →
  ∃ p me', poll_read fuel room (ReaderStream_with s Pending) = Some (p, me') ∧
    poll_result room n rs p me'.
Proof.
  revert fuel n s. induction rs as [|r rs IH]; intros [|fuel] n s Hf Hs Hw; simpl in *; try lia;
    inversion Hs as [s0 s' Hp|n' s0 s' l Hp Hs'|n' s0 s' x l Hp Hs']; simplify_eq/=; rewrite Hp.
  - destruct fuel as [|fuel]; [lia|]. rewrite poll_done. eexists _, _. split; [done|].
    exists 0, []. split_and!; try done. simpl; lia.
  - eexists _, _. split; [done|]. exists n', []. split_and!; done.
  - eexists _, _. split; [done|]. exists n', (r :: rs). split_and!; done.
  - inversion_clear Hw. apply poll_reading; try done. lia.
Qed.

(** A poll returns, and delivers the next bytes of what is left to be read. *)
Lemma poll_left fuel room n me rs :
  0 < room → 2 * length rs + 2 ≤ fuel → left_to_read n me rs → Forall readable rs →
  ∃ p me', poll_read fuel room me = Some (p, me') ∧ poll_result room n rs p me'.
Proof.
  destruct me as [s st]. intros Hr Hf Hleft Hw. destruct st as [|r|]; simpl in Hleft.
  - by apply poll_pending.
  - destruct Hleft as (rs' & -> & Hs). inversion_clear Hw. simpl in *.
    apply poll_reading; try done; [|lia]. intros. by apply poll_pending.
  - destruct Hleft as [-> ->]. destruct fuel as [|fuel]; [simpl in Hf; lia|].
    rewrite poll_done. eexists _, _. split; [done|]. exists 0, []. split_and!; try done. simpl; lia.
Qed.

(** Reading with buffers of any sizes yields the contents in order, and all of
    them when there are enough polls: one for every time the stream was not
    ready and one per byte are. *)
Lemma read_left fuel rooms n me rs :
  Forall (lt 0) rooms → 2 * length rs + 2 ≤ fuel → left_to_read n me rs → Forall readable rs →
  ∃ outs me' n' rs', read_polls (H := poll_read fuel) rooms me = Some (outs, me') ∧
    left_to_read n' me' rs' ∧ Forall readable rs' ∧
    contents rs = concat outs ++ contents rs' ∧
    (n + length (contents rs) ≤ length rooms → contents rs' = []).
Proof.
  revert n me rs. induction rooms as [|room rooms IH]; intros n me rs Hr Hf Hleft Hw; simpl.
  - exists [], me, n, rs. split_and!; try done. destruct (contents rs); [done|simpl; lia].
  - inversion_clear Hr as [|? ? Hr0 Hrs].
    destruct (poll_left fuel room n me rs Hr0 Hf Hleft Hw)
      as (p & me1 & Hp & n1 & rs1 & Hleft1 & Hw1 & Hlen & Hc).
    change (Streams.poll_read room me) with (poll_read fuel room me). rewrite Hp.
    destruct p as [|[out|]]; [|destruct Hc as (Hc & Hn1 & Hl & He)|done];
      destruct (IH n1 me1 rs1 Hrs ltac:(lia) Hleft1 Hw1)
        as (outs & me2 & n2 & rs2 & -> & Hleft2 & Hw2 & Hc2 & Hend); simpl.
    + destruct Hc as [Hc ->]. exists ([] :: outs), me2, n2, rs2. split_and!; try done.
      * simpl. by rewrite <-Hc.
      * rewrite <-Hc. intros Hn. apply Hend. lia.
    + exists (out :: outs), me2, n2, rs2. split_and!; try done.
      * simpl. by rewrite Hc, Hc2, app_assoc.
      * rewrite Hc, length_app. intros Hn. destruct out as [|x out].
        -- rewrite (He eq_refl) in Hc2. simpl in Hc2. by destruct (concat outs).
        -- apply Hend. simpl in Hn. lia.
Qed.

(** A stream of readers read as one delivers the contents of the readers in
    order, whatever the sizes of the buffers and however often the stream is
    not ready: every poll returns, what was delivered is a prefix of the
    contents, and with a poll for every byte and for every time the stream is
    not ready it is all of them. *)
Lemma reader_stream_spec fuel rooms n s rs :
  Forall (lt 0) rooms → 2 * length rs + 2 ≤ fuel → yields n s rs → Forall readable rs →
  ∃ outs me' rest, read_polls (H := poll_read fuel) rooms (from s) = Some (outs, me') ∧
    contents rs = concat outs ++ rest ∧
    (n + length (contents rs) ≤ length rooms → concat outs = contents rs).
Proof.
  intros Hr Hf Hs Hw.
  destruct (read_left fuel rooms n (from s) rs Hr Hf Hs Hw)
    as (outs & me' & n' & rs' & Hp & _ & _ & Hc & Hend).
  exists outs, me', (contents rs'). split_and!; [done..|]. intros Hn.
  by rewrite Hc, (Hend Hn), app_nil_r.
Qed.
End reader.
Arguments State : clear implicits.
Arguments ReaderStream : clear implicits.
End Reader.
