(* ===== verification/Chunks.v ===== *)
(** * Chunks: a reader as the stream of its chunks

    The [ReaderStream] of lib/src/util/reader_stream.rs. *)

From S2P Require Import Prelude Crates Streams.

(** ** The [ReaderStream] of lib/src/util: a reader as the stream of its chunks *)
Module Chunks.
Section chunks.
Context {R : Type} `{AsyncRead R}.

Record ReaderStream := ReaderStream_with { reader : R; capacity : nat; done : bool }.

Definition with_capacity (r : R) (capacity : nat) : ReaderStream :=
  ReaderStream_with r capacity false.

(** [poll_next]; [room] is the capacity the working buffer has in this poll,
    and the item is a chunk, or [None] for an error. *)
Definition poll_next (room : nat) (this : ReaderStream) :
    option (Poll (option (option str)) * ReaderStream) :=
  if done this then Some (Ready None, this)
  else match poll_read room (reader this) with
       | None => None
       | Some (Pending, r) => Some (Pending, ReaderStream_with r (capacity this) false)
       | Some (Ready None, r) => Some (Ready (Some None), ReaderStream_with r (capacity this) true)
       | Some (Ready (Some out), r) =>
         if is_empty out then Some (Ready None, ReaderStream_with r (capacity this) true)
         else Some (Ready (Some (Some out)), ReaderStream_with r (capacity this) false)
       end.

(** The chunks the polls with the given capacities yield. *)
Fixpoint chunks (rooms : list nat) (this : ReaderStream) : option (list (option str) * ReaderStream) :=
  match rooms with
  | [] => Some ([], this)
  | room :: rooms =>
    match poll_next room this with
    | None => None
    | Some (Ready (Some chunk), this) => prod_map (cons chunk) id <$> chunks rooms this
    | Some (_, this) => chunks rooms this
    end
  end.

Context `{!Readable R}.

Lemma chunks_done rooms this : done this = true → chunks rooms this = Some ([], this).
Proof.
  intros Hd. induction rooms as [|room rooms IH]; [done|]. simpl.
  unfold poll_next. rewrite Hd. apply IH.
Qed.

Lemma chunks_readable rooms this :
  Forall (lt 0) rooms → done this = false → readable (reader this) →
  ∃ outs this', chunks rooms this = Some (Some <$> outs, this') ∧
    Forall (λ out, out ≠ []) outs ∧
    content (reader this) = concat outs ++ content (reader this') ∧
    (length (content (reader this)) ≤ length rooms → concat outs = content (reader this)).
Proof.
  revert this. induction rooms as [|room rooms IH]; intros this Hr Hd Hw; simpl.
  - exists [], this. split_and!; try done. simpl. by destruct (content (reader this)); simpl; [|lia].
  - inversion_clear Hr. unfold poll_next. rewrite Hd.
    destruct (readable_poll room _ ltac:(done) Hw) as (out & r & -> & Hw' & Hc & _ & He).
    destruct out as [|x out]; simpl.
    + rewrite chunks_done by done. exists [], (ReaderStream_with r (capacity this) true).
      split_and!; try done. by rewrite (He eq_refl).
    + destruct (IH (ReaderStream_with r (capacity this) false))
        as (outs & this' & -> & Hne & Hc' & Hend); [done..|]. simpl in *.
      exists ((x :: out) :: outs), this'. split_and!; [done|by constructor|..]; simpl.
      * by rewrite Hc, Hc', app_assoc.
      * rewrite Hc. simpl. intros Hn. f_equal. rewrite Hend by (rewrite length_app in Hn; lia). done.
Qed.
End chunks.
Arguments ReaderStream : clear implicits.
End Chunks.
