(* ===== verification/RawSse.v ===== *)
(** * RawSse: the lines of server-sent events

    [RawLinedEvent] (lib/src/response/stream/raw_sse.rs) is the state machine
    that writes a field, one line of text per line of its value, into buffers
    of any size.  [RawSpec] shows that, whatever the buffers, it writes
    [field_lines]: it is [Readable], with that content. *)

From S2P Require Import Prelude Crates Streams.

Definition CR : ascii := "013".
Definition LF : ascii := "010".
Definition is_newline (c : ascii) : bool := bool_decide (c ∈ [CR; LF]).

(** ** Farming names and values *)
Module Raw.
Section farm.
Context `{Memchr}.

(** [farm] turns a string into its bytes. *)
Definition farm (cow : Cow) : Cow := cow.

(** The common loop of [farm_name] and [farm_value]: from offset [i] on, the
    bytes that [find] looks for become blanks. *)
Fixpoint farm_loop (find : str → option nat) (fuel i : nat) (cow : Cow) : Cow :=
  match fuel with
  | O => cow
  | S fuel =>
    if i <? length (cow_value cow) then
      match find (drop i (cow_value cow)) with
      | Some k => farm_loop find fuel (i + (k + 1)) (Owned (<[i + k := " "%char]> (cow_value cow)))
      | None => cow
      end
    else cow
  end.

Definition farm_name (cow : Cow) : Cow :=
  farm_loop (memchr3 CR LF ":") (length (cow_value cow)) 0 (farm cow).

Definition farm_value (cow : Cow) : Cow :=
  farm_loop (memchr2 CR LF) (length (cow_value cow)) 0 (farm cow).
End farm.

(** ** The state machine *)
Inductive State := Name | Colon | Value | NewLine | Done.

#[export] Instance State_eq_dec : EqDecision State.
Proof. solve_decision. Defined.

(** [value] is a cursor with a limit. *)
Record RawLinedEvent := RawLinedEvent_with {
  name : Cursor;
  value : Cursor * nat;
  state : State;
}.

Section raw.
Context `{Memchr} `{TokioIo}.

(** Limits the reading to the bytes before the next line break. *)
Definition advance (buf : Cursor * nat) : Cursor * nat :=
  let inner := get_ref buf.1 in
  let pos := Nat.min (length inner) (position buf.1) in
  let next := from_option (Nat.add pos) (length inner) (memchr2 LF CR (drop pos inner)) in
  (buf.1, next - pos).

(** Moves past a line break. *)
Definition skip (buf : Cursor * nat) : Cursor * nat :=
  let inner := get_ref buf.1 in
  let pos := Nat.min (length inner) (position buf.1) in
  match inner !! pos with
  | Some c =>
    if decide (c = LF) then (set_position (pos + 1) buf.1, buf.2)
    else if decide (c = CR) then
      if decide (inner !! (pos + 1) = Some LF) then (set_position (pos + 2) buf.1, buf.2)
      else (set_position (pos + 1) buf.1, buf.2)
    else buf
  | None => buf
  end.

Definition prefarmed (name value : str) : RawLinedEvent :=
  RawLinedEvent_with (Cursor_new name) (advance (Cursor_new value, 0)) Name.

Definition one (name value : Cow) : RawLinedEvent :=
  prefarmed (cow_value (farm_name name)) (cow_value (farm_value value)).

Definition many (name value : Cow) : RawLinedEvent :=
  prefarmed (cow_value (farm_name name)) (cow_value (farm value)).

Definition raw (value : Cow) : RawLinedEvent :=
  RawLinedEvent_with (Cursor_new []) (Cursor_new (cow_value (farm value)), length (cow_value value)) Value.

(** The loop of [poll_read]: the bytes it puts into the buffer. *)
Fixpoint poll_loop (fuel room : nat) (e : RawLinedEvent) : option (str * RawLinedEvent) :=
  match fuel with
  | O => None
  | S fuel =>
    if room =? 0 then Some ([], e)
    else match state e with
         | Name =>
           let '(out, c) := poll_read_cursor room (name e) in
           prod_map (app out) id <$> poll_loop fuel (room - length out)
             (if has_remaining c then RawLinedEvent_with c (value e) Name
              else RawLinedEvent_with (set_position 0 c) (value e) Colon)
         | Colon =>
           prod_map (cons ":"%char) id <$> poll_loop fuel (room - 1)
             (RawLinedEvent_with (name e) (value e) Value)
         | Value =>
           let '(out, v) := poll_read_take room (value e) in
           prod_map (app out) id <$> poll_loop fuel (room - length out)
             (RawLinedEvent_with (name e) v (if v.2 =? 0 then NewLine else Value))
         | NewLine =>
           prod_map (cons LF) id <$> poll_loop fuel (room - 1)
             (if has_remaining (value e).1
              then RawLinedEvent_with (name e) (advance (skip (value e))) Name
              else RawLinedEvent_with (name e) (value e) Done)
         | Done => Some ([], e)
         end
  end.

(** A line takes four turns and at least a byte of the value. *)
Definition poll_fuel (e : RawLinedEvent) : nat := 5 * length (get_ref (value e).1) + 7.

#[export] Instance raw_poll_read : AsyncRead RawLinedEvent := λ room e,
  prod_map (λ out, Ready (Some out)) id <$> poll_loop (poll_fuel e) room e.
End raw.
End Raw.

(** ** What it writes *)

(** The lines of a text: they end at a line feed, a carriage return, or both. *)
Fixpoint lines (s : str) : list str :=
  match s with
  | [] => [[]]
  | c :: s =>
    if decide (c = LF) then [] :: lines s
    else if decide (c = CR) then
      match s with
      | c' :: s' => if decide (c' = LF) then [] :: lines s' else [] :: lines s
      | [] => [] :: lines s
      end
    else match lines s with
         | l :: ls => (c :: l) :: ls
         | [] => [[c]]
         end
  end.

(** A field with its value, and a text as a field of several lines. *)
Definition field_line (name l : str) : str := name ++ ":"%char :: l ++ [LF].

Definition field_lines (name text : str) : str := concat (field_line name <$> lines text).

(** The blanks in place of the bytes with the property. *)
Definition blank (P : ascii → bool) (s : str) : str := (λ c, if P c then " "%char else c) <$> s.

Definition is_name_break (c : ascii) : bool := bool_decide (c ∈ [CR; LF; ":"%char]).

(** The text after the line break it begins with. *)
Definition after_break (s : str) : str :=
  match s with
  | c :: s' =>
    if decide (c = LF) then s'
    else if decide (c = CR) then
      match s' with
      | c' :: s'' => if decide (c' = LF) then s'' else s'
      | [] => []
      end
    else s
  | [] => []
  end.

Lemma after_break_shorter c s : is_newline c = true → length (after_break (c :: s)) ≤ length s.
Proof.
  intros Hc%bool_decide_eq_true. simpl. repeat case_decide; subst; try done; [|set_solver].
  destruct s as [|c' s]; [done|]. simpl. case_decide; simpl; lia.
Qed.

Lemma lines_ne s : lines s ≠ [].
Proof.
  destruct s as [|c s]; [done|]. simpl. repeat case_decide; try done.
  - destruct s as [|c' s]; [done|]. by case_decide.
  - by destruct (lines s).
Qed.

Lemma lines_break u w :
  Forall (λ c, is_newline c = false) u → from_option is_newline true (head w) = true →
  lines (u ++ w) = u :: match w with [] => [] | _ => lines (after_break w) end.
Proof.
  intros Hu Hw. induction Hu as [|c u Hc Hu IH]; simpl.
  - destruct w as [|c w]; [done|]. simpl in *. apply bool_decide_eq_true in Hw.
    repeat case_decide; subst; try done; [|set_solver].
    destruct w as [|c' w]; [done|]. by case_decide.
  - rewrite IH. apply bool_decide_eq_false in Hc.
    rewrite !decide_False by set_solver. done.
Qed.

Module RawSpec.
Import Raw.

Lemma blank_id P s : Forall (λ c, P c = false) s → blank P s = s.
Proof.
  unfold blank. induction 1 as [|c s Hc _ IH]; [done|]. rewrite fmap_cons, IH. by rewrite Hc.
Qed.

Lemma farm_loop_blank P find fuel u cow v :
  (∀ s, find s = find_by P s) → cow_value cow = u ++ v → length v ≤ fuel →
  cow_value (farm_loop find fuel (length u) cow) = u ++ blank P v.
Proof.
  intros Hfind. revert u cow v. induction fuel as [|fuel IH]; intros u cow v Hc Hf.
  { destruct v; [done|simpl in Hf; lia]. }
  simpl. rewrite Hc, length_app. destruct (Nat.ltb_spec (length u) (length u + length v)) as [Hl|Hl].
  2:{ destruct v; [done|simpl in Hl; lia]. }
  rewrite drop_app_length, Hfind. destruct (find_by P v) as [k|] eqn:Hk.
  - apply find_by_Some in Hk as (w & c & v' & -> & <- & Hp & Hw).
    rewrite insert_app_r, insert_app_r_alt, Nat.sub_diag by lia. simpl.
    replace (length u + (length w + 1)) with (length ((u ++ w) ++ [" "%char]))
      by (rewrite !length_app; simpl; lia).
    rewrite (IH _ _ v').
    + unfold blank. rewrite fmap_app, fmap_cons, Hp. fold (blank P w). rewrite (blank_id P w Hw).
      by rewrite <-!app_assoc.
    + simpl. by rewrite <-!app_assoc.
    + rewrite length_app in Hf. simpl in Hf. lia.
  - by rewrite Hc, (blank_id P v (find_by_None _ _ Hk)).
Qed.

Section spec.
Context `{MemchrLaws} `{TokioIoLaws}.

Lemma farm_name_blank cow : cow_value (farm_name cow) = blank is_name_break (cow_value cow).
Proof. apply (farm_loop_blank is_name_break _ _ []); [apply memchr3_spec|done..]. Qed.

Lemma farm_value_blank cow : cow_value (farm_value cow) = blank is_newline (cow_value cow).
Proof. apply (farm_loop_blank is_newline _ _ []); [apply memchr2_spec|done..]. Qed.

(** What an event has still to write: [body] from its value on. *)
Definition more (name w : str) : str :=
  match w with [] => [] | _ => field_lines name (after_break w) end.

Definition body (e : RawLinedEvent) : str :=
  let '(c, limit) := value e in
  take limit (unread c) ++ LF :: more (get_ref (name e)) (drop limit (unread c)).

Definition to_write (e : RawLinedEvent) : str :=
  match state e with
  | Name => unread (name e) ++ ":"%char :: body e
  | Colon => ":"%char :: body e
  | Value | NewLine => body e
  | Done => []
  end.

(** The limit is within the value, which has a line break or its end there;
    the name is at its start except while it is written. *)
Definition wf (e : RawLinedEvent) : Prop :=
  let '(c, limit) := value e in
  position c + limit ≤ length (get_ref c) ∧
  from_option is_newline true (head (drop limit (unread c))) = true ∧
  (state e ≠ Name → position (name e) = 0) ∧
  (state e = NewLine → limit = 0).

Definition turns (e : RawLinedEvent) : nat :=
  5 * length (unread (value e).1) +
  match state e with Name => 5 | Colon => 4 | Value => 3 | NewLine => 2 | Done => 1 end.

(** A call delivers the bytes that fit. *)
Definition delivers (fuel room : nat) (e : RawLinedEvent) : Prop :=
  ∃ e', poll_loop fuel room e = Some (take room (to_write e), e') ∧ wf e' ∧
    to_write e' = drop room (to_write e).

Lemma delivers_full fuel e : 0 < fuel → wf e → delivers fuel 0 e.
Proof. destruct fuel; [lia|]. intros _ Hw. by exists e. Qed.

Lemma delivers_put fuel room out e e1 :
  poll_loop (S fuel) room e = prod_map (app out) id <$> poll_loop fuel (room - length out) e1 →
  to_write e = out ++ to_write e1 → length out ≤ room →
  delivers fuel (room - length out) e1 → delivers (S fuel) room e.
Proof.
  intros Hp Hw Hl (e' & He & Hw' & Hd). exists e'. rewrite Hp, He, Hw. simpl.
  rewrite take_app, drop_app, (take_ge out), (drop_ge out) by done. done.
Qed.

Lemma poll_name fuel room e :
  0 < room → wf e → state e = Name →
  (∀ e1, wf e1 → turns e1 < turns e → ∀ room, delivers fuel room e1) → 0 < fuel →
  delivers (S fuel) room e.
Proof.
  destruct e as [n [c limit] st]. intros Hr (Hl & Hb & _ & _) Hst IH Hf. simpl in Hst. subst st.
  set (out := take room (unread n)).
  set (n1 := set_position (position n + length out) n).
  assert (unread n = out ++ unread n1) as Hn.
  { unfold n1. rewrite unread_advance. unfold out. rewrite length_take.
    destruct (Nat.le_ge_cases room (length (unread n))).
    - by rewrite Nat.min_l, take_drop by done.
    - by rewrite Nat.min_r, take_ge, drop_all, app_nil_r by done. }
  eapply (delivers_put fuel room out);
    [simpl; destruct room; [lia|]; autorewrite with crates; reflexivity|..].
  all: fold out n1; destruct (unread n1) as [|x u] eqn:Hu; simpl.
  - unfold to_write, body. simpl. by rewrite Hn, app_nil_r.
  - unfold to_write, body. simpl. by rewrite Hn, Hu, <-app_assoc.
  - unfold out. rewrite length_take. lia.
  - unfold out. rewrite length_take. lia.
  - apply IH; [unfold wf; simpl; by split_and!|unfold turns; simpl; lia].
  - replace (room - length out) with 0; [by apply delivers_full|].
    apply (f_equal length) in Hn. rewrite length_app in Hn. simpl in Hn.
    unfold out in *. rewrite length_take in *. lia.
Qed.

Lemma poll_colon fuel room e :
  0 < room → wf e → state e = Colon →
  (∀ e1, wf e1 → turns e1 < turns e → ∀ room, delivers fuel room e1) → delivers (S fuel) room e.
Proof.
  destruct e as [n [c limit] st]. intros Hr (Hl & Hb & Hn & _) Hst IH. simpl in Hst. subst st.
  apply (delivers_put fuel room [":"%char] _ (RawLinedEvent_with n (c, limit) Value));
    [by destruct room; [lia|]|done|done|].
  apply IH; [unfold wf; simpl; split_and!; try done; intros _; by apply Hn|unfold turns; simpl; lia].
Qed.

Lemma poll_value fuel room e :
  0 < room → wf e → state e = Value →
  (∀ e1, wf e1 → turns e1 < turns e → ∀ room, delivers fuel room e1) → 0 < fuel →
  delivers (S fuel) room e.
Proof.
  destruct e as [n [c limit] st]. intros Hr (Hl & Hb & Hn & _) Hst IH Hf. simpl in *. subst st.
  set (out := take (Nat.min room limit) (unread c)).
  set (c1 := set_position (position c + length out) c).
  assert (length out = Nat.min room limit) as Ho.
  { unfold out, unread. rewrite length_take, length_drop. lia. }
  assert (unread c1 = drop (Nat.min room limit) (unread c)) as Hc1.
  { unfold c1. by rewrite unread_advance, Ho. }
  assert (drop (limit - length out) (unread c1) = drop limit (unread c)) as Hd.
  { rewrite Hc1, drop_drop. f_equal. lia. }
  set (e1 := RawLinedEvent_with n (c1, limit - length out)
               (if limit - length out =? 0 then NewLine else Value)).
  assert (wf e1) as Hw1.
  { unfold wf, e1. simpl. rewrite Hd. split_and!; [lia|done|by intros; apply Hn|].
    destruct (Nat.eqb_spec (limit - length out) 0); [done|]. done. }
  apply (delivers_put fuel room out _ e1); [..|lia|].
  - destruct room; [lia|]. simpl. by autorewrite with crates.
  - assert (to_write e1 = body e1) as -> by (unfold e1; simpl; by destruct (_ =? _)).
    unfold to_write, body, e1. simpl. rewrite Hd, app_assoc. f_equal.
    rewrite Ho, Hc1. unfold out. rewrite take_take_drop. f_equal. lia.
  - destruct (Nat.eqb_spec (limit - length out) 0) as [Hz|Hz].
    + apply IH; [done|]. unfold turns, e1. simpl. rewrite Hc1, length_drop. lia.
    + replace (room - length out) with 0 by lia. by apply delivers_full.
Qed.

(** Limiting a value to its first line. *)
Lemma advance_line nm c limit :
  position c ≤ length (get_ref c) →
  ∃ limit', advance (c, limit) = (c, limit') ∧ position c + limit' ≤ length (get_ref c) ∧
    from_option is_newline true (head (drop limit' (unread c))) = true ∧
    field_lines nm (unread c) =
      nm ++ ":"%char :: take limit' (unread c) ++ LF :: more nm (drop limit' (unread c)).
Proof.
  intros Hl. unfold advance. simpl. rewrite Nat.min_r by done. autorewrite with crates.
  fold (unread c).
  assert (∃ u w, unread c = u ++ w ∧ Forall (λ c, is_newline c = false) u ∧
    from_option is_newline true (head w) = true ∧
    from_option (Nat.add (position c)) (length (get_ref c))
      (find_by (λ x, bool_decide (x ∈ [LF; CR])) (unread c)) - position c = length u)
    as (u & w & Hu & Hn & Hw & ->).
  { assert (∀ x, bool_decide (x ∈ [LF; CR]) = is_newline x) as Hext.
    { intros x. apply bool_decide_ext. set_solver. }
    destruct (find_by _ (unread c)) as [k|] eqn:Hf.
    - apply find_by_Some in Hf as (u & x & w & -> & <- & Hx & Hu). exists u, (x :: w).
      rewrite Hext in Hx. split_and!; [done|..|done|simpl; lia].
      eapply Forall_impl; [done|]. intros y Hy. by rewrite <-Hext.
    - apply find_by_None in Hf. exists (unread c), []. rewrite app_nil_r. split_and!; [done|..|done|].
      + eapply Forall_impl; [done|]. intros y Hy. by rewrite <-Hext.
      + simpl. unfold unread. by rewrite length_drop. }
  exists (length u). pose proof (f_equal length Hu) as Hlen.
  unfold unread in Hlen. rewrite length_drop, length_app in Hlen.
  rewrite Hu, take_app_length, drop_app_length. split_and!; [done|lia|done|].
  unfold field_lines, more. rewrite lines_break by done. destruct w as [|x w]; simpl.
  - unfold field_line. by rewrite app_nil_r.
  - unfold field_line. by rewrite <-!app_assoc; simpl; rewrite <-!app_assoc.
Qed.

Lemma skip_break c limit x s :
  unread c = x :: s → is_newline x = true →
  ∃ c', skip (c, limit) = (c', limit) ∧ position c' ≤ length (get_ref c') ∧
    unread c' = after_break (unread c).
Proof.
  intros Hu Hx%bool_decide_eq_true. pose proof (f_equal length Hu) as Hlen.
  unfold unread in Hlen. rewrite length_drop in Hlen. simpl in Hlen.
  assert (∀ i, get_ref c !! (position c + i) = (x :: s) !! i) as Hget.
  { intros i. rewrite <-Hu. unfold unread. by rewrite lookup_drop. }
  pose proof (Hget 0) as Hget0. rewrite Nat.add_0_r in Hget0. simpl in Hget0.
  unfold skip. simpl. rewrite Nat.min_r, Hget0, Hu by lia. simpl.
  assert (x = LF ∨ x = CR) as [->| ->] by set_solver.
  - rewrite !decide_True by done. eexists. split; [done|]. rewrite unread_advance, Hu.
    split; [simpl; lia|done].
  - rewrite (decide_False (P := CR = LF)), (decide_True (P := CR = CR)) by done. rewrite Hget. simpl.
    destruct s as [|y s]; simpl.
    + eexists. split; [done|]. rewrite unread_advance, Hu. split; [simpl; lia|done].
    + simpl in Hlen. destruct (decide (y = LF)) as [->|Hy].
      * rewrite decide_True by done. eexists. split; [done|]. rewrite unread_advance, Hu.
        split; [simpl; lia|done].
      * rewrite decide_False by congruence. eexists. split; [done|]. rewrite unread_advance, Hu.
        split; [simpl; lia|done].
Qed.

Lemma poll_newline fuel room e :
  0 < room → wf e → state e = NewLine →
  (∀ e1, wf e1 → turns e1 < turns e → ∀ room, delivers fuel room e1) → delivers (S fuel) room e.
Proof.
  destruct e as [n [c limit] st]. intros Hr (Hl & Hb & Hn & Hz) Hst IH. simpl in *. subst st.
  rewrite Hz in * by done. destruct (unread c) as [|x s] eqn:Hu; simpl in Hb.
  - apply (delivers_put fuel room [LF] _ (RawLinedEvent_with n (c, 0) Done)).
    + destruct room; [lia|]. simpl. autorewrite with crates. by rewrite Hu.
    + unfold to_write, body. simpl. by rewrite Hu.
    + done.
    + apply IH; [|unfold turns; simpl; lia]. unfold wf. simpl. rewrite Hu.
      split_and!; try done. intros _. by apply Hn.
  - destruct (skip_break c 0 x s Hu Hb) as (c1 & Hs & Hl1 & Hu1).
    destruct (advance_line (get_ref n) c1 0 Hl1) as (limit' & Ha & Hl' & Hb' & Hlines).
    apply (delivers_put fuel room [LF] _ (RawLinedEvent_with n (c1, limit') Name)).
    + destruct room; [lia|]. simpl. autorewrite with crates. by rewrite Hu, Hs, Ha.
    + unfold to_write, body. simpl. rewrite Hu. rewrite drop_0. unfold more at 1. rewrite <-Hu, <-Hu1, Hlines.
      unfold unread. rewrite Hn by done. done.
    + done.
    + apply IH; [unfold wf; simpl; by split_and!|]. unfold turns. simpl.
      rewrite Hu1, Hu. pose proof (after_break_shorter x s Hb). simpl in *. lia.
Qed.

(** A call with enough turns delivers the bytes that fit; the event is then
    ready to write the others. *)
Lemma poll_delivers fuel room e : wf e → turns e + 1 < fuel → delivers fuel room e.
Proof.
  revert room e. induction fuel as [|fuel IH]; intros room e Hw Hf; [lia|].
  destruct (Nat.eq_dec room 0) as [->|Hr]; [apply delivers_full; [lia|done]|].
  assert (∀ e1, wf e1 → turns e1 < turns e → ∀ room, delivers fuel room e1) as IH'.
  { intros. apply IH; [done|lia]. }
  destruct (state e) eqn:Hst.
  - apply poll_name; try done; lia.
  - apply poll_colon; try done; lia.
  - apply poll_value; try done; lia.
  - apply poll_newline; try done; lia.
  - exists e. unfold to_write. simpl. rewrite Hst. destruct room; [lia|]. done.
Qed.

Lemma raw_poll_fuel e : turns e + 1 < poll_fuel e.
Proof.
  unfold turns, poll_fuel, unread. rewrite length_drop. destruct (state e); lia.
Qed.

(** An event is an in-memory reader of what it has to write. *)
#[export] Program Instance raw_Readable : Readable RawLinedEvent := {|
  readable := wf; content := to_write |}.
Next Obligation.
  intros room e Hr Hw. destruct (poll_delivers (poll_fuel e) room e Hw (raw_poll_fuel e))
    as (e' & He & Hw' & Hd).
  exists (take room (to_write e)), e'. unfold poll_read, raw_poll_read. rewrite He, Hd.
  split_and!; [done|done|by rewrite take_drop|rewrite length_take; lia|].
  by destruct room, (to_write e); [lia|lia|..].
Qed.

Lemma prefarmed_write nm v :
  wf (prefarmed nm v) ∧ to_write (prefarmed nm v) = field_lines nm v.
Proof.
  unfold prefarmed. destruct (advance_line nm (Cursor_new v) 0 ltac:(simpl; lia))
    as (limit & -> & Hl & Hb & Hlines).
  split; [by unfold wf; simpl; split_and!|]. symmetry. exact Hlines.
Qed.

Lemma many_write n v :
  wf (many n v) ∧
  to_write (many n v) = field_lines (blank is_name_break (cow_value n)) (cow_value v).
Proof. unfold many, farm. rewrite farm_name_blank. apply prefarmed_write. Qed.

Lemma blank_break v : Forall (λ c, is_newline c = false) (blank is_newline v).
Proof.
  apply Forall_fmap, Forall_forall. intros c _. simpl. by destruct (is_newline c) eqn:Hc.
Qed.

Lemma lines_single v : Forall (λ c, is_newline c = false) v → lines v = [v].
Proof. intros Hv. rewrite <-(app_nil_r v) at 1. by apply (lines_break v []). Qed.

Lemma one_write n v :
  wf (one n v) ∧
  to_write (one n v) = field_line (blank is_name_break (cow_value n)) (blank is_newline (cow_value v)).
Proof.
  unfold one. rewrite farm_name_blank, farm_value_blank.
  destruct (prefarmed_write (blank is_name_break (cow_value n)) (blank is_newline (cow_value v)))
    as [? ->]. split; [done|].
  unfold field_lines. rewrite lines_single by apply blank_break. simpl. by rewrite app_nil_r.
Qed.

Lemma raw_write v : wf (raw v) ∧ to_write (raw v) = cow_value v ++ [LF].
Proof.
  unfold wf, raw, to_write, body, unread. simpl.
  rewrite drop_0, drop_all, take_ge by done. split_and!; done.
Qed.
End spec.
End RawSpec.
