(* ===== verification/Sse.v ===== *)
(** * Sse: server-sent events

    The events of lib/src/response/stream/sse.rs, made of the lines of
    [RawSse], and the client's side against which they are specified: [parse]
    is the event stream interpretation of the HTML standard.  [Receive] shows
    what a client makes of an event. *)

From S2P Require Import Prelude Crates Streams RawSse.

(** ** Events *)
Module Event.
Section event.
Context `{Memchr} `{TokioIo}.
Import Raw.

(** [std::time::Duration]. *)
Record Duration := Duration_new { secs : Z; nanos : Z }.

Definition as_millis (d : Duration) : nat := Z.to_nat (secs d * 1000 + nanos d / 1000000).

Record Event := Event_with {
  comment : option Cow;
  retry : option Duration;
  id : option Cow;
  event : option Cow;
  data : option Cow;
}.

Definition new : Event := Event_with None None None None None.

Definition data_event (d : Cow) : Event := Event_with None None None None (Some d).
Definition comment_event (c : Cow) : Event := Event_with (Some c) None None None None.
Definition retry_event (period : Duration) : Event := Event_with None (Some period) None None None.
Definition empty : Event := data_event (Borrowed []).

(** [Event::json]; the argument is what serde_json makes of the value. *)
Definition json (serialized : option str) : Event := data_event (Owned (default [] serialized)).

Definition set_event (v : Cow) (self : Event) : Event :=
  Event_with (comment self) (retry self) (id self) (Some v) (data self).
Definition set_id (v : Cow) (self : Event) : Event :=
  Event_with (comment self) (retry self) (Some v) (event self) (data self).
Definition with_data (v : Cow) (self : Event) : Event :=
  Event_with (comment self) (retry self) (id self) (event self) (Some v).
Definition with_comment (v : Cow) (self : Event) : Event :=
  Event_with (Some v) (retry self) (id self) (event self) (data self).
Definition with_retry (period : Duration) (self : Event) : Event :=
  Event_with (comment self) (Some period) (id self) (event self) (data self).

(** The items of [Event::into_stream]. *)
Definition into_stream (self : Event) : list RawLinedEvent :=
  omap (λ x, x)
    [many (Borrowed []) <$> comment self;
     (λ r, one (Borrowed (#"retry")) (Owned (decimal_text (as_millis r)))) <$> retry self;
     one (Borrowed (#"id")) <$> id self;
     one (Borrowed (#"event")) <$> event self;
     many (Borrowed (#"data")) <$> data self;
     Some (raw (Borrowed []))].
End event.
End Event.

(** ** The client *)

(** A message, as the client dispatches it; its state: the buffers of the
    event stream interpretation, the reconnection time last set, and the
    messages dispatched so far. *)
Record Message := Message_new { message_type : str; message_data : str; message_id : str }.

Record Client := Client_with {
  data_buffer : str;
  type_buffer : str;
  last_id : str;
  reconnection : option str;
  dispatched : list Message;
}.

Definition client_new : Client := Client_with [] [] [] None [].

Definition strip_space (v : str) : str :=
  match v with c :: v' => if decide (c = " "%char) then v' else v | [] => [] end.

Definition process_field (name value : str) (c : Client) : Client :=
  if decide (name = #"event") then
    Client_with (data_buffer c) value (last_id c) (reconnection c) (dispatched c)
  else if decide (name = #"data") then
    Client_with (data_buffer c ++ value ++ [LF]) (type_buffer c) (last_id c) (reconnection c) (dispatched c)
  else if decide (name = #"id") then
    if bool_decide ("000"%char ∈ value) then c
    else Client_with (data_buffer c) (type_buffer c) value (reconnection c) (dispatched c)
  else if decide (name = #"retry") then
    if forallb is_digit value then
      Client_with (data_buffer c) (type_buffer c) (last_id c) (Some value) (dispatched c)
    else c
  else c.

(** An empty line dispatches the message, without the last line feed of its
    data; there is none when no data was received. *)
Definition dispatch (c : Client) : Client :=
  Client_with [] [] (last_id c) (reconnection c)
    (if is_empty (data_buffer c) then dispatched c
     else dispatched c ++
       [Message_new (type_buffer c) (take (length (data_buffer c) - 1) (data_buffer c)) (last_id c)]).

Definition process_line (c : Client) (line : str) : Client :=
  match line with
  | [] => dispatch c
  | _ =>
    match split_once ":" line with
    | Some ([], _) => c
    | Some (name, value) => process_field name (strip_space value) c
    | None => process_field line [] c
    end
  end.

(** The lines that are complete; what comes after the last line break is
    discarded. *)
Definition complete_lines (s : str) : list str := take (length (lines s) - 1) (lines s).

Definition parse (s : str) : Client := foldl process_line client_new (complete_lines s).

(** ** What the client makes of the events *)
Module Receive.
Import Raw RawSpec Event.

Definition wire (ls : list str) : str := concat ((λ l, l ++ [LF]) <$> ls).

Definition unbroken (l : str) : Prop := Forall (λ c, is_newline c = false) l.

Lemma digits_unbroken n : unbroken (decimal_text n).
Proof.
  eapply Forall_impl; [apply decimal_text_digits|]. intros x Hx. apply bool_decide_eq_false.
  intros Hin. assert (x = CR ∨ x = LF) as [->| ->] by set_solver; done.
Qed.

Lemma wire_app ls1 ls2 : wire (ls1 ++ ls2) = wire ls1 ++ wire ls2.
Proof. unfold wire. by rewrite fmap_app, concat_app. Qed.

Lemma complete_lines_wire ls : Forall unbroken ls → complete_lines (wire ls) = ls.
Proof.
  intros Hls. assert (lines (wire ls) = ls ++ [[]]) as Hw.
  { induction Hls as [|l ls Hl _ IH]; [done|]. unfold wire in *. rewrite fmap_cons. simpl.
    rewrite <-app_assoc. simpl. rewrite lines_break by done. simpl. by rewrite IH. }
  unfold complete_lines. rewrite Hw, length_app. simpl.
  by rewrite Nat.add_sub, take_app_length.
Qed.

Lemma lines_unbroken s : Forall unbroken (lines s).
Proof.
  remember (length s) as n eqn:Hn. revert s Hn.
  induction (lt_wf n) as [n _ IH]. intros s ->.
  assert (∀ t, length t < length s → Forall unbroken (lines t)) as IH'.
  { intros t Ht. by apply (IH (length t)). } clear IH.
  destruct s as [|c s]; simpl; [by repeat constructor|]. simpl in IH'.
  repeat case_decide.
  - constructor; [constructor|apply IH'; lia].
  - destruct s as [|c' s]; [by repeat constructor|].
    case_decide; (constructor; [constructor|apply IH'; simpl; lia]).
  - assert (is_newline c = false) by (apply bool_decide_eq_false; set_solver).
    specialize (IH' s ltac:(lia)). destruct (lines s) as [|l ls].
    + constructor; [|done]. by repeat constructor.
    + inversion_clear IH'. constructor; [|done]. by constructor.
Qed.

Lemma field_lines_wire nm text :
  field_lines nm text = wire ((λ l, nm ++ ":"%char :: l) <$> lines text).
Proof.
  unfold field_lines, wire. rewrite <-list_fmap_compose. f_equal.
  apply list_fmap_ext. intros _ l _. unfold field_line. simpl. by rewrite <-app_assoc.
Qed.

(** The lines of an event. *)
Definition named (nm : str) (l : str) : str := nm ++ ":"%char :: l.

Definition event_lines (e : Event) : list str :=
  from_option (λ c, named [] <$> lines (cow_value c)) [] (comment e) ++
  from_option (λ r, [named (#"retry") (decimal_text (as_millis r))]) [] (retry e) ++
  from_option (λ v, [named (#"id") (blank is_newline (cow_value v))]) [] (id e) ++
  from_option (λ v, [named (#"event") (blank is_newline (cow_value v))]) [] (event e) ++
  from_option (λ v, named (#"data") <$> lines (cow_value v)) [] (data e) ++ [[]].

(** What the client receives: the data with its lines joined by line feeds,
    the identifier and the type on one line, each line without a blank it
    begins with. *)
Definition receive_id (i : option Cow) (last : str) : str :=
  match i with
  | Some v => let v := strip_space (blank is_newline (cow_value v)) in
              if bool_decide ("000"%char ∈ v) then last else v
  | None => last
  end.

Definition receive (c : Client) (e : Event) : Client :=
  let i := receive_id (id e) (last_id c) in
  Client_with [] [] i
    (match retry e with Some r => Some (decimal_text (as_millis r)) | None => reconnection c end)
    (dispatched c ++
     from_option (λ d,
       [Message_new (from_option (λ v, strip_space (blank is_newline (cow_value v))) [] (event e))
          (join LF (strip_space <$> lines (cow_value d))) i]) [] (data e)).

Section receive.
Context `{MemchrLaws} `{TokioIoLaws}.

Lemma omap_id_writes (os : list (option RawLinedEvent)) :
  Forall (from_option wf True) os → Forall wf (omap (λ x, x) os) ∧
  concat (to_write <$> omap (λ x, x) os) = concat (from_option to_write [] <$> os).
Proof.
  induction 1 as [|[e|] os He _ [IH1 IH2]]; simpl; [done|..|done].
  split; [by constructor|]. exact (f_equal (app (to_write e)) IH2).
Qed.

Lemma field_wire nm v : field_line nm v = wire [named nm v].
Proof.
  unfold wire, named, field_line. simpl. rewrite app_nil_r, <-app_assoc. done.
Qed.

Lemma into_stream_writes e :
  Forall wf (into_stream e) ∧ concat (to_write <$> into_stream e) = wire (event_lines e).
Proof.
  assert (blank is_name_break (#"retry") = #"retry" ∧ blank is_name_break (#"id") = #"id" ∧
    blank is_name_break (#"event") = #"event" ∧ blank is_name_break (#"data") = #"data")
    as (Hb1 & Hb2 & Hb3 & Hb4) by (vm_compute; done).
  unfold into_stream. destruct (omap_id_writes
    [many (Borrowed []) <$> comment e;
     (λ r, one (Borrowed (#"retry")) (Owned (decimal_text (as_millis r)))) <$> retry e;
     one (Borrowed (#"id")) <$> id e; one (Borrowed (#"event")) <$> event e;
     many (Borrowed (#"data")) <$> data e; Some (raw (Borrowed []))]) as [Hw Ht].
  { repeat apply Forall_cons_2; try apply Forall_nil_2; try apply raw_write;
      match goal with |- from_option _ _ (_ <$> ?o) => destruct o; [|exact I] end;
      first [apply many_write|apply one_write]. }
  split; [exact Hw|]. rewrite Ht. unfold event_lines. rewrite !wire_app. cbn [fmap list_fmap concat].
  rewrite app_nil_r. f_equal; [|f_equal; [|f_equal; [|f_equal; [|f_equal]]]].
  - destruct (comment e) as [v|]; simpl; [|done].
    rewrite (proj2 (many_write _ _)). apply field_lines_wire.
  - destruct (retry e) as [v|]; simpl; [|done].
    rewrite (proj2 (one_write _ _)). cbn [cow_value]. rewrite Hb1, field_wire. do 3 f_equal.
    apply blank_id, digits_unbroken.
  - destruct (id e) as [v|]; simpl; [|done].
    rewrite (proj2 (one_write _ _)). cbn [cow_value]. by rewrite Hb2, field_wire.
  - destruct (event e) as [v|]; simpl; [|done].
    rewrite (proj2 (one_write _ _)). cbn [cow_value]. by rewrite Hb3, field_wire.
  - destruct (data e) as [v|]; simpl; [|done].
    rewrite (proj2 (many_write _ _)). cbn [cow_value]. rewrite Hb4. apply field_lines_wire.
Qed.

Lemma named_unbroken nm v : unbroken nm → unbroken v → unbroken (named nm v).
Proof. intros Hn Hv. apply Forall_app_2; [done|]. by constructor. Qed.

Lemma named_lines_unbroken nm s : unbroken nm → Forall unbroken (named nm <$> lines s).
Proof.
  intros Hn. apply Forall_fmap. eapply Forall_impl; [apply lines_unbroken|].
  intros l Hl. by apply named_unbroken.
Qed.

Lemma event_lines_unbroken e : Forall unbroken (event_lines e).
Proof.
  assert (∀ s, forallb (λ c, negb (is_newline c)) s = true → unbroken s) as Hs.
  { induction s as [|c s IH]; [constructor|]. simpl. intros [?%negb_true_iff ?]%andb_true_iff.
    constructor; [done|by apply IH]. }
  unfold event_lines. rewrite !Forall_app. split_and!.
  - destruct (comment e); simpl; [|done]. apply named_lines_unbroken, Forall_nil_2.
  - destruct (retry e); simpl; [|done]. constructor; [|done]. apply named_unbroken; [by apply Hs|apply digits_unbroken].
  - destruct (id e); simpl; [|done]. constructor; [|done]. apply named_unbroken; [by apply Hs|apply blank_break].
  - destruct (event e); simpl; [|done]. constructor; [|done]. apply named_unbroken; [by apply Hs|apply blank_break].
  - destruct (data e); simpl; [|done]. apply named_lines_unbroken. by apply Hs.
  - by repeat constructor.
Qed.

(** The client on the lines of a field; [nm] has no colon. *)
Lemma process_named nm v c :
  ":"%char ∉ nm → nm ≠ [] → process_line c (named nm v) = process_field nm (strip_space v) c.
Proof.
  intros Hc Hn. unfold process_line, named, split_once.
  rewrite find_byte_app, take_app_length by done.
  rewrite drop_app_ge, Nat.sub_succ_l, Nat.sub_diag by lia. simpl.
  destruct nm as [|x nm]; done.
Qed.

Lemma process_comment ls c : foldl process_line c (named [] <$> ls) = c.
Proof. induction ls as [|l ls IH]; [done|]. simpl. apply IH. Qed.

Lemma process_data ls c :
  foldl process_line c (named (#"data") <$> ls) =
    Client_with (data_buffer c ++ concat ((λ l, l ++ [LF]) <$> (strip_space <$> ls)))
      (type_buffer c) (last_id c) (reconnection c) (dispatched c).
Proof.
  revert c. induction ls as [|l ls IH]; intros c; cbn [fmap list_fmap foldl].
  - simpl. rewrite app_nil_r. by destruct c.
  - rewrite process_named by (by apply (bool_decide_unpack _); vm_compute).
    rewrite IH. simpl. by rewrite <-!app_assoc.
Qed.

Lemma concat_lines_join ls : ls ≠ [] → concat ((λ l, l ++ [LF]) <$> ls) = join LF ls ++ [LF].
Proof.
  induction ls as [|l ls IH]; [done|]. intros _. destruct ls as [|l' ls]; [simpl; by rewrite app_nil_r|].
  rewrite join_cons by done. rewrite fmap_cons. cbn [concat]. rewrite IH by done.
  by rewrite <-!app_assoc.
Qed.

Lemma process_retry n c :
  process_line c (named (#"retry") (decimal_text n)) =
    Client_with (data_buffer c) (type_buffer c) (last_id c) (Some (decimal_text n)) (dispatched c).
Proof.
  rewrite process_named by (by apply (bool_decide_unpack _); vm_compute).
  pose proof (decimal_text_digits n) as Hd.
  assert (strip_space (decimal_text n) = decimal_text n) as ->.
  { destruct Hd as [|x s Hx _]; [done|]. simpl. rewrite decide_False; [done|]. by intros ->. }
  assert (forallb is_digit (decimal_text n) = true) as Hf.
  { induction Hd as [|x s Hx _ IH]; [done|]. simpl. by rewrite Hx, IH. }
  cbv [process_field]. by rewrite Hf.
Qed.

Lemma process_id v c :
  process_line c (named (#"id") (blank is_newline (cow_value v))) =
    Client_with (data_buffer c) (type_buffer c) (receive_id (Some v) (last_id c))
      (reconnection c) (dispatched c).
Proof.
  rewrite process_named by (by apply (bool_decide_unpack _); vm_compute).
  unfold process_field. rewrite !decide_False, decide_True by done. simpl.
  case_bool_decide; [by destruct c|done].
Qed.

Lemma process_type v c :
  process_line c (named (#"event") v) =
    Client_with (data_buffer c) (strip_space v) (last_id c) (reconnection c) (dispatched c).
Proof.
  rewrite process_named by (by apply (bool_decide_unpack _); vm_compute). done.
Qed.

(** The lines of an event make the client receive it. *)
Lemma process_event c e :
  data_buffer c = [] → type_buffer c = [] →
  foldl process_line c (event_lines e) = receive c e.
Proof.
  destruct c as [db tb i rc ms]. simpl. intros -> ->. unfold event_lines, receive. rewrite !foldl_app.
  assert (∀ x, foldl process_line x
    (from_option (λ c, named [] <$> lines (cow_value c)) [] (comment e)) = x) as ->.
  { intros x. destruct (comment e); simpl; [apply process_comment|done]. }
  cbn [dispatched last_id].
  destruct (retry e) as [r|]; cbn [from_option foldl];
    rewrite ?process_retry; cbn [data_buffer type_buffer last_id reconnection dispatched];
  (destruct (id e) as [v|]; cbn [from_option foldl];
    rewrite ?process_id; cbn [data_buffer type_buffer last_id reconnection dispatched]);
  (destruct (event e) as [w|]; cbn [from_option foldl];
    rewrite ?process_type; cbn [data_buffer type_buffer last_id reconnection dispatched]);
  (destruct (data e) as [d|]; cbn [from_option foldl];
    [|unfold process_line, dispatch; simpl; by rewrite app_nil_r]);
  rewrite process_data, concat_lines_join by
    (intros Hl%fmap_nil_inv; by destruct (lines_ne (cow_value d)));
  unfold process_line, dispatch;
  cbn [data_buffer type_buffer last_id reconnection dispatched app];
  rewrite length_app, Nat.add_sub, take_app_length;
  (destruct (join LF _ ++ [LF]) as [|] eqn:E; [by destruct (join LF _)|done]).
Qed.

(** The heartbeats between the lines of the events change nothing. *)
Lemma process_interleaved la lb l c :
  Join.interleave la lb l → Forall (λ e : str, e = #":" ++ [LF]) lb →
  Forall (λ s, ∃ ls, Forall unbroken ls ∧ s = wire ls) la →
  ∃ ls ls', concat l = wire ls ∧ concat la = wire ls' ∧ Forall unbroken ls ∧ Forall unbroken ls' ∧
    foldl process_line c ls = foldl process_line c ls'.
Proof.
  intros Hi. revert c. induction Hi as [|x l1 l2 l _ IH|x l1 l2 l _ IH]; intros c Hb Ha.
  - exists [], []. done.
  - inversion_clear Ha as [|? ? (xs & Hxs & ->) Ha'].
    destruct (IH (foldl process_line c xs) Hb Ha') as (ls & ls' & Hl & Hl' & Hu & Hu' & Hf).
    exists (xs ++ ls), (xs ++ ls'). simpl. rewrite Hl, Hl', !wire_app, !foldl_app.
    split_and!; try done; by apply Forall_app.
  - inversion_clear Hb as [|? ? -> Hb'].
    destruct (IH c Hb' Ha) as (ls & ls' & Hl & Hl' & Hu & Hu' & Hf).
    exists ((#":") :: ls), ls'. simpl. rewrite Hl. split_and!; try done.
    constructor; [|done]. by repeat constructor.
Qed.
End receive.
End Receive.
