(* ===== verification/EventStreams.v ===== *)
(** * EventStreams: streams of server-sent events

    [EventStream] (lib/src/response/stream/sse.rs) turns a stream of events
    into a reader, with a heartbeat; [Delivery] shows what a client receives
    from it. *)

From S2P Require Import Prelude Crates Streams RawSse Sse.

(** ** Event streams *)
Module EventStream.
Import Raw Event.
Section stream.
Context `{Memchr} `{TokioIo}.
Context {S F I M : Type} `{Stream Event S} `{Stream RawLinedEvent F}.
Context `{Stream unit I} `{Stream RawLinedEvent M}.
Context `{!FlatMap (A := Event) (B := RawLinedEvent) (T := S) (F := F)}.
Context `{!StreamMap (A := unit) (B := RawLinedEvent) (T := I) (M := M)}.

(** tokio's [IntervalStream::new(interval(period))]. *)
Variable interval : Duration → I.

Record EventStream := EventStream_with { stream : S; heartbeat : option Duration }.

Definition set_heartbeat (h : option Duration) (self : EventStream) : EventStream :=
  EventStream_with (stream self) h.

Definition from (s : S) : EventStream := EventStream_with s (Some (Duration_new 30 0)).

(** [futures::Either], the right one being [stream::empty()]. *)
Inductive Either := Left (m : M) | Right.

#[export] Instance either_poll_next : Stream RawLinedEvent Either := λ e,
  match e with
  | Left m => prod_map (λ p, p) Left (poll_next m)
  | Right => (Ready None, Right)
  end.

Definition heartbeat_stream (self : EventStream) : Either :=
  match heartbeat self with
  | Some beat => Left (stream_map (λ _, raw (Borrowed (#":"))) (interval beat))
  | None => Right
  end.

Definition into_stream (self : EventStream) : Join.Join F Either :=
  Join.join (flat_map Event.into_stream (stream self)) (heartbeat_stream self).

Definition into_reader (self : EventStream) : Reader.ReaderStream (Join.Join F Either) RawLinedEvent :=
  Reader.from (into_stream self).

(** Reading the stream with buffers of the given sizes. *)
Definition read_stream (fuel : nat) (rooms : list nat)
    (r : Reader.ReaderStream (Join.Join F Either) RawLinedEvent) :
    option (list str * Reader.ReaderStream (Join.Join F Either) RawLinedEvent) :=
  read_polls (H := Reader.poll_read fuel) rooms r.
End stream.
End EventStream.

Module Delivery.
Import Raw RawSpec Event EventStream Receive.

(** What a prefix of the text has made the client dispatch is a prefix. *)
Lemma complete_lines_prefix ls u v :
  Forall unbroken ls → wire ls = u ++ v → ∃ k, complete_lines u = take k ls.
Proof.
  intros Hls. revert u v. induction Hls as [|l ls Hl _ IH]; intros u v Hw.
  { symmetry in Hw. apply app_nil in Hw as [-> _]. by exists 0. }
  change (wire (l :: ls)) with ((l ++ [LF]) ++ wire ls) in Hw. rewrite <-app_assoc in Hw. simpl in Hw.
  apply app_eq_inv in Hw as [(w & -> & Hw)|(w & -> & Hw)].
  - exists 0. unfold complete_lines. rewrite lines_single; [done|]. by apply Forall_app in Hl as [? _].
  - destruct w as [|x w]; simpl in Hw.
    + exists 0. rewrite app_nil_r. unfold complete_lines. by rewrite lines_single.
    + injection Hw as <- Hw. destruct (IH w v Hw) as [k Hk]. exists (S k).
      unfold complete_lines in *. rewrite lines_break by done. simpl. rewrite Nat.sub_0_r.
      rewrite <-Hk. pose proof (lines_ne w).
      destruct (lines w) as [|l' ls'] eqn:E; [done|]. simpl. by rewrite Nat.sub_0_r.
Qed.

Lemma process_line_dispatched c l : dispatched c `prefix_of` dispatched (process_line c l).
Proof.
  unfold process_line, process_field, dispatch. destruct l as [|x l].
  - simpl. destruct (is_empty (data_buffer c)); [done|]. by apply prefix_app_r.
  - destruct (split_once _ _) as [[[|y n] v]|]; repeat case_match; done.
Qed.

Lemma foldl_dispatched ls c : dispatched c `prefix_of` dispatched (foldl process_line c ls).
Proof.
  revert c. induction ls as [|l ls IH]; intros c; [done|]. simpl.
  etrans; [apply process_line_dispatched|apply IH].
Qed.

Lemma parse_prefix ls u v :
  Forall unbroken ls → wire ls = u ++ v →
  dispatched (parse u) `prefix_of` dispatched (foldl process_line client_new ls).
Proof.
  intros Hls Hw. destruct (complete_lines_prefix ls u v Hls Hw) as [k Hk]. unfold parse. rewrite Hk.
  rewrite <-(take_drop k ls) at 2. rewrite foldl_app. apply foldl_dispatched.
Qed.

Section delivery.
Context `{MemchrLaws} `{TokioIoLaws}.
Context {S F I M : Type} `{Stream Event S} `{Stream RawLinedEvent F}.
Context `{Stream unit I} `{Stream RawLinedEvent M}.
Context `{!FlatMap (A := Event) (B := RawLinedEvent) (T := S) (F := F)}.
Context `{!StreamMap (A := unit) (B := RawLinedEvent) (T := I) (M := M)}.
Context `{!FlatMapLaws (A := Event) (B := RawLinedEvent) (T := S) (F := F)}.
Context `{!StreamMapLaws (A := unit) (B := RawLinedEvent) (T := I) (M := M)}.
Variable interval : Duration → I.

Lemma process_events evs c :
  data_buffer c = [] → type_buffer c = [] →
  foldl process_line c (evs ≫= event_lines) = foldl receive c evs.
Proof.
  revert c. induction evs as [|e evs IH]; intros c Hd Ht; [done|].
  change ((e :: evs) ≫= event_lines) with (event_lines e ++ (evs ≫= event_lines)).
  rewrite foldl_app, process_event by done. by apply IH.
Qed.

Lemma events_write evs :
  Forall wf (evs ≫= Event.into_stream) ∧
  concat (to_write <$> (evs ≫= Event.into_stream)) = wire (evs ≫= event_lines) ∧
  Forall unbroken (evs ≫= event_lines).
Proof.
  induction evs as [|e evs (IH1 & IH2 & IH3)]; [done|].
  destruct (into_stream_writes e) as [Hw Ht].
  change ((e :: evs) ≫= Event.into_stream)
    with (Event.into_stream e ++ (evs ≫= Event.into_stream)).
  change ((e :: evs) ≫= event_lines) with (event_lines e ++ (evs ≫= event_lines)).
  rewrite fmap_app, concat_app, Ht, IH2, wire_app. split_and!; try done; apply Forall_app_2; try done.
  apply event_lines_unbroken.
Qed.

(** The items of the heartbeats. *)
Lemma heartbeats_yielded (es : EventStream (S := S)) lb b :
  yielded (heartbeat_stream interval es) lb b → Forall (λ e, e = raw (Borrowed (#":"))) lb.
Proof.
  assert (∀ (h : Either (M:=M)) lb b, yielded h lb b →
    match h with Left m => ∃ m', yielded m lb m' | Right => lb = [] end) as Hinv.
  { induction 1 as [h|h h' l h2 Hp _ IH|h h' x l h2 Hp _ IH].
    - destruct h as [m|]; [exists m; constructor|done].
    - destruct h as [m|]; [|done]. unfold poll_next, either_poll_next in Hp.
      destruct (poll_next m) as [p m'] eqn:Hm. simpl in Hp. injection Hp as -> <-.
      destruct IH as [m2 ?]. exists m2. by eapply yielded_pending.
    - destruct h as [m|]; [|done]. unfold poll_next, either_poll_next in Hp.
      destruct (poll_next m) as [p m'] eqn:Hm. simpl in Hp. injection Hp as -> <-.
      destruct IH as [m2 ?]. exists m2. by eapply yielded_item. }
  intros Hy%Hinv. unfold heartbeat_stream in Hy. destruct (heartbeat es); [|by subst].
  destruct Hy as [m' (l0 & s' & _ & ->)%stream_map_yielded]. apply Forall_fmap, Forall_forall. done.
Qed.

Lemma blank_name_unbroken n : unbroken (blank is_name_break n).
Proof.
  apply Forall_fmap, Forall_forall. intros c _. simpl.
  destruct (is_name_break c) eqn:Hc; [done|].
  apply bool_decide_eq_false in Hc. apply bool_decide_eq_false. set_solver.
Qed.

Lemma events_items evs :
  Forall (λ s, ∃ ls, Forall unbroken ls ∧ s = wire ls) (to_write <$> (evs ≫= Event.into_stream)).
Proof.
  assert (∀ n v, ∃ ls, Forall unbroken ls ∧ to_write (many n v) = wire ls) as Hm.
  { intros n v. eexists. rewrite (proj2 (many_write _ _)), field_lines_wire. split; [|done].
    apply named_lines_unbroken, blank_name_unbroken. }
  assert (∀ n v, ∃ ls, Forall unbroken ls ∧ to_write (one n v) = wire ls) as Ho.
  { intros n v. eexists. rewrite (proj2 (one_write _ _)), field_wire. split; [|done].
    constructor; [|done]. apply named_unbroken; [apply blank_name_unbroken|apply blank_break]. }
  apply Forall_fmap, Forall_forall. intros x (e & Hx & _)%list_elem_of_bind.
  apply list_elem_of_omap in Hx as (o & Ho' & ->). rewrite !elem_of_cons, elem_of_nil in Ho'.
  destruct Ho' as [Hx|[Hx|[Hx|[Hx|[Hx|[Hx|[]]]]]]]; simpl.
  1-5: symmetry in Hx; apply fmap_Some in Hx as (v & _ & ->); [eauto..].
  injection Hx as ->. exists [[]]. rewrite (proj2 (raw_write _)). by repeat constructor.
Qed.

(** C13: what the client of an event stream receives.  Whatever the sizes of the
    buffers, however often the source of the events is not ready and wherever
    heartbeats fall between the lines, every poll returns; the messages the
    client has dispatched are at any time a prefix of those of the events, and
    after enough polls its state is the one of having received every event:
    the data with its lines joined by line feeds and without the blank a line
    begins with, the identifier and the type with blanks in place of line
    breaks. *)
Theorem event_stream_delivers n (es : EventStream (S := S)) evs :
  yields n (stream es) evs →
  ∃ polls turns, ∀ fuel rooms, turns ≤ fuel → Forall (lt 0) rooms →
    ∃ outs reader, read_stream fuel rooms (into_reader (F := F) (M := M) interval es) =
        Some (outs, reader) ∧
      dispatched (parse (concat outs)) `prefix_of` dispatched (foldl receive client_new evs) ∧
      (polls ≤ length rooms → parse (concat outs) = foldl receive client_new evs).
Proof.
  intros [m Hy]%(flat_map_yields Event.into_stream).
  destruct (Join.join_spec m _ (heartbeat_stream interval es) _ Hy)
    as (k & l & lb & b & Hl & Hlb & Hi).
  apply heartbeats_yielded in Hlb.
  destruct (events_write evs) as (Hwf & Htext & Hub).
  assert (Forall wf l) as Hwl.
  { eapply Join.interleave_Forall; [done..|]. eapply Forall_impl; [done|]. intros ? ->. apply raw_write. }
  destruct (process_interleaved _ _ _ client_new (Join.interleave_fmap to_write _ _ _ Hi))
    as (ls & ls' & Hls & Hls' & Hu & Hu' & Hf).
  { apply Forall_fmap. eapply Forall_impl; [done|]. intros ? ->. simpl. apply raw_write. }
  { apply events_items. }
  assert (ls' = evs ≫= event_lines) as ->.
  { rewrite <-(complete_lines_wire ls') by done. rewrite <-Hls', Htext. by apply complete_lines_wire. }
  rewrite process_events in Hf by done.
  assert (Forall readable l) as Hrl by exact Hwl.
  exists (k + length (wire ls)), (2 * length l + 2). intros fuel rooms Hfuel Hrooms.
  destruct (Reader.reader_stream_spec fuel rooms k _ l Hrooms Hfuel Hl Hrl)
    as (outs & reader & rest & Hp & Hc & Hend).
  change (Reader.contents l) with (concat (to_write <$> l)) in Hc, Hend. rewrite Hls in Hc, Hend.
  exists outs, reader. split_and!; [exact Hp|..].
  - rewrite <-Hf. by apply (parse_prefix ls _ rest).
  - intros Hn. rewrite (Hend Hn). unfold parse. by rewrite complete_lines_wire.
Qed.
End delivery.

(** A heartbeat and a comment, then a message with two lines of data: the blank
    its second line begins with is lost, the line break in its type becomes one. *)
Section witness.
Import Reference TokioReference AdaptorReference.

Definition example_events : list Event :=
  [comment_event (Borrowed (#"hi"));
   set_event (Borrowed (#"a" ++ LF :: #"b"))
     (set_id (Borrowed (#"7")) (data_event (Borrowed (#"x" ++ CR :: LF :: #" y"))))].

Definition example_stream : EventStream (S := list (option Event)) :=
  EventStream_with (None :: (Some <$> example_events)) (Some (Duration_new 1 0)).

Definition beats (d : Duration) : list (option unit) := [Some tt; None].

Example event_stream_witness :
  foldl receive client_new example_events =
    Client_with [] [] (#"7") None [Message_new (#"a b") (#"x" ++ LF :: #"y") (#"7")] ∧
  (∃ polls turns, ∀ fuel rooms, turns ≤ fuel → Forall (lt 0) rooms →
    ∃ outs reader, read_stream fuel rooms
        (into_reader (F := list (option RawLinedEvent)) (M := list (option RawLinedEvent))
           beats example_stream) = Some (outs, reader) ∧
      dispatched (parse (concat outs)) `prefix_of` dispatched (foldl receive client_new example_events) ∧
      (polls ≤ length rooms → parse (concat outs) = foldl receive client_new example_events)) ∧
  match read_stream 20 (replicate 30 3)
      (into_reader (F := list (option RawLinedEvent)) (M := list (option RawLinedEvent))
         beats example_stream) with
  | Some (outs, _) =>
    concat outs = #":" ++ LF :: #":hi" ++ LF :: LF :: #"id:7" ++ LF :: #"event:a b" ++ LF ::
      #"data:x" ++ LF :: #"data: y" ++ [LF; LF]
  | None => False
  end.
Proof.
  split; [by vm_compute|]. split; [|by vm_compute].
  apply (event_stream_delivers beats 1). eapply yields_pending; [done|].
  do 2 (eapply yields_item; [done|]). by eapply yields_end.
Defined.
End witness.
End Delivery.
