(* ===== verification/Shutdown.v ===== *)
(** * Shutdown: trip wires, cancellable I/O and listeners that never fail

    Module [TripWire] models core/lib/src/shutdown/tripwire.rs, the future
    behind [Shutdown] (core/lib/src/shutdown/handle.rs), as a transition
    system whose steps are the accesses of the state the clones share: tasks
    that poll and tasks that trip interleave at every one of them.
    [tokio::sync::Notify] is the class [Notify].  Loads and stores of the flag
    are sequentially consistent.

    Module [Cancellable] models core/lib/src/listener/cancellable.rs over any
    futures for the three stages, and Module [Bounced] the accept loop of
    core/lib/src/listener/bounced.rs. *)

From S2P Require Import Prelude Streams.

(** ** [tokio::sync::Notify] *)

(** A [Notified] is a handle: the state of the future is in the [Notify].
    [poll_notified] registers the waker of a task, named by its number;
    [notify_waiters] returns the wakers it wakes. *)
Class Notify (N Notified : Type) := {
  notify_new : N;
  notified_future : N → N * Notified;
  poll_notified : nat → N → Notified → bool * N;
  drop_notified : N → Notified → N;
  notify_waiters : N → N * list nat;
}.

(** What its documentation promises: a call of [notify_waiters] completes
    every future that exists, polled or not, and wakes the task that last
    polled it; a future completes in no other way. *)
Class NotifyLaws (N Notified : Type) `{Notify N Notified} := {
  live : N → Notified → Prop;
  done : N → Notified → bool;
  waits : N → Notified → nat → Prop;
  undisturbed (n n' : N) (e : Notified) : Prop :=
    live n e → live n' e ∧ done n' e = done n e ∧ ∀ w, waits n e w → waits n' e w;
  notified_future_spec n n' e :
    notified_future n = (n', e) →
    ¬ live n e ∧ live n' e ∧ done n' e = false ∧ ∀ e', undisturbed n n' e';
  poll_notified_spec w n e b n' :
    live n e → poll_notified w n e = (b, n') →
    b = done n e ∧ live n' e ∧ done n' e = done n e ∧ (b = false → waits n' e w) ∧
    ∀ e', e' ≠ e → undisturbed n n' e';
  drop_notified_spec n e e' : e' ≠ e → undisturbed n (drop_notified n e) e';
  notify_waiters_spec n n' ws e :
    notify_waiters n = (n', ws) → live n e →
    live n' e ∧ done n' e = true ∧ ∀ w, done n e = false → waits n e w → w ∈ ws;
}.

Module TripWire.
Section wire.
Context {N Notified : Type}.
Context {NO : Notify N Notified}.

(** Where the task that owns a clone is: before [poll] reads the flag, before
    it creates the event, before it polls the event, before it reads the flag
    again, or out of [poll], which returned [Pending] or [Ready]. *)
Inductive Pc := Idle | Create | PollEvent | Recheck | Parked | Completed.

#[export] Instance Pc_eq_dec : EqDecision Pc.
Proof. solve_decision. Defined.

(** [struct TripWire]: the clone a task owns. *)
Record TripWire := mkTripWire { event : option Notified; pc : Pc }.

(** The shared [State] with the clones, by the task that owns each; the calls
    of [trip] between the store and the notification; the tasks that were
    woken since they last started to poll. *)
Record Sys := mkSys {
  tripped : bool;
  notify : N;
  wires : gmap nat TripWire;
  tripping : nat;
  woken : gset nat;
}.

(** [TripWire::new], owned by task 0. *)
Definition new : Sys :=
  {| tripped := false; notify := notify_new; wires := {[0 := mkTripWire None Idle]};
     tripping := 0; woken := ∅ |}.

(** The two effects of [trip]. *)
Definition trip_store (s : Sys) : Sys :=
  {| tripped := true; notify := notify s; wires := wires s;
     tripping := S (tripping s); woken := woken s |}.

Definition trip_notify (s : Sys) : option Sys :=
  match tripping s with
  | 0 => None
  | S k =>
    let '(n, ws) := notify_waiters (notify s) in
    Some {| tripped := tripped s; notify := n; wires := wires s;
            tripping := k; woken := woken s ∪ list_to_set ws |}
  end.

(** [clone], for another task. *)
Definition clone (i j : nat) (s : Sys) : option Sys :=
  match wires s !! i, wires s !! j with
  | Some _, None =>
    Some {| tripped := tripped s; notify := notify s;
            wires := <[j := mkTripWire None Idle]> (wires s);
            tripping := tripping s; woken := woken s ∖ {[j]} |}
  | _, _ => None
  end.

(** Assigning [self.event = None] drops the event there was. *)
Definition clear_event (n : N) (w : TripWire) : N :=
  match event w with Some e => drop_notified n e | None => n end.

(** [drop]. *)
Definition drop (i : nat) (s : Sys) : option Sys :=
  w ← wires s !! i;
  Some {| tripped := tripped s; notify := clear_event (notify s) w;
          wires := delete i (wires s); tripping := tripping s; woken := woken s |}.

(** The task of a clone goes on to [pc], with the event [e]. *)
Definition goto (i : nat) (n : N) (e : option Notified) (p : Pc) (s : Sys) : Sys :=
  {| tripped := tripped s; notify := n; wires := <[i := mkTripWire e p]> (wires s);
     tripping := tripping s; woken := woken s |}.

(** [self.event = None; return Poll::Ready(())]. *)
Definition complete (i : nat) (n : N) (w : TripWire) (s : Sys) : Sys :=
  goto i (clear_event n w) None Completed s.

(** A task starts to poll, woken or not. *)
Definition start_poll (i : nat) (w : TripWire) (s : Sys) : Sys :=
  {| tripped := tripped s; notify := notify s;
     wires := <[i := mkTripWire (event w) Idle]> (wires s);
     tripping := tripping s; woken := woken s ∖ {[i]} |}.

(** The next access of [poll] by the task of a clone. *)
Definition poll_step (i : nat) (s : Sys) : option Sys :=
  w ← wires s !! i;
  Some (match pc w with
        | Idle =>
          if tripped s then complete i (notify s) w s
          else goto i (notify s) (event w) (match event w with None => Create | Some _ => PollEvent end) s
        | Create =>
          let '(n, e) := notified_future (notify s) in goto i n (Some e) PollEvent s
        | PollEvent =>
          match event w with
          | Some e =>
            let '(ready, n) := poll_notified i (notify s) e in
            if ready then complete i n w s else goto i n (event w) Recheck s
          | None => goto i (notify s) None Parked s
          end
        | Recheck =>
          if tripped s then complete i (notify s) w s
          else goto i (notify s) (event w) Parked s
        | Parked | Completed => start_poll i w s
        end).

(** The transition system. *)
Inductive step : Sys → Sys → Prop :=
  | step_store s : step s (trip_store s)
  | step_notify s s' : trip_notify s = Some s' → step s s'
  | step_clone i j s s' : clone i j s = Some s' → step s s'
  | step_drop i s s' : drop i s = Some s' → step s s'
  | step_poll i s s' : poll_step i s = Some s' → step s s'.

Definition reachable (s : Sys) : Prop := rtc step new s.

(** Some steps of one task, one after the other. *)
Fixpoint poll_steps (k : nat) (i : nat) (s : Sys) : option Sys :=
  match k with 0 => Some s | S k => poll_step i s ≫= poll_steps k i end.

Lemma reachable_new : reachable new.
Proof. apply rtc_refl. Qed.

Lemma reachable_step s s' : reachable s → step s s' → reachable s'.
Proof. unfold reachable. intros. by eapply rtc_r. Qed.

Definition leads (s : Sys) (o : option Sys) : Prop :=
  reachable s → ∀ s', o = Some s' → reachable s'.

Lemma leads_bind s o f : leads s o → (∀ s', leads s' (f s')) → leads s (o ≫= f).
Proof. intros Ho Hf Hr s' (s1&H1&H2)%bind_Some. exact (Hf s1 (Ho Hr s1 H1) s' H2). Qed.

Lemma leads_step s o : (∀ s', o = Some s' → step s s') → leads s o.
Proof. intros Ho Hr s' Hs. eauto using reachable_step. Qed.

Lemma leads_poll_steps k i s : leads s (poll_steps k i s).
Proof.
  revert s. induction k as [|k IH]; simpl; intros s; [by intros Hr s' [= <-]|].
  apply leads_bind; [|auto]. apply leads_step, step_poll.
Qed.

End wire.

Arguments TripWire Notified : clear implicits.
Arguments Sys N Notified : clear implicits.

(** ** Wake-ups are never lost *)

Section laws.
Context {N Notified : Type}.
Context {NO : Notify N Notified} {NL : NotifyLaws N Notified}.
Implicit Types (s : Sys N Notified) (w : TripWire Notified).

(** What holds of the clone of task [i]. *)
Definition wire_ok (i : nat) (w : TripWire Notified) (s : Sys N Notified) : Prop :=
  (∀ e, event w = Some e →
     live (notify s) e ∧ (done (notify s) e = true → tripped s = true)) ∧
  match pc w with
  | Idle => True
  | Create => event w = None
  | PollEvent => is_Some (event w)
  | Recheck =>
    ∃ e, event w = Some e ∧ (done (notify s) e = false → waits (notify s) e i)
  | Parked =>
    i ∈ woken s ∨
    ∃ e, event w = Some e ∧ done (notify s) e = false ∧ waits (notify s) e i ∧
      (tripped s = true → 0 < tripping s)
  | Completed => tripped s = true
  end.

Definition inv (s : Sys N Notified) : Prop :=
  (0 < tripping s → tripped s = true) ∧
  (∀ i w, wires s !! i = Some w → wire_ok i w s) ∧
  (∀ i j w w' e, wires s !! i = Some w → wires s !! j = Some w' →
     event w = Some e → event w' = Some e → i = j).

(** A clone whose event is left alone by a step that keeps the flag. *)
Lemma wire_ok_undisturbed i w s s' :
  (∀ e, event w = Some e → undisturbed (notify s) (notify s') e) →
  tripped s' = tripped s → tripping s' = tripping s → (i ∈ woken s → i ∈ woken s') →
  wire_ok i w s → wire_ok i w s'.
Proof.
  intros Hu Ht Hk Hw [He Hpc]. unfold wire_ok. rewrite Ht, Hk. split.
  - intros e Hev. destruct (He e Hev) as [Hl Hd].
    destruct (Hu e Hev Hl) as (?&->&_). auto.
  - destruct (pc w); try done.
    + destruct Hpc as (e&Hev&Hd). exists e. split; [done|].
      destruct (Hu e Hev (proj1 (He e Hev))) as (_&->&Hws). auto.
    + destruct Hpc as [Hin|(e&Hev&Hd&Hws&Ht')]; [by left; auto|].
      right. exists e. destruct (Hu e Hev (proj1 (He e Hev))) as (_&->&Hws'). auto.
Qed.

(** A step of one task that leaves the events of the others alone. *)
Lemma inv_goto i w s n e p wk :
  inv s → wires s !! i = Some w →
  (∀ j, j ≠ i → j ∈ woken s → j ∈ wk) →
  (∀ e', Some e' ≠ event w → undisturbed (notify s) n e') →
  (∀ e', e = Some e' → event w = Some e' ∨ ¬ live (notify s) e') →
  let s' := mkSys (tripped s) n (<[i := mkTripWire e p]> (wires s)) (tripping s) wk in
  wire_ok i (mkTripWire e p) s' → inv s'.
Proof.
  intros (Hk&Hw&Hd) Hi Hwk Hn He s' Hok. subst s'. split; [done|split; simpl].
  - intros j w' [[<- <-]|[Hne Hj]]%lookup_insert_Some; [done|].
    apply (wire_ok_undisturbed j w' s); simpl; [|done..|auto|auto].
    intros e' He'. apply Hn. intros Heq. apply Hne. by eapply Hd.
  - assert (Hfresh : ∀ j w' e', i ≠ j → wires s !! j = Some w' → event w' = Some e' →
              e ≠ Some e').
    { intros j w' e' Hne Hj He' ->. destruct (He e' eq_refl) as [Hev|Hl].
      - apply Hne. by eapply Hd.
      - apply Hl, (Hw j w' Hj). done. }
    intros j k w1 w2 e1 [[<- <-]|[Hne Hj]]%lookup_insert_Some
      [[<- <-]|[Hne' Hk']]%lookup_insert_Some H1 H2; simpl in *; [done|..|by eapply Hd].
    + by destruct (Hfresh k w2 e1).
    + by destruct (Hfresh j w1 e1).
Qed.

Lemma undisturbed_refl n e : undisturbed n n e.
Proof. by intros. Qed.

Lemma clear_event_undisturbed n w e' :
  Some e' ≠ event w → undisturbed n (clear_event n w) e'.
Proof.
  unfold clear_event. destruct (event w) as [e|]; [|intros _; apply undisturbed_refl].
  intros Hne. apply drop_notified_spec. congruence.
Qed.

Lemma inv_complete i w s n :
  inv s → wires s !! i = Some w → tripped s = true →
  (∀ e', Some e' ≠ event w → undisturbed (notify s) n e') →
  inv (complete i n w s).
Proof.
  intros Hinv Hi Ht Hn. apply (inv_goto i w); try done.
  intros e' Hne Hl. destruct (Hn e' Hne Hl) as (Hl'&Hd&Hws).
  destruct (clear_event_undisturbed n w e' Hne Hl') as (?&Hd'&?).
  split_and!; [done|congruence|auto].
Qed.

Lemma inv_poll_step i s s' : inv s → poll_step i s = Some s' → inv s'.
Proof.
  unfold poll_step. intros Hinv. destruct (wires s !! i) as [w|] eqn:Hi; simpl; [|done].
  intros [= <-].
  destruct (proj1 (proj2 Hinv) i w Hi) as [He Hpc].
  destruct (pc w) eqn:Hp.
  - destruct (tripped s) eqn:Ht.
    + apply inv_complete; auto using undisturbed_refl.
    + apply (inv_goto i w); auto using undisturbed_refl.
      split; simpl; [by rewrite Ht|]. destruct (event w); [by eexists|done].
  - destruct (notified_future (notify s)) as [n e] eqn:Hn.
    destruct (notified_future_spec _ _ _ Hn) as (Hnl&Hl&Hd&Hu).
    apply (inv_goto i w); auto.
    + intros e' [= <-]. by right.
    + split; simpl; [|by eexists]. intros e' [= <-]. split; [done|congruence].
  - destruct (event w) as [e|] eqn:Hev; [|by destruct Hpc].
    destruct (He e eq_refl) as [Hl Hd].
    destruct (poll_notified i (notify s) e) as [b n] eqn:Hn.
    destruct (poll_notified_spec _ _ _ _ _ Hl Hn) as (->&Hl'&Hd'&Hws&Hu).
    assert (Hu' : ∀ e', Some e' ≠ event w → undisturbed (notify s) n e').
    { intros e' Hne. apply Hu. congruence. }
    destruct (done (notify s) e) eqn:Hdone.
    + apply inv_complete; auto.
    + apply (inv_goto i w); auto.
      * intros e' [= <-]. auto.
      * split; simpl; [intros e' [= <-]|exists e]; rewrite Hd'; auto.
  - destruct (tripped s) eqn:Ht.
    + apply inv_complete; auto using undisturbed_refl.
    + apply (inv_goto i w); auto using undisturbed_refl.
      split; simpl; [by rewrite Ht|]. right.
      destruct Hpc as (e&Hev&Hws). exists e. destruct (He e Hev) as [_ Hd].
      rewrite Ht. destruct (done (notify s) e); [by specialize (Hd eq_refl)|split_and!; auto; done].
  - apply (inv_goto i w); auto using undisturbed_refl; [set_solver|].
    split; simpl; [done|exact I].
  - apply (inv_goto i w); auto using undisturbed_refl; [set_solver|].
    split; simpl; [done|exact I].
Qed.

Lemma inv_trip_notify s s' : inv s → trip_notify s = Some s' → inv s'.
Proof.
  unfold trip_notify. intros (Hk&Hw&Hd). destruct (tripping s) as [|k] eqn:Ht; [done|].
  destruct (notify_waiters (notify s)) as [n ws] eqn:Hn. intros [= <-].
  specialize (Hk ltac:(lia)). split; [done|split; [|done]].
  intros i w Hi. destruct (Hw i w Hi) as [He Hpc].
  assert (Hspec := λ e Hev, notify_waiters_spec _ _ _ e Hn (proj1 (He e Hev))).
  split; simpl.
  - intros e Hev. destruct (Hspec e Hev) as (?&?&?). auto.
  - destruct (pc w); auto.
    + destruct Hpc as (e&Hev&Hws). exists e. split; [done|].
      destruct (Hspec e Hev) as (_&->&_). done.
    + left. destruct Hpc as [?|(e&Hev&Hde&Hws&_)]; [set_solver|].
      destruct (Hspec e Hev) as (_&_&Hin). set_solver.
Qed.

Lemma inv_new : inv new.
Proof.
  split; [simpl; lia|split; simpl].
  - intros i w [<- <-]%lookup_singleton_Some. by split.
  - intros i j w w' e [<- <-]%lookup_singleton_Some [<- <-]%lookup_singleton_Some. done.
Qed.

Lemma inv_step s s' : inv s → step s s' → inv s'.
Proof.
  intros Hinv Hs. destruct Hs as [s|s s' Hs|i j s s' Hs|i s s' Hs|i s s' Hs].
  - destruct Hinv as (Hk&Hw&Hd). split; [done|split; [|done]].
    intros i w Hi. destruct (Hw i w Hi) as [He Hpc]. split; simpl.
    + intros e Hev. by destruct (He e Hev).
    + destruct (pc w); try done.
      destruct Hpc as [?|(e&?&?&?&?)]; [by left|right]. exists e. split_and!; try done. lia.
  - by eapply inv_trip_notify.
  - revert Hs. unfold clone.
    destruct (wires s !! i) as [wi|] eqn:Hi; [|done].
    destruct (wires s !! j) as [wj|] eqn:Hj; [done|]. intros [= <-].
    destruct Hinv as (Hk&Hw&Hd). split; [done|split; simpl].
    + intros k w [[<- <-]|[Hne Hk']]%lookup_insert_Some; [by split|].
      apply (wire_ok_undisturbed k w s); simpl; auto using undisturbed_refl. set_solver.
    + intros k k' w w' e [[<- <-]|[_ Hk1]]%lookup_insert_Some
        [[<- <-]|[_ Hk2]]%lookup_insert_Some; simpl; try done. by apply Hd.
  - revert Hs. unfold drop. destruct (wires s !! i) as [w|] eqn:Hi; simpl; [|done].
    intros [= <-]. destruct Hinv as (Hk&Hw&Hd). split; [done|split; simpl].
    + intros j w' [Hne Hj]%lookup_delete_Some.
      apply (wire_ok_undisturbed j w' s); simpl; auto.
      intros e He. apply clear_event_undisturbed. intros Heq. apply Hne. by eapply Hd.
    + intros j k w1 w2 e [_ Hj]%lookup_delete_Some [_ Hk']%lookup_delete_Some. by apply Hd.
  - by eapply inv_poll_step.
Qed.

Lemma reachable_inv s : reachable s → inv s.
Proof.
  revert s. apply rtc_ind_r; [apply inv_new|]. intros y z _ Hstep Hinv. by eapply inv_step.
Qed.

(** The poll of task [i], left to itself, returns [Ready] within [k] steps. *)
Definition completes (k : nat) (i : nat) (s : Sys N Notified) : Prop :=
  ∃ j s', j ≤ k ∧ poll_steps j i s = Some s' ∧ (pc <$> wires s' !! i) = Some Completed.

Lemma completes_step k i s s' : poll_step i s = Some s' → completes k i s' → completes (S k) i s.
Proof.
  intros Hs (j&s''&Hj&Hr&Hc). exists (S j), s''. split_and!; [lia| |done]. simpl. by rewrite Hs.
Qed.

Lemma completes_now k i w s : wires s !! i = Some w → pc w = Completed → completes k i s.
Proof. intros Hi Hp. exists 0, s. rewrite Hi. simpl. rewrite Hp. split_and!; [lia|done..]. Qed.

Lemma completes_read i w s :
  wires s !! i = Some w → pc w = Idle ∨ pc w = Recheck → tripped s = true → completes 1 i s.
Proof.
  intros Hi Hp Ht. eapply (completes_step 0 i s (complete i (notify s) w s)).
  - unfold poll_step. rewrite Hi. simpl. rewrite Ht. by destruct Hp as [-> | ->].
  - eapply completes_now; [apply lookup_insert_eq|done].
Qed.

Lemma completes_poll_event i w e s :
  wires s !! i = Some w → pc w = PollEvent → event w = Some e → tripped s = true →
  completes 2 i s.
Proof.
  intros Hi Hp He Ht. destruct (poll_notified i (notify s) e) as [b n] eqn:Hn.
  eapply (completes_step 1 i s).
  - unfold poll_step. rewrite Hi. simpl. rewrite Hp, He, Hn. done.
  - destruct b.
    + eapply completes_now; [apply lookup_insert_eq|done].
    + eapply completes_read; [apply lookup_insert_eq|by right|done].
Qed.

Lemma completes_tripped i w s :
  inv s → wires s !! i = Some w → tripped s = true → completes 3 i s.
Proof.
  intros Hinv Hi Ht. destruct (proj1 (proj2 Hinv) i w Hi) as [_ Hpc].
  assert (Hle : ∀ k, k ≤ 3 → completes k i s → completes 3 i s).
  { intros k Hk (j&s'&Hj&?). exists j, s'. split; [lia|done]. }
  destruct (pc w) eqn:Hp.
  - apply (Hle 1); [lia|]. eapply completes_read; eauto.
  - destruct (notified_future (notify s)) as [n e] eqn:Hn.
    eapply (completes_step 2 i s).
    + unfold poll_step. rewrite Hi. simpl. rewrite Hp, Hn. done.
    + eapply completes_poll_event; [apply lookup_insert_eq|done..].
  - destruct Hpc as [e He]. apply (Hle 2); [lia|]. by eapply completes_poll_event.
  - apply (Hle 1); [lia|]. eapply completes_read; eauto.
  - apply (Hle 2); [lia|]. eapply (completes_step 1 i s).
    + unfold poll_step. rewrite Hi. simpl. rewrite Hp. done.
    + eapply completes_read; [apply lookup_insert_eq|by left|done].
  - by eapply completes_now.
Qed.

Lemma step_tripped s s' : step s s' → tripped s = true → tripped s' = true.
Proof.
  intros [s1|s1 s2 Hs|i j s1 s2 Hs|i s1 s2 Hs|i s1 s2 Hs] Ht; simpl; [done|..]; revert Hs.
  - unfold trip_notify. destruct (tripping s1), (notify_waiters (notify s1)); by intros [= <-].
  - unfold clone. destruct (wires s1 !! i), (wires s1 !! j); by intros [= <-].
  - unfold drop. destruct (wires s1 !! i); simpl; by intros [= <-].
  - unfold poll_step. destruct (wires s1 !! i) as [w|]; simpl; [|done]. rewrite Ht.
    intros [= <-]. repeat case_match; simpl; auto.
Qed.

(** C17: the trip wire loses no wake-up, however the polls of its clones and the
    calls of [trip] interleave, access by access: in every reachable state a
    poll has returned [Ready] only if the flag is up; once a call of [trip] has
    returned and no other is under way, every task whose poll returned
    [Pending] has been woken since; and from then on the flag stays up, and
    every poll, wherever it was interrupted, returns [Ready] in at most three
    further accesses. *)
Theorem wake_ups_never_lost s :
  reachable s →
  (∀ i w, wires s !! i = Some w → pc w = Completed → tripped s = true) ∧
  (∀ i w, wires s !! i = Some w → pc w = Parked →
     tripped s = true → tripping s = 0 → i ∈ woken s) ∧
  (tripped s = true → ∀ s', rtc step s s' →
     tripped s' = true ∧ ∀ i, is_Some (wires s' !! i) → completes 3 i s').
Proof.
  intros Hr. assert (Hinv := reachable_inv s Hr). split_and!.
  - intros i w Hi Hp. destruct (proj1 (proj2 Hinv) i w Hi) as [_ Hpc]. by rewrite Hp in Hpc.
  - intros i w Hi Hp Ht Hk. destruct (proj1 (proj2 Hinv) i w Hi) as [_ Hpc]. rewrite Hp in Hpc.
    destruct Hpc as [?|(e&_&_&_&Hk')]; [done|]. specialize (Hk' Ht). lia.
  - intros Ht s' Hs.
    assert (Ht' : tripped s' = true).
    { revert s' Hs. apply rtc_ind_r; [done|]. intros y z _ Hyz. by apply step_tripped. }
    split; [done|]. intros i [w Hi]. eapply completes_tripped; eauto.
    apply reachable_inv. unfold reachable. by etrans.
Qed.
End laws.
End TripWire.

(** ** A notifier, for the witness

    tokio's own idea: a future remembers how many calls of [notify_waiters]
    there had been when it was created. *)

Module Notifier.

Record Notified := mkNotified { id : nat; stamp : nat }.
Record Notify' := mkNotify {
  calls : nat;
  stamps : gmap nat nat;
  waiters : gmap nat nat;
}.

#[export] Instance Notified_eq_dec : EqDecision Notified.
Proof. solve_decision. Defined.

#[global] Instance notifier : Notify Notify' Notified := {
  notify_new := mkNotify 0 ∅ ∅;
  notified_future n :=
    (mkNotify (calls n) (<[fresh (dom (stamps n)) := calls n]> (stamps n)) (waiters n),
     mkNotified (fresh (dom (stamps n))) (calls n));
  poll_notified w n e :=
    if decide (stamp e ≠ calls n) then (true, n)
    else (false, mkNotify (calls n) (stamps n) (<[id e := w]> (waiters n)));
  drop_notified n e :=
    if decide (stamps n !! id e = Some (stamp e)) then
      mkNotify (calls n) (stamps n) (delete (id e) (waiters n))
    else n;
  notify_waiters n :=
    (mkNotify (S (calls n)) (stamps n) ∅, snd <$> map_to_list (waiters n));
}.

#[global, refine] Instance notifier_laws : NotifyLaws Notify' Notified := {
  live n e := stamps n !! id e = Some (stamp e) ∧ stamp e ≤ calls n;
  done n e := bool_decide (stamp e ≠ calls n);
  waits n e w := waiters n !! id e = Some w;
}.
Proof.
  - intros n n' e [= <- <-]. simpl.
    assert (Hf : stamps n !! fresh (dom (stamps n)) = None).
    { apply not_elem_of_dom, is_fresh. }
    split_and!.
    + intros [Hl _]. congruence.
    + by rewrite lookup_insert_eq.
    + done.
    + by apply bool_decide_eq_false; intros [].
    + intros e' [Hl Hc]. split_and!; [|done..].
      rewrite lookup_insert_ne; [done|]. intros Heq. congruence.
  - intros w n e b n' [Hl Hc]. unfold poll_notified. simpl.
    destruct (decide (stamp e ≠ calls n)) as [Hd|Hd]; intros [= <- <-]; simpl.
    + rewrite bool_decide_eq_true_2 by done. split_and!; done.
    + rewrite bool_decide_eq_false_2 by done. split_and!; try done.
      * intros _. apply lookup_insert_eq.
      * intros e' Hne [Hl' Hc']. split_and!; [done..|].
        intros w' Hw. simpl. rewrite lookup_insert_ne; [done|].
        intros Heq. apply Hne. destruct e, e'; simpl in *; subst; congruence.
  - intros n e e' Hne [Hl Hc]. unfold drop_notified.
    simpl. destruct (decide (stamps n !! id e = Some (stamp e))) as [He|He];
      simpl; (split_and!; [done..|]); [|done].
    intros w Hw. rewrite lookup_delete_ne; [done|].
    intros Heq. apply Hne. destruct e, e'; simpl in *; subst; congruence.
  - intros n n' ws e [= <- <-] [Hl Hc]. simpl. split_and!; [done|lia|..].
    + apply bool_decide_eq_true. lia.
    + intros w _ Hw. apply list_elem_of_fmap. exists (id e, w). split; [done|].
      by apply elem_of_map_to_list.
Defined.

End Notifier.

(** A poll of task 1's clone interleaved with a [trip]: the flag goes up after
    the first read, the waiters are notified after the event was polled. *)
Definition raced : option (TripWire.Sys Notifier.Notify' Notifier.Notified) :=
  s ← TripWire.clone 0 1 TripWire.new;
  s ← TripWire.poll_steps 3 0 s;
  s ← TripWire.poll_steps 1 0 s;
  s ← TripWire.poll_steps 2 1 s;
  s ← TripWire.poll_steps 1 1 (TripWire.trip_store s);
  s ← TripWire.trip_notify s;
  TripWire.poll_steps 1 1 s.

Example wake_ups_never_lost_witness :
  ∃ s, raced = Some s ∧ TripWire.reachable s ∧
    (TripWire.pc <$> TripWire.wires s !! 0) = Some TripWire.Parked ∧
    (TripWire.pc <$> TripWire.wires s !! 1) = Some TripWire.Completed ∧
    0 ∈ TripWire.woken s ∧ TripWire.completes 3 0 s.
Proof.
  destruct raced as [s|] eqn:Hs; [|by vm_compute in Hs].
  assert (Hr : TripWire.reachable s).
  { revert s Hs. apply (TripWire.leads_bind TripWire.new).
    - apply TripWire.leads_step, TripWire.step_clone.
    - intros s1. do 3 (apply TripWire.leads_bind; [apply TripWire.leads_poll_steps|intros ?]).
      apply TripWire.leads_bind.
      + intros Hr. apply TripWire.leads_poll_steps.
        eapply TripWire.reachable_step; [done|apply TripWire.step_store].
      + intros s2. apply TripWire.leads_bind; [apply TripWire.leads_step, TripWire.step_notify|].
        intros s3. apply TripWire.leads_poll_steps.
    - apply TripWire.reachable_new. }
  destruct (TripWire.wake_ups_never_lost s Hr) as (_&Hw&Hc).
  revert Hw Hc. vm_compute in Hs. injection Hs as <-. intros Hw Hc.
  assert (Hsome : is_Some (Some (TripWire.mkTripWire (Notified := Notifier.Notified) None TripWire.Parked))) by done.
  eexists. split_and!; [done|done|done|done|..].
  - eapply Hw; done.
  - apply Hc; done.
Defined.

(** ** Errors of I/O *)

(** [std::io::ErrorKind], the kinds the code names and the others. *)
Inductive ErrorKind :=
  | ConnectionRefused | ConnectionReset | ConnectionAborted | TimedOut | BrokenPipe
  | OtherKind (code : nat).

#[export] Instance ErrorKind_eq_dec : EqDecision ErrorKind.
Proof. solve_decision. Defined.

(** [std::io::Error] and [std::io::Result]. *)
Record IoError := mkIoError { kind : ErrorKind; error_text : str }.
Abbreviation IoResult A := (A + IoError)%type.

(** [Future] with the output [()], as [poll_unpin] and [is_ready]. *)
Class Future (F : Type) := poll_unpin : F → bool * F.

(** ** Cancellable I/O (core/lib/src/listener/cancellable.rs) *)

(** [trait AsyncCancel]. *)
Class AsyncCancel (I : Type) := poll_cancel : I → Poll (IoResult unit) * I.

(** [tokio::io::AsyncRead], [AsyncWrite] and [futures::Stream] of results, with
    their errors. *)
Class IoRead (I : Type) := io_read : nat → I → Poll (IoResult str) * I.
Class IoWrite (I : Type) := {
  io_write : str → I → Poll (IoResult nat) * I;
  io_flush : I → Poll (IoResult unit) * I;
  io_shutdown : I → Poll (IoResult unit) * I;
  io_write_vectored : list str → I → Poll (IoResult nat) * I;
  io_is_write_vectored : I → bool;
}.

(** [impl<T: AsyncWrite> AsyncCancel for T]. *)
#[export] Instance write_cancel {I} `{IoWrite I} : AsyncCancel I := io_shutdown.

Module Cancellable.

(** [enum State]. *)
Inductive State := Active | Grace | Mercy.

(** [struct Stages] (core/lib/src/shutdown/handle.rs). *)
Record Stages (F : Type) := mkStages { start : F; grace : F; mercy : F }.
Arguments mkStages {F}.
Arguments start {F}.
Arguments grace {F}.
Arguments mercy {F}.

(** [struct Cancellable]. *)
Record Cancellable (I F : Type) := mkCancellable {
  io : option I;
  stages : Stages F;
  state : State;
}.
Arguments mkCancellable {I F}.
Arguments io {I F}.
Arguments stages {I F}.
Arguments state {I F}.

(** [CancellableExt::cancellable]. *)
Definition cancellable {I F} (self : I) (stages : Stages F) : Cancellable I F :=
  mkCancellable (Some self) stages Active.

Definition time_out : IoError :=
  mkIoError TimedOut #"shutdown grace period elapsed".

Definition gone : IoError := mkIoError BrokenPipe #"I/O driver terminated".

Definition inner {I F} (self : Cancellable I F) : option I := io self.

Section poll.
Context {I F : Type} `{AsyncCancel I} `{Future F}.
Implicit Types self : Cancellable I F.

Definition set_start (f : F) (s : Stages F) := mkStages f (grace s) (mercy s).
Definition set_grace (f : F) (s : Stages F) := mkStages (start s) f (mercy s).
Definition set_mercy (f : F) (s : Stages F) := mkStages (start s) (grace s) f.

(** The loop of [poll_with]; [None] when the fuel runs out. *)
Fixpoint poll_loop {T} (fuel : nat) (do_io : I → Poll (IoResult T) * I) (i : I)
    (st : Stages F) (s : State) : option (Poll (IoResult T) * Cancellable I F) :=
  match fuel with
  | 0 => None
  | S fuel =>
    match s with
    | Active =>
      let '(ready, f) := poll_unpin (start st) in
      if ready then poll_loop fuel do_io i (set_start f st) Grace
      else let '(r, i) := do_io i in
        Some (r, mkCancellable (Some i) (set_start f st) Active)
    | Grace =>
      let '(ready, f) := poll_unpin (grace st) in
      if ready then poll_loop fuel do_io i (set_grace f st) Mercy
      else let '(r, i) := do_io i in
        Some (r, mkCancellable (Some i) (set_grace f st) Grace)
    | Mercy =>
      let '(ready, f) := poll_unpin (mercy st) in
      if ready then Some (Ready (inr time_out), mkCancellable None (set_mercy f st) Mercy)
      else
        match poll_cancel i with
        | (Pending, i) => Some (Pending, mkCancellable (Some i) (set_mercy f st) Mercy)
        | (Ready (inl _), _) => Some (Ready (inr gone), mkCancellable None (set_mercy f st) Mercy)
        | (Ready (inr e), _) => Some (Ready (inr e), mkCancellable None (set_mercy f st) Mercy)
        end
    end
  end.

(** Each iteration that goes on advances the state, so three are enough. *)
Definition poll_with {T} (do_io : I → Poll (IoResult T) * I) (self : Cancellable I F) :
    option (Poll (IoResult T) * Cancellable I F) :=
  match io self with
  | Some i => poll_loop 3 do_io i (stages self) (state self)
  | None => Some (Ready (inr gone), self)
  end.
End poll.

(** The operations of the wrapped I/O. *)
Section operations.
Context {I F : Type} `{Future F}.

Definition poll_read `{IoRead I} `{AsyncCancel I} (room : nat) (self : Cancellable I F) :
    option (Poll (IoResult str) * Cancellable I F) :=
  poll_with (io_read room) self.

Definition poll_next {T} `{Stream (IoResult T) I} `{AsyncCancel I} (self : Cancellable I F) :
    option (Poll (option (IoResult T)) * Cancellable I F) :=
  '(r, self) ← poll_with (λ i,
    let '(r, i) := Streams.poll_next i in
    (match r with Ready v => Ready (inl v) | Pending => Pending end, i)) self;
  Some (match r with
        | Pending => Pending
        | Ready (inl (Some v)) => Ready (Some v)
        | Ready (inl None) => Ready None
        | Ready (inr e) => Ready (Some (inr e))
        end, self).

Context `{IoWrite I}.

Definition poll_write (buf : str) (self : Cancellable I F) :
    option (Poll (IoResult nat) * Cancellable I F) :=
  poll_with (io_write buf) self.

Definition poll_flush (self : Cancellable I F) :
    option (Poll (IoResult unit) * Cancellable I F) :=
  poll_with io_flush self.

Definition poll_shutdown (self : Cancellable I F) :
    option (Poll (IoResult unit) * Cancellable I F) :=
  poll_with io_shutdown self.

Definition poll_write_vectored (bufs : list str) (self : Cancellable I F) :
    option (Poll (IoResult nat) * Cancellable I F) :=
  poll_with (io_write_vectored bufs) self.

Definition is_write_vectored (self : Cancellable I F) : bool :=
  default false (io_is_write_vectored <$> inner self).
End operations.

(** ** What the polls of a connection return *)

Section spec.
Context {I F T : Type} {AC : AsyncCancel I} {FU : Future F}.
Abbreviation Io := (I → Poll (IoResult T) * I).

(** The polls of a connection, one operation after the other. *)
Fixpoint poll_all (dos : list Io) (self : Cancellable I F) :
    option (list (Poll (IoResult T)) * Cancellable I F) :=
  match dos with
  | [] => Some ([], self)
  | do_io :: dos =>
    '(r, self) ← poll_with do_io self;
    '(rs, self) ← poll_all dos self;
    Some (r :: rs, self)
  end.

(** The same operations on the I/O itself. *)
Fixpoint io_all (dos : list Io) (i : I) : list (Poll (IoResult T)) * I :=
  match dos with
  | [] => ([], i)
  | do_io :: dos =>
    let '(r, i) := do_io i in prod_map (cons r) id (io_all dos i)
  end.

(** The future is ready after that many polls that are not. *)
Fixpoint ready_after (n : nat) (f : F) : Prop :=
  match n with
  | 0 => fst (poll_unpin f) = true
  | S n => fst (poll_unpin f) = false ∧ ready_after n (snd (poll_unpin f))
  end.

(** What closing the I/O in at most [m] polls returns. *)
Fixpoint closing (m : nat) (i : I) : list (Poll (IoResult T)) :=
  match m with
  | 0 => [ Ready (inr time_out)]
  | S m =>
    match poll_cancel i with
    | (Pending, i) => Pending :: closing m i
    | (Ready (inl _), _) => [ Ready (inr gone)]
    | (Ready (inr e), _) => [ Ready (inr e)]
    end
  end.

(** All that a connection returns: [b] polls reach the I/O, it is closed in at
    most [m] more, and nothing is left of it. *)
Definition life (b m : nat) (dos : list Io) (i : I) : list (Poll (IoResult T)) :=
  let '(rs, i) := io_all (take b dos) i in
  let closed := rs ++ closing m i in
  closed ++ replicate (length dos - length closed) (Ready (inr gone)).

Lemma poll_all_gone dos self :
  io self = None →
  poll_all dos self = Some (replicate (length dos) (Ready (inr gone)), self).
Proof.
  intros Hio. induction dos as [|d dos IH]; [done|].
  simpl. unfold poll_with. rewrite Hio. simpl. by rewrite IH.
Qed.

Lemma life_cons b m d dos i :
  life (S b) m (d :: dos) i = fst (d i) :: life b m dos (snd (d i)).
Proof.
  unfold life. simpl. destruct (d i) as [r i']. simpl.
  destruct (io_all (take b dos) i') as [rs i'']. done.
Qed.

(** A poll that sees the end of a stage goes on as one of the next stage. *)
Lemma poll_all_grace dos i st f :
  dos ≠ [] → poll_unpin (start st) = (true, f) →
  poll_all dos (mkCancellable (Some i) st Active) =
  poll_all dos (mkCancellable (Some i) (set_start f st) Grace).
Proof.
  destruct dos as [|d dos]; [done|]. intros _ Hf. simpl. unfold poll_with. simpl.
  rewrite Hf. simpl. by destruct (poll_unpin (grace st)) as [[] ?], (poll_unpin (mercy st)) as [[] ?].
Qed.

Lemma poll_all_mercy dos i st f :
  dos ≠ [] → poll_unpin (grace st) = (true, f) →
  poll_all dos (mkCancellable (Some i) st Grace) =
  poll_all dos (mkCancellable (Some i) (set_grace f st) Mercy).
Proof.
  destruct dos as [|d dos]; [done|]. intros _ Hf. simpl. unfold poll_with. simpl.
  rewrite Hf. simpl. by destruct (poll_unpin (mercy st)) as [[] ?].
Qed.

(** The connection is closed and stays so after these polls. *)
Definition closes (dos : list Io) (self : Cancellable I F) (rs : list (Poll (IoResult T))) : Prop :=
  ∃ self', poll_all dos self = Some (rs, self') ∧ io self' = None.

Lemma closes_cons d dos self self' r rs :
  poll_with d self = Some (r, self') → closes dos self' rs → closes (d :: dos) self (r :: rs).
Proof.
  intros Hp (self''&Hr&Hio). exists self''. simpl. rewrite Hp. simpl. by rewrite Hr.
Qed.

Lemma closes_now d dos self self' e :
  poll_with d self = Some (Ready (inr e), self') → io self' = None →
  closes (d :: dos) self (Ready (inr e) :: replicate (length dos) (Ready (inr gone))).
Proof. intros Hp Hio. eapply closes_cons; [done|]. eexists. by rewrite poll_all_gone. Qed.

Lemma closes_mercy m dos i st :
  ready_after m (mercy st) → m < length dos →
  closes dos (mkCancellable (Some i) st Mercy) (life 0 m dos i).
Proof.
  revert dos i st. induction m as [|m IH]; intros [|d dos] i st; simpl; try lia.
  - intros Hm _. unfold life. simpl. rewrite Nat.sub_0_r.
    destruct (poll_unpin (mercy st)) as [ready f] eqn:Hf. simpl in Hm. subst ready.
    eapply closes_now; unfold poll_with; simpl; [by rewrite Hf|done].
  - intros [Hp Hm] Hlen. destruct (poll_unpin (mercy st)) as [ready f] eqn:Hf. simpl in *. subst ready.
    unfold life. simpl. destruct (poll_cancel i) as [[|[[]|e]] i'] eqn:Hc; simpl; rewrite ?Nat.sub_0_r.
    + eapply closes_cons; [unfold poll_with; simpl; by rewrite Hf, Hc|].
      apply (IH dos i' (set_mercy f st)); [done|lia].
    + eapply closes_now; unfold poll_with; simpl; [by rewrite Hf, Hc|done].
    + eapply closes_now; unfold poll_with; simpl; [by rewrite Hf, Hc|done].
Qed.

Lemma closes_eq dos self self' rs :
  poll_all dos self = poll_all dos self' → closes dos self' rs → closes dos self rs.
Proof. unfold closes. by intros ->. Qed.

Lemma closes_grace b m dos i st :
  ready_after b (grace st) → ready_after m (mercy st) → b + m < length dos →
  closes dos (mkCancellable (Some i) st Grace) (life b m dos i).
Proof.
  revert dos i st. induction b as [|b IH]; intros dos i st.
  - simpl. destruct (poll_unpin (grace st)) as [ready f] eqn:Hf. intros Hr Hm Hlen. simpl in Hr. subst ready.
    eapply closes_eq; [apply poll_all_mercy; [by intros ->; simpl in *; lia|done]|].
    by apply closes_mercy.
  - destruct dos as [|d dos]; simpl; [lia|]. intros [Hp Hb] Hm Hlen.
    rewrite life_cons. destruct (poll_unpin (grace st)) as [ready f] eqn:Hf. simpl in *. subst ready.
    apply (closes_cons d dos _ (mkCancellable (Some (snd (d i))) (set_grace f st) Grace)).
    { unfold poll_with. simpl. rewrite Hf. by destruct (d i). }
    apply (IH dos (snd (d i)) (set_grace f st)); [done..|lia].
Qed.

Lemma closes_active a b m dos i st :
  ready_after a (start st) → ready_after b (grace st) → ready_after m (mercy st) →
  a + b + m < length dos →
  closes dos (mkCancellable (Some i) st Active) (life (a + b) m dos i).
Proof.
  revert dos i st. induction a as [|a IH]; intros dos i st.
  - simpl. destruct (poll_unpin (start st)) as [ready f] eqn:Hf. intros Hr Hb Hm Hlen. simpl in Hr. subst ready.
    eapply closes_eq; [apply poll_all_grace; [by intros ->; simpl in *; lia|done]|].
    by apply closes_grace.
  - destruct dos as [|d dos]; simpl; [lia|]. intros [Hp Ha] Hb Hm Hlen.
    rewrite life_cons. destruct (poll_unpin (start st)) as [ready f] eqn:Hf. simpl in *. subst ready.
    apply (closes_cons d dos _ (mkCancellable (Some (snd (d i))) (set_start f st) Active)).
    { unfold poll_with. simpl. rewrite Hf. by destruct (d i). }
    apply (IH dos (snd (d i)) (set_start f st)); [done..|lia].
Qed.

(** C14: a connection ends.  If the shutdown starts after [a] of its polls, the
    grace period is over after [b] more and mercy after another [m], then
    exactly the first [a + b] polls reach the I/O, in order and with its own
    results; the following ones only close it, and return [Pending] at most
    [m] times until either closing ends, in [gone] or its own error, or mercy
    does, in [time_out]; from then on the I/O is dropped and every operation
    is answered by [gone]. *)
Theorem connection_ends a b m (dos : list Io) i st :
  ready_after a (start st) → ready_after b (grace st) → ready_after m (mercy st) →
  a + b + m < length dos →
  ∃ self, poll_all dos (cancellable i st) = Some (life (a + b) m dos i, self) ∧
    io self = None ∧ ∀ d, poll_with (T := T) d self = Some (Ready (inr gone), self).
Proof.
  intros Ha Hb Hm Hlen. destruct (closes_active a b m dos i st Ha Hb Hm Hlen) as (self&Hp&Hio).
  exists self. split_and!; [done|done|]. intros d. unfold poll_with. by rewrite Hio.
Qed.
End spec.
End Cancellable.

(** Futures that are ready after a number of polls, and I/O that has a number
    of bytes to write before it shuts down. *)
#[local] Instance countdown : Future nat :=
  λ n, match n with 0 => (true, 0) | S n => (false, n) end.
#[local] Instance buffered : IoWrite nat := {
  io_write buf n := (Ready (inl (length buf)), length buf + n);
  io_flush n := (Ready (inl tt), 0);
  io_shutdown n := match n with 0 => (Ready (inl tt), 0) | S n => (Pending, n) end;
  io_write_vectored bufs n := (Ready (inl (length (concat bufs))), length (concat bufs) + n);
  io_is_write_vectored n := true;
}.

Example connection_ends_witness :
  ∃ self,
    Cancellable.poll_all (replicate 6 (io_write #"a"))
      (Cancellable.cancellable 0 (Cancellable.mkStages 1 1 3)) =
    Some ([ Ready (inl 1); Ready (inl 1); Pending; Pending;
            Ready (inr Cancellable.gone); Ready (inr Cancellable.gone)], self) ∧
    Cancellable.io self = None.
Proof.
  destruct (Cancellable.connection_ends 1 1 3 (replicate 6 (io_write #"a")) 0
    (Cancellable.mkStages 1 1 3)) as (self&Hp&Hio&_); [done|done|done|simpl; lia|].
  exists self. split; [exact Hp|done].
Defined.

(** ** Listeners that retry (core/lib/src/listener/bounced.rs) *)

Module Bounced.

(** [Listener::accept]. *)
Class Listener (Accept L : Type) := accept : L → IoResult Accept * L.

(** [DURATION], in milliseconds. *)
Definition DURATION : nat := 250.

Definition is_recoverable (e : IoError) : bool :=
  match kind e with
  | ConnectionRefused | ConnectionAborted | ConnectionReset => true
  | _ => false
  end.

Section bounced.
Context {Accept L : Type} `{Listener Accept L}.

(** [accept_next], with what was accepted the milliseconds it slept; [None]
    when the fuel runs out. *)
Fixpoint accept_next (fuel : nat) (listener : L) : option (Accept * nat * L) :=
  match fuel with
  | 0 => None
  | S fuel =>
    match accept listener with
    | (inl a, listener) => Some (a, 0, listener)
    | (inr e, listener) =>
      '(a, slept, listener) ← accept_next fuel listener;
      Some (a, (if is_recoverable e then 0 else DURATION) + slept, listener)
    end
  end.

(** The errors of the first accepts, then a connection. *)
Fixpoint accepts (es : list IoError) (a : Accept) (l' : L) (listener : L) : Prop :=
  match es with
  | [] => accept listener = (inl a, l')
  | e :: es => ∃ l, accept listener = (inr e, l) ∧ accepts es a l' l
  end.

(** No error ends the loop: the first connection is returned, after a pause for
    each error that is not recoverable. *)
Lemma accept_next_spec es a l' listener fuel :
  accepts es a l' listener → length es < fuel →
  accept_next fuel listener =
  Some (a, DURATION * length (filter (λ e, ¬ is_recoverable e) es), l').
Proof.
  revert listener fuel. induction es as [|e es IH]; intros listener [|fuel]; simpl; try lia.
  - intros -> _. done.
  - intros (l&->&Hes) Hlen. rewrite (IH l fuel Hes) by lia. simpl. rewrite filter_cons.
    destruct (is_recoverable e); simpl; [done|].
    do 2 f_equal. f_equal. lia.
Qed.
End bounced.
End Bounced.
