(* ===== verification/Outcome.v ===== *)
(** * Outcome: success, error or forward (core/lib/src/outcome.rs)

    The three-way result of handlers, guards and parsers, its combinators, and
    the conversions of options and results into one. *)

From S2P Require Import Prelude.

(** [enum Outcome] (core/lib/src/outcome.rs). *)
Inductive Outcome (S E F : Type) :=
  | Success (s : S)
  | Error (e : E)
  | Forward (f : F).
Arguments Success {S E F} s.
Arguments Error {S E F} e.
Arguments Forward {S E F} f.

#[export] Instance Outcome_eq_dec {S E F} `{EqDecision S} `{EqDecision E} `{EqDecision F} :
  EqDecision (Outcome S E F).
Proof. solve_decision. Defined.

Module Outcome.
Section outcome.
Context {S E F : Type}.
Implicit Types self : Outcome S E F.

(** [unwrap] and [expect]; [None] is their panic. *)
Definition unwrap self : option S := match self with Success s => Some s | _ => None end.

Definition is_success self : bool := match self with Success _ => true | _ => false end.
Definition is_error self : bool := match self with Error _ => true | _ => false end.
Definition is_forward self : bool := match self with Forward _ => true | _ => false end.

Definition succeeded self : option S := match self with Success s => Some s | _ => None end.
Definition failed self : option E := match self with Error e => Some e | _ => None end.
Definition forwarded self : option F := match self with Forward f => Some f | _ => None end.

Definition success_or {T} (value : T) self : S + T :=
  match self with Success s => inl s | _ => inr value end.
Definition success_or_else {T} (f : unit → T) self : S + T :=
  match self with Success s => inl s | _ => inr (f tt) end.

Definition map {T} (f : S → T) self : Outcome T E F :=
  match self with Success s => Success (f s) | Error e => Error e | Forward x => Forward x end.
Definition map_error {T} (f : E → T) self : Outcome S T F :=
  match self with Success s => Success s | Error e => Error (f e) | Forward x => Forward x end.
Definition map_forward {T} (f : F → T) self : Outcome S E T :=
  match self with Success s => Success s | Error e => Error e | Forward x => Forward (f x) end.

Definition and_then {T} (f : S → Outcome T E F) self : Outcome T E F :=
  match self with Success s => f s | Error e => Error e | Forward x => Forward x end.
Definition error_then {T} (f : E → Outcome S T F) self : Outcome S T F :=
  match self with Success s => Success s | Error e => f e | Forward x => Forward x end.
Definition forward_then {T} (f : F → Outcome S E T) self : Outcome S E T :=
  match self with Success s => Success s | Error e => Error e | Forward x => f x end.

Definition ok_map_forward (f : F → S + E) self : S + E :=
  match self with Success s => inl s | Error e => inr e | Forward x => f x end.
Definition ok_map_error (f : E → S + F) self : S + F :=
  match self with Success s => inl s | Error e => f e | Forward x => inr x end.
End outcome.

(** The [try_outcome!] macro, with the conversions of the error and the
    forward: an early return unless the outcome is a success. *)
Definition try_outcome {S T E E' F F'} (from_error : E → E') (from_forward : F → F')
    (self : Outcome S E F) (rest : S → Outcome T E' F') : Outcome T E' F' :=
  match self with
  | Success s => rest s
  | Error e => Error (from_error e)
  | Forward x => Forward (from_forward x)
  end.

(** ** [IntoOutcome] *)

(** For [Option]; for [Result] as the outcome of a request guard or of data,
    whose error carries a status; for [response::Result] as that of a route. *)
Definition option_or_error {S E F} (self : option S) (error : E) : Outcome S E F :=
  match self with Some s => Success s | None => Error error end.
Definition option_or_forward {S E F} (self : option S) (forward : F) : Outcome S E F :=
  match self with Some s => Success s | None => Forward forward end.

Definition result_or_error {S E St F} (self : S + E) (error : St) : Outcome S (St * E) F :=
  match self with inl s => Success s | inr e => Error (error, e) end.
Definition result_or_forward {S E St F} (self : S + E) (forward : F) : Outcome S (St * E) F :=
  match self with inl s => Success s | inr _ => Forward forward end.

Definition response_or_error {S St F} (self : S + St) : Outcome S St F :=
  match self with inl s => Success s | inr status => Error status end.
Definition response_or_forward {S St F} (self : S + St) (forward : F) : Outcome S St F :=
  match self with inl s => Success s | inr _ => Forward forward end.

(** Chaining is associative and mapping is chaining with a success. *)
Section laws.
Context {S E F : Type}.

Lemma and_then_success (o : Outcome S E F) : and_then Success o = o.
Proof. by destruct o. Qed.

Lemma and_then_assoc {T U} (f : S → Outcome T E F) (g : T → Outcome U E F) o :
  and_then g (and_then f o) = and_then (λ s, and_then g (f s)) o.
Proof. by destruct o. Qed.

Lemma map_and_then {T} (f : S → T) (o : Outcome S E F) : map f o = and_then (λ s, Success (f s)) o.
Proof. by destruct o. Qed.

Lemma try_outcome_and_then {T} (f : S → Outcome T E F) o :
  try_outcome (λ e, e) (λ x, x) o f = and_then f o.
Proof. by destruct o. Qed.
End laws.
End Outcome.
