(* ===== verification/RawStr.v ===== *)
(** * RawStr: decoding and escaping (core/http/src/raw_str.rs)

    The byte-level operations of [RawStr] that the URI, form and file code is
    built on: splitting at a byte, URL decoding and HTML escaping. *)

From S2P Require Import Prelude Crates.

Section RawStr.
Context `{Memchr} `{PercentEncoding}.

(** [RawStr::split_at_byte]. *)
Definition split_at_byte (s : str) (b : ascii) : str * str :=
  if negb (is_ascii b) then (s, [])
  else match memchr b s with
       | Some i => (take i s, drop (i + 1) s)
       | None => (s, [])
       end.

(** [RawStr::_replace_plus]: [allocated] is the owned copy, empty until the
    first [+] is found; [allocated.as_bytes_mut()[i] = b' ']. *)
Definition _replace_plus (string : str) : Cow :=
  let allocated :=
    foldl (λ allocated i,
             let allocated := if is_empty allocated then string else allocated in
             <[i := " "%char]> allocated)
          [] (memchr_iter "+"%char string) in
  if is_empty allocated then Borrowed string else Owned allocated.

(** [RawStr::percent_decode_lossy]. *)
Definition percent_decode_lossy (s : str) : Cow :=
  if is_empty s then Borrowed s else percent_decode_utf8_lossy s.

(** [RawStr::url_decode_lossy]. *)
Definition url_decode_lossy (s : str) : Cow :=
  let string := _replace_plus s in
  match percent_decode_utf8_lossy (cow_value string) with
  | Owned s => Owned s
  | Borrowed _ => string
  end.

(** The bytes [html_escape] replaces, with their replacements. *)
Definition escape_of (c : ascii) : option str :=
  match c with
  | "&"%char => Some (#"&amp;")
  | "<"%char => Some (#"&lt;")
  | ">"%char => Some (#"&gt;")
  | "034"%char => Some (#"&quot;")
  | "'"%char => Some (#"&#x27;")
  | "/"%char => Some (#"&#x2F;")
  | "`"%char => Some (#"&#96;")
  | _ => None
  end.

(** The loop of [RawStr::html_escape] at the byte at offset [i]; the state is
    the [escaped] flag and the [allocated] buffer, which receives the bytes
    before the first escape when that escape is found. *)
Fixpoint html_escape_loop (self : str) (i : nat) (cs : str) (escaped : bool) (allocated : str)
  : bool * str :=
  match cs with
  | [] => (escaped, allocated)
  | c :: cs' =>
    match escape_of c with
    | Some e =>
      let allocated := if negb escaped then take i self else allocated in
      html_escape_loop self (S i) cs' true (allocated ++ e)
    | None =>
      if escaped then html_escape_loop self (S i) cs' escaped (allocated ++ [c])
      else html_escape_loop self (S i) cs' escaped allocated
    end
  end.

(** [RawStr::html_escape]. *)
Definition html_escape (self : str) : Cow :=
  let '(escaped, allocated) := html_escape_loop self 0 self false [] in
  if escaped then Owned allocated else Borrowed self.

(** ** Specification *)

(** Escaping byte by byte. *)
Definition escape_byte (c : ascii) : str := default [c] (escape_of c).

Definition replace_byte (a b c : ascii) : ascii := if decide (c = a) then b else c.
End RawStr.

(** A decoder for the seven entities: what a browser makes of them. *)
Definition entities : list (str * ascii) :=
  [(#"&amp;", "&"%char); (#"&lt;", "<"%char); (#"&gt;", ">"%char);
   (#"&quot;", "034"%char); (#"&#x27;", "'"%char); (#"&#x2F;", "/"%char);
   (#"&#96;", "`"%char)].

Arguments entities : simpl never.

Fixpoint decode_entity (es : list (str * ascii)) (s : str) : option (ascii * str) :=
  match es with
  | [] => None
  | (e, c) :: es' =>
    match strip_prefix e s with
    | Some s' => Some (c, s')
    | None => decode_entity es' s
    end
  end.

Fixpoint html_unescape (fuel : nat) (s : str) : str :=
  match fuel, s with
  | S n, c :: s' =>
    match decode_entity entities s with
    | Some (c, s') => c :: html_unescape n s'
    | None => c :: html_unescape n s'
    end
  | _, _ => []
  end.

(** ** Lemmas *)

Section split.
Context `{MemchrLaws}.

Lemma split_at_byte_none s b : is_ascii b = true → b ∉ s → split_at_byte s b = (s, []).
Proof.
  intros Hb Hs. unfold split_at_byte. rewrite Hb. simpl.
  by rewrite memchr_spec, (proj2 (find_byte_None b s)).
Qed.

Lemma split_at_byte_app u v b :
  is_ascii b = true → b ∉ u → split_at_byte (u ++ b :: v) b = (u, v).
Proof.
  intros Hb Hu. unfold split_at_byte. rewrite Hb. simpl.
  rewrite memchr_spec, find_byte_app by done.
  rewrite take_app_length, Nat.add_1_r, drop_app_ge by lia.
  by replace (S (length u) - length u) with 1 by lia.
Qed.

(** The two cases of a split at an ASCII byte. *)
Lemma split_at_byte_cases s b :
  is_ascii b = true →
  ((b ∉ s) ∧ split_at_byte s b = (s, [])) ∨
  ∃ u v, (s = u ++ b :: v) ∧ (b ∉ u) ∧ split_at_byte s b = (u, v).
Proof.
  intros Hb. destruct (decide (b ∈ s)) as [Hin|]; [right|left; auto using split_at_byte_none].
  destruct (find_byte b s) as [i|] eqn:Hi; [|by apply find_byte_None in Hi].
  apply find_byte_Some in Hi as (Hs & Hu & _).
  exists (take i s), (drop (S i) s). split_and!; [done..|].
  rewrite Hs at 1. by apply split_at_byte_app.
Qed.

Lemma find_bytes_lt d s i : i ∈ find_bytes d s → i < length s.
Proof.
  revert i. induction s as [|c s IH]; intros i; simpl; [by intros ?%elem_of_nil|].
  rewrite elem_of_app, list_elem_of_fmap. intros [Hi|(j & -> & Hj%IH)]; [|lia].
  case_decide; [|by apply elem_of_nil in Hi]. apply list_elem_of_singleton in Hi. lia.
Qed.

Lemma foldl_insert_cons (c : ascii) x l s :
  foldl (λ a i, <[i := x]> a) (c :: s) (S <$> l) = c :: foldl (λ a i, <[i := x]> a) s l.
Proof. revert s. induction l as [|i l IH]; intros s; simpl; [done|]. apply IH. Qed.

Lemma foldl_insert_find_bytes a b s :
  foldl (λ t i, <[i := b]> t) s (find_bytes a s) = replace_byte a b <$> s.
Proof.
  induction s as [|c s IH]; [done|]. cbn [find_bytes].
  rewrite foldl_app, fmap_cons, <-IH. unfold replace_byte at 1.
  case_decide; simpl; apply foldl_insert_cons.
Qed.

(** URL decoding first turns every [+] into a space. *)
Lemma _replace_plus_spec s :
  cow_value (_replace_plus s) = replace_byte "+" " " <$> s.
Proof.
  unfold _replace_plus. rewrite memchr_iter_spec, <-foldl_insert_find_bytes.
  destruct s as [|c s]; [done|].
  assert (∀ l t, t ≠ [] →
    foldl (λ a i, <[i := " "%char]> (if is_empty a then c :: s else a)) t l
    = foldl (λ a i, <[i := " "%char]> a) t l) as Hne.
  { intros l. induction l as [|i l IH]; intros t Ht; simpl; [done|].
    rewrite (proj2 (is_empty_false t) Ht). apply IH. by destruct t, i. }
  destruct (find_bytes "+" (c :: s)) as [|i l] eqn:Hl; [done|]. simpl foldl.
  assert (<[i := " "%char]> (c :: s) ≠ []) as Hi by (by destruct i).
  rewrite Hne by done. simpl in *.
  destruct (is_empty _) eqn:He; [|done]. apply is_empty_true in He.
  exfalso. revert He Hi. generalize (<[i:=" "%char]> (c :: s)).
  clear. induction l as [|i l IH]; intros t; [done|]. simpl. intros ? ?.
  eapply IH; [done|]. by destruct t, i.
Qed.
End split.

(** ** HTML escaping *)

Lemma html_escape_loop_spec self i cs escaped allocated :
  drop i self = cs → (escaped = false → allocated = []) →
  html_escape_loop self i cs escaped allocated =
    let esc := escaped || existsb (λ c, negb (bool_decide (escape_of c = None))) cs in
    (esc, if esc then (if escaped then allocated else take i self) ++ (cs ≫= escape_byte) else []).
Proof.
  revert i escaped allocated. induction cs as [|c cs IH]; intros i escaped allocated Hcs Ha; simpl.
  - rewrite orb_false_r. destruct escaped; [by rewrite app_nil_r|by rewrite Ha].
  - assert (self !! i = Some c) as Hc.
    { apply (f_equal (.!! 0)) in Hcs. by rewrite lookup_drop, Nat.add_0_r in Hcs. }
    assert (drop (S i) self = cs) as Hcs'.
    { rewrite <-Nat.add_1_r, <-drop_drop. by rewrite Hcs. }
    unfold escape_byte at 1. destruct (escape_of c) as [e|] eqn:He; simpl.
    + rewrite IH by done. simpl. rewrite orb_true_r. f_equal.
      rewrite <-app_assoc. by destruct escaped.
    + destruct escaped; simpl.
      * rewrite IH by done. simpl. by rewrite <-app_assoc.
      * rewrite IH by auto. simpl. destruct (existsb _ cs); [|done].
        f_equal. rewrite (take_S_r _ _ _ Hc). by rewrite <-app_assoc.
Qed.

Lemma no_escape_bind cs :
  existsb (λ c, negb (bool_decide (escape_of c = None))) cs = false →
  cs ≫= escape_byte = cs.
Proof.
  induction cs as [|c cs IH]; [done|]. cbn [existsb].
  rewrite orb_false_iff, negb_false_iff, bool_decide_eq_true. intros [Hc Hcs].
  rewrite bind_cons, IH by done. unfold escape_byte. by rewrite Hc.
Qed.

Lemma html_escape_bind s : cow_value (html_escape s) = s ≫= escape_byte.
Proof.
  unfold html_escape. rewrite html_escape_loop_spec by done. simpl.
  destruct (existsb _ s) eqn:E; [done|]. simpl. by rewrite no_escape_bind.
Qed.

Lemma escape_byte_safe :
  ∀ c, forallb (λ d, bool_decide (d = "&"%char) || bool_decide (escape_of d = None))
    (escape_byte c) = true.
Proof. intros [[][][][][][][][]]; vm_compute; reflexivity. Qed.

Lemma escape_byte_decode c s n :
  html_unescape (S n) (escape_byte c ++ s) = c :: html_unescape n s.
Proof. destruct c as [[][][][][][][][]]; reflexivity. Qed.

Lemma html_unescape_fuel s n m :
  length s ≤ n → length s ≤ m → html_unescape n s = html_unescape m s.
Proof.
  revert m s. induction n as [|n IH]; intros [|m] [|c s] Hn Hm; cbn [length] in *; try done; try lia.
  cbn [html_unescape].
  assert (∀ es x t, Forall (λ e, fst e ≠ []) es →
    decode_entity es (c :: s) = Some (x, t) → length t ≤ length s) as Hes.
  { intros es x t. induction es as [|[e d] es IHes]; [done|].
    intros Hne. inversion_clear Hne. cbn [decode_entity].
    destruct (strip_prefix e (c :: s)) eqn:E; [|auto].
    intros [= <- <-]. apply strip_prefix_Some, (f_equal length) in E.
    rewrite length_app in E. destruct e; simpl in *; [done|lia]. }
  destruct (decode_entity entities (c :: s)) as [[x t]|] eqn:E.
  - apply Hes in E; [f_equal; apply IH; lia|].
    unfold entities. repeat constructor; discriminate.
  - f_equal. apply IH; lia.
Qed.

(** HTML escaping is safe and loses nothing: no byte of the result is
    special in markup, except the [&] that starts an entity, and replacing the
    entities by their characters gives the input back. *)
Theorem html_escape_roundtrip (s : str) :
  let out := cow_value (html_escape s) in
  (out = s ≫= escape_byte) ∧
  Forall (λ c, c = "&"%char ∨ escape_of c = None) out ∧
  html_unescape (length out) out = s.
Proof.
  cbn zeta. rewrite html_escape_bind. split_and!; [done| |].
  - apply Forall_bind, Forall_true. intros c. apply Forall_forall. intros d Hd.
    pose proof (escape_byte_safe c) as Hc. rewrite forallb_forall in Hc.
    apply list_elem_of_In, Hc in Hd. by rewrite orb_true_iff, !bool_decide_eq_true in Hd.
  - assert (∀ n, length s ≤ n → length (s ≫= escape_byte) ≤ n →
      html_unescape n (s ≫= escape_byte) = s) as Hn.
    { induction s as [|c s IH]; intros [|n] Hs Hn; try done; [simpl in Hs; lia|].
      rewrite bind_cons in *. rewrite length_app in Hn. cbn [length] in Hs.
      rewrite escape_byte_decode. f_equal. apply IH; [lia|].
      assert (escape_byte c ≠ []) as Hc by (by destruct c as [[][][][][][][][]]).
      destruct (escape_byte c); cbn [length] in Hn; [done|lia]. }
    rewrite (html_unescape_fuel _ _ (length s + length (s ≫= escape_byte))) by lia.
    apply Hn; lia.
Qed.
