(* ===== verification/Method.v ===== *)
(** * Method: HTTP methods (core/http/src/method.rs)

    The enumeration [define_methods!] generates, with the properties and names
    of its table, and the parser [TryFrom<&[u8]>]. *)

From S2P Require Import Prelude.

(** The variants of [enum Method]. *)
Inductive Method :=
  | Get | Head | Post | Put | Delete | Connect | Options | Trace | Patch | Acl
  | BaselineControl | Bind | CheckIn | CheckOut | Copy | Label | Link | Lock | Merge
  | MkActivity | MkCalendar | MkCol | MkRedirectRef | MkWorkspace | Move | OrderPatch
  | PropFind | PropPatch | Rebind | Report | Search | Unbind | Uncheckout | Unlink
  | Unlock | Update | UpdateRedirectRef | VersionControl.

#[export] Instance Method_eq_dec : EqDecision Method.
Proof. solve_decision. Defined.

(** [Method::ALL_VARIANTS]. *)
Definition ALL_VARIANTS : list Method :=
  [Get; Head; Post; Put; Delete; Connect; Options; Trace; Patch; Acl; BaselineControl;
   Bind; CheckIn; CheckOut; Copy; Label; Link; Lock; Merge; MkActivity; MkCalendar;
   MkCol; MkRedirectRef; MkWorkspace; Move; OrderPatch; PropFind; PropPatch; Rebind;
   Report; Search; Unbind; Uncheckout; Unlink; Unlock; Update; UpdateRedirectRef;
   VersionControl].

(** [Method::as_str]. *)
Definition as_str (m : Method) : str :=
  match m with
  | Get => #"GET"
  | Head => #"HEAD"
  | Post => #"POST"
  | Put => #"PUT"
  | Delete => #"DELETE"
  | Connect => #"CONNECT"
  | Options => #"OPTIONS"
  | Trace => #"TRACE"
  | Patch => #"PATCH"
  | Acl => #"ACL"
  | BaselineControl => #"BASELINE-CONTROL"
  | Bind => #"BIND"
  | CheckIn => #"CHECKIN"
  | CheckOut => #"CHECKOUT"
  | Copy => #"COPY"
  | Label => #"LABEL"
  | Link => #"LINK"
  | Lock => #"LOCK"
  | Merge => #"MERGE"
  | MkActivity => #"MKACTIVITY"
  | MkCalendar => #"MKCALENDAR"
  | MkCol => #"MKCOL"
  | MkRedirectRef => #"MKREDIRECTREF"
  | MkWorkspace => #"MKWORKSPACE"
  | Move => #"MOVE"
  | OrderPatch => #"ORDERPATCH"
  | PropFind => #"PROPFIND"
  | PropPatch => #"PROPPATCH"
  | Rebind => #"REBIND"
  | Report => #"REPORT"
  | Search => #"SEARCH"
  | Unbind => #"UNBIND"
  | Uncheckout => #"UNCHECKOUT"
  | Unlink => #"UNLINK"
  | Unlock => #"UNLOCK"
  | Update => #"UPDATE"
  | UpdateRedirectRef => #"UPDATEREDIRECTREF"
  | VersionControl => #"VERSION-CONTROL"
  end.

(** [Method::ALL]. *)
Definition ALL : list str := as_str <$> ALL_VARIANTS.

(** [Method::allows_request_body]: yes, no, or no defined semantics. *)
Definition allows_request_body (m : Method) : option bool :=
  match m with
  | Post | Put | Patch | Acl | BaselineControl | Bind | CheckIn | Label | Lock | Merge
  | MkActivity | MkCalendar | MkCol | MkRedirectRef | MkWorkspace | OrderPatch
  | PropFind | PropPatch | Rebind | Report | Search | Unbind | Update
  | UpdateRedirectRef | VersionControl => Some true
  | Trace => Some false
  | _ => None
  end.

(** [Method::is_safe]. *)
Definition is_safe (m : Method) : bool :=
  match m with
  | Get | Head | Options | Trace | PropFind | Report | Search => true
  | _ => false
  end.

(** [Method::is_idempotent]. *)
Definition is_idempotent (m : Method) : bool :=
  match m with
  | Post | Connect | Patch | Lock => false
  | _ => true
  end.

(** [Method::supports_payload]. *)
Definition supports_payload (m : Method) : bool :=
  match allows_request_body m with
  | Some v => v
  | None => false
  end.

(** [TryFrom<&[u8]> for Method]: the first variant whose name is the input,
    either all in upper case or all in lower case. *)
Definition try_from (value : str) : option Method :=
  List.find (λ m, bool_decide (value = as_str m)
                  || bool_decide (value = to_lower <$> as_str m)) ALL_VARIANTS.

(** ** Lemmas *)

Lemma elem_of_ALL_VARIANTS m : m ∈ ALL_VARIANTS.
Proof. destruct m; vm_compute; repeat constructor. Qed.

Lemma ALL_VARIANTS_NoDup : NoDup ALL_VARIANTS.
Proof. by apply (bool_decide_unpack _); vm_compute. Qed.

(** A boolean test of every method decides a statement about all of them. *)
Lemma forall_methods (P : Method → bool) :
  forallb P ALL_VARIANTS = true → ∀ m, P m = true.
Proof.
  intros HP m. rewrite forallb_forall in HP. apply HP, list_elem_of_In, elem_of_ALL_VARIANTS.
Qed.

(** [m] has the name [value] in one of the two accepted cases. *)
Definition named (value : str) (m : Method) : bool :=
  bool_decide (value = as_str m) || bool_decide (value = to_lower <$> as_str m).

Lemma named_true value m :
  named value m = true ↔ value = as_str m ∨ value = to_lower <$> as_str m.
Proof. unfold named. by rewrite orb_true_iff, !bool_decide_eq_true. Qed.

(** The upper-case and lower-case names of the methods are all distinct. *)
Lemma named_unique value m1 m2 :
  named value m1 = true → named value m2 = true → m1 = m2.
Proof.
  assert (∀ m1 m2,
    implb (named (as_str m1) m2 || named (to_lower <$> as_str m1) m2)
          (bool_decide (m1 = m2)) = true) as Htest.
  { intros x. apply forall_methods. revert x.
    apply (forall_methods (λ x, forallb _ ALL_VARIANTS)). vm_compute. reflexivity. }
  intros [-> | ->]%named_true H2; specialize (Htest m1 m2);
    rewrite H2, ?orb_true_r in Htest; by apply bool_decide_eq_true in Htest.
Qed.

(** Parsing inverts printing: every method is parsed from its name in upper
    case and in lower case, and nothing else is parsed as a method. *)
Theorem try_from_iff (value : str) (m : Method) :
  try_from value = Some m ↔ value = as_str m ∨ value = to_lower <$> as_str m.
Proof.
  rewrite <-named_true. unfold try_from. split.
  - by intros [_ Hm]%find_some.
  - intros Hm. destruct (List.find _ _) as [m'|] eqn:Hf.
    + apply find_some in Hf as [_ Hm']. f_equal. by eapply named_unique.
    + eapply find_none in Hf; [|apply list_elem_of_In, (elem_of_ALL_VARIANTS m)].
      unfold named in Hm. congruence.
Qed.

Definition method_index (m : Method) : nat :=
  default 0 (fst <$> list_find (m =.) ALL_VARIANTS).

#[export] Instance Method_countable : Countable Method.
Proof.
  refine (inj_countable' method_index (λ i, default Get (ALL_VARIANTS !! i)) _).
  assert (∀ m, bool_decide (default Get (ALL_VARIANTS !! method_index m) = m) = true) as H.
  { apply forall_methods. vm_compute. reflexivity. }
  intros m. specialize (H m). by apply bool_decide_eq_true in H.
Defined.
