(* ===== verification/Status.v ===== *)
(** * Status: HTTP status codes (core/http/src/status.rs)

    [Status], its table of standard codes, its class, and the range check of
    its deserializer. *)

From S2P Require Import Prelude.

(** [enum StatusClass]. *)
Inductive StatusClass :=
  | Informational | Success | Redirection | ClientError | ServerError | Unknown.

#[export] Instance StatusClass_eq_dec : EqDecision StatusClass.
Proof. solve_decision. Defined.

(** [struct Status]; [code] is a [u16]. *)
Record Status := Status_new { code : Z }.

#[export] Instance Status_eq_dec : EqDecision Status.
Proof. solve_decision. Defined.

(** The constants [ctrs!] declares. *)
Module Status.
Definition Continue := Status_new 100.
Definition SwitchingProtocols := Status_new 101.
Definition Processing := Status_new 102.
Definition Ok := Status_new 200.
Definition Created := Status_new 201.
Definition Accepted := Status_new 202.
Definition NonAuthoritativeInformation := Status_new 203.
Definition NoContent := Status_new 204.
Definition ResetContent := Status_new 205.
Definition PartialContent := Status_new 206.
Definition MultiStatus := Status_new 207.
Definition AlreadyReported := Status_new 208.
Definition ImUsed := Status_new 226.
Definition MultipleChoices := Status_new 300.
Definition MovedPermanently := Status_new 301.
Definition Found := Status_new 302.
Definition SeeOther := Status_new 303.
Definition NotModified := Status_new 304.
Definition UseProxy := Status_new 305.
Definition TemporaryRedirect := Status_new 307.
Definition PermanentRedirect := Status_new 308.
Definition BadRequest := Status_new 400.
Definition Unauthorized := Status_new 401.
Definition PaymentRequired := Status_new 402.
Definition Forbidden := Status_new 403.
Definition NotFound := Status_new 404.
Definition MethodNotAllowed := Status_new 405.
Definition NotAcceptable := Status_new 406.
Definition ProxyAuthenticationRequired := Status_new 407.
Definition RequestTimeout := Status_new 408.
Definition Conflict := Status_new 409.
Definition Gone := Status_new 410.
Definition LengthRequired := Status_new 411.
Definition PreconditionFailed := Status_new 412.
Definition PayloadTooLarge := Status_new 413.
Definition UriTooLong := Status_new 414.
Definition UnsupportedMediaType := Status_new 415.
Definition RangeNotSatisfiable := Status_new 416.
Definition ExpectationFailed := Status_new 417.
Definition ImATeapot := Status_new 418.
Definition MisdirectedRequest := Status_new 421.
Definition UnprocessableEntity := Status_new 422.
Definition Locked := Status_new 423.
Definition FailedDependency := Status_new 424.
Definition UpgradeRequired := Status_new 426.
Definition PreconditionRequired := Status_new 428.
Definition TooManyRequests := Status_new 429.
Definition RequestHeaderFieldsTooLarge := Status_new 431.
Definition UnavailableForLegalReasons := Status_new 451.
Definition InternalServerError := Status_new 500.
Definition NotImplemented := Status_new 501.
Definition BadGateway := Status_new 502.
Definition ServiceUnavailable := Status_new 503.
Definition GatewayTimeout := Status_new 504.
Definition HttpVersionNotSupported := Status_new 505.
Definition VariantAlsoNegotiates := Status_new 506.
Definition InsufficientStorage := Status_new 507.
Definition LoopDetected := Status_new 508.
Definition NotExtended := Status_new 510.
Definition NetworkAuthenticationRequired := Status_new 511.
End Status.

(** The table of [ctrs!]: code, constant and reason phrase. *)
Definition ctrs : list (Z * (Status * str)) := [
  (100, (Status.Continue, #"Continue"));
  (101, (Status.SwitchingProtocols, #"Switching Protocols"));
  (102, (Status.Processing, #"Processing"));
  (200, (Status.Ok, #"OK"));
  (201, (Status.Created, #"Created"));
  (202, (Status.Accepted, #"Accepted"));
  (203, (Status.NonAuthoritativeInformation, #"Non-Authoritative Information"));
  (204, (Status.NoContent, #"No Content"));
  (205, (Status.ResetContent, #"Reset Content"));
  (206, (Status.PartialContent, #"Partial Content"));
  (207, (Status.MultiStatus, #"Multi-Status"));
  (208, (Status.AlreadyReported, #"Already Reported"));
  (226, (Status.ImUsed, #"IM Used"));
  (300, (Status.MultipleChoices, #"Multiple Choices"));
  (301, (Status.MovedPermanently, #"Moved Permanently"));
  (302, (Status.Found, #"Found"));
  (303, (Status.SeeOther, #"See Other"));
  (304, (Status.NotModified, #"Not Modified"));
  (305, (Status.UseProxy, #"Use Proxy"));
  (307, (Status.TemporaryRedirect, #"Temporary Redirect"));
  (308, (Status.PermanentRedirect, #"Permanent Redirect"));
  (400, (Status.BadRequest, #"Bad Request"));
  (401, (Status.Unauthorized, #"Unauthorized"));
  (402, (Status.PaymentRequired, #"Payment Required"));
  (403, (Status.Forbidden, #"Forbidden"));
  (404, (Status.NotFound, #"Not Found"));
  (405, (Status.MethodNotAllowed, #"Method Not Allowed"));
  (406, (Status.NotAcceptable, #"Not Acceptable"));
  (407, (Status.ProxyAuthenticationRequired, #"Proxy Authentication Required"));
  (408, (Status.RequestTimeout, #"Request Timeout"));
  (409, (Status.Conflict, #"Conflict"));
  (410, (Status.Gone, #"Gone"));
  (411, (Status.LengthRequired, #"Length Required"));
  (412, (Status.PreconditionFailed, #"Precondition Failed"));
  (413, (Status.PayloadTooLarge, #"Payload Too Large"));
  (414, (Status.UriTooLong, #"URI Too Long"));
  (415, (Status.UnsupportedMediaType, #"Unsupported Media Type"));
  (416, (Status.RangeNotSatisfiable, #"Range Not Satisfiable"));
  (417, (Status.ExpectationFailed, #"Expectation Failed"));
  (418, (Status.ImATeapot, #"I'm a teapot"));
  (421, (Status.MisdirectedRequest, #"Misdirected Request"));
  (422, (Status.UnprocessableEntity, #"Unprocessable Entity"));
  (423, (Status.Locked, #"Locked"));
  (424, (Status.FailedDependency, #"Failed Dependency"));
  (426, (Status.UpgradeRequired, #"Upgrade Required"));
  (428, (Status.PreconditionRequired, #"Precondition Required"));
  (429, (Status.TooManyRequests, #"Too Many Requests"));
  (431, (Status.RequestHeaderFieldsTooLarge, #"Request Header Fields Too Large"));
  (451, (Status.UnavailableForLegalReasons, #"Unavailable For Legal Reasons"));
  (500, (Status.InternalServerError, #"Internal Server Error"));
  (501, (Status.NotImplemented, #"Not Implemented"));
  (502, (Status.BadGateway, #"Bad Gateway"));
  (503, (Status.ServiceUnavailable, #"Service Unavailable"));
  (504, (Status.GatewayTimeout, #"Gateway Timeout"));
  (505, (Status.HttpVersionNotSupported, #"HTTP Version Not Supported"));
  (506, (Status.VariantAlsoNegotiates, #"Variant Also Negotiates"));
  (507, (Status.InsufficientStorage, #"Insufficient Storage"));
  (508, (Status.LoopDetected, #"Loop Detected"));
  (510, (Status.NotExtended, #"Not Extended"));
  (511, (Status.NetworkAuthenticationRequired, #"Network Authentication Required"))]%Z.

(** A [match] on the literal codes of the table: the first arm that fits. *)
Definition lookup_code (c : Z) : option (Status * str) :=
  snd <$> List.find (λ row, fst row =? c)%Z ctrs.

(** [Status::class]. *)
Definition class (s : Status) : StatusClass :=
  match (code s / 100)%Z with
  | 1 => Informational
  | 2 => Success
  | 3 => Redirection
  | 4 => ClientError
  | 5 => ServerError
  | _ => Unknown
  end%Z.

(** [Status::from_code]. *)
Definition from_code (c : Z) : option Status := fst <$> lookup_code c.

(** [Status::reason]. *)
Definition reason (s : Status) : option str := snd <$> lookup_code (code s).

(** [Status::reason_lossy]. *)
Definition reason_lossy (s : Status) : str :=
  match reason s with
  | Some lossless => lossless
  | None =>
    match class s with
    | Informational => #"Informational"
    | Success => #"Success"
    | Redirection => #"Redirection"
    | ClientError => #"Client Error"
    | ServerError => #"Server Error"
    | Unknown => #"Unknown"
    end
  end.

(** [impl Default for Status]. *)
Definition default_status : Status := Status.Ok.

(** [derive(Ord)]: the codes compared; [std::cmp::max] keeps the second of
    equal values. *)
Definition status_max (a b : Status) : Status :=
  if (code b <? code a)%Z then a else b.

(** The visitor's [visit_i64]; [v] is an [i64], and [v as u16] wraps. *)
Definition visit_i64 (v : Z) : option Status :=
  if ((v <? 100) || (v >=? 600))%Z then None else Some (Status_new (v mod 65536)).

(** The visitor's [visit_u64]; [v] is a [u64]. *)
Definition visit_u64 (v : Z) : option Status :=
  if ((v <? 100) || (v >=? 600))%Z then None else Some (Status_new (v mod 65536)).

(** [Serialize]: the code as a [u16]. *)
Definition serialize (s : Status) : Z := code s.

(** ** Lemmas *)

(** Every row of the table is keyed by the code of its own constant, which is
    in the range of its class. *)
Lemma ctrs_rows :
  forallb (λ row, (code (row.2.1) =? row.1) && (100 <=? row.1) && (row.1 <? 600))%Z ctrs = true.
Proof. vm_compute. reflexivity. Qed.

Lemma lookup_code_row c row : lookup_code c = Some row → code row.1 = c ∧ (100 ≤ c < 600)%Z.
Proof.
  unfold lookup_code. destruct (List.find _ _) as [[c' row']|] eqn:Hf; [|done].
  intros [= <-]. apply find_some in Hf as [Hin Heq].
  pose proof ctrs_rows as Hrows. rewrite forallb_forall in Hrows.
  specialize (Hrows _ Hin). simpl in *. lia.
Qed.

(** [from_code], [reason], the class and the deserializer agree: a code with a
    constant is that constant's code, has a reason phrase, has a known class,
    and survives a round trip through serde. *)
Theorem from_code_spec (c : Z) (s : Status) :
  from_code c = Some s →
  code s = c ∧ is_Some (reason s) ∧ class s ≠ Unknown ∧
  visit_i64 (serialize s) = Some s ∧ visit_u64 (serialize s) = Some s.
Proof.
  unfold from_code. destruct (lookup_code c) as [[s' r]|] eqn:Hl; [|done].
  intros [= <-]. simpl. pose proof Hl as Hl'. apply lookup_code_row in Hl' as [Hc Hr].
  simpl in Hc. unfold reason, class, visit_i64, visit_u64, serialize. rewrite Hc, Hl.
  rewrite (proj2 (orb_false_iff _ _)) by lia. rewrite Z.mod_small by lia.
  split_and!; try done; try (destruct s'; simpl in *; congruence).
  assert (c / 100 = 1 ∨ c / 100 = 2 ∨ c / 100 = 3 ∨ c / 100 = 4 ∨ c / 100 = 5)%Z as Hcl.
  { pose proof (Z.div_mod c 100). pose proof (Z.mod_pos_bound c 100). lia. }
  by destruct Hcl as [-> | [-> | [-> | [-> | ->]]]].
Qed.
