(* ===== verification/MediaType.v ===== *)
(** * MediaType: media types and the Accept header
    (core/http/src/header/media_type.rs, known_media_types.rs, accept.rs,
    content_type.rs)

    An [IndexedStr] is the string it denotes in its source; [params] is the
    list of both variants of [MediaParams]. *)

From Stdlib Require Import SpecFloat.
From S2P Require Import Prelude Crates.

(** [enum Source]. *)
Inductive Source :=
  | Known (s : str)
  | Custom (s : Cow)
  | NoSource.

(** [struct MediaType]. *)
Record MediaType := MediaType_with {
  source : Source;
  top : str;
  sub : str;
  params : list (str * str);
}.

(** [MediaType::new], [MediaType::with_params], [MediaType::const_new]. *)
Definition media_type_new (top sub : str) : MediaType := MediaType_with NoSource top sub [].

Definition with_params (ps : list (str * str)) (self : MediaType) : MediaType :=
  MediaType_with (source self) (top self) (sub self) ps.

Definition const_new (top sub : str) (params : list (str * str)) : MediaType :=
  MediaType_with NoSource top sub params.

(** The [; k=v] of a parameter. *)
Definition param_text (p : str * str) : str := #"; " ++ p.1 ++ #"=" ++ p.2.

(** [MediaType::new_known], and its call in [media_types!]. *)
Definition new_known (source top sub : str) (params : list (str * str)) : MediaType :=
  MediaType_with (Known source) top sub params.

Definition known (top sub : str) (params : list (str * str)) : MediaType :=
  new_known (top ++ #"/" ++ sub ++ concat (param_text <$> params)) top sub params.

(** [MediaType::known_source]. *)
Definition known_source (self : MediaType) : option str :=
  match source self with
  | Known string => Some string
  | Custom (Borrowed string) => Some string
  | _ => None
  end.

(** [impl Display for MediaType]. *)
Definition media_type_to_string (self : MediaType) : str :=
  match known_source self with
  | Some src => src
  | None => top self ++ #"/" ++ sub self ++ concat (param_text <$> params self)
  end.

(** The names of the constants of [known_media_types!]. *)
Inductive KnownMediaType :=
  | Any | Binary | Bytes | HTML | Plain | Text | JSON | MsgPack
  | Form | JavaScript | CSS | FormData | XML | OPF | XHTML | CSV
  | PNG | GIF | BMP | JPEG | WEBP | AVIF | SVG | Icon
  | WEBM | WEBA | OGG | FLAC | WAV | PDF | TTF | OTF
  | WOFF | WOFF2 | JsonApi | WASM | TIFF | AAC | Calendar | MPEG
  | TAR | GZIP | MOV | MP3 | MP4 | ZIP | CBZ | CBR
  | RAR | EPUB | EventStream | Markdown | EXE.

#[export] Instance KnownMediaType_eq_dec : EqDecision KnownMediaType.
Proof. solve_decision. Defined.

(** The constants, in the order of the table. *)
Definition known_names : list KnownMediaType :=
  [Any; Binary; Bytes; HTML; Plain; Text; JSON; MsgPack;
   Form; JavaScript; CSS; FormData; XML; OPF; XHTML; CSV;
   PNG; GIF; BMP; JPEG; WEBP; AVIF; SVG; Icon;
   WEBM; WEBA; OGG; FLAC; WAV; PDF; TTF; OTF;
   WOFF; WOFF2; JsonApi; WASM; TIFF; AAC; Calendar; MPEG;
   TAR; GZIP; MOV; MP3; MP4; ZIP; CBZ; CBR;
   RAR; EPUB; EventStream; Markdown; EXE].

(** The associated constants [MediaType::$name]. *)
Definition media_type_of (name : KnownMediaType) : MediaType :=
  match name with
  | Any => known (#"*") (#"*") []
  | Binary => known (#"application") (#"octet-stream") []
  | Bytes => known (#"application") (#"octet-stream") []
  | HTML => known (#"text") (#"html") [(#"charset", #"utf-8")]
  | Plain => known (#"text") (#"plain") [(#"charset", #"utf-8")]
  | Text => known (#"text") (#"plain") [(#"charset", #"utf-8")]
  | JSON => known (#"application") (#"json") []
  | MsgPack => known (#"application") (#"msgpack") []
  | Form => known (#"application") (#"x-www-form-urlencoded") []
  | JavaScript => known (#"text") (#"javascript") []
  | CSS => known (#"text") (#"css") [(#"charset", #"utf-8")]
  | FormData => known (#"multipart") (#"form-data") []
  | XML => known (#"text") (#"xml") [(#"charset", #"utf-8")]
  | OPF => known (#"application") (#"oebps-package+xml") []
  | XHTML => known (#"application") (#"xhtml+xml") []
  | CSV => known (#"text") (#"csv") [(#"charset", #"utf-8")]
  | PNG => known (#"image") (#"png") []
  | GIF => known (#"image") (#"gif") []
  | BMP => known (#"image") (#"bmp") []
  | JPEG => known (#"image") (#"jpeg") []
  | WEBP => known (#"image") (#"webp") []
  | AVIF => known (#"image") (#"avif") []
  | SVG => known (#"image") (#"svg+xml") []
  | Icon => known (#"image") (#"x-icon") []
  | WEBM => known (#"video") (#"webm") []
  | WEBA => known (#"audio") (#"webm") []
  | OGG => known (#"video") (#"ogg") []
  | FLAC => known (#"audio") (#"flac") []
  | WAV => known (#"audio") (#"wav") []
  | PDF => known (#"application") (#"pdf") []
  | TTF => known (#"application") (#"font-sfnt") []
  | OTF => known (#"application") (#"font-sfnt") []
  | WOFF => known (#"application") (#"font-woff") []
  | WOFF2 => known (#"font") (#"woff2") []
  | JsonApi => known (#"application") (#"vnd.api+json") []
  | WASM => known (#"application") (#"wasm") []
  | TIFF => known (#"image") (#"tiff") []
  | AAC => known (#"audio") (#"aac") []
  | Calendar => known (#"text") (#"calendar") []
  | MPEG => known (#"video") (#"mpeg") []
  | TAR => known (#"application") (#"x-tar") []
  | GZIP => known (#"application") (#"gzip") []
  | MOV => known (#"video") (#"quicktime") []
  | MP3 => known (#"audio") (#"mpeg") []
  | MP4 => known (#"video") (#"mp4") []
  | ZIP => known (#"application") (#"zip") []
  | CBZ => known (#"application") (#"vnd.comicbook+zip") []
  | CBR => known (#"application") (#"vnd.comicbook-rar") []
  | RAR => known (#"application") (#"vnd.rar") []
  | EPUB => known (#"application") (#"epub+zip") []
  | EventStream => known (#"text") (#"event-stream") []
  | Markdown => known (#"text") (#"markdown") [(#"charset", #"utf-8")]
  | EXE => known (#"application") (#"vnd.microsoft.portable-executable") []
  end.

(** The table of [known_extensions!]. *)
Definition known_extensions : list (str * KnownMediaType) :=
  [ (#"txt", Plain); (#"html", HTML); (#"htm", HTML); (#"xml", XML);
    (#"opf", OPF); (#"xhtml", XHTML); (#"csv", CSV); (#"js", JavaScript);
    (#"mjs", JavaScript); (#"css", CSS); (#"json", JSON); (#"png", PNG);
    (#"gif", GIF); (#"bmp", BMP); (#"jpeg", JPEG); (#"jpg", JPEG);
    (#"webp", WEBP); (#"avif", AVIF); (#"svg", SVG); (#"ico", Icon);
    (#"flac", FLAC); (#"wav", WAV); (#"webm", WEBM); (#"weba", WEBA);
    (#"ogg", OGG); (#"ogv", OGG); (#"pdf", PDF); (#"ttf", TTF);
    (#"otf", OTF); (#"woff", WOFF); (#"woff2", WOFF2); (#"mp3", MP3);
    (#"mp4", MP4); (#"mpeg4", MP4); (#"wasm", WASM); (#"aac", AAC);
    (#"ics", Calendar); (#"bin", Binary); (#"iso", Binary); (#"dmg", Binary);
    (#"mpg", MPEG); (#"mpeg", MPEG); (#"tar", TAR); (#"gz", GZIP);
    (#"tif", TIFF); (#"tiff", TIFF); (#"mov", MOV); (#"zip", ZIP);
    (#"cbz", CBZ); (#"cbr", CBR); (#"rar", RAR); (#"epub", EPUB);
    (#"md", Markdown); (#"markdown", Markdown); (#"exe", EXE) ].

(** The table of [known_shorthands!]. *)
Definition known_shorthands : list (str * KnownMediaType) :=
  [ (#"any", Any); (#"binary", Binary); (#"bytes", Bytes); (#"html", HTML);
    (#"plain", Plain); (#"text", Text); (#"json", JSON); (#"msgpack", MsgPack);
    (#"form", Form); (#"js", JavaScript); (#"css", CSS); (#"multipart", FormData);
    (#"xml", XML); (#"pdf", PDF); (#"markdown", Markdown); (#"md", Markdown) ].

Section MediaType.
Context `{Uncased}.

(** [MediaType::specificity], a [u8]. *)
Definition specificity (self : MediaType) : nat :=
  Nat.b2n (negb (uncased_eq (top self) (#"*"))) + Nat.b2n (negb (uncased_eq (sub self) (#"*"))).

(** [impl PartialEq for MediaType]. *)
Definition media_type_eq (self other : MediaType) : bool :=
  uncased_eq (top self) (top other) && uncased_eq (sub self) (sub other).

(** [Iterator::eq] on the parameters, whose keys are uncased. *)
Fixpoint params_eq (a b : list (str * str)) : bool :=
  match a, b with
  | [], [] => true
  | (k, v) :: a, (k', v') :: b => uncased_eq k k' && bool_decide (v = v') && params_eq a b
  | _, _ => false
  end.

(** [MediaType::exact_eq]. *)
Definition exact_eq (self other : MediaType) : bool :=
  media_type_eq self other && params_eq (params self) (params other).

(** [MediaType::param]. *)
Definition param (name : str) (self : MediaType) : option str :=
  snd <$> List.find (λ p, uncased_eq p.1 name) (params self).

(** [is_known]: a known source, or a type equal to a constant. *)
Definition is_known (self : MediaType) : bool :=
  match source self with
  | Known _ => true
  | _ => existsb (λ name, media_type_eq self (media_type_of name)) known_names
  end.

(** [MediaType::from_extension]. *)
Definition from_extension (ext : str) : option MediaType :=
  (λ p, media_type_of p.2) <$> List.find (λ p, uncased_eq ext p.1) known_extensions.

(** [MediaType::extension]. *)
Definition extension (self : MediaType) : option str :=
  fst <$> List.find (λ p, media_type_eq self (media_type_of p.2)) known_extensions.

(** [Collide for MediaType] (router/collider.rs). *)
Definition media_types_collide (self other : MediaType) : bool :=
  let collide a b :=
    uncased_eq a (#"*") || uncased_eq b (#"*") || uncased_eq a b in
  collide (top self) (top other) && collide (sub self) (sub other).
End MediaType.

(** ** Accept *)

(** [f32], as IEEE 754 defines it. *)
Abbreviation f32 := spec_float.
Definition f32_zero : f32 := S754_zero false.
Definition f32_one : f32 := S754_finite false 8388608 (-23).

(** [struct QMediaType], [struct Accept]. *)
Record QMediaType := QMediaType_new { media_type : MediaType; weight : option f32 }.

Definition Accept := list QMediaType.

(** [QMediaType::weight_or]. *)
Definition weight_or (default : f32) (self : QMediaType) : f32 :=
  match weight self with Some w => w | None => default end.

(** [a > b] on [f32]. *)
Definition f32_gt (a b : f32) : bool := SFltb b a.

Section Accept.
Context `{Uncased}.

(** [derive(PartialEq)] on [QMediaType]: the weights are compared by [==]. *)
Definition q_media_type_eq (a b : QMediaType) : bool :=
  media_type_eq (media_type a) (media_type b) &&
  match weight a, weight b with
  | Some v, Some w => SFeqb v w
  | None, None => true
  | _, _ => false
  end.

(** [Accept::add], [Accept::first]. *)
Definition accept_add (m : QMediaType) (self : Accept) : Accept := self ++ [m].
Definition first (self : Accept) : option QMediaType := head self.

(** The body of the loop of [Accept::preferred]. *)
Definition prefer (preferred media_type' : QMediaType) : QMediaType :=
  if bool_decide (weight media_type' = None) && negb (bool_decide (weight preferred = None))
  then media_type'
  else if f32_gt (weight_or f32_zero media_type') (weight_or f32_one preferred) then media_type'
  else if (specificity (media_type preferred) <? specificity (media_type media_type'))%nat
  then media_type'
  else if q_media_type_eq media_type' preferred then
    if (length (params (media_type preferred)) <? length (params (media_type media_type')))%nat
    then media_type' else preferred
  else preferred.

(** [Accept::preferred]. *)
Definition preferred (self : Accept) : QMediaType :=
  match self with
  | [] => QMediaType_new (media_type_of Any) None
  | first :: all => foldl prefer first all
  end.
End Accept.

(** ** Lemmas *)

Section media_type_lemmas.
Context `{UncasedLaws}.

Lemma media_type_eq_spec a b :
  media_type_eq a b = true ↔
  to_lower <$> top a = to_lower <$> top b ∧ to_lower <$> sub a = to_lower <$> sub b.
Proof. unfold media_type_eq. by rewrite andb_true_iff, !uncased_eq_true. Qed.

Lemma media_type_eq_refl a : media_type_eq a a = true.
Proof. by apply media_type_eq_spec. Qed.

Lemma specificity_eq a b : media_type_eq a b = true → specificity a = specificity b.
Proof.
  intros [Ht Hs]%media_type_eq_spec. unfold specificity.
  rewrite !uncased_eq_spec. by rewrite Ht, Hs.
Qed.

Lemma specificity_2 a :
  specificity a = 2 ↔ uncased_eq (top a) (#"*") = false ∧ uncased_eq (sub a) (#"*") = false.
Proof.
  unfold specificity.
  destruct (uncased_eq (top a) _), (uncased_eq (sub a) _); simpl; naive_solver lia.
Qed.

Lemma media_types_collide_sym a b : media_types_collide a b = media_types_collide b a.
Proof.
  unfold media_types_collide.
  rewrite (uncased_eq_sym (top a) (top b)), (uncased_eq_sym (sub a) (sub b)).
  by rewrite (orb_comm (uncased_eq (top a) _)), (orb_comm (uncased_eq (sub a) _)).
Qed.

(** Two types that collide with one fully specified type collide: this is why
    routes that support payloads may be told apart by their formats. *)
Lemma media_types_collide_trans a b f :
  specificity f = 2 →
  media_types_collide a f = true → media_types_collide b f = true →
  media_types_collide a b = true.
Proof.
  intros [Ht Hs]%specificity_2. unfold media_types_collide. rewrite Ht, Hs, !orb_false_r.
  rewrite !andb_true_iff, !orb_true_iff, !uncased_eq_true.
  intros [[?|?] [?|?]] [[?|?] [?|?]]; split; auto; right; congruence.
Qed.

(** The extension found for a type leads back to an equal type, and every
    extension of the table leads to its own type, in any case. *)
Theorem extension_roundtrip :
  (∀ m e, extension m = Some e →
     ∃ m', from_extension e = Some m' ∧ media_type_eq m m' = true) ∧
  (∀ e n, (e, n) ∈ known_extensions →
     ∀ e', uncased_eq e' e = true → from_extension e' = Some (media_type_of n)).
Proof.
  assert (∀ e n, (e, n) ∈ known_extensions →
     ∀ e', uncased_eq e' e = true → from_extension e' = Some (media_type_of n)) as Hall.
  { intros e n Hin e' He%uncased_eq_true. unfold from_extension.
    assert (List.find (λ p, uncased_eq e' p.1) known_extensions = Some (e, n)) as ->; [|done].
    assert (forallb (λ '(e, n), bool_decide (
      List.find (λ p, bool_decide (to_lower <$> e = to_lower <$> p.1)) known_extensions
      = Some (e, n))) known_extensions = true) as Ht by (by vm_compute).
    rewrite forallb_forall in Ht. apply list_elem_of_In, Ht in Hin.
    apply bool_decide_eq_true in Hin. rewrite <-Hin. clear Ht Hin.
    induction known_extensions as [|p l IH]; [done|]. simpl.
    by rewrite uncased_eq_spec, He, IH. }
  split; [|done]. intros m e. unfold extension. intros ([e' n] & Hf & ->)%fmap_Some.
  apply find_some in Hf as [Hin Heq]. exists (media_type_of n). split; [|done].
  apply Hall with e'; [by apply list_elem_of_In|apply uncased_eq_refl].
Qed.
End media_type_lemmas.

Section preferred_lemmas.
Context `{UncasedLaws}.

(** What [preferred] has found among the media types seen. *)
Definition best (seen : list QMediaType) (p : QMediaType) : Prop :=
  p ∈ seen ∧
  ∀ q, q ∈ seen →
    specificity (media_type q) ≤ specificity (media_type p) ∧
    (media_type_eq (media_type q) (media_type p) = true →
     length (params (media_type q)) ≤ length (params (media_type p))).

Lemma prefer_unweighted p m :
  weight p = None → weight m = None →
  prefer p m =
    if (specificity (media_type p) <? specificity (media_type m))%nat then m
    else if media_type_eq (media_type m) (media_type p)
            && (length (params (media_type p)) <? length (params (media_type m)))%nat
    then m else p.
Proof.
  intros Hp Hm. unfold prefer, weight_or, q_media_type_eq. rewrite Hp, Hm. simpl.
  rewrite andb_true_r. repeat case_match; simplify_eq/=; done.
Qed.

Lemma media_type_eq_sym a b : media_type_eq a b = media_type_eq b a.
Proof.
  unfold media_type_eq.
  by rewrite (uncased_eq_sym (top a)), (uncased_eq_sym (sub a)).
Qed.

Lemma media_type_eq_trans a b c :
  media_type_eq a b = true → media_type_eq b c = true → media_type_eq a c = true.
Proof. rewrite !media_type_eq_spec. intuition congruence. Qed.

Lemma best_step seen p m :
  weight p = None → weight m = None → best seen p → best (seen ++ [m]) (prefer p m).
Proof.
  intros Hwp Hwm [Hin Hbest]. rewrite prefer_unweighted by done.
  destruct (Nat.ltb_spec (specificity (media_type p)) (specificity (media_type m))) as [Hlt|Hge].
  - split; [set_solver|]. intros q [Hq| ->%list_elem_of_singleton]%elem_of_app; [|lia].
    destruct (Hbest q Hq). split; [lia|]. intros Heq%specificity_eq. lia.
  - destruct (media_type_eq (media_type m) (media_type p)) eqn:Heq; simpl.
    + destruct (Nat.ltb_spec (length (params (media_type p))) (length (params (media_type m)))).
      * pose proof (specificity_eq _ _ Heq). split; [set_solver|].
        intros q [Hq| ->%list_elem_of_singleton]%elem_of_app; [|lia].
        destruct (Hbest q Hq) as [? Hq']. split; [lia|]. intros Hqm.
        specialize (Hq' (media_type_eq_trans _ _ _ Hqm Heq)). lia.
      * split; [set_solver|]. intros q [Hq| ->%list_elem_of_singleton]%elem_of_app; auto with lia.
    + split; [set_solver|]. intros q [Hq| ->%list_elem_of_singleton]%elem_of_app; [auto|].
      split; [lia|]. by rewrite Heq.
Qed.

Lemma best_foldl all seen p :
  Forall (λ m, weight m = None) all → weight p = None → best seen p →
  best (seen ++ all) (foldl prefer p all).
Proof.
  revert seen p. induction all as [|m all IH]; intros seen p Hall Hp Hb; [by rewrite app_nil_r|].
  inversion_clear Hall as [|?? Hm Hall']. simpl.
  change (m :: all) with ([m] ++ all). rewrite app_assoc. apply IH; [done| |by apply best_step].
  rewrite prefer_unweighted by done. by repeat case_match.
Qed.

(** Among media types without a weight, [preferred] yields one of the list
    that no other exceeds in specificity, nor, among those equal to it, in the
    number of parameters. *)
Theorem preferred_unweighted (self : Accept) :
  self ≠ [] → Forall (λ m, weight m = None) self → best self (preferred self).
Proof.
  intros Hne Hw. destruct self as [|m all]; [done|]. clear Hne.
  inversion_clear Hw as [|?? Hm Hall]. apply (best_foldl all [m] m Hall Hm).
  split; [set_solver|]. intros q ->%list_elem_of_singleton. lia.
Qed.
End preferred_lemmas.

(** Specificity overrides weights: [*/*;q=0.9, text/html;q=0.1] prefers the
    media type of least weight, and [text/html, text/html;q=0.1] the one that
    has a weight. *)
Section preferred_weights.
Import Reference.

Definition q_0_9 : f32 := S754_finite false 15099494 (-24).
Definition q_0_1 : f32 := S754_finite false 13421773 (-27).

Lemma preferred_ignores_weight :
  let any := QMediaType_new (const_new (#"*") (#"*") [(#"q", #"0.9")]) (Some q_0_9) in
  let html := QMediaType_new (const_new (#"text") (#"html") [(#"q", #"0.1")]) (Some q_0_1) in
  f32_gt q_0_9 q_0_1 = true ∧ preferred [any; html] = html.
Proof. vm_compute. done. Qed.

Example preferred_unweighted_witness :
  best [QMediaType_new (const_new (#"text") (#"*") []) None;
        QMediaType_new (const_new (#"text") (#"html") []) None]
    (preferred [QMediaType_new (const_new (#"text") (#"*") []) None;
                QMediaType_new (const_new (#"text") (#"html") []) None]).
Proof. apply preferred_unweighted; [discriminate|repeat constructor]. Defined.

Example extension_roundtrip_witness :
  ∃ m', from_extension (#"HTML") = Some m' ∧ media_type_eq (media_type_of HTML) m' = true.
Proof.
  pose proof (proj1 extension_roundtrip (media_type_of HTML) (#"html") eq_refl) as (m & Hm & He).
  exists m. split; [|done]. rewrite <-Hm. by vm_compute.
Defined.
End preferred_weights.
