(* ===== verification/UriTables.v ===== *)
(** * UriTables: character tables and the origin-form parser
    (core/http/src/parse/uri/tables.rs, parser.rs)

    The lookup tables that classify URI bytes, and the grammar of origin-form
    URIs over the primitives of the [pear] parser library. *)

From S2P Require Import Prelude Crates.

(** ** Tables *)

(** [char_table]: 256 entries, zero except [table[c] = c] for each [c] of the
    sets. *)
Definition char_table (sets : list str) : str :=
  foldl (foldl (λ table c, <[nat_of_ascii c := c]> table)) (replicate 256 "000"%char) sets.

Definition ALPHA : str := #"ABCDEFGHIJKLMNOPQRSTUVWXYZabcdefghijklmnopqrstuvwxyz".
Definition DIGIT : str := #"0123456789".
Definition PCT_ENCODED : str := #"%ABCDEFabcdef0123456789".
Definition SUB_DELIMS : str := #"!$&'()*+,;=".

Definition SCHEME_CHAR : str := Eval vm_compute in char_table [ALPHA; DIGIT; #"+-."].
Definition UNRESERVED : str := Eval vm_compute in char_table [ALPHA; DIGIT; #"-._~"].
Definition REG_NAME_CHARS : str :=
  Eval vm_compute in char_table [UNRESERVED; PCT_ENCODED; SUB_DELIMS].
Definition USER_INFO_CHARS : str := Eval vm_compute in char_table [REG_NAME_CHARS; #":"].
Definition PATH_CHARS : str :=
  Eval vm_compute in char_table [REG_NAME_CHARS; #":@/"; #"[]"].
Definition QUERY_CHARS : str :=
  Eval vm_compute in char_table [PATH_CHARS; #"/?"; #"{}[]\^`|"].

(** [TABLE[c as usize] != 0]. *)
Definition in_table (table : str) (c : ascii) : bool :=
  negb (bool_decide (table !! nat_of_ascii c = Some "000"%char)).

Definition is_pchar (c : ascii) : bool := in_table PATH_CHARS c.
Definition is_host_char (c : ascii) : bool :=
  is_pchar c && negb (bool_decide (c = "["%char)) && negb (bool_decide (c = "]"%char)).
Definition is_scheme_char (c : ascii) : bool := in_table SCHEME_CHAR c.
Definition is_user_info_char (c : ascii) : bool := in_table USER_INFO_CHARS c.
Definition is_qchar (c : ascii) : bool := in_table QUERY_CHARS c.
Definition is_reg_name_char (c : ascii) : bool := in_table REG_NAME_CHARS c.

(** ** The primitives of pear *)

(** The longest prefix whose bytes satisfy a test, and the rest. *)
Fixpoint span (p : ascii → bool) (s : str) : str * str :=
  match s with
  | c :: s' => if p c then let '(u, v) := span p s' in (c :: u, v) else ([], s)
  | [] => ([], [])
  end.

(** The parser primitives on the remaining input: [eat] consumes one given
    byte, [peek] looks at it, [take_while] consumes the longest prefix of
    matching bytes, [eof] succeeds at the end. *)
Class Pear := {
  pear_eat : ascii → str → option str;
  pear_peek : ascii → str → bool;
  pear_take_while : (ascii → bool) → str → str * str;
  pear_eof : str → bool;
}.

Class PearLaws `{Pear} : Prop := {
  pear_eat_spec c s : pear_eat c s = strip_prefix [c] s;
  pear_peek_spec c s : pear_peek c s = starts_with [c] s;
  pear_take_while_spec p s : pear_take_while p s = span p s;
  pear_eof_spec s : pear_eof s = is_empty s;
}.

#[export] Hint Rewrite @pear_eat_spec @pear_peek_spec @pear_take_while_spec
  @pear_eof_spec using typeclasses eauto : crates.

Module PearReference.
#[export] Instance pear_ref : Pear := {|
  pear_eat c s := strip_prefix [c] s;
  pear_peek c s := starts_with [c] s;
  pear_take_while := span;
  pear_eof := is_empty |}.
#[export] Instance pear_laws : PearLaws.
Proof. split; done. Qed.
End PearReference.

(** ** The grammar of origin-form URIs *)

Section parser.
Context `{Pear}.

(** [parser::path], [parser::query]. *)
Definition parse_path (input : str) : str * str := pear_take_while is_pchar input.

Definition parse_query (input : str) : option str * str :=
  match pear_eat "?" input with
  | Some input => let '(q, input) := pear_take_while is_qchar input in (Some q, input)
  | None => (None, input)
  end.

(** [parser::origin]: path and query; [None] is a parse error. *)
Definition parse_origin (input : str) : option ((str * option str) * str) :=
  if pear_peek "/" input then
    let '(path, input) := parse_path input in
    let '(query, input) := parse_query input in
    Some ((path, query), input)
  else None.

(** [origin_from_str]: [parse!] runs the parser and demands the end of the
    input. *)
Definition origin_from_str (s : str) : option (str * option str) :=
  match parse_origin s with
  | Some (origin, input) => if pear_eof input then Some origin else None
  | None => None
  end.
End parser.

(** ** Lemmas *)

(** A boolean test of every byte decides a statement about all of them. *)
Lemma forall_bytes (P : ascii → bool) :
  forallb P (ascii_of_nat <$> seq 0 256) = true → ∀ c, P c = true.
Proof.
  intros HP c. rewrite forallb_forall in HP. apply HP.
  rewrite <-(ascii_nat_embedding c). apply list_elem_of_In, list_elem_of_fmap_2.
  apply elem_of_seq. pose proof (nat_ascii_bounded c). lia.
Qed.

Lemma is_pchar_graphic c : is_pchar c = true → graphic c = true.
Proof.
  pose proof (forall_bytes (λ c, implb (is_pchar c) (graphic c))) as H.
  intros Hc. specialize (H eq_refl c). cbn beta in H. by rewrite Hc in H.
Qed.

Lemma is_qchar_graphic c : is_qchar c = true → graphic c = true.
Proof.
  pose proof (forall_bytes (λ c, implb (is_qchar c) (graphic c))) as H.
  intros Hc. specialize (H eq_refl c). cbn beta in H. by rewrite Hc in H.
Qed.

Lemma is_pchar_qchar c : is_pchar c = true → is_qchar c = true.
Proof.
  pose proof (forall_bytes (λ c, implb (is_pchar c) (is_qchar c))) as H.
  intros Hc. specialize (H eq_refl c). cbn beta in H. by rewrite Hc in H.
Qed.

Lemma span_spec p s u v :
  span p s = (u, v) →
  s = u ++ v ∧ Forall (λ c, p c = true) u ∧ ∀ c, head v = Some c → p c = false.
Proof.
  revert u v. induction s as [|c s IH]; intros u v; simpl.
  - intros [= <- <-]. done.
  - destruct (p c) eqn:Hc.
    + destruct (span p s) as [u' v'] eqn:Hs. intros [= <- <-].
      destruct (IH _ _ eq_refl) as (-> & Hu & Hv). split_and!; [done|by constructor|done].
    + intros [= <- <-]. split_and!; [done..|]. by intros ? [= <-].
Qed.

Lemma span_all p u v :
  Forall (λ c, p c = true) u → (∀ c, head v = Some c → p c = false) →
  span p (u ++ v) = (u, v).
Proof.
  intros Hu Hv. induction Hu as [|c u Hc _ IH]; simpl.
  - destruct v as [|c v]; [done|]. simpl. by rewrite Hv.
  - by rewrite Hc, IH.
Qed.

(** The concrete syntax of a parsed origin. *)
Definition origin_syntax (o : str * option str) : str :=
  o.1 ++ match o.2 with Some q => "?"%char :: q | None => [] end.

(** An origin's path is absolute and made of path bytes, its query of query
    bytes. *)
Definition valid_origin (o : str * option str) : Prop :=
  starts_with ["/"%char] o.1 = true ∧ Forall (λ c, is_pchar c = true) o.1 ∧
  ∀ q, o.2 = Some q → Forall (λ c, is_qchar c = true) q.

Lemma starts_with_app_l p s t : starts_with p s = true → starts_with p (s ++ t) = true.
Proof. rewrite !starts_with_spec. intros [r ->]. exists (r ++ t). by rewrite app_assoc. Qed.

Section parser_laws.
Context `{PearLaws}.

(** What the parser accepts: the syntax of a valid origin. *)
Lemma origin_from_str_Some (s : str) (o : str * option str) :
  origin_from_str s = Some o → s = origin_syntax o ∧ valid_origin o.
Proof.
  unfold origin_from_str, parse_origin, parse_path, parse_query, valid_origin, origin_syntax.
  autorewrite with crates.
  destruct (starts_with _ s) eqn:Hsl; [|done].
  destruct (span is_pchar s) as [p r] eqn:Hp. apply span_spec in Hp as (-> & Hp & Hr).
  assert (starts_with ["/"%char] p = true) as Hsp.
  { destruct p as [|c p]; [|by apply starts_with_spec in Hsl as [? [= -> _]]].
    apply starts_with_spec in Hsl as [r' Hr']. simpl in Hr'. subst r.
    by specialize (Hr _ eq_refl). }
  autorewrite with crates. destruct (strip_prefix _ r) as [r'|] eqn:Hq.
  - apply strip_prefix_Some in Hq as ->. autorewrite with crates.
    destruct (span is_qchar r') as [q r''] eqn:Hr'. apply span_spec in Hr' as (-> & Hq & _).
    rewrite pear_eof_spec. destruct r''; [|done]. intros [= <-]. simpl.
    rewrite app_nil_r. split_and!; [done..|]. by intros ? [= <-].
  - rewrite pear_eof_spec. destruct r; [|done]. intros [= <-]. simpl.
    rewrite app_nil_r. by split_and!.
Qed.

(** The syntax of every valid origin is accepted. *)
Lemma origin_from_str_valid (o : str * option str) :
  valid_origin o → origin_from_str (origin_syntax o) = Some o.
Proof.
  unfold origin_from_str, parse_origin, parse_path, parse_query, valid_origin, origin_syntax.
  autorewrite with crates.
  destruct o as [p q]. cbn [fst snd]. intros (Hsl & Hp & Hq).
  rewrite (starts_with_app_l _ _ _ Hsl).
  rewrite span_all; [|done|by destruct q; simpl; [intros ? [= <-]|]].
  autorewrite with crates. destruct q as [q|]; simpl; [|by rewrite pear_eof_spec].
  autorewrite with crates. pose proof (span_all is_qchar q []) as Hs.
  rewrite app_nil_r in Hs. rewrite Hs by (auto || done). by rewrite pear_eof_spec.
Qed.

(** The parser accepts exactly the strings of the origin-form grammar, and
    takes each apart into the path and query that print it. *)
Theorem origin_from_str_iff (s : str) (o : str * option str) :
  origin_from_str s = Some o ↔ s = origin_syntax o ∧ valid_origin o.
Proof.
  split; [apply origin_from_str_Some|]. intros [-> Ho]. by apply origin_from_str_valid.
Qed.
End parser_laws.

(** The grammar at a concrete URI. *)
Section witness.
Import PearReference.

Example origin_from_str_witness :
  origin_from_str (#"/a/b?c=d") = Some (#"/a/b", Some (#"c=d")) ∧
  origin_from_str (#"/a b") = None.
Proof.
  split; [|by vm_compute]. apply origin_from_str_iff. split; [by vm_compute|].
  by apply (origin_from_str_iff (#"/a/b?c=d")); vm_compute.
Defined.
End witness.
