(* ===== verification/MediaParse.v ===== *)
(** * MediaParse: the grammar of media types and of Accept
    (core/http/src/parse/media_type.rs, accept.rs, checkers.rs)

    The parsers are functions from the remaining input to a result and what
    remains, over the combinators of [pear]; the content of a parse error is
    not modelled.  The stateful closure of [quoted_string] is a transition
    function on its captured variable. *)

From Stdlib Require Import SpecFloat.
From S2P Require Import Prelude Crates UriTables MediaType.

(** ** The combinators of pear *)

Definition parser (A : Type) := str → option (A * str).

(** A parser that never returns more than it was given. *)
Definition non_growing {A} (p : parser A) : Prop :=
  ∀ s a r, p s = Some (a, r) → length r ≤ length s.

(** The longest prefix whose bytes a transition function accepts. *)
Fixpoint span_mut {S} (step : S → ascii → S * bool) (st : S) (s : str) : str * str :=
  match s with
  | [] => ([], [])
  | c :: s' =>
    let '(st, ok) := step st c in
    if ok then let '(u, v) := span_mut step st s' in (c :: u, v) else ([], s)
  end.

Class PearCombinators := {
  pear_take_while_mut : ∀ {S}, (S → ascii → S * bool) → S → str → str * str;
  pear_take_some_while_until : (ascii → bool) → ascii → parser str;
  pear_surrounded : ∀ {A}, parser A → (ascii → bool) → parser A;
  pear_series : ∀ {A}, parser A → ascii → parser (list A);
  pear_prefixed_series : ∀ {A}, ascii → parser A → ascii → parser (list A);
}.

Class PearCombinatorsLaws `{PearCombinators} : Prop := {
  pear_take_while_mut_spec {S} (step : S → ascii → S * bool) st s :
    pear_take_while_mut step st s = span_mut step st s;
  pear_take_some_while_until_spec p d s :
    pear_take_some_while_until p d s =
      let '(u, v) := span (λ c, p c && negb (bool_decide (c = d))) s in
      if is_empty u then None else Some (u, v);
  pear_surrounded_spec {A} (p : parser A) cond s :
    pear_surrounded p cond s =
      '(a, r) ← p (span cond s).2; Some (a, (span cond r).2);
  pear_prefixed_series_spec {A} prefix (item : parser A) sep s :
    pear_prefixed_series prefix item sep s =
      match strip_prefix [prefix] s with
      | None => Some ([], s)
      | Some s => pear_series item sep s
      end;
  pear_series_spec {A} (item : parser A) sep s :
    non_growing item →
    pear_series item sep s =
      match item s with
      | None => None
      | Some (a, r) =>
        match strip_prefix [sep] r with
        | Some r' => (λ '(l, r), (a :: l, r)) <$> pear_series item sep r'
        | None => Some ([a], r)
        end
      end;
}.

Module PearCombinatorsReference.
Fixpoint series {A} (fuel : nat) (item : parser A) (sep : ascii) (s : str)
  : option (list A * str) :=
  match fuel with
  | O => None
  | S n =>
    match item s with
    | None => None
    | Some (a, r) =>
      match strip_prefix [sep] r with
      | Some r' => (λ '(l, r), (a :: l, r)) <$> series n item sep r'
      | None => Some ([a], r)
      end
    end
  end.

Lemma series_fuel {A} (item : parser A) sep n m s :
  non_growing item → length s < n → length s < m → series n item sep s = series m item sep s.
Proof.
  intros Hg. revert m s. induction n as [|n IH]; intros [|m] s Hn Hm; try lia. simpl.
  destruct (item s) as [[a r]|] eqn:E; [|done]. apply Hg in E.
  destruct r as [|c r]; [done|]. cbn [strip_prefix]. case_decide; [|done].
  simpl in E. by rewrite (IH m r) by lia.
Qed.

#[export] Instance pear_combinators_ref : PearCombinators := {|
  pear_take_while_mut := @span_mut;
  pear_take_some_while_until p d s :=
    let '(u, v) := span (λ c, p c && negb (bool_decide (c = d))) s in
    if is_empty u then None else Some (u, v);
  pear_surrounded A p cond s := '(a, r) ← p (span cond s).2; Some (a, (span cond r).2);
  pear_series A item sep s := series (S (length s)) item sep s;
  pear_prefixed_series A prefix item sep s :=
    match strip_prefix [prefix] s with
    | None => Some ([], s)
    | Some s => series (S (length s)) item sep s
    end |}.
#[export] Instance pear_combinators_laws : PearCombinatorsLaws.
Proof.
  split; [done..|]. intros A item sep s Hg.
  cbn [pear_series pear_combinators_ref series].
  destruct (item s) as [[a r]|] eqn:E; [|done]. apply Hg in E.
  destruct r as [|c r]; [done|]. cbn [strip_prefix]. case_decide; [|done]. simpl in E.
  by rewrite (series_fuel item sep (length s) (S (length r)) r Hg) by lia.
Qed.
End PearCombinatorsReference.

(** ** Checkers *)

(** [checkers::is_whitespace], [checkers::is_valid_token]. *)
Definition is_whitespace (c : ascii) : bool :=
  bool_decide (c = " "%char) || bool_decide (c = "009"%char).

Definition is_valid_token (c : ascii) : bool :=
  let n := nat_of_ascii c in
  let within a b := (nat_of_ascii a <=? n)%nat && (n <=? nat_of_ascii b)%nat in
  within "0"%char "9"%char || within "A"%char "Z"%char || within "^"%char "~"%char
  || within "#"%char "'"%char || existsb (λ d, bool_decide (c = d)) (#"!*+-.").

Section parsers.
Context `{Uncased} `{Pear} `{PearCombinators}.

(** ** Media types *)

(** The closure of [quoted_string]: [is_escaped] and the verdict. *)
Definition quoted_step (is_escaped : bool) (c : ascii) : bool * bool :=
  if is_escaped then (false, true)
  else if bool_decide (c = "\"%char) then (true, true)
  else (is_escaped, negb (bool_decide (c = "034"%char))).

(** [quoted_string]. *)
Definition quoted_string : parser str := λ input,
  input ← pear_eat "034" input;
  let '(inner, input) := pear_take_while_mut quoted_step false input in
  input ← pear_eat "034" input;
  Some (inner, input).

(** [media_param]. *)
Definition media_param : parser (str * str) := λ input,
  '(key, input) ← pear_take_some_while_until is_valid_token "=" input;
  input ← pear_eat "=" input;
  '(value, input) ← (if pear_peek "034" input then quoted_string input
                     else pear_take_some_while_until is_valid_token ";" input);
  Some ((key, value), input).

(** [media_type]; [start] is the whole input, which becomes the source. *)
Definition media_type_parser (start : str) : parser MediaType := λ input,
  '(top, input) ← pear_take_some_while_until is_valid_token "/" input;
  input ← pear_eat "/" input;
  '(sub, input) ← pear_take_some_while_until is_valid_token ";" input;
  '(params, input) ←
    pear_prefixed_series ";" (pear_surrounded media_param is_whitespace) ";" input;
  Some (MediaType_with (Custom (Owned start)) top sub params, input).

(** [parse_media_type]: [parse!] demands the end of the input. *)
Definition parse_media_type (input : str) : option MediaType :=
  '(m, rest) ← media_type_parser input input;
  if pear_eof rest then Some m else None.

(** [MediaType::parse_flexible]. *)
Definition parse_flexible (name : str) : option MediaType :=
  match List.find (λ p, uncased_eq name p.1) known_shorthands with
  | Some p => Some (media_type_of p.2)
  | None => parse_media_type name
  end.

(** ** Accept *)

(** [str::parse::<f32>], the standard library's: an optional sign, then [inf],
    [infinity], [nan] or a decimal number, rounded to the nearest. *)
Definition decimal (s : str) : Z :=
  foldl (λ n c, (10 * n + (Z.of_nat (nat_of_ascii c) - 48))%Z) 0%Z s.

Definition split_sign (s : str) : bool * str :=
  match s with
  | "-"%char :: s => (true, s)
  | "+"%char :: s => (false, s)
  | _ => (false, s)
  end.

Definition round_f32 (neg : bool) (num den : positive) : f32 :=
  let '(m, e, l) := SFdiv_core_binary 24 128 (Z.pos num) 0 (Z.pos den) 0 in
  binary_round_aux 24 128 neg m e l.

Definition f32_of_decimal (neg : bool) (mant exp10 : Z) : f32 :=
  match mant with
  | Z.pos m =>
    match exp10 with
    | Z.neg e => round_f32 neg m (10 ^ e)
    | Z.pos e => round_f32 neg (m * 10 ^ e) 1
    | 0%Z => round_f32 neg m 1
    end
  | _ => S754_zero neg
  end.

Definition parse_exponent (s : str) : option Z :=
  match s with
  | [] => Some 0%Z
  | c :: s =>
    if bool_decide (to_lower c = "e"%char) then
      let '(neg, s) := split_sign s in
      if negb (is_empty s) && forallb is_digit s
      then Some (if neg then (- decimal s)%Z else decimal s) else None
    else None
  end.

Definition parse_f32 (s : str) : option f32 :=
  let '(neg, s) := split_sign s in
  let lower := to_lower <$> s in
  if bool_decide (lower = #"inf") || bool_decide (lower = #"infinity")
  then Some (S754_infinity neg)
  else if bool_decide (lower = #"nan") then Some S754_nan
  else
    let '(int, rest) := span is_digit s in
    let '(frac, rest) := match rest with
                         | "."%char :: rest => span is_digit rest
                         | _ => ([], rest)
                         end in
    if is_empty (int ++ frac) then None
    else e ← parse_exponent rest;
         Some (f32_of_decimal neg (decimal (int ++ frac)) (e - Z.of_nat (length frac))).

(** The weight of a parsed media type: [None] is a parse error, [Some None]
    the absence of a weight. *)
Definition q_weight (media_type : MediaType) : option (option f32) :=
  let q := match params media_type with
           | (name, value) :: _ => if uncased_eq name (#"q") then Some value else None
           | [] => None
           end in
  match q with
  | Some value =>
    if (length value <=? 5)%nat then
      match parse_f32 value with
      | Some q => if f32_gt q f32_one then None
                  else if f32_gt f32_zero q then None
                  else Some (Some q)
      | None => None
      end
    else Some None
  | None => Some None
  end.

(** [weighted_media_type], [accept], [parse_accept]. *)
Definition weighted_media_type (start : str) : parser QMediaType := λ input,
  '(media_type, input) ← media_type_parser start input;
  weight ← q_weight media_type;
  Some (QMediaType_new media_type weight, input).

Definition accept_parser (start : str) : parser Accept :=
  pear_series (pear_surrounded (weighted_media_type start) is_whitespace) ",".

Definition parse_accept (input : str) : option Accept :=
  '(a, rest) ← accept_parser input input;
  if pear_eof rest then Some a else None.

(** [impl Display for Accept]. *)
Fixpoint accept_write (i : nat) (self : Accept) : str :=
  match self with
  | [] => []
  | m :: self =>
    (if (1 <=? i)%nat then #", " else []) ++ media_type_to_string (media_type m)
      ++ accept_write (S i) self
  end.

Definition accept_to_string (self : Accept) : str := accept_write 0 self.
End parsers.

(** ** Lemmas *)

Lemma span_length p s : length (span p s).1 + length (span p s).2 = length s.
Proof.
  destruct (span p s) as [u v] eqn:E. apply span_spec in E as (-> & _). by rewrite length_app.
Qed.

Lemma span_mut_length {S} (step : S → ascii → S * bool) st s :
  length (span_mut step st s).1 + length (span_mut step st s).2 = length s.
Proof.
  revert st. induction s as [|c s IH]; intros st; [done|]. simpl.
  destruct (step st c) as [st' [|]]; [|done]. specialize (IH st').
  destruct (span_mut step st' s); simpl in *. lia.
Qed.

Lemma strip_one_length_le c s r : strip_prefix [c] s = Some r → length r ≤ length s.
Proof. intros ->%strip_prefix_Some. simpl. lia. Qed.

(** A valid token: what the grammar writes unquoted. *)
Definition token (s : str) : Prop := s ≠ [] ∧ Forall (λ c, is_valid_token c = true) s.

Section parser_lemmas.
Context `{UncasedLaws} `{PearLaws} `{PearCombinatorsLaws}.

Lemma take_some_length p d s u v :
  pear_take_some_while_until p d s = Some (u, v) → length v ≤ length s.
Proof.
  rewrite pear_take_some_while_until_spec.
  pose proof (span_length (λ c, p c && negb (bool_decide (c = d))) s) as Hl.
  destruct (span _ s) as [u' v']. destruct (is_empty u'); [done|]. intros [= -> ->].
  simpl in Hl. lia.
Qed.

Lemma quoted_string_non_growing : non_growing quoted_string.
Proof.
  intros s a r. unfold quoted_string.
  intros (s1 & Hs1 & Hr)%bind_Some. autorewrite with crates in Hs1.
  rewrite pear_take_while_mut_spec in Hr.
  pose proof (span_mut_length quoted_step false s1) as Hl.
  destruct (span_mut quoted_step false s1) as [u v]. simpl in Hl.
  apply bind_Some in Hr as (s2 & Hs2 & [= _ <-]). autorewrite with crates in Hs2.
  apply strip_one_length_le in Hs1, Hs2. lia.
Qed.

Lemma media_param_non_growing : non_growing media_param.
Proof.
  intros s a r. unfold media_param.
  intros ([k s1] & Hk & (s2 & He & ([v s3] & Hv & [= _ <-])%bind_Some)%bind_Some)%bind_Some.
  apply take_some_length in Hk. autorewrite with crates in He. apply strip_one_length_le in He.
  destruct (pear_peek _ s2); [apply quoted_string_non_growing in Hv|apply take_some_length in Hv];
    lia.
Qed.

Lemma surrounded_non_growing {A} (p : parser A) cond :
  non_growing p → non_growing (pear_surrounded p cond).
Proof.
  intros Hp s a r. rewrite pear_surrounded_spec.
  intros ([a' r'] & Hs & [= _ <-])%bind_Some. apply Hp in Hs.
  pose proof (span_length cond s). pose proof (span_length cond r'). lia.
Qed.

(** Reading a token up to a byte that is none. *)
Lemma take_token d u v :
  token u → is_valid_token d = false →
  (∀ c, head v = Some c → is_valid_token c = false) →
  pear_take_some_while_until is_valid_token d (u ++ v) = Some (u, v).
Proof.
  intros [Hne Hu] Hd Hv. rewrite pear_take_some_while_until_spec, span_all.
  - by destruct u.
  - eapply Forall_impl; [exact Hu|]. intros c Hc. apply andb_true_iff. split; [done|].
    apply negb_true_iff, bool_decide_eq_false. intros ->. congruence.
  - intros c Hc. by rewrite Hv.
Qed.

Lemma token_head u v :
  token u → ∃ c w, u ++ v = c :: w ∧ is_valid_token c = true.
Proof. intros [Hne Hu]. destruct Hu as [|c u Hc]; [done|]. simpl. eauto. Qed.

Lemma valid_token_whitespace c : is_valid_token c = true → is_whitespace c = false.
Proof.
  pose proof (forall_bytes (λ c, implb (is_valid_token c) (negb (is_whitespace c)))) as Hb.
  intros Hc. specialize (Hb eq_refl c). cbn beta in Hb. rewrite Hc in Hb.
  by apply negb_true_iff.
Qed.

Lemma media_param_token k v r :
  token k → token v → (∀ c, head r = Some c → is_valid_token c = false) →
  media_param (k ++ "="%char :: v ++ r) = Some ((k, v), r).
Proof.
  intros Hk Hv Hr. unfold media_param.
  rewrite take_token by (done || by intros ? [= <-]). simpl.
  autorewrite with crates. simpl. autorewrite with crates.
  destruct (token_head v r Hv) as (c & w & Hvr & Hc).
  assert (starts_with ["034"%char] (v ++ r) = false) as ->.
  { rewrite Hvr. unfold starts_with. simpl. case_decide as Hcq; [|done]. by subst c. }
  by rewrite take_token.
Qed.

Definition token_param (p : str * str) : Prop := token p.1 ∧ token p.2.

Lemma params_text_head ps c :
  head (concat (param_text <$> ps)) = Some c → is_valid_token c = false.
Proof. destruct ps; [done|]. by intros [= <-]. Qed.

Lemma params_series p ps :
  token_param p → Forall token_param ps →
  pear_series (pear_surrounded media_param is_whitespace) ";"
    (drop 1 (concat (param_text <$> p :: ps))) = Some (p :: ps, []).
Proof.
  intros Hp Hps. revert p Hp. induction Hps as [|p' ps Hp' _ IH]; intros [k v] [Hk Hv];
    (rewrite pear_series_spec by apply surrounded_non_growing, media_param_non_growing);
    rewrite pear_surrounded_spec; cbn [fst snd] in *.
  - assert (drop 1 (concat (param_text <$> [(k, v)])) = [" "%char] ++ k ++ "="%char :: v ++ [])
      as ->.
    { unfold param_text. simpl. by rewrite !app_nil_r. }
    destruct (token_head k ("="%char :: v ++ []) Hk) as (c & w & Hkw & Hc).
    rewrite span_all; [|by repeat constructor|rewrite Hkw; intros ? [= <-]; by apply valid_token_whitespace].
    cbn [snd]. rewrite media_param_token by done. done.
  - set (rest := concat (param_text <$> p' :: ps)).
    assert (drop 1 (concat (param_text <$> (k, v) :: p' :: ps))
            = [" "%char] ++ k ++ "="%char :: v ++ rest) as ->.
    { unfold rest, param_text. simpl. by rewrite <-!app_assoc. }
    destruct (token_head k ("="%char :: v ++ rest) Hk) as (c & w & Hkw & Hc).
    rewrite span_all; [|by repeat constructor|rewrite Hkw; intros ? [= <-]; by apply valid_token_whitespace].
    cbn [snd]. rewrite media_param_token; [|done..|apply params_text_head].
    assert (rest = ";"%char :: drop 1 rest) as Hrest by done.
    cbn [mbind option_bind]. rewrite Hrest. cbn [span is_whitespace].
    change (is_whitespace ";") with false. cbv iota. cbn [snd strip_prefix].
    rewrite decide_True by done. unfold rest. by rewrite (IH p' Hp').
Qed.

(** The parser on the canonical text of a media type. *)
Lemma media_type_parser_text start t s ps :
  token t → token s → Forall token_param ps →
  media_type_parser start (t ++ #"/" ++ s ++ concat (param_text <$> ps)) =
    Some (MediaType_with (Custom (Owned start)) t s ps, []).
Proof.
  intros Ht Hs Hps. unfold media_type_parser.
  change (#"/" ++ s ++ concat (param_text <$> ps))
    with ("/"%char :: s ++ concat (param_text <$> ps)).
  rewrite take_token by (done || by intros ? [= <-]). simpl.
  autorewrite with crates. simpl.
  rewrite take_token; [|done..|apply params_text_head]. simpl.
  rewrite pear_prefixed_series_spec. destruct ps as [|p ps]; [done|].
  inversion_clear Hps as [|?? Hp Hps']. pose proof (params_series p ps Hp Hps') as Hser.
  assert (concat (param_text <$> p :: ps) = ";"%char :: drop 1 (concat (param_text <$> p :: ps)))
    as -> by done.
  cbn [strip_prefix]. rewrite decide_True by done. by rewrite Hser.
Qed.

(** Printing a media type built from tokens and parsing it again yields a
    media type exactly equal to it, its parameters included. *)
Theorem media_type_roundtrip (t s : str) (ps : list (str * str)) :
  token t → token s → Forall token_param ps →
  ∃ m, parse_media_type (media_type_to_string (const_new t s ps)) = Some m ∧
    exact_eq (const_new t s ps) m = true ∧ top m = t ∧ sub m = s ∧ params m = ps.
Proof.
  intros Ht Hs Hps. unfold parse_media_type, media_type_to_string. cbn [known_source const_new source top sub params].
  eexists. rewrite media_type_parser_text by done. cbn [mbind option_bind].
  rewrite pear_eof_spec. split_and!; [done| |done..].
  unfold exact_eq. rewrite (proj2 (media_type_eq_spec _ _)) by done. simpl.
  induction ps as [|[k v] ps IH]; [done|]. simpl. inversion_clear Hps.
  rewrite uncased_eq_refl, bool_decide_true by done. by apply IH.
Qed.
End parser_lemmas.

(** ** Examples *)

Section examples.
Import Reference PearReference PearCombinatorsReference.

Example parse_f32_ex :
  parse_f32 (#"0.1") = Some q_0_1 ∧ parse_f32 (#".9") = Some q_0_9 ∧
  parse_f32 (#"1e0") = Some f32_one ∧ parse_f32 (#"0") = Some f32_zero ∧
  parse_f32 (#"1e999") = Some (S754_infinity false) ∧ parse_f32 (#".") = None.
Proof. vm_compute. done. Qed.

Example parse_accept_ex :
  match parse_accept (#"text/*; q=0.1, a/b;v=1 ; c=2") with
  | Some [m; n] =>
    (top (media_type m), sub (media_type m), params (media_type m), weight m)
      = (#"text", #"*", [(#"q", #"0.1")], Some q_0_1) ∧
    (top (media_type n), sub (media_type n), params (media_type n), weight n)
      = (#"a", #"b", [(#"v", #"1"); (#"c", #"2")], None)
  | _ => False
  end.
Proof. vm_compute. done. Qed.

Example media_type_roundtrip_witness :
  ∃ m, parse_media_type (#"text/html; charset=utf-8") = Some m ∧ top m = #"text" ∧
    sub m = #"html" ∧ params m = [(#"charset", #"utf-8")].
Proof.
  destruct (media_type_roundtrip (#"text") (#"html") [(#"charset", #"utf-8")])
    as (m & Hm & _ & Ht & Hs & Hp).
  1-2: split; [done|by repeat constructor].
  { repeat constructor; by try (split; [done|by repeat constructor]). }
  exists m. split_and!; [|done..]. rewrite <-Hm. by vm_compute.
Defined.
End examples.
