(* ===== verification/Uri.v ===== *)
(** * Uri: paths, queries, segments and origins
    (core/http/src/uri/path_query.rs, segments.rs, origin.rs)

    A [Data<Path>] or [Data<Query>] is the string its [IndexedStr] denotes; the
    cache of decoded segments is recomputed at each use; [Indexed] proves that
    the representation by indices and caches refines this.  An [Origin] has a
    path and an optional query. *)

From S2P Require Import Prelude Crates RawStr UriTables.

Definition slash : ascii := "/"%char.
Definition nonempty {A} (l : list A) : bool := negb (is_empty l).

Section path.
Context `{StablePattern} `{Memchr} `{PercentEncoding}.

(** ** Path *)

(** [Path::raw_segments]. *)
Definition path_raw_segments (self : str) : list str :=
  let raw := trim self in
  sp_split slash (default raw (sp_strip_prefix [slash] raw)).

(** [Path::is_normalized]: the segments reversed, less the last, are all
    non-empty. *)
Definition path_is_normalized (absolute : bool) (self : str) : bool :=
  if absolute && negb (sp_is_prefix_of [slash] self) then false
  else forallb nonempty (drop 1 (reverse (path_raw_segments self))).

(** The loop of [Path::to_normalized] over the enumerated segments. *)
Fixpoint push_segments (d : ascii) (i : nat) (segs : list str) (path : str) : str :=
  match segs with
  | [] => path
  | segment :: segs =>
    let path := if negb (i =? 0)%nat then path ++ [d] else path in
    push_segments d (S i) segs (path ++ segment)
  end.

(** [Path::to_normalized]. *)
Definition path_to_normalized (absolute trail : bool) (self : str) : str :=
  let raw := trim self in
  let path := if absolute || sp_is_prefix_of [slash] raw then [slash] else [] in
  let path := push_segments slash 0 (List.filter nonempty (path_raw_segments self)) path in
  if trail && (1 <? length raw)%nat && sp_is_suffix_of [slash] raw
     && negb (ends_with [slash] path)
  then path ++ [slash] else path.

(** The loop of [Path::segments]: an empty segment is kept only at the end,
    the others are decoded. *)
Fixpoint decode_path_segments (raw_segments : list str) : list str :=
  match raw_segments with
  | [] => []
  | s :: rest =>
    if is_empty s && nonempty rest then decode_path_segments rest
    else cow_value (percent_decode_lossy s) :: decode_path_segments rest
  end.

(** [Path::segments], as the list of segments it iterates over. *)
Definition path_segments (self : str) : list str :=
  decode_path_segments (path_raw_segments self).

(** ** Query *)

(** [Query::raw_segments]. *)
Definition query_raw_segments (self : str) : list str :=
  match trim self with
  | [] => []
  | q => sp_split "&" q
  end.

(** [Query::is_normalized]. *)
Definition query_is_normalized (self : str) : bool :=
  forallb nonempty (query_raw_segments self).

(** [Query::to_normalized]. *)
Definition query_to_normalized (self : str) : str :=
  push_segments "&" 0 (List.filter nonempty (query_raw_segments self)) [].

(** [Query::segments]: the decoded pairs. *)
Definition query_segments (self : str) : list (str * str) :=
  (λ '(k, v), (cow_value (url_decode_lossy k), cow_value (url_decode_lossy v))) <$>
  ((λ s, split_at_byte s "=") <$> List.filter nonempty (query_raw_segments self)).
End path.

(** ** Segments *)

(** [struct Segments]: the segments and the position of the next one. *)
Record Segments := Segments_at { segs : list str; pos : nat }.

(** [Segments::new]. *)
Definition segments_new (segments : list str) : Segments := Segments_at segments 0.

(** [Segments::num]. *)
Definition num (self : Segments) : nat :=
  let max_pos := Nat.min (pos self) (length (segs self)) in
  length (segs self) - max_pos.

(** [Segments::is_empty]. *)
Definition segments_is_empty (self : Segments) : bool := (num self =? 0)%nat.

(** [Segments::skip]. *)
Definition skip (n : nat) (self : Segments) : Segments :=
  Segments_at (segs self) (Nat.min (pos self + n) (length (segs self))).

(** [Segments::get]. *)
Definition get (n : nat) (self : Segments) : option str := segs self !! (pos self + n).

(** [Iterator::next]. *)
Definition next (self : Segments) : option (str * Segments) :=
  match get 0 self with
  | Some item => Some (item, Segments_at (segs self) (pos self + 1))
  | None => None
  end.

(** What iterating yields. *)
Definition remaining (self : Segments) : list str := drop (pos self) (segs self).

(** [Segments::prefix_of]: [zip] stops with the shorter iterator. *)
Definition prefix_of (self other : Segments) : bool :=
  if (num other <? num self)%nat then false
  else forallb (λ '(a, b), is_empty a || bool_decide (a = b))
         (zip (remaining self) (remaining other)).

(** ** PathBuf (the Unix [std::path::PathBuf]) *)

(** [PathBuf::push]: an absolute path replaces the buffer; otherwise a
    separator is put between unless the buffer is empty or ends in one. *)
Definition pathbuf_push (buf p : str) : str :=
  if starts_with [slash] p then p
  else if is_empty buf || ends_with [slash] buf then buf ++ p
  else buf ++ slash :: p.

(** [PathBuf::pop]: truncates to the parent.  Trailing separators are not part
    of the last component; a buffer without a component is left alone. *)
Definition is_slash (c : ascii) : bool := bool_decide (c = slash).

Definition pathbuf_pop (buf : str) : str :=
  let component := (span is_slash (reverse buf)).2 in
  if is_empty component then buf
  else
    let parent := (span (λ c, negb (is_slash c)) component).2 in
    match (span is_slash parent).2 with
    | [] => if starts_with [slash] buf then [slash] else []
    | parent => reverse parent
    end.

(** [enum PathError]. *)
Inductive PathError :=
  | BadStart (c : ascii)
  | BadChar (c : ascii)
  | BadEnd (c : ascii).

(** [cfg!(windows)]: the model is that of a Unix build. *)
Definition cfg_windows : bool := false.

(** The checks of [Segments::to_path_buf] on a segment other than [.] and
    [..]. *)
Definition segment_error (allow_dotfiles : bool) (segment : str) : option PathError :=
  if negb allow_dotfiles && starts_with ["."%char] segment then Some (BadStart ".")
  else if starts_with ["*"%char] segment then Some (BadStart "*")
  else if ends_with [":"%char] segment then Some (BadEnd ":")
  else if ends_with [">"%char] segment then Some (BadEnd ">")
  else if ends_with ["<"%char] segment then Some (BadEnd "<")
  else if bool_decide (slash ∈ segment) then Some (BadChar "/")
  else if cfg_windows && bool_decide ("\"%char ∈ segment) then Some (BadChar "\")
  else if cfg_windows && bool_decide (":"%char ∈ segment) then Some (BadChar ":")
  else None.

(** The loop of [Segments::to_path_buf]. *)
Fixpoint path_buf_loop (allow_dotfiles : bool) (segments : list str) (buf : str)
  : PathError + str :=
  match segments with
  | [] => inr buf
  | segment :: rest =>
    if bool_decide (segment = #".") then path_buf_loop allow_dotfiles rest buf
    else if bool_decide (segment = #"..") then
      path_buf_loop allow_dotfiles rest (pathbuf_pop buf)
    else match segment_error allow_dotfiles segment with
         | Some e => inl e
         | None => path_buf_loop allow_dotfiles rest (pathbuf_push buf segment)
         end
  end.

(** [Segments::to_path_buf]. *)
Definition to_path_buf (allow_dotfiles : bool) (self : Segments) : PathError + str :=
  path_buf_loop allow_dotfiles (remaining self) [].

(** ** Origin *)

(** [struct Origin]. *)
Record Origin := Origin_new { path : str; query : option str }.

#[export] Instance Origin_eq_dec : EqDecision Origin.
Proof. solve_decision. Defined.

(** [Origin::root]. *)
Definition root : Origin := Origin_new [slash] None.

Section origin.
Context `{StablePattern} `{Memchr} `{PercentEncoding} `{Pear}.

(** [Origin::parse]; the content of a parse error is not modelled. *)
Definition Origin_parse (string : str) : option Origin :=
  (λ '(p, q), Origin_new p q) <$> origin_from_str string.

(** [Origin::parse_route]. *)
Definition parse_route (string : str) : option Origin :=
  if negb (starts_with [slash] string) then None
  else match split_once "?" string with
       | Some (path, query) => Some (Origin_new path (Some query))
       | None => Some (Origin_new string None)
       end.

(** [impl Display for Origin]. *)
Definition to_string (self : Origin) : str :=
  path self ++ match query self with Some query => "?"%char :: query | None => [] end.

(** [Origin::set_query], [Origin::clear_query]. *)
Definition set_query (q : option str) (self : Origin) : Origin := Origin_new (path self) q.
Definition clear_query (self : Origin) : Origin := set_query None self.

(** [Origin::map_path]. *)
Definition map_path (f : str → str) (self : Origin) : option Origin :=
  let path := f (path self) in
  if negb (starts_with [slash] path) || negb (forallb is_pchar path) then None
  else Some (Origin_new path (query self)).

(** [Origin::is_normalized]. *)
Definition is_normalized (self : Origin) : bool :=
  path_is_normalized true (path self)
  && match query self with Some q => query_is_normalized q | None => true end.

(** [Origin::_normalize]. *)
Definition _normalize (allow_trail : bool) (self : Origin) : Origin :=
  let path := if negb (path_is_normalized true (path self))
              then path_to_normalized true allow_trail (path self) else path self in
  let query := match query self with
               | Some q => if negb (query_is_normalized q)
                           then Some (query_to_normalized q) else Some q
               | None => None
               end in
  Origin_new path query.

(** [Origin::normalize] and [Origin::into_normalized]. *)
Definition normalize (self : Origin) : Origin := _normalize true self.
Definition into_normalized (self : Origin) : Origin := normalize self.

(** [Origin::has_trailing_slash]. *)
Definition has_trailing_slash (self : Origin) : bool :=
  (1 <? length (path self))%nat && sp_is_suffix_of [slash] (path self).

(** [Origin::is_normalized_nontrailing]. *)
Definition is_normalized_nontrailing (self : Origin) : bool :=
  is_normalized self && negb (has_trailing_slash self).

(** [Origin::into_normalized_nontrailing]: a normalized path with a trailing
    slash loses its last byte. *)
Definition into_normalized_nontrailing (self : Origin) : Origin :=
  if negb (is_normalized_nontrailing self) then
    if is_normalized self && has_trailing_slash self then
      Origin_new (take (length (path self) - 1) (path self)) (query self)
    else _normalize false self
  else self.

(** The segments of an origin's path, [self.path().segments()]. *)
Definition origin_segments (self : Origin) : list str := path_segments (path self).
End origin.

(** ** Lemmas *)

Lemma nonempty_true {A} (l : list A) : nonempty l = true ↔ l ≠ [].
Proof. by destruct l. Qed.

Lemma filter_nonempty_ne (ws : list str) : Forall (λ w, w ≠ []) (List.filter nonempty ws).
Proof.
  apply Forall_forall. intros w Hw.
  apply list_elem_of_In, filter_In in Hw as [_ Hw]. by apply nonempty_true.
Qed.

Lemma filter_nonempty_id (ws : list str) :
  Forall (λ w, w ≠ []) ws → List.filter nonempty ws = ws.
Proof. induction 1 as [|w ws Hw _ IH]; [done|]. simpl. destruct w; [done|]. by rewrite IH. Qed.

Lemma filter_app_list {A} (f : A → bool) l k :
  List.filter f (l ++ k) = List.filter f l ++ List.filter f k.
Proof. induction l as [|x l IH]; [done|]. simpl. rewrite IH. by destruct (f x). Qed.

Lemma Forall_filter_list {A} (f : A → bool) (P : A → Prop) l :
  Forall P l → Forall P (List.filter f l).
Proof. induction 1 as [|x l Hx _ IH]; [done|]. simpl. destruct (f x); [by constructor|done]. Qed.

Lemma push_segments_spec d i segs path :
  push_segments d i segs path =
    path ++ match segs with [] => [] | _ => (if (i =? 0)%nat then [] else [d]) ++ join d segs end.
Proof.
  revert i path. induction segs as [|s segs IH]; intros i path; [by rewrite app_nil_r|].
  cbn [push_segments]. rewrite IH. cbn [Nat.eqb].
  destruct segs as [|s' segs]; destruct (i =? 0)%nat; simpl negb; cbv iota;
    rewrite ?app_nil_r; simpl; rewrite <-?app_assoc; done.
Qed.

(** *** Trimming a path *)

Lemma graphic_slash : graphic slash = true.
Proof. done. Qed.

Lemma trim_slash t : trim (slash :: t) = slash :: trim_end t.
Proof. unfold trim. rewrite trim_start_graphic by done. apply (trim_end_stop [] slash t eq_refl). Qed.

(** Trimming a slash-separated list of words at the end trims its last word. *)
Lemma trim_end_join ws w :
  trim_end (join slash (ws ++ [w])) = join slash (ws ++ [trim_end w]).
Proof.
  destruct ws as [|x ws]; [done|]. rewrite !join_snoc by done. by apply trim_end_stop.
Qed.

Lemma trim_end_delim d w : d ∉ w → d ∉ trim_end w.
Proof. destruct (trim_end_prefix w) as [v Hv]. rewrite Hv at 1. set_solver. Qed.

(** The trimmed string, or its part after the leading slash, is trimmed. *)
Lemma trim_end_trim s : trim_end (trim s) = trim s.
Proof. apply trim_end_idem. Qed.

Section path_lemmas.
Context `{StablePatternLaws} `{PercentEncodingLaws}.

(** The segments of an absolute path given by its words. *)
Lemma raw_segments_join ws w :
  Forall (λ w, slash ∉ w) (ws ++ [w]) →
  path_raw_segments (slash :: join slash (ws ++ [w])) = ws ++ [trim_end w].
Proof.
  intros Hws. unfold path_raw_segments. rewrite trim_slash, trim_end_join.
  autorewrite with crates. simpl.
  apply Forall_app in Hws as [Hws Hw]. inversion_clear Hw.
  apply split_join; [by destruct ws|]. apply Forall_app. split; [done|].
  repeat constructor. by apply trim_end_delim.
Qed.

Lemma raw_segments_no_slash p : Forall (λ w, slash ∉ w) (path_raw_segments p).
Proof. unfold path_raw_segments. autorewrite with crates. apply split_on_no_delim. Qed.

Lemma raw_segments_ne p : path_raw_segments p ≠ [].
Proof. unfold path_raw_segments. autorewrite with crates. apply split_on_ne. Qed.

Lemma raw_segments_snoc p : ∃ ws w, path_raw_segments p = ws ++ [w].
Proof.
  destruct (exists_last (raw_segments_ne p)) as (ws & w & Hw). eauto.
Qed.

(** The trimmed path and its segments. *)
Lemma raw_segments_trim p :
  trim p = join slash (path_raw_segments p) ∨ trim p = slash :: join slash (path_raw_segments p).
Proof.
  unfold path_raw_segments. rewrite sp_split_spec, join_split, sp_strip_prefix_spec.
  destruct (strip_prefix [slash] (trim p)) as [r|] eqn:Hr; [right|by left].
  by apply strip_prefix_Some in Hr.
Qed.

(** The last segment is trimmed at its end. *)
Lemma raw_segments_last_trim p ws w :
  path_raw_segments p = ws ++ [w] → trim_end w = w.
Proof.
  intros Hw. pose proof (trim_end_trim p) as Ht.
  assert (∀ u, trim_end (u ++ slash :: w) = u ++ slash :: w → trim_end w = w) as Hcut.
  { intros u Hu. rewrite trim_end_stop in Hu by done. by apply app_inv_head in Hu as [= ?]. }
  destruct (raw_segments_trim p) as [Hp|Hp]; rewrite Hp, Hw in Ht.
  - destruct ws as [|x ws]; [done|]. rewrite join_snoc in Ht by done. by apply Hcut in Ht.
  - destruct ws as [|x ws]; [by apply (Hcut []) in Ht|].
    rewrite join_snoc in Ht by done. by apply (Hcut (slash :: _)) in Ht.
Qed.

(** The trimmed path ends in a slash exactly when its last segment is empty,
    up to the paths without a non-empty segment. *)
Lemma ends_with_slash_snoc u w :
  slash ∉ w → ends_with [slash] (u ++ slash :: w) = is_empty w.
Proof.
  intros Hw. destruct (is_empty w) eqn:E.
  - apply is_empty_true in E as ->. apply ends_with_spec. by exists u.
  - destruct (exists_last (proj1 (is_empty_false w) E)) as (v & c & ->).
    rewrite app_comm_cons, app_assoc, ends_with_snoc. apply bool_decide_eq_false. set_solver.
Qed.

Lemma trim_ends_with_slash p ws w :
  path_raw_segments p = ws ++ [w] → List.filter nonempty (ws ++ [w]) ≠ [] →
  (1 <? length (trim p))%nat && ends_with [slash] (trim p) = is_empty w.
Proof.
  intros Hw Hne. pose proof (raw_segments_no_slash p) as Hs. rewrite Hw in Hs.
  apply Forall_app in Hs as [_ Hs]. inversion_clear Hs as [|? ? Hsw].
  assert (ws = [] → w ≠ []) as Hw0 by (intros -> ->; done).
  destruct (raw_segments_trim p) as [Hp|Hp]; rewrite Hp, Hw;
    (destruct ws as [|x ws]; [simpl|rewrite join_snoc by done]).
  - destruct w as [|c w]; [by specialize (Hw0 eq_refl)|]. simpl.
    destruct w as [|c' w]; [done|]. cbn [length Nat.ltb Nat.leb andb].
    destruct (exists_last (l:=c' :: w)) as (v & d & Hd); [done|].
    rewrite Hd, app_comm_cons, ends_with_snoc. apply bool_decide_eq_false.
    rewrite Hd in Hsw. set_solver.
  - rewrite ends_with_slash_snoc by done.
    destruct (is_empty w) eqn:E; [|by rewrite andb_false_r]. rewrite andb_true_r.
    apply Nat.ltb_lt. rewrite length_app. cbn [length].
    assert (join slash (x :: ws) ≠ []) as Hj;
      [|destruct (join slash (x :: ws)); cbn [length]; [done|lia]].
    apply is_empty_true in E as ->. by destruct ws as [|y ws], x.
  - destruct w as [|c w]; [by specialize (Hw0 eq_refl)|]. cbn [length Nat.ltb Nat.leb andb].
    apply (ends_with_slash_snoc [] (c :: w) Hsw).
  - rewrite app_comm_cons, ends_with_slash_snoc by done.
    destruct (is_empty w) eqn:E; [|by rewrite andb_false_r]. rewrite andb_true_r.
    apply Nat.ltb_lt. cbn [length]. rewrite length_app. cbn [length]. lia.
Qed.
End path_lemmas.

(** The words of a normalized path: the non-empty segments, and a last empty
    one for a trailing slash that is kept. *)
Definition normal_words (trail : bool) (ws : list str) (w : str) : list str :=
  let segs := List.filter nonempty (ws ++ [w]) in
  if is_empty segs then [[]] else if trail && is_empty w then segs ++ [[]] else segs.

Lemma normal_words_snoc trail ws w :
  ∃ vs v, normal_words trail ws w = vs ++ [v] ∧ Forall (λ v, v ≠ []) vs ∧
    (v = w ∨ v = [] ∨ w = []) ∧ (trail = true → v = w).
Proof.
  unfold normal_words. rewrite filter_app_list.
  pose proof (filter_nonempty_ne ws) as Hne.
  destruct w as [|c w]; simpl.
  - rewrite app_nil_r, andb_true_r. destruct (List.filter nonempty ws) as [|x l] eqn:E; simpl.
    + exists [], []. naive_solver.
    + destruct trail.
      * exists (x :: l), []. naive_solver.
      * destruct (exists_last (l:=x :: l)) as (vs & v & Hv); [done|].
        exists vs, v. rewrite <-Hv. split_and!; auto.
        { rewrite Hv in Hne. by apply Forall_app in Hne as [? _]. } done.
  - exists (List.filter nonempty ws), (c :: w). rewrite andb_false_r.
    destruct (List.filter nonempty ws); simpl; naive_solver.
Qed.

Lemma normal_words_no_slash trail ws w :
  Forall (λ w, slash ∉ w) (ws ++ [w]) → Forall (λ w, slash ∉ w) (normal_words trail ws w).
Proof.
  intros Hs. unfold normal_words. assert (slash ∉ ([] : str)) by set_solver.
  pose proof (Forall_filter_list nonempty _ _ Hs) as Hf.
  destruct (is_empty _); [by repeat constructor|].
  destruct (_ && _); [|done]. apply Forall_app. split; [done|by repeat constructor].
Qed.

Section path_theorems.
Context `{StablePatternLaws} `{PercentEncodingLaws}.

Lemma to_normalized_words trail p ws w :
  path_raw_segments p = ws ++ [w] →
  path_to_normalized true trail p = slash :: join slash (normal_words trail ws w).
Proof.
  intros Hw. unfold path_to_normalized, normal_words. rewrite Hw, sp_is_suffix_of_spec.
  rewrite push_segments_spec. cbn [orb Nat.eqb].
  destruct (List.filter nonempty (ws ++ [w])) as [|x l] eqn:E; simpl is_empty; cbv iota.
  - change (negb (ends_with [slash] ([slash] ++ []))) with false. by rewrite andb_false_r.
  - pose proof (raw_segments_no_slash p) as Hns. rewrite Hw in Hns.
    pose proof (Forall_filter_list nonempty _ _ Hns) as Hnf. rewrite E in Hnf.
    pose proof (filter_nonempty_ne (ws ++ [w])) as Hne. rewrite E in Hne.
    assert (negb (ends_with [slash] ([slash] ++ [] ++ join slash (x :: l))) = true) as ->.
    { destruct (exists_last (l:=x :: l)) as (vs & v & Hv); [done|]. rewrite Hv in *.
      apply Forall_app in Hnf as [_ Hnf]. inversion_clear Hnf as [|? ? Hv1].
      apply Forall_app in Hne as [_ Hne]. inversion_clear Hne as [|? ? Hv2].
      apply negb_true_iff. simpl.
      destruct vs as [|y vs]; simpl app; [|rewrite app_comm_cons, join_snoc by done;
        rewrite app_comm_cons];
        [change (slash :: join slash [v]) with ([] ++ slash :: v)|];
        rewrite ends_with_slash_snoc by done; by apply is_empty_false. }
    rewrite andb_true_r, <-andb_assoc.
    rewrite (trim_ends_with_slash p ws w) by (done || by rewrite E). destruct (trail && is_empty w); [|done].
    by rewrite (join_snoc slash (x :: l) []).
Qed.

Lemma is_normalized_snoc p ws w :
  path_raw_segments p = ws ++ [w] →
  path_is_normalized true p = starts_with [slash] p && forallb nonempty ws.
Proof.
  intros Hw. unfold path_is_normalized. rewrite sp_is_prefix_of_spec, Hw. simpl.
  destruct (starts_with [slash] p); [|done]. simpl.
  rewrite reverse_snoc. cbn [skipn]. apply eq_true_iff_eq. rewrite !forallb_forall.
  setoid_rewrite <-list_elem_of_In. by setoid_rewrite elem_of_reverse.
Qed.

Lemma to_normalized_segments trail p ws w :
  path_raw_segments p = ws ++ [w] →
  ∃ vs v, normal_words trail ws w = vs ++ [v] ∧ Forall (λ v, v ≠ []) vs ∧
    path_raw_segments (path_to_normalized true trail p) = vs ++ [trim_end v] ∧
    (trail = true → v = w).
Proof.
  intros Hw. destruct (normal_words_snoc trail ws w) as (vs & v & Hv & Hne & _ & Ht).
  exists vs, v. split_and!; [done..| |done].
  rewrite (to_normalized_words _ _ _ _ Hw), Hv, raw_segments_join; [done|].
  rewrite <-Hv. apply normal_words_no_slash. rewrite <-Hw. apply raw_segments_no_slash.
Qed.

(** Normalization produces a normalized path. *)
Lemma to_normalized_is_normalized trail p :
  path_is_normalized true (path_to_normalized true trail p) = true.
Proof.
  destruct (raw_segments_snoc p) as (ws & w & Hw).
  destruct (to_normalized_segments trail p ws w Hw) as (vs & v & _ & Hne & Hsegs & _).
  rewrite (is_normalized_snoc _ _ _ Hsegs), (to_normalized_words _ _ _ _ Hw). simpl.
  rewrite forallb_forall. rewrite Forall_forall in Hne. intros x Hx%list_elem_of_In.
  apply nonempty_true. auto.
Qed.

Lemma decode_segments_snoc ws w :
  decode_path_segments (ws ++ [w]) =
    ((λ s, cow_value (percent_decode_lossy s)) <$> List.filter nonempty ws)
      ++ [cow_value (percent_decode_lossy w)].
Proof.
  induction ws as [|s ws IH]; simpl; [by rewrite andb_false_r|].
  assert (nonempty (ws ++ [w]) = true) as -> by (by destruct ws).
  rewrite IH. by destruct s.
Qed.

(** Normalization that keeps the trailing slash keeps the segments. *)
Lemma to_normalized_path_segments p :
  path_segments (path_to_normalized true true p) = path_segments p.
Proof.
  destruct (raw_segments_snoc p) as (ws & w & Hw).
  destruct (to_normalized_segments true p ws w Hw) as (vs & v & Hv & Hne & Hsegs & Ht).
  specialize (Ht eq_refl) as ->. unfold path_segments. rewrite Hsegs, Hw.
  rewrite (raw_segments_last_trim _ _ _ Hw), !decode_segments_snoc.
  rewrite (filter_nonempty_id vs Hne). do 2 f_equal.
  unfold normal_words in Hv. rewrite filter_app_list in Hv.
  destruct w as [|c w]; simpl in Hv.
  - rewrite app_nil_r in Hv. destruct (List.filter nonempty ws); simpl in Hv.
    + by destruct vs as [|? [|]].
    + rewrite app_comm_cons in Hv. by apply app_inj_tail in Hv as [? _].
  - destruct (is_empty _) eqn:E.
    + apply is_empty_true in E. by destruct (List.filter nonempty ws).
    + by apply app_inj_tail in Hv as [? _].
Qed.
End path_theorems.

(** *** Bytes of splits and joins *)

Lemma Forall_join (P : ascii → Prop) d ws :
  P d → Forall (Forall P) ws → Forall P (join d ws).
Proof.
  intros Hd. induction 1 as [|w ws Hw _ IH]; [constructor|].
  destruct ws as [|w' ws]; [done|]. rewrite join_cons by done.
  apply Forall_app. split; [done|by constructor].
Qed.

Lemma Forall_split (P : ascii → Prop) d s : Forall P s → Forall (Forall P) (split_on d s).
Proof.
  induction 1 as [|c s Hc _ IH]; simpl; [by repeat constructor|].
  case_decide; [by constructor|]. pose proof (split_on_ne d s).
  destruct (split_on d s); [done|]. inversion_clear IH. by repeat constructor.
Qed.

Lemma Forall_last {A} (P : A → Prop) (l : list A) x : Forall P l → last l = Some x → P x.
Proof.
  intros Hl (l' & ->)%last_Some. apply Forall_app in Hl as [_ Hl]. by inversion Hl.
Qed.

Lemma Forall_head {A} (P : A → Prop) (l : list A) x : Forall P l → head l = Some x → P x.
Proof. intros Hl Hx. destruct l; [done|]. simplify_eq/=. by inversion Hl. Qed.

Lemma trim_all_graphic s : Forall (λ c, graphic c = true) s → trim s = s.
Proof.
  intros Hs. apply trim_graphic; intros c Hc;
    [exact (Forall_head _ _ _ Hs Hc)|exact (Forall_last _ _ _ Hs Hc)].
Qed.

Lemma pchars_graphic s : Forall (λ c, is_pchar c = true) s → Forall (λ c, graphic c = true) s.
Proof. intros Hs. eapply Forall_impl; [done|]. apply is_pchar_graphic. Qed.

Lemma qchars_graphic s : Forall (λ c, is_qchar c = true) s → Forall (λ c, graphic c = true) s.
Proof. intros Hs. eapply Forall_impl; [done|]. apply is_qchar_graphic. Qed.

(** *** Queries *)

Section query_lemmas.
Context `{StablePatternLaws} `{Memchr} `{PercentEncoding}.

Lemma query_raw_segments_graphic q :
  Forall (λ c, graphic c = true) q → q ≠ [] → query_raw_segments q = split_on "&" q.
Proof.
  intros Hq Hne. unfold query_raw_segments. rewrite trim_all_graphic by done.
  destruct q; [done|]. apply sp_split_spec.
Qed.

Lemma query_raw_segments_nil : query_raw_segments [] = [].
Proof. done. Qed.

Lemma query_raw_segments_bytes (P : ascii → Prop) q :
  Forall (λ c, graphic c = true) q → Forall P q → Forall (Forall P) (query_raw_segments q).
Proof.
  intros Hg Hq. destruct (decide (q = [])) as [->|]; [constructor|].
  rewrite query_raw_segments_graphic by done. by apply Forall_split.
Qed.

Lemma query_raw_segments_no_amp q : Forall (λ w, "&"%char ∉ w) (query_raw_segments q).
Proof.
  unfold query_raw_segments. destruct (trim q); [constructor|].
  autorewrite with crates. apply split_on_no_delim.
Qed.

(** The segments of a normalized query are the non-empty ones of the query. *)
Lemma query_to_normalized_segments q :
  Forall (λ c, graphic c = true) q →
  query_raw_segments (query_to_normalized q) = List.filter nonempty (query_raw_segments q).
Proof.
  intros Hq. unfold query_to_normalized. rewrite push_segments_spec. simpl.
  pose proof (Forall_filter_list nonempty _ _ (query_raw_segments_bytes _ q Hq Hq)) as Hb.
  pose proof (Forall_filter_list nonempty _ _ (query_raw_segments_no_amp q)) as Ha.
  pose proof (filter_nonempty_ne (query_raw_segments q)) as Hne.
  destruct (List.filter nonempty (query_raw_segments q)) as [|x l]; [done|].
  rewrite query_raw_segments_graphic; [by apply split_join|by apply Forall_join|].
  inversion_clear Hne. by destruct l, x.
Qed.

Lemma query_to_normalized_is_normalized q :
  Forall (λ c, graphic c = true) q → query_is_normalized (query_to_normalized q) = true.
Proof.
  intros Hq. unfold query_is_normalized. rewrite query_to_normalized_segments by done.
  apply forallb_forall. by intros x [_ Hx]%filter_In.
Qed.

Lemma query_to_normalized_pairs q :
  Forall (λ c, graphic c = true) q → query_segments (query_to_normalized q) = query_segments q.
Proof.
  intros Hq. unfold query_segments. rewrite query_to_normalized_segments by done.
  by rewrite (filter_nonempty_id (List.filter _ _)) by apply filter_nonempty_ne.
Qed.

Lemma query_to_normalized_bytes q :
  Forall (λ c, is_qchar c = true) q → Forall (λ c, is_qchar c = true) (query_to_normalized q).
Proof.
  intros Hq. unfold query_to_normalized. rewrite push_segments_spec. simpl.
  pose proof (Forall_filter_list nonempty _ _
    (query_raw_segments_bytes _ q (qchars_graphic q Hq) Hq)) as Hb.
  destruct (List.filter _ _); [constructor|]. by apply Forall_join.
Qed.
End query_lemmas.

(** *** Origins *)

(** What the parser guarantees of an origin. *)
Definition Origin_valid (o : Origin) : Prop := valid_origin (path o, query o).

Lemma starts_with_slash p : starts_with [slash] p = true ↔ ∃ t, p = slash :: t.
Proof. apply starts_with_spec. Qed.

Section origin_lemmas.
Context `{StablePatternLaws} `{MemchrLaws} `{PercentEncodingLaws} `{PearLaws}.

Lemma Origin_parse_valid s o : Origin_parse s = Some o → Origin_valid o ∧ to_string o = s.
Proof.
  unfold Origin_parse. intros ([p q] & Ho & ->)%fmap_Some.
  by apply origin_from_str_Some in Ho as [-> Hv].
Qed.

Lemma raw_segments_bytes (P : ascii → Prop) t :
  Forall (λ c, graphic c = true) t → Forall P t →
  Forall (Forall P) (path_raw_segments (slash :: t)).
Proof.
  intros Hg Ht. unfold path_raw_segments. rewrite trim_all_graphic by by constructor.
  autorewrite with crates. by apply Forall_split.
Qed.

Lemma to_normalized_bytes trail t :
  Forall (λ c, is_pchar c = true) t →
  Forall (λ c, is_pchar c = true) (path_to_normalized true trail (slash :: t)).
Proof.
  intros Ht. destruct (raw_segments_snoc (slash :: t)) as (ws & w & Hw).
  rewrite (to_normalized_words _ _ _ _ Hw). constructor; [done|].
  apply Forall_join; [done|].
  pose proof (raw_segments_bytes _ t (pchars_graphic t Ht) Ht) as Hb. rewrite Hw in Hb.
  unfold normal_words. pose proof (Forall_filter_list nonempty _ _ Hb).
  destruct (is_empty _); [by repeat constructor|].
  destruct (_ && _); [|done]. apply Forall_app. split; [done|by repeat constructor].
Qed.

(** C24: Normalizing a parsed origin yields a normalized, still valid origin that
    denotes the same path segments and the same query pairs, and normalizing
    again changes nothing. *)
Theorem into_normalized_correct (o : Origin) :
  Origin_valid o →
  is_normalized (into_normalized o) = true ∧ Origin_valid (into_normalized o) ∧
  origin_segments (into_normalized o) = origin_segments o ∧
  (query_segments <$> query (into_normalized o)) = (query_segments <$> query o) ∧
  into_normalized (into_normalized o) = into_normalized o.
Proof.
  intros (Hs & Hp & Hq). simpl in Hs, Hp. apply starts_with_slash in Hs as [t Ht].
  assert (is_normalized (into_normalized o) = true) as Hn.
  { unfold into_normalized, normalize, _normalize, is_normalized. simpl.
    apply andb_true_iff. split.
    - destruct (path_is_normalized true (path o)) eqn:E; simpl; [done|].
      apply to_normalized_is_normalized.
    - destruct (query o) as [q|]; [|done].
      destruct (query_is_normalized q) eqn:E; simpl; [done|].
      by apply query_to_normalized_is_normalized, qchars_graphic, Hq. }
  split_and!; [done| | | |].
  - split_and!; simpl.
    + destruct (path_is_normalized true (path o)); simpl; [by rewrite Ht|].
      destruct (raw_segments_snoc (path o)) as (ws & w & Hw).
      by rewrite (to_normalized_words _ _ _ _ Hw).
    + destruct (path_is_normalized true (path o)); simpl; [done|]. rewrite Ht in *.
      apply to_normalized_bytes. by inversion Hp.
    + intros q'. destruct (query o) as [q|]; simpl; [|done].
      destruct (query_is_normalized q); intros [= <-]; [by apply Hq|].
      by apply query_to_normalized_bytes, Hq.
  - unfold origin_segments. simpl. destruct (path_is_normalized true (path o)); simpl; [done|].
    apply to_normalized_path_segments.
  - simpl. destruct (query o) as [q|]; simpl; [|done].
    destruct (query_is_normalized q); simpl; [done|].
    by rewrite query_to_normalized_pairs by by apply qchars_graphic, Hq.
  - unfold is_normalized in Hn. apply andb_true_iff in Hn as [Hn1 Hn2].
    unfold into_normalized, normalize in *. unfold _normalize at 1. rewrite Hn1. simpl negb.
    cbv iota. destruct (_normalize true o) as [p' [q'|]]; simpl in *; [by rewrite Hn2|done].
Qed.
End origin_lemmas.

Section nontrailing.
Context `{StablePatternLaws} `{MemchrLaws} `{PercentEncodingLaws}.

Lemma normal_words_false_no_slash p :
  has_trailing_slash (Origin_new (path_to_normalized true false p) None) = false.
Proof.
  unfold has_trailing_slash. autorewrite with crates. cbn [path].
  destruct (raw_segments_snoc p) as (ws & w & Hw).
  rewrite (to_normalized_words _ _ _ _ Hw).
  pose proof (raw_segments_no_slash p) as Hns. rewrite Hw in Hns.
  apply (normal_words_no_slash false) in Hns. unfold normal_words in *. cbn [andb] in *.
  pose proof (filter_nonempty_ne (ws ++ [w])) as Hne.
  destruct (List.filter nonempty (ws ++ [w])) as [|x l]; [done|]. cbn [is_empty] in *.
  destruct (exists_last (l:=x :: l)) as (vs & v & Hv); [done|]. rewrite Hv in *.
  apply Forall_app in Hns as [_ Hns]. inversion_clear Hns.
  apply Forall_app in Hne as [_ Hne]. inversion_clear Hne as [|? ? Hv0].
  apply andb_false_iff. right.
  destruct vs as [|y vs]; [change (slash :: join slash ([] ++ [v])) with ([] ++ slash :: v)
                          |rewrite join_snoc, app_comm_cons by done];
    rewrite ends_with_slash_snoc by done; by apply is_empty_false.
Qed.

(** Dropping the trailing slash of a normalized absolute path. *)
Lemma drop_trailing_slash t :
  Forall (λ c, is_pchar c = true) (slash :: t ++ [slash]) →
  path_is_normalized true (slash :: t ++ [slash]) = true →
  path_is_normalized true (slash :: t) = true ∧ ends_with [slash] (slash :: t) = false.
Proof.
  intros Hp Hn.
  assert (Forall (λ c, is_pchar c = true) (slash :: t)) as Hp'.
  { rewrite app_comm_cons in Hp. by apply Forall_app in Hp as [? _]. }
  assert (path_raw_segments (slash :: t ++ [slash]) = split_on slash t ++ [[]]) as Hw.
  { unfold path_raw_segments. rewrite trim_all_graphic by by apply pchars_graphic.
    autorewrite with crates. simpl. apply split_on_app_delim. }
  rewrite (is_normalized_snoc _ _ _ Hw) in Hn. simpl in Hn.
  assert (path_raw_segments (slash :: t) = split_on slash t) as Hw'.
  { unfold path_raw_segments. rewrite trim_all_graphic by by apply pchars_graphic.
    by autorewrite with crates. }
  destruct (exists_last (split_on_ne slash t)) as (ws & w & Hs). rewrite Hs in *.
  rewrite forallb_app in Hn. apply andb_true_iff in Hn as [Hws Hwn].
  simpl in Hwn. rewrite andb_true_r in Hwn. apply nonempty_true in Hwn.
  split; [by rewrite (is_normalized_snoc _ _ _ Hw')|].
  pose proof (split_on_no_delim slash t) as Hnd. rewrite Hs in Hnd.
  apply Forall_app in Hnd as [_ Hnd]. inversion_clear Hnd.
  rewrite <-(join_split slash t), Hs.
  destruct ws as [|y ws]; [change (slash :: join slash ([] ++ [w])) with ([] ++ slash :: w)
                          |rewrite join_snoc, app_comm_cons by done];
    rewrite ends_with_slash_snoc by done; by apply is_empty_false.
Qed.

Lemma nontrailing_is_normalized (o : Origin) :
  Origin_valid o →
  (path_is_normalized true (path o) = true →
   ∀ q, query o = Some q → query_is_normalized q = true) →
  is_normalized_nontrailing (into_normalized_nontrailing o) = true.
Proof.
  intros (Hs & Hp & Hq) Hcond. cbn [fst snd] in Hs, Hp, Hq.
  unfold into_normalized_nontrailing.
  destruct (is_normalized_nontrailing o) eqn:E; [done|]. cbn [negb].
  unfold is_normalized_nontrailing, is_normalized in *.
  destruct (path_is_normalized true (path o)) eqn:Hpn; cbn [andb] in *.
  - assert (match query o with Some q => query_is_normalized q | None => true end = true) as Hqn.
    { destruct (query o); [by apply Hcond|done]. }
    rewrite Hqn in *. cbn [andb] in *. apply negb_false_iff in E. rewrite E. simpl.
    unfold has_trailing_slash in *. autorewrite with crates in *.
    apply andb_true_iff in E as [Hlen Hend].
    apply starts_with_slash in Hs as [t Ht]. apply ends_with_spec in Hend as [r Hr].
    rewrite Ht in Hr. destruct r as [|c r].
    { simplify_eq/=. by rewrite Ht in Hlen. }
    simplify_eq/=. rewrite Ht in *.
    destruct (drop_trailing_slash r Hp Hpn) as [Hn1 Hn2].
    replace (take _ (slash :: r ++ [slash])) with (slash :: r).
    + by rewrite Hn1, Hqn, Hn2, andb_false_r.
    + change (slash :: r ++ [slash]) with ((slash :: r) ++ [slash]).
      by rewrite length_app, Nat.add_sub, take_app_length.
  - cbn [andb]. apply andb_true_iff. split.
    + apply andb_true_iff. simpl. rewrite Hpn. simpl.
      split; [apply to_normalized_is_normalized|].
      destruct (query o) as [q|]; [|done]. destruct (query_is_normalized q) eqn:Hqn; simpl; [done|].
      by apply query_to_normalized_is_normalized, qchars_graphic, Hq.
    + unfold _normalize. rewrite Hpn. apply negb_true_iff. apply normal_words_false_no_slash.
Qed.
End nontrailing.

(** The condition on the query is needed: when only the query is not
    normalized, the trailing slash of the path survives. *)
Section keeps_slash.
Import Reference PearReference.

Lemma into_normalized_nontrailing_keeps_slash :
  ∃ o, Origin_parse (#"/foo/?a&&b") = Some o ∧
    let o' := into_normalized_nontrailing o in
    to_string o' = #"/foo/?a&b" ∧ has_trailing_slash o' = true.
Proof. exists (Origin_new (#"/foo/") (Some (#"a&&b"))). vm_compute. done. Qed.
End keeps_slash.

(** *** Segments *)

Lemma num_remaining self : num self = length (remaining self).
Proof. unfold num, remaining. rewrite length_drop. lia. Qed.

Lemma remaining_skip n self : remaining (skip n self) = drop n (remaining self).
Proof.
  unfold remaining, skip. cbn [segs pos]. rewrite drop_drop.
  destruct (Nat.le_ge_cases (pos self + n) (length (segs self))).
  - by rewrite Nat.min_l.
  - by rewrite Nat.min_r, drop_all, drop_ge by lia.
Qed.

Lemma get_remaining n self : get n self = remaining self !! n.
Proof. unfold get, remaining. by rewrite lookup_drop. Qed.

(** The cursor is the list of the segments not yet visited: [num] counts
    them, [get] indexes them, [skip] drops them and [next] yields the first. *)
Theorem segments_cursor (self : Segments) (n : nat) :
  num self = length (remaining self) ∧
  get n self = remaining self !! n ∧
  remaining (skip n self) = drop n (remaining self) ∧
  (segments_is_empty self = true ↔ remaining self = []) ∧
  match next self with
  | Some (item, self') => remaining self = item :: remaining self' ∧ segs self' = segs self
  | None => remaining self = []
  end.
Proof.
  split_and!; [apply num_remaining|apply get_remaining|apply remaining_skip| |].
  - unfold segments_is_empty. rewrite num_remaining, Nat.eqb_eq.
    destruct (remaining self); naive_solver.
  - unfold next, get, remaining. rewrite Nat.add_0_r.
    destruct (segs self !! pos self) as [item|] eqn:E; cbn [segs pos].
    + by rewrite (drop_S _ _ _ E), Nat.add_1_r.
    + by apply drop_ge, lookup_ge_None.
Qed.

(** [prefix_of] in terms of positions. *)
Lemma prefix_of_spec a b :
  prefix_of a b = true ↔
  length (remaining a) ≤ length (remaining b) ∧
  ∀ i x y, remaining a !! i = Some x → remaining b !! i = Some y → x = [] ∨ x = y.
Proof.
  unfold prefix_of. rewrite !num_remaining.
  destruct (Nat.ltb_spec (length (remaining b)) (length (remaining a))); [split; [done|lia]|].
  rewrite forallb_forall. split.
  - intros Hz. split; [lia|]. intros i x y Hx Hy.
    specialize (Hz (x, y)). rewrite orb_true_iff, is_empty_true, bool_decide_eq_true in Hz.
    apply Hz, list_elem_of_In, list_elem_of_lookup. exists i.
    apply lookup_zip_Some. done.
  - intros [_ Hz] [x y] Hin%list_elem_of_In%list_elem_of_lookup.
    destruct Hin as [i [Hx Hy]%lookup_zip_Some].
    rewrite orb_true_iff, is_empty_true, bool_decide_eq_true. eauto.
Qed.

(** *** PathBuf *)

(** What [to_path_buf] computes: the words of a relative path, and whether a
    separator follows them because an empty segment was pushed last. *)
Definition render (r : list str * bool) : str :=
  join slash r.1 ++ (if r.2 then [slash] else []).

Fixpoint resolve (segments : list str) (r : list str * bool) : list str * bool :=
  match segments with
  | [] => r
  | segment :: rest =>
    if bool_decide (segment = #".") then resolve rest r
    else if bool_decide (segment = #"..") then
      resolve rest (take (length r.1 - 1) r.1, false)
    else if is_empty segment then resolve rest (r.1, nonempty r.1)
    else resolve rest (r.1 ++ [segment], false)
  end.

(** The words of a path buffer: non-empty, without separator. *)
Definition word (w : str) : Prop := w ≠ [] ∧ (slash ∉ w).

Definition rendered (r : list str * bool) : Prop :=
  Forall word r.1 ∧ (r.2 = true → r.1 ≠ []).

Lemma word_snoc w : word w → ∃ v c, w = v ++ [c] ∧ (c ≠ slash) ∧ (slash ∉ v).
Proof.
  intros [Hw Hs]. destruct (exists_last Hw) as (v & c & ->).
  exists v, c. set_solver.
Qed.

Lemma word_cons w : word w → ∃ c v, w = c :: v ∧ (c ≠ slash) ∧ (slash ∉ v).
Proof. intros [Hw Hs]. destruct w as [|c v]; [done|]. exists c, v. set_solver. Qed.

Lemma join_words_head ws : Forall word ws → starts_with [slash] (join slash ws) = false.
Proof.
  destruct 1 as [|w ws Hw Hws]; [done|]. apply word_cons in Hw as (c & v & -> & Hc & _).
  unfold starts_with. destruct ws; simpl; by rewrite decide_False.
Qed.

(** The last byte of rendered words. *)
Lemma join_words_last ws w :
  word w → ∃ u c, join slash (ws ++ [w]) = u ++ [c] ∧ c ≠ slash.
Proof.
  intros (v & c & -> & Hc & _)%word_snoc. destruct ws as [|x ws].
  - by exists v, c.
  - exists (join slash (x :: ws) ++ slash :: v), c. rewrite join_snoc by done.
    by rewrite <-app_assoc.
Qed.

Lemma join_words_nil ws : Forall word ws → join slash ws = [] → ws = [].
Proof.
  intros Hws Hj. destruct ws as [|w ws] using rev_ind; [done|].
  apply Forall_app in Hws as [_ Hw]. inversion_clear Hw as [|?? Hw' _].
  destruct (join_words_last ws w Hw') as (u & c & Hu & _). rewrite Hu in Hj. by destruct u.
Qed.

Lemma render_head r : rendered r → starts_with [slash] (render r) = false.
Proof.
  intros [Hw Ht]. destruct r as [ws t]. unfold render. cbn [fst snd] in *.
  destruct ws as [|w ws]; [destruct t; [by destruct Ht|done]|].
  pose proof (join_words_nil _ Hw) as Hne. apply join_words_head in Hw. revert Hw.
  destruct (join slash (w :: ws)) as [|c u]; [by specialize (Hne eq_refl)|].
  unfold starts_with. simpl. by case_decide.
Qed.

(** Pushing a word, or the empty string. *)
Lemma push_render r w :
  rendered r → word w → pathbuf_push (render r) w = render (r.1 ++ [w], false).
Proof.
  intros [Hws Ht] Hw. destruct r as [ws t]. unfold pathbuf_push, render. cbn [fst snd] in *.
  destruct (word_cons w Hw) as (c & v & Hwc & Hc & _).
  replace (starts_with [slash] w) with false
    by (subst w; unfold starts_with; simpl; by rewrite decide_False).
  rewrite app_nil_r. destruct ws as [|x ws].
  - destruct t; [by destruct Ht|done].
  - rewrite join_snoc by done. destruct t.
    + rewrite ends_with_snoc, bool_decide_true, orb_true_r by done. by rewrite <-app_assoc.
    + rewrite app_nil_r. destruct (is_empty _) eqn:E.
      { by apply is_empty_true, join_words_nil in E. }
      destruct (exists_last (l:=x :: ws)) as (ws' & y & Hy); [done|]. rewrite Hy in Hws |- *.
      apply Forall_app in Hws as [_ Hyw]. inversion_clear Hyw as [|?? Hyw' _].
      destruct (join_words_last ws' y Hyw') as (u & d & -> & Hd).
      by rewrite ends_with_snoc, bool_decide_false.
Qed.

Lemma push_render_nil r :
  rendered r → pathbuf_push (render r) [] = render (r.1, nonempty r.1).
Proof.
  intros [Hws Ht]. destruct r as [ws t]. unfold pathbuf_push, render. cbn [fst snd] in *.
  change (starts_with [slash] []) with false. cbv iota.
  destruct ws as [|x ws]; [destruct t; [by destruct Ht|done]|]. cbn [nonempty is_empty negb].
  destruct t.
  - by rewrite ends_with_snoc, bool_decide_true, orb_true_r, app_nil_r.
  - rewrite app_nil_r. destruct (is_empty _) eqn:E.
    { by apply is_empty_true, join_words_nil in E. }
    destruct (exists_last (l:=x :: ws)) as (ws' & y & Hy); [done|]. rewrite Hy in Hws |- *.
    apply Forall_app in Hws as [_ Hyw]. inversion_clear Hyw as [|?? Hyw' _].
    destruct (join_words_last ws' y Hyw') as (u & d & -> & Hd).
    by rewrite ends_with_snoc, bool_decide_false.
Qed.

Lemma is_slash_true c : is_slash c = true ↔ c = slash.
Proof. apply bool_decide_eq_true. Qed.

Lemma span_word w v :
  (slash ∉ w) → (∀ c, head v = Some c → c = slash) →
  span (λ c, negb (is_slash c)) (reverse w ++ v) = (reverse w, v).
Proof.
  intros Hw Hv. apply span_all.
  - apply Forall_forall. intros c Hc%elem_of_reverse. apply negb_true_iff, bool_decide_eq_false.
    set_solver.
  - intros c Hc. by rewrite (proj2 (is_slash_true c)) by auto.
Qed.

Lemma pop_render r :
  rendered r → pathbuf_pop (render r) = render (take (length r.1 - 1) r.1, false).
Proof.
  intros [Hws Ht]. destruct r as [ws t]. unfold pathbuf_pop, render. cbn [fst snd] in *.
  destruct ws as [|w ws _] using rev_ind; [destruct t; [by destruct Ht|done]|].
  rewrite length_app, Nat.add_sub, take_app_length, app_nil_r.
  apply Forall_app in Hws as [Hws Hw]. inversion_clear Hw as [|?? Hw' _].
  destruct (word_snoc w Hw') as (v & c & Hwv & Hc & _).
  set (rest := match ws with [] => [] | _ => slash :: reverse (join slash ws) end).
  assert (reverse (join slash (ws ++ [w])) = reverse w ++ rest) as Hrev.
  { unfold rest. destruct ws; [by rewrite app_nil_r|].
    rewrite join_snoc, reverse_app, reverse_cons by done. by rewrite <-app_assoc. }
  rewrite reverse_app, Hrev.
  assert (span is_slash (reverse (if t then [slash] else []) ++ reverse w ++ rest)
          = (reverse (if t then [slash] else []), reverse w ++ rest)) as ->.
  { apply span_all; [destruct t; repeat constructor|].
    rewrite Hwv, reverse_snoc. intros d [= <-]. by apply bool_decide_eq_false. }
  cbn [snd]. rewrite span_word; [|apply Hw'|unfold rest; destruct ws; simpl; naive_solver].
  replace (is_empty (reverse w ++ rest)) with false
    by (by rewrite Hwv, reverse_snoc).
  cbn [snd]. unfold rest. destruct ws as [|x ws].
  - simpl. replace (starts_with _ _) with false; [done|]. symmetry.
    destruct (word_cons w Hw') as (d & u & -> & Hd & _). unfold starts_with. simpl.
    by rewrite decide_False.
  - destruct (exists_last (l:=x :: ws)) as (ws' & y & Hy); [done|]. rewrite Hy in Hws |- *.
    apply Forall_app in Hws as [_ Hyw]. inversion_clear Hyw as [|?? Hyw' _].
    destruct (join_words_last ws' y Hyw') as (u & d & -> & Hd).
    pose proof (span_all is_slash [slash] (reverse (u ++ [d]))) as Hsp.
    cbn [app] in Hsp. rewrite Hsp; [|by repeat constructor|].
    + rewrite reverse_snoc. cbn [snd]. by rewrite reverse_cons, reverse_involutive.
    + rewrite reverse_snoc. intros ? [= <-]. by apply bool_decide_eq_false.
Qed.

Lemma rendered_take n r : rendered r → rendered (take n r.1, false).
Proof. intros [Hw _]. split; [by apply Forall_take|done]. Qed.

(** A segment [to_path_buf] does not reject contains no separator. *)
Lemma segment_error_word allow segment :
  segment_error allow segment = None → (slash ∉ segment).
Proof. unfold segment_error. repeat case_match; try done. intros _. by eapply bool_decide_eq_false_1. Qed.

Definition acceptable (allow_dotfiles : bool) (segment : str) : Prop :=
  segment = #"." ∨ segment = #".." ∨ segment_error allow_dotfiles segment = None.

Lemma path_buf_loop_resolve allow segments r :
  rendered r → Forall (acceptable allow) segments →
  path_buf_loop allow segments (render r) = inr (render (resolve segments r)) ∧
  rendered (resolve segments r).
Proof.
  intros Hr Hs. revert r Hr. induction Hs as [|s segments Hs _ IH]; intros r Hr; [done|].
  cbn [path_buf_loop resolve]. case_bool_decide as H1; [by apply IH|].
  case_bool_decide as H2; [rewrite pop_render by done; by apply IH, rendered_take|].
  destruct Hs as [?|[?|Hs]]; [done..|]. rewrite Hs. apply segment_error_word in Hs.
  destruct (is_empty s) eqn:He.
  - apply is_empty_true in He as ->. rewrite push_render_nil by done.
    apply IH. split; [apply Hr|]. by destruct r.1.
  - apply is_empty_false in He. rewrite push_render by done. apply IH. split; [|done].
    apply Forall_app. split; [apply Hr|by repeat constructor].
Qed.

Lemma path_buf_loop_error allow segments buf :
  ¬ Forall (acceptable allow) segments → ∃ e, path_buf_loop allow segments buf = inl e.
Proof.
  revert buf. induction segments as [|s segments IH]; intros buf Hn; [by destruct Hn|].
  cbn [path_buf_loop]. rewrite Forall_cons in Hn. unfold acceptable at 1 in Hn.
  case_bool_decide; [apply IH; naive_solver|]. case_bool_decide; [apply IH; naive_solver|].
  destruct (segment_error allow s) eqn:E; [by eexists|]. apply IH. naive_solver.
Qed.

(** Every word of the result is a segment that passed the checks. *)
Lemma resolve_Forall allow (segments : list str) r :
  Forall (acceptable allow) segments →
  Forall (λ w, w ≠ #"." ∧ w ≠ #".." ∧ segment_error allow w = None) r.1 →
  Forall (λ w, w ≠ #"." ∧ w ≠ #".." ∧ segment_error allow w = None) (resolve segments r).1.
Proof.
  intros Hs. revert r. induction Hs as [|s segments Hs _ IH]; intros r Hr; [done|].
  cbn [resolve]. case_bool_decide as H1; [by apply IH|].
  case_bool_decide as H2; [by apply IH, Forall_take|].
  destruct Hs as [?|[?|Hs]]; [done..|].
  destruct (is_empty s) eqn:He; apply IH; [done|]. apply Forall_app. by repeat constructor.
Qed.


(** Normalization at a concrete origin. *)
Section witness.
Import Reference.

Example into_normalized_witness :
  is_normalized (into_normalized (Origin_new (#"//a//b/") (Some (#"x&&y")))) = true ∧
  to_string (into_normalized (Origin_new (#"//a//b/") (Some (#"x&&y")))) = #"/a/b/?x&y".
Proof.
  split; [|by vm_compute].
  assert (Origin_valid (Origin_new (#"//a//b/") (Some (#"x&&y")))) as Hv
    by (split_and!; [done|by repeat constructor|by intros q [= <-]; repeat constructor]).
  exact (proj1 (into_normalized_correct _ Hv)).
Defined.
End witness.
