(* ===== verification/UriForms.v ===== *)
(** * UriForms: the other forms of URIs
    (core/http/src/parse/uri/parser.rs, uri/authority.rs, absolute.rs,
    reference.rs, host.rs, uri.rs)

    Authorities, absolute URIs, references and hosts, their grammar over the
    primitives of [pear], how they print and what normalizes them.  The parts
    of a URI are the strings its [IndexedStr]s denote; the content of a parse
    error is not modelled. *)

From S2P Require Import Prelude Crates RawStr UriTables Uri.

(** ** More primitives of pear *)

(** [take_some_while] demands a byte, [take_n_while] takes at most [n];
    [enclosed] takes what is between two delimiters with them, and may demand
    that it is not empty; [span] is the text from the start of an extent to the
    end of a later one, [between] being what is between them. *)
Class PearUri := {
  pear_take_some_while : (ascii → bool) → str → option (str * str);
  pear_take_n_while : nat → (ascii → bool) → str → str * str;
  pear_eat_slice : str → str → option str;
  pear_peek_slice : str → str → bool;
  pear_enclosed : ascii → (ascii → bool) → ascii → str → option (str * str);
  pear_enclosed_empty : bool;
  pear_span : str → str → str → option str;
}.

(** The first [n] bytes at most of the longest prefix with the property. *)
Fixpoint span_n (n : nat) (p : ascii → bool) (s : str) : str * str :=
  match n, s with
  | S n, c :: s' => if p c then let '(u, v) := span_n n p s' in (c :: u, v) else ([], s)
  | _, _ => ([], s)
  end.

Class PearUriLaws `{PearUri} : Prop := {
  pear_take_some_while_spec p s :
    pear_take_some_while p s = let '(u, v) := span p s in if is_empty u then None else Some (u, v);
  pear_take_n_while_spec n p s : pear_take_n_while n p s = span_n n p s;
  pear_eat_slice_spec w s : pear_eat_slice w s = strip_prefix w s;
  pear_peek_slice_spec w s : pear_peek_slice w s = starts_with w s;
  pear_enclosed_spec a p b s :
    pear_enclosed a p b s =
      match strip_prefix [a] s with
      | None => None
      | Some s =>
        let '(u, v) := span p s in
        match strip_prefix [b] v with
        | Some v => if is_empty u && negb pear_enclosed_empty then None else Some (a :: u ++ [b], v)
        | None => None
        end
      end;
  pear_span_spec u v w : u ++ v ++ w ≠ [] → pear_span u v w = Some (u ++ v ++ w);
  pear_span_nil : default [] (pear_span [] [] []) = [];
}.

#[export] Hint Rewrite @pear_take_some_while_spec @pear_take_n_while_spec @pear_eat_slice_spec
  @pear_peek_slice_spec @pear_enclosed_spec using typeclasses eauto : crates.

Module PearUriReference.
#[export] Instance pear_uri_ref : PearUri := {|
  pear_take_some_while p s := let '(u, v) := span p s in if is_empty u then None else Some (u, v);
  pear_take_n_while := span_n;
  pear_eat_slice := strip_prefix;
  pear_peek_slice := starts_with;
  pear_enclosed a p b s :=
    match strip_prefix [a] s with
    | None => None
    | Some s =>
      let '(u, v) := span p s in
      match strip_prefix [b] v with
      | Some v => if is_empty u && negb false then None else Some (a :: u ++ [b], v)
      | None => None
      end
    end;
  pear_enclosed_empty := false;
  pear_span u v w := Some (u ++ v ++ w) |}.
#[export] Instance pear_uri_laws : PearUriLaws.
Proof. by split. Qed.
End PearUriReference.

(** ** The forms *)

Record Authority := Authority_new { user_info : option str; host : str; port : option Z }.

Record Absolute := Absolute_new {
  scheme : str;
  authority : option Authority;
  abs_path : str;
  abs_query : option str;
}.

Record Reference := Reference_new {
  ref_scheme : option str;
  ref_authority : option Authority;
  ref_path : str;
  ref_query : option str;
  fragment : option str;
}.

(** [struct Asterisk], [struct Host], [enum Uri]. *)
Inductive Asterisk := Asterisk_new.

Record Host := Host_new { host_authority : Authority }.

Inductive Uri :=
  | UriAsterisk (a : Asterisk)
  | UriOrigin (o : Origin)
  | UriAuthority (a : Authority)
  | UriAbsolute (a : Absolute)
  | UriReference (r : Reference).

#[export] Instance Authority_eq_dec : EqDecision Authority.
Proof. solve_decision. Defined.
#[export] Instance Absolute_eq_dec : EqDecision Absolute.
Proof. solve_decision. Defined.
#[export] Instance Reference_eq_dec : EqDecision Reference.
Proof. solve_decision. Defined.

(** ** The grammar *)
Section parser.
Context `{Pear} `{PearUri}.

(** [maybe_port]: [None] is an error; the places of the decimal digits, from
    the last one. *)
Definition u16_max : Z := 65535.

Definition port_number (bytes : str) : Z :=
  foldl (λ port_num '(b, i), (port_num + (Z.of_nat (nat_of_ascii b) - 48) * i)%Z) 0%Z
    (zip (reverse bytes) [1; 10; 100; 1000; 10000]%Z).

Definition maybe_port (bytes : str) : option (option Z) :=
  if is_empty bytes then Some None
  else if (5 <? length bytes)%nat then None
  else if negb (forallb is_digit bytes) then None
  else if (u16_max <? port_number bytes)%Z then None
  else Some (Some (port_number bytes)).

(** [port]. *)
Definition parse_port (input : str) : option (option Z * str) :=
  match pear_eat ":" input with
  | None => Some (None, input)
  | Some input =>
    let '(bytes, input) := pear_take_n_while 5 is_digit input in
    p ← maybe_port bytes; Some (p, input)
  end.

(** [host]. *)
Definition parse_host (input : str) : option (str * str) :=
  if pear_peek "[" input then pear_enclosed "[" is_host_char "]" input
  else Some (pear_take_while is_reg_name_char input).

(** [host()?, port()?] after a user info. *)
Definition parse_host_port (user_info : option str) (input : str) : option (Authority * str) :=
  '(h, input) ← parse_host input;
  '(p, input) ← parse_port input;
  Some (Authority_new user_info h p, input).

(** [authority]; the text between the extents of a [span] is the colon and
    what follows it. *)
Definition parse_authority (input : str) : option (Authority * str) :=
  let '(prefix, input) := pear_take_while is_reg_name_char input in
  if pear_peek "[" input && is_empty prefix then parse_host_port None input
  else
    match pear_eat ":" input with
    | Some input =>
      let '(suffix, input) := pear_take_while is_reg_name_char input in
      if pear_peek ":" input then
        let '(rest, input) := pear_take_while is_user_info_char input in
        input ← pear_eat "@" input;
        parse_host_port (pear_span prefix (":"%char :: suffix) rest) input
      else
        match pear_eat "@" input with
        | Some input => parse_host_port (pear_span prefix [":"%char] suffix) input
        | None => p ← maybe_port suffix; Some (Authority_new None prefix p, input)
        end
    | None =>
      match pear_eat "@" input with
      | Some input => parse_host_port (Some prefix) input
      | None => Some (Authority_new None prefix None, input)
      end
    end.

(** [b.is_ascii_alphabetic()] of the first byte, if any. *)
Definition is_alphabetic (c : ascii) : bool := bool_decide (c ∈ ALPHA).

Definition alphabetic_first (s : str) : bool := from_option is_alphabetic false (head s).

(** [scheme]. *)
Definition parse_scheme (input : str) : option (str * str) :=
  '(scheme, input) ← pear_take_some_while is_scheme_char input;
  if negb (alphabetic_first scheme) then None else Some (scheme, input).

(** [hier_part]. *)
Definition parse_hier_part (input : str) : option ((option Authority * str) * str) :=
  match pear_eat_slice (#"//") input with
  | Some input =>
    '(authority, input) ← parse_authority input;
    if pear_peek "/" input then
      let '(path, input) := parse_path input in Some ((Some authority, path), input)
    else Some ((Some authority, []), input)
  | None => let '(path, input) := parse_path input in Some ((None, path), input)
  end.

(** [absolute]. *)
Definition parse_absolute (input : str) : option (Absolute * str) :=
  '(scheme, input) ← parse_scheme input;
  input ← pear_eat ":" input;
  '((authority, path), input) ← parse_hier_part input;
  let '(query, input) := parse_query input in
  Some (Absolute_new scheme authority path query, input).

(** [fragment]. *)
Definition parse_fragment (input : str) : option str * str :=
  match pear_eat "#" input with
  | Some input => let '(f, input) := pear_take_while is_qchar input in (Some f, input)
  | None => (None, input)
  end.

(** The scheme, authority and path of [reference]. *)
Definition parse_reference_start (input : str)
  : option ((option str * option Authority * str) * str) :=
  let '(prefix, input) := pear_take_while is_scheme_char input in
  if pear_peek ":" input && is_empty prefix then None
  else
    match pear_eat ":" input with
    | Some input =>
      if negb (alphabetic_first prefix) then None
      else '((authority, path), input) ← parse_hier_part input;
           Some ((Some prefix, authority, path), input)
    | None =>
      if pear_peek_slice (#"//") input && is_empty prefix then
        '((authority, path), input) ← parse_hier_part input;
        Some ((None, authority, path), input)
      else
        let '(path, input) := parse_path input in
        Some ((None, None, default [] (pear_span prefix [] path)), input)
    end.

(** [reference]. *)
Definition parse_reference (input : str) : option (Reference * str) :=
  '((scheme, authority, path), input) ← parse_reference_start input;
  let '(query, input) := parse_query input in
  let '(fragment, input) := parse_fragment input in
  Some (Reference_new scheme authority path query fragment, input).

(** [asterisk]. *)
Definition parse_asterisk (input : str) : option (Asterisk * str) :=
  input ← pear_eat "*" input; Some (Asterisk_new, input).

(** [complete], and [parse!], which demands the end of the input too. *)
Definition complete {A} (p : str → option (A * str)) (input : str) : option A :=
  match p input with
  | Some (a, input) => if pear_eof input then Some a else None
  | None => None
  end.

(** [uri], with the end of the input. *)
Definition from_str (input : str) : option Uri :=
  match complete parse_asterisk input with
  | Some a => Some (UriAsterisk a)
  | None =>
    match complete parse_origin input with
    | Some (p, q) => Some (UriOrigin (Origin_new p q))
    | None =>
      match complete parse_authority input with
      | Some a => Some (UriAuthority a)
      | None =>
        match complete parse_absolute input with
        | Some a => Some (UriAbsolute a)
        | None => UriReference <$> complete parse_reference input
        end
      end
    end
  end.

(** The functions of parse/uri/mod.rs. *)
Definition authority_from_str : str → option Authority := complete parse_authority.
Definition absolute_from_str : str → option Absolute := complete parse_absolute.
Definition reference_from_str : str → option Reference := complete parse_reference.
Definition asterisk_from_str : str → option Asterisk := complete parse_asterisk.
Definition scheme_from_str (s : str) : option str := const s <$> complete parse_scheme s.
End parser.

(** ** Printing *)

(** [impl Display for Authority], [Absolute], [Reference], [Host], [Uri]. *)
Definition authority_to_string (self : Authority) : str :=
  match user_info self with Some u => u ++ [ "@"%char] | None => [] end ++
  host self ++
  match port self with Some p => ":"%char :: decimal_text (Z.to_nat p) | None => [] end.

Definition query_suffix (q : option str) : str :=
  match q with Some q => "?"%char :: q | None => [] end.

Definition authority_prefix (a : option Authority) : str :=
  match a with Some a => #"//" ++ authority_to_string a | None => [] end.

Definition absolute_to_string (self : Absolute) : str :=
  scheme self ++ ":"%char :: authority_prefix (authority self) ++ abs_path self ++
  query_suffix (abs_query self).

Definition reference_to_string (self : Reference) : str :=
  match ref_scheme self with Some s => s ++ [ ":"%char] | None => [] end ++
  authority_prefix (ref_authority self) ++ ref_path self ++ query_suffix (ref_query self) ++
  match fragment self with Some f => "#"%char :: f | None => [] end.

Definition host_to_string (self : Host) : str :=
  host (host_authority self) ++
  match port (host_authority self) with Some p => ":"%char :: decimal_text (Z.to_nat p) | None => [] end.

Definition uri_to_string (self : Uri) : str :=
  match self with
  | UriOrigin o => to_string o
  | UriAuthority a => authority_to_string a
  | UriAbsolute a => absolute_to_string a
  | UriReference r => reference_to_string r
  | UriAsterisk _ => #"*"
  end.

(** ** What the parsers accept *)

Definition valid_host `{PearUri} (h : str) : Prop :=
  Forall (λ c, is_reg_name_char c = true) h ∨
  ∃ u, h = "["%char :: u ++ [ "]"%char] ∧ Forall (λ c, is_host_char c = true) u ∧
    (is_empty u && negb pear_enclosed_empty = false).

Definition valid_port (p : option Z) : Prop := from_option (λ p, 0 ≤ p ≤ u16_max)%Z True p.

Definition valid_authority `{PearUri} (a : Authority) : Prop :=
  from_option (Forall (λ c, is_user_info_char c = true)) True (user_info a) ∧
  valid_host (host a) ∧ valid_port (port a).

(** What follows an authority: the end, a path, a query or a fragment. *)
Definition stops (r : str) : Prop := ∀ c, head r = Some c → c ∈ ["/"; "?"; "#"]%char.

(** Facts about the tables, decided for every byte. *)
Ltac table f := intros c Hc; pose proof (forall_bytes f eq_refl c) as Ht; cbn beta in Ht;
  rewrite Hc in Ht; simpl in Ht; try done.

Lemma reg_name_user_info c : is_reg_name_char c = true → is_user_info_char c = true.
Proof. revert c. table (λ c, implb (is_reg_name_char c) (is_user_info_char c)). Qed.

Lemma user_info_colon c : is_user_info_char c = true → is_reg_name_char c = false → c = ":"%char.
Proof.
  intros Hu Hr. pose proof (forall_bytes (λ c, implb (is_user_info_char c && negb (is_reg_name_char c))
    (bool_decide (c = ":"%char))) eq_refl c) as Ht. cbn beta in Ht. rewrite Hu, Hr in Ht. simpl in Ht.
  by apply bool_decide_eq_true in Ht.
Qed.

Lemma stops_not_reg r c : stops r → head r = Some c → is_reg_name_char c = false.
Proof.
  intros Hs Hc. specialize (Hs c Hc).
  rewrite !elem_of_cons, elem_of_nil in Hs. destruct Hs as [->|[->|[->|[]]]]; done.
Qed.

Lemma digit_reg_name c : is_digit c = true → is_reg_name_char c = true.
Proof. revert c. table (λ c, implb (is_digit c) (is_reg_name_char c)). Qed.

Lemma scheme_reg_name c : is_scheme_char c = true → is_reg_name_char c = true.
Proof. revert c. table (λ c, implb (is_scheme_char c) (is_reg_name_char c)). Qed.

Lemma scheme_pchar c : is_scheme_char c = true → is_pchar c = true.
Proof. revert c. table (λ c, implb (is_scheme_char c) (is_pchar c)). Qed.

(** ** Ports *)

Lemma port_number_digits s z :
  length s ≤ 5 → parse_digits 99999 0 s = Some z → port_number s = z ∧ forallb is_digit s = true.
Proof.
  intros Hl. destruct s as [|a [|b [|c [|d [|e [|]]]]]]; simpl in Hl; try lia; clear Hl;
    unfold port_number; cbn [parse_digits forallb]; intros Hp;
    repeat (case_match; [|done]); injection Hp as <-; (split; [cbn [reverse rev_append zip_with foldl]; simpl; lia|done]).
Qed.

Lemma maybe_port_decimal p :
  (0 ≤ p ≤ u16_max)%Z → maybe_port (decimal_text (Z.to_nat p)) = Some (Some p).
Proof.
  intros Hp. unfold u16_max in Hp. set (n := Z.to_nat p).
  assert (length (decimal_text n) ≤ 5) as Hl.
  { apply decimal_text_length; [lia|]. apply Nat2Z.inj_lt. rewrite Nat2Z.inj_pow.
    change (Z.of_nat 10 ^ Z.of_nat 5)%Z with 100000%Z. lia. }
  destruct (port_number_digits (decimal_text n) p Hl) as [Hn Hd].
  { rewrite parse_decimal_text by lia. f_equal. lia. }
  unfold maybe_port. rewrite Hn, Hd. destruct (decimal_text n) eqn:E; [by destruct (decimal_text_ne n)|].
  cbn [is_empty negb]. destruct (Nat.ltb_spec 5 (length (a :: l))); [lia|].
  destruct (Z.ltb_spec u16_max p); [unfold u16_max in *; lia|done].
Qed.

(** Ports are sixteen bits wide, and never overflow on the way. *)
Lemma maybe_port_range bytes p : maybe_port bytes = Some p → valid_port p.
Proof.
  unfold maybe_port. destruct (is_empty bytes); [by intros [= <-]|].
  destruct (Nat.ltb_spec 5 (length bytes)) as [|Hl]; [done|].
  destruct (forallb is_digit bytes) eqn:Hd; [|done]. simpl.
  destruct (Z.ltb_spec u16_max (port_number bytes)) as [|Hm]; [done|]. intros [= <-]. simpl.
  split; [|done]. clear Hm. revert Hd. unfold is_digit.
  destruct bytes as [|a [|b [|c [|d [|e [|]]]]]]; simpl in Hl; try lia; clear Hl;
    cbn [forallb]; rewrite ?andb_true_iff, ?Nat.leb_le; intros;
    unfold port_number; cbn [reverse rev_append zip_with foldl]; simpl; lia.
Qed.

Section laws.
Context `{PearLaws} `{PearUriLaws}.

Lemma strip_head c s r : strip_prefix [c] s = Some r ↔ s = c :: r.
Proof. rewrite strip_prefix_Some. done. Qed.

Lemma strip_head_ne c s : (∀ d, head s = Some d → d ≠ c) → strip_prefix [c] s = None.
Proof. intros Hs. destruct s as [|d s]; [done|]. simpl. by rewrite decide_False by (symmetry; by apply Hs). Qed.

Lemma peek_head_ne c s : (∀ d, head s = Some d → d ≠ c) → starts_with [c] s = false.
Proof. intros Hs. unfold starts_with. by rewrite strip_head_ne. Qed.

Lemma span_stop p v : (∀ c, head v = Some c → p c = false) → span p v = ([], v).
Proof. intros Hv. by apply (span_all p []). Qed.

(** *** Ports and hosts *)

Definition port_text (p : option Z) : str :=
  match p with Some p => ":"%char :: decimal_text (Z.to_nat p) | None => [] end.

Lemma span_n_all n p u v :
  length u ≤ n → Forall (λ c, p c = true) u → (∀ c, head v = Some c → p c = false) →
  span_n n p (u ++ v) = (u, v).
Proof.
  intros Hl Hu Hv. revert n Hl. induction Hu as [|c u Hc _ IH]; intros n Hl; simpl in *.
  - destruct n, v as [|c v]; try done. simpl. by rewrite Hv.
  - destruct n; [lia|]. simpl. by rewrite Hc, IH by lia.
Qed.

Lemma parse_port_text p r :
  valid_port p → stops r → parse_port (port_text p ++ r) = Some (p, r).
Proof.
  intros Hp Hr. unfold parse_port. destruct p as [p|]; simpl.
  - autorewrite with crates. simpl. autorewrite with crates. unfold valid_port in Hp. simpl in Hp.
    rewrite span_n_all; [by rewrite maybe_port_decimal| |apply decimal_text_digits|].
    + apply decimal_text_length; [lia|]. apply Nat2Z.inj_lt. rewrite Nat2Z.inj_pow.
      change (Z.of_nat 10 ^ Z.of_nat 5)%Z with 100000%Z. unfold u16_max in Hp. lia.
    + intros c Hc. pose proof (stops_not_reg r c Hr Hc) as Hn.
      destruct (is_digit c) eqn:Hd; [|done]. by rewrite digit_reg_name in Hn.
  - autorewrite with crates. rewrite strip_head_ne; [done|].
    intros d Hd ->. specialize (Hr _ Hd). set_solver.
Qed.

Lemma valid_host_text h r :
  valid_host h → (∀ c, head r = Some c → is_reg_name_char c = false ∧ c ≠ "["%char) →
  parse_host (h ++ r) = Some (h, r).
Proof.
  intros Hh Hr. unfold parse_host. autorewrite with crates.
  destruct Hh as [Hh|(u & -> & Hu & He)].
  - rewrite peek_head_ne.
    + rewrite span_all; [done|done|]. intros c Hc. by apply Hr.
    + destruct Hh as [|c h Hc _]; simpl; [naive_solver|]. intros ? [= <-] ->. done.
  - cbn [app]. autorewrite with crates. simpl. rewrite <-app_assoc.
    rewrite span_all; [|done|by intros ? [= <-]]. simpl. by rewrite He.
Qed.

Lemma parse_host_port_text u h p r :
  valid_host h → valid_port p → stops r →
  parse_host_port u (h ++ port_text p ++ r) = Some (Authority_new u h p, r).
Proof.
  intros Hh Hp Hr. unfold parse_host_port. rewrite valid_host_text; [|done|].
  - simpl. by rewrite parse_port_text.
  - intros c Hc. destruct p as [p|]; simpl in Hc; [by injection Hc as <-|].
    split; [by eapply stops_not_reg|]. intros ->. specialize (Hr _ Hc). set_solver.
Qed.

(** *** Authorities *)

Lemma authority_text_None h p r :
  valid_host h → valid_port p → stops r →
  parse_authority (h ++ port_text p ++ r) = Some (Authority_new None h p, r).
Proof.
  intros Hh Hp Hr. unfold parse_authority. autorewrite with crates.
  destruct Hh as [Hh|(u & -> & Hu & He)].
  - rewrite span_all; [|done|].
    2:{ intros c Hc. destruct p as [p|]; simpl in Hc; [by injection Hc as <-|by eapply stops_not_reg]. }
    autorewrite with crates. rewrite (peek_head_ne "[") by
      (destruct p; simpl; [by intros ? [= <-]|intros d Hd ->; specialize (Hr _ Hd); set_solver]).
    cbn [andb]. destruct p as [p|]; cbn [port_text app].
    + unfold valid_port in Hp. simpl in Hp. cbn [strip_prefix]. rewrite decide_True by done.
      autorewrite with crates.
      rewrite span_all; [|eapply Forall_impl; [apply decimal_text_digits|apply digit_reg_name]|
                        intros c Hc; by eapply stops_not_reg].
      autorewrite with crates. rewrite peek_head_ne, strip_head_ne.
      * by rewrite maybe_port_decimal.
      * intros d Hd ->; specialize (Hr _ Hd); set_solver.
      * intros d Hd ->; specialize (Hr _ Hd); set_solver.
    + rewrite strip_head_ne by (intros d Hd ->; specialize (Hr _ Hd); set_solver).
      autorewrite with crates.
      rewrite strip_head_ne by (intros d Hd ->; specialize (Hr _ Hd); set_solver). done.
  - cbn [app]. rewrite span_stop by (by intros ? [= <-]). autorewrite with crates.
    unfold starts_with. cbn [strip_prefix]. rewrite decide_True by done. cbn [is_empty andb].
    apply (parse_host_port_text None ("["%char :: u ++ [ "]"%char])); [right; by exists u|done|done].
Qed.

Lemma authority_text_Some u h p r :
  Forall (λ c, is_user_info_char c = true) u → valid_host h → valid_port p → stops r →
  parse_authority (u ++ "@"%char :: h ++ port_text p ++ r) = Some (Authority_new (Some u) h p, r).
Proof.
  intros Hu Hh Hp Hr. unfold parse_authority. autorewrite with crates.
  set (rest := h ++ port_text p ++ r).
  assert (∀ u, Forall (λ c, is_user_info_char c = true) u →
    ∃ a b, u = a ++ b ∧ span is_reg_name_char (u ++ "@"%char :: rest) = (a, b ++ "@"%char :: rest) ∧
      (b = [] ∨ ∃ b', b = ":"%char :: b')) as Hsplit.
  { clear u Hu. intros u Hu. destruct (span is_reg_name_char u) as [a b] eqn:Hs.
    apply span_spec in Hs as (-> & Ha & Hb). exists a, b. split; [done|].
    assert (b = [] ∨ ∃ b', b = ":"%char :: b') as Hbc.
    { destruct b as [|c b]; [by left|]. right. exists b. f_equal.
      apply Forall_app in Hu as [_ Hu]. inversion_clear Hu. apply user_info_colon; [done|by apply Hb]. }
    split; [|done]. rewrite <-app_assoc. apply span_all; [done|].
    destruct Hbc as [->|[b' ->]]; by intros ? [= <-]. }
  destruct (Hsplit u Hu) as (a & b & -> & -> & Hb). autorewrite with crates.
  destruct Hb as [->|[b' ->]].
  - cbn [app]. rewrite (peek_head_ne "[") by (by intros ? [= <-]). cbn [andb].
    rewrite strip_head_ne by (by intros ? [= <-]). autorewrite with crates. simpl.
    rewrite app_nil_r. by apply parse_host_port_text.
  - cbn [app]. rewrite (peek_head_ne "[") by (by intros ? [= <-]). cbn [andb strip_prefix].
    rewrite decide_True by done. autorewrite with crates.
    apply Forall_app in Hu as [_ Hu]. inversion_clear Hu as [|? ? _ Hu'].
    destruct (Hsplit b' Hu') as (c & d & -> & -> & Hd). autorewrite with crates.
    destruct Hd as [->|[d' ->]].
    + cbn [app]. rewrite peek_head_ne by (by intros ? [= <-]). autorewrite with crates. simpl.
      rewrite pear_span_spec by (by destruct a). rewrite app_nil_r. by apply parse_host_port_text.
    + cbn [app]. unfold starts_with at 1. cbn [strip_prefix]. rewrite decide_True by done.
      autorewrite with crates. apply Forall_app in Hu' as [_ Hu'].
      rewrite app_comm_cons, (span_all _ (":"%char :: d')) by (done || by intros ? [= <-]).
      autorewrite with crates. simpl. rewrite pear_span_spec by (by destruct a).
      rewrite <-app_comm_cons. by apply parse_host_port_text.
Qed.

Lemma authority_text a r :
  valid_authority a → stops r → parse_authority (authority_to_string a ++ r) = Some (a, r).
Proof.
  destruct a as [[u|] h p]; intros (Hu & Hh & Hp) Hr; unfold authority_to_string; simpl in *;
    rewrite <-!app_assoc.
  - cbn [app]. by apply authority_text_Some.
  - by apply authority_text_None.
Qed.

Lemma span_default u v w : default [] (pear_span u v w) = u ++ v ++ w ∨ u ++ v ++ w = [].
Proof.
  destruct (decide (u ++ v ++ w = [])) as [|Hn]; [by right|]. left. by rewrite pear_span_spec.
Qed.

Lemma parse_host_valid s h r : parse_host s = Some (h, r) → valid_host h.
Proof.
  unfold parse_host. autorewrite with crates. destruct (starts_with _ s).
  - destruct (strip_prefix ["["%char] s) as [s'|]; [|done].
    destruct (span is_host_char s') as [u v] eqn:Hs. apply span_spec in Hs as (_ & Hu & _).
    destruct (strip_prefix ["]"%char] v); [|done].
    destruct (is_empty u && negb pear_enclosed_empty) eqn:He; [done|]. intros [= <- <-].
    right. by exists u.
  - destruct (span is_reg_name_char s) as [u v] eqn:Hs. apply span_spec in Hs as (_ & Hu & _).
    intros [= <- <-]. by left.
Qed.

Lemma parse_port_valid s p r : parse_port s = Some (p, r) → valid_port p.
Proof.
  unfold parse_port. autorewrite with crates. destruct (strip_prefix [":"%char] s) as [s'|].
  - destruct (pear_take_n_while 5 is_digit s') as [b s2].
    intros (p' & Hp & [= <- <-])%bind_Some. by eapply maybe_port_range.
  - by intros [= <- <-].
Qed.

Lemma parse_host_port_valid u s a r :
  from_option (Forall (λ c, is_user_info_char c = true)) True u →
  parse_host_port u s = Some (a, r) → valid_authority a.
Proof.
  intros Hu. unfold parse_host_port.
  intros ([h s1] & Hh%parse_host_valid & ([p s2] & Hp%parse_port_valid & [= <- <-])%bind_Some)%bind_Some.
  done.
Qed.

Lemma reg_names_user_info u :
  Forall (λ c, is_reg_name_char c = true) u → Forall (λ c, is_user_info_char c = true) u.
Proof. intros Hu. eapply Forall_impl; [done|]. apply reg_name_user_info. Qed.

(** The parser yields valid authorities only. *)
Lemma parse_authority_valid s a r : parse_authority s = Some (a, r) → valid_authority a.
Proof.
  unfold parse_authority. autorewrite with crates.
  destruct (span is_reg_name_char s) as [prefix s1] eqn:Hs. apply span_spec in Hs as (_ & Hpre & _).
  autorewrite with crates. destruct (starts_with ["["%char] s1 && is_empty prefix).
  { by apply parse_host_port_valid. }
  pose proof (reg_names_user_info _ Hpre) as Hpre'.
  destruct (strip_prefix [":"%char] s1) as [s2|].
  - autorewrite with crates. destruct (span is_reg_name_char s2) as [suffix s3] eqn:Hs2.
    apply span_spec in Hs2 as (_ & Hsuf & _). pose proof (reg_names_user_info _ Hsuf) as Hsuf'.
    autorewrite with crates. destruct (starts_with [":"%char] s3).
    + autorewrite with crates. destruct (span is_user_info_char s3) as [rest s4] eqn:Hs3.
      apply span_spec in Hs3 as (_ & Hrest & _). autorewrite with crates.
      intros (s5 & _ & Hp)%bind_Some. eapply parse_host_port_valid; [|exact Hp].
      rewrite pear_span_spec by (by destruct prefix). simpl.
      apply Forall_app_2; [done|]. constructor; [done|]. by apply Forall_app_2.
    + destruct (strip_prefix ["@"%char] s3) as [s4|].
      * apply parse_host_port_valid. rewrite pear_span_spec by (by destruct prefix). simpl.
        apply Forall_app_2; [done|]. by constructor.
      * intros (p & Hp%maybe_port_range & [= <- <-])%bind_Some. split_and!; [done|by left|done].
  - destruct (strip_prefix ["@"%char] s1) as [s2|]; [by apply parse_host_port_valid|].
    intros [= <- <-]. split_and!; [done|by left|done].
Qed.

(** *** Absolute URIs and references *)

Definition pchars (p : str) : Prop := Forall (λ c, is_pchar c = true) p.

Definition valid_suffix (q : option str) : Prop :=
  from_option (Forall (λ c, is_qchar c = true)) True q.

Definition valid_scheme (s : str) : Prop :=
  Forall (λ c, is_scheme_char c = true) s ∧ alphabetic_first s = true.

(** With an authority the path is empty or absolute; without, it does not look
    like one. *)
Definition valid_hier (a : option Authority) (p : str) : Prop :=
  pchars p ∧
  match a with
  | Some a => valid_authority a ∧ (p = [] ∨ starts_with [slash] p = true)
  | None => starts_with (#"//") p = false
  end.

Definition valid_absolute (a : Absolute) : Prop :=
  valid_scheme (scheme a) ∧ valid_hier (authority a) (abs_path a) ∧ valid_suffix (abs_query a).

(** Without scheme and authority, the path does not begin with a scheme. *)
Definition valid_reference (r : Reference) : Prop :=
  from_option valid_scheme True (ref_scheme r) ∧ valid_hier (ref_authority r) (ref_path r) ∧
  valid_suffix (ref_query r) ∧ valid_suffix (fragment r) ∧
  (ref_scheme r = None → ref_authority r = None →
   head (span is_scheme_char (ref_path r)).2 ≠ Some ":"%char).

(** What follows a path: the end, a query or a fragment. *)
Definition path_stops (r : str) : Prop := ∀ c, head r = Some c → c ∈ ["?"; "#"]%char.

Lemma path_stops_stops r : path_stops r → stops r.
Proof. intros Hr c Hc%Hr. set_solver. Qed.

Lemma path_stops_not_pchar r c : path_stops r → head r = Some c → is_pchar c = false.
Proof.
  intros Hr Hc%Hr. rewrite !elem_of_cons, elem_of_nil in Hc. destruct Hc as [->|[->|[]]]; done.
Qed.

Lemma parse_path_text p r : pchars p → path_stops r → parse_path (p ++ r) = (p, r).
Proof.
  intros Hp Hr. unfold parse_path. autorewrite with crates. apply span_all; [done|].
  intros c Hc. by eapply path_stops_not_pchar.
Qed.

Lemma hier_text a p r :
  valid_hier a p → path_stops r →
  parse_hier_part (authority_prefix a ++ p ++ r) = Some ((a, p), r).
Proof.
  intros [Hp Ha] Hr. unfold parse_hier_part. autorewrite with crates. destruct a as [a|].
  - destruct Ha as [Ha Hs]. unfold authority_prefix. rewrite <-app_assoc, strip_prefix_app.
    rewrite authority_text; [|done|].
    + cbn [mbind option_bind]. autorewrite with crates. destruct Hs as [->|Hs].
      * cbn [app]. rewrite peek_head_ne; [done|]. intros d Hd ->. specialize (Hr _ Hd). set_solver.
      * rewrite starts_with_app_l by done. by rewrite parse_path_text.
    + destruct Hs as [->|Hs]; [by apply path_stops_stops|].
      apply starts_with_spec in Hs as [p' ->]. intros c [= <-]. set_solver.
  - cbn [authority_prefix app]. destruct (strip_prefix (#"//") (p ++ r)) as [t|] eqn:Hs.
    + exfalso. apply strip_prefix_Some in Hs. apply not_true_iff_false in Ha. apply Ha.
      apply starts_with_spec. destruct p as [|c [|d p]]; simpl in Hs.
      * subst r. specialize (Hr "/"%char eq_refl). set_solver.
      * injection Hs as -> ->. specialize (Hr "/"%char eq_refl). set_solver.
      * injection Hs as -> -> _. by exists p.
    + by rewrite parse_path_text.
Qed.

Lemma query_text q r :
  valid_suffix q → (∀ c, head r = Some c → c = "#"%char) →
  parse_query (query_suffix q ++ r) = (q, r).
Proof.
  intros Hq Hr. unfold parse_query. autorewrite with crates. destruct q as [q|]; cbn [query_suffix app].
  - cbn [strip_prefix]. rewrite decide_True by done. autorewrite with crates.
    rewrite span_all; [done|done|]. by intros c ->%Hr.
  - rewrite strip_head_ne; [done|]. by intros d ->%Hr.
Qed.

Lemma query_suffix_stops q r : path_stops r → path_stops (query_suffix q ++ r).
Proof. destruct q as [q|]; [|done]. intros _ c [= <-]. set_solver. Qed.

Lemma absolute_text a : valid_absolute a → absolute_from_str (absolute_to_string a) = Some a.
Proof.
  destruct a as [s a p q]. intros ([Hs Halpha] & Hh & Hq). cbn [scheme authority abs_path abs_query] in *.
  unfold absolute_from_str, complete, parse_absolute, parse_scheme, absolute_to_string.
  cbn [scheme authority abs_path abs_query]. autorewrite with crates.
  rewrite span_all by (done || by intros ? [= <-]).
  destruct s as [|c s]; [done|]. cbn [is_empty mbind option_bind]. rewrite Halpha. cbn [negb].
  cbn [mbind option_bind]. autorewrite with crates. cbn [strip_prefix]. rewrite decide_True by done. cbn [mbind option_bind].
  rewrite <-(app_nil_r (query_suffix q)), hier_text by (done || by apply query_suffix_stops).
  cbn [mbind option_bind]. rewrite query_text by done. by rewrite pear_eof_spec.
Qed.

Lemma parse_hier_part_valid s a p r : parse_hier_part s = Some ((a, p), r) → valid_hier a p.
Proof.
  unfold parse_hier_part, parse_path. autorewrite with crates.
  destruct (strip_prefix (#"//") s) as [s1|] eqn:Hs.
  - intros ([a' s2] & Ha%parse_authority_valid & Hp)%bind_Some. revert Hp. autorewrite with crates.
    destruct (starts_with ["/"%char] s2) eqn:Hs2.
    + destruct (span is_pchar s2) as [u v] eqn:Hu. apply span_spec in Hu as (-> & Hu & Hv).
      intros [= <- <- <-]. split; [done|]. split; [done|]. right.
      destruct u as [|c u]; [|by apply starts_with_spec in Hs2 as [? [= -> _]]].
      apply starts_with_spec in Hs2 as [t Ht]. simpl in Ht. subst v. by specialize (Hv _ eq_refl).
    + intros [= <- <- <-]. split; [by constructor|]. split; [done|by left].
  - destruct (span is_pchar s) as [u v] eqn:Hu. apply span_spec in Hu as (-> & Hu & Hv).
    intros [= <- <- <-]. split; [done|]. destruct (starts_with (#"//") u) eqn:E; [|done].
    apply starts_with_spec in E as [t ->]. rewrite <-app_assoc in Hs. by rewrite strip_prefix_app in Hs.
Qed.

Lemma parse_query_valid s q r : parse_query s = (q, r) → valid_suffix q.
Proof.
  unfold parse_query. autorewrite with crates. destruct (strip_prefix ["?"%char] s) as [s'|].
  - autorewrite with crates. destruct (span is_qchar s') as [u v] eqn:Hu.
    apply span_spec in Hu as (_ & Hu & _). by intros [= <- <-].
  - by intros [= <- <-].
Qed.

Lemma parse_fragment_valid s q r : parse_fragment s = (q, r) → valid_suffix q.
Proof.
  unfold parse_fragment. autorewrite with crates. destruct (strip_prefix ["#"%char] s) as [s'|].
  - autorewrite with crates. destruct (span is_qchar s') as [u v] eqn:Hu.
    apply span_spec in Hu as (_ & Hu & _). by intros [= <- <-].
  - by intros [= <- <-].
Qed.

Lemma complete_Some {A} (p : str → option (A * str)) s a :
  complete p s = Some a → p s = Some (a, []).
Proof.
  unfold complete. destruct (p s) as [[a' r]|]; [|done]. rewrite pear_eof_spec.
  destruct r; [|done]. by intros [= <-].
Qed.

Lemma absolute_valid s a : absolute_from_str s = Some a → valid_absolute a.
Proof.
  intros Ha%complete_Some. unfold parse_absolute, parse_scheme in Ha. autorewrite with crates in Ha.
  apply bind_Some in Ha as ([sc s1] & Hs & Ha). apply bind_Some in Hs as ([sc' s1'] & Hsp & Hs).
  destruct (span is_scheme_char s) as [u v] eqn:Hu. apply span_spec in Hu as (_ & Hu & _).
  destruct (is_empty u); [done|]. injection Hsp as <- <-.
  destruct (alphabetic_first u) eqn:Halpha; [|done]. injection Hs as <- <-.
  apply bind_Some in Ha as (s2 & _ & Ha).
  apply bind_Some in Ha as ([[a' p] s3] & Hh%parse_hier_part_valid & Ha).
  destruct (parse_query s3) as [q s4] eqn:Hq. apply parse_query_valid in Hq.
  injection Ha as <- _. done.
Qed.

Lemma fragment_text f :
  valid_suffix f →
  parse_fragment (match f with Some f => "#"%char :: f | None => [] end) = (f, []).
Proof.
  intros Hf. unfold parse_fragment. autorewrite with crates. destruct f as [f|]; [|done].
  cbn [strip_prefix]. rewrite decide_True by done. autorewrite with crates.
  rewrite <-(app_nil_r f) at 1. by rewrite span_all.
Qed.

(** The start of a reference, by its parts. *)
Lemma reference_start_scheme s a p r :
  valid_scheme s → valid_hier a p → path_stops r →
  parse_reference_start (s ++ ":"%char :: authority_prefix a ++ p ++ r) = Some ((Some s, a, p), r).
Proof.
  intros [Hs Halpha] Hh Hr. unfold parse_reference_start. autorewrite with crates.
  rewrite span_all by (done || by intros ? [= <-]). autorewrite with crates.
  destruct s as [|c s]; [done|]. rewrite andb_false_r. cbn [strip_prefix].
  rewrite decide_True by done. rewrite Halpha. cbn [negb]. by rewrite hier_text.
Qed.

Lemma reference_start_authority a p r :
  valid_hier (Some a) p → path_stops r →
  parse_reference_start (authority_prefix (Some a) ++ p ++ r) = Some ((None, Some a, p), r).
Proof.
  intros Hh Hr. unfold parse_reference_start. autorewrite with crates.
  rewrite span_stop by (unfold authority_prefix; by intros ? [= <-]).
  autorewrite with crates. rewrite peek_head_ne, strip_head_ne by (unfold authority_prefix; by intros ? [= <-]).
  cbn [andb]. autorewrite with crates. unfold authority_prefix at 1. rewrite <-app_assoc.
  unfold starts_with. rewrite strip_prefix_app. cbn [is_empty andb]. by rewrite hier_text.
Qed.

Lemma reference_start_path p r :
  valid_hier None p → head (span is_scheme_char p).2 ≠ Some ":"%char → path_stops r →
  parse_reference_start (p ++ r) = Some ((None, None, p), r).
Proof.
  intros [Hp Hd] Hc Hr. unfold parse_reference_start. autorewrite with crates.
  destruct (span is_scheme_char p) as [u v] eqn:Hu. apply span_spec in Hu as (-> & Hu & Hv).
  cbn [snd] in Hc. apply Forall_app in Hp as [_ Hp].
  assert (∀ d, head (v ++ r) = Some d → d ≠ ":"%char ∧ is_scheme_char d = false) as Hvr.
  { intros d Hd'. destruct v as [|x v]; simpl in Hd'.
    - pose proof (path_stops_not_pchar r d Hr Hd') as Hn. split; [|].
      + intros ->. specialize (Hr _ Hd'). set_solver.
      + destruct (is_scheme_char d) eqn:E; [|done]. by rewrite scheme_pchar in Hn.
    - injection Hd' as <-. split; [by intros ->; destruct Hc|by apply Hv]. }
  rewrite <-app_assoc, span_all by (done || (intros d Hd'; by apply Hvr)).
  autorewrite with crates.
  rewrite peek_head_ne, strip_head_ne by (intros d Hd'; by apply Hvr).
  cbn [andb]. autorewrite with crates.
  assert (starts_with (#"//") (v ++ r) && is_empty u = false) as ->.
  { destruct u as [|c u]; [|by rewrite andb_false_r]. rewrite andb_true_r. cbn [app] in Hd.
    destruct (starts_with (#"//") (v ++ r)) eqn:E; [|done].
    apply starts_with_spec in E as [t Ht]. destruct v as [|x [|y v]]; simpl in Ht.
    - subst r. specialize (Hr "/"%char eq_refl). set_solver.
    - injection Ht as -> ->. specialize (Hr "/"%char eq_refl). set_solver.
    - injection Ht as -> -> _. rewrite <-Hd. symmetry. apply starts_with_spec. by exists v. }
  rewrite parse_path_text by done. do 3 f_equal.
  destruct (span_default u [] v) as [->|Hn]; [done|]. simpl in Hn.
  apply app_nil in Hn as [-> ->]. by rewrite pear_span_nil.
Qed.

Lemma reference_text r : valid_reference r → reference_from_str (reference_to_string r) = Some r.
Proof.
  destruct r as [s a p q f]. intros (Hs & Hh & Hq & Hf & Hn).
  cbn [ref_scheme ref_authority ref_path ref_query fragment] in *.
  unfold reference_from_str, complete, parse_reference, reference_to_string.
  cbn [ref_scheme ref_authority ref_path ref_query fragment].
  set (ft := match f with Some f => "#"%char :: f | None => [] end).
  assert (path_stops (query_suffix q ++ ft)) as Hst.
  { apply query_suffix_stops. unfold ft. destruct f; [intros c [= <-]; set_solver|done]. }
  assert (parse_reference_start (match s with Some s => s ++ [ ":"%char] | None => [] end ++
    authority_prefix a ++ p ++ query_suffix q ++ ft) = Some ((s, a, p), query_suffix q ++ ft)) as ->.
  { destruct s as [s|]; [rewrite <-app_assoc; by apply reference_start_scheme|]. cbn [app].
    destruct a as [a|]; [by apply reference_start_authority|].
    cbn [authority_prefix app]. apply reference_start_path; [done|by apply Hn|done]. }
  cbn [mbind option_bind]. rewrite query_text; [|done|unfold ft; by destruct f; [intros ? [= <-]|]].
  unfold ft. rewrite fragment_text by done. by rewrite pear_eof_spec.
Qed.

Lemma reference_start_valid s sc a p r :
  parse_reference_start s = Some ((sc, a, p), r) →
  from_option valid_scheme True sc ∧ valid_hier a p ∧
  (sc = None → a = None → head (span is_scheme_char p).2 ≠ Some ":"%char).
Proof.
  unfold parse_reference_start. autorewrite with crates.
  destruct (span is_scheme_char s) as [u v] eqn:Hu. apply span_spec in Hu as (-> & Hu & Hv).
  autorewrite with crates.
  destruct (starts_with [":"%char] v && is_empty u); [done|].
  destruct (strip_prefix [":"%char] v) as [s1|] eqn:Hs.
  - destruct (alphabetic_first u) eqn:Halpha; [|done]. cbn [negb].
    intros ([[a' p'] s2] & Hh%parse_hier_part_valid & [= <- <- <- <-])%bind_Some. done.
  - destruct (starts_with (#"//") v && is_empty u) eqn:Hsl.
    + intros ([[a' p'] s2] & Hh & [= <- <- <- <-])%bind_Some.
      split; [done|]. split; [by eapply parse_hier_part_valid|]. intros _ ->.
      unfold parse_hier_part in Hh. autorewrite with crates in Hh.
      apply andb_true_iff in Hsl as [Hsl _]. unfold starts_with in Hsl.
      destruct (strip_prefix (#"//") v); [|done]. apply bind_Some in Hh as ([a1 s3] & _ & Hh).
      repeat case_match; done.
    + unfold parse_path. autorewrite with crates.
      destruct (span is_pchar v) as [w t] eqn:Hw. apply span_spec in Hw as (-> & Hw & Ht).
      intros [= <- <- <- <-]. split; [done|].
      assert (default [] (pear_span u [] w) = u ++ w) as ->.
      { destruct (span_default u [] w) as [->|Hn]; [done|]. simpl in Hn.
        apply app_nil in Hn as [-> ->]. by rewrite pear_span_nil. }
      split; [split|intros _ _].
      * apply Forall_app_2; [|done]. eapply Forall_impl; [done|]. apply scheme_pchar.
      * destruct u as [|c u].
        2:{ destruct (starts_with (#"//") ((c :: u) ++ w)) eqn:E; [|done].
            apply starts_with_spec in E as [t' Ht']. injection Ht' as -> _. by inversion_clear Hu. }
        cbn [app].
        rewrite andb_true_r in Hsl. destruct (starts_with (#"//") w) eqn:E; [|done].
        by rewrite starts_with_app_l in Hsl.
      * rewrite span_all; [|done|].
        -- destruct w as [|c w]; [done|]. cbn [snd head]. intros [= ->]. cbn [app strip_prefix] in Hs. by rewrite decide_True in Hs.
        -- intros c Hc. apply Hv. by destruct w.
Qed.

Lemma reference_valid s r : reference_from_str s = Some r → valid_reference r.
Proof.
  intros Hr%complete_Some. unfold parse_reference in Hr.
  apply bind_Some in Hr as ([[[sc a] p] s1] & (Hs & Hh & Hn)%reference_start_valid & Hr).
  destruct (parse_query s1) as [q s2] eqn:Hq. apply parse_query_valid in Hq.
  destruct (parse_fragment s2) as [f s3] eqn:Hf. apply parse_fragment_valid in Hf.
  by injection Hr as <- _.
Qed.

(** C22: printing and parsing the forms of URIs.  Every authority, absolute URI
    or reference the parsers yield prints to a string they parse to the same
    parts, so that the printed form is a normal form of the text; and its port
    is a sixteen-bit number. *)
Theorem uri_forms_roundtrip s :
  (∀ a, authority_from_str s = Some a →
    authority_from_str (authority_to_string a) = Some a ∧ valid_port (port a)) ∧
  (∀ a, absolute_from_str s = Some a →
    absolute_from_str (absolute_to_string a) = Some a ∧
    ∀ b, authority a = Some b → authority_from_str (authority_to_string b) = Some b) ∧
  (∀ r, reference_from_str s = Some r →
    reference_from_str (reference_to_string r) = Some r).
Proof.
  assert (∀ a, valid_authority a → authority_from_str (authority_to_string a) = Some a) as Hau.
  { intros a Ha. unfold authority_from_str, complete.
    rewrite <-(app_nil_r (authority_to_string a)), authority_text by done. by rewrite pear_eof_spec. }
  split_and!.
  - intros a Ha%complete_Some%parse_authority_valid. split; [by apply Hau|apply Ha].
  - intros a Ha%absolute_valid. split; [by apply absolute_text|]. intros b Hb. apply Hau.
    destruct Ha as (_ & [_ Ha] & _). rewrite Hb in Ha. apply Ha.
  - intros r Hr%reference_valid. by apply reference_text.
Qed.
End laws.

(** ** Operations on the forms *)
Section operations.
Context `{StablePattern} `{Memchr} `{PercentEncoding} `{Uncased} `{Pear} `{PearUri}.

(** [Authority::set_port]. *)
Definition set_port (p : option Z) (self : Authority) : Authority :=
  Authority_new (user_info self) (host self) p.

(** [Absolute::set_authority], [with_authority], [set_path], [set_query],
    [clear_query]. *)
Definition set_authority (a : Authority) (self : Absolute) : Absolute :=
  Absolute_new (scheme self) (Some a) (abs_path self) (abs_query self).
Definition with_authority (a : Authority) (self : Absolute) : Absolute := set_authority a self.
Definition absolute_set_path (p : str) (self : Absolute) : Absolute :=
  Absolute_new (scheme self) (authority self) p (abs_query self).
Definition absolute_set_query (q : option str) (self : Absolute) : Absolute :=
  Absolute_new (scheme self) (authority self) (abs_path self) q.
Definition absolute_clear_query (self : Absolute) : Absolute := absolute_set_query None self.

(** The path and query in [Absolute::is_normalized], [normalize] and those of
    [Reference]: with an authority a path that is not empty is absolute. *)
Definition hier_is_normalized (a : option Authority) (p : str) (q : option str) : bool :=
  let normalized_query := match q with Some q => query_is_normalized q | None => true end in
  if bool_decide (a ≠ None) && negb (is_empty p) then path_is_normalized true p && normalized_query
  else path_is_normalized false p && normalized_query.

Definition hier_path_normalize (a : option Authority) (p : str) : str :=
  if bool_decide (a ≠ None) && negb (is_empty p) then
    if negb (path_is_normalized true p) then path_to_normalized true true p else p
  else if negb (path_is_normalized false p) then path_to_normalized false true p
  else p.

Definition query_normalize (q : option str) : option str :=
  match q with
  | Some q => if negb (query_is_normalized q) then Some (query_to_normalized q) else Some q
  | None => None
  end.

Definition absolute_is_normalized (self : Absolute) : bool :=
  hier_is_normalized (authority self) (abs_path self) (abs_query self).

Definition absolute_normalize (self : Absolute) : Absolute :=
  Absolute_new (scheme self) (authority self) (hier_path_normalize (authority self) (abs_path self))
    (query_normalize (abs_query self)).

Definition reference_is_normalized (self : Reference) : bool :=
  hier_is_normalized (ref_authority self) (ref_path self) (ref_query self).

Definition reference_normalize (self : Reference) : Reference :=
  Reference_new (ref_scheme self) (ref_authority self)
    (hier_path_normalize (ref_authority self) (ref_path self))
    (query_normalize (ref_query self)) (fragment self).

(** [Reference::with_query_fragment_of], for parts that are not indices into
    the source of [other]. *)
Definition with_query_fragment_of (other self : Reference) : Reference :=
  Reference_new (ref_scheme self) (ref_authority self) (ref_path self)
    (match ref_query self with Some q => Some q | None => ref_query other end)
    (match fragment self with Some f => Some f | None => fragment other end).

(** [impl From<Absolute> for Reference], [From<Origin>], [From<Authority>],
    [From<Asterisk>]. *)
Definition reference_of_absolute (a : Absolute) : Reference :=
  Reference_new (Some (scheme a)) (authority a) (abs_path a) (abs_query a) None.
Definition reference_of_origin (o : Origin) : Reference :=
  Reference_new None None (path o) (query o) None.
Definition reference_of_authority (a : Authority) : Reference :=
  Reference_new None (Some a) [] None None.
Definition reference_of_asterisk (_ : Asterisk) : Reference :=
  Reference_new None None (#"*") None None.

(** [TryFrom<Uri>] for the forms, and the methods of [Uri] that borrow them. *)
Definition uri_origin (u : Uri) : option Origin := match u with UriOrigin o => Some o | _ => None end.
Definition uri_authority (u : Uri) : option Authority :=
  match u with UriAuthority a => Some a | _ => None end.
Definition uri_absolute (u : Uri) : option Absolute :=
  match u with UriAbsolute a => Some a | _ => None end.
Definition uri_reference (u : Uri) : option Reference :=
  match u with UriReference r => Some r | _ => None end.

(** ** Hosts *)

(** [Host::parse_bytes], [domain], [port]; equality compares the domain
    without regard to case, and the port. *)
Definition host_parse (s : str) : option Host := Host_new <$> authority_from_str s.
Definition domain (self : Host) : str := host (host_authority self).
Definition host_port (self : Host) : option Z := port (host_authority self).
Definition host_eq (a b : Host) : bool :=
  uncased_eq (domain a) (domain b) && bool_decide (host_port a = host_port b).

(** [Host::to_authority]: only a host of the whitelist, without user info. *)
Definition to_authority (whitelist : list Host) (self : Host) : option Authority :=
  if existsb (λ h, host_eq h self) whitelist then
    Some (Authority_new None (host (host_authority self)) (port (host_authority self)))
  else None.

(** [Host::to_absolute]. *)
Definition to_absolute (scheme : str) (whitelist : list Host) (self : Host) : option Absolute :=
  scheme ← scheme_from_str scheme;
  authority ← to_authority whitelist self;
  Some (Absolute_new scheme (Some authority) [] None).
End operations.

Section operation_laws.
Context `{UncasedLaws} `{PearLaws} `{PearUriLaws}.

Lemma scheme_from_str_Some s t : scheme_from_str s = Some t ↔ t = s ∧ valid_scheme s.
Proof.
  unfold scheme_from_str. split.
  - intros (u & Hu%complete_Some & ->)%fmap_Some. split; [done|]. unfold parse_scheme in Hu.
    apply bind_Some in Hu as ([v r] & Hv & Hu). autorewrite with crates in Hv.
    destruct (span is_scheme_char s) as [x y] eqn:Hs. apply span_spec in Hs as (-> & Hx & _).
    destruct (is_empty x); [done|]. injection Hv as <- <-.
    destruct (alphabetic_first x) eqn:Ha; [|done]. injection Hu as <- ->. rewrite app_nil_r. done.
  - intros [-> [Hs Ha]]. apply fmap_Some. exists s. split; [|done]. unfold complete, parse_scheme.
    autorewrite with crates. pose proof (span_all is_scheme_char s []) as Hsp.
    rewrite app_nil_r in Hsp. rewrite Hsp by done. destruct s as [|c s]; [done|].
    cbn [is_empty mbind option_bind]. rewrite Ha. cbn. by rewrite pear_eof_spec.
Qed.

(** A URI made from the host of a request is made from a host the
    application allows: there is one exactly when the scheme is valid and some
    allowed host has the same domain, whatever its case, and the same port; it
    has no user info, path or query, and the URI parses to itself when the host
    was parsed. *)
Theorem to_absolute_whitelisted (sch : str) (whitelist : list Host) (self : Host) :
  (∀ u, to_absolute sch whitelist self = Some u ↔
    valid_scheme sch ∧
    (∃ h, h ∈ whitelist ∧ to_lower <$> domain h = to_lower <$> domain self ∧
          host_port h = host_port self) ∧
    u = Absolute_new sch (Some (Authority_new None (domain self) (host_port self))) [] None) ∧
  (∀ u s, host_parse s = Some self → to_absolute sch whitelist self = Some u →
    absolute_from_str (absolute_to_string u) = Some u).
Proof.
  assert (∀ u, to_absolute sch whitelist self = Some u ↔ valid_scheme sch ∧
    (∃ h, h ∈ whitelist ∧ to_lower <$> domain h = to_lower <$> domain self ∧
          host_port h = host_port self) ∧
    u = Absolute_new sch (Some (Authority_new None (domain self) (host_port self))) [] None) as Hu.
  { intros u. unfold to_absolute. rewrite bind_Some. setoid_rewrite scheme_from_str_Some.
    setoid_rewrite bind_Some. unfold to_authority.
    assert (existsb (λ h, host_eq h self) whitelist = true ↔
      ∃ h, h ∈ whitelist ∧ to_lower <$> domain h = to_lower <$> domain self ∧
           host_port h = host_port self) as Hex.
    { rewrite existsb_exists. setoid_rewrite list_elem_of_In. unfold host_eq.
      setoid_rewrite andb_true_iff. setoid_rewrite uncased_eq_true.
      by setoid_rewrite bool_decide_eq_true. }
    rewrite <-Hex. destruct (existsb _ whitelist); split.
    - intros (s & [-> Hs] & a & [= <-] & [= <-]). done.
    - intros (Hs & _ & ->). eauto 10.
    - intros (s & [-> Hs] & a & [=] & _).
    - intros (_ & [=] & _). }
  split; [done|]. intros u s (a & Ha%complete_Some%parse_authority_valid & ->)%fmap_Some (Hs & _ & ->)%Hu.
  apply absolute_text. destruct Ha as (_ & Hh & Hp).
  split; [done|]. split; [|done]. split; [constructor|]. split; [by split_and!|by left].
Qed.
End operation_laws.

Section witness.
Import PearReference PearUriReference Reference.

Example uri_forms_witness :
  authority_from_str (#"u:p@[1::]:0080") = Some (Authority_new (Some (#"u:p")) (#"[1::]") (Some 80%Z)) ∧
  authority_from_str (authority_to_string (Authority_new (Some (#"u:p")) (#"[1::]") (Some 80%Z))) =
    Some (Authority_new (Some (#"u:p")) (#"[1::]") (Some 80%Z)) ∧
  authority_from_str (#"a:65536") = None.
Proof.
  split; [by vm_compute|]. split; [|by vm_compute].
  by apply (uri_forms_roundtrip (#"u:p@[1::]:0080")); vm_compute.
Defined.

(** A host that is not allowed yields no URI; one that is loses its user. *)
Example to_absolute_witness :
  to_absolute (#"http") [Host_new (Authority_new None (#"rocket.rs") None)]
    (Host_new (Authority_new (Some (#"evil")) (#"Rocket.rs") None)) =
    Some (Absolute_new (#"http") (Some (Authority_new None (#"Rocket.rs") None)) [] None) ∧
  to_absolute (#"http") [Host_new (Authority_new None (#"rocket.rs") None)]
    (Host_new (Authority_new None (#"rocket.rs.evil") None)) = None.
Proof.
  split; [|by vm_compute].
  apply (to_absolute_whitelisted (#"http") [Host_new (Authority_new None (#"rocket.rs") None)]
    (Host_new (Authority_new (Some (#"evil")) (#"Rocket.rs") None))).
  split; [by repeat constructor|]. split; [|done].
  eexists. split; [by apply list_elem_of_here|]. by vm_compute.
Defined.
End witness.
