(* ===== verification/Indexed.v ===== *)
(** * Indexed: strings as indices into a source
    (core/http/src/parse/indexed.rs, with the representation of
    uri/path_query.rs, uri/origin.rs and uri/reference.rs)

    A parsed URI holds the string it was parsed from, and its path and query
    are pairs of indices into it; its decoded segments are cached, each as
    indices into the path or query when decoding changed nothing, found from
    the addresses of the slices, or else as a string of its own.  [Uri]
    and [UriForms] model the strings these denote.  Here they are modelled as
    they are represented, and proved to denote the same: indexing does not
    panic, the assertions hold, and the cache is never stale.

    A slice is an address with its bytes.  The address of a new allocation is
    given by [malloc], of which nothing is assumed, and [dangling] is the
    address of the empty string [percent_encoding] returns. [None] is a
    panic. *)

From S2P Require Import Prelude Crates RawStr UriTables Uri UriForms.

(** ** Slices *)

Record Slice := slice_at { addr : nat; text : str }.

(** [&s[i..j]], which panics out of bounds. *)
Definition index (i j : nat) (s : Slice) : option Slice :=
  if (i <=? j)%nat && (j <=? length (text s))%nat
  then Some (slice_at (addr s + i) (take (j - i) (drop i (text s)))) else None.

(** The rest of a slice that is the given suffix or prefix of its bytes. *)
Definition suffix_at (s : Slice) (t : str) : Slice :=
  slice_at (addr s + (length (text s) - length t)) t.
Definition prefix_at (s : Slice) (t : str) : Slice := slice_at (addr s) t.

(** [str::trim]. *)
Definition trim_at (s : Slice) : Slice :=
  let s' := suffix_at s (trim_start (text s)) in
  prefix_at s' (trim_end (text s')).

(** The pieces of a split: each begins after the delimiter that ends the one
    before. *)
Fixpoint pieces (a : nat) (ws : list str) : list Slice :=
  match ws with
  | [] => []
  | w :: ws => slice_at a w :: pieces (a + length w + 1) ws
  end.

(** [Cow<'_, str>]: a borrowed slice or an allocation of its own. *)
Inductive SliceCow := SBorrowed (s : Slice) | SOwned (s : Slice).

Definition deref (c : SliceCow) : Slice := match c with SBorrowed s | SOwned s => s end.

(** [Extent]: where in the input the taken bytes begin and end, [input] being
    what is left of the input [s] before they are taken. *)
Definition extent (s input taken : str) : nat * nat :=
  let start := (length s - length input)%nat in (start, start + length taken)%nat.

(** ** Indexed *)

(** [enum Indexed]. *)
Inductive Indexed := IIndexed (a b : nat) | IConcrete (c : SliceCow).

(** [impl From<Extent> for Indexed], [impl From<Cow> for Indexed]. *)
Definition from_extent (e : nat * nat) : Indexed := IIndexed e.1 e.2.
Definition from_cow (c : SliceCow) : Indexed := IConcrete c.

(** [Indexed::indices]. *)
Definition indices (self : Indexed) : option (nat * nat) :=
  match self with IIndexed a b => Some (a, b) | _ => None end.

(** [Indexed::coerce], [Indexed::coerce_lifetime]. *)
Definition coerce (self : Indexed) : option Indexed :=
  match self with IIndexed a b => Some (IIndexed a b) | _ => None end.

(** [impl Add for Indexed]. *)
Definition add (self other : Indexed) : option Indexed :=
  match self with
  | IIndexed a b =>
    match other with
    | IIndexed c d => if bool_decide (b = c) && (a <? d)%nat then Some (IIndexed a d) else None
    | _ => None
    end
  | _ => None
  end.

(** [Indexed::checked_from]. *)
Definition checked_from (needle haystack : Slice) : option Indexed :=
  if (addr needle <? addr haystack)%nat then None
  else
    let needle_end := (addr needle + length (text needle))%nat in
    let haystack_end := (addr haystack + length (text haystack))%nat in
    if (haystack_end <? needle_end)%nat then None
    else
      let start := (addr needle - addr haystack)%nat in
      Some (IIndexed start (start + length (text needle))).

(** [Indexed::unchecked_from]; the subtraction overflows when the slice
    begins before the haystack. *)
Definition unchecked_from (needle haystack : Slice) : option Indexed :=
  if (addr needle <? addr haystack)%nat then None
  else
    let start := (addr needle - addr haystack)%nat in
    Some (IIndexed start (start + length (text needle))).

(** [Indexed::is_indexed]. *)
Definition is_indexed (self : Indexed) : bool :=
  match self with IIndexed _ _ => true | IConcrete _ => false end.

(** [impl Length for Indexed], [Indexed::is_empty]. *)
Definition indexed_len (self : Indexed) : nat :=
  match self with IIndexed a b => b - a | IConcrete c => length (text (deref c)) end.

Definition indexed_is_empty (self : Indexed) : bool := (indexed_len self =? 0)%nat.

(** [Option::is_none]. *)
Definition is_none {A} (o : option A) : bool := match o with Some _ => false | None => true end.

(** [Indexed::from_source]. *)
Definition from_source (self : Indexed) (source : option Slice) : option Slice :=
  if is_indexed self && is_none source then None
  else match self with
       | IIndexed i j => s ← source; index i j s
       | IConcrete c => Some (deref c)
       end.

(** [Indexed::from_cow_source]. *)
Definition from_cow_source (self : Indexed) (source : option SliceCow) : option Slice :=
  if is_indexed self && is_none source then None
  else match self with
       | IIndexed i j => s ← source; index i j (deref s)
       | IConcrete c => Some (deref c)
       end.

Section allocation.
Context (malloc : str → nat).

(** [str::to_owned], [Cow::into_owned], [Cow::clone]: a copy at a new address,
    where one is made. *)
Definition allocate (t : str) : Slice := slice_at (malloc t) t.
Definition cow_into_owned (c : SliceCow) : SliceCow :=
  match c with SBorrowed s => SOwned (allocate (text s)) | SOwned s => SOwned s end.
Definition cow_clone (c : SliceCow) : SliceCow :=
  match c with SBorrowed s => SBorrowed s | SOwned s => SOwned (allocate (text s)) end.

(** [Indexed::into_owned], [impl Clone for Indexed]. *)
Definition indexed_into_owned (self : Indexed) : Indexed :=
  match self with IIndexed a b => IIndexed a b | IConcrete c => IConcrete (cow_into_owned c) end.
Definition indexed_clone (self : Indexed) : Indexed :=
  match self with IIndexed a b => IIndexed a b | IConcrete c => IConcrete (cow_clone c) end.

(** [Indexed::into_concrete]. *)
Definition into_concrete (self : Indexed) (source : option SliceCow) : option SliceCow :=
  if is_indexed self && is_none source then None
  else match self with
       | IIndexed i j => s ← source; SOwned ∘ allocate ∘ text <$> index i j (deref s)
       | IConcrete c => Some c
       end.
End allocation.

(** ** Data, paths and queries *)

(** [struct Data]: [R] is [P::Raw]; the [InitCell] is empty or holds the
    decoded segments. *)
Record Data (R : Type) := Data_at { value : Indexed; decoded_segments : option (list R) }.
Arguments Data_at {R}.
Arguments value {R}.
Arguments decoded_segments {R}.

(** [Data::raw], [Data::new]. *)
Definition data_raw {R} (e : nat * nat) : Data R := Data_at (from_extent e) None.
Definition data_new {R} (c : SliceCow) : Data R := Data_at (from_cow c) None.

(** [InitCell::get_or_init]: the content, and the cell afterwards. *)
Definition get_or_init {A} (cell init : option A) : option (A * option A) :=
  match cell with
  | Some a => Some (a, Some a)
  | None => a ← init; Some (a, Some a)
  end.

(** [struct Segments], over the cached segments. *)
Record SegmentsRepr (R : Type) := Segments_repr {
  seg_source : Slice; seg_segments : list R; seg_pos : nat }.
Arguments Segments_repr {R}.
Arguments seg_source {R}.
Arguments seg_segments {R}.
Arguments seg_pos {R}.

(** [Segments::num], [Segments::skip]. *)
Definition seg_num {R} (self : SegmentsRepr R) : nat :=
  let max_pos := Nat.min (seg_pos self) (length (seg_segments self)) in
  length (seg_segments self) - max_pos.

Definition seg_skip {R} (n : nat) (self : SegmentsRepr R) : SegmentsRepr R :=
  Segments_repr (seg_source self) (seg_segments self)
    (Nat.min (seg_pos self + n) (length (seg_segments self))).

(** [Segments::<Path>::get], [Segments::<Query>::get]. *)
Definition seg_get_path (n : nat) (self : SegmentsRepr Indexed) : option (option Slice) :=
  match seg_segments self !! (seg_pos self + n) with
  | Some i => Some <$> from_source i (Some (seg_source self))
  | None => Some None
  end.

Definition seg_get_query (n : nat) (self : SegmentsRepr (Indexed * Indexed))
  : option (option (Slice * Slice)) :=
  match seg_segments self !! (seg_pos self + n) with
  | Some (name, val) =>
    let source := Some (seg_source self) in
    name ← from_source name source;
    val ← from_source val source;
    Some (Some (name, val))
  | None => Some None
  end.

Section representation.
Context (malloc : str → nat) (dangling : nat) (debug_assertions : bool).
Context `{StablePattern} `{Memchr} `{PercentEncoding}.

(** [percent_decode(..).decode_utf8_lossy()]: a borrowed result is the input,
    but for an empty one, which may be anywhere. *)
Definition decode_utf8_lossy (s : Slice) : SliceCow :=
  match percent_decode_utf8_lossy (text s) with
  | Borrowed t => SBorrowed (slice_at (if is_empty t then dangling else addr s) t)
  | Owned t => SOwned (allocate malloc t)
  end.

(** [RawStr::percent_decode_lossy], [RawStr::url_decode_lossy]. *)
Definition percent_decode_lossy_at (s : Slice) : SliceCow :=
  if is_empty (text s) then SBorrowed s else decode_utf8_lossy s.

Definition url_decode_lossy_at (s : Slice) : SliceCow :=
  let string := match _replace_plus (text s) with
                | Borrowed _ => SBorrowed s
                | Owned t => SOwned (allocate malloc t)
                end in
  match decode_utf8_lossy (deref string) with
  | SOwned s => SOwned s
  | SBorrowed _ => string
  end.

(** [fmt::Kind]. *)
Inductive PartKind := PathPart | QueryPart.

(** [decode_to_indexed_str]; the assertion is there in debug builds, and [""]
    is a literal. *)
Definition decode_to_indexed_str (kind : PartKind) (value : Slice)
  (indexed : Indexed) (source : Slice) : option Indexed :=
  let decoded := match kind with
                 | PathPart => percent_decode_lossy_at value
                 | QueryPart => url_decode_lossy_at value
                 end in
  match decoded with
  | SBorrowed b =>
    if is_indexed indexed then
      match checked_from b source with
      | Some checked => Some checked
      | None => if debug_assertions then None else Some (from_cow (SBorrowed (slice_at dangling [])))
      end
    else Some (from_cow (SOwned (allocate malloc (text b))))
  | SOwned s => Some (from_cow (SOwned s))
  end.

(** [str::split] and [str::strip_prefix] of a pattern, on slices. *)
Definition split_at (d : ascii) (s : Slice) : list Slice := pieces (addr s) (sp_split d (text s)).
Definition strip_prefix_at (p : str) (s : Slice) : option Slice :=
  suffix_at s <$> sp_strip_prefix p (text s).

(** [RawStr::split_at_byte]. *)
Definition split_at_byte_at (s : Slice) (b : ascii) : Slice * Slice :=
  if negb (is_ascii b) then (s, slice_at (addr s) [])
  else match memchr b (text s) with
       | Some i => (slice_at (addr s) (take i (text s)),
                    slice_at (addr s + (i + 1)) (drop (i + 1) (text s)))
       | None => (s, slice_at (addr s) [])
       end.

(** [Path::raw_segments], [Query::raw_segments], of what [raw] returns. *)
Definition path_raw_segments_at (raw : Slice) : list Slice :=
  let raw := trim_at raw in
  split_at slash (default raw (strip_prefix_at [slash] raw)).

Definition query_raw_segments_at (raw : Slice) : list Slice :=
  let q := trim_at raw in
  if is_empty (text q) then [] else split_at "&" q.

(** The loop of [Path::segments]. *)
Fixpoint decode_path_at (value : Indexed) (raw : Slice) (raw_segments : list Slice)
  : option (list Indexed) :=
  match raw_segments with
  | [] => Some []
  | s :: rest =>
    if is_empty (text s) && nonempty rest then decode_path_at value raw rest
    else
      segment ← decode_to_indexed_str PathPart s value raw;
      segments ← decode_path_at value raw rest;
      Some (segment :: segments)
  end.

(** The pipeline of [Query::segments]: the non-empty segments, split at [=]
    and decoded. *)
Definition decode_query_at (value : Indexed) (query : Slice) (raw_segments : list Slice)
  : option (list (Indexed * Indexed)) :=
  mapM (λ '(k, v),
          key ← decode_to_indexed_str QueryPart k value query;
          val ← decode_to_indexed_str QueryPart v value query;
          Some (key, val))
    ((λ s, split_at_byte_at s "=") <$> List.filter (λ s, nonempty (text s)) raw_segments).

(** [Path::raw], [Query::raw]. *)
Definition raw {R} (source : option SliceCow) (self : Data R) : option Slice :=
  from_cow_source (value self) source.

(** [Path::segments]: the segments, and the data with its cell filled. *)
Definition path_segments_at (source : option SliceCow) (self : Data Indexed)
  : option (SegmentsRepr Indexed * Data Indexed) :=
  raw ← raw source self;
  '(cached, cell) ← get_or_init (decoded_segments self)
                      (decode_path_at (value self) raw (path_raw_segments_at raw));
  Some (Segments_repr raw cached 0, Data_at (value self) cell).

(** [Query::segments]. *)
Definition query_segments_at (source : option SliceCow) (self : Data (Indexed * Indexed))
  : option (SegmentsRepr (Indexed * Indexed) * Data (Indexed * Indexed)) :=
  query ← raw source self;
  '(cached, cell) ← get_or_init (decoded_segments self)
                      (decode_query_at (value self) query (query_raw_segments_at query));
  Some (Segments_repr query cached 0, Data_at (value self) cell).
(** [Path::to_normalized], [Query::to_normalized]: a new string. *)
Definition path_to_normalized_at (absolute trail : bool) (raw : Slice) : Data Indexed :=
  data_new (SOwned (allocate malloc (path_to_normalized absolute trail (text raw)))).
Definition query_to_normalized_at (raw : Slice) : Data (Indexed * Indexed) :=
  data_new (SOwned (allocate malloc (query_to_normalized (text raw)))).

(** [Data::into_owned]; what a cell holds is mapped. *)
Definition data_into_owned {R} (owned : R → R) (self : Data R) : Data R :=
  Data_at (indexed_into_owned malloc (value self)) ((λ l : list R, owned <$> l) <$> decoded_segments self).
Definition data_clone {R} (clone : R → R) (self : Data R) : Data R :=
  Data_at (indexed_clone malloc (value self)) ((λ l : list R, clone <$> l) <$> decoded_segments self).
Definition both {A B} (f : A → B) (p : A * A) : B * B := (f p.1, f p.2).

(** ** Origin *)

(** [struct Origin]. *)
Record OriginRepr := Origin_repr {
  source : option SliceCow;
  path_data : Data Indexed;
  query_data : option (Data (Indexed * Indexed));
}.

(** [Origin::raw], [Origin::new]. *)
Definition origin_raw (source : SliceCow) (path : nat * nat) (query : option (nat * nat))
  : OriginRepr := Origin_repr (Some source) (data_raw path) (data_raw <$> query).
Definition origin_new (path : SliceCow) (query : option SliceCow) : OriginRepr :=
  Origin_repr None (data_new path) (data_new <$> query).

(** [parser::origin] and [origin_from_str], [Origin::parse]: the parts as
    extents of the input. *)
Definition origin_parse_at `{Pear} (string : Slice) : option OriginRepr :=
  let input := text string in
  if negb (pear_peek "/" input) then None
  else
    let '(path, input) := pear_take_while is_pchar input in
    let path := extent (text string) (text string) path in
    let '(query, input) :=
      match pear_eat "?" input with
      | Some input =>
        let '(q, input') := pear_take_while is_qchar input in
        (Some (extent (text string) input q), input')
      | None => (None, input)
      end in
    if pear_eof input then Some (origin_raw (SBorrowed string) path query) else None.

(** [Origin::parse_owned]: the string is moved into the origin. *)
Definition origin_parse_owned `{Pear} (string : Slice) : option OriginRepr :=
  origin ← origin_parse_at string;
  Some (Origin_repr (Some (SOwned string))
          (data_into_owned (indexed_into_owned malloc) (path_data origin))
          (data_into_owned (both (indexed_into_owned malloc)) <$> query_data origin)).

(** [Origin::parse_route]. *)
Definition origin_parse_route (string : Slice) : option OriginRepr :=
  if negb (starts_with [slash] (text string)) then None
  else match find_byte "?" (text string) with
       | Some i => Some (origin_new (SBorrowed (slice_at (addr string) (take i (text string))))
                           (Some (SBorrowed (slice_at (addr string + S i) (drop (S i) (text string))))))
       | None => Some (origin_new (SBorrowed string) None)
       end.

(** [Origin::path().raw()], [Origin::query().raw()]. *)
Definition origin_path (self : OriginRepr) : option Slice := raw (source self) (path_data self).
Definition origin_query (self : OriginRepr) : option (option Slice) :=
  match query_data self with
  | Some data => Some <$> raw (source self) data
  | None => Some None
  end.

(** [Origin::path().segments()], [Origin::query().segments()]: the cells are
    filled through the shared reference. *)
Definition origin_path_segments (self : OriginRepr)
  : option (SegmentsRepr Indexed * OriginRepr) :=
  '(segments, data) ← path_segments_at (source self) (path_data self);
  Some (segments, Origin_repr (source self) data (query_data self)).

Definition origin_query_segments (self : OriginRepr)
  : option (option (SegmentsRepr (Indexed * Indexed)) * OriginRepr) :=
  match query_data self with
  | Some data =>
    '(segments, data) ← query_segments_at (source self) data;
    Some (Some segments, Origin_repr (source self) (path_data self) (Some data))
  | None => Some (None, self)
  end.

(** [Origin::set_query]. *)
Definition origin_set_query (query : option SliceCow) (self : OriginRepr) : OriginRepr :=
  Origin_repr (source self) (path_data self) (data_new <$> query).

(** [Clone for Origin], [IntoOwned for Origin]. *)
Definition origin_clone (self : OriginRepr) : OriginRepr :=
  Origin_repr (cow_clone malloc <$> source self)
    (data_clone (indexed_clone malloc) (path_data self))
    (data_clone (both (indexed_clone malloc)) <$> query_data self).
Definition origin_into_owned (self : OriginRepr) : OriginRepr :=
  Origin_repr (cow_into_owned malloc <$> source self)
    (data_into_owned (indexed_into_owned malloc) (path_data self))
    (data_into_owned (both (indexed_into_owned malloc)) <$> query_data self).

(** [Origin::map_path]. *)
Definition origin_map_path (f : str → str) (self : OriginRepr) : option (option OriginRepr) :=
  raw ← origin_path self;
  let path := f (text raw) in
  if negb (starts_with [slash] path) || negb (forallb is_pchar path) then Some None
  else
    let clone := origin_clone self in
    Some (Some (Origin_repr (source clone) (data_new (SOwned (allocate malloc path)))
                  (query_data clone))).

(** [Origin::is_normalized]. *)
Definition origin_is_normalized (self : OriginRepr) : option bool :=
  path ← origin_path self;
  if negb (path_is_normalized true (text path)) then Some false
  else query ← origin_query self;
       Some (match query with Some q => query_is_normalized (text q) | None => true end).

(** [Origin::_normalize]. *)
Definition origin_normalize (allow_trail : bool) (self : OriginRepr) : option OriginRepr :=
  path ← origin_path self;
  let self := if negb (path_is_normalized true (text path))
              then Origin_repr (source self) (path_to_normalized_at true allow_trail path)
                     (query_data self)
              else self in
  query ← origin_query self;
  Some (match query with
        | Some query =>
          if negb (query_is_normalized (text query))
          then Origin_repr (source self) (path_data self) (Some (query_to_normalized_at query))
          else self
        | None => self
        end).

(** [Origin::has_trailing_slash], [Origin::is_normalized_nontrailing]. *)
Definition origin_has_trailing_slash (self : OriginRepr) : option bool :=
  path ← origin_path self;
  Some ((1 <? length (text path))%nat && sp_is_suffix_of [slash] (text path)).

Definition origin_is_normalized_nontrailing (self : OriginRepr) : option bool :=
  normalized ← origin_is_normalized self;
  trailing ← origin_has_trailing_slash self;
  Some (normalized && negb trailing).

(** [s[..s.len() - 1]] and [String::pop], on a path that ends in a slash. *)
Definition without_last (c : SliceCow) : SliceCow :=
  match c with
  | SBorrowed s => SBorrowed (slice_at (addr s) (take (length (text s) - 1) (text s)))
  | SOwned s => SOwned (slice_at (addr s) (take (length (text s) - 1) (text s)))
  end.

(** [Origin::into_normalized_nontrailing]. *)
Definition origin_into_normalized_nontrailing (self : OriginRepr) : option OriginRepr :=
  nontrailing ← origin_is_normalized_nontrailing self;
  if negb nontrailing then
    normalized ← origin_is_normalized self;
    trailing ← origin_has_trailing_slash self;
    if normalized && trailing then
      let indexed := match value (path_data self) with
                     | IIndexed i j => IIndexed i (j - 1)
                     | IConcrete cow => IConcrete (without_last cow)
                     end in
      Some (Origin_repr (source self) (Data_at indexed None) (query_data self))
    else origin_normalize false self
  else Some self.

(** ** Reference

    The authority has a source of its own and is kept as its value. *)

(** [struct Reference]. *)
Record ReferenceRepr := Reference_repr {
  r_source : option SliceCow;
  r_scheme : option Indexed;
  r_authority : option Authority;
  r_path : Data Indexed;
  r_query : option (Data (Indexed * Indexed));
  r_fragment : option Indexed;
}.

(** [Reference::raw]. *)
Definition reference_raw (source : SliceCow) (scheme : option (nat * nat))
  (authority : option Authority) (path : nat * nat) (query fragment : option (nat * nat))
  : ReferenceRepr :=
  Reference_repr (Some source) (from_extent <$> scheme) authority (data_raw path)
    (data_raw <$> query) (from_extent <$> fragment).

(** [impl From<Origin> for Reference]. *)
Definition reference_of_origin_at (origin : OriginRepr) : ReferenceRepr :=
  Reference_repr (source origin) None None (path_data origin) (query_data origin) None.

(** [Reference::with_query_fragment_of]. *)
Definition with_query_fragment_of_at (other self : ReferenceRepr) : option ReferenceRepr :=
  self ← match r_query other, r_query self with
         | Some query, None =>
           c ← into_concrete malloc (value query) (r_source self);
           Some (Reference_repr (r_source self) (r_scheme self) (r_authority self) (r_path self)
                   (Some (data_new c)) (r_fragment self))
         | _, _ => Some self
         end;
  match r_fragment other, r_fragment self with
  | Some frag, None =>
    c ← into_concrete malloc frag (r_source self);
    Some (Reference_repr (r_source self) (r_scheme self) (r_authority self) (r_path self)
            (r_query self) (Some (from_cow c)))
  | _, _ => Some self
  end.

(** [Reference::prepend], of an [Origin]. *)
Definition reference_prepend_at (self : ReferenceRepr) (prefix : OriginRepr)
  : option ReferenceRepr := with_query_fragment_of_at self (reference_of_origin_at prefix).

(** ** Sessions

    A program's use of an origin: it reads the path, the query and their
    segments, at any times, and changes, copies and replaces the origin. *)

Inductive Op :=
  | ReadPath
  | ReadQuery
  | CountSegments
  | ReadSegment (skip n : nat)
  | ReadField (skip n : nat)
  | IsNormalized
  | Normalize
  | IntoNormalizedNontrailing
  | SetQuery (query : option SliceCow)
  | MapPath (f : str → str)
  | CloneOrigin
  | IntoOwned.

(** What an operation returns. *)
Inductive Obs :=
  | Text (t : option str)
  | Pair (t : option (str * str))
  | Count (n : nat)
  | Answer (b : bool)
  | Unit.

(** An operation on the representation; [ReadField] is that of a query's
    segments. *)
Definition op_at (op : Op) (z : OriginRepr) : option (OriginRepr * Obs) :=
  match op with
  | ReadPath => s ← origin_path z; Some (z, Text (Some (text s)))
  | ReadQuery => s ← origin_query z; Some (z, Text (text <$> s))
  | CountSegments =>
    '(segments, z) ← origin_path_segments z; Some (z, Count (seg_num segments))
  | ReadSegment k n =>
    '(segments, z) ← origin_path_segments z;
    t ← seg_get_path n (seg_skip k segments);
    Some (z, Text (text <$> t))
  | ReadField k n =>
    '(segments, z) ← origin_query_segments z;
    match segments with
    | Some segments =>
      t ← seg_get_query n (seg_skip k segments); Some (z, Pair (both text <$> t))
    | None => Some (z, Pair None)
    end
  | IsNormalized => b ← origin_is_normalized z; Some (z, Answer b)
  | Normalize => z ← origin_normalize true z; Some (z, Unit)
  | IntoNormalizedNontrailing => z ← origin_into_normalized_nontrailing z; Some (z, Unit)
  | SetQuery query => Some (origin_set_query query z, Unit)
  | MapPath f =>
    mapped ← origin_map_path f z;
    match mapped with
    | Some z => Some (z, Answer true)
    | None => Some (z, Answer false)
    end
  | CloneOrigin => Some (origin_clone z, Unit)
  | IntoOwned => Some (origin_into_owned z, Unit)
  end.

(** The same operation on the strings. *)
Definition op_on (op : Op) (o : Origin) : Origin * Obs :=
  match op with
  | ReadPath => (o, Text (Some (path o)))
  | ReadQuery => (o, Text (query o))
  | CountSegments => (o, Count (num (segments_new (origin_segments o))))
  | ReadSegment k n => (o, Text (get n (skip k (segments_new (origin_segments o)))))
  | ReadField k n => (o, Pair (q ← query o; drop k (query_segments q) !! n))
  | IsNormalized => (o, Answer (is_normalized o))
  | Normalize => (normalize o, Unit)
  | IntoNormalizedNontrailing => (into_normalized_nontrailing o, Unit)
  | SetQuery query => (set_query (text ∘ deref <$> query) o, Unit)
  | MapPath f =>
    match map_path f o with Some o => (o, Answer true) | None => (o, Answer false) end
  | CloneOrigin | IntoOwned => (o, Unit)
  end.

Fixpoint ops_at (ops : list Op) (z : OriginRepr) : option (OriginRepr * list Obs) :=
  match ops with
  | [] => Some (z, [])
  | op :: ops =>
    '(z, obs) ← op_at op z;
    '(z, rest) ← ops_at ops z;
    Some (z, obs :: rest)
  end.

Fixpoint ops_on (ops : list Op) (o : Origin) : Origin * list Obs :=
  match ops with
  | [] => (o, [])
  | op :: ops =>
    let '(o, obs) := op_on op o in
    let '(o, rest) := ops_on ops o in
    (o, obs :: rest)
  end.
End representation.

(** ** Lemmas on slices *)

(** [n] is the part of [h] at an offset. *)
Definition within (n h : Slice) : Prop :=
  ∃ i, (addr n = addr h + i)%nat ∧ (i + length (text n) ≤ length (text h))%nat ∧
       text n = take (length (text n)) (drop i (text h)).

Lemma slice_eta s : slice_at (addr s) (text s) = s.
Proof. by destruct s. Qed.

Lemma within_refl s : within s s.
Proof. exists 0%nat. rewrite drop_0, firstn_all. split_and!; [lia..|done]. Qed.

Lemma within_part a u v w : within (slice_at (a + length u) v) (slice_at a (u ++ v ++ w)).
Proof.
  exists (length u). cbn. rewrite !length_app. split_and!; [lia..|].
  by rewrite drop_app_length, take_app_length.
Qed.

Lemma within_iff n h :
  within n h ↔ ∃ u w, text h = u ++ text n ++ w ∧ addr n = (addr h + length u)%nat.
Proof.
  split.
  - intros (i & Ha & Hl & Ht). exists (take i (text h)), (drop (i + length (text n)) (text h)).
    rewrite length_take, Nat.min_l by lia. split; [|done]. rewrite Ht at 1.
    by rewrite <- drop_drop, take_drop, take_drop.
  - intros (u & w & Ht & Ha). destruct n as [an tn], h as [ah th]. cbn in *. subst.
    apply within_part.
Qed.

Lemma within_trans a b c : within a b → within b c → within a c.
Proof.
  rewrite !within_iff. intros (u & w & Hb & Ha) (u' & w' & Hc & Ha').
  exists (u' ++ u), (w ++ w'). rewrite length_app. split; [|lia].
  by rewrite Hc, Hb, <- !app_assoc.
Qed.

Lemma within_suffix s t : (∃ u, text s = u ++ t) → within (suffix_at s t) s.
Proof.
  intros [u Hu]. apply within_iff. exists u, []. unfold suffix_at. cbn.
  rewrite Hu, app_nil_r, length_app. split; [done|lia].
Qed.

Lemma within_prefix s t : (∃ u, text s = t ++ u) → within (prefix_at s t) s.
Proof. intros [u Hu]. apply within_iff. exists [], u. cbn. rewrite Hu. split; [done|lia]. Qed.

Lemma trim_at_text s : text (trim_at s) = trim (text s).
Proof. done. Qed.

Lemma within_trim s : within (trim_at s) s.
Proof.
  apply (within_trans _ (suffix_at s (trim_start (text s)))).
  - apply within_prefix. cbn. destruct (trim_end_prefix (trim_start (text s))) as [w Hw]. eauto.
  - apply within_suffix. destruct (strip_all_suffix (length (text s)) whitespace (text s)) as [p Hp].
    by exists p.
Qed.

Lemma pieces_text a ws : text <$> pieces a ws = ws.
Proof. revert a. induction ws as [|w ws IH]; intros a; [done|]. cbn. f_equal. apply IH. Qed.

Lemma pieces_within a d ws s :
  Forall (λ n, within n (slice_at a (s ++ join d ws))) (pieces (a + length s) ws).
Proof.
  revert s. induction ws as [|w ws IH]; intros s; [constructor|].
  cbn [pieces]. constructor.
  - destruct ws as [|w' ws]; [|rewrite join_cons by done].
    + cbn [join]. rewrite <- (app_nil_r w) at 2. apply within_part.
    + apply within_part.
  - destruct ws as [|w' ws]; [constructor|]. rewrite join_cons by done.
    specialize (IH (s ++ w ++ [d])). rewrite !length_app in IH. cbn [length] in IH.
    replace (a + length s + length w + 1)%nat with (a + (length s + (length w + 1)))%nat by lia.
    by rewrite <- !app_assoc in IH.
Qed.

(** A slice within another is found by its addresses, and indexing there
    gives it back. *)
Lemma checked_from_within n h :
  within n h →
  ∃ i j, checked_from n h = Some (IIndexed i j) ∧ unchecked_from n h = Some (IIndexed i j) ∧
         index i j h = Some n.
Proof.
  intros (i & Ha & Hl & Ht). exists i, (i + length (text n))%nat.
  unfold checked_from, unchecked_from, index.
  rewrite !(proj2 (Nat.ltb_ge _ _)) by lia. rewrite Ha.
  replace (addr h + i - addr h)%nat with i by lia. split_and!; [done..|].
  rewrite !(proj2 (Nat.leb_le _ _)) by lia. cbn [andb].
  replace (i + length (text n) - i)%nat with (length (text n)) by lia.
  by rewrite <- Ht, <- Ha, slice_eta.
Qed.

Lemma index_within i j h n : index i j h = Some n → within n h.
Proof.
  unfold index. destruct (_ && _) eqn:E; [|done]. apply andb_prop in E as [Hi%Nat.leb_le Hj%Nat.leb_le].
  intros [= <-]. exists i. cbn. rewrite length_take, length_drop.
  split_and!; [done|lia|]. by rewrite Nat.min_l by lia.
Qed.

(** ** What indexed strings denote *)

(** The string an indexed string denotes in the text of a source. *)
Definition denote (source : option str) (i : Indexed) : option str :=
  match i with
  | IIndexed a b =>
    s ← source;
    if (a <=? b)%nat && (b <=? length s)%nat then Some (take (b - a) (drop a s)) else None
  | IConcrete c => Some (text (deref c))
  end.

Definition resolve (p : str) (i : Indexed) : option str := denote (Some p) i.
Definition resolve_pair (p : str) (i : Indexed * Indexed) : option (str * str) :=
  k ← resolve p i.1; v ← resolve p i.2; Some (k, v).

(** The text of an optional source. *)
Definition source_text (source : option SliceCow) : option str := text ∘ deref <$> source.

Lemma index_text i j s : text <$> index i j s = denote (Some (text s)) (IIndexed i j).
Proof. unfold index. cbn. by destruct (_ && _). Qed.

Lemma from_source_resolve i s : text <$> from_source i (Some s) = resolve (text s) i.
Proof. destruct i as [a b|c]; [|done]. apply index_text. Qed.

Lemma from_cow_source_denote i source :
  text <$> from_cow_source i source = denote (source_text source) i.
Proof. destruct i as [a b|c]; [|done]. destruct source as [c|]; [|done]. apply index_text. Qed.

Lemma into_concrete_denote malloc i source :
  text ∘ deref <$> into_concrete malloc i source = denote (source_text source) i.
Proof.
  destruct i as [a b|c]; [|done]. destruct source as [c|]; [|done].
  change (source_text (Some c)) with (Some (text (deref c))). rewrite <- index_text.
  cbn. by destruct (index a b (deref c)).
Qed.

Lemma from_source_text i s t :
  resolve (text s) i = Some t → ∃ r, from_source i (Some s) = Some r ∧ text r = t.
Proof. rewrite <- from_source_resolve. intros (r & -> & ->)%fmap_Some. eauto. Qed.

(** The length of an indexed string, and the sum of adjacent ones. *)
Lemma indexed_len_denote source i p : denote source i = Some p → indexed_len i = length p.
Proof.
  destruct i as [a b|c]; cbn; [|by intros [= <-]]. destruct source as [s|]; [|done]. cbn.
  destruct (_ && _) eqn:E; [|done]. apply andb_prop in E as [Ha%Nat.leb_le Hb%Nat.leb_le].
  intros [= <-]. rewrite length_take, length_drop. lia.
Qed.

Lemma add_denote source i j k p q :
  add i j = Some k → denote source i = Some p → denote source j = Some q →
  denote source k = Some (p ++ q).
Proof.
  destruct i as [a b|ci], j as [c d|cj]; try done. cbn. destruct (_ && _) eqn:E; [|done].
  apply andb_prop in E as [Hbc%bool_decide_eq_true _]. subst c. intros [= <-]. cbn.
  destruct source as [s|]; [|done]. cbn.
  destruct (a <=? b)%nat eqn:Ha, (b <=? length s)%nat eqn:Hb; try done.
  destruct (b <=? d)%nat eqn:Hd, (d <=? length s)%nat eqn:Hl; try done. cbn.
  apply Nat.leb_le in Ha, Hb, Hd, Hl. intros [= <-] [= <-].
  rewrite (proj2 (Nat.leb_le _ _)) by lia. f_equal.
  replace (d - a)%nat with ((b - a) + (d - b))%nat by lia.
  replace (drop b s) with (drop (b - a) (drop a s)) by (rewrite drop_drop; f_equal; lia).
  generalize (drop a s). intros t. rewrite <- (take_drop (b - a) t) at 1.
  destruct (decide (b - a <= length t)%nat).
  - rewrite take_app_add' by (rewrite length_take; lia). done.
  - rewrite drop_ge, take_nil, !app_nil_r by lia. apply take_ge. rewrite length_take. lia.
Qed.

(** Copies denote the same. *)
Lemma denote_into_owned malloc source i :
  denote source (indexed_into_owned malloc i) = denote source i.
Proof. by destruct i as [|[]]. Qed.

Lemma denote_clone malloc source i :
  denote source (indexed_clone malloc i) = denote source i.
Proof. by destruct i as [|[]]. Qed.

Lemma source_text_into_owned malloc source :
  source_text (cow_into_owned malloc <$> source) = source_text source.
Proof. by destruct source as [[]|]. Qed.

Lemma source_text_clone malloc source :
  source_text (cow_clone malloc <$> source) = source_text source.
Proof. by destruct source as [[]|]. Qed.

Lemma mapM_lookup {A B} (f : A → option B) l ts i :
  mapM f l = Some ts →
  match l !! i with
  | Some x => ∃ t, f x = Some t ∧ ts !! i = Some t
  | None => ts !! i = None
  end.
Proof.
  intros Hl%mapM_Some. destruct (l !! i) as [x|] eqn:E.
  - destruct (Forall2_lookup_l _ _ _ _ _ Hl E) as (t & Ht & Hf). eauto.
  - apply lookup_ge_None in E. apply lookup_ge_None. by rewrite <- (Forall2_length _ _ _ Hl).
Qed.

Lemma mapM_ext_fmap {A B} (f : A → option B) (g : A → A) l :
  (∀ x, f (g x) = f x) → mapM f (g <$> l) = mapM f l.
Proof. intros Hg. induction l as [|x l IH]; [done|]. cbn. by rewrite Hg, IH. Qed.

Section decoding.
Context (malloc : str → nat) (dangling : nat) (debug_assertions : bool).
Context `{StablePatternLaws} `{MemchrLaws} `{PercentEncodingLaws}.

(** A decoder of slices borrows its input or returns an allocation, of what
    the decoder of strings returns. *)
Definition decodes (at_ : Slice → SliceCow) (f : str → Cow) : Prop :=
  ∀ s, text (deref (at_ s)) = cow_value (f (text s)) ∧ ∀ b, at_ s = SBorrowed b → b = s.

Lemma percent_decode_lossy_at_spec :
  decodes (percent_decode_lossy_at malloc dangling) percent_decode_lossy.
Proof.
  intros s. unfold percent_decode_lossy_at, percent_decode_lossy, decode_utf8_lossy.
  destruct (is_empty (text s)) eqn:E; [split; [done|by intros ? [= <-]]|].
  destruct (percent_decode_utf8_lossy (text s)) as [t|t] eqn:D; [|done].
  split; [done|]. intros b [= <-]. apply percent_decode_borrowed in D as ->.
  rewrite E. apply slice_eta.
Qed.

Lemma url_decode_lossy_at_spec :
  decodes (url_decode_lossy_at malloc dangling) url_decode_lossy.
Proof.
  intros s. unfold url_decode_lossy_at, url_decode_lossy, decode_utf8_lossy.
  assert (∀ t, _replace_plus (text s) = Borrowed t → t = text s) as Hr.
  { intros t. unfold _replace_plus. by destruct (is_empty _); intros [= <-]. }
  destruct (_replace_plus (text s)) as [t|t]; cbn [deref cow_value allocate text].
  - rewrite (Hr t eq_refl). destruct (percent_decode_utf8_lossy (text s)); [|done].
    split; [done|]. by intros ? [= <-].
  - by destruct (percent_decode_utf8_lossy t).
Qed.

(** Decoding a part of the source yields an indexed string that denotes the
    decoded part; the assertion of debug builds holds. *)
Lemma decode_to_indexed_str_spec kind v indexed h :
  within v h →
  ∃ i, decode_to_indexed_str malloc dangling debug_assertions kind v indexed h = Some i ∧
       resolve (text h) i =
       Some (cow_value (match kind with
                        | PathPart => percent_decode_lossy (text v)
                        | QueryPart => url_decode_lossy (text v)
                        end)).
Proof.
  intros Hv. unfold decode_to_indexed_str.
  set (at_ := match kind with PathPart => _ | QueryPart => _ end).
  set (d := match kind with PathPart => percent_decode_lossy _ | QueryPart => _ end).
  assert (text (deref at_) = cow_value d ∧ ∀ b, at_ = SBorrowed b → b = v) as [Ht Hb]
    by (subst at_ d; destruct kind;
        [apply percent_decode_lossy_at_spec|apply url_decode_lossy_at_spec]).
  destruct at_ as [b|s]; cbn [deref] in Ht; [|eexists; split; [done|by cbn; rewrite Ht]].
  specialize (Hb b eq_refl) as ->. destruct (is_indexed indexed).
  - destruct (checked_from_within v h Hv) as (i & j & -> & _ & Hi). eexists; split; [done|].
    rewrite <- from_source_resolve. cbn. by rewrite Hi, <- Ht.
  - eexists; split; [done|]. cbn. by rewrite Ht.
Qed.

Lemma decode_path_at_spec indexed h segs :
  Forall (λ s, within s h) segs →
  ∃ l, decode_path_at malloc dangling debug_assertions indexed h segs = Some l ∧
       mapM (resolve (text h)) l = Some (decode_path_segments (text <$> segs)).
Proof.
  induction 1 as [|s segs Hs _ (l & Hl & Hr)]; [by exists []|]. cbn [decode_path_at].
  rewrite fmap_cons. cbn [decode_path_segments].
  assert (nonempty (text <$> segs) = nonempty segs) as -> by by destruct segs.
  destruct (_ && _); [by exists l|].
  destruct (decode_to_indexed_str_spec PathPart s indexed h Hs) as (i & -> & Hi).
  rewrite Hl. eexists; split; [done|]. cbn. by rewrite Hi, Hr.
Qed.

Lemma split_at_spec d s :
  Forall (λ n, within n s) (split_at d s) ∧ text <$> split_at d s = sp_split d (text s).
Proof.
  unfold split_at. autorewrite with crates. split; [|apply pieces_text].
  pose proof (pieces_within (addr s) d (split_on d (text s)) []) as Hp. cbn in Hp.
  by rewrite Nat.add_0_r, join_split, slice_eta in Hp.
Qed.

Lemma path_raw_segments_at_spec h :
  Forall (λ n, within n h) (path_raw_segments_at h) ∧
  text <$> path_raw_segments_at h = path_raw_segments (text h).
Proof.
  unfold path_raw_segments_at, path_raw_segments, strip_prefix_at. rewrite trim_at_text.
  destruct (sp_strip_prefix [slash] (trim (text h))) as [t|] eqn:E; cbn [fmap option_fmap option_map default].
  - destruct (split_at_spec slash (suffix_at (trim_at h) t)) as [Hw Ht]. split; [|done].
    rewrite sp_strip_prefix_spec in E. apply strip_prefix_Some in E.
    eapply Forall_impl; [exact Hw|]. intros n Hn. eapply within_trans; [exact Hn|].
    eapply within_trans; [|apply within_trim]. apply within_suffix. rewrite trim_at_text. eauto.
  - destruct (split_at_spec slash (trim_at h)) as [Hw Ht]. split; [|done].
    eapply Forall_impl; [exact Hw|]. intros n Hn. eapply within_trans; [exact Hn|]. apply within_trim.
Qed.

Lemma query_raw_segments_at_spec h :
  Forall (λ n, within n h) (query_raw_segments_at h) ∧
  text <$> query_raw_segments_at h = query_raw_segments (text h).
Proof.
  unfold query_raw_segments_at, query_raw_segments. rewrite trim_at_text.
  destruct (split_at_spec "&" (trim_at h)) as [Hw Ht]. rewrite trim_at_text in Ht.
  destruct (trim (text h)) as [|c q]; [done|]. cbn [is_empty]. split; [|done].
  eapply Forall_impl; [exact Hw|]. intros n Hn. eapply within_trans; [exact Hn|]. apply within_trim.
Qed.

Lemma split_at_byte_at_spec b s :
  within (split_at_byte_at s b).1 s ∧ within (split_at_byte_at s b).2 s ∧
  both text (split_at_byte_at s b) = split_at_byte (text s) b.
Proof.
  assert (within (slice_at (addr s) []) s) as Hnil by (apply within_iff; exists [], (text s); split; [done|by cbn; rewrite Nat.add_0_r]).
  unfold split_at_byte_at, split_at_byte. destruct (negb _).
  { split_and!; [apply within_refl|apply Hnil|done]. }
  rewrite memchr_spec. destruct (find_byte b (text s)) as [i|] eqn:E.
  - apply find_byte_Some in E as (_ & _ & Hi).
    split_and!; [| |done]; apply within_iff; cbn.
    + exists [], (drop i (text s)). rewrite take_drop. split; [done|by rewrite Nat.add_0_r].
    + exists (take (i + 1) (text s)), []. rewrite app_nil_r, take_drop, length_take. split; [done|lia].
  - split_and!; [apply within_refl|apply Hnil|done].
Qed.

Lemma decode_query_at_spec indexed h segs :
  Forall (λ s, within s h) segs →
  ∃ l, decode_query_at malloc dangling debug_assertions indexed h segs = Some l ∧
       mapM (resolve_pair (text h)) l =
       Some ((λ '(k, v), (cow_value (url_decode_lossy k), cow_value (url_decode_lossy v))) <$>
             ((λ s, split_at_byte s "=") <$> List.filter nonempty (text <$> segs))).
Proof.
  unfold decode_query_at. induction 1 as [|w ws Hw _ IH]; [by exists []|].
  rewrite fmap_cons. cbn [List.filter].
  destruct (nonempty (text w)); [|done]. destruct IH as (l & Hl & Hm). rewrite !fmap_cons.
  destruct (split_at_byte_at_spec "=" w) as (Hk & Hv & Hb). rewrite <- Hb. clear Hb.
  destruct (split_at_byte_at w "=") as [k v]. cbn [both fst snd] in *.
  destruct (decode_to_indexed_str_spec QueryPart k indexed h (within_trans _ _ _ Hk Hw))
    as (ik & Hik & Hrk).
  destruct (decode_to_indexed_str_spec QueryPart v indexed h (within_trans _ _ _ Hv Hw))
    as (iv & Hiv & Hrv).
  exists ((ik, iv) :: l). split.
  - cbn [mapM]. by rewrite Hik, Hiv, Hl.
  - cbn [mapM]. assert (resolve_pair (text h) (ik, iv) = _) as -> by
      (unfold resolve_pair; cbn [fst snd]; by rewrite Hrk, Hrv). by rewrite Hm.
Qed.
End decoding.

(** ** Representation

    A path or query represents the string it denotes in the source; a filled
    cell denotes its decoded segments. *)

Definition part_repr {R A} (res : str → R → option A) (segments : str → list A)
  (source : option SliceCow) (d : Data R) (p : str) : Prop :=
  denote (source_text source) (value d) = Some p ∧
  ∀ l, decoded_segments d = Some l → mapM (res p) l = Some (segments p).

Lemma part_repr_new {R A} (res : str → R → option A) segments source c :
  part_repr res segments source (data_new c) (text (deref c)).
Proof. by split. Qed.

Lemma part_repr_raw {R A} (res : str → R → option A) segments source d p :
  part_repr res segments source d p → ∃ s, raw source d = Some s ∧ text s = p.
Proof. intros [Hd _]. rewrite <- from_cow_source_denote in Hd. apply fmap_Some in Hd as (s & ? & ->). eauto. Qed.

(** Copies, and sources of the same text, represent the same. *)
Lemma part_repr_copy {R A} (res : str → R → option A) segments source source' d d' f p :
  source_text source' = source_text source →
  (∀ s, denote s (value d') = denote s (value d)) →
  decoded_segments d' = (λ l : list R, f <$> l) <$> decoded_segments d →
  (∀ x, res p (f x) = res p x) →
  part_repr res segments source d p → part_repr res segments source' d' p.
Proof.
  intros Hs Hv Hc Hf [Hd Hl]. split; [by rewrite Hs, Hv|]. rewrite Hc.
  intros l (l0 & Hl0 & ->)%fmap_Some. rewrite mapM_ext_fmap by done. auto.
Qed.

Section simulation.
Context (malloc : str → nat) (dangling : nat) (debug_assertions : bool).
Context `{StablePatternLaws} `{MemchrLaws} `{PercentEncodingLaws} `{PearLaws}.

Definition path_repr := part_repr resolve path_segments.
Definition query_repr := part_repr resolve_pair query_segments.

Definition represents (z : OriginRepr) (o : Origin) : Prop :=
  path_repr (source z) (path_data z) (path o) ∧
  match query_data z, query o with
  | Some d, Some q => query_repr (source z) d q
  | None, None => True
  | _, _ => False
  end.

(** Both kinds of segments are found, and are those of the strings. *)
Lemma path_segments_at_spec source d p :
  path_repr source d p →
  ∃ s l d', path_segments_at malloc dangling debug_assertions source d = Some (Segments_repr s l 0, d') ∧
            text s = p ∧ mapM (resolve p) l = Some (path_segments p) ∧ path_repr source d' p.
Proof.
  intros Hp. destruct (part_repr_raw _ _ _ _ _ Hp) as (s & Hs & Ht). destruct Hp as [Hd Hl].
  unfold path_segments_at. rewrite Hs. cbn. destruct (decoded_segments d) as [l|]; cbn.
  - exists s, l, (Data_at (value d) (Some l)). split_and!; [done..|by auto|].
    split; [done|]. cbn. intros ? [= <-]. auto.
  - destruct (path_raw_segments_at_spec s) as [Hw Hr].
    destruct (decode_path_at_spec malloc dangling debug_assertions (value d) s _ Hw) as (l & -> & Hm).
    rewrite Hr, Ht in Hm. exists s, l, (Data_at (value d) (Some l)). split_and!; [done..|].
    split; [done|]. cbn. by intros ? [= <-].
Qed.

Lemma query_segments_at_spec source d q :
  query_repr source d q →
  ∃ s l d', query_segments_at malloc dangling debug_assertions source d = Some (Segments_repr s l 0, d') ∧
            text s = q ∧ mapM (resolve_pair q) l = Some (query_segments q) ∧ query_repr source d' q.
Proof.
  intros Hp. destruct (part_repr_raw _ _ _ _ _ Hp) as (s & Hs & Ht). destruct Hp as [Hd Hl].
  unfold query_segments_at. rewrite Hs. cbn. destruct (decoded_segments d) as [l|]; cbn.
  - exists s, l, (Data_at (value d) (Some l)). split_and!; [done..|by auto|].
    split; [done|]. cbn. intros ? [= <-]. auto.
  - destruct (query_raw_segments_at_spec s) as [Hw Hr].
    destruct (decode_query_at_spec malloc dangling debug_assertions (value d) s _ Hw) as (l & -> & Hm).
    rewrite Hr, Ht in Hm. exists s, l, (Data_at (value d) (Some l)). split_and!; [done..|].
    split; [done|]. cbn. by intros ? [= <-].
Qed.

(** *** Construction *)

Lemma extent_denotes (R A : Type) (res : str → R → option A) segments u v w c :
  text c = u ++ v ++ w →
  part_repr res segments (Some (SBorrowed c)) (data_raw (extent (text c) (v ++ w) v)) v.
Proof.
  intros Hc. split; [|done]. unfold source_text, data_raw, from_extent, extent. cbn. rewrite Hc.
  rewrite !length_app. set (n := length u).
  replace (n + (length v + length w) - (length v + length w))%nat with n by lia.
  rewrite !(proj2 (Nat.leb_le _ _)) by lia. cbn. subst n.
  rewrite Nat.add_comm, Nat.add_sub. by rewrite drop_app_length, take_app_length.
Qed.

(** [Origin::parse] accepts the same strings and represents what it accepts. *)
Lemma origin_parse_at_spec string :
  match Origin_parse (text string) with
  | Some o => ∃ z, origin_parse_at string = Some z ∧ represents z o
  | None => origin_parse_at string = None
  end.
Proof.
  unfold Origin_parse, origin_from_str, parse_origin, parse_path, parse_query, origin_parse_at.
  autorewrite with crates. destruct (starts_with _ _) eqn:Hsl; cbn [negb]; [|done].
  destruct (span is_pchar (text string)) as [p r] eqn:Hp. apply span_spec in Hp as (Hp & _ & _).
  assert (path_repr (Some (SBorrowed string)) (data_raw (extent (text string) (text string) p)) p)
    as Hpath by (rewrite Hp at 2; by apply (extent_denotes _ _ _ _ [] p r)).
  autorewrite with crates. destruct (strip_prefix _ r) as [r'|] eqn:Hq; cbn.
  - apply strip_prefix_Some in Hq as ->. autorewrite with crates.
    destruct (span is_qchar r') as [q r''] eqn:Hr'. apply span_spec in Hr' as (-> & _ & _).
    destruct (pear_eof r''); [|done]. cbn. eexists; split; [done|]. split; [done|]. cbn.
    apply (extent_denotes _ _ _ _ (p ++ ["?"%char]) q r''). by rewrite Hp, <- app_assoc.
  - destruct (pear_eof r); [|done]. cbn. eexists; split; [done|]. by split.
Qed.

Lemma origin_new_represents p q :
  represents (origin_new p q) (Origin_new (text (deref p)) (text ∘ deref <$> q)).
Proof. split; [apply part_repr_new|]. destruct q; [apply part_repr_new|done]. Qed.

Lemma origin_parse_route_spec string :
  match parse_route (text string) with
  | Some o => ∃ z, origin_parse_route string = Some z ∧ represents z o
  | None => origin_parse_route string = None
  end.
Proof.
  unfold parse_route, origin_parse_route, split_once. destruct (negb _); [done|].
  destruct (find_byte _ _); (eexists; split; [done|]); by repeat split.
Qed.

(** *** Copies *)

Lemma path_repr_into_owned source d p :
  path_repr source d p →
  path_repr (cow_into_owned malloc <$> source) (data_into_owned malloc (indexed_into_owned malloc) d) p.
Proof.
  intros Hd. eapply part_repr_copy, Hd; [apply source_text_into_owned| |done|];
    intros; apply denote_into_owned.
Qed.

Lemma query_repr_into_owned source d q :
  query_repr source d q →
  query_repr (cow_into_owned malloc <$> source)
    (data_into_owned malloc (both (indexed_into_owned malloc)) d) q.
Proof.
  intros Hd. eapply part_repr_copy, Hd; [apply source_text_into_owned| |done|];
    intros; [apply denote_into_owned|].
  unfold resolve_pair, resolve. cbn. by rewrite !denote_into_owned.
Qed.

Lemma path_repr_clone source d p :
  path_repr source d p →
  path_repr (cow_clone malloc <$> source) (data_clone malloc (indexed_clone malloc) d) p.
Proof.
  intros Hd. eapply part_repr_copy, Hd; [apply source_text_clone| |done|];
    intros; apply denote_clone.
Qed.

Lemma query_repr_clone source d q :
  query_repr source d q →
  query_repr (cow_clone malloc <$> source) (data_clone malloc (both (indexed_clone malloc)) d) q.
Proof.
  intros Hd. eapply part_repr_copy, Hd; [apply source_text_clone| |done|];
    intros; [apply denote_clone|].
  unfold resolve_pair, resolve. cbn. by rewrite !denote_clone.
Qed.

Lemma origin_into_owned_represents z o :
  represents z o → represents (origin_into_owned malloc z) o.
Proof.
  intros [Hp Hq]. split; [by apply path_repr_into_owned|]. cbn.
  destruct (query_data z), (query o); try done. by apply query_repr_into_owned.
Qed.

Lemma origin_clone_represents z o :
  represents z o → represents (origin_clone malloc z) o.
Proof.
  intros [Hp Hq]. split; [by apply path_repr_clone|]. cbn.
  destruct (query_data z), (query o); try done. by apply query_repr_clone.
Qed.

(** [Origin::parse_owned]: the string, moved, keeps its address and text. *)
Lemma origin_parse_owned_spec string :
  match Origin_parse (text string) with
  | Some o => ∃ z, origin_parse_owned malloc string = Some z ∧ represents z o
  | None => origin_parse_owned malloc string = None
  end.
Proof.
  pose proof (origin_parse_at_spec string) as Hs. unfold origin_parse_owned.
  destruct (Origin_parse _) as [o|]; [|by rewrite Hs].
  destruct Hs as (z & Hz & Hr). rewrite Hz. cbn. eexists; split; [done|].
  assert (source z = Some (SBorrowed string)) as Hsrc.
  { unfold origin_parse_at in Hz. destruct (negb _); [done|]. repeat case_match; naive_solver. }
  apply origin_into_owned_represents in Hr. unfold represents, path_repr, query_repr, part_repr in *.
  cbn in *. by rewrite Hsrc in Hr.
Qed.

(** *** Reading and normalizing *)

Lemma origin_path_spec z o :
  represents z o → ∃ s, origin_path z = Some s ∧ text s = path o.
Proof. intros [Hp _]. by eapply part_repr_raw. Qed.

Lemma origin_query_spec z o :
  represents z o → ∃ s, origin_query z = Some s ∧ text <$> s = query o.
Proof.
  intros [_ Hq]. unfold origin_query. destruct (query_data z) as [d|], (query o) as [q|]; try done.
  - apply part_repr_raw in Hq as (s & Hs & <-). exists (Some s). by rewrite Hs.
  - by exists None.
Qed.

Lemma origin_is_normalized_spec z o :
  represents z o → origin_is_normalized z = Some (is_normalized o).
Proof.
  intros Hr. destruct (origin_path_spec _ _ Hr) as (s & Hs & Hp).
  destruct (origin_query_spec _ _ Hr) as (q & Hq & Ht). unfold origin_is_normalized, is_normalized.
  rewrite Hs, Hq. cbn. rewrite Hp, <- Ht. destruct (path_is_normalized true (path o)); [|done].
  by destruct q.
Qed.

Lemma origin_has_trailing_slash_spec z o :
  represents z o → origin_has_trailing_slash z = Some (has_trailing_slash o).
Proof.
  intros Hr. destruct (origin_path_spec _ _ Hr) as (s & Hs & Hp).
  unfold origin_has_trailing_slash. rewrite Hs. cbn. by rewrite Hp.
Qed.

Lemma origin_is_normalized_nontrailing_spec z o :
  represents z o → origin_is_normalized_nontrailing z = Some (is_normalized_nontrailing o).
Proof.
  intros Hr. unfold origin_is_normalized_nontrailing.
  by rewrite (origin_is_normalized_spec _ _ Hr), (origin_has_trailing_slash_spec _ _ Hr).
Qed.

Lemma origin_normalize_spec trail z o :
  represents z o →
  ∃ z', origin_normalize malloc trail z = Some z' ∧ represents z' (_normalize trail o).
Proof.
  intros Hr. destruct (origin_path_spec _ _ Hr) as (s & Hs & Hp).
  unfold origin_normalize. rewrite Hs. cbn [mbind option_bind].
  set (z1 := if negb _ then _ else z).
  assert (represents z1 (Origin_new
    (if negb (path_is_normalized true (path o)) then path_to_normalized true trail (path o)
     else path o) (query o))) as Hr1.
  { subst z1. rewrite Hp. destruct Hr as [Hpr Hqr]. destruct (negb _); [|by split].
    split; [|done]. rewrite <- Hp. apply part_repr_new. }
  clearbody z1. destruct (origin_query_spec _ _ Hr1) as (q & -> & Ht). cbn in Ht.
  unfold _normalize. destruct Hr1 as [Hpr Hqr]. rewrite <- Ht in Hqr |- *. cbn [query] in Hqr.
  destruct q as [q|]; cbn; [|by exists z1]. cbn in Hqr.
  destruct (negb (query_is_normalized (text q))); [|by exists z1].
  eexists; split; [done|]. split; [done|]. apply part_repr_new.
Qed.

(** Dropping the last byte of an indexed string. *)
Lemma denote_without_last source i p :
  (0 < length p)%nat → denote source i = Some p →
  denote source (match i with
                 | IIndexed i j => IIndexed i (j - 1)
                 | IConcrete cow => IConcrete (without_last cow)
                 end) = Some (take (length p - 1) p).
Proof.
  intros Hp Hd. destruct i as [i j|c]; cbn in *.
  - destruct source as [s|]; [|done]. cbn in *. destruct (_ && _) eqn:E; [|done].
    apply andb_prop in E as [Hi%Nat.leb_le Hj%Nat.leb_le]. injection Hd as <-.
    rewrite length_take, length_drop in *. rewrite !(proj2 (Nat.leb_le _ _)) by lia. cbn.
    f_equal. rewrite take_take. f_equal. lia.
  - injection Hd as <-. by destruct c.
Qed.

Lemma origin_into_normalized_nontrailing_spec z o :
  represents z o →
  ∃ z', origin_into_normalized_nontrailing malloc z = Some z' ∧
        represents z' (into_normalized_nontrailing o).
Proof.
  intros Hr. unfold origin_into_normalized_nontrailing, into_normalized_nontrailing.
  rewrite (origin_is_normalized_nontrailing_spec _ _ Hr), (origin_is_normalized_spec _ _ Hr),
    (origin_has_trailing_slash_spec _ _ Hr). cbn [mbind option_bind].
  destruct (negb (is_normalized_nontrailing o)); [|by exists z].
  destruct (is_normalized o && has_trailing_slash o) eqn:E; [|by apply origin_normalize_spec].
  eexists; split; [done|]. destruct Hr as [[Hd _] Hq]. split; [|done]. split; [|done].
  cbn [source path_data value path]. apply denote_without_last, Hd.
  apply andb_prop in E as [_ E]. unfold has_trailing_slash in E.
  apply andb_prop in E as [E%Nat.ltb_lt _]. lia.
Qed.

Lemma origin_map_path_spec f z o :
  represents z o →
  match map_path f o with
  | Some o' => ∃ z', origin_map_path malloc f z = Some (Some z') ∧ represents z' o'
  | None => origin_map_path malloc f z = Some None
  end.
Proof.
  intros Hr. destruct (origin_path_spec _ _ Hr) as (s & Hs & Hp).
  unfold map_path, origin_map_path. rewrite Hs. cbn. rewrite Hp. destruct (_ || _); [done|].
  eexists; split; [done|]. apply origin_clone_represents in Hr as [_ Hq].
  split; [|done]. apply part_repr_new.
Qed.

(** *** Segments *)

Lemma origin_path_segments_spec z o k n :
  represents z o →
  ∃ segments z' t, origin_path_segments malloc dangling debug_assertions z = Some (segments, z') ∧
    represents z' o ∧ seg_num segments = num (segments_new (origin_segments o)) ∧
    seg_get_path n (seg_skip k segments) = Some t ∧
    text <$> t = get n (skip k (segments_new (origin_segments o))).
Proof.
  intros [Hp Hq]. destruct (path_segments_at_spec _ _ _ Hp) as (s & l & d & Hs & Ht & Hm & Hd).
  unfold origin_path_segments. rewrite Hs. cbn.
  assert (length l = length (origin_segments o)) as Hlen
    by (apply mapM_Some in Hm; by apply Forall2_length in Hm).
  unfold seg_get_path, get, seg_num, num. cbn. rewrite <- Hlen.
  pose proof (mapM_lookup _ _ _ (Nat.min k (length l) + n) Hm) as Hi.
  destruct (l !! _) as [i|] eqn:E.
  - destruct Hi as (t & Hri & Hi). rewrite <- Ht in Hri.
    destruct (from_source_text _ _ _ Hri) as (r & Hr & <-).
    do 2 eexists. exists (Some r). split_and!; [done|by split|done| |exact (eq_sym Hi)].
    cbn. rewrite E. by rewrite Hr.
  - do 2 eexists. exists None. split_and!; [done|by split|done| |exact (eq_sym Hi)]. cbn. by rewrite E.
Qed.

Lemma origin_query_segments_spec z o k n :
  represents z o →
  ∃ segments z', origin_query_segments malloc dangling debug_assertions z = Some (segments, z') ∧
    represents z' o ∧
    match query o with
    | Some q => ∃ segs t, segments = Some segs ∧ seg_num segs = length (query_segments q) ∧
        seg_get_query n (seg_skip k segs) = Some t ∧
        both text <$> t = drop k (query_segments q) !! n
    | None => segments = None
    end.
Proof.
  intros [Hp Hq]. unfold origin_query_segments.
  destruct (query_data z) as [d|] eqn:Ez, (query o) as [q|] eqn:Eo; try done.
  2: { do 2 eexists. split_and!; [done| |done]. split; [done|]. by rewrite Ez, Eo. }
  destruct (query_segments_at_spec _ _ _ Hq) as (s & l & d' & Hs & Ht & Hm & Hd).
  rewrite Hs. cbn. do 2 eexists. split_and!; [done|split; [done|by rewrite Eo]|].
  assert (length l = length (query_segments q)) as Hlen
    by (apply mapM_Some in Hm; by apply Forall2_length in Hm).
  unfold seg_get_query, seg_num. cbn.
  assert (drop k (query_segments q) !! n = query_segments q !! (Nat.min k (length l) + n)) as Hdrop.
  { rewrite lookup_drop. destruct (decide (k ≤ length l)) as [?|?]; [f_equal; lia|].
    by rewrite !lookup_ge_None_2 by lia. }
  rewrite Hdrop. pose proof (mapM_lookup _ _ _ (Nat.min k (length l) + n) Hm) as Hi.
  destruct (l !! _) as [[ik iv]|] eqn:E.
  - destruct Hi as (t & Hri & Hi). unfold resolve_pair in Hri. cbn [fst snd] in Hri.
    destruct (resolve q ik) as [tk|] eqn:Hk; [|done]. destruct (resolve q iv) as [tv|] eqn:Hv; [|done].
    cbn in Hri. injection Hri as <-. rewrite <- Ht in Hk, Hv.
    destruct (from_source_text _ _ _ Hk) as (rk & Hrk & <-).
    destruct (from_source_text _ _ _ Hv) as (rv & Hrv & <-).
    eexists. exists (Some (rk, rv)). split_and!; [done|cbn; lia| |by rewrite Hi].
    cbn. by rewrite E, Hrk, Hrv.
  - eexists. exists None. split_and!; [done|cbn; lia| |done]. cbn. by rewrite E.
Qed.

(** *** Sessions *)

(** Every operation simulates that on the strings, without a panic. *)
Lemma op_at_spec op z o :
  represents z o →
  ∃ z', op_at malloc dangling debug_assertions op z = Some (z', (op_on op o).2) ∧
        represents z' (op_on op o).1.
Proof.
  intros Hr. destruct op as [| | |k n|k n| | | |q|f| |]; cbn [op_at op_on fst snd].
  - destruct (origin_path_spec _ _ Hr) as (s & -> & <-). eauto.
  - destruct (origin_query_spec _ _ Hr) as (s & -> & <-). eauto.
  - destruct (origin_path_segments_spec _ _ 0 0 Hr) as (sg & z' & t & -> & Hz & <- & _). eauto.
  - destruct (origin_path_segments_spec _ _ k n Hr) as (sg & z' & t & -> & Hz & _ & Ht & <-).
    cbn. rewrite Ht. cbn. eauto.
  - destruct (origin_query_segments_spec _ _ k n Hr) as (sg & z' & -> & Hz & Hq). cbn.
    destruct (query o) as [q|]; [|subst sg; eauto].
    destruct Hq as (segs & t & -> & _ & -> & Ht). cbn. rewrite Ht. eauto.
  - rewrite (origin_is_normalized_spec _ _ Hr). cbn. eauto.
  - destruct (origin_normalize_spec true _ _ Hr) as (z' & -> & Hz). cbn. eauto.
  - destruct (origin_into_normalized_nontrailing_spec _ _ Hr) as (z' & -> & Hz). cbn. eauto.
  - eexists; split; [done|]. split; [apply Hr|]. cbn. destruct q; [apply part_repr_new|done].
  - pose proof (origin_map_path_spec f _ _ Hr) as Hf. destruct (map_path f o) as [o'|].
    + destruct Hf as (z' & -> & Hz). cbn. eauto.
    + rewrite Hf. cbn. eauto.
  - eexists; split; [done|]. by apply origin_clone_represents.
  - eexists; split; [done|]. by apply origin_into_owned_represents.
Qed.

Lemma ops_at_spec ops z o :
  represents z o →
  ∃ z', ops_at malloc dangling debug_assertions ops z = Some (z', (ops_on ops o).2) ∧
        represents z' (ops_on ops o).1.
Proof.
  revert z o. induction ops as [|op ops IH]; intros z o Hr; [by exists z|].
  destruct (op_at_spec op z o Hr) as (z1 & Hz1 & Hr1). cbn. rewrite Hz1. cbn.
  destruct (op_on op o) as [o1 obs]. cbn in *. destruct (IH z1 o1 Hr1) as (z2 & Hz2 & Hr2).
  rewrite Hz2. cbn. destruct (ops_on ops o1) as [o2 rest]. cbn in *. eauto.
Qed.

(** C26: Parsing an origin in place accepts the strings of the grammar, and
    however the parsed origin is then read, normalized, changed, copied and
    made owned, wherever its strings are in memory, it answers as the path and
    query it stands for: indices stay within the source, no assertion fails
    and no cached segment is stale. *)
Theorem zero_copy_origin (string : Slice) :
  match Origin_parse (text string) with
  | Some o =>
    ∃ z z_owned,
      origin_parse_at string = Some z ∧ origin_parse_owned malloc string = Some z_owned ∧
      ∀ ops, let '(o', obs) := ops_on ops o in
        ∃ z1 z2, ops_at malloc dangling debug_assertions ops z = Some (z1, obs) ∧
          ops_at malloc dangling debug_assertions ops z_owned = Some (z2, obs) ∧
          represents z1 o' ∧ represents z2 o'
  | None => origin_parse_at string = None ∧ origin_parse_owned malloc string = None
  end.
Proof.
  pose proof (origin_parse_at_spec string) as Hp. pose proof (origin_parse_owned_spec string) as Ho.
  destruct (Origin_parse (text string)) as [o|]; [|done].
  destruct Hp as (z & Hz & Hr), Ho as (zo & Hzo & Hro). exists z, zo. split_and!; [done..|].
  intros ops. destruct (ops_at_spec ops _ _ Hr) as (z1 & Hz1 & Hr1).
  destruct (ops_at_spec ops _ _ Hro) as (z2 & Hz2 & Hr2).
  destruct (ops_on ops o) as [o' obs]. eauto 10.
Qed.

(** *** Suffixes of references *)

(** What a reference denotes. *)
Definition reference_denotes (z : ReferenceRepr) (r : Reference) : Prop :=
  path_repr (r_source z) (r_path z) (ref_path r) ∧
  r_authority z = ref_authority r ∧
  option_Forall2 (λ i s, denote (source_text (r_source z)) i = Some s) (r_scheme z) (ref_scheme r) ∧
  option_Forall2 (query_repr (r_source z)) (r_query z) (ref_query r) ∧
  option_Forall2 (λ i s, denote (source_text (r_source z)) i = Some s) (r_fragment z) (fragment r).

(** A reference whose query and fragment are strings of their own. *)
Definition suffix_concrete (z : ReferenceRepr) : Prop :=
  (∀ d, r_query z = Some d → is_indexed (value d) = false) ∧
  (∀ i, r_fragment z = Some i → is_indexed i = false).

Lemma reference_of_origin_denotes z o :
  represents z o → reference_denotes (reference_of_origin_at z) (reference_of_origin o).
Proof.
  intros [Hp Hq]. split_and!; [done|done|constructor| |constructor]. cbn.
  destruct (query_data z), (query o); try done; by constructor.
Qed.

(** Such a suffix, as [uri!] makes of a literal, gives its query and fragment
    to a reference that has none. *)
Lemma with_query_fragment_of_concrete other ro self rs :
  suffix_concrete other → reference_denotes other ro → reference_denotes self rs →
  ∃ z, with_query_fragment_of_at malloc other self = Some z ∧
       reference_denotes z (with_query_fragment_of ro rs).
Proof.
  destruct other as [os osc oa op oq ofr], ro as [rsc ra rp rq rf],
    self as [ss ssc sa sp sq sf], rs as [tsc ta tp tq tf].
  intros [Hcq Hcf] (_ & _ & _ & Hoq & Hof) (Hp & Ha & Hs & Hq & Hf).
  unfold with_query_fragment_of_at, with_query_fragment_of. cbn in *.
  assert (∃ c, match oq, sq with
               | Some query, None =>
                 c ← into_concrete malloc (value query) ss;
                 Some (Reference_repr ss ssc sa sp (Some (data_new c)) sf)
               | _, _ => Some (Reference_repr ss ssc sa sp sq sf)
               end = Some (Reference_repr ss ssc sa sp c sf) ∧
          option_Forall2 (query_repr ss) c (match tq with Some q => Some q | None => rq end))
    as (c & -> & Hc).
  { destruct Hoq as [d q [Hd _]|], Hq; try (eexists; split; [done|]; by constructor).
    specialize (Hcq d eq_refl). destruct (value d) as [|c]; [done|]. cbn in *. injection Hd as <-.
    eexists; split; [done|]. constructor. apply part_repr_new. }
  cbn. destruct Hof as [i f Hi|], Hf; try (eexists; split; [done|]; split_and!; first [done|by constructor]).
  specialize (Hcf i eq_refl). destruct i as [|c']; [done|]. cbn in *. injection Hi as <-.
  eexists; split; [done|]. split_and!; try done. by constructor.
Qed.

(** The query of a parsed suffix is looked up in the source of the prefix: an
    origin of its own strings, as [uri!] makes of a route, panics. *)
Lemma prepend_parsed_suffix_panics suffix d path :
  r_query suffix = Some d → is_indexed (value d) = true →
  reference_prepend_at malloc suffix (origin_new path None) = None.
Proof.
  intros Hd Hi. unfold reference_prepend_at, with_query_fragment_of_at. rewrite Hd. cbn.
  unfold into_concrete. by rewrite Hi.
Qed.
End simulation.

(** ** At concrete inputs *)

Section examples.
Import Crates.Reference PearReference.

Definition some_malloc (s : str) : nat := 500 + length s.
Definition some_string (s : str) : Slice := slice_at 100 s.

(** The query [woo] and the fragment [bam] of the reference [?woo#bam], parsed,
    are looked up in the source of the origin [/hello/you]. *)
Example prepend_parsed_suffix_confused :
  let suffix := reference_raw (SBorrowed (some_string (#"?woo#bam"))) None None (0, 0)%nat
                  (Some (1, 4)%nat) (Some (5, 8)%nat) in
  (z ← origin_parse_at (some_string (#"/hello/you"));
   r ← reference_prepend_at some_malloc suffix z;
   Some (value <$> r_query r, r_fragment r)) =
  Some (Some (IConcrete (SOwned (slice_at 503 (#"hel")))),
        Some (IConcrete (SOwned (slice_at 503 (#"o/y"))))).
Proof. by vm_compute. Qed.

(** A decoder that borrows what has no percent sign. *)
#[local] Instance borrowing_decoder : PercentEncoding := {|
  percent_decode_utf8_lossy s :=
    if decide ("%"%char ∈ s) then Owned (percent_decode s) else Borrowed s |}.
#[local] Instance borrowing_decoder_laws : PercentEncodingLaws.
Proof.
  split; cbn.
  - intros s _ Hs. by rewrite decide_False.
  - intros s t. case_decide; [done|]. by intros [= ->].
  - intros s Hs. case_decide; [|done]. by apply (@percent_decode_nonempty percent_encoding_ref _).
Qed.

Definition some_origin : Slice := some_string (#"/a/b%20c//d?x=y+z").

(** Decoded segments that are indices, and one that is not. *)
Example cached_segments :
  (z ← origin_parse_at some_origin;
   '(segments, z) ← origin_path_segments some_malloc 1 true z;
   Some (seg_segments segments, decoded_segments (path_data z))) =
  let segments := [IIndexed 1 2; IConcrete (SOwned (slice_at 503 (#"b c"))); IIndexed 10 11] in
  Some (segments, Some segments).
Proof. by vm_compute. Qed.

Example zero_copy_origin_witness :
  ∃ z z1, origin_parse_at some_origin = Some z ∧
    ops_at some_malloc 1 true
      [ReadSegment 0 1; IntoOwned; IntoNormalizedNontrailing; ReadSegment 2 0; ReadField 0 0] z =
    Some (z1, [Text (Some (#"b c")); Unit; Unit; Text (Some (#"d"));
               Pair (Some (#"x", #"y z"))]).
Proof.
  pose proof (zero_copy_origin some_malloc 1 true some_origin) as Hz.
  assert (Origin_parse (text some_origin) =
          Some (Origin_new (#"/a/b%20c//d") (Some (#"x=y+z")))) as Ho by by vm_compute.
  rewrite Ho in Hz. destruct Hz as (z & zo & Hz & _ & Hs).
  specialize (Hs [ReadSegment 0 1; IntoOwned; IntoNormalizedNontrailing; ReadSegment 2 0; ReadField 0 0]).
  destruct (ops_on _ _) as [o' obs] eqn:E. vm_compute in E. injection E as _ <-.
  destruct Hs as (z1 & _ & Hz1 & _). by exists z, z1.
Defined.
End examples.
