(* ===== verification/Endpoint.v ===== *)
(** * Endpoint: the addresses of listeners and peers
    (core/lib/src/listener/endpoint.rs)

    The addresses of the standard library, with their parsers and printers, are
    a class; a custom endpoint is the text it prints as.  TLS configurations are
    opaque but for being mutual or not. *)

From Stdlib Require Import DecimalString DecimalNat.
From S2P Require Import Prelude Crates RawStr UriTables Uri.

(** [std::net]: addresses, [FromStr] and [Display]. *)
Class NetAddrs := {
  IpAddr : Type;
  SocketAddr : Type;
  socket_addr_new : IpAddr → Z → SocketAddr;
  addr_ip : SocketAddr → IpAddr;
  addr_port : SocketAddr → Z;
  parse_ip : str → option IpAddr;
  parse_socket_addr : str → option SocketAddr;
  socket_addr_text : SocketAddr → str;
  LOCALHOST : IpAddr;
  IpAddr_eq_dec :: EqDecision IpAddr;
  SocketAddr_eq_dec :: EqDecision SocketAddr;
}.

(** Parsing reads back what is printed, which is in ASCII and, before the first
    colon, part of an address. *)
Class NetAddrsLaws `{NetAddrs} : Prop := {
  addr_ip_new ip port : addr_ip (socket_addr_new ip port) = ip;
  addr_port_new ip port : (0 ≤ port < 2 ^ 16)%Z → addr_port (socket_addr_new ip port) = port;
  parse_socket_addr_text a : parse_socket_addr (socket_addr_text a) = Some a;
  socket_addr_text_graphic a : Forall (λ c, graphic c = true) (socket_addr_text a);
  socket_addr_text_proto a proto rest :
    split_once ":" (socket_addr_text a) = Some (proto, rest) →
    Forall (λ c, c ∈ #"[0123456789abcdef.") proto;
}.

Section endpoint.
Context `{Uncased} `{NetAddrs} {TlsConfig : Type} (mutual : TlsConfig → bool).

(** [enum Endpoint]. *)
Inductive Endpoint :=
  | Tcp (addr : SocketAddr)
  | Quic (addr : SocketAddr)
  | Unix (path : str)
  | Tls (inner : Endpoint) (info : option TlsConfig)
  | Custom (text : str).

(** [Endpoint::tcp], [quic], [socket_addr], [ip], [port], [unix], [tls],
    [tls_config], [mtls_config]. *)
Fixpoint tcp (self : Endpoint) : option SocketAddr :=
  match self with
  | Tcp addr => Some addr
  | Tls addr _ => tcp addr
  | _ => None
  end.

Definition quic (self : Endpoint) : option SocketAddr :=
  match self with
  | Quic addr => Some addr
  | Tls addr _ => tcp addr
  | _ => None
  end.

Fixpoint socket_addr (self : Endpoint) : option SocketAddr :=
  match self with
  | Quic addr => Some addr
  | Tcp addr => Some addr
  | Tls inner _ => socket_addr inner
  | _ => None
  end.

Fixpoint ip (self : Endpoint) : option IpAddr :=
  match self with
  | Quic addr => Some (addr_ip addr)
  | Tcp addr => Some (addr_ip addr)
  | Tls inner _ => ip inner
  | _ => None
  end.

Fixpoint port (self : Endpoint) : option Z :=
  match self with
  | Quic addr => Some (addr_port addr)
  | Tcp addr => Some (addr_port addr)
  | Tls inner _ => port inner
  | _ => None
  end.

Fixpoint unix (self : Endpoint) : option str :=
  match self with
  | Unix addr => Some addr
  | Tls addr _ => unix addr
  | _ => None
  end.

Definition tls (self : Endpoint) : option Endpoint :=
  match self with Tls addr _ => Some addr | _ => None end.

Definition tls_config (self : Endpoint) : option TlsConfig :=
  match self with Tls _ (Some config) => Some config | _ => None end.

Definition mtls_config (self : Endpoint) : bool :=
  match self with Tls _ (Some config) => mutual config | _ => false end.

(** [Endpoint::is_tcp], [is_quic], [is_unix], [is_tls]. *)
Definition is_some {A} (o : option A) : bool := match o with Some _ => true | None => false end.
Definition is_tcp (self : Endpoint) : bool := is_some (tcp self).
Definition is_quic (self : Endpoint) : bool := is_some (quic self).
Definition is_unix (self : Endpoint) : bool := is_some (unix self).
Definition is_tls (self : Endpoint) : bool := is_some (tls self).

(** [Endpoint::with_tls], [assume_tls]. *)
Definition with_tls (self : Endpoint) (config : TlsConfig) : Endpoint :=
  if is_tls self then self else Tls self (Some config).

Definition assume_tls (self : Endpoint) : Endpoint := if is_tls self then self else Tls self None.

(** [Endpoint::fetch], of what the extraction yields: an endpoint, an error
    that it is missing or another error. *)
Inductive Extracted (E : Type) := Found (e : Endpoint) | IsMissing (e : E) | Failed (e : E).
Arguments Found {E}.
Arguments IsMissing {E}.
Arguments Failed {E}.

Definition fetch {E T} (extracted : Extracted E) (invalid : Endpoint → E) (f : option Endpoint → option T) : E + T :=
  match extracted with
  | Found endpoint => match f (Some endpoint) with Some v => inr v | None => inl (invalid endpoint) end
  | IsMissing e => match f None with Some v => inr v | None => inl e end
  | Failed e => inl e
  end.

(** [Display] and [Debug]. *)
Fixpoint endpoint_display (self : Endpoint) : str :=
  match self with
  | Tcp addr | Quic addr => #"http://" ++ socket_addr_text addr
  | Unix addr => #"unix:" ++ addr
  | Custom inner => inner
  | Tls inner c =>
    match tcp inner, quic inner with
    | Some addr, _ => #"https://" ++ socket_addr_text addr ++ #" (TCP"
    | _, Some addr => #"https://" ++ socket_addr_text addr ++ #" (QUIC"
    | None, None => endpoint_display inner ++ #" (TLS"
    end ++ (if match c with Some c => mutual c | None => false end then #" + mTLS" else []) ++ #")"
  end.

Fixpoint endpoint_debug (self : Endpoint) : str :=
  match self with
  | Tcp a => #"tcp:" ++ socket_addr_text a
  | Quic a => #"quic:" ++ socket_addr_text a ++ #"]"
  | Unix a => #"unix:" ++ a
  | Tls e _ => #"unix:" ++ endpoint_debug e
  | Custom e => e
  end.

(** [Default]. *)
Definition endpoint_default : Endpoint := Tcp (socket_addr_new LOCALHOST 8000).

(** [FromStr], with its function [parse_tcp]. *)
Definition parse_tcp (s : str) (def_port : Z) : option SocketAddr :=
  match parse_socket_addr s with
  | Some addr => Some addr
  | None => (λ ip, socket_addr_new ip def_port) <$> parse_ip s
  end.

Definition endpoint_from_str (string : str) : option Endpoint :=
  match split_once ":" string with
  | Some (proto, rest) =>
    if uncased_eq (trim proto) #"tcp" then Tcp <$> parse_tcp (trim rest) 8000
    else if uncased_eq (trim proto) #"unix" then Some (Unix (trim rest))
    else Tcp <$> parse_tcp (trim string) 8000
  | None => Tcp <$> parse_tcp (trim string) 8000
  end.

(** [PartialEq]. *)
Fixpoint endpoint_eq (self other : Endpoint) : bool :=
  match self, other with
  | Tcp l0, Tcp r0 => bool_decide (l0 = r0)
  | Quic l0, Quic r0 => bool_decide (l0 = r0)
  | Unix l0, Unix r0 => bool_decide (l0 = r0)
  | Tls l0 _, Tls r0 _ => endpoint_eq l0 r0
  | Custom l0, Custom r0 => bool_decide (l0 = r0)
  | _, _ => false
  end.

(** ** Facts *)

(** The address of an endpoint, whatever layers are around it. *)
Lemma ip_port_of_addr e : ip e = addr_ip <$> socket_addr e ∧ port e = addr_port <$> socket_addr e.
Proof. by induction e. Qed.

Lemma tls_keeps_addr e config :
  socket_addr (with_tls e config) = socket_addr e ∧ socket_addr (assume_tls e) = socket_addr e ∧
  assume_tls (assume_tls e) = assume_tls e.
Proof. by destruct e. Qed.

(** A TLS endpoint over QUIC is not one of [quic], but one over TCP is. *)
Lemma quic_of_tls a info : quic (Tls (Quic a) info) = None ∧ quic (Tls (Tcp a) info) = Some a.
Proof. done. Qed.
End endpoint.
Arguments Endpoint {_} TlsConfig.
Arguments Extracted {_} TlsConfig E.

Section parsing.
Context `{UncasedLaws} `{NetAddrsLaws} {TlsConfig : Type}.

Lemma split_once_app (d : ascii) (u v : str) : d ∉ u → split_once d (u ++ d :: v) = Some (u, v).
Proof.
  intros Hd. unfold split_once. rewrite find_byte_app by done.
  by rewrite take_app_length, drop_app_ge, Nat.sub_succ_l, Nat.sub_diag by lia.
Qed.

(** What a proto of an address is not. *)
Lemma address_no_proto (proto name : str) c :
  Forall (λ c, c ∈ #"[0123456789abcdef.") proto → head name = Some c →
  forallb (λ d, negb (bool_decide (to_lower d = to_lower c))) #"[0123456789abcdef." = true →
  uncased_eq (trim proto) name = false.
Proof.
  intros Hp Hc Hn. rewrite trim_all_graphic.
  - rewrite uncased_eq_spec. apply bool_decide_eq_false. destruct name as [|c' name]; [done|]. injection Hc as ->.
    destruct proto as [|d proto]; [done|]. inversion_clear Hp as [|?? Hd _]. intros [= He _].
    rewrite forallb_forall in Hn. apply list_elem_of_In, Hn in Hd. by rewrite He, bool_decide_eq_true_2 in Hd.
  - eapply Forall_impl; [exact Hp|]. intros d Hd.
    assert (forallb graphic #"[0123456789abcdef." = true) as Hg by done.
    rewrite forallb_forall in Hg. by apply Hg, list_elem_of_In.
Qed.

(** An endpoint is read back from what [Debug] shows of it, and a TCP endpoint
    from its address. *)
Theorem endpoint_read_back :
  (∀ a, endpoint_from_str (endpoint_debug (Tcp a : Endpoint TlsConfig)) = Some (Tcp a : Endpoint TlsConfig)) ∧
  (∀ a, endpoint_from_str (socket_addr_text a) = Some (Tcp a : Endpoint TlsConfig)) ∧
  (∀ path, trim path = path →
     endpoint_from_str (endpoint_debug (Unix path : Endpoint TlsConfig)) = Some (Unix path : Endpoint TlsConfig)).
Proof.
  assert (∀ a, parse_tcp (trim (socket_addr_text a)) 8000 = Some a) as Hp.
  { intros a. rewrite trim_all_graphic by apply socket_addr_text_graphic.
    unfold parse_tcp. by rewrite parse_socket_addr_text. }
  assert (uncased_eq (trim #"tcp") #"tcp" = true ∧ uncased_eq (trim #"unix") #"tcp" = false ∧
    uncased_eq (trim #"unix") #"unix" = true) as (Ht1 & Ht2 & Ht3) by (rewrite !uncased_eq_spec; by vm_compute).
  split_and!.
  - intros a. unfold endpoint_from_str, endpoint_debug. change (#"tcp:" ++ ?t) with (#"tcp" ++ ":"%char :: t).
    rewrite split_once_app, Ht1, Hp by (vm_compute; set_solver). done.
  - intros a. unfold endpoint_from_str. destruct (split_once ":" (socket_addr_text a)) as [[proto rest]|] eqn:Hs;
      [|by rewrite Hp].
    pose proof (socket_addr_text_proto a proto rest Hs) as Hpr.
    rewrite (address_no_proto proto #"tcp" "t"), (address_no_proto proto #"unix" "u"), Hp by done. done.
  - intros path Ht. unfold endpoint_from_str, endpoint_debug. change (#"unix:" ++ ?t) with (#"unix" ++ ":"%char :: t).
    rewrite split_once_app, Ht2, Ht3, Ht by (vm_compute; set_solver). done.
Qed.
End parsing.

(** The loopback address with a port. *)
Module EndpointReference.
#[export] Instance net_addrs_ref : NetAddrs := {|
  IpAddr := unit;
  SocketAddr := nat;
  socket_addr_new _ port := Z.to_nat port;
  addr_ip _ := tt;
  addr_port := Z.of_nat;
  parse_ip s := if decide (s = #"127.0.0.1") then Some tt else None;
  parse_socket_addr s :=
    s ← strip_prefix #"127.0.0.1:" s; Nat.of_uint <$> NilEmpty.uint_of_string (String.string_of_list_ascii s);
  socket_addr_text port := #"127.0.0.1:" ++ decimal_text port;
  LOCALHOST := tt |}.

#[export] Instance net_addrs_laws : NetAddrsLaws.
Proof.
  split; cbn [addr_ip addr_port socket_addr_new parse_socket_addr socket_addr_text net_addrs_ref SocketAddr].
  - by intros [].
  - intros _ port Hp. lia.
  - intros port. rewrite strip_prefix_app. cbn [mbind option_bind]. unfold decimal_text, lit.
    by rewrite String.string_of_list_ascii_of_string, NilEmpty.usu; simpl; rewrite Unsigned.of_to.
  - intros port. apply Forall_app. split; [by repeat constructor|].
    eapply Forall_impl; [apply decimal_text_digits|]. intros c. unfold is_digit, graphic. rewrite !andb_true_iff, !Nat.leb_le. lia.
  - intros port proto rest. change (#"127.0.0.1:" ++ ?t) with (#"127.0.0.1" ++ ":"%char :: t).
    rewrite split_once_app by (vm_compute; set_solver). intros [= <- _]. apply (bool_decide_unpack _). by vm_compute.
Qed.
End EndpointReference.
