(* ===== verification/Route.v ===== *)
(** * Route: route URIs, their metadata and ranks
    (core/lib/src/route/segment.rs, uri.rs, route.rs)

    The handler of a route is a parameter of the record: this file does not
    call it.  A [&str] slice that would panic does not occur in
    [segment_from]; the panics of [RouteUri::new] are [None]. *)

From S2P Require Import Prelude Sentinel Crates RawStr Method MediaType UriTables Uri.

(** ** Segments of a route URI *)

(** [struct Segment]. *)
Record Segment := Segment_new {
  value : str;
  dynamic : bool;
  dynamic_trail : bool;
}.

#[export] Instance Segment_eq_dec : EqDecision Segment.
Proof. solve_decision. Defined.

Section route_uri.
Context `{StablePattern} `{Memchr} `{PercentEncoding} `{Pear}.

(** [Segment::from]; [RawStr]'s [starts_with] and [ends_with] go through
    [stable_pattern]. *)
Definition segment_from (segment : str) : Segment :=
  if sp_is_prefix_of (#"<") segment && sp_is_suffix_of (#">") segment then
    let value := take (length segment - 1 - 1) (drop 1 segment) in
    if sp_is_suffix_of (#"..") value then
      Segment_new (take (length value - 2) value) true true
    else Segment_new value true false
  else Segment_new segment false false.

(** ** Metadata *)

(** [enum Color], with its discriminants. *)
Inductive Color := Static | Partial | Wild.

#[export] Instance Color_eq_dec : EqDecision Color.
Proof. solve_decision. Defined.

Definition color_u8 (c : Color) : Z :=
  match c with Static => 3 | Partial => 2 | Wild => 1 end.

(** [struct Metadata]. *)
Record Metadata := Metadata_new {
  uri_segments : list Segment;
  base_len : nat;
  static_query_fields : list (str * str);
  path_color : Color;
  query_color : option Color;
  metadata_dynamic_trail : bool;
}.

(** The color of components of which all are static, or all dynamic, or
    neither. *)
Definition color_of (is_static is_wild : bool) : Color :=
  match is_static, is_wild with
  | true, _ => Static
  | _, true => Wild
  | _, _ => Partial
  end.

(** [ValueField::parse], as far as its name and value go (form/field.rs). *)
Definition static_field (value : str) : str * str := split_at_byte value "=".

(** [Metadata::from]. *)
Definition Metadata_from (base uri : Origin) : Metadata :=
  let uri_segments := segment_from <$> path_raw_segments (path uri) in
  let query_segs := match query uri with
                    | Some q => segment_from <$> query_raw_segments q
                    | None => []
                    end in
  let static_query_fields :=
    (λ s, static_field (value s)) <$> List.filter (λ s, negb (dynamic s)) query_segs in
  let static_path := forallb (λ s, negb (dynamic s)) uri_segments in
  let wild_path := negb (is_empty uri_segments) && forallb dynamic uri_segments in
  let path_color := color_of static_path wild_path in
  let query_color :=
    if negb (is_empty query_segs) then
      Some (color_of (forallb (λ s, negb (dynamic s)) query_segs) (forallb dynamic query_segs))
    else None in
  let dynamic_trail := match last uri_segments with
                       | Some p => dynamic_trail p
                       | None => false
                       end in
  let segments := origin_segments base in
  let num_empty := length (List.filter is_empty segments) in
  let base_len := (length segments - num_empty)%nat in
  Metadata_new uri_segments base_len static_query_fields path_color query_color dynamic_trail.

(** ** RouteUri *)

(** [struct RouteUri]. *)
Record RouteUri := RouteUri_new {
  base : Origin;
  unmounted_origin : Origin;
  uri : Origin;
  metadata : Metadata;
}.

(** [RouteUri::try_new]. *)
Definition try_new (base uri : str) : option RouteUri :=
  base ← into_normalized <$> Origin_parse base;
  let base := clear_query base in
  origin ← into_normalized <$> parse_route uri;
  let route_uri :=
    if bool_decide (path origin = #"/") && negb (has_trailing_slash base) then
      match query origin with
      | Some query => to_string base ++ "?"%char :: query
      | None => to_string base
      end
    else to_string base ++ to_string origin in
  uri ← into_normalized <$> parse_route route_uri;
  Some (RouteUri_new base origin uri (Metadata_from base uri)).

(** [RouteUri::default_rank]: [u8] weights, an [isize] rank. *)
Definition default_rank (self : RouteUri) : Z :=
  let raw_path_weight := color_u8 (path_color (metadata self)) in
  let raw_query_weight :=
    match query_color (metadata self) with Some c => color_u8 c | None => 0%Z end in
  let raw_weight :=
    Z.lor (Z.shiftl raw_path_weight 2 mod 256) raw_query_weight in
  (- (raw_weight - 3))%Z.

(** ** Route *)

(** [struct Route]. *)
Record Route {Handler : Type} := Route_with {
  name : option str;
  method : option Method;
  handler : Handler;
  route_uri : RouteUri;
  rank : Z;
  format : option MediaType;
  sentinels : list Sentry;
  location : option (str * Z * Z);
}.
Arguments Route : clear implicits.

(** [Route::ranked] and [Route::new]; [None] is the panic of an invalid URI. *)
Definition ranked {Handler} (rank : option Z) (method : option Method) (uri : str)
    (handler : Handler) : option (Route Handler) :=
  uri ← try_new (#"/") uri;
  let rank := default (default_rank uri) rank in
  Some (Route_with Handler None method handler uri rank None [] None).

Definition Route_new {Handler} (method : option Method) (uri : str) (handler : Handler) :=
  ranked None method uri handler.

(** Replacing the URI of a route. *)
Definition with_uri {Handler} (uri : RouteUri) (self : Route Handler) : Route Handler :=
  Route_with Handler (name self) (method self) (handler self) uri (rank self) (format self)
    (sentinels self) (location self).

(** [Route::rebase]; [None] is the panic of an invalid base. *)
Definition rebase {Handler} (new : Origin) (self : Route Handler) : option (Route Handler) :=
  let old := path (base (route_uri self)) in
  let new_base := if bool_decide (old = #"/") then path new else path new ++ old in
  uri ← try_new new_base (to_string (unmounted_origin (route_uri self)));
  Some (with_uri uri self).

(** [Route::map_base]. *)
Definition map_base {Handler} (mapper : Origin → str) (self : Route Handler)
  : option (Route Handler) :=
  let base := mapper (base (route_uri self)) in
  uri ← try_new base (to_string (unmounted_origin (route_uri self)));
  Some (with_uri uri self).

(** [struct StaticInfo] and [impl From<StaticInfo> for Route]. *)
Record StaticInfo {Handler : Type} := StaticInfo_new {
  info_name : str;
  info_method : option Method;
  info_uri : str;
  info_format : option MediaType;
  info_handler : Handler;
  info_rank : option Z;
  info_sentinels : list Sentry;
  info_location : str * Z * Z;
}.
Arguments StaticInfo : clear implicits.

Definition route_from {Handler} (info : StaticInfo Handler) : option (Route Handler) :=
  uri ← try_new (#"/") (info_uri info);
  Some (Route_with Handler (Some (info_name info)) (info_method info) (info_handler info) uri
          (default (default_rank uri) (info_rank info)) (info_format info)
          (info_sentinels info) (Some (info_location info))).
End route_uri.

Arguments Route : clear implicits.
Arguments StaticInfo : clear implicits.

(** ** Ranks *)

(** The rank table of the documentation of [Route]. *)
Definition rank_table (path : Color) (query : option Color) : Z :=
  match path, query with
  | Static, Some Static => -12
  | Static, Some Partial => -11
  | Static, Some Wild => -10
  | Static, None => -9
  | Partial, Some Static => -8
  | Partial, Some Partial => -7
  | Partial, Some Wild => -6
  | Partial, None => -5
  | Wild, Some Static => -4
  | Wild, Some Partial => -3
  | Wild, Some Wild => -2
  | Wild, None => -1
  end.

(** The default rank is that of the documented table; it lies between -12
    and -1, and a URI whose path is the more static one has the lower rank,
    whatever the queries. *)
Theorem default_rank_table (u v : RouteUri) :
  default_rank u = rank_table (path_color (metadata u)) (query_color (metadata u)) ∧
  (-12 ≤ default_rank u ≤ -1)%Z ∧
  (default_rank u = default_rank v ↔
     path_color (metadata u) = path_color (metadata v) ∧
     query_color (metadata u) = query_color (metadata v)) ∧
  ((color_u8 (path_color (metadata v)) < color_u8 (path_color (metadata u)))%Z →
   (default_rank u < default_rank v)%Z).
Proof.
  unfold default_rank.
  destruct (path_color (metadata u)), (query_color (metadata u)) as [[]|],
    (path_color (metadata v)), (query_color (metadata v)) as [[]|]; vm_compute;
    split_and!; first [done|by intros|by intros [? ?]].
Qed.

(** ** Mounting *)

(** The non-empty segments of a path. *)
Definition words `{StablePattern} (p : str) : list str :=
  List.filter nonempty (path_raw_segments p).

Section mounting.
Context `{StablePatternLaws} `{Memchr} `{PercentEncodingLaws} `{PearLaws}.

Lemma raw_segments_slash t : path_raw_segments (slash :: t) = split_on slash (trim_end t).
Proof.
  unfold path_raw_segments. rewrite trim_slash, sp_split_spec, sp_strip_prefix_spec. done.
Qed.

(** The words of a concatenation, when the first path ends in no white space. *)
Lemma words_app t u :
  Forall (λ c, graphic c = true) t →
  words (slash :: t ++ slash :: u) = words (slash :: t) ++ words (slash :: u).
Proof.
  intros Ht. unfold words. rewrite !raw_segments_slash, trim_end_stop by done.
  rewrite split_on_app_delim, filter_app_list. do 3 f_equal.
  symmetry. destruct t as [|c t]; [done|].
  pose proof (trim_all_graphic (c :: t) Ht) as Htr. unfold trim in Htr.
  inversion Ht. by rewrite trim_start_graphic in Htr.
Qed.

Lemma words_root : words [slash] = [].
Proof. unfold words. by rewrite raw_segments_slash. Qed.

(** Normalization keeps the words. *)
Lemma words_to_normalized p : words (path_to_normalized true true p) = words p.
Proof.
  destruct (raw_segments_snoc p) as (ws & w & Hw). unfold words.
  destruct (to_normalized_segments true p ws w Hw) as (vs & v & Hv & Hne & -> & Ht).
  specialize (Ht eq_refl) as ->. rewrite (raw_segments_last_trim _ _ _ Hw), Hw, <-Hv.
  unfold normal_words. destruct (List.filter nonempty (ws ++ [w])) eqn:E; [done|].
  cbn [is_empty andb]. pose proof (filter_nonempty_ne (ws ++ [w])) as Hf. rewrite E in Hf.
  destruct (is_empty w); [|by apply filter_nonempty_id].
  rewrite filter_app_list, (filter_nonempty_id _ Hf). simpl. by rewrite app_nil_r.
Qed.

Lemma words_normalize o : words (path (into_normalized o)) = words (path o).
Proof. simpl. case_match; [apply words_to_normalized|done]. Qed.

Lemma normalize_path_normalized o : path_is_normalized true (path (into_normalized o)) = true.
Proof.
  simpl. destruct (path_is_normalized true (path o)) eqn:E; simpl; [done|].
  apply to_normalized_is_normalized.
Qed.

(** A byte that does not occur in a path does not occur in its normal form. *)
Lemma raw_segments_no_byte d t : (d ∉ t) → Forall (λ w, d ∉ w) (path_raw_segments (slash :: t)).
Proof.
  intros Hd. rewrite raw_segments_slash. apply (trim_end_delim d) in Hd.
  assert (Forall (λ c, c ≠ d) (trim_end t)) as Hf by (apply Forall_forall; set_solver).
  apply (Forall_split _ slash) in Hf. eapply Forall_impl; [exact Hf|].
  intros w Hw Hin. rewrite Forall_forall in Hw. by apply (Hw d).
Qed.

Lemma normalize_no_byte d o t :
  path o = slash :: t → d ∉ path o → d ∉ path (into_normalized o).
Proof.
  intros Ho Hd. simpl. case_match; [|done]. rewrite Ho in *.
  destruct (raw_segments_snoc (slash :: t)) as (ws & w & Hw).
  rewrite (to_normalized_words _ _ _ _ Hw).
  assert (Forall (λ w, d ∉ w) (ws ++ [w])) as Hf
    by (rewrite <-Hw; apply raw_segments_no_byte; set_solver).
  assert (Forall (λ v, d ∉ v) (normal_words true ws w)) as Hn.
  { unfold normal_words. pose proof (Forall_filter_list nonempty _ _ Hf).
    assert (d ∉ ([] : str)) by set_solver.
    destruct (is_empty _); [by repeat constructor|]. destruct (_ && _); [|done].
    apply Forall_app. split; [done|by repeat constructor]. }
  assert (Forall (λ c, c ≠ d) (slash :: join slash (normal_words true ws w))) as Hj.
  { constructor; [set_solver|]. apply Forall_join; [set_solver|].
    eapply Forall_impl; [exact Hn|]. intros v Hv. apply Forall_forall. set_solver. }
  rewrite Forall_forall in Hj. intros Hin. by apply (Hj d).
Qed.

Lemma normalized_path_slash o :
  path_is_normalized true (path o) = true → ∃ t, path o = slash :: t.
Proof.
  unfold path_is_normalized. autorewrite with crates. simpl.
  destruct (starts_with _ _) eqn:E; [intros _|done]. by apply starts_with_slash.
Qed.

(** [parse_route] of a path and query written out. *)
Lemma parse_route_spec s o :
  parse_route s = Some o → (∃ t, path o = slash :: t) ∧ ("?"%char ∉ path o).
Proof.
  unfold parse_route. destruct (starts_with [slash] s) eqn:Hs; [|done]. simpl.
  apply starts_with_slash in Hs as [t ->]. unfold split_once.
  destruct (find_byte "?" (slash :: t)) as [i|] eqn:Hf; intros [= <-]; simpl.
  - apply find_byte_Some in Hf as Hf'. destruct Hf' as (Hi & Hq & _). split; [|done].
    destruct i; [by simplify_eq/=|]. simpl. eauto.
  - split; [eauto|]. by apply find_byte_None.
Qed.

Lemma parse_route_to_string t q :
  ("?"%char ∉ t) →
  parse_route (to_string (Origin_new (slash :: t) q)) = Some (Origin_new (slash :: t) q).
Proof.
  intros Hq. unfold parse_route, to_string, split_once. cbn [path query app]. replace (starts_with [slash] _) with true by done. cbn [negb].
  destruct q as [q|].
  - rewrite app_comm_cons, find_byte_app by set_solver.
    rewrite take_app_length, drop_app_ge, Nat.sub_succ_l, Nat.sub_diag by lia. done.
  - rewrite app_nil_r. assert (find_byte "?" (slash :: t) = None) as ->; [|done].
    apply find_byte_None. set_solver.
Qed.

Lemma pchars_no_question p : Forall (λ c, is_pchar c = true) p → "?"%char ∉ p.
Proof. intros Hp Hin. rewrite Forall_forall in Hp. by specialize (Hp _ Hin). Qed.

(** The base [try_new] computes. *)
Lemma base_normalized s b :
  into_normalized <$> Origin_parse s = Some b →
  ∃ t, path b = slash :: t ∧ Forall (λ c, is_pchar c = true) (slash :: t) ∧
    path_is_normalized true (path b) = true.
Proof.
  intros (o & Ho & ->)%fmap_Some. apply Origin_parse_valid in Ho as [(Hs & Hp & _) _].
  cbn [fst snd] in Hs, Hp. pose proof (normalize_path_normalized o) as Hn.
  destruct (normalized_path_slash _ Hn) as [t Ht]. exists t. split_and!; [done| |done].
  rewrite <-Ht. simpl. apply starts_with_slash in Hs as [u Hu].
  case_match; [|done]. rewrite Hu in *. apply to_normalized_bytes. by inversion Hp.
Qed.

Lemma route_normalized s o :
  into_normalized <$> parse_route s = Some o →
  ∃ t, path o = slash :: t ∧ ("?"%char ∉ t) ∧ path_is_normalized true (path o) = true.
Proof.
  intros (o' & Ho & ->)%fmap_Some. apply parse_route_spec in Ho as [[t' Ht'] Hq].
  pose proof (normalize_path_normalized o') as Hn.
  destruct (normalized_path_slash _ Hn) as [t Ht]. exists t. split_and!; [done| |done].
  pose proof (normalize_no_byte "?" o' t' Ht' Hq) as Hq'. rewrite Ht in Hq'. set_solver.
Qed.

(** The string [try_new] parses again, as an origin. *)
Lemma combined_parses b o tb t :
  path b = slash :: tb → ("?"%char ∉ tb) → query b = None →
  path o = slash :: t → ("?"%char ∉ t) →
  parse_route
    (if bool_decide (path o = #"/") && negb (has_trailing_slash b) then
       match query o with
       | Some query => to_string b ++ "?"%char :: query
       | None => to_string b
       end
     else to_string b ++ to_string o) =
  Some (Origin_new
    (if bool_decide (path o = #"/") && negb (has_trailing_slash b) then path b
     else path b ++ path o) (query o)).
Proof.
  intros Hb Hqb Hqn Ho Hqo. destruct b as [pb qb], o as [po qo]. cbn [path query] in *. subst.
  set (cond := bool_decide _ && _). destruct cond.
  - rewrite <-(parse_route_to_string tb qo) by done. unfold to_string. cbn [path query].
    destruct qo; by rewrite app_nil_r.
  - change ((slash :: tb) ++ slash :: t) with (slash :: tb ++ slash :: t).
    rewrite <-(parse_route_to_string (tb ++ slash :: t) qo) by set_solver.
    unfold to_string. cbn [path query]. by rewrite app_nil_r, app_assoc.
Qed.

(** The words and the metadata of a mounted URI. *)
Lemma try_new_words (b u : str) r :
  try_new b u = Some r →
  words (path (uri r)) = words (path (base r)) ++ words (path (unmounted_origin r)) ∧
  metadata r = Metadata_from (base r) (uri r) ∧
  ∃ o, parse_route u = Some o ∧ words (path (unmounted_origin r)) = words (path o).
Proof.
  intros Hr. unfold try_new in Hr.
  apply bind_Some in Hr as (b' & Hb & (o & Ho & (w & Hw & [= <-])%bind_Some)%bind_Some).
  cbn [base unmounted_origin uri metadata].
  destruct (base_normalized _ _ Hb) as (tb & Htb & Hpb & Hnb).
  destruct (route_normalized _ _ Ho) as (t & Ht & Hqt & Hno).
  assert ("?"%char ∉ tb) as Hqb by (inversion Hpb; by apply pchars_no_question).
  rewrite (combined_parses (clear_query b') o tb t Htb Hqb eq_refl Ht Hqt) in Hw.
  apply fmap_Some in Hw as (w' & [= <-] & ->). rewrite words_normalize. cbn [path clear_query set_query].
  split_and!; [|done|].
  - case_match eqn:E; [|rewrite Htb, Ht; apply words_app].
    + apply andb_true_iff in E as [->%bool_decide_eq_true _].
      change (#"/") with [slash]. by rewrite words_root, app_nil_r.
    + inversion_clear Hpb. by apply pchars_graphic.
  - apply fmap_Some in Ho as (o0 & Ho0 & ->). exists o0. by rewrite words_normalize.
Qed.

(** Mounting: when a base and a route URI are accepted, all three origins
    of the result are normalized, the base carries no query, the non-empty
    segments of the whole are those of the base followed by those of the
    route, the query is the route's, and the metadata are those of the whole;
    a base is accepted exactly when it parses. *)
Theorem try_new_mounts (b u : str) :
  (∀ r, try_new b u = Some r →
    path_is_normalized true (path (base r)) = true ∧ query (base r) = None ∧
    path_is_normalized true (path (unmounted_origin r)) = true ∧
    path_is_normalized true (path (uri r)) = true ∧
    words (path (uri r)) = words (path (base r)) ++ words (path (unmounted_origin r)) ∧
    (query (uri r) = None ↔ query (unmounted_origin r) = None) ∧
    (∀ q, query (unmounted_origin r) = Some q → query_is_normalized q = true →
       query (uri r) = Some q) ∧
    metadata r = Metadata_from (base r) (uri r)) ∧
  (is_Some (try_new b u) ↔ is_Some (Origin_parse b) ∧ starts_with [slash] u = true).
Proof.
  split.
  - intros r Hr. destruct (try_new_words b u r Hr) as (Hwords & _ & _). revert Hwords.
    unfold try_new in Hr. apply bind_Some in Hr as (b' & Hb & (o & Ho & (w & Hw & [= <-])%bind_Some)%bind_Some).
    cbn [base unmounted_origin uri metadata].
    destruct (base_normalized _ _ Hb) as (tb & Htb & Hpb & Hnb).
    destruct (route_normalized _ _ Ho) as (t & Ht & Hqt & Hno).
    assert ("?"%char ∉ tb) as Hqb by (inversion Hpb; by apply pchars_no_question).
    rewrite (combined_parses (clear_query b') o tb t Htb Hqb eq_refl Ht Hqt) in Hw.
    apply fmap_Some in Hw as (w' & [= <-] & ->). intros Hwords.
    split_and!; [done..|apply normalize_path_normalized|done| | |done].
    + simpl. destruct (query o) as [q|]; [|done]. by destruct (query_is_normalized q).
    + intros q Hq Hqn. simpl. by rewrite Hq, Hqn.
  - unfold try_new, is_Some. destruct (Origin_parse b) as [b0|] eqn:Hb; [|naive_solver].
    simpl. destruct (parse_route u) as [o0|] eqn:Ho.
    + destruct (base_normalized b (into_normalized b0)) as (tb & Htb & Hpb & _);
        [by rewrite Hb|].
      destruct (route_normalized u (into_normalized o0)) as (t & Ht & Hqt & _);
        [by rewrite Ho|].
      assert ("?"%char ∉ tb) as Hqb by (inversion Hpb; by apply pchars_no_question).
      cbn [mbind option_bind fmap option_fmap option_map].
      rewrite (combined_parses (clear_query (into_normalized b0)) (into_normalized o0) tb t Htb Hqb eq_refl Ht Hqt).
      split; [|by eexists]. intros _. split; [by eexists|].
      unfold parse_route in Ho. by destruct (starts_with [slash] u).
    + split; [naive_solver|]. intros [_ Hu]. unfold parse_route in Ho. rewrite Hu in Ho.
      simpl in Ho. by destruct (split_once _ _) as [[]|].
Qed.
End mounting.

(** Mounting a concrete route. *)
Section witness.
Import Reference PearReference.

Example try_new_mounts_witness :
  ∃ r, try_new (#"/api//") (#"/user/<id>?<q..>") = Some r ∧
    words (path (uri r)) = words (path (base r)) ++ words (path (unmounted_origin r)) ∧
    to_string (uri r) = #"/api/user/<id>?<q..>".
Proof.
  destruct (try_new_mounts (#"/api//") (#"/user/<id>?<q..>")) as [Hr Hs].
  destruct Hs as [_ [r Hr']]; [split; [by eexists|done]|].
  exists r. destruct (Hr r Hr') as (_ & _ & _ & _ & Hw & _). split_and!; [done..|].
  assert (Some (to_string (uri r)) = Some (#"/api/user/<id>?<q..>")) as [= ->]; [|done].
  change (Some (to_string (uri r))) with ((to_string ∘ uri) <$> Some r). rewrite <-Hr'.
  by vm_compute.
Defined.
End witness.
