(* ===== verification/Catcher.v ===== *)
(** * Catcher: error catchers, their bases and ranks
    (core/lib/src/catcher/catcher.rs)

    As in [Route], the handler is a parameter of the record; [None] is a panic
    or, for [map_base], the error of the parser. *)

From S2P Require Import Prelude Crates RawStr UriTables Uri Route.

Section Catcher.
Context `{StablePattern} `{Memchr} `{PercentEncoding} `{Pear}.

(** [struct Catcher]. *)
Record Catcher {Handler : Type} := Catcher_with {
  name : option str;
  code : option Z;
  handler : Handler;
  base : Origin;
  rank : Z;
  location : option (str * Z * Z);
}.

(** [fn rank]: minus the number of non-empty segments. *)
Definition catcher_rank (base : str) : Z :=
  (- Z.of_nat (length (List.filter nonempty (path_segments base))))%Z.

(** [Catcher::new]: the assertion on the code may fail. *)
Definition Catcher_new {Handler} (code : option Z) (handler : Handler)
  : option (@Catcher Handler) :=
  if match code with Some code => (400 <=? code)%Z && (code <? 600)%Z | None => true end then
    Some (Catcher_with Handler None code handler root (catcher_rank (path root)) None)
  else None.

(** The catcher at another base, with its rank. *)
Definition with_base {Handler} (base : Origin) (self : @Catcher Handler) : @Catcher Handler :=
  Catcher_with Handler (name self) (code self) (handler self) base (catcher_rank (path base))
    (location self).

(** [Catcher::rebase]. *)
Definition rebase {Handler} (new : Origin) (self : @Catcher Handler)
  : option (@Catcher Handler) :=
  base ← (if bool_decide (path (base self) = #"/")
          then Some (into_normalized_nontrailing (clear_query new))
          else into_normalized_nontrailing <$>
                 Origin_parse (path new ++ to_string (base self)));
  Some (with_base base self).

(** [Catcher::map_base]: normalized first, then stripped of its query. *)
Definition map_base {Handler} (mapper : Origin → str) (self : @Catcher Handler)
  : option (@Catcher Handler) :=
  new_base ← Origin_parse (mapper (base self));
  Some (with_base (clear_query (into_normalized_nontrailing new_base)) self).

(** [impl Default for Catcher], given its handler; [None] as a code never
    fails the assertion. *)
Definition Catcher_default {Handler} (handler : Handler) : @Catcher Handler :=
  Catcher_with Handler (Some (#"<Rocket Catcher>")) None handler root (catcher_rank (path root))
    None.

(** [struct StaticInfo] and [impl From<StaticInfo> for Catcher]. *)
Record CatcherInfo {Handler : Type} := CatcherInfo_new {
  info_name : str;
  info_code : option Z;
  info_handler : Handler;
  info_location : str * Z * Z;
}.

Definition catcher_from {Handler} (info : @CatcherInfo Handler) : option (@Catcher Handler) :=
  catcher ← Catcher_new (info_code info) (info_handler info);
  Some (Catcher_with Handler (Some (info_name info)) (code catcher) (handler catcher)
          (base catcher) (rank catcher) (Some (info_location info))).

(** The invariant of catchers. *)
Definition catcher_wf {Handler} (c : @Catcher Handler) : Prop :=
  Origin_valid (base c) ∧ is_normalized_nontrailing (base c) = true ∧ query (base c) = None ∧
  rank c = catcher_rank (path (base c)) ∧
  match code c with Some code => (400 ≤ code < 600)%Z | None => True end.
End Catcher.

Arguments Catcher : clear implicits.
Arguments CatcherInfo : clear implicits.

(** ** Lemmas *)

Section catcher_lemmas.
Context `{StablePatternLaws} `{MemchrLaws} `{PercentEncodingLaws} `{PearLaws}.

Lemma percent_decode_lossy_empty s :
  is_empty (cow_value (percent_decode_lossy s)) = is_empty s.
Proof.
  unfold percent_decode_lossy. destruct (is_empty s) eqn:E; [done|].
  apply is_empty_false in E. by apply is_empty_false, percent_decode_nonempty.
Qed.

(** The rank counts the words. *)
Lemma path_segments_words p :
  length (List.filter nonempty (path_segments p)) = length (words p).
Proof.
  unfold path_segments, words. induction (path_raw_segments p) as [|s ss IH]; [done|].
  pose proof (percent_decode_lossy_empty s) as He. destruct s as [|c s]; simpl.
  - destruct (nonempty ss); exact IH.
  - unfold nonempty at 1. rewrite He. simpl. by f_equal.
Qed.

Lemma catcher_rank_words p : catcher_rank p = (- Z.of_nat (length (words p)))%Z.
Proof. unfold catcher_rank. by rewrite path_segments_words. Qed.

(** The words of a valid path. *)
Lemma words_graphic t :
  Forall (λ c, graphic c = true) t →
  words (slash :: t) = List.filter nonempty (split_on slash t).
Proof.
  intros Ht. unfold words, path_raw_segments. rewrite trim_all_graphic by by constructor.
  by autorewrite with crates.
Qed.

Lemma words_to_normalized_false t :
  Forall (λ c, is_pchar c = true) t →
  words (path_to_normalized true false (slash :: t)) = words (slash :: t).
Proof.
  intros Ht. destruct (raw_segments_snoc (slash :: t)) as (ws & w & Hw).
  pose proof (to_normalized_bytes false t Ht) as Hb.
  rewrite (to_normalized_words _ _ _ _ Hw) in *.
  rewrite words_graphic by (inversion Hb; by apply pchars_graphic).
  unfold words. rewrite Hw. unfold normal_words. cbn [andb].
  pose proof (raw_segments_no_slash (slash :: t)) as Hs. rewrite Hw in Hs.
  pose proof (Forall_filter_list nonempty _ _ Hs) as Hf.
  pose proof (filter_nonempty_ne (ws ++ [w])) as Hne.
  destruct (List.filter nonempty (ws ++ [w])) as [|x l]; [done|]. cbn [is_empty].
  rewrite split_join by done. by apply filter_nonempty_id.
Qed.

Lemma normalize_nontrailing_words o :
  Origin_valid o → words (path (into_normalized_nontrailing o)) = words (path o).
Proof.
  intros (Hs & Hp & _). cbn [fst snd] in *. apply starts_with_slash in Hs as [t Ht].
  unfold into_normalized_nontrailing. destruct (negb _); [|done].
  destruct (is_normalized o && has_trailing_slash o) eqn:E.
  - cbn [path]. apply andb_true_iff in E as [_ E]. unfold has_trailing_slash in E.
    autorewrite with crates in E. apply andb_true_iff in E as [Hl He].
    apply ends_with_spec in He as [r Hr]. rewrite Ht in Hr. destruct r as [|c r].
    { simplify_eq/=. by rewrite Ht in Hl. }
    simplify_eq/=. rewrite Ht in *. inversion Hp as [|?? _ Hp']. apply Forall_app in Hp' as [Hr' _].
    change (slash :: r ++ [slash]) with ((slash :: r) ++ [slash]) at 1 2.
    rewrite length_app, Nat.add_sub, take_app_length.
    rewrite words_app by by apply pchars_graphic. by rewrite words_root, app_nil_r.
  - unfold _normalize. cbn [path]. destruct (path_is_normalized true (path o)); [done|].
    cbn [negb]. rewrite Ht in *. apply words_to_normalized_false. by inversion Hp.
Qed.

Lemma normalize_nontrailing_valid o :
  Origin_valid o → query o = None →
  Origin_valid (into_normalized_nontrailing o) ∧
  query (into_normalized_nontrailing o) = None ∧
  is_normalized_nontrailing (into_normalized_nontrailing o) = true.
Proof.
  intros Hv Hq. assert (query (into_normalized_nontrailing o) = None) as Hq'.
  { unfold into_normalized_nontrailing. destruct (negb _); [|done].
    destruct (_ && _); [done|]. unfold _normalize. cbn [query]. by rewrite Hq. }
  split_and!; [|done|apply nontrailing_is_normalized; [done|congruence]].
  destruct Hv as (Hs & Hp & _). cbn [fst snd] in *.
  split_and!; cbn [fst snd]; [| |by rewrite Hq'];
    unfold into_normalized_nontrailing; (destruct (negb _); [|done]);
    (destruct (_ && _) eqn:E; cbn [path]).
  - apply andb_true_iff in E as [_ E]. unfold has_trailing_slash in E.
    apply andb_true_iff in E as [Hl _]. apply starts_with_slash in Hs as [t Ht].
    rewrite Ht in *. by destruct t.
  - unfold _normalize. cbn [path]. case_match; [|done].
    destruct (raw_segments_snoc (path o)) as (ws & w & Hw).
    by rewrite (to_normalized_words _ _ _ _ Hw).
  - by apply Forall_take.
  - unfold _normalize. cbn [path]. case_match; [|done].
    apply starts_with_slash in Hs as [t Ht]. rewrite Ht in *.
    apply to_normalized_bytes. by inversion Hp.
Qed.

(** The non-trailing normal form of a parsed origin has the origin's
    non-empty segments, and, when the origin's query is absent or normalized,
    or its path is not normalized, it is normalized without trailing slash. *)
Theorem into_normalized_nontrailing_correct (o : Origin) :
  Origin_valid o →
  words (path (into_normalized_nontrailing o)) = words (path o) ∧
  ((path_is_normalized true (path o) = true →
    ∀ q, query o = Some q → query_is_normalized q = true) →
   is_normalized_nontrailing (into_normalized_nontrailing o) = true).
Proof.
  intros Ho. split; [by apply normalize_nontrailing_words|by apply nontrailing_is_normalized].
Qed.

Lemma catcher_wf_with_base {Handler} (c : Catcher Handler) o :
  catcher_wf c → Origin_valid o → query o = None →
  catcher_wf (with_base (into_normalized_nontrailing o) c).
Proof.
  intros (_ & _ & _ & _ & Hcode) Ho Hq.
  destruct (normalize_nontrailing_valid o Ho Hq) as (? & ? & ?). by split_and!.
Qed.

Lemma valid_app (a b : Origin) :
  Origin_valid a → Origin_valid b → query b = None →
  Origin_parse (path a ++ to_string b) = Some (Origin_new (path a ++ path b) None).
Proof.
  intros (Ha & Hpa & _) (Hb & Hpb & _) Hq. cbn [fst snd] in *. unfold Origin_parse.
  assert (path a ++ to_string b = origin_syntax (path a ++ path b, None)) as ->.
  { unfold to_string, origin_syntax. cbn [fst snd]. by rewrite Hq, !app_nil_r. }
  rewrite origin_from_str_valid; [done|]. split_and!; cbn [fst snd].
  - by apply starts_with_app_l.
  - by apply Forall_app.
  - done.
Qed.

Lemma Catcher_new_iff {Handler} (h : Handler) (status : option Z) :
  is_Some (Catcher_new status h) ↔ ∀ n, status = Some n → (400 ≤ n < 600)%Z.
Proof.
  unfold Catcher_new. destruct status as [n|]; [|by split; [done|eexists]].
  destruct (_ && _) eqn:E; (split; [intros Hs ? [= <-]|intros Hn]).
  - lia.
  - by eexists.
  - by destruct Hs.
  - specialize (Hn n eq_refl). lia.
Qed.

Lemma Catcher_new_wf {Handler} (h : Handler) (status : option Z) c :
  Catcher_new status h = Some c → catcher_wf c.
Proof.
  intros Hc. pose proof (proj1 (Catcher_new_iff h status) (mk_is_Some _ _ Hc)) as Hn. unfold Catcher_new in Hc.
  destruct (match status with Some _ => _ | None => _ end); [|done]. simplify_eq/=.
  split_and!; cbn [base query rank code path root].
  + split_and!; [done|by repeat constructor|done].
  + unfold is_normalized_nontrailing, is_normalized, has_trailing_slash. cbn [path query root].
    assert (path_is_normalized true [slash] = true) as ->; [|done].
    rewrite (is_normalized_snoc _ [] []); [done|]. by rewrite raw_segments_slash.
  + done.
  + done.
  + destruct status; [by apply Hn|done].
Qed.

Lemma rebase_wf {Handler} (c : Catcher Handler) (new : Origin) :
  catcher_wf c → Origin_valid new →
  ∃ c', rebase new c = Some c' ∧ catcher_wf c' ∧ code c' = code c ∧
    words (path (base c')) = words (path new) ++ words (path (base c)) ∧
    rank c' = (rank c - Z.of_nat (length (words (path new))))%Z.
Proof.
  intros Hwf Hv. pose proof Hwf as (Hb & Hn & Hq & Hr & _). unfold rebase.
  case_bool_decide as Hroot.
  + assert (Origin_valid (clear_query new)) as Hv' by (destruct Hv as (? & ? & _); by split_and!).
    eexists. split_and!; [done|by apply catcher_wf_with_base|done| |];
      cbn [base rank with_base]; rewrite ?catcher_rank_words, normalize_nontrailing_words by done;
      cbn [path clear_query set_query].
    * rewrite Hroot. change (#"/") with [slash]. by rewrite words_root, app_nil_r.
    * rewrite Hr, Hroot, catcher_rank_words. change (#"/") with [slash]. rewrite words_root. simpl. lia.
  + rewrite valid_app by done. set (o := Origin_new _ _).
    assert (Origin_valid o) as Ho.
    { destruct Hv as (? & ? & _), Hb as (? & ? & _).
      split_and!; cbn; [by apply starts_with_app_l|by apply Forall_app|done]. }
    assert (words (path new ++ path (base c)) = words (path new) ++ words (path (base c))) as Hw.
    { destruct Hv as (Hs & Hp & _), Hb as (Hs' & _). cbn [fst snd] in *.
      apply starts_with_slash in Hs as [t Ht], Hs' as [t' Ht']. rewrite Ht, Ht' in *.
      apply words_app, pchars_graphic. by inversion Hp. }
    eexists. split_and!; [done|by apply catcher_wf_with_base|done| |];
      cbn [base rank with_base]; rewrite ?catcher_rank_words, normalize_nontrailing_words by done;
      cbn [path o].
    * done.
    * rewrite Hw, Hr, catcher_rank_words, length_app. lia.
Qed.

Lemma map_base_wf {Handler} (c c' : Catcher Handler) (mapper : Origin → str) :
  catcher_wf c → map_base mapper c = Some c' → "?"%char ∉ mapper (base c) → catcher_wf c'.
Proof.
  intros Hwf Hc Hm. unfold map_base in Hc. apply bind_Some in Hc as (o & Ho & [= <-]).
  apply Origin_parse_valid in Ho as [Hv Hs].
  assert (query o = None) as Hq.
  { destruct (query o) as [q|] eqn:E; [|done]. rewrite <-Hs in Hm. unfold to_string in Hm.
    rewrite E in Hm. set_solver. }
  pose proof (catcher_wf_with_base c o Hwf Hv Hq) as Hw.
  destruct (normalize_nontrailing_valid o Hv Hq) as (_ & Hq' & _).
  destruct (into_normalized_nontrailing o) as [p q]. cbn [query] in Hq'. by subst q.
Qed.

(** The invariant of catchers - a valid normalized base without trailing
    slash and query, the rank that counts its segments, a code of an error -
    holds of new catchers, whose codes are exactly the error codes, and is
    kept by [rebase], which never panics and prefixes the words of the base;
    [map_base] keeps it when the new base has no query. *)
Theorem catcher_invariant {Handler} (h : Handler) (c : Catcher Handler) (new : Origin)
    (mapper : Origin → str) (status : option Z) :
  (is_Some (Catcher_new status h) ↔ ∀ n, status = Some n → (400 ≤ n < 600)%Z) ∧
  (∀ c', Catcher_new status h = Some c' → catcher_wf c') ∧
  (catcher_wf c → Origin_valid new →
   ∃ c', rebase new c = Some c' ∧ catcher_wf c' ∧ code c' = code c ∧
     words (path (base c')) = words (path new) ++ words (path (base c)) ∧
     rank c' = (rank c - Z.of_nat (length (words (path new))))%Z) ∧
  (catcher_wf c →
   ∀ c', map_base mapper c = Some c' → "?"%char ∉ mapper (base c) → catcher_wf c').
Proof.
  split_and!; [apply Catcher_new_iff|apply Catcher_new_wf|apply rebase_wf|].
  intros Hc c'. by apply map_base_wf.
Qed.
End catcher_lemmas.

(** The theorems at concrete bases. *)
Section witness.
Import Reference PearReference.

Example into_normalized_nontrailing_witness :
  let o := Origin_new (#"//a/") None in
  is_normalized_nontrailing (into_normalized_nontrailing o) = true ∧
  to_string (into_normalized_nontrailing o) = #"/a".
Proof.
  intros o. split; [|by vm_compute].
  assert (Origin_valid o) as Hv by (split_and!; [done|by repeat constructor|done]).
  by apply (proj2 (into_normalized_nontrailing_correct o Hv)).
Defined.

Example catcher_invariant_witness :
  let c := Catcher_default tt in
  catcher_wf c ∧
  ∃ c', rebase (Origin_new (#"/api/") None) c = Some c' ∧ catcher_wf c' ∧ rank c' = (-1)%Z.
Proof.
  intros c.
  assert (catcher_wf c) as Hw.
  { split_and!; try done. split_and!; [done|by repeat constructor|done]. }
  split; [done|].
  assert (Origin_valid (Origin_new (#"/api/") None)) as Hv
    by (split_and!; [done|by repeat constructor|done]).
  destruct (catcher_invariant tt c (Origin_new (#"/api/") None) (λ o, path o) None)
    as (_ & _ & Hr & _).
  destruct (Hr Hw Hv) as (c' & Hc' & Hw' & _ & _ & Hrk). exists c'. split_and!; [done..|].
  rewrite Hrk. by vm_compute.
Defined.
End witness.
