(* ===== verification/Header.v ===== *)
(** * Header: headers and header maps (core/http/src/header/header.rs,
    proxy_proto.rs)

    A [HeaderMap] is an [IndexMap] from uncased names to the values of each
    name, in order. *)

From S2P Require Import Prelude Crates.

(** [struct Header]. *)
Record Header := Header_new { header_name : str; header_value : str }.

#[export] Instance Header_eq_dec : EqDecision Header.
Proof. solve_decision. Defined.

(** ** Validity of names and values *)

(** [is_ascii_alphanumeric], and [is_tchar] of [Header::is_valid_name]. *)
Definition is_ascii_alphanumeric (c : ascii) : bool :=
  let n := nat_of_ascii c in
  ((48 <=? n)%nat && (n <=? 57)%nat) || ((65 <=? n)%nat && (n <=? 90)%nat)
  || ((97 <=? n)%nat && (n <=? 122)%nat).

Definition is_tchar (c : ascii) : bool :=
  is_ascii_alphanumeric c || existsb (λ d, bool_decide (c = d)) (#"!#$%&'*+-.^_`|~").

(** The loop of [Header::is_valid_name] from offset [i] on. *)
Fixpoint valid_name_loop (i : nat) (bytes : str) : bool :=
  match bytes with
  | [] => (0 <? i)%nat
  | b :: bytes => if negb (is_tchar b) then false else valid_name_loop (S i) bytes
  end.

Definition is_valid_name (name : str) : bool := valid_name_loop 0 name.

Definition is_valid_start (b : ascii) : bool := graphic b.
Definition is_valid_continue (b : ascii) : bool :=
  is_valid_start b || bool_decide (b = " "%char) || bool_decide (b = "009"%char).

(** The loop of [Header::is_valid_value] from offset [i] on. *)
Fixpoint valid_value_loop (allow_empty : bool) (i : nat) (bytes : str) : bool :=
  match bytes with
  | [] => allow_empty || (0 <? i)%nat
  | b :: bytes =>
    if (i =? 0)%nat && negb (is_valid_start b) then false
    else if (0 <? i)%nat && negb (is_valid_continue b) then false
    else valid_value_loop allow_empty (S i) bytes
  end.

Definition is_valid_value (val : str) (allow_empty : bool) : bool :=
  valid_value_loop allow_empty 0 val.

(** [impl Display for Header]. *)
Definition header_to_string (self : Header) : str :=
  header_name self ++ #": " ++ header_value self.

(** ** HeaderMap *)

Section HeaderMap.
Context {U : Uncased} {IM : IndexMap str (list str) uncased_eq}.

(** [struct HeaderMap]. *)
Definition HeaderMap : Type := index_map IM.

(** [HeaderMap::new], [contains], [len], [is_empty], [get], [get_one]. *)
Definition header_map_new : HeaderMap := im_new.

Definition contains (name : str) (self : HeaderMap) : bool :=
  match im_get name self with Some _ => true | None => false end.

Definition len (self : HeaderMap) : nat :=
  length (concat (snd <$> im_entries self)).

Definition header_map_is_empty (self : HeaderMap) : bool := is_empty (im_entries self).

Definition get (name : str) (self : HeaderMap) : list str :=
  match im_get name self with Some values => values | None => [] end.

Definition get_one (name : str) (self : HeaderMap) : option str :=
  match im_get name self with
  | Some values => match values with v :: _ => Some v | [] => None end
  | None => None
  end.

(** [HeaderMap::replace] and its variants. *)
Definition replace (header : Header) (self : HeaderMap) : bool * HeaderMap :=
  let '(old, self) := im_insert (header_name header) [header_value header] self in
  (match old with Some _ => true | None => false end, self).

Definition replace_raw (name value : str) (self : HeaderMap) : bool * HeaderMap :=
  replace (Header_new name value) self.

Definition replace_all (name : str) (values : list str) (self : HeaderMap) : HeaderMap :=
  (im_insert name values self).2.

(** [HeaderMap::add] and its variants; [add_all] leaves [values] empty. *)
Definition add (header : Header) (self : HeaderMap) : HeaderMap :=
  im_or_default [] (header_name header) (λ values, values ++ [header_value header]) self.

Definition add_raw (name value : str) (self : HeaderMap) : HeaderMap :=
  add (Header_new name value) self.

Definition add_all (name : str) (values : list str) (self : HeaderMap) : list str * HeaderMap :=
  ([], im_or_default [] name (λ old, old ++ values) self).

(** [HeaderMap::remove]. *)
Definition remove (name : str) (self : HeaderMap) : HeaderMap := im_swap_remove name self.

(** [HeaderMap::iter]: the headers in order. *)
Definition entry_headers (e : str * list str) : list Header :=
  (λ val, Header_new e.1 val) <$> e.2.

Definition iter (self : HeaderMap) : list Header :=
  concat (entry_headers <$> im_entries self).

(** [struct IntoIter] and its [next]; the loop runs through entries without
    values, so the entries left bound its turns. *)
Record IntoIter := IntoIter_new {
  headers : list (str * list str);
  current : option (str * list str);
}.

Definition into_iter (self : HeaderMap) : IntoIter := IntoIter_new (im_entries self) None.

Fixpoint next_entry (headers : list (str * list str)) : option (Header * IntoIter) :=
  match headers with
  | [] => None
  | (name, values) :: headers =>
    match values with
    | value :: values => Some (Header_new name value, IntoIter_new headers (Some (name, values)))
    | [] => next_entry headers
    end
  end.

Definition into_iter_next (self : IntoIter) : option (Header * IntoIter) :=
  match current self with
  | Some (name, value :: values) =>
    Some (Header_new name value, IntoIter_new (headers self) (Some (name, values)))
  | _ => next_entry (headers self)
  end.

(** Collecting the iterator. *)
Fixpoint collect (fuel : nat) (self : IntoIter) : list Header :=
  match fuel with
  | O => []
  | S n => match into_iter_next self with
           | Some (h, self) => h :: collect n self
           | None => []
           end
  end.

(** [HeaderMap::remove_all]; [len] turns exhaust the iterator. *)
Definition remove_all (self : HeaderMap) : list Header * HeaderMap :=
  (collect (S (len self)) (into_iter self), header_map_new).
End HeaderMap.

Arguments HeaderMap {U} IM.

(** ** ProxyProto *)

(** [enum ProxyProto], its parser, printer and test. *)
Inductive ProxyProto := Http | Https | Unknown (s : str).

Section ProxyProto.
Context `{Uncased}.

Definition proxy_proto_from (value : str) : ProxyProto :=
  if uncased_eq value (#"http") then Http
  else if uncased_eq value (#"https") then Https
  else Unknown value.

Definition is_https (self : ProxyProto) : bool :=
  match self with
  | Https => true
  | _ => false
  end.

Definition proxy_proto_to_string (self : ProxyProto) : str :=
  match self with Http => #"http" | Https => #"https" | Unknown s => s end.
End ProxyProto.

(** ** Lemmas *)

Lemma valid_name_loop_spec i bytes :
  valid_name_loop i bytes = forallb is_tchar bytes && (0 <? i + length bytes)%nat.
Proof.
  revert i. induction bytes as [|b bytes IH]; intros i; simpl; [by rewrite Nat.add_0_r|].
  destruct (is_tchar b); [|done]. simpl. rewrite IH. do 2 f_equal. lia.
Qed.

Lemma valid_value_loop_spec allow i bytes :
  (0 < i)%nat → valid_value_loop allow i bytes = forallb is_valid_continue bytes.
Proof.
  revert i. induction bytes as [|b bytes IH]; intros i Hi; simpl.
  - rewrite (proj2 (Nat.ltb_lt _ _)) by done. apply orb_true_r.
  - rewrite (proj2 (Nat.eqb_neq i 0)), (proj2 (Nat.ltb_lt 0 i)) by lia. simpl.
    destruct (is_valid_continue b); [|done]. simpl. apply IH. lia.
Qed.

(** A name is valid when it is a non-empty token; a value when its first
    byte is visible and the others are visible or blank, or when it is empty
    and this is allowed: no valid value can end a header line. *)
Theorem header_validity (name val : str) (allow_empty : bool) :
  (is_valid_name name = true ↔ name ≠ [] ∧ Forall (λ c, is_tchar c = true) name) ∧
  (is_valid_value val allow_empty = true ↔
     match val with
     | [] => allow_empty = true
     | b :: bs => graphic b = true ∧
         Forall (λ c, graphic c = true ∨ c = " "%char ∨ c = "009"%char) bs
     end) ∧
  (is_valid_value val allow_empty = true → ("013"%char ∉ val) ∧ ("010"%char ∉ val)).
Proof.
  assert (is_valid_value val allow_empty = true ↔
     match val with
     | [] => allow_empty = true
     | b :: bs => graphic b = true ∧
         Forall (λ c, graphic c = true ∨ c = " "%char ∨ c = "009"%char) bs
     end) as Hv.
  { unfold is_valid_value. destruct val as [|b bs]; simpl; [by rewrite orb_false_r|].
    unfold is_valid_start. destruct (graphic b); simpl; [|naive_solver].
    rewrite valid_value_loop_spec, forallb_forall, Forall_forall by lia.
    setoid_rewrite <-list_elem_of_In. unfold is_valid_continue, is_valid_start.
    setoid_rewrite orb_true_iff. setoid_rewrite orb_true_iff.
    setoid_rewrite bool_decide_eq_true. naive_solver. }
  split_and!; [|done|].
  - unfold is_valid_name. rewrite valid_name_loop_spec, andb_true_iff, forallb_forall, Forall_forall.
    setoid_rewrite <-list_elem_of_In. rewrite Nat.ltb_lt. simpl.
    destruct name; simpl; naive_solver lia.
  - rewrite Hv. destruct val as [|b bs]; [set_solver|]. intros [Hb Hbs].
    rewrite Forall_forall in Hbs.
    split; intros [<-|Hin]%elem_of_cons; try done; destruct (Hbs _ Hin) as [?|[?|?]]; done.
Qed.

(** The documented grammar ends a value in a visible byte; the code accepts a
    blank there. *)
Lemma valid_value_trailing_blank : is_valid_value (#"a ") false = true.
Proof. done. Qed.

Section header_map_lemmas.
Context {U : Uncased} {UL : UncasedLaws} {IM : IndexMap str (list str) uncased_eq}
  {IML : IndexMapLaws IM}.

Lemma get_insert n k vs (m : HeaderMap IM) :
  get n (im_insert k vs m).2 = if uncased_eq n k then vs else get n m.
Proof.
  unfold get. rewrite !im_get_spec, (proj2 (im_insert_spec k vs m)).
  rewrite assoc_get_update by eauto using uncased_eq_sym, uncased_eq_trans, uncased_eq_refl.
  by destruct (uncased_eq n k).
Qed.

Lemma get_or_default n k f (m : HeaderMap IM) :
  get n (im_or_default [] k f m) = if uncased_eq n k then f (get k m) else get n m.
Proof.
  unfold get. rewrite !im_get_spec, im_or_default_spec.
  rewrite assoc_get_update by eauto using uncased_eq_sym, uncased_eq_trans, uncased_eq_refl.
  destruct (uncased_eq n k); [|done]. by destruct (assoc_get _ k _).
Qed.

Lemma get_remove n k (m : HeaderMap IM) :
  get n (remove k m) = if uncased_eq n k then [] else get n m.
Proof.
  unfold get, remove. rewrite !im_get_spec, im_swap_remove_spec.
  rewrite assoc_get_swap_remove by eauto using uncased_eq_sym, uncased_eq_trans, im_entries_wf.
  by destruct (uncased_eq n k).
Qed.

Lemma get_same n k (m : HeaderMap IM) : uncased_eq n k = true → get n m = get k m.
Proof.
  intros Hs. unfold get. rewrite !im_get_spec.
  by rewrite (assoc_get_eq uncased_eq uncased_eq_sym uncased_eq_trans n k).
Qed.

Lemma get_one_head n (m : HeaderMap IM) : get_one n m = head (get n m).
Proof. unfold get_one, get. by destruct (im_get n m) as [[]|]. Qed.

(** A header map is a map from names, compared without regard to case, to
    lists of values: each operation changes the values of its name as it says
    and those of no other name. *)
Theorem header_map_spec (n : str) (h : Header) (vs : list str) (m : HeaderMap IM) :
  let same := uncased_eq n (header_name h) in
  get n header_map_new = [] ∧
  get n (add h m) = (if same then get n m ++ [header_value h] else get n m) ∧
  get n (add_all (header_name h) vs m).2 = (if same then get n m ++ vs else get n m) ∧
  get n (replace h m).2 = (if same then [header_value h] else get n m) ∧
  (replace h m).1 = contains (header_name h) m ∧
  get n (replace_all (header_name h) vs m) = (if same then vs else get n m) ∧
  get n (remove (header_name h) m) = (if same then [] else get n m) ∧
  get_one n m = head (get n m) ∧
  (same = true → get n m = get (header_name h) m).
Proof.
  destruct h as [k v]. cbn [header_name header_value].
  assert (uncased_eq n k = true → get n m = get k m) as Heq.
  { apply get_same. }
  split_and!; [|unfold add|unfold add_all| | |apply get_insert|apply get_remove|apply get_one_head|done].
  - unfold get, header_map_new. by rewrite im_get_spec, im_entries_new.
  - rewrite get_or_default. cbn [header_name]. destruct (uncased_eq n k); [by rewrite Heq|done].
  - cbn [snd]. rewrite get_or_default. destruct (uncased_eq n k); [by rewrite Heq|done].
  - unfold replace. cbn [header_name header_value]. pose proof (get_insert n k [v] m) as Hg.
    by destruct (im_insert k [v] m).
  - unfold replace, contains. cbn [header_name header_value].
    rewrite im_get_spec, <-(proj1 (im_insert_spec k [v] m)). by destruct (im_insert k [v] m).
Qed.

(** What is left to iterate over. *)
Definition left (it : IntoIter) : list Header :=
  match current it with Some e => entry_headers e | None => [] end
    ++ concat (entry_headers <$> headers it).

Lemma next_entry_spec hs :
  match next_entry hs with
  | Some (h, it) => concat (entry_headers <$> hs) = h :: left it
  | None => concat (entry_headers <$> hs) = []
  end.
Proof. induction hs as [|[n [|v vs]] hs IH]; [done|apply IH|done]. Qed.

Lemma into_iter_next_spec it :
  match into_iter_next it with
  | Some (h, it') => left it = h :: left it'
  | None => left it = []
  end.
Proof.
  destruct it as [hs [[n [|v vs]]|]]; [|done|]; unfold into_iter_next, left; simpl;
    apply next_entry_spec.
Qed.

Lemma collect_left fuel it : (length (left it) < fuel)%nat → collect fuel it = left it.
Proof.
  revert it. induction fuel as [|fuel IH]; intros it Hl; [lia|]. simpl.
  pose proof (into_iter_next_spec it) as Hn. destruct (into_iter_next it) as [[h it']|]; [|done].
  rewrite Hn in *. simpl in Hl. by rewrite IH by lia.
Qed.

Lemma length_iter (m : HeaderMap IM) : length (iter m) = len m.
Proof.
  unfold iter, len. induction (im_entries m) as [|[n vs] es IH]; [done|].
  rewrite !fmap_cons. cbn [concat]. rewrite !length_app, IH. unfold entry_headers. cbn [fst snd].
  by rewrite length_fmap.
Qed.

(** Emptying a header map hands out its headers, all of them and in the
    order of the map, and leaves an empty map; iterating by value visits the
    headers iterating by reference does. *)
Theorem remove_all_iter (m : HeaderMap IM) :
  (remove_all m).1 = iter m ∧ length (remove_all m).1 = len m ∧
  (remove_all m).2 = header_map_new ∧
  ∀ n, (header_value <$> List.filter (λ h, uncased_eq n (header_name h)) (iter m)) = get n m.
Proof.
  assert ((remove_all m).1 = iter m) as He.
  { unfold remove_all. cbn [fst]. rewrite collect_left; [done|].
    change (left (into_iter m)) with (iter m). rewrite length_iter. lia. }
  split_and!; [done|by rewrite He, length_iter|done|].
  intros n. unfold iter, get. rewrite im_get_spec. pose proof (im_entries_wf m) as Hw.
  induction (im_entries m) as [|[k vs] es IH]; [done|]. destruct Hw as [Hn Hw].
  rewrite fmap_cons. cbn [concat assoc_get]. rewrite List.filter_app, fmap_app, (IH Hw).
  unfold entry_headers. cbn [fst snd].
  assert (header_value <$> List.filter (λ h, uncased_eq n (header_name h))
            ((λ val, Header_new k val) <$> vs) = if uncased_eq n k then vs else []) as ->.
  { clear. induction vs as [|v vs IH]; simpl; [by destruct (uncased_eq n k)|].
    destruct (uncased_eq n k); simpl; [by f_equal|done]. }
  destruct (uncased_eq n k) eqn:E; [|done].
  rewrite (assoc_get_eq uncased_eq uncased_eq_sym uncased_eq_trans n k) by done.
  by rewrite Hn, app_nil_r.
Qed.
End header_map_lemmas.

(** Maps whose index is the list of entries. *)
Module HeaderReference.
Import Reference.
#[export] Instance header_index : IndexMap str (list str) uncased_eq :=
  index_map_ref uncased_eq uncased_eq_sym uncased_eq_trans.
#[export] Instance header_index_laws : IndexMapLaws header_index :=
  index_map_laws uncased_eq uncased_eq_sym uncased_eq_trans.
End HeaderReference.

Section witness.
Import Reference HeaderReference.

Example header_map_witness :
  get (#"ACCEPT") (add (Header_new (#"Accept") (#"*/*")) header_map_new) = [ #"*/*"].
Proof.
  destruct (header_map_spec (#"ACCEPT") (Header_new (#"Accept") (#"*/*")) [] header_map_new)
    as (_ & Ha & _).
  rewrite Ha. by vm_compute.
Defined.

Example remove_all_witness :
  (remove_all (add_all (#"A") [ #"1"; #"2"] header_map_new).2).1 =
    [Header_new (#"A") (#"1"); Header_new (#"A") (#"2")].
Proof. rewrite (proj1 (remove_all_iter _)). by vm_compute. Defined.
End witness.
