(* ===== verification/Request.v ===== *)
(** * Request: the state of a request (core/lib/src/request/request.rs)

    The record has the fields routing and the life cycle use.  An [InitCell] is
    [None] until it is initialized; a method that initializes a cell has two
    definitions, its value and ([..._init]) the request afterwards.  The
    [AtomicMethod] and the reference swap of the route are plain fields, for
    one thread handles a request at a time.  The [Rocket] a request refers to
    is represented by the configuration read through it. *)

From S2P Require Import Prelude Crates RawStr Header Method MediaType UriTables MediaParse.
From S2P Require Import Uri Route.

Section Request.
Context {U : Uncased} {P : Pear} {PC : PearCombinators} {IM : IndexMap str (list str) uncased_eq}.

(** [struct Request] with [RequestState]; the route is kept without its
    handler. *)
Record Request := Request_with {
  req_method : Method;
  req_uri : Origin;
  req_headers : HeaderMap IM;
  req_route : option (Route unit);
  accept_cell : option (option Accept);
  content_type_cell : option (option MediaType);
  secure : bool;
  proxy_proto_header : option str;
}.

(** [Request::new]; [secure] is that of [CookieJar::new]. *)
Definition request_new (secure : bool) (proxy_proto_header : option str) (method : Method)
    (uri : Origin) : Request :=
  Request_with method uri header_map_new None None None secure proxy_proto_header.

(** [Request::set_method] and [_set_method], [set_uri], [set_route]. *)
Definition set_method (m : Method) (self : Request) : Request :=
  Request_with m (req_uri self) (req_headers self) (req_route self) (accept_cell self)
    (content_type_cell self) (secure self) (proxy_proto_header self).

Definition set_uri (u : Origin) (self : Request) : Request :=
  Request_with (req_method self) u (req_headers self) (req_route self) (accept_cell self)
    (content_type_cell self) (secure self) (proxy_proto_header self).

Definition set_route (r : Route unit) (self : Request) : Request :=
  Request_with (req_method self) (req_uri self) (req_headers self) (Some r) (accept_cell self)
    (content_type_cell self) (secure self) (proxy_proto_header self).

(** The fields the header operations write. *)
Definition set_headers (h : HeaderMap IM) (self : Request) : Request :=
  Request_with (req_method self) (req_uri self) h (req_route self) (accept_cell self)
    (content_type_cell self) (secure self) (proxy_proto_header self).

Definition set_accept (c : option (option Accept)) (self : Request) : Request :=
  Request_with (req_method self) (req_uri self) (req_headers self) (req_route self) c
    (content_type_cell self) (secure self) (proxy_proto_header self).

Definition set_content_type (c : option (option MediaType)) (self : Request) : Request :=
  Request_with (req_method self) (req_uri self) (req_headers self) (req_route self)
    (accept_cell self) c (secure self) (proxy_proto_header self).

Definition set_secure (s : bool) (self : Request) : Request :=
  Request_with (req_method self) (req_uri self) (req_headers self) (req_route self)
    (accept_cell self) (content_type_cell self) s (proxy_proto_header self).

(** [Request::content_type]: what the header parses to, once. *)
Definition content_type (self : Request) : option MediaType :=
  match content_type_cell self with
  | Some v => v
  | None => get_one (#"Content-Type") (req_headers self) ≫= parse_media_type
  end.

Definition content_type_init (self : Request) : Request :=
  set_content_type (Some (content_type self)) self.

(** [Request::accept]. *)
Definition accept (self : Request) : option Accept :=
  match accept_cell self with
  | Some v => v
  | None => get_one (#"Accept") (req_headers self) ≫= parse_accept
  end.

Definition accept_init (self : Request) : Request := set_accept (Some (accept self)) self.

(** [Request::bust_header_cache]. *)
Definition bust_header_cache (header : Header) (replace : bool) (self : Request) : Request :=
  if uncased_eq (header_name header) (#"Content-Type") then
    let none := bool_decide (content_type self = None) in
    let self := content_type_init self in
    if none || replace then set_content_type None self else self
  else if uncased_eq (header_name header) (#"Accept") then
    let none := bool_decide (accept self = None) in
    let self := accept_init self in
    if none || replace then set_accept None self else self
  else if match proxy_proto_header self with
          | Some h => uncased_eq (header_name header) h
          | None => false
          end then
    if negb (secure self) || replace then
      set_secure (secure self || is_https (proxy_proto_from (header_value header))) self
    else self
  else self.

(** [Request::add_header] and [Request::replace_header]. *)
Definition add_header (header : Header) (self : Request) : Request :=
  let self := bust_header_cache header false self in
  set_headers (add header (req_headers self)) self.

Definition replace_header (header : Header) (self : Request) : Request :=
  let self := bust_header_cache header true self in
  set_headers (replace header (req_headers self)).2 self.

(** [Request::format]. *)
Definition format (self : Request) : option MediaType :=
  if default false (allows_request_body (req_method self)) then content_type self
  else Some (match accept self with
             | Some accept => media_type (preferred accept)
             | None => media_type_of Any
             end).

(** [Request::proxy_proto], [context_is_likely_secure]. *)
Definition proxy_proto (self : Request) : option ProxyProto :=
  header ← proxy_proto_header self;
  proxy_proto_from <$> get_one header (req_headers self).

Definition context_is_likely_secure (self : Request) : bool := secure self.

(** [Request::routed_segments] and [routed_segment]. *)
Section routed.
Context `{StablePattern} `{Memchr} `{PercentEncoding}.

Definition routed_segments (range_start : nat) (self : Request) : Segments :=
  let mount_segments := match req_route self with
                        | Some r => base_len (metadata (route_uri r))
                        | None => 0%nat
                        end in
  skip (mount_segments + range_start) (segments_new (origin_segments (req_uri self))).

Definition routed_segment (n : nat) (self : Request) : option str :=
  Uri.get n (routed_segments 0 self).
End routed.

(** ** The cells agree with the headers *)

(** A cell that is initialized holds what its header now parses to. *)
Definition coherent (self : Request) : Prop :=
  (∀ v, content_type_cell self = Some v →
     v = get_one (#"Content-Type") (req_headers self) ≫= parse_media_type) ∧
  (∀ v, accept_cell self = Some v →
     v = get_one (#"Accept") (req_headers self) ≫= parse_accept).

(** The requests the operations on headers lead to. *)
Inductive header_step : Request → Request → Prop :=
  | step_add h r : header_step r (add_header h r)
  | step_replace h r : header_step r (replace_header h r)
  | step_content_type r : header_step r (content_type_init r)
  | step_accept r : header_step r (accept_init r)
  | step_method m r : header_step r (set_method m r)
  | step_uri u r : header_step r (set_uri u r)
  | step_route t r : header_step r (set_route t r).
End Request.
Arguments Request {U} IM.

Section coherence.
Context {U : Uncased} {UL : UncasedLaws} {P : Pear} {PC : PearCombinators}
  {IM : IndexMap str (list str) uncased_eq} {IML : IndexMapLaws IM}.

Lemma get_one_add n h (m : HeaderMap IM) :
  get_one n (add h m) =
    if uncased_eq n (header_name h)
    then Some (default (header_value h) (get_one n m)) else get_one n m.
Proof.
  rewrite !get_one_head. unfold add. rewrite get_or_default.
  destruct (uncased_eq n (header_name h)) eqn:E; [|done].
  rewrite (get_same n (header_name h)) by done. by destruct (Header.get (header_name h) m).
Qed.

Lemma get_one_replace n h (m : HeaderMap IM) :
  get_one n (replace h m).2 =
    if uncased_eq n (header_name h) then Some (header_value h) else get_one n m.
Proof.
  rewrite !get_one_head. unfold replace. pose proof (get_insert n (header_name h) [header_value h] m) as Hg.
  destruct (im_insert _ _ m) as [old m']. cbn [snd] in *. rewrite Hg.
  by destruct (uncased_eq n (header_name h)).
Qed.

Lemma names_differ : uncased_eq (#"Accept") (#"Content-Type") = false.
Proof. rewrite uncased_eq_spec. by vm_compute. Qed.

(** A header cannot be both. *)
Lemma header_one_name n :
  uncased_eq n (#"Content-Type") = true → uncased_eq n (#"Accept") = false.
Proof.
  intros Hn. destruct (uncased_eq n (#"Accept")) eqn:E; [|done].
  rewrite uncased_eq_sym in E. pose proof (uncased_eq_trans _ _ _ E Hn) as Hc.
  by rewrite names_differ in Hc.
Qed.

Lemma coherent_add h (r : Request IM) : coherent r → coherent (add_header h r).
Proof.
  intros [Hc Ha]. unfold add_header, bust_header_cache, coherent.
  destruct (uncased_eq (header_name h) (#"Content-Type")) eqn:E1;
    [|destruct (uncased_eq (header_name h) (#"Accept")) eqn:E2].
  - pose proof (header_one_name _ E1) as E2. rewrite orb_false_r.
    case_bool_decide as Hnone; cbn [content_type_cell accept_cell req_headers set_headers
      set_content_type content_type_init];
      rewrite !get_one_add, !(uncased_eq_sym _ (header_name h)), E1, E2; [by split|].
    split; [|done]. intros v [= <-]. unfold content_type in *.
    destruct (content_type_cell r) as [v|] eqn:Ev; [rewrite (Hc v eq_refl) in *|];
      (destruct (get_one (#"Content-Type") _); simpl in *; [done|by destruct Hnone]).
  - rewrite orb_false_r.
    case_bool_decide as Hnone; cbn [content_type_cell accept_cell req_headers set_headers
      set_accept accept_init];
      rewrite !get_one_add, !(uncased_eq_sym _ (header_name h)), E1, E2; [by split|].
    split; [done|]. intros v [= <-]. unfold accept in *.
    destruct (accept_cell r) as [v|] eqn:Ev; [rewrite (Ha v eq_refl) in *|];
      (destruct (get_one (#"Accept") _); simpl in *; [done|by destruct Hnone]).
  - repeat case_match; cbn [content_type_cell accept_cell req_headers set_headers set_secure];
      rewrite !get_one_add, !(uncased_eq_sym _ (header_name h)), E1, E2; done.
Qed.

Lemma coherent_replace h (r : Request IM) : coherent r → coherent (replace_header h r).
Proof.
  intros [Hc Ha]. unfold replace_header, bust_header_cache, coherent.
  destruct (uncased_eq (header_name h) (#"Content-Type")) eqn:E1;
    [|destruct (uncased_eq (header_name h) (#"Accept")) eqn:E2].
  - pose proof (header_one_name _ E1) as E2. rewrite orb_true_r.
    cbn [content_type_cell accept_cell req_headers set_headers set_content_type content_type_init].
    rewrite !get_one_replace, !(uncased_eq_sym _ (header_name h)), E1, E2. by split.
  - rewrite orb_true_r.
    cbn [content_type_cell accept_cell req_headers set_headers set_accept accept_init].
    rewrite !get_one_replace, !(uncased_eq_sym _ (header_name h)), E1, E2. by split.
  - repeat case_match; cbn [content_type_cell accept_cell req_headers set_headers set_secure];
      rewrite !get_one_replace, !(uncased_eq_sym _ (header_name h)), E1, E2; done.
Qed.

Lemma coherent_step r r' : header_step (IM:=IM) r r' → coherent r → coherent r'.
Proof.
  intros Hs Hr. destruct Hs; [by apply coherent_add|by apply coherent_replace| | |done..].
  - destruct Hr as [Hc Ha]. split; [|done]. cbn. intros v [= <-]. unfold content_type.
    destruct (content_type_cell r); [by apply Hc|done].
  - destruct Hr as [Hc Ha]. split; [done|]. cbn. intros v [= <-]. unfold accept.
    destruct (accept_cell r); [by apply Ha|done].
Qed.

(** The cells of a coherent request, whether initialized or not. *)
Lemma coherent_cells (r : Request IM) : coherent r →
  content_type r = get_one (#"Content-Type") (req_headers r) ≫= parse_media_type ∧
  accept r = get_one (#"Accept") (req_headers r) ≫= parse_accept.
Proof.
  intros [Hc Ha]. unfold content_type, accept. split.
  - destruct (content_type_cell r); [by apply Hc|done].
  - destruct (accept_cell r); [by apply Ha|done].
Qed.

(** Whatever headers are added or replaced on a new request, and whenever
    the cells are read in between, the content type and the accepted types are
    those the current headers parse to: the cached ones never go stale. *)
Theorem header_cache_coherent (s : bool) (pp : option str) (m : Method) (u : Origin)
    (r : Request IM) :
  rtc header_step (request_new s pp m u) r →
  content_type r = get_one (#"Content-Type") (req_headers r) ≫= parse_media_type ∧
  accept r = get_one (#"Accept") (req_headers r) ≫= parse_accept.
Proof.
  intros Hr. apply coherent_cells. assert (coherent (request_new s pp m u)) as Hn by done.
  revert Hn. clear -Hr UL IML. induction Hr as [|x y z Hs _ IH]; [done|]. intros Hx. by eapply IH, coherent_step.
Qed.
End coherence.

(** A header added after the content type has been read. *)
Section witness.
Import Reference PearReference PearCombinatorsReference HeaderReference.

Example header_cache_witness :
  let r0 := request_new false None Get root in
  let r1 := content_type_init r0 in
  let r2 := add_header (Header_new (#"content-type") (#"text/html")) r1 in
  content_type r2 = parse_media_type (#"text/html").
Proof.
  intros r0 r1 r2.
  assert (rtc header_step r0 r2) as Hr.
  { eapply rtc_l; [apply step_content_type|]. eapply rtc_l; [apply step_add|apply rtc_refl]. }
  rewrite (proj1 (header_cache_coherent _ _ _ _ r2 Hr)). by vm_compute.
Defined.
End witness.
