(* ===== verification/Router.v ===== *)
(** * Router: collisions, matching and routing
    (core/lib/src/router/collider.rs, matcher.rs, router.rs)

    A [HashMap] is a [gmap]; iterating over its values to sort each is a map
    over them, since the order does not matter.  Vectors of indices into the
    routes and catchers are lists of [nat]; [finalize] only pushes indices in
    range. *)

From S2P Require Import Prelude Crates RawStr Header Status Method MediaType UriTables MediaParse.
From S2P Require Import Uri Catcher Route Request.

Section Router.
Context {U : Uncased} {P : Pear} {PC : PearCombinators} {IM : IndexMap str (list str) uncased_eq}.
Context {SP : StablePattern} {M : Memchr} {PE : PercentEncoding}.
Context {H C : Type}.

(** ** Collisions *)

(** [Collide for Segment]. *)
Definition segments_collide (self other : Segment) : bool :=
  dynamic self || dynamic other || bool_decide (value self = value other).

(** The loop of [Collide for RouteUri]: the value returned from within, if
    any. *)
Fixpoint uris_collide_loop (a b : list Segment) : option bool :=
  match a, b with
  | seg_a :: a, seg_b :: b =>
    if dynamic_trail seg_a || dynamic_trail seg_b then Some true
    else if negb (segments_collide seg_a seg_b) then Some false
    else uris_collide_loop a b
  | _, _ => None
  end.

Definition uris_collide (self other : RouteUri) : bool :=
  let a_segments := uri_segments (metadata self) in
  let b_segments := uri_segments (metadata other) in
  match uris_collide_loop a_segments b_segments with
  | Some b => b
  | None => (length a_segments =? length b_segments)%nat
  end.

(** [methods_collide], [formats_collide]. *)
Definition methods_collide (route other : Route H) : bool :=
  match method route, method other with
  | Some a, Some b => bool_decide (a = b)
  | None, _ | _, None => true
  end.

Definition payload_support (m : option Method) : option bool := m ≫= allows_request_body.

Definition formats_collide (route other : Route H) : bool :=
  match payload_support (method route), payload_support (method other) with
  | Some true, Some true =>
    match Route.format route, Route.format other with
    | Some a, Some b => media_types_collide a b
    | _, _ => true
    end
  | _, _ => true
  end.

(** [Route::collides_with], [Catcher::collides_with]. *)
Definition routes_collide (self other : Route H) : bool :=
  methods_collide self other && (Route.rank self =? Route.rank other)%Z
  && uris_collide (route_uri self) (route_uri other) && formats_collide self other.

Definition catchers_collide (self other : Catcher C) : bool :=
  bool_decide (code self = code other)
  && bool_decide (path_segments (path (Catcher.base self))
                  = path_segments (path (Catcher.base other))).

(** ** Matching *)

Definition methods_match (route : Route H) (req : Request IM) : bool :=
  match method route with Some method => bool_decide (method = req_method req) | None => true end.

(** The loop of [paths_match]: the value returned from within, if any. *)
Fixpoint paths_match_loop (route_segs : list Segment) (req_segs : list str) : option bool :=
  match route_segs, req_segs with
  | route_seg :: route_segs, req_seg :: req_segs =>
    if dynamic_trail route_seg then Some true
    else if negb (dynamic route_seg) && negb (bool_decide (value route_seg = req_seg))
    then Some false
    else paths_match_loop route_segs req_segs
  | _, _ => None
  end.

Definition paths_match (route : Route H) (req : Request IM) : bool :=
  let route_segments := uri_segments (metadata (route_uri route)) in
  let req_segments := segments_new (origin_segments (req_uri req)) in
  if (num req_segments <? length route_segments)%nat then false
  else if (length route_segments <? num req_segments)%nat
          && negb (metadata_dynamic_trail (metadata (route_uri route))) then false
  else default true (paths_match_loop route_segments (remaining req_segments)).

(** The loop of [queries_match] over the static fields of the route. *)
Fixpoint queries_match_loop (fields : list (str * str)) (req_query : option str) : bool :=
  match fields with
  | [] => true
  | (key, val) :: fields =>
    match req_query with
    | Some query =>
      if negb (existsb (λ req_seg, bool_decide (req_seg = (key, val))) (query_segments query))
      then false else queries_match_loop fields req_query
    | None => false
    end
  end.

Definition queries_match (route : Route H) (req : Request IM) : bool :=
  match query_color (metadata (route_uri route)) with
  | None | Some Wild => true
  | _ => queries_match_loop (static_query_fields (metadata (route_uri route)))
           (query (req_uri req))
  end.

Definition formats_match (route : Route H) (req : Request IM) : bool :=
  match Route.format route with
  | None => true
  | Some route_format =>
    match payload_support (method route) with
    | Some true =>
      match format req with
      | Some f => (specificity f =? 2)%nat && media_types_collide route_format f
      | None => false
      end
    | _ =>
      match format req with
      | Some f => media_types_collide route_format f
      | None => true
      end
    end
  end.

(** [Route::matches], [Catcher::matches]. *)
Definition route_matches (self : Route H) (request : Request IM) : bool :=
  methods_match self request && paths_match self request && queries_match self request
  && formats_match self request.

Definition catcher_matches (status : Status) (request : Request IM) (self : Catcher C) : bool :=
  match code self with Some code => (code =? Status.code status)%Z | None => true end
  && prefix_of (segments_new (path_segments (path (Catcher.base self))))
       (segments_new (origin_segments (req_uri request))).

(** ** Router *)

(** [struct Pending], [struct Finalized]. *)
Record Pending := Pending_new {
  pending_routes : list (Route H);
  pending_catchers : list (Catcher C);
}.

Record Finalized := Finalized_new {
  routes : list (Route H);
  catchers : list (Catcher C);
  route_map : gmap Method (list nat);
  catcher_map : gmap (option Z) (list nat);
}.

Definition Collisions : Type :=
  list (Route H * Route H) * list (Catcher C * Catcher C).

(** [collisions]: every item with each later one it collides with. *)
Definition collisions {T} (collides_with : T → T → bool) (items : list T) : list (T * T) :=
  concat (imap (λ i a, (λ b, (a, b)) <$> List.filter (collides_with a) (drop (i + 1) items))
               items).

(** [map.entry(k).or_default().push(i)]. *)
Definition push_entry {K} `{Countable K} (k : K) (i : nat) (m : gmap K (list nat))
  : gmap K (list nat) := <[k := default [] (m !! k) ++ [i]]> m.

(** The loops over the enumerated routes and catchers. *)
Fixpoint fill_route_map (i : nat) (routes : list (Route H)) (m : gmap Method (list nat))
  : gmap Method (list nat) :=
  match routes with
  | [] => m
  | route :: routes =>
    fill_route_map (S i) routes
      match method route with
      | Some method => push_entry method i m
      | None => foldl (λ m method, push_entry method i m) m ALL_VARIANTS
      end
  end.

Fixpoint fill_catcher_map (i : nat) (catchers : list (Catcher C))
    (m : gmap (option Z) (list nat)) : gmap (option Z) (list nat) :=
  match catchers with
  | [] => m
  | catcher :: catchers =>
    fill_catcher_map (S i) catchers (push_entry (code catcher) i m)
  end.

(** The ranks the indices are sorted by. *)
Definition rank_at {A} (rank : A → Z) (items : list A) (i : nat) : Z :=
  match items !! i with Some x => rank x | None => 0%Z end.

(** [Router::finalize]. *)
Definition finalize (self : Pending) : Collisions + Finalized :=
  let route_collisions := collisions routes_collide (pending_routes self) in
  let catcher_collisions := collisions catchers_collide (pending_catchers self) in
  if negb (is_empty route_collisions) || negb (is_empty catcher_collisions)
  then inl (route_collisions, catcher_collisions)
  else
    let route_map := fill_route_map 0 (pending_routes self) ∅ in
    let catcher_map := fill_catcher_map 0 (pending_catchers self) ∅ in
    let route_map := sort_by_key (rank_at Route.rank (pending_routes self)) <$> route_map in
    let catcher_map :=
      sort_by_key (rank_at Catcher.rank (pending_catchers self)) <$> catcher_map in
    inr (Finalized_new (pending_routes self) (pending_catchers self) route_map catcher_map).

(** The items at the indices of an entry. *)
Definition items_at {A} (items : list A) (indices : list nat) : list A :=
  omap (λ i, items !! i) indices.

(** [Router::route]: the routes to try, in order. *)
Definition route (self : Finalized) (req : Request IM) : list (Route H) :=
  match route_map self !! req_method req with
  | Some indices => List.filter (λ r, route_matches r req) (items_at (routes self) indices)
  | None => []
  end.

(** [Router::catch]. *)
Definition catch (self : Finalized) (status : Status) (req : Request IM) : option (Catcher C) :=
  let find key :=
    indices ← catcher_map self !! key;
    List.find (catcher_matches status req) (items_at (catchers self) indices) in
  let explicit := find (Some (Status.code status)) in
  let default := find None in
  match explicit, default with
  | None, None => None
  | None, c | c, None => c
  | Some a, Some b => if (Catcher.rank a <=? Catcher.rank b)%Z then Some a else Some b
  end.
End Router.

Arguments Pending : clear implicits.
Arguments Finalized : clear implicits.
Arguments Collisions : clear implicits.

(** ** Lemmas on collisions *)

Lemma elem_of_collisions {T} (f : T → T → bool) (items : list T) a b :
  (a, b) ∈ collisions f items ↔
  ∃ i j, (i < j)%nat ∧ items !! i = Some a ∧ items !! j = Some b ∧ f a b = true.
Proof.
  unfold collisions. rewrite list_elem_of_In, in_concat. split.
  - intros (l & Hl & Hab). apply list_elem_of_In, elem_of_lookup_imap in Hl as (i & a' & -> & Hi).
    apply in_map_iff in Hab as (b' & [= <- <-] & Hb).
    apply filter_In in Hb as [Hb Hf]. apply list_elem_of_In, list_elem_of_lookup in Hb as [k Hk].
    rewrite lookup_drop in Hk. exists i, (i + 1 + k)%nat. split_and!; [lia|done..].
  - intros (i & j & Hij & Hi & Hj & Hf).
    exists ((λ b, (a, b)) <$> List.filter (f a) (drop (i + 1) items)). split.
    + apply list_elem_of_In, elem_of_lookup_imap. by exists i, a.
    + apply in_map_iff. exists b. split; [done|]. apply filter_In. split; [|done].
      apply list_elem_of_In, list_elem_of_lookup. exists (j - (i + 1))%nat.
      rewrite lookup_drop. by replace (i + 1 + (j - (i + 1)))%nat with j by lia.
Qed.

Lemma collisions_nil {T} (f : T → T → bool) (items : list T) :
  collisions f items = [] ↔
  ∀ i j a b, (i < j)%nat → items !! i = Some a → items !! j = Some b → f a b = false.
Proof.
  split.
  - intros Hn i j a b Hij Hi Hj. destruct (f a b) eqn:E; [|done].
    assert ((a, b) ∈ collisions f items) as Hin by (apply elem_of_collisions; eauto 6).
    rewrite Hn in Hin. by apply not_elem_of_nil in Hin.
  - intros Hn. destruct (collisions f items) as [|[a b] l] eqn:E; [done|].
    assert ((a, b) ∈ collisions f items) as Hin by (rewrite E; set_solver).
    apply elem_of_collisions in Hin as (i & j & ? & ? & ? & Hf).
    by erewrite Hn in Hf.
Qed.

(** ** Lemmas on the maps of indices *)

(** The offsets, from [i] on, of the items of a kind. *)
Fixpoint positions {A} (p : A → bool) (i : nat) (l : list A) : list nat :=
  match l with
  | [] => []
  | x :: l => (if p x then [i] else []) ++ positions p (S i) l
  end.

Definition entry {K} `{Countable K} (m : gmap K (list nat)) (k : K) : list nat :=
  default [] (m !! k).

Lemma entry_push {K} `{Countable K} (k k' : K) i (m : gmap K (list nat)) :
  entry (push_entry k i m) k' = entry m k' ++ if decide (k = k') then [i] else [].
Proof.
  unfold entry, push_entry. destruct (decide (k = k')) as [->|Hne].
  - by rewrite lookup_insert_eq.
  - by rewrite lookup_insert_ne, app_nil_r.
Qed.

Lemma entry_push_all {K} `{Countable K} (ks : list K) k' i (m : gmap K (list nat)) :
  NoDup ks →
  entry (foldl (λ m k, push_entry k i m) m ks) k' =
    entry m k' ++ if decide (k' ∈ ks) then [i] else [].
Proof.
  revert m. induction ks as [|k ks IH]; intros m Hks; simpl.
  - by rewrite app_nil_r.
  - inversion_clear Hks as [|?? Hk Hks']. rewrite IH by done. rewrite entry_push, <-app_assoc.
    f_equal. pose proof (elem_of_cons ks k' k) as Hin.
    destruct (decide (k = k')), (decide (k' ∈ ks)), (decide (k' ∈ k :: ks)); naive_solver.
Qed.

Lemma entry_push_map {K} `{Countable K} (m : gmap K (list nat)) f k :
  f [] = [] → entry (f <$> m) k = f (entry m k).
Proof. intros Hf. unfold entry. rewrite lookup_fmap. by destruct (m !! k). Qed.

Section map_lemmas.
Context {H C : Type}.

Lemma entry_fill_route_map i (l : list (Route H)) m k :
  entry (fill_route_map i l m) k =
    entry m k ++ positions (λ r, match method r with Some x => bool_decide (x = k) | None => true end)
                   i l.
Proof.
  revert i m. induction l as [|r l IH]; intros i m; cbn [fill_route_map positions];
    [by rewrite app_nil_r|]. rewrite IH. destruct (method r) as [x|].
  - rewrite entry_push, <-app_assoc. do 2 f_equal. by case_bool_decide; case_decide.
  - rewrite entry_push_all by apply ALL_VARIANTS_NoDup.
    rewrite decide_True by apply elem_of_ALL_VARIANTS. by rewrite <-app_assoc.
Qed.

Lemma entry_fill_catcher_map i (l : list (Catcher C)) m k :
  entry (fill_catcher_map i l m) k =
    entry m k ++ positions (λ c, bool_decide (code c = k)) i l.
Proof.
  revert i m. induction l as [|c l IH]; intros i m; cbn [fill_catcher_map positions];
    [by rewrite app_nil_r|]. rewrite IH, entry_push, <-app_assoc. do 2 f_equal. by case_bool_decide; case_decide.
Qed.
End map_lemmas.

Lemma positions_range {A} (p : A → bool) i l :
  Forall (λ j, (i ≤ j < i + length l)%nat) (positions p i l).
Proof.
  revert i. induction l as [|x l IH]; intros i; simpl; [constructor|].
  apply Forall_app. split; [destruct (p x); repeat constructor; lia|].
  eapply Forall_impl; [apply IH|]. simpl. lia.
Qed.

(** The items at the offsets of a kind are those of the kind. *)
Lemma items_at_positions {A} (p : A → bool) (k l : list A) :
  items_at (k ++ l) (positions p (length k) l) = List.filter p l.
Proof.
  revert k. induction l as [|x l IH]; intros k; simpl; [done|].
  unfold items_at in *. rewrite omap_app.
  specialize (IH (k ++ [x])). rewrite <-app_assoc, length_app, Nat.add_1_r in IH.
  simpl in IH. rewrite IH. destruct (p x); [|done]. simpl.
  by rewrite lookup_app_r, Nat.sub_diag by lia.
Qed.

Lemma items_at_cons {A} (l : list A) i js x :
  l !! i = Some x → items_at l (i :: js) = x :: items_at l js.
Proof. intros Hi. unfold items_at. simpl. by rewrite Hi. Qed.

Lemma items_at_insert {A} (rank : A → Z) (l : list A) i x js :
  l !! i = Some x → Forall (λ j, is_Some (l !! j)) js →
  items_at l (insert_by (rank_at rank l) i js) = insert_by rank x (items_at l js).
Proof.
  intros Hi. induction 1 as [|j js [y Hj] Hjs IH]; cbn [insert_by].
  - by rewrite (items_at_cons _ _ _ _ Hi).
  - rewrite (items_at_cons _ _ _ _ Hj). cbn [insert_by].
    assert (rank_at rank l i = rank x) as -> by (unfold rank_at; by rewrite Hi).
    assert (rank_at rank l j = rank y) as -> by (unfold rank_at; by rewrite Hj).
    destruct (rank x <=? rank y)%Z.
    + by rewrite (items_at_cons _ _ _ _ Hi), (items_at_cons _ _ _ _ Hj).
    + by rewrite (items_at_cons _ _ _ _ Hj), IH.
Qed.

Lemma items_at_sort {A} (rank : A → Z) (l : list A) js :
  Forall (λ j, is_Some (l !! j)) js →
  items_at l (sort_by_key (rank_at rank l) js) = sort_by_key rank (items_at l js).
Proof.
  induction 1 as [|j js [x Hj] Hjs IH]; cbn [sort_by_key]; [done|].
  rewrite (items_at_insert rank l j x), IH, (items_at_cons _ _ _ _ Hj); [done|done|].
  by rewrite sort_by_key_perm.
Qed.

(** The items of a kind, sorted, through the map of indices. *)
Lemma items_at_sorted_positions {A} (rank : A → Z) (p : A → bool) (l : list A) :
  items_at l (sort_by_key (rank_at rank l) (positions p 0 l)) = sort_by_key rank (List.filter p l).
Proof.
  rewrite items_at_sort; [exact (f_equal (sort_by_key rank) (items_at_positions p [] l))|].
  eapply Forall_impl; [apply positions_range|]. intros j [_ Hj]. by apply lookup_lt_is_Some.
Qed.

Lemma filter_filter {A} (p q : A → bool) (l : list A) :
  (∀ x, p x = true → q x = true) → List.filter p (List.filter q l) = List.filter p l.
Proof.
  intros Hpq. induction l as [|x l IH]; [done|]. simpl. destruct (q x) eqn:E; simpl; rewrite IH.
  - done.
  - destruct (p x) eqn:Ep; [|done]. by rewrite Hpq in E.
Qed.

(** ** Routing *)

Section routing.
Context {U : Uncased} {P : Pear} {PC : PearCombinators} {IM : IndexMap str (list str) uncased_eq}.
Context {SP : StablePattern} {M : Memchr} {PE : PercentEncoding}.
Context {H C : Type}.

(** C2: [finalize] succeeds exactly when no two routes and no two catchers
    collide, and otherwise reports exactly the colliding pairs; it keeps the
    routes and catchers. *)
Theorem finalize_spec (p : Pending H C) :
  match finalize p with
  | inl (rs, cs) =>
    (rs ≠ [] ∨ cs ≠ []) ∧
    (∀ a b, (a, b) ∈ rs ↔ ∃ i j, (i < j)%nat ∧ pending_routes p !! i = Some a ∧
                             pending_routes p !! j = Some b ∧ routes_collide a b = true) ∧
    (∀ a b, (a, b) ∈ cs ↔ ∃ i j, (i < j)%nat ∧ pending_catchers p !! i = Some a ∧
                             pending_catchers p !! j = Some b ∧ catchers_collide a b = true)
  | inr f =>
    routes f = pending_routes p ∧ catchers f = pending_catchers p ∧
    (∀ i j a b, (i < j)%nat → routes f !! i = Some a → routes f !! j = Some b →
       routes_collide a b = false) ∧
    (∀ i j a b, (i < j)%nat → catchers f !! i = Some a → catchers f !! j = Some b →
       catchers_collide a b = false)
  end.
Proof.
  unfold finalize.
  destruct (is_empty (collisions routes_collide _)) eqn:Hr;
    [destruct (is_empty (collisions catchers_collide _)) eqn:Hc|]; cbn [negb orb].
  - apply is_empty_true in Hr, Hc. rewrite collisions_nil in Hr. rewrite collisions_nil in Hc. by split_and!.
  - split_and!; [right; by apply is_empty_false|apply elem_of_collisions..].
  - split_and!; [left; by apply is_empty_false|apply elem_of_collisions..].
Qed.

Lemma finalize_inr (p : Pending H C) f :
  finalize p = inr f →
  f = Finalized_new (pending_routes p) (pending_catchers p)
        (sort_by_key (rank_at Route.rank (pending_routes p)) <$>
           fill_route_map 0 (pending_routes p) ∅)
        (sort_by_key (rank_at Catcher.rank (pending_catchers p)) <$>
           fill_catcher_map 0 (pending_catchers p) ∅).
Proof. unfold finalize. destruct (_ || _); [done|]. by intros [= <-]. Qed.

Lemma route_entry (f : Finalized H C) (req : Request IM) :
  route f req =
    List.filter (λ r, route_matches r req)
      (items_at (routes f) (entry (route_map f) (req_method req))).
Proof. unfold route, entry. by destruct (route_map f !! req_method req). Qed.

(** The routes tried are the matching ones, sorted by rank. *)
Lemma route_sorted (p : Pending H C) f (req : Request IM) :
  finalize p = inr f →
  route f req =
    sort_by_key Route.rank (List.filter (λ r, route_matches r req) (pending_routes p)).
Proof.
  intros ->%finalize_inr. rewrite route_entry. cbn [route_map routes].
  rewrite entry_push_map by done. rewrite entry_fill_route_map. cbn [app].
  change (entry ∅ (req_method req)) with ([] : list nat). cbn [app].
  rewrite items_at_sorted_positions, filter_sort_by_key, filter_filter; [done|].
  intros r Hr. unfold route_matches, methods_match in Hr. destruct (method r); [|done].
  by destruct (bool_decide _).
Qed.

(** The catcher a lookup of [catch] finds. *)
Lemma catch_find (p : Pending H C) f status (req : Request IM) key :
  finalize p = inr f →
  (indices ← catcher_map f !! key;
   List.find (catcher_matches status req) (items_at (catchers f) indices)) =
  List.find (catcher_matches status req)
    (sort_by_key Catcher.rank
       (List.filter (λ c, bool_decide (code c = key)) (pending_catchers p))).
Proof.
  intros ->%finalize_inr. cbn [catcher_map catchers].
  rewrite <-items_at_sorted_positions.
  pose proof (entry_fill_catcher_map 0 (pending_catchers p) ∅ key) as He.
  change (entry ∅ key) with ([] : list nat) in He. cbn [app] in He. rewrite <-He.
  unfold entry. rewrite lookup_fmap. by destruct (fill_catcher_map _ _ _ !! key).
Qed.
End routing.

(** ** Collisions and matching *)

(** The flag of a dynamic trail is that of the last segment, as
    [Metadata::from] computes it. *)
Definition trail_wf (u : RouteUri) : Prop :=
  metadata_dynamic_trail (metadata u) =
    match last (uri_segments (metadata u)) with
    | Some s => dynamic_trail s
    | None => false
    end.

Lemma try_new_trail_wf `{StablePattern} `{Memchr} `{PercentEncoding} `{Pear} b s u :
  try_new b s = Some u → trail_wf u.
Proof. unfold try_new. by intros (? & _ & (? & _ & (? & _ & [= <-])%bind_Some)%bind_Some)%bind_Some. Qed.

(** Where the loop over two routes' segments ends without an answer, neither
    has a dynamic trail among the segments compared. *)
Lemma uris_collide_loop_match a b rs :
  (length a ≤ length rs)%nat → (length b ≤ length rs)%nat →
  default true (paths_match_loop a rs) = true →
  default true (paths_match_loop b rs) = true →
  match uris_collide_loop a b with
  | Some c => c = true
  | None => Forall (λ s, dynamic_trail s = false) (take (length b) a) ∧
            Forall (λ s, dynamic_trail s = false) (take (length a) b)
  end.
Proof.
  revert b rs. induction a as [|x a IH]; intros b rs Ha Hb; [intros _ _; split; [by rewrite take_nil|constructor]|].
  destruct b as [|y b]; [intros _ _; split; [constructor|by rewrite take_nil]|]. destruct rs as [|r rs]; [simpl in Ha; lia|].
  simpl in Ha, Hb. simpl.
  destruct (dynamic_trail x) eqn:Hx; [done|]. destruct (dynamic_trail y) eqn:Hy; [done|]. simpl.
  unfold segments_collide. destruct (dynamic x), (dynamic y); simpl; intros Ha' Hb'.
  all: repeat case_bool_decide; simplify_eq/=; try done.
  all: specialize (IH b rs ltac:(lia) ltac:(lia) Ha' Hb').
  all: destruct (uris_collide_loop a b); [done|].
  all: destruct IH; split; by constructor.
Qed.

Lemma last_Forall_trail (a : list Segment) :
  Forall (λ s, dynamic_trail s = false) a →
  match last a with Some s => dynamic_trail s | None => false end = false.
Proof. intros Ha. destruct (last a) eqn:E; [|done]. exact (Forall_last _ _ _ Ha E). Qed.

Section match_collide.
Context {U : Uncased} {UL : UncasedLaws} {P : Pear} {PC : PearCombinators}
  {IM : IndexMap str (list str) uncased_eq}.
Context {SP : StablePattern} {M : Memchr} {PE : PercentEncoding}.
Context {H C : Type}.

Lemma paths_match_collide (a b : Route H) (req : Request IM) :
  trail_wf (route_uri a) → trail_wf (route_uri b) →
  paths_match a req = true → paths_match b req = true →
  uris_collide (route_uri a) (route_uri b) = true.
Proof.
  unfold trail_wf, paths_match, uris_collide. rewrite !num_remaining.
  set (rs := remaining _). set (sa := uri_segments _). set (sb := uri_segments _).
  intros Hta Htb.
  destruct (Nat.ltb_spec (length rs) (length sa)) as [|Ha]; [done|].
  destruct (Nat.ltb_spec (length rs) (length sb)) as [|Hb]; [done|].
  destruct ((length sa <? length rs)%nat && _) eqn:Ea; [done|].
  destruct ((length sb <? length rs)%nat && _) eqn:Eb; [done|]. intros Hma Hmb.
  pose proof (uris_collide_loop_match sa sb rs Ha Hb Hma Hmb) as Hloop.
  destruct (uris_collide_loop sa sb); [done|]. destruct Hloop as [Hfa Hfb].
  apply Nat.eqb_eq.
  destruct (Nat.le_gt_cases (length sa) (length sb)) as [Hle|Hgt].
  - rewrite take_ge in Hfa by done. rewrite Hta, (last_Forall_trail _ Hfa), andb_true_r in Ea.
    apply Nat.ltb_ge in Ea. lia.
  - rewrite take_ge in Hfb by lia. rewrite Htb, (last_Forall_trail _ Hfb), andb_true_r in Eb.
    apply Nat.ltb_ge in Eb. lia.
Qed.

Lemma methods_match_collide (a b : Route H) (req : Request IM) :
  methods_match a req = true → methods_match b req = true → methods_collide a b = true.
Proof.
  unfold methods_match, methods_collide. destruct (method a), (method b); try done.
  rewrite !bool_decide_eq_true. congruence.
Qed.

Lemma formats_match_collide (a b : Route H) (req : Request IM) :
  formats_match a req = true → formats_match b req = true → formats_collide a b = true.
Proof.
  unfold formats_match, formats_collide.
  destruct (payload_support (method a)) as [[|]|]; try done.
  destruct (payload_support (method b)) as [[|]|]; try done.
  destruct (Route.format a), (Route.format b); try done.
  destruct (format req); [|done].
  intros [Hs Ha]%andb_true_iff [_ Hb]%andb_true_iff. apply Nat.eqb_eq in Hs.
  by eapply media_types_collide_trans.
Qed.

(** Two routes of one rank that match one request collide. *)
Lemma matches_collide (a b : Route H) (req : Request IM) :
  trail_wf (route_uri a) → trail_wf (route_uri b) →
  route_matches a req = true → route_matches b req = true →
  Route.rank a = Route.rank b → routes_collide a b = true.
Proof.
  intros Hta Htb. unfold route_matches, routes_collide.
  intros [[[Hma Hpa]%andb_true_iff _]%andb_true_iff Hfa]%andb_true_iff.
  intros [[[Hmb Hpb]%andb_true_iff _]%andb_true_iff Hfb]%andb_true_iff Hr.
  rewrite (methods_match_collide _ _ _ Hma Hmb), (formats_match_collide _ _ _ Hfa Hfb).
  by rewrite (paths_match_collide _ _ _ Hta Htb Hpa Hpb), Hr, Z.eqb_refl.
Qed.

Lemma filter_lookup_pair {A} (p : A → bool) (l : list A) i j x y :
  (i < j)%nat → List.filter p l !! i = Some x → List.filter p l !! j = Some y →
  ∃ i' j', (i' < j')%nat ∧ l !! i' = Some x ∧ l !! j' = Some y.
Proof.
  revert i j. induction l as [|z l IH]; intros i j Hij; [done|]. simpl. destruct (p z).
  - destruct j as [|j]; [lia|]. destruct i as [|i]; simpl.
    + intros [= ->] Hy. apply list_elem_of_lookup_2, list_elem_of_In, filter_In in Hy as [Hy _].
      apply list_elem_of_In, list_elem_of_lookup in Hy as [j' Hj']. exists 0%nat, (S j').
      split_and!; [lia|done..].
    + intros Hx Hy. destruct (IH i j ltac:(lia) Hx Hy) as (i' & j' & ? & ? & ?).
      exists (S i'), (S j'). split_and!; [lia|done..].
  - intros Hx Hy. destruct (IH i j Hij Hx Hy) as (i' & j' & ? & ? & ?).
    exists (S i'), (S j'). split_and!; [lia|done..].
Qed.

(** Sorting items whose keys are pairwise distinct sorts them strictly. *)
Lemma sort_by_key_strict {A} (key : A → Z) (l : list A) :
  (∀ i j x y, (i < j)%nat → l !! i = Some x → l !! j = Some y → key x ≠ key y) →
  StronglySorted (λ x y, (key x < key y)%Z) (sort_by_key key l).
Proof.
  intros Hd. assert (NoDup (key <$> l)) as Hnd.
  { apply NoDup_alt. intros i j z Hi Hj. rewrite list_lookup_fmap in Hi, Hj.
    apply fmap_Some in Hi as (x & Hx & ->), Hj as (y & Hy & Hxy).
    destruct (Nat.lt_trichotomy i j) as [Hlt|[?|Hgt]]; [|done|].
    - by destruct (Hd i j x y Hlt Hx Hy).
    - by destruct (Hd j i y x Hgt Hy Hx). }
  pose proof (sort_by_key_sorted key l) as Hs. pose proof (sort_by_key_perm key l) as Hp.
  apply (fmap_Permutation key) in Hp. rewrite <-Hp in Hnd. clear Hd Hp.
  induction Hs as [|x k Hs IH Hx]; [constructor|]. inversion_clear Hnd as [|?? Hni Hnd'].
  constructor; [by apply IH|]. rewrite Forall_forall in Hx |- *. intros y Hy.
  specialize (Hx y Hy). unfold key_le in Hx.
  assert (key x ≠ key y); [|lia]. intros Heq. apply Hni. rewrite Heq. by apply list_elem_of_fmap_2.
Qed.

Lemma route_strict (p : Pending H C) (f : Finalized H C) (req : Request IM) :
  finalize p = inr f →
  Forall (λ r, trail_wf (route_uri r)) (pending_routes p) →
  StronglySorted (λ a b, (Route.rank a < Route.rank b)%Z) (route f req).
Proof.
  intros Hf Hwf. rewrite (route_sorted p f req Hf).
  apply sort_by_key_strict. intros i j a b Hij Hi Hj Heq.
  pose proof (list_elem_of_lookup_2 _ _ _ Hi) as Hia. apply elem_of_filter_bool in Hia as [_ Hma].
  pose proof (list_elem_of_lookup_2 _ _ _ Hj) as Hjb. apply elem_of_filter_bool in Hjb as [_ Hmb].
  destruct (filter_lookup_pair _ _ _ _ _ _ Hij Hi Hj) as (i' & j' & Hij' & Hi' & Hj').
  rewrite Forall_lookup in Hwf.
  pose proof (matches_collide a b req (Hwf _ _ Hi') (Hwf _ _ Hj') Hma Hmb Heq) as Hc.
  unfold finalize in Hf. destruct (is_empty (collisions routes_collide _)) eqn:Hr; [|done].
  apply is_empty_true in Hr. rewrite collisions_nil in Hr.
  by rewrite (Hr i' j' a b Hij' Hi' Hj') in Hc.
Qed.

(** C1: Routing is deterministic: once a set of routes is finalized, the routes
    tried for a request are exactly the matching ones, and they come in
    strictly increasing order of rank, so that which handler runs first never
    depends on the order of mounting. *)
Theorem route_strictly_sorted (p : Pending H C) (f : Finalized H C) (req : Request IM) :
  finalize p = inr f →
  Forall (λ r, trail_wf (route_uri r)) (pending_routes p) →
  (∀ r, r ∈ route f req ↔ r ∈ pending_routes p ∧ route_matches r req = true) ∧
  StronglySorted (λ a b, (Route.rank a < Route.rank b)%Z) (route f req).
Proof.
  intros Hf Hwf. split; [|by apply (route_strict p)].
  intros r. rewrite (route_sorted p f req Hf), elem_of_sort_by_key. by rewrite elem_of_filter_bool.
Qed.
End match_collide.

(** ** Catching *)

Lemma find_sorted {A} (key : A → Z) (q : A → bool) (l : list A) :
  match List.find q (sort_by_key key l) with
  | Some x => x ∈ l ∧ q x = true ∧ ∀ y, y ∈ l → q y = true → (key x ≤ key y)%Z
  | None => ∀ y, y ∈ l → q y = false
  end.
Proof.
  assert (∀ k, StronglySorted (key_le key) k →
    match List.find q k with
    | Some x => x ∈ k ∧ q x = true ∧ ∀ y, y ∈ k → q y = true → (key x ≤ key y)%Z
    | None => ∀ y, y ∈ k → q y = false
    end) as Hk.
  2: { specialize (Hk _ (sort_by_key_sorted key l)).
       destruct (List.find q _); setoid_rewrite (elem_of_sort_by_key key) in Hk; done. }
  clear l. intros k Hs. induction Hs as [|x k Hs IH Hx]; simpl; [set_solver|].
  rewrite Forall_forall in Hx. unfold key_le in Hx. destruct (q x) eqn:Hq.
  - split_and!; [set_solver|done|]. intros y [->|Hy]%elem_of_cons _; [lia|auto].
  - destruct (List.find q k).
    + destruct IH as (Hin & Hqa & Hmin). split_and!; [set_solver|done|].
      intros y [->|Hy]%elem_of_cons Hqy; [congruence|auto].
    + intros y [->|Hy]%elem_of_cons; auto.
Qed.

Section catching.
Context {U : Uncased} {P : Pear} {PC : PearCombinators} {IM : IndexMap str (list str) uncased_eq}.
Context {SP : StablePattern} {SPL : StablePatternLaws} {M : Memchr} {PE : PercentEncoding}
  {PEL : PercentEncodingLaws}.
Context {H C : Type}.

Lemma catcher_matches_code status (req : Request IM) (c : Catcher C) :
  catcher_matches status req c = true → code c = None ∨ code c = Some (Status.code status).
Proof.
  unfold catcher_matches. intros [Hc _]%andb_true_iff. destruct (code c); [right|by left].
  by apply Z.eqb_eq in Hc as ->.
Qed.

(** What is found among the catchers for one code. *)
Lemma find_kind status (req : Request IM) key (l : list (Catcher C)) :
  match List.find (catcher_matches status req)
          (sort_by_key Catcher.rank (List.filter (λ c, bool_decide (code c = key)) l)) with
  | Some c => c ∈ l ∧ code c = key ∧ catcher_matches status req c = true ∧
      ∀ c', c' ∈ l → code c' = key → catcher_matches status req c' = true →
        (Catcher.rank c ≤ Catcher.rank c')%Z
  | None => ∀ c, c ∈ l → code c = key → catcher_matches status req c = false
  end.
Proof.
  set (kind := List.filter _ l).
  assert (∀ c, c ∈ kind ↔ c ∈ l ∧ code c = key) as Hkind.
  { intros c. unfold kind. rewrite !list_elem_of_In, filter_In, bool_decide_eq_true. done. }
  pose proof (find_sorted Catcher.rank (catcher_matches status req) kind) as Hs.
  destruct (List.find _ _) as [c|].
  - destruct Hs as (Hin & Hm & Hmin). apply Hkind in Hin as [Hin Hc]. split_and!; [done..|].
    intros c' Hin' Hc'. apply Hmin, Hkind. done.
  - intros c Hin Hc. apply Hs, Hkind. done.
Qed.

(** C7: [catch] finds a matching catcher whenever there is one; what it finds
    has the least rank, that is the longest base, of all that match, and among
    those of that rank one for the very status is preferred to a default. *)
Theorem catch_spec (p : Pending H C) (f : Finalized H C) (status : Status) (req : Request IM) :
  finalize p = inr f →
  match catch f status req with
  | Some c =>
    c ∈ pending_catchers p ∧ catcher_matches status req c = true ∧
    ∀ c', c' ∈ pending_catchers p → catcher_matches status req c' = true →
      (Catcher.rank c ≤ Catcher.rank c')%Z ∧
      (Catcher.rank c' = Catcher.rank c → code c' = Some (Status.code status) → code c = code c')
  | None => ∀ c, c ∈ pending_catchers p → catcher_matches status req c = false
  end.
Proof.
  intros Hf. unfold catch. rewrite !(catch_find p f status req _ Hf).
  pose proof (find_kind status req (Some (Status.code status)) (pending_catchers p)) as He.
  pose proof (find_kind status req None (pending_catchers p)) as Hd.
  pose proof (λ c, catcher_matches_code status req c) as Hcode.
  destruct (List.find _ (sort_by_key _ (List.filter (λ c, bool_decide (code c = Some _)) _))) as [a|];
    destruct (List.find _ _) as [b|].
  - destruct He as (? & Ha & ? & Hea), Hd as (? & Hb & ? & Hdb).
    destruct (Z.leb_spec (Catcher.rank a) (Catcher.rank b)); split_and!; try done;
      intros c' Hin Hm; (destruct (Hcode c' Hm) as [Hc|Hc];
        [specialize (Hdb c' Hin Hc Hm)|specialize (Hea c' Hin Hc Hm)]);
      (split; [lia|]); intros Hr Hs; (congruence || lia).
  - destruct He as (? & Ha & ? & Hea). split_and!; [done..|]. intros c' Hin Hm.
    destruct (Hcode c' Hm) as [Hc|Hc]; [by rewrite (Hd c' Hin Hc) in Hm|].
    split; [by apply Hea|congruence].
  - destruct Hd as (? & Hb & ? & Hdb). split_and!; [done..|]. intros c' Hin Hm.
    destruct (Hcode c' Hm) as [Hc|Hc]; [|by rewrite (He c' Hin Hc) in Hm].
    split; [by apply Hdb|congruence].
  - intros c Hin. destruct (catcher_matches status req c) eqn:Hm; [|done].
    destruct (Hcode c Hm) as [Hc|Hc]; [by rewrite (Hd c Hin Hc) in Hm|
      by rewrite (He c Hin Hc) in Hm].
Qed.

(** The decoded segments of a catcher's base: one empty segment, or only
    non-empty ones. *)
Lemma base_segments (c : Catcher C) :
  catcher_wf c →
  path_segments (path (Catcher.base c)) = [[]] ∨
  Forall (λ s, s ≠ []) (path_segments (path (Catcher.base c))).
Proof.
  intros ((Hs & Hp & _) & Hn & _). cbn [fst snd] in *. apply starts_with_slash in Hs as [t Ht].
  unfold is_normalized_nontrailing, is_normalized, has_trailing_slash in Hn.
  rewrite Ht in *. apply andb_true_iff in Hn as [[Hn _]%andb_true_iff Htr].
  apply negb_true_iff in Htr. autorewrite with crates in Htr.
  destruct (Forall_cons_1 _ _ _ Hp) as [_ Ht']. apply pchars_graphic in Ht'.
  assert (path_raw_segments (slash :: t) = split_on slash t) as Hraw.
  { unfold path_raw_segments. rewrite trim_all_graphic by by constructor.
    by autorewrite with crates. }
  destruct (raw_segments_snoc (slash :: t)) as (ws & w & Hw).
  rewrite (is_normalized_snoc _ _ _ Hw) in Hn. apply andb_true_iff in Hn as [_ Hws].
  unfold path_segments. rewrite Hw, decode_segments_snoc.
  destruct w as [|d w].
  - left. destruct ws as [|x ws]; [done|]. exfalso.
    assert (t = join slash (x :: ws) ++ [slash]) as ->.
    { rewrite <-(join_split slash t), <-Hraw, Hw. by rewrite join_snoc. }
    rewrite app_comm_cons, ends_with_snoc, bool_decide_true, andb_true_r in Htr by done.
    apply Nat.ltb_ge in Htr. rewrite length_app in Htr. simpl in Htr. lia.
  - right. apply Forall_app. split.
    + apply Forall_fmap, Forall_forall. intros s Hs. cbn.
      apply is_empty_false. rewrite percent_decode_lossy_empty. apply is_empty_false.
      pose proof (filter_nonempty_ne ws) as Hne. rewrite Forall_forall in Hne. by apply Hne.
    + constructor; [|done]. apply is_empty_false. rewrite percent_decode_lossy_empty. done.
Qed.

Lemma remaining_new l : remaining (segments_new l) = l.
Proof. done. Qed.

(** Among well-formed catchers that do not collide, at most one of each
    rank and code matches an error: the catcher [catch] selects does not
    depend on the order of registration. *)
Theorem catch_unambiguous (p : Pending H C) (f : Finalized H C) (status : Status)
    (req : Request IM) (i j : nat) (a b : Catcher C) :
  finalize p = inr f →
  Forall catcher_wf (pending_catchers p) →
  pending_catchers p !! i = Some a → pending_catchers p !! j = Some b →
  catcher_matches status req a = true → catcher_matches status req b = true →
  Catcher.rank a = Catcher.rank b → code a = code b → i = j.
Proof.
  intros Hf Hwf Hi Hj Hma Hmb Hr Hc. rewrite Forall_lookup in Hwf.
  pose proof (Hwf _ _ Hi) as Hwa. pose proof (Hwf _ _ Hj) as Hwb.
  assert (path_segments (path (Catcher.base a)) = path_segments (path (Catcher.base b))) as Heq.
  { unfold catcher_matches in Hma, Hmb.
    apply andb_true_iff in Hma as [_ Hma], Hmb as [_ Hmb].
    apply prefix_of_spec in Hma as [Hla Hxa], Hmb as [Hlb Hxb]. rewrite !remaining_new in *.
    destruct Hwa as (Hva & Hna & Hqa & Hra & Hca), Hwb as (Hvb & Hnb & Hqb & Hrb & Hcb).
    rewrite Hra, Hrb in Hr. unfold catcher_rank in Hr.
    assert (Hfl : ∀ l : list str, Forall (λ s, s ≠ []) l → List.filter nonempty l = l)
      by apply filter_nonempty_id.
    destruct (base_segments a) as [Ha|Ha], (base_segments b) as [Hb|Hb]; try by split_and!.
    - congruence.
    - rewrite Ha, (Hfl _ Hb) in Hr. simpl in Hr.
      destruct (path_segments (path (Catcher.base b))) as [|s l] eqn:E; [|simpl in Hr; lia].
      exfalso. revert E. unfold path_segments.
      destruct (raw_segments_snoc (path (Catcher.base b))) as (ws & w & ->).
      rewrite decode_segments_snoc. by destruct (_ <$> _).
    - rewrite Hb, (Hfl _ Ha) in Hr. simpl in Hr.
      destruct (path_segments (path (Catcher.base a))) as [|s l] eqn:E; [|simpl in Hr; lia].
      exfalso. revert E. unfold path_segments.
      destruct (raw_segments_snoc (path (Catcher.base a))) as (ws & w & ->).
      rewrite decode_segments_snoc. by destruct (_ <$> _).
    - rewrite (Hfl _ Ha), (Hfl _ Hb) in Hr. apply list_eq_same_length with (length (path_segments (path (Catcher.base b)))); [done|lia|].
      intros k x y Hk Hx Hy. rewrite Forall_lookup in Ha, Hb.
      destruct (lookup_lt_is_Some_2 (origin_segments (req_uri req)) k) as [z Hz]; [lia|].
      destruct (Hxa k x z Hx Hz) as [Hxz|Hxz]; [by destruct (Ha k x Hx)|].
      destruct (Hxb k y z Hy Hz) as [Hyz|Hyz]; [by destruct (Hb k y Hy)|congruence]. }
  unfold finalize in Hf. destruct (is_empty (collisions routes_collide _)); [|done].
  destruct (is_empty (collisions catchers_collide _)) eqn:Hr'; [|done].
  apply is_empty_true in Hr'. rewrite collisions_nil in Hr'.
  destruct (Nat.lt_trichotomy i j) as [Hlt|[?|Hgt]]; [|done|].
  - specialize (Hr' i j a b Hlt Hi Hj). unfold catchers_collide in Hr'.
    by rewrite Hc, Heq, !bool_decide_true in Hr'.
  - specialize (Hr' j i b a Hgt Hj Hi). unfold catchers_collide in Hr'.
    by rewrite Hc, Heq, !bool_decide_true in Hr'.
Qed.
End catching.

(** ** A concrete router *)

Section witness.
Import Reference PearReference PearCombinatorsReference HeaderReference.

Definition mounted (method : option Method) (uri : str) : list (Route unit) :=
  match Route_new method uri tt with Some r => [r] | None => [] end.

(** [catcher] at a base. *)
Definition registered (base : Origin) : list (Catcher unit) :=
  match Catcher.rebase base (Catcher_default tt) with Some c => [c] | None => [] end.

Lemma registered_wf base : Origin_valid base → Forall catcher_wf (registered base).
Proof.
  intros Hv. unfold registered.
  destruct (rebase_wf (Catcher_default tt) base) as (c & -> & Hw & _);
    [|done|by constructor].
  split_and!; try done. split_and!; [done|by repeat constructor|done].
Qed.

Definition site : Pending unit unit :=
  Pending_new (mounted (Some Get) (#"/<p..>") ++ mounted (Some Get) (#"/a/<b>") ++ mounted (Some Get) (#"/a/b"))
    (registered root ++ registered (Origin_new (#"/a") None)).

Definition get_a_b : Request header_index := request_new false None Get (Origin_new (#"/a/b") None).

Lemma site_finalizes : ∃ f, finalize site = inr f.
Proof.
  assert (match finalize site with inr _ => true | inl _ => false end = true) as Hs
    by (by vm_compute).
  destruct (finalize site) as [|f]; [done|by exists f].
Qed.

Example route_sorted_witness :
  ∃ f, finalize site = inr f ∧
    StronglySorted (λ a b, (Route.rank a < Route.rank b)%Z) (Router.route f get_a_b).
Proof.
  destruct site_finalizes as [f Hf]. exists f. split; [done|].
  assert (Forall (λ r, trail_wf (route_uri r)) (pending_routes site)) as Hw.
  { apply Forall_forall. intros r Hr. apply (bool_decide_unpack _).
    revert r Hr. apply Forall_forall. vm_compute. repeat constructor. }
  exact (proj2 (route_strictly_sorted site f get_a_b Hf Hw)).
Defined.

Lemma site_catcher (P : Catcher unit → bool) :
  forallb P (pending_catchers site) = true → ∀ c, c ∈ pending_catchers site → P c = true.
Proof. rewrite forallb_forall. setoid_rewrite <-list_elem_of_In. done. Qed.

Example catch_witness :
  ∃ f, finalize site = inr f ∧ Catcher.rank <$> catch f Status.NotFound get_a_b = Some (-1)%Z.
Proof.
  destruct site_finalizes as [f Hf]. exists f. split; [done|].
  pose proof (catch_spec site f Status.NotFound get_a_b Hf) as Hc.
  destruct (existsb (λ c, catcher_matches Status.NotFound get_a_b c && (Catcher.rank c =? -1)%Z)
              (pending_catchers site)) eqn:He; [|by vm_compute in He].
  apply existsb_exists in He as (c & Hin & [Hm Hr%Z.eqb_eq]%andb_true_iff).
  apply list_elem_of_In in Hin.
  destruct (catch f Status.NotFound get_a_b) as [c'|]; [|by rewrite Hc in Hm].
  destruct Hc as (Hin' & _ & Hmin). destruct (Hmin c Hin Hm) as [Hle _].
  pose proof (site_catcher (λ c, (-1 <=? Catcher.rank c)%Z) (eq_refl true) c' Hin') as Hge.
  simpl. f_equal. cbv beta in Hge. lia.
Defined.

Example catch_unambiguous_witness :
  ∃ f a, finalize site = inr f ∧ pending_catchers site !! 1%nat = Some a ∧
  ∀ j b, pending_catchers site !! j = Some b →
    catcher_matches Status.NotFound get_a_b b = true → Catcher.rank b = Catcher.rank a →
    code b = code a → 1%nat = j.
Proof.
  destruct site_finalizes as [f Hf].
  destruct (pending_catchers site !! 1%nat) as [a|] eqn:Ha; [|by vm_compute in Ha].
  exists f, a. split_and!; [done..|]. intros j b Hj Hm Hr Hc.
  assert (Forall catcher_wf (pending_catchers site)) as Hw.
  { unfold site. cbn [pending_catchers].
    apply Forall_app. split; apply registered_wf; (split; [done|]); (split; [|by intros]).
    - by repeat constructor.
    - by repeat constructor. }
  assert (catcher_matches Status.NotFound get_a_b a = true) as Hma.
  { change (default true (catcher_matches Status.NotFound get_a_b <$> Some a) = true).
    rewrite <-Ha. by vm_compute. }
  exact (catch_unambiguous site f Status.NotFound get_a_b 1 j a b Hf Hw Ha Hj Hma Hm
           (eq_sym Hr) (eq_sym Hc)).
Defined.
End witness.
