(* ===== verification/FormName.v ===== *)
(** * FormName: form field names and their keys
    (core/lib/src/form/name/view.rs, name.rs, key.rs, buf.rs)

    A [Name] is the string it wraps, a [NameView] a window of it.  Iterating
    over keys or prefixes runs [shift] until the view is exhausted; the model
    is fuelled, with [None] for running out of it, because the loop of the code
    may not end: a view that stands before a [=] never moves. *)

From S2P Require Import Prelude Crates RawStr.

Section NameView.
Context `{Memchr} `{PercentEncoding}.

(** [struct NameView]. *)
Record NameView := NameView_at { view_name : str; view_start : nat; view_end : nat }.

(** [str::find(START_DELIMS)]. *)
Fixpoint find_delims (s : str) : option nat :=
  match s with
  | [] => None
  | c :: s =>
    if bool_decide (c = "."%char) || bool_decide (c = "["%char) then Some 0%nat
    else S <$> find_delims s
  end.

(** How far [NameView::shift] moves the end, given what follows it. *)
Definition shift_by (string : str) : nat :=
  match string with
  | [] => 0
  | c :: rest =>
    if bool_decide (c = "="%char) then 0
    else if bool_decide (c = "["%char) then
      match memchr "]" string with Some j => j + 1 | None => length string end
    else if bool_decide (c = "."%char) then
      match find_delims rest with Some j => j + 1 | None => length string end
    else match find_delims string with Some j => j | None => length string end
  end.

(** [NameView::shift], [NameView::new]. *)
Definition view_shift (self : NameView) : NameView :=
  let string := drop (view_end self) (view_name self) in
  NameView_at (view_name self) (view_end self) (view_end self + shift_by string).

Definition view_new (name : str) : NameView := view_shift (NameView_at name 0 0).

(** [NameView::is_at_last], [exhausted], [as_name], [parent], [source]. *)
Definition is_at_last (self : NameView) : bool := (view_end self =? length (view_name self))%nat.
Definition exhausted (self : NameView) : bool := (view_start self =? length (view_name self))%nat.
Definition as_name (self : NameView) : str := take (view_end self) (view_name self).
Definition parent (self : NameView) : option str :=
  if (0 <? view_start self)%nat then Some (take (view_start self) (view_name self)) else None.
Definition source (self : NameView) : str := view_name self.

(** The window itself, [&self.name[self.start..self.end]]. *)
Definition window (self : NameView) : str :=
  take (view_end self - view_start self) (drop (view_start self) (view_name self)).

(** [NameView::key_lossy], [NameView::key]. *)
Definition key_lossy (self : NameView) : str :=
  let view := window self in
  match view with
  | c :: rest =>
    if bool_decide (c = "."%char) then rest
    else if bool_decide (c = "["%char) && ends_with (#"]") view then
      take (length view - 1 - 1) rest
    else if bool_decide (c = "["%char) && is_at_last self then rest
    else view
  | [] => view
  end.

Definition key (self : NameView) : option str :=
  let lossy_key := key_lossy self in
  if is_empty lossy_key then None else Some lossy_key.

(** [Key::indices]. *)
Definition indices (key : str) : list str := split_on ":" key.

(** The iterators [Keys] and [Prefixes], run to their end. *)
Fixpoint run {A} (item : NameView → A) (fuel : nat) (self : NameView) : option (list A) :=
  match fuel with
  | O => None
  | S n => if exhausted self then Some []
           else cons (item self) <$> run item n (view_shift self)
  end.

(** [Name::keys] and [Name::prefixes]; a name that lets the view advance to
    its end does so in at most as many steps as it has bytes. *)
Definition keys (name : str) : option (list str) :=
  run key_lossy (S (length name)) (view_new name).
Definition prefixes (name : str) : option (list str) :=
  run as_name (S (length name)) (view_new name).

(** [self.keys().eq(other.keys())]: in step, up to the first difference. *)
Fixpoint keys_eq (fuel : nat) (a b : NameView) : option bool :=
  match fuel with
  | O => None
  | S n =>
    match exhausted a, exhausted b with
    | true, true => Some true
    | false, false =>
      if bool_decide (key_lossy a = key_lossy b)
      then keys_eq n (view_shift a) (view_shift b) else Some false
    | _, _ => Some false
    end
  end.

(** [impl PartialEq for Name]. *)
Definition name_eq (a b : str) : option bool :=
  keys_eq (S (length a)) (view_new a) (view_new b).

(** [impl PartialEq<B> for NameView]: [other == self.as_name()]. *)
Definition view_eq (self : NameView) (other : str) : option bool := name_eq other (as_name self).

(** [struct NameBuf], its keys and its text. *)
Record NameBuf := NameBuf_new { left : str; right : str }.

Definition buf_keys (self : NameBuf) : option (list str) :=
  l ← keys (left self); r ← keys (right self); Some (l ++ r).

Definition buf_to_string (self : NameBuf) : str :=
  left self ++
  if negb (is_empty (right self)) then (if negb (is_empty (left self)) then #"." else []) ++ right self
  else [].

(** [impl From<NameView> for NameBuf], [into_owned]. *)
Definition buf_from_view (nv : NameView) : NameBuf := NameBuf_new (as_name nv) [].
Definition buf_into_owned (self : NameBuf) : NameBuf :=
  NameBuf_new []
    (if is_empty (left self) then right self
     else if is_empty (right self) then left self
     else left self ++ #"." ++ right self).
End NameView.

(** ** Lemmas *)

Lemma find_delims_lt s j : find_delims s = Some j → (j < length s)%nat.
Proof.
  revert j. induction s as [|c s IH]; intros j; simpl; [done|].
  destruct (_ || _); [intros [= <-]; lia|]. intros (k & Hk%IH & ->)%fmap_Some. lia.
Qed.

Section view_lemmas.
Context `{MemchrLaws} `{PercentEncoding}.

Lemma shift_by_le s : (shift_by s ≤ length s)%nat.
Proof.
  unfold shift_by. destruct s as [|c s]; [done|].
  repeat case_bool_decide; [simpl; lia| | |].
  - autorewrite with crates. destruct (find_byte _ _) eqn:E; [|simpl; lia].
    apply find_byte_Some in E as (_ & _ & E). simpl in E. simpl. lia.
  - destruct (find_delims s) eqn:E; [|simpl; lia]. apply find_delims_lt in E. simpl. lia.
  - destruct (find_delims (c :: s)) eqn:E; [|simpl; lia]. apply find_delims_lt in E. simpl in E. simpl. lia.
Qed.

Lemma shift_by_pos c s : c ≠ "="%char → (0 < shift_by (c :: s))%nat.
Proof.
  intros Hc. unfold shift_by. repeat case_bool_decide; simpl; [done| | |].
  - destruct (memchr _ _); lia.
  - destruct (find_delims s); lia.
  - rewrite !bool_decide_false by done. simpl. destruct (find_delims s); simpl; lia.
Qed.

(** A view within its name. *)
Definition view_ok (v : NameView) : Prop :=
  (view_start v ≤ view_end v ≤ length (view_name v))%nat.

(** A view that is not exhausted is not empty. *)
Definition advancing (v : NameView) : Prop :=
  view_ok v ∧ ((view_start v < length (view_name v))%nat → (view_start v < view_end v)%nat).

Lemma view_shift_advancing v :
  view_ok v → "="%char ∉ view_name v → advancing (view_shift v).
Proof.
  intros Hv He. unfold view_shift, advancing, view_ok in *. simpl.
  pose proof (shift_by_le (drop (view_end v) (view_name v))) as Hle. rewrite length_drop in Hle.
  split; [lia|]. intros Hlt.
  destruct (drop (view_end v) (view_name v)) as [|c s] eqn:Hd.
  { apply (f_equal length) in Hd. rewrite length_drop in Hd. simpl in Hd. lia. }
  assert (c ≠ "="%char) as Hc.
  { intros ->. apply He. rewrite <-(take_drop (view_end v) (view_name v)), Hd. set_solver. }
  pose proof (shift_by_pos c s Hc). lia.
Qed.

Lemma view_new_advancing name : "="%char ∉ name → advancing (view_new name).
Proof. intros He. apply view_shift_advancing; [|done]. unfold view_ok. simpl. lia. Qed.

(** Running a view to its end, with fuel for each byte left. *)
Lemma run_enough {A} (item : NameView → A) fuel v :
  advancing v → "="%char ∉ view_name v → (length (view_name v) - view_start v < fuel)%nat →
  ∃ l, (∀ m, (fuel ≤ m)%nat → run item m v = Some l).
Proof.
  revert v. induction fuel as [|fuel IH]; intros v [Hok Hadv] He Hf; [lia|].
  destruct (exhausted v) eqn:Hex.
  - exists []. intros [|m] Hm; [lia|]. simpl. by rewrite Hex.
  - apply Nat.eqb_neq in Hex as Hne. unfold view_ok in Hok.
    destruct (IH (view_shift v)) as [l Hl].
    + by apply view_shift_advancing.
    + done.
    + unfold view_shift. simpl. lia.
    + exists (item v :: l). intros [|m] Hm; [lia|]. simpl. rewrite Hex, Hl by lia. done.
Qed.

(** The windows of a name tile it. *)
Lemma run_window_concat fuel v l :
  advancing v → "="%char ∉ view_name v → run window fuel v = Some l →
  concat l = drop (view_start v) (view_name v).
Proof.
  revert v l. induction fuel as [|fuel IH]; intros v l [Hok Hadv] He; [done|]. simpl.
  destruct (exhausted v) eqn:Hex.
  - apply Nat.eqb_eq in Hex. intros [= <-]. by rewrite drop_ge by lia.
  - intros (l' & Hl' & ->)%fmap_Some. simpl.
    apply IH in Hl'; [|by apply view_shift_advancing|done]. rewrite Hl'. simpl.
    unfold window, view_ok in *.
    rewrite <-(take_drop (view_end v - view_start v) (drop (view_start v) (view_name v))) at 2.
    rewrite drop_drop. by replace (view_start v + (view_end v - view_start v))%nat with (view_end v) by lia.
Qed.

(** Iterating over the keys, or prefixes, of a name without [=] ends, after
    at most as many steps as the name has bytes, and the windows it visits
    tile the name: no byte is skipped and none is visited twice. *)
Theorem keys_terminate (name : str) :
  "="%char ∉ name →
  is_Some (keys name) ∧ is_Some (prefixes name) ∧
  ∃ ws, run window (S (length name)) (view_new name) = Some ws ∧ concat ws = name.
Proof.
  intros He. pose proof (view_new_advancing name He) as Ha.
  assert (∀ A (item : NameView → A), is_Some (run item (S (length name)) (view_new name))) as Hr.
  { intros A item. destruct (run_enough item (S (length name)) (view_new name)) as [l Hl];
      [done..|simpl; lia|]. exists l. by apply Hl. }
  split_and!; [apply Hr|apply Hr|]. destruct (Hr _ window) as [ws Hws]. exists ws.
  split; [done|]. by apply run_window_concat in Hws.
Qed.

(** A view that stands before a [=] never advances: for such a name, for
    instance one whose first byte is a percent-encoded [=], the iteration over
    its keys, which hashing and comparing it run, never ends. *)
Theorem keys_diverge (v : NameView) (fuel : nat) :
  (view_end v < length (view_name v))%nat →
  head (drop (view_end v) (view_name v)) = Some "="%char →
  exhausted v = false → run key_lossy fuel v = None ∧ keys_eq fuel v v = None.
Proof.
  intros Hlt Hh. revert v Hlt Hh. induction fuel as [|fuel IH]; intros v Hlt Hh Hex; [done|].
  assert (view_shift v = NameView_at (view_name v) (view_end v) (view_end v)) as Hs.
  { unfold view_shift. destruct (drop (view_end v) (view_name v)) as [|c s]; [done|].
    simplify_eq/=. by rewrite Nat.add_0_r. }
  destruct (IH (view_shift v)) as [IH1 IH2].
  - by rewrite Hs.
  - by rewrite Hs.
  - rewrite Hs. apply Nat.eqb_neq. simpl. lia.
  - simpl. rewrite Hex, IH1, bool_decide_true by done. done.
Qed.

(** Printing an owned name buffer gives what printing the buffer does. *)
Lemma buf_into_owned_to_string b : buf_to_string (buf_into_owned b) = buf_to_string b.
Proof.
  destruct b as [[|c l] [|d r]]; unfold buf_into_owned, buf_to_string; simpl; try done;
    by rewrite ?app_nil_r.
Qed.
End view_lemmas.

(** Names with and without [=]. *)
Section witness.
Import Reference.

Example keys_terminate_witness : ("="%char ∉ #"a.b[c]") ∧ is_Some (keys (#"a.b[c]")).
Proof.
  assert ("="%char ∉ (#"a.b[c]")) as Hn by (apply (bool_decide_unpack _); by vm_compute).
  split; [done|]. exact (proj1 (keys_terminate (#"a.b[c]") Hn)).
Defined.

Example keys_diverge_witness : run key_lossy 100 (view_new (#"=")) = None.
Proof.
  assert (view_end (view_new (#"=")) < length (view_name (view_new (#"="))))%nat as Hlt
    by (apply Nat.ltb_lt; by vm_compute).
  exact (proj1 (keys_diverge (view_new (#"=")) 100 Hlt eq_refl eq_refl)).
Defined.
End witness.
