(* ===== verification/FormParser.v ===== *)
(** * FormParser: fields of url-encoded forms
    (core/lib/src/form/field.rs, parser.rs, form.rs)

    The shared buffer that owns decoded strings is not modelled: a decoded
    string is the string. *)

From S2P Require Import Prelude Crates RawStr FormName.

Section FormParser.
Context `{Memchr} `{PercentEncoding}.

(** [struct ValueField]. *)
Record ValueField := ValueField_new { field_name : NameView; field_value : str }.

(** [impl From<(&str, &str)> for ValueField], [ValueField::parse],
    [from_value], [shift]. *)
Definition field_from (p : str * str) : ValueField := ValueField_new (view_new p.1) p.2.

Definition field_parse (field : str) : ValueField := field_from (split_at_byte field "=").

Definition field_from_value (value : str) : ValueField := field_from ([], value).

Definition field_shift (self : ValueField) : ValueField :=
  ValueField_new (view_shift (field_name self)) (field_value self).

(** [Form::<()>::values]. *)
Definition values (string : str) : list ValueField :=
  field_parse <$> List.filter (λ s, negb (is_empty s)) (split_on "&" string).

(** The loop of [RawStrParser::next]: the pair of the next field that is not
    empty, and the source after it. *)
Fixpoint raw_next (fuel : nat) (source : str) : option (option (str * str) * str) :=
  match fuel with
  | O => None
  | S n =>
    if is_empty source then Some (None, source)
    else
      let '(field_str, rest) := split_at_byte source "&" in
      if negb (is_empty field_str) then Some (Some (split_at_byte field_str "="), rest)
      else raw_next n rest
  end.

(** [RawStrParser::next]: each turn of the loop consumes a byte. *)
Definition parser_next (source : str) : option (ValueField * str) :=
  match raw_next (S (length source)) source with
  | Some (Some (name, value), rest) =>
    Some (field_from (cow_value (url_decode_lossy name), cow_value (url_decode_lossy value)), rest)
  | _ => None
  end.

(** The fields of a source, the parser run to its end. *)
Fixpoint parser_run (fuel : nat) (source : str) : option (list ValueField) :=
  match fuel with
  | O => None
  | S n => match parser_next source with
           | Some (field, rest) => cons field <$> parser_run n rest
           | None => Some []
           end
  end.

Definition fields (source : str) : option (list ValueField) :=
  parser_run (S (length source)) source.

(** The field a piece between [&]s denotes. *)
Definition decoded_field (piece : str) : ValueField :=
  let '(name, value) := split_at_byte piece "=" in
  field_from (cow_value (url_decode_lossy name), cow_value (url_decode_lossy value)).
End FormParser.

Section parser_lemmas.
Context `{MemchrLaws} `{PercentEncoding}.

Lemma split_amp source :
  (split_at_byte source "&" = (source, []) ∧ ("&"%char ∉ source)) ∨
  ∃ u v, source = u ++ "&"%char :: v ∧ ("&"%char ∉ u) ∧ split_at_byte source "&" = (u, v).
Proof.
  unfold split_at_byte. simpl. autorewrite with crates. destruct (find_byte "&" source) as [i|] eqn:E.
  - right. apply find_byte_Some in E as (Hs & Hu & _).
    exists (take i source), (drop (S i) source). split_and!; [done..|]. by rewrite Nat.add_1_r.
  - left. split; [done|]. by apply find_byte_None.
Qed.

(** The pieces of a source that hold a field. *)
Definition pieces (source : str) : list str :=
  List.filter (λ s, negb (is_empty s)) (split_on "&" source).

Lemma raw_next_spec fuel source :
  (length source < fuel)%nat →
  match raw_next fuel source with
  | Some (None, _) => pieces source = []
  | Some (Some p, rest) =>
    (length rest < length source)%nat ∧
    ∃ piece, p = split_at_byte piece "=" ∧ pieces source = piece :: pieces rest
  | None => False
  end.
Proof.
  revert source. induction fuel as [|fuel IH]; intros source Hf; [lia|]. simpl.
  destruct (is_empty source) eqn:He; [by apply is_empty_true in He as ->|].
  destruct (split_amp source) as [[-> Hn]|(u & v & -> & Hu & ->)].
  - rewrite He. simpl. split; [destruct source; simpl; [done|lia]|].
    exists source. split; [done|]. unfold pieces. rewrite split_on_none by done.
    simpl. by rewrite He.
  - destruct (is_empty u) eqn:Eu; simpl.
    + apply is_empty_true in Eu as ->. specialize (IH v). simpl in Hf.
      assert (pieces ([] ++ "&"%char :: v) = pieces v) as -> by done.
      specialize (IH ltac:(lia)). destruct (raw_next fuel v) as [[[p|] rest]|]; try done.
      destruct IH as [Hl Hp]. split; [simpl; lia|done].
    + split; [rewrite length_app; simpl; lia|]. exists u. split; [done|].
      unfold pieces. rewrite split_on_app by done. simpl. by rewrite Eu.
Qed.

Lemma parser_run_spec fuel source :
  (length source < fuel)%nat → parser_run fuel source = Some (decoded_field <$> pieces source).
Proof.
  revert source. induction fuel as [|fuel IH]; intros source Hf; [lia|]. simpl.
  unfold parser_next. pose proof (raw_next_spec (S (length source)) source ltac:(lia)) as Hn.
  destruct (raw_next (S (length source)) source) as [[[[name value]|] rest]|]; [| |done].
  - destruct Hn as (Hl & piece & Hp & ->). rewrite IH by lia. simpl. unfold decoded_field at 2.
    by rewrite <-Hp.
  - by rewrite Hn.
Qed.

(** Parsing a url-encoded form ends and yields the non-empty pieces between
    the [&]s, in order, each split at its first [=] and decoded. *)
Theorem fields_spec (source : str) : fields source = Some (decoded_field <$> pieces source).
Proof. apply parser_run_spec. lia. Qed.
End parser_lemmas.

(** A percent-encoded [=] at the start of a field reaches the names whose keys
    never end. *)
Section divergence.
Import Reference.

Lemma encoded_name_diverges :
  fields (#"%3D=1") = Some [field_from (#"=", #"1")] ∧
  ∀ fuel, run key_lossy fuel (view_new (#"=")) = None.
Proof.
  split; [by vm_compute|]. assert (view_shift (view_new (#"=")) = view_new (#"=")) as Hs by done.
  induction fuel as [|fuel IH]; [done|]. cbn [run]. rewrite Hs.
  change (exhausted (view_new (#"="))) with false. by rewrite IH.
Qed.
End divergence.

(** Fields of a concrete form. *)
Section witness.
Import Reference.

Example fields_witness :
  fields (#"a=b&&c%3D=d+e") = Some [field_from (#"a", #"b"); field_from (#"c=", #"d e")].
Proof. rewrite fields_spec. by vm_compute. Defined.
End witness.
