(* ===== verification/Data.v ===== *)
(** * Data: request bodies and their peek buffer
    (core/lib/src/data/data.rs, peekable.rs)

    The reader underneath is the list of what its reads will yield: a chunk of
    bytes, or an I/O error ([None]); at the end of the list it yields no
    bytes, which is the end of the stream.  [Vec::reserve] gives exactly the
    capacity asked for, the least it may give.  The transforms attached to a
    [Data] act when it is opened, as [DataStream] models. *)

From S2P Require Import Prelude.

(** [struct Peekable<N, R>]. *)
Record Peekable := Peekable_with {
  buffer : str;
  capacity : nat;
  complete : bool;
  reader : list (option str);
}.

(** [Data] is a [Peekable<512, _>]. *)
Abbreviation Data := Peekable.
Definition PEEK : nat := 512.

(** [Peekable::new], [Peekable::with_buffer]; [Data::from], [Data::local]. *)
Definition peekable_new (reader : list (option str)) : Peekable := Peekable_with [] 0 false reader.
Definition with_buffer (buffer : str) (complete : bool) (reader : list (option str)) : Peekable :=
  Peekable_with buffer (length buffer) complete reader.
Definition data_local (data : str) : Data := with_buffer data true [].

(** The loop of [Peekable::peek]. *)
Fixpoint peek_loop (to_read : nat) (buffer : str) (capacity : nat) (reader : list (option str))
  : Peekable :=
  if (length buffer <? to_read)%nat then
    match reader with
    | [] => Peekable_with buffer capacity (length buffer <? capacity)%nat reader
    | Some [] :: _ => Peekable_with buffer capacity (length buffer <? capacity)%nat reader
    | Some chunk :: reader =>
      let buffer := buffer ++ chunk in
      peek_loop to_read buffer (Nat.max capacity (length buffer)) reader
    | None :: reader => Peekable_with buffer capacity false reader
    end
  else Peekable_with buffer capacity false reader.

(** [Peekable::peek]: the buffer, and the stream after. *)
Definition peek (num : nat) (self : Peekable) : str * Peekable :=
  if complete self then (buffer self, self)
  else
    let to_read := Nat.min PEEK num in
    if (to_read <=? length (buffer self))%nat then (buffer self, self)
    else
      let capacity := if (capacity self =? 0)%nat then PEEK else capacity self in
      let self := peek_loop to_read (buffer self) capacity (reader self) in
      (buffer self, self).

(** [Data::peek_complete]. *)
Definition peek_complete (self : Data) : bool := complete self.

(** All the bytes of a stream: those buffered and those to come. *)
Definition content (self : Peekable) : str := buffer self ++ concat (omap id (reader self)).

(** A stream as [Data] has it: the reader never yields an empty chunk, and a
    stream known to be complete has nothing left to read. *)
Definition peekable_wf (self : Peekable) : Prop :=
  Forall (λ c, c ≠ Some []) (reader self) ∧ (complete self = true → reader self = []).

Lemma peek_loop_spec to_read buf cap rd :
  Forall (λ c, c ≠ Some []) rd →
  let self := peek_loop to_read buf cap rd in
  content self = buf ++ concat (omap id rd) ∧ peekable_wf self ∧
  (∃ more, buffer self = buf ++ more) ∧
  (None ∉ rd → (to_read ≤ length (buffer self))%nat ∨ reader self = []).
Proof.
  intros Hrd. revert buf cap. induction Hrd as [|c rd Hc Hrd IH]; intros buf cap; simpl.
  - destruct (length buf <? to_read)%nat;
      (split_and!; [done|by split; [constructor|]|exists []; by rewrite app_nil_r|by right]).
  - destruct (Nat.ltb_spec (length buf) to_read) as [Hlt|Hge].
    + destruct c as [[|d chunk]|]; [done| |].
      * destruct (IH (buf ++ d :: chunk) (Nat.max cap (length (buf ++ d :: chunk))))
          as (Hcont & Hwf & [more Hmore] & Hlen).
        split_and!; [|done| |].
        -- rewrite Hcont, <-app_assoc. done.
        -- exists ((d :: chunk) ++ more). by rewrite Hmore, <-app_assoc.
        -- intros Hn. apply Hlen. set_solver.
      * split_and!; [done|by split|exists []; by rewrite app_nil_r|]. intros Hn. by destruct Hn; left.
    + split_and!; [done|by split; [constructor|]|exists []; by rewrite app_nil_r|by left].
Qed.

Lemma peek_facts (num : nat) (self : Peekable) :
  peekable_wf self →
  let '(bytes, self') := peek num self in
  content self' = content self ∧ peekable_wf self' ∧ bytes = buffer self' ∧
  (∃ rest, content self = bytes ++ rest) ∧
  (complete self' = true → bytes = content self) ∧
  (None ∉ reader self →
     (Nat.min (Nat.min PEEK num) (length (content self)) ≤ length bytes)%nat).
Proof.
  intros Hself. pose proof (proj1 Hself) as Hrd. unfold peek.
  assert (∀ p : Peekable, peekable_wf p → ∃ rest, content p = buffer p ++ rest) as Hpre
    by (intros p _; unfold content; eauto).
  assert (∀ p, peekable_wf p → complete p = true → buffer p = content p) as Hall.
  { intros p [_ Hp] Hcp. unfold content. rewrite (Hp Hcp). simpl. by rewrite app_nil_r. }
  destruct (complete self) eqn:Ec.
  { split_and!; [done|done|done|by apply Hpre|intros _; by apply Hall|].
    intros _. rewrite <-(Hall self) by done. lia. }
  destruct (Nat.leb_spec (Nat.min PEEK num) (length (buffer self))).
  { split_and!; [done|done|done|by apply Hpre|by rewrite Ec|lia]. }
  set (cap := if (capacity self =? 0)%nat then _ else _).
  destruct (peek_loop_spec (Nat.min PEEK num) (buffer self) cap (reader self) Hrd)
    as (Hcont & Hwf & _ & Hlen).
  set (self' := peek_loop _ _ _ _) in *.
  assert (content self' = content self) as Heq by done.
  split_and!; [done|done|done|rewrite <-Heq; by apply Hpre|rewrite <-Heq; by apply Hall|].
  intros Hn. destruct (Hlen Hn) as [Hl|Hr]; [lia|].
  rewrite <-Heq. unfold content. rewrite Hr. simpl. rewrite app_nil_r. lia.
Qed.

(** Peeking loses and reorders nothing: the bytes returned are a prefix of
    the stream, which afterwards has the same bytes; a stream reported as
    complete has been returned whole; and unless a read fails, at least the
    number of bytes asked for, up to 512, is returned when there are that
    many. *)
Theorem peek_spec (num : nat) (self : Peekable) :
  peekable_wf self →
  let '(bytes, self') := peek num self in
  content self' = content self ∧ peekable_wf self' ∧ bytes = buffer self' ∧
  (∃ rest, content self = bytes ++ rest) ∧
  (complete self' = true → bytes = content self) ∧
  (None ∉ reader self →
     (Nat.min (Nat.min PEEK num) (length (content self)) ≤ length bytes)%nat).
Proof. apply peek_facts. Qed.

(** Peeking at a body that arrives in two chunks. *)
Example peek_witness :
  peekable_wf (Peekable_with [] 0 false [Some (#"ab"); Some (#"cd")]) ∧
  content (peek 3 (Peekable_with [] 0 false [Some (#"ab"); Some (#"cd")])).2 = #"abcd".
Proof.
  assert (peekable_wf (Peekable_with [] 0 false [Some (#"ab"); Some (#"cd")])) as Hw
    by (split; [repeat constructor; discriminate|done]).
  split; [done|].
  pose proof (peek_spec 3 (Peekable_with [] 0 false [Some (#"ab"); Some (#"cd")]) Hw) as Hp.
  destruct (peek 3 _) as [bytes self']. destruct Hp as (Hc & _). cbn [snd]. by rewrite Hc; vm_compute.
Defined.
