(* ===== verification/Limits.v ===== *)
(** * Limits: the limits on incoming data (core/lib/src/data/limits.rs)

    The limits are a vector sorted by name without regard to case; a
    [ByteUnit] is its number of bytes.  Reading limits from a configuration
    goes through figment and is not modelled. *)

From S2P Require Import Prelude Search Crates.

(** [Ord] for [UncasedStr] (the uncased crate). *)
Class UncasedOrd := { uncased_cmp : str → str → comparison }.

Class UncasedOrdLaws `{UncasedOrd} : Prop := {
  uncased_cmp_spec s t : uncased_cmp s t = str_cmp (to_lower <$> s) (to_lower <$> t);
}.

Module UncasedOrdReference.
#[export] Instance uncased_ord_ref : UncasedOrd := {|
  uncased_cmp s t := str_cmp (to_lower <$> s) (to_lower <$> t) |}.
#[export] Instance uncased_ord_laws : UncasedOrdLaws.
Proof. split. done. Qed.
End UncasedOrdReference.

Section Limits.
Context `{UncasedOrd}.

(** [struct Limits]. *)
Record Limits := Limits_with { limits : list (str * Z) }.

(** [Limits::new]. *)
Definition limits_new : Limits := Limits_with [].

(** [Limits::limit]. *)
Definition limit (name : str) (limit : Z) (self : Limits) : Limits :=
  Limits_with
    match binary_search_by (λ p, uncased_cmp p.1 name) (limits self) with
    | inl i => alter (λ p, (p.1, limit)) i (limits self)
    | inr i => take i (limits self) ++ (name, limit) :: drop i (limits self)
    end.

(** The constants and [Limits::default]. *)
Definition kibibytes (n : Z) : Z := (n * 1024)%Z.
Definition mebibytes (n : Z) : Z := (n * 1024 * 1024)%Z.
Definition FORM : Z := kibibytes 32.
Definition DATA_FORM : Z := mebibytes 2.
Definition FILE : Z := mebibytes 1.
Definition STRING : Z := kibibytes 8.
Definition BYTES : Z := kibibytes 8.
Definition JSON : Z := mebibytes 1.
Definition MESSAGE_PACK : Z := mebibytes 1.

Definition limits_default : Limits :=
  foldl (λ self '(name, value), limit name value self) limits_new
    [(#"form", FORM); (#"data-form", DATA_FORM); (#"file", FILE); (#"string", STRING);
     (#"bytes", BYTES); (#"json", JSON); (#"msgpack", MESSAGE_PACK)].

(** The limit of exactly a name. *)
Definition exact_limit (self : Limits) (name : str) : option Z :=
  match binary_search_by (λ p, uncased_cmp p.1 name) (limits self) with
  | inl i => snd <$> limits self !! i
  | inr _ => None
  end.

(** The loop of [Limits::get] over the indices of the slashes from the
    right. *)
Fixpoint get_loop (self : Limits) (name : str) (indices : list nat) : option Z :=
  match exact_limit self name with
  | Some exact => Some exact
  | None =>
    match indices with
    | [] => None
    | i :: indices => get_loop self (take i name) indices
    end
  end.

(** [Limits::get]. *)
Definition get (name : str) (self : Limits) : option Z :=
  get_loop self name (reverse (find_bytes "/" name)).

(** [Limits::find]: the loop over the numbers of layers, [n] and below. *)
Fixpoint find_loop (self : Limits) (layers : list str) (n : nat) : option Z :=
  match n with
  | O => None
  | S n' =>
    match binary_search_by (λ p, strs_cmp (split_on "/" p.1) (take n layers)) (limits self) with
    | inl i => snd <$> limits self !! i
    | inr _ => find_loop self layers n'
    end
  end.

Definition find (layers : list str) (self : Limits) : option Z :=
  find_loop self layers (length layers).
End Limits.

(** ** The map of limits *)

(** The value set last for a name, in any case. *)
Definition last_set (sets : list (str * Z)) (name : str) : option Z :=
  foldl (λ v p, if bool_decide (to_lower <$> p.1 = to_lower <$> name) then Some p.2 else v)
    None sets.

(** The names [get] tries: the layers of a name, fewer and fewer of them. *)
Definition hierarchy (name : str) : list str :=
  let layers := split_on "/" name in
  (λ j, join "/" (take j layers)) <$> reverse (seq 1 (length layers)).

Section limits_lemmas.
Context `{UncasedOrdLaws}.

Abbreviation low s := (to_lower <$> s : str).

(** The names of the vector are strictly sorted. *)
Definition limits_sorted (l : list (str * Z)) : Prop :=
  StronglySorted (λ p q, str_cmp (low p.1) (low q.1) = Lt) l.

Lemma limits_sorted_by l name :
  limits_sorted l → sorted_by (λ p, uncased_cmp p.1 name) l.
Proof.
  intros Hs i j a b Hij Hi Hj. rewrite !uncased_cmp_spec.
  destruct (decide (i = j)) as [->|Hne]; [by simplify_eq|].
  pose proof (sorted_lookup _ l i j a b Hs ltac:(lia) Hi Hj) as Hab. cbv beta in Hab.
  split; intros Hc.
  - rewrite str_cmp_sym. rewrite str_cmp_sym in Hc.
    destruct (str_cmp (low name) (low a.1)) eqn:E; try done.
    by rewrite (str_cmp_trans _ _ _ E Hab).
  - by apply (str_cmp_trans _ (low b.1)).
Qed.

Lemma cmp_other s t : str_cmp (low s) (low t) = Lt ∨ str_cmp (low s) (low t) = Gt →
  bool_decide (low s = low t) = false.
Proof.
  intros Hc. apply bool_decide_eq_false. intros He%str_cmp_eq. destruct Hc; congruence.
Qed.

(** What the search finds in a sorted vector. *)
Lemma limits_search l name :
  limits_sorted l →
  (∃ l1 k v l2, l = l1 ++ (k, v) :: l2 ∧ low k = low name ∧
     binary_search_by (λ p, uncased_cmp p.1 name) l = inl (length l1) ∧
     Forall (λ p, bool_decide (low p.1 = low name) = false) l1) ∨
  (∃ l1 l2, l = l1 ++ l2 ∧
     binary_search_by (λ p, uncased_cmp p.1 name) l = inr (length l1) ∧
     Forall (λ p, str_cmp (low p.1) (low name) = Lt) l1 ∧
     Forall (λ p, str_cmp (low p.1) (low name) = Gt) l2).
Proof.
  intros Hs. pose proof (binary_search_by_spec _ l (limits_sorted_by l name Hs)) as Hb.
  destruct (binary_search_by _ l) as [i|i].
  - left. destruct Hb as ([k v] & Hi & He). rewrite uncased_cmp_spec, str_cmp_eq in He.
    exists (take i l), k, v, (drop (S i) l).
    assert (length (take i l) = i) as Hlen.
    { apply length_take_le. apply lookup_lt_Some in Hi. lia. }
    split_and!; [by rewrite take_drop_middle|done|by rewrite Hlen|].
    apply Forall_lookup. intros j p Hj. apply lookup_take_Some in Hj as [Hj Hlt].
    pose proof (sorted_lookup _ l j i p _ Hs Hlt Hj Hi) as Hp. cbn [fst] in Hp, He. rewrite He in Hp.
    apply cmp_other. by left.
  - right. destruct Hb as (Hle & H1 & H2). exists (take i l), (drop i l).
    split_and!; [by rewrite take_drop|by rewrite length_take_le| |].
    + eapply Forall_impl; [exact H1|]. intros p. cbv beta. by rewrite uncased_cmp_spec.
    + eapply Forall_impl; [exact H2|]. intros p. cbv beta. by rewrite uncased_cmp_spec.
Qed.

(** The first entry of a name. *)
Definition value (l : list (str * Z)) (name : str) : option Z :=
  snd <$> List.find (λ p, bool_decide (low p.1 = low name)) l.

Lemma exact_limit_value self name :
  limits_sorted (limits self) → exact_limit self name = value (limits self) name.
Proof.
  intros Hs. unfold exact_limit, value.
  destruct (limits_search _ name Hs) as [(l1 & k & v & l2 & -> & Hk & -> & H1)|(l1 & l2 & -> & -> & H1 & H2)].
  - rewrite list_lookup_middle by done. rewrite find_middle; [done|done|]. by apply bool_decide_eq_true.
  - rewrite find_None; [done|]. apply Forall_app. split.
    + eapply Forall_impl; [exact H1|]. intros p Hp. apply cmp_other. by left.
    + eapply Forall_impl; [exact H2|]. intros p Hp. apply cmp_other. by right.
Qed.

Lemma find_app_cases {A} (P : A → bool) l1 l2 :
  List.find P (l1 ++ l2) = match List.find P l1 with Some x => Some x | None => List.find P l2 end.
Proof. induction l1 as [|x l1 IH]; simpl; [done|]. by destruct (P x). Qed.

(** Setting a limit keeps the vector sorted and changes that limit only. *)
Lemma limit_value name v self :
  limits_sorted (limits self) →
  limits_sorted (limits (limit name v self)) ∧
  ∀ name', value (limits (limit name v self)) name' =
    if bool_decide (low name = low name') then Some v else value (limits self) name'.
Proof.
  intros Hs. unfold limit. cbn [limits].
  destruct (limits_search _ name Hs) as [(l1 & k & v' & l2 & Hl & Hk & -> & H1)|(l1 & l2 & Hl & -> & H1 & H2)];
    rewrite Hl in Hs |- *; unfold limits_sorted in *; rewrite ?StronglySorted_app, ?StronglySorted_cons in Hs.
  - assert (alter (λ p : str * Z, (p.1, v)) (length l1) (l1 ++ (k, v') :: l2) = l1 ++ (k, v) :: l2) as ->.
    { rewrite <-(Nat.add_0_r (length l1)). by rewrite alter_app_r. }
    rewrite StronglySorted_app, StronglySorted_cons. split.
    + destruct Hs as (Hx & Hs1 & Hf & Hs2). split_and!; [|done..].
      intros x1 x2 Hx1 [->|Hx2]%elem_of_cons; [|apply Hx; set_solver].
      apply (Hx x1 (k, v') Hx1). set_solver.
    + intros name'. unfold value. rewrite !find_app_cases. simpl. rewrite Hk.
      case_bool_decide as He; [|done]. rewrite find_None; [done|].
      eapply Forall_impl; [exact H1|]. intros p. cbv beta. by rewrite He.
  - rewrite take_app_length, drop_app_length, StronglySorted_app, StronglySorted_cons. split.
    + destruct Hs as (Hx & Hs1 & Hs2). rewrite Forall_forall in H1, H2. split_and!; [|done| |done].
      * intros x1 x2 Hx1 [->|Hx2]%elem_of_cons; [by apply H1|by apply Hx].
      * apply Forall_forall. intros p Hp. rewrite str_cmp_sym. simpl. by rewrite (H2 p Hp).
    + intros name'. unfold value. rewrite !find_app_cases. simpl.
      case_bool_decide as He; [|done]. rewrite find_None; [done|].
      eapply Forall_impl; [exact H1|]. intros p Hp. rewrite <-He. apply cmp_other. by left.
Qed.

Lemma limits_of_sets sets self :
  limits_sorted (limits self) →
  let self' := foldl (λ self p, limit p.1 p.2 self) self sets in
  limits_sorted (limits self') ∧
  ∀ name, exact_limit self' name =
    foldl (λ v p, if bool_decide (low p.1 = low name) then Some p.2 else v)
      (exact_limit self name) sets.
Proof.
  revert self. induction sets as [|p sets IH]; intros self Hs; [done|]. simpl.
  destruct (limit_value p.1 p.2 self Hs) as [Hs' Hv]. destruct (IH _ Hs') as [Hs'' He].
  split; [done|]. intros name. rewrite He, !exact_limit_value, Hv by done. done.
Qed.

(** The indices of the slashes cut off the layers. *)
Lemma find_bytes_sorted d s :
  StronglySorted lt (find_bytes d s) ∧ Forall (λ i, (i < length s)%nat) (find_bytes d s).
Proof.
  induction s as [|c s [Hs Hl]]; simpl; [by split; constructor|].
  assert (StronglySorted lt (S <$> find_bytes d s) ∧
          Forall (λ i, (0 < i < S (length s))%nat) (S <$> find_bytes d s)) as [Hs' Hl'].
  { split.
    - clear Hl. induction Hs as [|i l _ IH Hi]; simpl; constructor; [done|].
      apply Forall_fmap. eapply Forall_impl; [exact Hi|]. simpl. lia.
    - apply Forall_fmap. eapply Forall_impl; [exact Hl|]. simpl. lia. }
  case_decide; simpl; split; try done.
  - constructor; [done|]. eapply Forall_impl; [exact Hl'|]. simpl. lia.
  - constructor; [lia|]. eapply Forall_impl; [exact Hl'|]. simpl. lia.
  - eapply Forall_impl; [exact Hl'|]. simpl. lia.
Qed.

Lemma split_on_cons d s : ∃ w ws, split_on d s = w :: ws.
Proof.
  destruct s as [|c s]; simpl; [by eexists _, _|]. case_decide; [by eexists _, _|].
  destruct (split_on d s); by eexists _, _.
Qed.

Lemma take_layers d s :
  (λ i, take i s) <$> (find_bytes d s ++ [length s]) =
  (λ j, join d (take j (split_on d s))) <$> seq 1 (length (split_on d s)).
Proof.
  induction s as [|c s IH]; [done|]. cbn [find_bytes split_on length].
  destruct (split_on_cons d s) as (w & ws & E). rewrite E in IH |- *.
  assert ((λ i, take i (c :: s)) <$> ((S <$> find_bytes d s) ++ [S (length s)]) =
          (λ u, c :: u) <$> ((λ i, take i s) <$> (find_bytes d s ++ [length s]))) as Hc.
  { rewrite <-list_fmap_compose, !fmap_app, <-!list_fmap_compose. done. }
  case_decide as Hd.
  - rewrite <-app_assoc, fmap_app, Hc, IH. subst d. remember (w :: ws) as l eqn:El.
    change (length ([] :: l)) with (S (length l)). cbn [seq fmap list_fmap app take join].
    f_equal. rewrite <-(fmap_S_seq 1), <-!list_fmap_compose.
    apply list_fmap_ext. intros ? j Hj. apply lookup_seq in Hj as [-> _]. by rewrite El.
  - simpl app. rewrite Hc, IH. cbn [length]. rewrite <-list_fmap_compose.
    apply list_fmap_ext. intros ? j Hj. apply lookup_seq in Hj as [-> _]. simpl.
    by destruct (take _ ws).
Qed.

Lemma get_loop_first self name j idx :
  StronglySorted gt idx → Forall (λ i, (i < j)%nat) idx →
  get_loop self (take j name) idx =
    head (omap (exact_limit self) ((λ i, take i name) <$> j :: idx)).
Proof.
  intros Hs. revert j. induction Hs as [|i idx Hs IH Hi]; intros j Hj; simpl.
  - by destruct (exact_limit self (take j name)).
  - destruct (exact_limit self (take j name)); [done|]. inversion_clear Hj.
    rewrite take_take, Nat.min_l by lia. rewrite IH by done. done.
Qed.

Lemma get_hierarchy self name :
  get name self = head (omap (exact_limit self) (hierarchy name)).
Proof.
  unfold get, hierarchy. destruct (find_bytes_sorted "/" name) as [Hs Hl].
  rewrite fmap_reverse, <-take_layers, <-fmap_reverse, reverse_app.
  rewrite <-(take_ge name (length name)) at 1 by done. apply get_loop_first.
  - clear Hl. induction Hs as [|i l _ IH Hi]; [constructor|]. rewrite reverse_cons.
    apply StronglySorted_app_2; [|done|by repeat constructor].
    intros x y Hx ->%list_elem_of_singleton. rewrite elem_of_reverse in Hx.
    rewrite Forall_forall in Hi. exact (Hi x Hx).
  - rewrite Forall_forall in Hl |- *. intros i Hi. rewrite elem_of_reverse in Hi. by apply Hl.
Qed.

(** The limits are a map from names, in any case, to the value set last,
    and [get] finds the limit of the longest sequence of leading layers of
    the name that has one. *)
Theorem limits_spec (sets : list (str * Z)) (name : str) :
  let self := foldl (λ self p, limit p.1 p.2 self) limits_new sets in
  exact_limit self name = last_set sets name ∧
  get name self = head (omap (last_set sets) (hierarchy name)).
Proof.
  intros self. destruct (limits_of_sets sets limits_new) as [_ He]; [constructor|].
  fold self in He. split; [apply He|]. rewrite get_hierarchy. f_equal.
  apply list_omap_ext. apply Forall2_same_length_lookup. split; [done|].
  intros i x y Hx Hy. simplify_eq. apply He.
Qed.
End limits_lemmas.

(** ** Instances *)

Section examples.
Import UncasedOrdReference.

Example limits_spec_witness :
  let self := limit (#"FILE/jpeg") (mebibytes 4) (limit (#"file") (mebibytes 1) limits_new) in
  get (#"file/JPEG/inner") self = Some (mebibytes 4).
Proof.
  intros self.
  destruct (limits_spec [(#"file", mebibytes 1); (#"FILE/jpeg", mebibytes 4)] (#"file/JPEG/inner"))
    as [_ Hg].
  transitivity (head (omap (last_set [(#"file", mebibytes 1); (#"FILE/jpeg", mebibytes 4)])
    (hierarchy (#"file/JPEG/inner")))); [exact Hg|by vm_compute].
Defined.

(** [find] is meant to agree with [get] on the joined layers; but it compares
    names with regard to case, and layer by layer, an order the vector is not
    sorted by. *)
Lemma find_not_get :
  let self := limit (#"file/jpeg") 1 limits_new in
  let self' := limit (#"a/c") 1 (limit (#"a-b") 2 limits_new) in
  get (#"File/jpeg") self = Some 1%Z ∧ find [ #"File"; #"jpeg"] self = None ∧
  get (#"a-b") self' = Some 2%Z ∧ find [ #"a-b"] self' = None.
Proof. vm_compute. done. Qed.

Example default_limits :
  get (#"file/png") limits_default = Some FILE ∧ find [ #"file"; #"png"] limits_default = Some FILE.
Proof. vm_compute. done. Qed.
End examples.
