(* ===== verification/DataStream.v ===== *)
(** * DataStream: reading request bodies up to a limit

    The stream a [Data] is opened as (core/lib/src/data/data_stream.rs): the
    peek buffer and the reader behind it, cut at the limit, under the
    transforms attached to the data (data.rs, transform.rs); [Capped] values
    (capped.rs) and the data guards for strings and bytes (from_data.rs). *)

From S2P Require Import Prelude Crates Status Outcome Data Limits Streams.

(** ** tokio's adaptors *)

(** [Take], a reader with the number of bytes it may still yield. *)
Class TokioTake (R : Type) `{AsyncRead R} :=
  poll_take : nat → R * nat → option (Poll (option str) * (R * nat)).

Class TokioTakeLaws (R : Type) `{TokioTake R} : Prop := {
  poll_take_0 room r : poll_take room (r, 0) = Some (Ready (Some []), (r, 0));
  poll_take_S room r n :
    poll_take room (r, S n) =
      '(p, r') ← poll_read (Nat.min room (S n)) r;
      Some (p, (r', S n - match p with Ready (Some out) => length out | _ => 0 end));
}.

#[export] Instance take_poll_read {R} `{TokioTake R} : AsyncRead (R * nat) := poll_take.

(** [AsyncReadExt::read], which waits until one read is ready, and
    [tokio::io::copy], which reads until nothing is left; [Some None] is an
    error, [None] that the call does not return. *)
Class AsyncReadExt (R : Type) `{AsyncRead R} := {
  read_once : nat → R → option (option str * R);
  copy_all : R → option (option str * R);
}.

Class AsyncReadExtLaws (R : Type) `{Readable R} `{!AsyncReadExt R} : Prop := {
  read_once_spec room r out r' :
    poll_read room r = Some (Ready (Some out), r') → read_once room r = Some (Some out, r');
  copy_all_spec r :
    readable r → ∃ rooms outs r',
      Forall (lt 0) rooms ∧ read_polls rooms r = Some (outs, r') ∧ last outs = Some [] ∧
      copy_all r = Some (Some (concat outs), r');
}.

(** ** Transforms (core/lib/src/data/transform.rs) *)

(** [trait Transform].  A transform is given what was just read, the part of
    the buffer from [TransformBuf::cursor] on, and the room there is for it. *)
Class Transform (T : Type) := {
  transform : nat → str → T → option str * T;
  poll_finish : nat → T → Poll (option str) * T;
}.

(** [Inspect] and [InPlaceMap]: closures with their state. *)
Record Inspect (C : Type) := Inspect_with { inspect_fn : str → C → C; inspect_state : C }.
Arguments Inspect_with {C}.
Arguments inspect_fn {C}.
Arguments inspect_state {C}.

#[export] Instance Inspect_transform {C} : Transform (Inspect C) := {
  transform _ fresh self :=
    (Some fresh, Inspect_with (inspect_fn self) (inspect_fn self fresh (inspect_state self)));
  poll_finish _ self := (Ready (Some []), self);
}.

Record InPlaceMap (C : Type) := InPlaceMap_with {
  map_fn : nat → str → C → option str * C;
  map_state : C;
}.
Arguments InPlaceMap_with {C}.
Arguments map_fn {C}.
Arguments map_state {C}.

#[export] Instance InPlaceMap_transform {C} : Transform (InPlaceMap C) := {
  transform room fresh self :=
    let '(out, c) := map_fn self room fresh (map_state self) in
    (out, InPlaceMap_with (map_fn self) c);
  poll_finish _ self := (Ready (Some []), self);
}.

(** A transform that replaces each byte, as those that only look at the data
    do, adds nothing at the end and never fails. *)
Class PlainTransform (T : Type) `{Transform T} := {
  effect : T → ascii → ascii;
  transform_plain room fresh t :
    ∃ t', transform room fresh t = (Some (effect t <$> fresh), t') ∧ effect t' = effect t;
  finish_plain room t :
    ∃ t', poll_finish room t = (Ready (Some []), t') ∧ effect t' = effect t;
}.

#[export, refine] Instance Inspect_plain {C} : PlainTransform (Inspect C) := {
  effect _ c := c;
}.
Proof.
  - intros room fresh t. eexists. split; [|done]. simpl. by rewrite list_fmap_id.
  - intros room t. by eexists.
Defined.

(** ** Capped values *)

(** [struct N], [struct Capped] (core/lib/src/data/capped.rs). *)
Record N := N_with { written : nat; complete : bool }.
Record Capped (A : Type) := Capped_new { value : A; n : N }.
Arguments Capped_new {A}.
Arguments value {A}.
Arguments n {A}.

Definition Capped_complete {A} (value : A) (len : nat) : Capped A :=
  Capped_new value (N_with len true).
Definition Capped_map {A B} (f : A → B) (self : Capped A) : Capped B :=
  Capped_new (f (value self)) (n self).
Definition Capped_is_empty {A} (self : Capped A) : bool := written (n self) =? 0.
Definition is_complete {A} (self : Capped A) : bool := complete (n self).

(** ** The stream *)

Section stream.
Context {T : Type} `{Transform T}.
Context {R : Type} `{AsyncRead R} `{TokioIo}.

(** [BaseReader]. *)
Abbreviation BaseReader := (Chain.Chain Cursor R * nat)%type.
Context `{!TokioTake (Chain.Chain Cursor R)}.

(** [enum DataStream], [struct TransformReader]. *)
Inductive DataStream :=
  | Base (base : BaseReader)
  | Transformed (transformer : T) (stream : DataStream) (inner_done : bool).

(** [DataStream::new]. *)
Definition data_stream_new (transformers : list T) (buffer : str) (reader : R) (limit : nat) :
    DataStream :=
  foldl (λ stream t, Transformed t stream false)
    (Base (Chain.new (Cursor_new buffer) reader, limit)) transformers.

(** [base] and [base_mut]. *)
Fixpoint base (self : DataStream) : BaseReader :=
  match self with Base b => b | Transformed _ stream _ => base stream end.

Fixpoint set_base (b : BaseReader) (self : DataStream) : DataStream :=
  match self with
  | Base _ => Base b
  | Transformed t stream d => Transformed t (set_base b stream) d
  end.

(** The transformer's part of [TransformReader::poll_read], after the stream
    yielded [out]. *)
Definition poll_transform (room : nat) (t : T) (stream : DataStream) (out : str) :
    Poll (option str) * DataStream :=
  if is_empty out then
    let '(p, t) := poll_finish room t in (p, Transformed t stream true)
  else
    let '(fresh, t) := transform room out t in
    (match fresh with
     | None => Ready None
     | Some [] => Pending
     | Some fresh => Ready (Some fresh)
     end, Transformed t stream false).

(** [DataStream::poll_read], [TransformReader::poll_read]. *)
Fixpoint poll_stream (room : nat) (self : DataStream) : option (Poll (option str) * DataStream) :=
  match self with
  | Base b => prod_map id Base <$> poll_take room b
  | Transformed t stream true =>
    let '(p, t) := poll_finish room t in Some (p, Transformed t stream true)
  | Transformed t stream false =>
    '(p, stream) ← poll_stream room stream;
    Some match p with
         | Ready (Some out) => poll_transform room t stream out
         | p => (p, Transformed t stream false)
         end
  end.

#[export] Instance stream_poll_read : AsyncRead DataStream := poll_stream.

(** [DataStream::hint]. *)
Definition hint (self : DataStream) : nat :=
  match Chain.get_ref (base self).1 with
  | (Some cursor, _) =>
    let len := length (get_ref cursor) in
    Nat.min (len - Nat.min (position cursor) len) (base self).2
  | (None, _) => 0
  end.

Context `{!AsyncReadExt (Chain.Chain Cursor R * nat)} `{!AsyncReadExt DataStream}.

(** [DataStream::limit_exceeded]: reads one more byte when the limit is
    reached. *)
Definition limit_exceeded (self : DataStream) : option (option bool * DataStream) :=
  if (base self).2 =? 0 then
    '(out, b) ← read_once 1 ((base self).1, 1);
    Some (match out with
          | Some out => (Some (negb (length out =? 0)), set_base (b.1, 0) self)
          | None => (None, set_base b self)
          end)
  else Some (Some false, self).

(** What was read, with whether that was all; [Some None] is an error. *)
Definition capped (value : str) (self : DataStream) : option (option (Capped str)) :=
  match limit_exceeded self with
  | Some (exceeded, _) => Some ((λ e, Capped_new value (N_with (length value) (negb e))) <$> exceeded)
  | None => None
  end.

(** [stream_to] a buffer, as [into_bytes] does. *)
Definition into_bytes (self : DataStream) : option (option (Capped str)) :=
  match copy_all self with
  | Some (Some vec, self) => capped vec self
  | Some (None, _) => Some None
  | None => None
  end.

(** [into_string]: [read_to_string] fails on what is no UTF-8. *)
Definition into_string (self : DataStream) : option (option (Capped str)) :=
  match copy_all self with
  | Some (Some string, self) => if is_utf8 string then capped string self else Some None
  | Some (None, _) => Some None
  | None => None
  end.
End stream.
Arguments DataStream : clear implicits.

(** ** What a stream yields *)

Section laws.
Context {T : Type} `{PlainTransform T}.
Context {R : Type} `{Readable R} `{TokioIoLaws}.
Abbreviation Source := (Chain.Chain Cursor R).
Context `{!TokioTake Source} `{!TokioTakeLaws Source}.
Abbreviation Stream := (DataStream T R).

(** What is behind the limit. *)
Definition source (s : Stream) : str := content (base s).1.

(** All the transforms together. *)
Fixpoint effects (s : Stream) : ascii → ascii :=
  match s with Base _ => id | Transformed t s _ => effect t ∘ effects s end.

Definition stream_content (s : Stream) : str := effects s <$> take (base s).2 (source s).

Fixpoint stream_readable (s : Stream) : Prop :=
  match s with
  | Base b => readable b.1
  | Transformed _ s d => stream_readable s ∧ (d = true → stream_content s = [])
  end.

(** The source lost its first bytes, and the limit as many. *)
Definition advanced (s s' : Stream) : Prop :=
  effects s' = effects s ∧
  ∃ k, k ≤ (base s).2 ∧ (base s').2 = (base s).2 - k ∧ source s' = drop k (source s).

Lemma advanced_refl s : advanced s s.
Proof. split; [done|]. exists 0. rewrite Nat.sub_0_r. split_and!; [lia|done|done]. Qed.

Lemma advanced_trans s1 s2 s3 : advanced s1 s2 → advanced s2 s3 → advanced s1 s3.
Proof.
  intros [He1 (k1&Hk1&Hb1&Hs1)] [He2 (k2&Hk2&Hb2&Hs2)]. split; [congruence|].
  exists (k1 + k2). rewrite Hb2, Hb1, Hs2, Hs1, drop_drop. split_and!; [lia|lia|done].
Qed.

(** Under a further transform. *)
Lemma stream_content_transformed t s d :
  stream_content (Transformed t s d) = effect t <$> stream_content s.
Proof. unfold stream_content. simpl. by rewrite list_fmap_compose. Qed.

Lemma advanced_transformed t t' s s' d d' :
  effect t' = effect t → advanced s s' → advanced (Transformed t s d) (Transformed t' s' d').
Proof. intros He [He' Hk]. split; [simpl; by rewrite He, He'|done]. Qed.

Lemma base_poll room (b : Source * nat) :
  0 < room → readable b.1 →
  ∃ out b', poll_take room b = Some (Ready (Some out), b') ∧ readable b'.1 ∧
    length out ≤ room ∧ length out ≤ b.2 ∧ b'.2 = b.2 - length out ∧
    content b.1 = out ++ content b'.1 ∧ (out = [] → take b.2 (content b.1) = []).
Proof.
  destruct b as [c [|l]]; cbn [fst snd]; intros Hr Hc.
  - exists [], (c, 0). rewrite poll_take_0. cbn [fst snd length]. split_and!; [done..|lia|lia|done|done|done].
  - destruct (readable_poll (Nat.min room (S l)) c) as (out&c'&Hp&Hc'&Hcon&Hlen&Hend); [lia|done|].
    exists out, (c', S l - length out). rewrite poll_take_S, Hp. cbn [fst snd].
    split_and!; [done|done|lia|lia|done|done|]. intros Ho. by rewrite Hend.
Qed.

#[export] Program Instance base_Readable : Readable (Source * nat) := {|
  readable b := readable b.1; content b := take b.2 (content b.1) |}.
Next Obligation.
  intros room b Hr Hb. destruct (base_poll room b Hr Hb) as (out&b'&Hp&?&?&?&Hl&Hc&Hend).
  exists out, b'. split_and!; [done|done| |done|done]. by rewrite Hc, take_app_ge, Hl.
Qed.

Lemma stream_poll room s :
  0 < room → stream_readable s →
  ∃ out s', poll_stream room s = Some (Ready (Some out), s') ∧ stream_readable s' ∧
    advanced s s' ∧ stream_content s = out ++ stream_content s' ∧ length out ≤ room ∧
    (out = [] → stream_content s = []).
Proof.
  intros Hr. induction s as [b|t s IH d]; simpl.
  - intros Hb. destruct (base_poll room b Hr Hb) as (out&b'&Hp&Hb'&Hlen&Hl&Hlim&Hc&Hend).
    exists out, (Base b'). rewrite Hp. split_and!; [done|done| | |done|].
    + split; [done|]. exists (length out). unfold source. cbn [base]. rewrite Hc, drop_app_length.
      split_and!; done.
    + unfold stream_content, source. cbn [base effects]. rewrite !list_fmap_id, Hc, Hlim, take_app_ge by done. done.
    + unfold stream_content, source. cbn [base effects]. rewrite list_fmap_id. done.
  - intros [Hs Hd]. destruct d.
    + destruct (finish_plain room t) as (t'&Hf&He). rewrite Hf. specialize (Hd eq_refl).
      exists [], (Transformed t' s true). rewrite !stream_content_transformed, Hd.
      split_and!; [done|done| |done|simpl; lia|done].
      apply advanced_transformed, advanced_refl. done.
    + destruct (IH Hs) as (out&s'&Hp&Hs'&Hadv&Hc&Hlen&Hend). rewrite Hp. simpl.
      rewrite stream_content_transformed, Hc. destruct out as [|x out]; unfold poll_transform; simpl.
      * destruct (finish_plain room t) as (t'&Hf&He). rewrite Hf.
        assert (Hs0 : stream_content s' = []) by (by rewrite Hend in Hc).
        exists [], (Transformed t' s' true). rewrite stream_content_transformed, Hs0.
        split_and!; [done|done| |done|simpl; lia|done]. by apply advanced_transformed.
      * destruct (transform_plain room (x :: out) t) as (t'&Hf&He). rewrite Hf. simpl.
        exists (effect t <$> x :: out), (Transformed t' s' false).
        rewrite stream_content_transformed, He. split_and!; [done|done| | |by rewrite length_fmap|done].
        -- by apply advanced_transformed.
        -- by rewrite fmap_app.
Qed.

#[export] Program Instance stream_Readable : Readable Stream := {|
  readable := stream_readable; content := stream_content |}.
Next Obligation.
  intros room s Hr Hs. destruct (stream_poll room s Hr Hs) as (out&s'&?&?&_&?). eauto.
Qed.

(** Reading to the end yields the content and leaves none. *)
Lemma read_stream rooms s :
  Forall (lt 0) rooms → stream_readable s →
  ∃ outs s', read_polls rooms s = Some (outs, s') ∧ stream_readable s' ∧ advanced s s' ∧
    stream_content s = concat outs ++ stream_content s' ∧
    (last outs = Some [] → stream_content s' = []).
Proof.
  intros Hrooms. revert s. induction Hrooms as [|room rooms Hr _ IH]; intros s Hs; simpl.
  - exists [], s. split_and!; [done|done|apply advanced_refl|done|done].
  - destruct (stream_poll room s Hr Hs) as (out&s1&Hp&Hs1&Hadv1&Hc1&_&Hend).
    destruct (IH s1 Hs1) as (outs&s2&Hps&Hs2&Hadv2&Hc2&Hlast).
    exists (out :: outs), s2. change (poll_read room s) with (poll_stream room s).
    rewrite Hp, Hps. simpl.
    split_and!; [done|done|by eapply advanced_trans|by rewrite Hc1, Hc2, app_assoc|].
    destruct outs as [|o outs]; [|exact Hlast].
    intros [= ->]. rewrite Hend in Hc1 by done. simpl in *. by rewrite Hc1.
Qed.

Lemma stream_readable_base (s : Stream) : stream_readable s → readable (base s).1.
Proof. induction s as [b|t s IH d]; cbn [stream_readable base]; [done|]. by intros [? _]; apply IH. Qed.

Context `{!AsyncReadExt (Source * nat)} `{!AsyncReadExt Stream}.
Context `{!AsyncReadExtLaws (Source * nat)} `{!AsyncReadExtLaws Stream}.

Lemma limit_exceeded_spec s :
  stream_readable s → stream_content s = [] →
  ∃ s', limit_exceeded s = Some (Some (bool_decide ((base s).2 = 0 ∧ source s ≠ [])), s').
Proof.
  intros Hs Hc. unfold limit_exceeded. destruct (Nat.eqb_spec (base s).2 0) as [Hl|Hl].
  - destruct (base_poll 1 ((base s).1, 1)) as (out&b'&Hp&_&Hlen&_&_&Hcon&Hend);
      [lia|by apply stream_readable_base|].
    rewrite (read_once_spec _ _ out b') by exact Hp. eexists. cbn [mbind option_bind].
    do 3 f_equal. unfold source. cbn [fst snd] in *.
    destruct out as [|x out]; simpl.
    + rewrite bool_decide_eq_false_2; [done|]. intros [_ Hne]. apply Hne.
      assert (Hnil : ∀ l : str, take 1 l = [] → l = []) by (by intros []). by apply Hnil, Hend.
    + rewrite bool_decide_eq_true_2; [done|]. split; [done|].
      intros Hn. change (content (base s).1 = []) in Hn. by rewrite Hcon in Hn.
  - eexists. rewrite bool_decide_eq_false_2; [done|]. by intros [? _].
Qed.

(** A stream read to the end: exactly what the limit lets through, complete
    when that is all. *)
Lemma capped_spec (s : Stream) :
  stream_readable s →
  ∃ s', copy_all s = Some (Some (stream_content s), s') ∧
    ∀ v, capped v s' =
      Some (Some (Capped_new v (N_with (length v) (bool_decide (length (source s) ≤ (base s).2))))).
Proof.
  intros Hs. pose proof (copy_all_spec s) as Hread.
  destruct (Hread Hs) as (rooms&outs&s1&Hrooms&Hp&Hlast&Hcopy).
  destruct (read_stream rooms s Hrooms Hs) as (outs'&s'&Hp'&Hs'&[_ (k&Hk&Hlim&Hsrc)]&Hc&Hend).
  rewrite Hp in Hp'. injection Hp' as <- <-. specialize (Hend Hlast).
  exists s1. rewrite Hcopy, Hc, Hend, app_nil_r. split; [done|]. intros v. unfold capped.
  destruct (limit_exceeded_spec s1 Hs' Hend) as (s2&->). do 4 f_equal.
  assert (Hs1 : take (base s1).2 (source s1) = []).
  { unfold stream_content in Hend. by apply fmap_nil_inv in Hend. }
  apply (f_equal length) in Hs1. rewrite length_take in Hs1. simpl in Hs1.
  assert (Hlen : length (source s1) = length (source s) - k) by (by rewrite Hsrc, length_drop).
  destruct (decide (length (source s) ≤ (base s).2)) as [Hle|Hgt].
  - rewrite (bool_decide_eq_true_2 (_ ≤ _)) by done. rewrite bool_decide_eq_false_2; [done|].
    intros [Hz Hne]. apply Hne, length_zero_iff_nil. lia.
  - rewrite (bool_decide_eq_false_2 (_ ≤ _)) by done. rewrite bool_decide_eq_true_2; [done|].
    split; [lia|]. intros Hn. rewrite Hn in Hlen. simpl in Hlen. lia.
Qed.

Lemma into_bytes_spec (s : Stream) :
  stream_readable s →
  into_bytes s = Some (Some (Capped_new (stream_content s)
    (N_with (length (stream_content s)) (bool_decide (length (source s) ≤ (base s).2))))).
Proof. intros (s'&Hc&Hv)%capped_spec. unfold into_bytes. rewrite Hc. apply Hv. Qed.

Lemma into_string_spec (s : Stream) :
  stream_readable s →
  into_string s =
    if is_utf8 (stream_content s) then into_bytes s else Some None.
Proof.
  intros Hs. rewrite into_bytes_spec by done. destruct (capped_spec s Hs) as (s'&Hc&Hv).
  unfold into_string. rewrite Hc. case_match; [apply Hv|done].
Qed.
End laws.

(** ** Opening data (core/lib/src/data/data.rs) *)

(** The reader of a [Data] as an [AsyncRead]: a read yields what fits of the
    next chunk. *)
#[export] Instance chunks_poll_read : AsyncRead (list (option str)) := λ room chunks,
  Some match chunks with
       | [] => (Ready (Some []), [])
       | None :: rest => (Ready None, rest)
       | Some chunk :: rest =>
         (Ready (Some (take room chunk)),
          if length chunk <=? room then rest else Some (drop room chunk) :: rest)
       end.

#[export, refine] Instance chunks_Readable : Readable (list (option str)) := {|
  readable chunks := Forall (λ c, ∃ x s, c = Some (x :: s)) chunks;
  content chunks := concat (omap id chunks) |}.
Proof.
  intros room chunks Hr [|c rest (x&s&->) Hrest]; simpl.
  - exists [], []. split_and!; [done..|simpl; lia|done].
  - unfold poll_read, chunks_poll_read. destruct (Nat.leb_spec (length (x :: s)) room) as [Hl|Hl].
    + exists (x :: s), rest. rewrite take_ge by done. split_and!; done.
    + exists (take room (x :: s)), (Some (drop room (x :: s)) :: rest).
      split_and!; [done| | |by rewrite length_take; lia|by destruct room; [lia|]].
      * constructor; [|done]. destruct (drop room (x :: s)) as [|y t] eqn:E; [|by eexists _, _].
        apply (f_equal length) in E. rewrite length_drop in E. simpl in *. lia.
      * simpl. by rewrite app_assoc, app_comm_cons, take_drop.
Defined.

Section data.
Context {T : Type} `{Transform T} `{TokioIo}.
Abbreviation Source := (Chain.Chain Cursor (list (option str))).
Context `{!TokioTake Source} `{!AsyncReadExt (Source * nat)}.
Context `{!AsyncReadExt (DataStream T (list (option str)))}.

(** [struct Data], with its transforms. *)
Record TransformedData := TransformedData_with { stream : Data; transforms : list T }.

(** [Data::new] and [chain_transform], which [chain_inspect] and
    [chain_inplace_map] apply to an [Inspect] or [InPlaceMap]. *)
Definition data_new (stream : Data) : TransformedData := TransformedData_with stream [].
Definition chain_transform (transform : T) (self : TransformedData) : TransformedData :=
  TransformedData_with (stream self) (transforms self ++ [transform]).

(** [Data::open]. *)
Definition open (limit : Z) (self : TransformedData) : DataStream T (list (option str)) :=
  data_stream_new (transforms self) (buffer (stream self)) (reader (stream self)) (Z.to_nat limit).

(** ** Data guards (core/lib/src/data/from_data.rs) *)

Inductive DataError := IoFailed | LimitExceeded.

Definition DataOutcome (A : Type) : Type :=
  Outcome A (Status * DataError) (TransformedData * Status).

Definition or_bad_request {A} (r : option A) : DataOutcome A :=
  Outcome.result_or_error (match r with Some a => inl a | None => inr IoFailed end) Status.BadRequest.

Context `{UncasedOrd} `{StablePattern}.

(** [Capped<String>] and [Capped<Vec<u8>>]; [limits] is [req.limits()].  The
    guards for [&str], [&RawStr], [Cow<str>] and [&[u8]] put these values into
    the request's cache. *)
Definition string_from_data (limits : Limits) (data : TransformedData) :
    option (DataOutcome (Capped str)) :=
  or_bad_request <$> into_string (open (default STRING (get (#"string") limits)) data).

Definition bytes_from_data (limits : Limits) (data : TransformedData) :
    option (DataOutcome (Capped str)) :=
  or_bad_request <$> into_bytes (open (default BYTES (get (#"bytes") limits)) data).

(** [impl_strict_from_data_from_capped!]. *)
Definition strict {A} (o : DataOutcome (Capped A)) : DataOutcome A :=
  match o with
  | Success p => if is_complete p then Success (value p) else Error (Status.BadRequest, LimitExceeded)
  | Forward d => Forward d
  | Error e => Error e
  end.

(** The guards for [Result] and [Option]. *)
Definition result_from_data {A} (o : DataOutcome A) : DataOutcome (A + DataError) :=
  match o with
  | Success v => Success (inl v)
  | Error (_, e) => Success (inr e)
  | Forward d => Forward d
  end.

Definition option_from_data {A} (o : DataOutcome A) : DataOutcome (option A) :=
  match o with Success v => Success (Some v) | _ => Success None end.
End data.

Section guards.
Context {T : Type} `{PlainTransform T} `{TokioIoLaws}.
Abbreviation Source := (Chain.Chain Cursor (list (option str))).
Abbreviation Stream := (DataStream T (list (option str))).
Context `{!TokioTake Source} `{!TokioTakeLaws Source}.
Context `{!AsyncReadExt (Source * nat)} `{!AsyncReadExt Stream}.
Context `{!AsyncReadExtLaws (Source * nat)} `{!AsyncReadExtLaws Stream}.
Context `{UncasedOrd} `{StablePattern}.

(** What the transforms of a [Data] do to a byte. *)
Definition all_effects (ts : list T) : ascii → ascii := foldl (λ f t, effect t ∘ f) id ts.

Lemma transformed_spec ts (s : Stream) :
  stream_readable s →
  let s' := foldl (λ stream t, Transformed t stream false) s ts in
  stream_readable s' ∧ base s' = base s ∧ effects s' = foldl (λ f t, effect t ∘ f) (effects s) ts.
Proof.
  revert s. induction ts as [|t ts IH]; intros s Hs; simpl; [done|].
  apply (IH (Transformed t s false)). by split.
Qed.

Lemma open_spec limit (data : TransformedData (T := T)) :
  peekable_wf (stream data) → None ∉ reader (stream data) →
  let s : Stream := open limit data in
  stream_readable s ∧ (base s).2 = Z.to_nat limit ∧ source s = Data.content (stream data) ∧
  effects s = all_effects (transforms data).
Proof.
  intros [Hwf _] Hio. unfold open, data_stream_new.
  set (b := Chain.new (Cursor_new (buffer (stream data))) (reader (stream data))).
  destruct (transformed_spec (transforms data) (Base (b, Z.to_nat limit))) as (Hs&Hb&He).
  - split; [done|]. simpl. apply list.Forall_forall. intros c Hc.
    rewrite list.Forall_forall in Hwf. specialize (Hwf c Hc).
    destruct c as [[|x s]|]; [done|by eexists _, _|done].
  - split_and!; [done|by rewrite Hb| |done]. unfold source. by rewrite Hb.
Qed.

(** What a guard reads of the body: the bytes within the limit, transformed. *)
Definition within (lim : Z) (data : TransformedData (T := T)) : Capped str :=
  let body := Data.content (stream data) in
  let seen := all_effects (transforms data) <$> take (Z.to_nat lim) body in
  Capped_new seen (N_with (length seen) (bool_decide (length body ≤ Z.to_nat lim))).

Lemma open_into_bytes lim (data : TransformedData (T := T)) :
  peekable_wf (stream data) → None ∉ reader (stream data) →
  into_bytes (open lim data : Stream) = Some (Some (within lim data)).
Proof.
  intros Hwf Hio. destruct (open_spec lim data Hwf Hio) as (Hs&Hl&Hc&He).
  rewrite into_bytes_spec by done. unfold stream_content. by rewrite Hl, Hc, He.
Qed.

Lemma open_into_string lim (data : TransformedData (T := T)) :
  peekable_wf (stream data) → None ∉ reader (stream data) →
  into_string (open lim data : Stream) =
    Some (if is_utf8 (value (within lim data)) then Some (within lim data) else None).
Proof.
  intros Hwf Hio. rewrite into_string_spec, open_into_bytes by (done || by apply open_spec).
  destruct (open_spec lim data Hwf Hio) as (Hs&Hl&Hc&He).
  unfold stream_content. rewrite Hl, Hc, He. by destruct (is_utf8 _) eqn:E.
Qed.

End guards.

(** ** Adaptors, for the witness *)

Module AdaptorReference.
#[export] Instance take_ref {R} `{AsyncRead R} : TokioTake R := λ room '(r, n),
  match n with
  | 0 => Some (Ready (Some []), (r, 0))
  | S n' =>
    '(p, r') ← poll_read (Nat.min room n) r;
    Some (p, (r', n - match p with Ready (Some out) => length out | _ => 0 end))
  end.
#[export] Instance take_laws {R} `{AsyncRead R} : TokioTakeLaws R.
Proof. split; done. Qed.

Section ext.
Context {R : Type} `{Readable R}.

Fixpoint copy_loop (fuel : nat) (r : R) : option (option str * R) :=
  match fuel with
  | 0 => None
  | S fuel =>
    match poll_read 3 r with
    | Some (Ready (Some []), r) => Some (Some [], r)
    | Some (Ready (Some out), r) =>
      match copy_loop fuel r with Some (o, r) => Some (app out <$> o, r) | None => None end
    | Some (Ready None, r) => Some (None, r)
    | Some (Pending, r) => copy_loop fuel r
    | None => None
    end
  end.

#[export] Instance ext_ref : AsyncReadExt R := {
  read_once room r :=
    match poll_read room r with
    | Some (Ready out, r) => Some (out, r)
    | _ => None
    end;
  copy_all r := copy_loop (S (length (content r))) r;
}.

#[export] Instance ext_laws : AsyncReadExtLaws R.
Proof.
  split; [by intros room r out r' Hp; simpl; rewrite Hp|].
  intros r. unfold copy_all, ext_ref. remember (S (length (content r))) as fuel eqn:Hfuel.
  assert (Hlen : length (content r) < fuel) by lia. clear Hfuel. revert r Hlen.
  induction fuel as [|fuel IH]; intros r Hlen Hr; [lia|].
  destruct (readable_poll 3 r) as (out&r'&Hp&Hr'&Hc&_&Hend); [lia|done|].
  destruct out as [|x out].
  - exists [3], [[]], r'. simpl. rewrite Hp. split_and!; [by repeat constructor; lia|done..].
  - rewrite Hc, length_app in Hlen. simpl in Hlen.
    destruct (IH r' ltac:(lia) Hr') as (rooms&outs&r''&Hrooms&Hps&Hlast&Hcopy).
    exists (3 :: rooms), ((x :: out) :: outs), r''. simpl. rewrite Hp, Hps, Hcopy.
    split_and!; [by constructor; [lia|]|done| |done].
    destruct outs; [done|exact Hlast].
Qed.
End ext.
End AdaptorReference.

Section witness.
Import AdaptorReference TokioReference UncasedOrdReference Reference.

(** Six bytes in three chunks, two of them peeked at, under a limit of four for
    bytes; an inspector counts what it sees. *)
Definition example_data : TransformedData (T := Inspect nat) :=
  chain_transform (Inspect_with (λ s n, n + length s) 0)
    (data_new (Peekable_with (#"ab") 2 false [Some (#"c"); Some (#"def")])).

Definition example_limits : Limits := limit (#"bytes") 4 limits_new.

End witness.
