(* ===== verification/Transforms.v ===== *)
(** * Transforms: reading a body through the transforms attached to it

    [Data::chain_transform] (core/lib/src/data/data.rs) attaches transforms of
    any kind (transform.rs), which [DataStream] applies as the body is read.
    Here a transform may drop bytes, add some, hold bytes back until the end and
    let its reader wait.  It is described by the function from inputs to outputs
    that it computes; chains of transforms compute the composition.  A poll that
    is pending because a transform kept everything has woken its reader, so a
    reader is one that polls again. *)

From S2P Require Import Prelude Crates Status Outcome Data Limits Streams DataStream.

(** ** Kinds of transforms *)

(** [Box<dyn Transform>]: transforms of two types. *)
#[export] Instance dyn_transform {T U} `{Transform T} `{Transform U} : Transform (T + U) := {
  transform room fresh self :=
    match self with
    | inl t => prod_map id inl (transform room fresh t)
    | inr t => prod_map id inr (transform room fresh t)
    end;
  poll_finish room self :=
    match self with
    | inl t => prod_map id inl (poll_finish room t)
    | inr t => prod_map id inr (poll_finish room t)
    end;
}.

(** [chain_inspect], [chain_inplace_map] and [chain_try_inplace_map], of
    closures [FnMut] with the state they capture; [boxed] is [Box::pin]. *)
Section closures.
Context {C T : Type}.

Definition chain_inspect (boxed : Inspect C → T) (f : str → C → C) (c : C) (self : TransformedData (T := T))
  : TransformedData (T := T) := chain_transform (boxed (Inspect_with f c)) self.

Definition chain_try_inplace_map (boxed : InPlaceMap C → T) (f : nat → str → C → option str * C) (c : C)
    (self : TransformedData (T := T)) : TransformedData (T := T) :=
  chain_transform (boxed (InPlaceMap_with f c)) self.

Definition chain_inplace_map (boxed : InPlaceMap C → T) (f : nat → str → C → str * C) (c : C)
    (self : TransformedData (T := T)) : TransformedData (T := T) :=
  chain_transform (boxed (InPlaceMap_with (λ room buf c, prod_map Some id (f room buf c)) c)) self.
End closures.

(** [std::hash::Hasher]; [finish] yields the bytes of the hash. *)
Class Hasher (H : Type) := { hasher_write : str → H → H; hasher_finish : H → str }.

(** The [HashTransform] of the tests of transform.rs: the hash replaces the
    data. *)
Record HashTransform (H : Type) := HashTransform_with { hasher : H; hash : option Cursor }.
Arguments HashTransform_with {H}.
Arguments hasher {H}.
Arguments hash {H}.

Section hash_transform.
Context {H : Type} `{Hasher H} `{TokioIo}.

Definition hash_cursor (self : HashTransform H) : Cursor :=
  match hash self with Some c => c | None => Cursor_new (hasher_finish (hasher self)) end.

#[export] Instance hash_transform : Transform (HashTransform H) := {
  transform _ fresh self := (Some [], HashTransform_with (hasher_write fresh (hasher self)) (hash self));
  poll_finish room self :=
    let '(out, c) := poll_read_cursor room (hash_cursor self) in
    (Ready (Some out), HashTransform_with (hasher self) (Some c));
}.

(** [chain_hash_transform]. *)
Definition chain_hash_transform {T} (boxed : HashTransform H → T) (h : H) (self : TransformedData (T := T))
  : TransformedData (T := T) := chain_transform (boxed (HashTransform_with h None)) self.
End hash_transform.

(** ** What a transform computes *)

(** A transform that never fails: [denotes t s] is all it still yields when its
    input is [s]; it keeps to the room it is given, and at the end of its input
    it lets its reader wait [delay] times at most before it yields or ends. *)
Class StreamTransform (T : Type) `{Transform T} := {
  valid : T → Prop;
  denotes : T → str → str;
  delay : T → nat;
  transform_denotes room fresh t :
    0 < room → fresh ≠ [] → length fresh ≤ room → valid t →
    ∃ out t', transform room fresh t = (Some out, t') ∧ valid t' ∧ length out ≤ room ∧
      ∀ s, denotes t (fresh ++ s) = out ++ denotes t' s;
  finish_denotes room t :
    0 < room → valid t →
    ∃ p t', poll_finish room t = (p, t') ∧ valid t' ∧
      match p with
      | Ready (Some out) =>
        denotes t [] = out ++ denotes t' [] ∧ length out ≤ room ∧ (out = [] → denotes t [] = [])
      | Ready None => False
      | Pending => denotes t' [] = denotes t [] ∧ delay t' < delay t
      end;
}.

(** Transforms that replace bytes. *)
Section plain.
Context {T : Type} `{PlainTransform T}.

#[refine] Instance plain_denotes : StreamTransform T := {|
  valid _ := True;
  denotes t s := effect t <$> s;
  delay _ := 0;
|}.
Proof.
  - intros room fresh t _ _ Hl _. destruct (transform_plain room fresh t) as (t'&Ht&He).
    exists (effect t <$> fresh), t'. rewrite length_fmap. split_and!; [done..|]. intros s. by rewrite fmap_app, He.
  - intros room t _ _. destruct (finish_plain room t) as (t'&Ht&He). exists (Ready (Some [])), t'. split_and!; [done..|simpl; lia|done].
Defined.
End plain.

#[export] Instance inspect_denotes {C} : StreamTransform (Inspect C) := plain_denotes.

(** A closure that maps the bytes it is given in place, as it goes: it keeps
    [state] of what it has seen, and maps each byte to at most one. *)
Definition byte_closure {C} (g : C → ascii → option ascii * C) : str → C → str * C :=
  fix go buf c :=
    match buf with
    | [] => ([], c)
    | b :: buf => let '(o, c) := g c b in let '(out, c) := go buf c in (option_list o ++ out, c)
    end.

Lemma byte_closure_app {C} (g : C → ascii → option ascii * C) u v c :
  byte_closure g (u ++ v) c =
    let '(o1, c1) := byte_closure g u c in let '(o2, c2) := byte_closure g v c1 in (o1 ++ o2, c2).
Proof.
  revert c. induction u as [|b u IH]; intros c; cbn [byte_closure app]; [by destruct (byte_closure g v c)|].
  destruct (g c b) as [o c1]. rewrite IH. destruct (byte_closure g u c1) as [o1 c2].
  destruct (byte_closure g v c2) as [o2 c3]. by rewrite app_assoc.
Qed.

Lemma byte_closure_length {C} (g : C → ascii → option ascii * C) u c :
  length (byte_closure g u c).1 ≤ length u.
Proof.
  revert c. induction u as [|b u IH]; intros c; cbn [byte_closure]; [done|].
  destruct (g c b) as [o c1]. specialize (IH c1). destruct (byte_closure g u c1) as [o1 c2].
  cbn [fst] in *. rewrite length_app. destruct o; cbn; lia.
Qed.

(** [InPlaceMap]s of such closures. *)
#[export, refine] Instance inplace_denotes {C} : StreamTransform (InPlaceMap C) := {|
  valid t := ∃ g, ∀ room buf c, map_fn t room buf c = prod_map Some id (byte_closure g buf c);
  denotes t s := default [] (map_fn t (length s) s (map_state t)).1;
  delay _ := 0;
|}.
Proof.
  - intros room fresh t Hr Hf Hl [g Hg]. destruct (byte_closure g fresh (map_state t)) as [out c] eqn:Hb.
    exists out, (InPlaceMap_with (map_fn t) c). cbn. rewrite Hg, Hb. split_and!; [done|by exists g| |].
    + pose proof (byte_closure_length g fresh (map_state t)) as Hlen. rewrite Hb in Hlen. cbn in Hlen. lia.
    + intros s. rewrite !Hg, byte_closure_app, Hb. by destruct (byte_closure g s c).
  - intros room t _ Hv. exists (Ready (Some [])), t. destruct Hv as [g Hg]. rewrite Hg. cbn. split_and!; [done|by exists g|done|lia|done].
Defined.

#[export, refine] Instance dyn_denotes {T U} `{StreamTransform T} `{StreamTransform U} : StreamTransform (T + U) := {|
  valid t := match t with inl t => valid t | inr t => valid t end;
  denotes t s := match t with inl t => denotes t s | inr t => denotes t s end;
  delay t := match t with inl t => delay t | inr t => delay t end;
|}.
Proof.
  - intros room fresh [t|t] Hr Hf Hl Hv; destruct (transform_denotes room fresh t Hr Hf Hl Hv) as (out&t'&Ht&?&?&?).
    + exists out, (inl t'). cbn. by rewrite Ht.
    + exists out, (inr t'). cbn. by rewrite Ht.
  - intros room [t|t] Hr Hv; destruct (finish_denotes room t Hr Hv) as (p&t'&Ht&?&?).
    + exists p, (inl t'). cbn. by rewrite Ht.
    + exists p, (inr t'). cbn. by rewrite Ht.
Defined.

(** Hashers that hash their input, however it is cut. *)
Class HasherLaws (H : Type) `{Hasher H} : Prop := {
  hasher_write_nil h : hasher_write [] h = h;
  hasher_write_app u v h : hasher_write (u ++ v) h = hasher_write v (hasher_write u h);
}.

#[export, refine] Instance hash_denotes {H} `{HasherLaws H} `{TokioIoLaws} : StreamTransform (HashTransform H) := {|
  valid _ := True;
  denotes t s :=
    match hash t with Some c => unread c | None => hasher_finish (hasher_write s (hasher t)) end;
  delay _ := 0;
|}.
Proof.
  - intros room fresh [h [c|]] _ _ _ _; eexists [], _; (split; [reflexivity|]); cbn; split_and!;
      [done|lia|done|done|lia|]. intros s. by rewrite hasher_write_app.
  - intros room t Hr _. set (c := hash_cursor t). set (out := take room (unread c)).
    exists (Ready (Some out)), (HashTransform_with (hasher t) (Some (set_position (position c + length out) c))).
    assert (match hash t with Some c => unread c | None => hasher_finish (hasher_write [] (hasher t)) end = unread c) as ->.
    { subst c. unfold hash_cursor. destruct t as [h [c|]]; cbn; [done|]. by rewrite hasher_write_nil. }
    split_and!; [|done| |subst out; rewrite length_take; lia|].
    + unfold poll_finish, hash_transform. by rewrite poll_read_cursor_spec.
    + cbn [hash]. rewrite unread_advance. subst out. rewrite length_take.
      destruct (Nat.min_spec room (length (unread c))) as [[? ->]|[? ->]]; [by rewrite take_drop|].
      rewrite take_ge, drop_all by lia. by rewrite app_nil_r.
    + subst out. destruct (unread c); [done|]. by destruct room; [lia|].
Defined.

(** ** What a chain of transforms computes *)

Section chains.
Context {T : Type} `{StreamTransform T}.
Context {R : Type} `{Readable R} `{TokioIoLaws}.
Abbreviation Source := (Chain.Chain Cursor R).
Context `{!TokioTake Source} `{!TokioTakeLaws Source}.
Abbreviation Stream := (DataStream T R).

(** The bytes of the body that the limit still lets through. *)
Definition body (s : Stream) : str := take (base s).2 (content (base s).1).

(** What a stream still yields. *)
Fixpoint chain_content (s : Stream) : str :=
  match s with
  | Base b => take b.2 (content b.1)
  | Transformed t s inner_done => denotes t (if inner_done : bool then [] else chain_content s)
  end.

(** A transform is told of the end only when the body is read. *)
Fixpoint chain_valid (s : Stream) : Prop :=
  match s with
  | Base b => readable b.1
  | Transformed t s inner_done => valid t ∧ chain_valid s ∧ (inner_done = true → body s = [])
  end.

(** The body lost its first bytes, and the limit as many. *)
Definition moved (b b' : Source * nat) : Prop :=
  ∃ k, k ≤ b.2 ∧ b'.2 = b.2 - k ∧ content b'.1 = drop k (content b.1).

Lemma moved_refl b : moved b b.
Proof. exists 0. rewrite Nat.sub_0_r. split_and!; [lia|done|done]. Qed.

Lemma moved_trans b1 b2 b3 : moved b1 b2 → moved b2 b3 → moved b1 b3.
Proof.
  intros (k1&Hk1&Hl1&Hc1) (k2&Hk2&Hl2&Hc2). exists (k1 + k2).
  rewrite Hl2, Hl1, Hc2, Hc1, drop_drop. split_and!; [lia|lia|done].
Qed.

(** What a poll of a stream gives. *)
Definition poll_gives (room : nat) (s : Stream) (p : Poll (option str)) (s' : Stream) : Prop :=
  chain_valid s' ∧ moved (base s) (base s') ∧
  match p with
  | Ready (Some out) =>
    chain_content s = out ++ chain_content s' ∧ length out ≤ room ∧
    (out = [] → chain_content s = [] ∧ body s' = [])
  | Ready None => False
  | Pending => chain_content s' = chain_content s
  end.

Lemma finished_poll room t (s : Stream) :
  0 < room → valid t → chain_valid s → body s = [] →
  ∃ p t', poll_finish room t = (p, t') ∧ poll_gives room (Transformed t s true) p (Transformed t' s true).
Proof.
  intros Hr Hv Hs Hb. destruct (finish_denotes room t Hr Hv) as (p&t'&Hp&Hv'&Hgives).
  exists p, t'. split; [done|]. split_and!; [done|apply moved_refl|].
  destruct p as [|[out|]]; cbn [chain_content]; [by destruct Hgives| |done]. naive_solver.
Qed.

Lemma chain_poll room s :
  0 < room → chain_valid s → ∃ p s', poll_stream room s = Some (p, s') ∧ poll_gives room s p s'.
Proof.
  intros Hr. induction s as [b|t s IH d]; cbn [chain_valid poll_stream].
  - intros Hb. destruct (base_poll room b Hr Hb) as (out&b'&Hp&Hb'&Hlen&Hl&Hlim&Hc&Hend).
    exists (Ready (Some out)), (Base b'). rewrite Hp. unfold poll_gives. cbn beta iota. split_and!; [done|done| | |done|].
    + exists (length out). cbn [base]. by rewrite Hc, drop_app_length.
    + cbn [chain_content]. by rewrite Hc, Hlim, take_app_ge.
    + intros Ho. cbn [chain_content]. split; [by apply Hend|]. unfold body. cbn [base].
      specialize (Hend Ho). subst out. cbn [app length] in Hc, Hlim. rewrite Nat.sub_0_r in Hlim. by rewrite Hlim, <-Hc.
  - intros (Hv & Hs & Hd). destruct d.
    { destruct (finished_poll room t s Hr Hv Hs (Hd eq_refl)) as (p&t'&Hp&?). rewrite Hp. eauto. }
    destruct (IH Hs) as (p&s'&Hp&Hs'&Hm&Hgives). rewrite Hp. cbn [mbind option_bind].
    destruct p as [|[out|]]; [|destruct Hgives as (Hc&Hlen&Hend)|done].
    { exists Pending, (Transformed t s' false). unfold poll_gives. cbn beta iota. split_and!; [done|done|done|]. cbn [chain_content]. by rewrite Hgives. }
    unfold poll_transform, poll_gives. destruct out as [|x out]; cbn [is_empty].
    + destruct (Hend eq_refl) as [Hc0 Hb]. destruct (finished_poll room t s' Hr Hv Hs' Hb) as (p&t'&Hf&Hv'&_&Hg).
      rewrite Hf. eexists _, _. split; [done|]. split_and!; [done|done|].
      destruct p as [|[out|]]; cbn [chain_content] in *; rewrite ?Hc0; [done| |done]. naive_solver.
    + destruct (transform_denotes room (x :: out) t Hr) as (o&t'&Ht&Hv'&Hl&Hden); [done..|]. rewrite Ht.
      destruct o as [|y o]; (eexists _, _; split; [done|]); cbn [chain_valid chain_content]; rewrite Hc, Hden;
        cbn beta iota; split_and!; done.
Qed.

(** A poll after which there is more to poll. *)
Definition progress (s' s : Stream) : Prop :=
  chain_valid s ∧ ∃ room p, 0 < room ∧ poll_stream room s = Some (p, s') ∧ p ≠ Ready (Some []).

Lemma progress_base (b : Source * nat) : Acc progress (Base b).
Proof.
  remember (length (take b.2 (content b.1))) as n eqn:Hn. revert b Hn.
  induction n as [n IH] using lt_wf_ind. intros b ->. constructor.
  intros s' (Hv & room & p & Hr & Hp & Hne). cbn [chain_valid poll_stream] in *.
  destruct (base_poll room b Hr Hv) as (out&b'&Hp'&Hb'&Hlen&Hl&Hlim&Hc&_). rewrite Hp' in Hp.
  injection Hp as <- <-. eapply IH; [|reflexivity]. cbn in Hne. destruct out as [|x out]; [done|].
  rewrite Hc, !length_take, length_app in *. cbn [length] in *. lia.
Qed.

Lemma progress_finished t (s : Stream) : Acc progress (Transformed t s true).
Proof.
  remember (length (denotes t [])) as n eqn:Hn. remember (delay t) as m eqn:Hm. revert m t Hn Hm.
  induction n as [n IHn] using lt_wf_ind. intros m. induction m as [m IHm] using lt_wf_ind.
  intros t -> ->. constructor. intros s' ((Hv & Hs & Hb) & room & p & Hr & Hp & Hne).
  cbn [poll_stream] in Hp. destruct (finish_denotes room t Hr Hv) as (p'&t'&Hp'&Hv'&Hg). rewrite Hp' in Hp.
  injection Hp as <- <-. destruct p' as [|[out|]]; [|destruct Hg as (Hd&_&_)|done].
  - destruct Hg as [Hd Hlt]. eapply (IHm (delay t')); [done| |done]. by rewrite Hd.
  - eapply (IHn (length (denotes t' []))); [|done..]. rewrite Hd, length_app. destruct out; [done|cbn; lia].
Qed.

Lemma progress_acc (s : Stream) : Acc progress s.
Proof.
  induction s as [b|t s IH d]; [apply progress_base|]. destruct d; [apply progress_finished|].
  revert t. induction IH as [s _ IH]. intros t. constructor.
  intros s2 ((Hv & Hs & _) & room & p & Hr & Hp & Hne). cbn [poll_stream] in Hp.
  destruct (chain_poll room s Hr Hs) as (p1&s1&Hp1&Hs1&_&Hg). rewrite Hp1 in Hp. cbn in Hp.
  assert (p1 ≠ Ready (Some []) → progress s1 s) as Hprog by (intros ?; split; [done|]; eauto).
  destruct p1 as [|[out|]]; [|unfold poll_transform in Hp; destruct out as [|x out]; cbn [is_empty] in Hp|done].
  - injection Hp as _ <-. by apply IH, Hprog.
  - destruct (poll_finish room t) as [p' t']. injection Hp as _ <-. apply progress_finished.
  - destruct (transform room (x :: out) t) as [o t']. injection Hp as _ <-. by apply IH, Hprog.
Qed.

(** A reader of the whole stream: it polls with buffers that have room until a
    read puts nothing there, or fails. *)
Fixpoint drain (fuel : nat) (rooms : nat → nat) (s : Stream) : option (option str * Stream) :=
  match fuel with
  | 0 => None
  | S fuel =>
    '(p, s) ← poll_stream (rooms 0) s;
    match p with
    | Pending => drain fuel (rooms ∘ S) s
    | Ready None => Some (None, s)
    | Ready (Some []) => Some (Some [], s)
    | Ready (Some out) => '(rest, s) ← drain fuel (rooms ∘ S) s; Some (option_map (app out) rest, s)
    end
  end.

Lemma drain_content rooms s :
  (∀ i, 0 < rooms i) → chain_valid s →
  ∃ fuel s', drain fuel rooms s = Some (Some (chain_content s), s') ∧
    chain_valid s' ∧ moved (base s) (base s') ∧ body s' = [].
Proof.
  intros Hrooms Hs. revert rooms Hrooms Hs. induction (progress_acc s) as [s _ IH]. intros rooms Hrooms Hs.
  destruct (chain_poll (rooms 0) s (Hrooms 0) Hs) as (p&s1&Hp&Hs1&Hm&Hg).
  assert (p ≠ Ready (Some []) → progress s1 s) as Hprog by (intros ?; split; [done|]; eauto).
  assert (p ≠ Ready (Some []) →
    ∃ fuel s', drain fuel (rooms ∘ S) s1 = Some (Some (chain_content s1), s') ∧
      chain_valid s' ∧ moved (base s) (base s') ∧ body s' = []) as Hrest.
  { intros Hne. destruct (IH s1 (Hprog Hne) (rooms ∘ S)) as (fuel&s'&Hd&?&?&?); [intros i; apply Hrooms|done|].
    exists fuel, s'. split_and!; [done|done|by eapply moved_trans|done]. }
  destruct p as [|[out|]]; [|destruct Hg as (Hc&_&Hend)|done].
  - destruct Hrest as (fuel&s'&Hd&?); [done|]. exists (S fuel), s'. cbn. rewrite Hp. cbn. by rewrite Hd, Hg.
  - destruct out as [|x out].
    + destruct (Hend eq_refl) as [Hc0 Hb]. exists 1, s1. cbn. rewrite Hp. cbn. by rewrite Hc0.
    + destruct Hrest as (fuel&s'&Hd&?); [done|]. exists (S fuel), s'. cbn. rewrite Hp. cbn. by rewrite Hd, Hc.
Qed.

(** The functions of the transforms, in the order they were attached. *)
Definition compute (ts : list T) (s : str) : str := foldl (λ s t, denotes t s) s ts.

Lemma chain_new ts buffer (reader : R) limit :
  Forall valid ts → readable reader →
  let s := data_stream_new ts buffer reader limit in
  chain_valid s ∧ base s = (Chain.new (Cursor_new buffer) reader, limit) ∧
  chain_content s = compute ts (take limit (buffer ++ content reader)).
Proof.
  intros Hts Hr. unfold data_stream_new, compute.
  assert (∀ s : Stream, chain_valid s →
    let s' := foldl (λ stream t, Transformed t stream false) s ts in
    chain_valid s' ∧ base s' = base s ∧ chain_content s' = foldl (λ s t, denotes t s) (chain_content s) ts) as Hfold.
  { induction Hts as [|t ts Ht Hts IH]; intros s Hs; [done|]. apply (IH (Transformed t s false)). by split_and!. }
  destruct (Hfold (Base (Chain.new (Cursor_new buffer) reader, limit))) as (?&?&?); [done|]. by split_and!.
Qed.
End chains.

(** ** Bodies behind transforms *)

Section bodies.
Context {T : Type} `{StreamTransform T} `{TokioIoLaws}.
Abbreviation Source := (Chain.Chain Cursor (list (option str))).
Abbreviation Stream := (DataStream T (list (option str))).
Context `{!TokioTake Source} `{!TokioTakeLaws Source}.
Context `{!AsyncReadExt (Source * nat)} `{!AsyncReadExtLaws (Source * nat)}.

Lemma limit_exceeded_at_end limit b0 (s : Stream) :
  readable (base s).1 → moved (b0, limit) (base s) → body s = [] →
  ∃ s', limit_exceeded s = Some (Some (bool_decide (limit < length (content b0))), s').
Proof.
  intros Hr (k&Hk&Hl&Hc) Hb. cbn [fst snd] in *. apply (f_equal length) in Hb.
  unfold body in Hb. rewrite Hl, Hc, length_take, length_drop in Hb. cbn [length] in Hb.
  unfold limit_exceeded. destruct (Nat.eqb_spec (base s).2 0) as [Hz|Hz].
  - destruct (base_poll 1 ((base s).1, 1)) as (out&b'&Hp&_&Hlen&_&_&Hcon&Hend); [lia|done|].
    rewrite (read_once_spec _ _ out b') by exact Hp. eexists. cbn [mbind option_bind]. do 3 f_equal.
    cbn [fst snd] in *. rewrite Hc in Hcon, Hend.
    apply (f_equal length) in Hcon. rewrite length_app, length_drop in Hcon.
    destruct out as [|x out]; cbn [length] in *.
    + rewrite bool_decide_eq_false_2; [done|]. specialize (Hend eq_refl). apply (f_equal length) in Hend.
      rewrite length_take, length_drop in Hend. cbn [length] in Hend. lia.
    + rewrite bool_decide_eq_true_2; [done|]. lia.
  - eexists. rewrite bool_decide_eq_false_2; [done|]. lia.
Qed.

(** C35: What reads a body through transforms: for transforms of any kinds that
    do not fail, in the order they were attached, and for every body, however it
    arrives in chunks and whatever part of it has been peeked at, a reader that
    polls with any sizes of buffers, waiting whenever a transform kept all that
    was read, comes to an end, having read the composition of the functions the
    transforms compute, applied to the bytes within the limit; and then
    [limit_exceeded] says whether the body itself was longer than the limit,
    however long the transforms made it. *)
Theorem transformed_body rooms limit (data : TransformedData (T := T)) :
  (∀ i, 0 < rooms i) → peekable_wf (stream data) → None ∉ reader (stream data) → Forall valid (transforms data) →
  let arrived := Data.content (stream data) in
  ∃ fuel s' s'',
    drain fuel rooms (open limit data : Stream) =
      Some (Some (compute (transforms data) (take (Z.to_nat limit) arrived)), s') ∧
    limit_exceeded s' = Some (Some (bool_decide (Z.to_nat limit < length arrived)), s'').
Proof.
  intros Hrooms [Hwf _] Hio Hts arrived.
  destruct (chain_new (transforms data) (buffer (stream data)) (reader (stream data)) (Z.to_nat limit) Hts)
    as (Hv&Hb&Hc).
  { apply list.Forall_forall. intros c Hin. rewrite list.Forall_forall in Hwf. specialize (Hwf c Hin).
    destruct c as [[|x s]|]; [done|by eexists _, _|done]. }
  destruct (drain_content rooms _ Hrooms Hv) as (fuel&s'&Hd&Hv'&Hm&He). rewrite Hb in Hm.
  assert (readable (base s').1) as Hr.
  { clear -Hv'. induction s' as [b|t s IH d]; [done|]. destruct Hv' as (_ & Hs & _). by apply IH. }
  destruct (limit_exceeded_at_end (Z.to_nat limit) _ s' Hr Hm He) as [s'' Hx].
  exists fuel, s', s''. unfold open. rewrite Hd, Hc. split; [done|exact Hx].
Qed.

(** A read without room for a byte loses what was peeked at, and ends the data
    of a transform. *)
Lemma empty_read_loses t limit (d : Data) :
  (0 < limit)%Z → peekable_wf d → None ∉ reader d → valid t →
  (∃ s' : Stream, poll_stream 0 (open limit (data_new d)) = Some (Ready (Some []), s') ∧
     chain_content s' = take (Z.to_nat limit) (content (reader d))) ∧
  (∀ p t', poll_finish 0 t = (p, t') →
     ∃ s' : Stream, poll_stream 0 (open limit (chain_transform t (data_new d))) = Some (p, s') ∧
       chain_content s' = denotes t' []).
Proof.
  intros Hl [Hwf _] Hio Hv. unfold open, data_stream_new. cbn [transforms data_new chain_transform app foldl stream].
  destruct (Z.to_nat limit) as [|n] eqn:Hn; [lia|]. cbn [poll_stream].
  assert (poll_take 0 (Chain.new (Cursor_new (buffer d)) (reader d), S n) =
    Some (Ready (Some []), (Chain.Chain_with None (reader d), S n))) as ->.
  { rewrite poll_take_S. cbn [Nat.min]. unfold poll_read, Chain.chain_poll_read, Chain.new. cbn [Chain.first Chain.second].
    unfold poll_read, cursor_poll_read. rewrite poll_read_cursor_spec. cbn. unfold Chain.poll_second.
    unfold poll_read, chunks_poll_read. destruct (reader d) as [|c rest]; [done|].
    inversion_clear Hwf as [|?? Hc _].
    destruct c as [[|x c]|]; [done|done|]. destruct Hio. by left. }
  split; [eexists; split; [done|]; done|].
  intros p t' Hp. unfold poll_transform. cbn. rewrite Hp. eexists. by split.
Qed.
End bodies.

(** ** Concrete bodies *)

Module TransformsReference.
Import AdaptorReference TokioReference UncasedOrdReference Reference.

(** A hasher: the sum of the bytes and their number, in two bytes. *)
#[export] Instance sum_hasher : Hasher (nat * nat) := {
  hasher_write s h := (sum_list (nat_of_ascii <$> s) + h.1, length s + h.2);
  hasher_finish h := [ascii_of_nat (h.1 mod 256); ascii_of_nat (h.2 mod 256)];
}.

#[export] Instance sum_hasher_laws : HasherLaws (nat * nat).
Proof.
  split; [by intros []|]. intros u v [a b]. cbn. rewrite fmap_app. f_equal; [|rewrite length_app; lia].
  induction u as [|c u IH]; cbn; lia.
Qed.

Definition Any : Type := (Inspect str + InPlaceMap nat) + HashTransform (nat * nat).

(** An inspector that keeps the bytes it sees; a closure that drops every other
    byte; the hash. *)
Definition keep (s : str) (seen : str) : str := seen ++ s.

Definition every_other : nat → str → nat → str * nat :=
  λ _, byte_closure (λ n b, (if Nat.even n then Some b else None, S n)).

Definition body_of_six : Data := Peekable_with (#"ab") 2 false [Some (#"c"); Some (#"def")].

Definition thinned (d : Data) : TransformedData (T := Any) :=
  chain_inspect (inl ∘ inl) keep [] (chain_inplace_map (inl ∘ inr) every_other 0 (data_new d)).

Definition hashed (d : Data) : TransformedData (T := Any) :=
  chain_inspect (inl ∘ inl) keep []
    (chain_hash_transform inr (0, 0)
      (chain_inplace_map (inl ∘ inr) every_other 0 (chain_inspect (inl ∘ inl) keep [] (data_new d)))).

Lemma every_other_valid c : valid (InPlaceMap_with (λ room buf c, prod_map Some id (every_other room buf c)) c).
Proof. eexists. intros room buf c'. reflexivity. Qed.

Example transformed_body_witness :
  (∃ fuel s' s'',
    drain fuel (λ _, 2) (open 5 (thinned body_of_six)) = Some (Some #"ace", s') ∧
    limit_exceeded s' = Some (Some true, s'')) ∧
  (∃ fuel s' s'',
    drain fuel (λ _, 1) (open 6 (hashed body_of_six)) = Some (Some [ascii_of_nat 41; ascii_of_nat 3], s') ∧
    limit_exceeded s' = Some (Some false, s'')).
Proof.
  split.
  - destruct (transformed_body (λ _, 2) 5 (thinned body_of_six)) as (fuel&s'&s''&Hd&Hx).
    + intros i. lia.
    + split; [by repeat constructor|done].
    + set_solver.
    + constructor; [apply every_other_valid|]. constructor; [exact I|constructor].
    + exists fuel, s', s''. rewrite Hd, Hx. split; do 2 f_equal; by vm_compute.
  - destruct (transformed_body (λ _, 1) 6 (hashed body_of_six)) as (fuel&s'&s''&Hd&Hx).
    + intros i. lia.
    + split; [by repeat constructor|done].
    + set_solver.
    + constructor; [exact I|]. constructor; [apply every_other_valid|]. by repeat constructor.
    + exists fuel, s', s''. rewrite Hd, Hx. split; do 2 f_equal; by vm_compute.
Defined.

(** What a reader gets when it first reads into an empty buffer. *)
Example empty_read_example :
  let s := open 6 (chain_inspect id keep [] (data_new body_of_six)) in
  (λ r, r.1) <$> drain 9 (λ _, 2) s = Some (Some #"abcdef") ∧
  ('(_, s) ← poll_stream 0 s; (λ r, r.1) <$> drain 9 (λ _, 2) s) = Some (Some []).
Proof. by vm_compute. Qed.
End TransformsReference.
