(* ===== verification/Cookies.v ===== *)
(** * Cookies: the cookie jar of a request (core/lib/src/http/cookies.rs)

    The build without the [secrets] feature, the default: there are no private
    cookies, and the flag of [Op::Add] is always false.  The [cookie] crate is
    a class of operations. *)

From S2P Require Import Prelude Crates Header.

Inductive SameSite := Strict | Lax | NoneSite.

(** The [cookie] crate: cookies with their attributes, and jars. *)
Class CookieCrate := {
  cookie : Type;
  cookie_name : cookie → str;
  cookie_path : cookie → option str;
  cookie_same_site : cookie → option SameSite;
  cookie_secure : cookie → option bool;
  set_path : str → cookie → cookie;
  set_same_site : SameSite → cookie → cookie;
  set_secure : bool → cookie → cookie;
  make_removal : cookie → cookie;
  cookie_encoded : cookie → str;
  jar : Type;
  jar_new : jar;
  jar_get : str → jar → option cookie;
  jar_add : cookie → jar → jar;
  jar_add_original : cookie → jar → jar;
  jar_remove : cookie → jar → jar;
  jar_delta : jar → list cookie;
}.

(** Setting an attribute keeps the name and the other attributes. *)
Class CookieCrateLaws `{CookieCrate} : Prop := {
  set_path_name p c : cookie_name (set_path p c) = cookie_name c;
  set_path_path p c : cookie_path (set_path p c) = Some p;
  set_path_same_site p c : cookie_same_site (set_path p c) = cookie_same_site c;
  set_path_secure p c : cookie_secure (set_path p c) = cookie_secure c;
  set_same_site_name s c : cookie_name (set_same_site s c) = cookie_name c;
  set_same_site_path s c : cookie_path (set_same_site s c) = cookie_path c;
  set_same_site_same_site s c : cookie_same_site (set_same_site s c) = Some s;
  set_same_site_secure s c : cookie_secure (set_same_site s c) = cookie_secure c;
  set_secure_name b c : cookie_name (set_secure b c) = cookie_name c;
  set_secure_path b c : cookie_path (set_secure b c) = cookie_path c;
  set_secure_same_site b c : cookie_same_site (set_secure b c) = cookie_same_site c;
  set_secure_secure b c : cookie_secure (set_secure b c) = Some b;
}.

(** More of the jars of the crate: their cookies and the removal that leaves no
    change behind.  Of a jar without pending changes this is a map from names
    to cookies. *)
Class CookieJars `{CookieCrate} := {
  jar_iter : jar → list cookie;
  jar_force_remove : str → jar → jar;
}.

Class CookieJarsLaws `{CookieJars} := {
  jar_plain : jar → Prop;
  plain_new : jar_plain jar_new;
  plain_add_original c j : jar_plain j → jar_plain (jar_add_original c j);
  plain_force_remove n j : jar_plain j → jar_plain (jar_force_remove n j);
  get_new n : jar_get n jar_new = None;
  get_add_original n c j : jar_plain j →
    jar_get n (jar_add_original c j) = if bool_decide (cookie_name c = n) then Some c else jar_get n j;
  get_force_remove n m j : jar_plain j →
    jar_get n (jar_force_remove m j) = if bool_decide (m = n) then None else jar_get n j;
  get_name n c j : jar_plain j → jar_get n j = Some c → cookie_name c = n;
  jar_iter_get c j : jar_plain j → c ∈ jar_iter j ↔ jar_get (cookie_name c) j = Some c;
  jar_iter_names j : jar_plain j → NoDup (cookie_name <$> jar_iter j);
}.

Section CookieJar.
Context `{CookieCrate}.

(** [enum Op]. *)
Inductive Op :=
  | OpAdd (c : cookie)
  | OpRemove (c : cookie).

(** [struct CookieJar], with the [secure] flag of its state. *)
Record CookieJar := CookieJar_with { original : jar; ops : list Op; jar_secure : bool }.

(** [CookieJar::new]. *)
Definition jar_init (base : option jar) (secure : bool) : CookieJar :=
  CookieJar_with (default jar_new base) [] secure.

(** [Op::cookie]. *)
Definition op_cookie (self : Op) : cookie :=
  match self with OpAdd c | OpRemove c => c end.

(** [CookieJar::get], [get_pending]. *)
Definition cookies_get (name : str) (self : CookieJar) : option cookie := jar_get name (original self).

Definition get_pending (name : str) (self : CookieJar) : option cookie :=
  match List.find (λ op, bool_decide (cookie_name (op_cookie op) = name)) (reverse (ops self)) with
  | Some (OpAdd c) => Some c
  | Some (OpRemove _) => None
  | None => cookies_get name self
  end.

(** [CookieJar::set_defaults], [set_removal_defaults]. *)
Definition set_defaults (self : CookieJar) (c : cookie) : cookie :=
  let c := match cookie_path c with None => set_path (#"/") c | Some _ => c end in
  let c := match cookie_same_site c with None => set_same_site Strict c | Some _ => c end in
  if bool_decide (cookie_secure c = None) && jar_secure self then set_secure true c else c.

Definition set_removal_defaults (c : cookie) : cookie :=
  let c := match cookie_path c with None => set_path (#"/") c | Some _ => c end in
  match cookie_same_site c with None => set_same_site Lax c | Some _ => c end.

(** [CookieJar::add], [remove], [reset_delta], [add_original]. *)
Definition push_op (op : Op) (self : CookieJar) : CookieJar :=
  CookieJar_with (original self) (ops self ++ [op]) (jar_secure self).

Definition cookies_add (c : cookie) (self : CookieJar) : CookieJar :=
  push_op (OpAdd (set_defaults self c)) self.

Definition cookies_remove (c : cookie) (self : CookieJar) : CookieJar :=
  push_op (OpRemove (set_removal_defaults c)) self.

Definition reset_delta (self : CookieJar) : CookieJar :=
  CookieJar_with (original self) [] (jar_secure self).

Definition add_original (c : cookie) (self : CookieJar) : CookieJar :=
  CookieJar_with (jar_add_original c (original self)) (ops self) (jar_secure self).

(** [CookieJar::take_delta_jar]: the jar of the pending operations, which are
    taken. *)
Definition delta_op (self : CookieJar) (j : jar) (op : Op) : jar :=
  match op with
  | OpAdd c => jar_add c j
  | OpRemove c =>
    match jar_get (cookie_name c) (original self) with
    | Some _ => jar_add (make_removal c) j
    | None => jar_remove c j
    end
  end.

Definition take_delta_jar (self : CookieJar) : jar * CookieJar :=
  (foldl (delta_op self) jar_new (ops self), reset_delta self).

(** [impl From<&Cookie> for Header] (core/http/src/header/header.rs). *)
Definition cookie_header (c : cookie) : Header := Header_new (#"Set-Cookie") (cookie_encoded c).
End CookieJar.

Section cookie_lemmas.
Context `{CookieCrateLaws}.

Lemma set_defaults_name self c : cookie_name (set_defaults self c) = cookie_name c.
Proof.
  unfold set_defaults. destruct (cookie_path c); destruct (cookie_same_site _); case_match;
    by rewrite ?set_secure_name, ?set_same_site_name, ?set_path_name.
Qed.

Lemma set_removal_defaults_name c : cookie_name (set_removal_defaults c) = cookie_name c.
Proof.
  unfold set_removal_defaults. destruct (cookie_path c); destruct (cookie_same_site _);
    by rewrite ?set_same_site_name, ?set_path_name.
Qed.

(** The pending cookie after one more operation. *)
Lemma get_pending_push name op self :
  get_pending name (push_op op self) =
    if bool_decide (cookie_name (op_cookie op) = name)
    then match op with OpAdd c => Some c | OpRemove _ => None end
    else get_pending name self.
Proof.
  unfold get_pending, push_op. cbn [ops]. rewrite reverse_snoc. simpl.
  case_bool_decide; [by destruct op|done].
Qed.

(** The jar as a handler sees it: a cookie that was added is the pending
    one of its name, with path, same-site and, on a secure connection, secure
    attributes, where it did not set its own; a removed one is gone; other
    names are not affected; and an error discards all of it. *)
Theorem cookie_jar_pending (self : CookieJar) (c : cookie) (name : str) :
  get_pending name (cookies_add c self) =
    (if bool_decide (cookie_name c = name) then Some (set_defaults self c)
     else get_pending name self) ∧
  get_pending name (cookies_remove c self) =
    (if bool_decide (cookie_name c = name) then None else get_pending name self) ∧
  get_pending name (reset_delta self) = cookies_get name self ∧
  cookie_path (set_defaults self c) = Some (default (#"/") (cookie_path c)) ∧
  cookie_same_site (set_defaults self c) = Some (default Strict (cookie_same_site c)) ∧
  (cookie_secure (set_defaults self c) =
     match cookie_secure c with
     | Some b => Some b
     | None => if jar_secure self then Some true else None
     end) ∧
  ops (take_delta_jar self).2 = [] ∧ original (take_delta_jar self).2 = original self.
Proof.
  unfold cookies_add, cookies_remove. rewrite !get_pending_push. cbn [op_cookie].
  rewrite set_defaults_name, set_removal_defaults_name. split_and!; try done.
  all: unfold set_defaults; destruct (cookie_path c) eqn:Hp, (cookie_same_site c) eqn:Hs,
    (cookie_secure c) eqn:Hsec, (jar_secure self); simpl;
    repeat first [rewrite set_path_same_site | rewrite set_path_secure | rewrite Hs
                 | rewrite set_same_site_secure | rewrite Hsec | rewrite set_secure_path
                 | rewrite set_secure_same_site | rewrite set_secure_secure
                 | rewrite set_same_site_path | rewrite set_path_path
                 | rewrite set_same_site_same_site | rewrite Hp | progress simpl]; done.
Qed.
End cookie_lemmas.

Section jars.
Context `{CookieJarsLaws}.

(** Original cookies added to a jar: the last one of each name counts. *)
Lemma jar_get_originals cs j n : jar_plain j →
  jar_plain (foldl (λ j c, jar_add_original c j) j cs) ∧
  jar_get n (foldl (λ j c, jar_add_original c j) j cs) =
    match last (List.filter (λ c, bool_decide (cookie_name c = n)) cs) with Some c => Some c | None => jar_get n j end.
Proof.
  intros Hj. induction cs as [|c cs IH] using rev_ind; [done|]. destruct IH as [Hp IH].
  rewrite foldl_app, List.filter_app. simpl. split; [by apply plain_add_original|].
  rewrite get_add_original by done. case_bool_decide; [by rewrite last_snoc|by rewrite app_nil_r].
Qed.
(** The cookies of a plain jar are those it has by their names. *)
Lemma find_iter n j : jar_plain j → List.find (λ c, bool_decide (cookie_name c = n)) (jar_iter j) = jar_get n j.
Proof.
  intros Hj. destruct (List.find _ _) as [c|] eqn:Hf.
  - apply find_some in Hf as [Hc Hn%bool_decide_eq_true]. apply list_elem_of_In, jar_iter_get in Hc; [|done]. by subst n.
  - destruct (jar_get n j) as [c|] eqn:Hg; [|done]. pose proof (get_name _ _ _ Hj Hg) as Hn. subst n.
    apply jar_iter_get in Hg; [|done]. apply list_elem_of_In in Hg. by apply (find_none _ _ Hf), bool_decide_eq_false in Hg.
Qed.
End jars.

(** A cookie as its attributes; a jar as its original and its changed cookies. *)
Module CookieReference.
Record cookie_rec := Cookie_new {
  rec_name : str;
  rec_value : str;
  rec_path : option str;
  rec_same_site : option SameSite;
  rec_secure : option bool;
}.

(** Each list holds at most one cookie of a name. *)
Record jar_rec := Jar_new { jar_original : list cookie_rec; jar_changed : list (cookie_rec * bool) }.

Definition other (name : str) (c : cookie_rec) : bool := negb (bool_decide (rec_name c = name)).

#[export] Instance cookie_ref : CookieCrate := {|
  cookie := cookie_rec;
  cookie_name := rec_name;
  cookie_path := rec_path;
  cookie_same_site := rec_same_site;
  cookie_secure := rec_secure;
  set_path p c := Cookie_new (rec_name c) (rec_value c) (Some p) (rec_same_site c) (rec_secure c);
  set_same_site s c := Cookie_new (rec_name c) (rec_value c) (rec_path c) (Some s) (rec_secure c);
  set_secure b c := Cookie_new (rec_name c) (rec_value c) (rec_path c) (rec_same_site c) (Some b);
  make_removal c := Cookie_new (rec_name c) [] (rec_path c) (rec_same_site c) (rec_secure c);
  cookie_encoded c := rec_name c ++ "="%char :: rec_value c;
  jar := jar_rec;
  jar_new := Jar_new [] [];
  jar_get n j :=
    match List.find (λ p, negb (other n p.1)) (jar_changed j) with
    | Some (c, false) => Some c
    | Some (_, true) => None
    | None => List.find (λ c, negb (other n c)) (jar_original j)
    end;
  jar_add c j :=
    Jar_new (jar_original j)
      ((c, false) :: List.filter (λ p, other (rec_name c) p.1) (jar_changed j));
  jar_add_original c j :=
    Jar_new (c :: List.filter (other (rec_name c)) (jar_original j)) (jar_changed j);
  jar_remove c j :=
    let changed := List.filter (λ p, other (rec_name c) p.1) (jar_changed j) in
    Jar_new (jar_original j)
      (if existsb (λ o, negb (other (rec_name c) o)) (jar_original j)
       then (c, true) :: changed else changed);
  jar_delta j := fst <$> jar_changed j |}.

#[export] Instance cookie_laws : CookieCrateLaws.
Proof. split; done. Qed.
(** The original cookies have distinct names where they are added so. *)
#[export] Instance cookie_jars_ref : CookieJars := {|
  jar_iter := jar_original;
  jar_force_remove n j := Jar_new (List.filter (other n) (jar_original j)) (jar_changed j) |}.

Lemma find_other n m l : n ≠ m →
  List.find (λ c, negb (other n c)) (List.filter (other m) l) = List.find (λ c, negb (other n c)) l.
Proof.
  intros Hn. induction l as [|c l IH]; [done|]. simpl. unfold other in *. repeat case_bool_decide; simpl; try congruence;
    by rewrite ?bool_decide_eq_true_2, ?bool_decide_eq_false_2 by congruence.
Qed.

Lemma find_same n l : List.find (λ c, negb (other n c)) (List.filter (other n) l) = None.
Proof.
  induction l as [|c l IH]; [done|]. simpl. destruct (other n c) eqn:E; [|done]. simpl. by rewrite E.
Qed.

Lemma names_filter n l : NoDup (rec_name <$> l) → NoDup (rec_name <$> List.filter (other n) l).
Proof.
  induction l as [|c l IH]; [done|]. rewrite fmap_cons, NoDup_cons. intros [Hc Hl]. simpl.
  destruct (other n c); [|by apply IH]. rewrite fmap_cons, NoDup_cons. split; [|by apply IH].
  rewrite !list_elem_of_fmap in *. intros (d & He & [Hd _]%list_elem_of_In%filter_In). apply Hc. exists d.
  split; [done|]. by apply list_elem_of_In.
Qed.

#[export] Instance cookie_jars_laws : CookieJarsLaws.
Proof.
  unshelve refine (Build_CookieJarsLaws _ _ (λ j : jar (CookieCrate := cookie_ref), jar_changed j = [] ∧ NoDup (rec_name <$> jar_original j)) _ _ _ _ _ _ _ _ _).
  - split; [done|constructor].
  - intros c j [Hj Hn]. split; [done|]. cbn. apply NoDup_cons. split; [|by apply names_filter].
    rewrite list_elem_of_fmap. intros (d & He & Hd%list_elem_of_In%filter_In). destruct Hd as [_ Hd].
    unfold other in Hd. by rewrite bool_decide_eq_true_2 in Hd.
  - intros n j [Hj Hn]. split; [done|]. by apply names_filter.
  - done.
  - intros n c j [Hj _]. cbn. rewrite Hj. simpl. unfold other at 1. rewrite negb_involutive.
    case_bool_decide; [done|]. by apply find_other.
  - intros n m j [Hj _]. cbn. rewrite Hj. simpl. case_bool_decide; [subst; apply find_same|by apply find_other].
  - intros n c j [Hj _]. cbn. rewrite Hj. simpl. intros [_ Hc]%find_some. unfold other in Hc.
    rewrite negb_involutive in Hc. by apply bool_decide_eq_true in Hc.
  - intros c j [Hj Hn]. cbn. rewrite Hj. simpl. revert Hn. generalize (jar_original j). clear.
    induction l as [|d l IH]; [split; [by intros Hc%not_elem_of_nil|done]|]. rewrite fmap_cons, NoDup_cons. intros [Hd Hl]. simpl. unfold other at 1.
    rewrite negb_involutive, elem_of_cons, IH by done. case_bool_decide as He; [|naive_solver].
    split; [|naive_solver]. intros [->|Hc]; [done|]. destruct Hd. rewrite He. apply list_elem_of_fmap. exists c.
    split; [done|]. apply list_elem_of_In. by apply find_some in Hc as [Hin _].
  - by intros j [_ Hn].
Qed.
End CookieReference.

Section witness.
Import CookieReference.

Example cookie_jar_pending_witness :
  let c : cookie := Cookie_new (#"id") (#"1") None None None in
  get_pending (#"id") (cookies_add (c : cookie) (jar_init None true)) =
    Some (Cookie_new (#"id") (#"1") (Some (#"/")) (Some Strict) (Some true)).
Proof.
  intros c. rewrite (proj1 (cookie_jar_pending (jar_init None true) c (#"id"))). by vm_compute.
Defined.
End witness.
