(* ===== verification/Response.v ===== *)
(** * Response: bodies and responses (core/lib/src/response/body.rs, response.rs)

    A reader is what reading it yields, with what seeking in it reports: the
    number of bytes from its position to its end, or an I/O error ([None]).
    The upgrades, a [HashMap] on uncased names, are a list of entries whose
    order does not matter. *)

From S2P Require Import Prelude Crates Header Status MediaType UriTables MediaParse.

(** ** Body *)

(** A boxed [AsyncRead] or [AsyncReadSeek]. *)
Record Reader := Reader_new { read : str; seek_size : option nat }.

(** [enum Inner], [struct Body]. *)
Inductive Inner :=
  | Seekable (b : Reader)
  | Unsized (b : Reader)
  | Phantom (b : Reader)
  | InnerNone.

Record Body := Body_new { size : option nat; inner : Inner; max_chunk : nat }.

Definition DEFAULT_MAX_CHUNK : nat := 4096.

(** [Body::default], [unsized_none], [with_sized], [with_unsized]. *)
Definition body_default : Body := Body_new (Some 0%nat) InnerNone DEFAULT_MAX_CHUNK.
Definition unsized_none : Body := Body_new None InnerNone DEFAULT_MAX_CHUNK.
Definition with_sized (body : Reader) (preset_size : option nat) : Body :=
  Body_new preset_size (Seekable body) DEFAULT_MAX_CHUNK.
Definition with_unsized (body : Reader) : Body := Body_new None (Unsized body) DEFAULT_MAX_CHUNK.

(** [Body::set_max_chunk_size]. *)
Definition body_set_max_chunk_size (n : nat) (self : Body) : Body :=
  Body_new (size self) (inner self) n.

(** [Body::strip]. *)
Definition strip (self : Body) : Body :=
  match inner self with
  | Seekable b | Phantom b => Body_new (size self) (Phantom b) (max_chunk self)
  | Unsized _ | InnerNone => body_default
  end.

(** [Body::is_none], [is_some]. *)
Definition is_none (self : Body) : bool := match inner self with InnerNone => true | _ => false end.
Definition is_some (self : Body) : bool := negb (is_none self).

(** [Body::size]: the size, and the body with the size it found. *)
Definition body_size (self : Body) : option nat * Body :=
  match size self with
  | Some n => (Some n, self)
  | None =>
    match inner self with
    | Seekable b | Phantom b =>
      match seek_size b with
      | Some n => (Some n, Body_new (Some n) (inner self) (max_chunk self))
      | None => (None, self)
      end
    | _ => (None, self)
    end
  end.

(** What reading a body to its end yields ([poll_read]). *)
Definition body_bytes (self : Body) : str :=
  match inner self with
  | Seekable b | Unsized b => read b
  | Phantom _ | InnerNone => []
  end.

(** [Body::to_bytes] when no read fails: the bytes and the size left, less
    what was read, at least 0. *)
Definition to_bytes (self : Body) : str * Body :=
  let vec := body_bytes self in
  let inner := match inner self with
               | Seekable b => Seekable (Reader_new [] ((λ n, n - length vec)%nat <$> seek_size b))
               | Unsized b => Unsized (Reader_new [] (seek_size b))
               | i => i
               end in
  (vec, Body_new ((λ n, n - length vec)%nat <$> size self) inner (max_chunk self)).

(** ** Response *)

Section Response.
Context {U : Uncased} {IM : IndexMap str (list str) uncased_eq} {IoHandler : Type}.

(** [struct Response]. *)
Record Response := Response_with {
  resp_status : option Status;
  resp_headers : HeaderMap IM;
  body : Body;
  upgrade : list (str * IoHandler);
}.

(** [Response::new]. *)
Definition response_new : Response := Response_with None header_map_new body_default [].

(** [Response::status], [set_status]. *)
Definition status (self : Response) : Status := default Status.Ok (resp_status self).
Definition set_status (s : Status) (self : Response) : Response :=
  Response_with (Some s) (resp_headers self) (body self) (upgrade self).

(** [Response::set_header_map]. *)
Definition set_header_map (h : HeaderMap IM) (self : Response) : Response :=
  Response_with (resp_status self) h (body self) (upgrade self).

(** [Response::set_header], [set_raw_header], [adjoin_header],
    [adjoin_raw_header], [remove_header]. *)
Definition set_header (h : Header) (self : Response) : Response :=
  set_header_map (replace h (resp_headers self)).2 self.
Definition set_raw_header (name value : str) (self : Response) : Response :=
  set_header (Header_new name value) self.
Definition adjoin_header (h : Header) (self : Response) : Response :=
  set_header_map (add h (resp_headers self)) self.
Definition adjoin_raw_header (name value : str) (self : Response) : Response :=
  adjoin_header (Header_new name value) self.
Definition remove_header (name : str) (self : Response) : Response :=
  set_header_map (remove name (resp_headers self)) self.

(** [*response.body_mut() = body]; [strip_body], [set_sized_body],
    [set_streamed_body], [set_max_chunk_size]. *)
Definition set_body (b : Body) (self : Response) : Response :=
  Response_with (resp_status self) (resp_headers self) b (upgrade self).
Definition strip_body (self : Response) : Response := set_body (strip (body self)) self.
Definition set_sized_body (n : option nat) (r : Reader) (self : Response) : Response :=
  set_body (with_sized r n) self.
Definition set_streamed_body (r : Reader) (self : Response) : Response :=
  set_body (with_unsized r) self.
Definition set_max_chunk_size (n : nat) (self : Response) : Response :=
  set_body (body_set_max_chunk_size n (body self)) self.

(** [Response::content_type]. *)
Definition resp_content_type `{Pear} `{PearCombinators} (self : Response) : option MediaType :=
  get_one (#"Content-Type") (resp_headers self) ≫= parse_media_type.

(** [Response::add_upgrade]. *)
Definition add_upgrade (protocol : str) (handler : IoHandler) (self : Response) : Response :=
  Response_with (resp_status self) (resp_headers self) (body self)
    (assoc_update uncased_eq handler protocol (λ _, handler) (upgrade self)).

(** [find_map(|p| self.upgrade.remove_entry(p))]: the entry of the first
    protocol that has one, and the entries left. *)
Fixpoint find_upgrade (protocols : list str) (upgrade : list (str * IoHandler))
  : option ((str * IoHandler) * list (str * IoHandler)) :=
  match protocols with
  | [] => None
  | p :: protocols =>
    match List.find (λ e, uncased_eq p e.1) upgrade with
    | Some e => Some (e, assoc_swap_remove uncased_eq p upgrade)
    | None => find_upgrade protocols upgrade
    end
  end.

(** [Response::search_upgrades]: [None] is [Err]. *)
Definition search_upgrades (protocols : list str) (self : Response)
  : option (option (str * IoHandler)) * Response :=
  if is_empty (upgrade self) then (Some None, self)
  else
    let have_protocols := negb (is_empty protocols) in
    match find_upgrade (concat ((λ v, trim <$> split_on "," v) <$> protocols)) (upgrade self) with
    | Some (handler, upgrade) =>
      (Some (Some handler), Response_with (resp_status self) (resp_headers self) (body self) upgrade)
    | None => (if have_protocols then None else Some None, self)
    end.

(** [Response::merge]: the upgrades stay. *)
Definition merge (other self : Response) : Response :=
  let status := match resp_status other with Some s => Some s | None => resp_status self end in
  let body := if is_some (body other) then body other else body self in
  let headers := foldl (λ h '(name, values), replace_all name values h)
                   (resp_headers self) (im_entries (resp_headers other)) in
  Response_with status headers body (upgrade self).

(** [Response::join]. *)
Definition response_join (other self : Response) : Response :=
  let status := match resp_status self with None => resp_status other | Some s => Some s end in
  let body := if is_none (body self) then body other else body self in
  let headers := foldl (λ h '(name, values), (add_all name values h).2)
                   (resp_headers self) (im_entries (resp_headers other)) in
  Response_with status headers body (upgrade self).
End Response.

Arguments Response {U} IM IoHandler.

(** ** Lemmas *)

(** Measuring twice measures the same. *)
Lemma measured_twice b : (body_size (body_size b).2).1 = (body_size b).1.
Proof.
  destruct b as [[n|] [r|r|r|] c]; unfold body_size; simpl; try done;
    destruct (seek_size r) eqn:E; simpl; by rewrite ?E.
Qed.

(** A stripped seekable body measures as before. *)
Lemma strip_same_size b r : inner b = Seekable r → (body_size (strip b)).1 = (body_size b).1.
Proof.
  destruct b as [[n|] i c]; simpl; intros ->; unfold body_size, strip; simpl; [done|].
  by destruct (seek_size r).
Qed.

(** Stripping a body leaves nothing to read and keeps the size a client is
    told, except for a body of unknown size; and measuring a body neither
    changes what it reads as nor what it will measure. *)
Theorem strip_keeps_size (b : Body) :
  body_bytes (strip b) = [] ∧
  strip (strip b) = strip b ∧
  (∀ r, inner b = Seekable r → (body_size (strip b)).1 = (body_size b).1) ∧
  body_bytes (body_size b).2 = body_bytes b ∧
  (body_size (body_size b).2).1 = (body_size b).1.
Proof.
  split_and!; [| |apply strip_same_size| |apply measured_twice].
  - by destruct b as [[n|] [r|r|r|] c].
  - by destruct b as [[n|] [r|r|r|] c].
  - destruct b as [[n|] [r|r|r|] c]; unfold body_size; simpl; try done; by destruct (seek_size r).
Qed.

Section response_lemmas.
Context {U : Uncased} {UL : UncasedLaws} {IM : IndexMap str (list str) uncased_eq}
  {IML : IndexMapLaws IM} {IoHandler : Type}.

Lemma get_set_header n h (r : Response IM IoHandler) :
  Header.get n (resp_headers (set_header h r)) =
    if uncased_eq n (header_name h) then [header_value h] else Header.get n (resp_headers r).
Proof.
  unfold set_header, set_header_map, replace. cbn [resp_headers].
  pose proof (get_insert n (header_name h) [header_value h] (resp_headers r)) as Hg.
  by destruct (im_insert _ _ _).
Qed.

Lemma get_foldl_replace_all n es (m : HeaderMap IM) :
  assoc_wf uncased_eq es →
  get n (foldl (λ h '(name, values), replace_all name values h) m es) =
    match assoc_get uncased_eq n es with Some vs => vs | None => get n m end.
Proof.
  revert m. induction es as [|[k vs] es IH]; intros m; [done|]. simpl. intros [Hk Hw].
  rewrite IH by done. unfold replace_all. rewrite get_insert.
  destruct (uncased_eq n k) eqn:E; [|done].
  by rewrite (assoc_get_eq uncased_eq uncased_eq_sym uncased_eq_trans n k), Hk.
Qed.

Lemma get_foldl_add_all n es (m : HeaderMap IM) :
  assoc_wf uncased_eq es →
  get n (foldl (λ h '(name, values), (add_all name values h).2) m es) =
    get n m ++ default [] (assoc_get uncased_eq n es).
Proof.
  revert m. induction es as [|[k vs] es IH]; intros m; simpl; [by rewrite app_nil_r|].
  intros [Hk Hw]. rewrite IH, get_or_default by done.
  destruct (uncased_eq n k) eqn:E; [|done].
  rewrite (assoc_get_eq uncased_eq uncased_eq_sym uncased_eq_trans n k), Hk by done.
  simpl. by rewrite app_nil_r, (get_same n k).
Qed.

(** Merging a response into another overrides its status, body and headers
    where the other one has them; joining only fills in what is missing and
    appends the header values. *)
Theorem merge_join_spec (other self : Response IM IoHandler) (n : str) :
  resp_status (merge other self) =
    match resp_status other with Some s => Some s | None => resp_status self end ∧
  body (merge other self) = (if is_some (body other) then body other else body self) ∧
  get n (resp_headers (merge other self)) =
    (if contains n (resp_headers other) then get n (resp_headers other)
     else get n (resp_headers self)) ∧
  status (response_join other self) =
    (match resp_status self with Some s => s | None => status other end) ∧
  body (response_join other self) = (if is_some (body self) then body self else body other) ∧
  get n (resp_headers (response_join other self)) =
    get n (resp_headers self) ++ get n (resp_headers other).
Proof.
  split_and!; try done.
  - unfold merge. cbn [resp_headers].
    rewrite get_foldl_replace_all by apply im_entries_wf. unfold contains, get.
    rewrite !im_get_spec. by destruct (assoc_get uncased_eq n (im_entries (resp_headers other))).
  - unfold status, response_join. cbn [resp_status]. by destruct (resp_status self).
  - unfold response_join, is_some. cbn [body]. by destruct (is_none (body self)).
  - unfold response_join. cbn [resp_headers].
    rewrite get_foldl_add_all by apply im_entries_wf. unfold get. rewrite !im_get_spec.
    by destruct (assoc_get uncased_eq n (im_entries (resp_headers other))).
Qed.
End response_lemmas.

(** Merging and joining concrete responses. *)
Section witness.
Import Reference HeaderReference.

Example merge_join_witness :
  let html := set_status Status.NotFound (set_header (Header_new (#"A") (#"1")) (response_new (IoHandler:=unit))) in
  let other := set_header (Header_new (#"a") (#"2")) (response_new (IoHandler:=unit)) in
  Header.get (#"A") (resp_headers (merge other html)) = [ #"2"] ∧
  Header.get (#"A") (resp_headers (response_join other html)) = [ #"1"; #"2"].
Proof.
  intros html other.
  destruct (merge_join_spec other html (#"A")) as (_ & _ & Hm & _ & _ & Hj).
  rewrite Hm, Hj. by vm_compute.
Defined.
End witness.
