(* ===== verification/DefaultCatcher.v ===== *)
(** * DefaultCatcher: the error pages of the default catcher
    (core/lib/src/catcher/catcher.rs)

    [default_handler] for a request, given the media type it prefers.  A line
    of a template ends in a line feed; [dq] is the double quote. *)

From S2P Require Import Prelude Crates Header Status Method MediaType UriTables MediaParse.
From S2P Require Import Uri Route Request Response.

Definition dq : str := ["034"%char].
Definition quoted (s : str) : str := dq ++ s ++ dq.
Definition lines (ls : list str) : str := join "010" ls.

(** [html_error_template!]. *)
Definition html_error_template (code reason description : str) : str :=
  lines [ #"<!DOCTYPE html>";
    #"<html lang=" ++ quoted (#"en") ++ #">";
    #"<head>";
    #"    <meta charset=" ++ quoted (#"utf-8") ++ #">";
    #"    <meta name=" ++ quoted (#"color-scheme") ++ #" content=" ++ quoted (#"light dark") ++ #">";
    #"    <title>" ++ code ++ #" " ++ reason ++ #"</title>";
    #"</head>";
    #"<body align=" ++ quoted (#"center") ++ #">";
    #"    <div role=" ++ quoted (#"main") ++ #" align=" ++ quoted (#"center") ++ #">";
    #"        <h1>" ++ code ++ #": " ++ reason ++ #"</h1>";
    #"        <p>" ++ description ++ #"</p>";
    #"        <hr />";
    #"    </div>";
    #"    <div role=" ++ quoted (#"contentinfo") ++ #" align=" ++ quoted (#"center") ++ #">";
    #"        <small>Rocket</small>";
    #"    </div>";
    #"</body>";
    #"</html>" ].

(** [json_error_template!]; [json_error_fmt_template!] formats to the same. *)
Definition json_error_template (code reason description : str) : str :=
  lines [ #"{";
    #"  " ++ quoted (#"error") ++ #": {";
    #"    " ++ quoted (#"code") ++ #": " ++ code ++ #",";
    #"    " ++ quoted (#"reason") ++ #": " ++ quoted reason ++ #",";
    #"    " ++ quoted (#"description") ++ #": " ++ quoted description;
    #"  }";
    #"}" ].

(** The table of [default_handler_fn!]: code, reason, description. *)
Definition error_table : list (Z * str * str) :=
  [ (400, #"Bad Request",
     #"The request could not be understood by the server due to malformed syntax.");
    (401, #"Unauthorized",
     #"The request requires user authentication.");
    (402, #"Payment Required",
     #"The request could not be processed due to lack of payment.");
    (403, #"Forbidden",
     #"The server refused to authorize the request.");
    (404, #"Not Found",
     #"The requested resource could not be found.");
    (405, #"Method Not Allowed",
     #"The request method is not supported for the requested resource.");
    (406, #"Not Acceptable",
     #"The requested resource is capable of generating only content not acceptable according to the Accept headers sent in the request.");
    (407, #"Proxy Authentication Required",
     #"Authentication with the proxy is required.");
    (408, #"Request Timeout",
     #"The server timed out waiting for the request.");
    (409, #"Conflict",
     #"The request could not be processed because of a conflict in the request.");
    (410, #"Gone",
     #"The resource requested is no longer available and will not be available again.");
    (411, #"Length Required",
     #"The request did not specify the length of its content, which is required by the requested resource.");
    (412, #"Precondition Failed",
     #"The server does not meet one of the preconditions specified in the request.");
    (413, #"Payload Too Large",
     #"The request is larger than the server is willing or able to process.");
    (414, #"URI Too Long",
     #"The URI provided was too long for the server to process.");
    (415, #"Unsupported Media Type",
     #"The request entity has a media type which the server or resource does not support.");
    (416, #"Range Not Satisfiable",
     #"The portion of the requested file cannot be supplied by the server.");
    (417, #"Expectation Failed",
     #"The server cannot meet the requirements of the Expect request-header field.");
    (418, #"I'm a teapot",
     #"I was requested to brew coffee, and I am a teapot.");
    (421, #"Misdirected Request",
     #"The server cannot produce a response for this request.");
    (422, #"Unprocessable Entity",
     #"The request was well-formed but was unable to be followed due to semantic errors.");
    (426, #"Upgrade Required",
     #"Switching to the protocol in the Upgrade header field is required.");
    (428, #"Precondition Required",
     #"The server requires the request to be conditional.");
    (429, #"Too Many Requests",
     #"Too many requests have been received recently.");
    (431, #"Request Header Fields Too Large",
     #"The server is unwilling to process the request because either an individual header field, or all the header fields collectively, are too large.");
    (451, #"Unavailable For Legal Reasons",
     #"The requested resource is unavailable due to a legal demand to deny access to this resource.");
    (500, #"Internal Server Error",
     #"The server encountered an internal error while processing this request.");
    (501, #"Not Implemented",
     #"The server either does not recognize the request method, or it lacks the ability to fulfill the request.");
    (503, #"Service Unavailable",
     #"The server is currently unavailable.");
    (504, #"Gateway Timeout",
     #"The server did not receive a timely response from an upstream server.");
    (510, #"Not Extended",
     #"Further extensions to the request are required for the server to fulfill it.") ]%Z.

Definition error_row (code : Z) : option (str * str) :=
  (λ row, (row.1.2, row.2)) <$> List.find (λ row, row.1.1 =? code)%Z error_table.

(** The text of the page for a code: its row, or an unknown error. *)
Definition error_text (template : str → str → str → str) (code : Z) : str :=
  let code_text := decimal_text (Z.to_nat code) in
  match error_row code with
  | Some (reason, description) => template code_text reason description
  | None => template code_text (#"Unknown Error") (#"An unknown error has occurred.")
  end.

Section default_handler.
Context {U : Uncased} {P : Pear} {PC : PearCombinators} {IM : IndexMap str (list str) uncased_eq}.
Context {IoHandler : Type}.

(** [impl From<ContentType> for Header]. *)
Definition content_type_header (m : MediaType) : Header :=
  match known_source m with
  | Some src => Header_new (#"Content-Type") src
  | None => Header_new (#"Content-Type") (media_type_to_string m)
  end.

(** [default_handler]. *)
Definition default_handler (s : Status) (req : Request IM) : Response IM IoHandler :=
  let preferred := preferred <$> accept req in
  let '(mime, text) :=
    if match preferred with
       | Some a => media_type_eq (media_type a) (media_type_of JSON)
       | None => false
       end
    then (media_type_of JSON, error_text json_error_template (code s))
    else (media_type_of HTML, error_text html_error_template (code s)) in
  let r := set_header (content_type_header mime) (set_status s response_new) in
  set_sized_body (Some (length text)) (Reader_new text (Some (length text))) r.
End default_handler.

Lemma lookup_find {A} (P : A → bool) l x : List.find P l = Some x → x ∈ l ∧ P x = true.
Proof. rewrite list_elem_of_In. apply find_some. Qed.

(** The reasons of the table are those of [Status]. *)
Lemma error_row_reason code reason description :
  error_row code = Some (reason, description) →
  Status.reason (Status_new code) = Some reason ∧ (400 ≤ code < 600)%Z.
Proof.
  unfold error_row. intros ([[c r] d] & Hf & [= -> ->])%fmap_Some.
  apply lookup_find in Hf as [Hin Hc%Z.eqb_eq]. cbn [fst] in Hc. subst c.
  assert (forallb (λ row, bool_decide (Status.reason (Status_new row.1.1) = Some row.1.2)
            && (400 <=? row.1.1)%Z && (row.1.1 <? 600)%Z) error_table = true) as Ht
    by (by vm_compute).
  rewrite forallb_forall in Ht. apply list_elem_of_In in Hin. specialize (Ht _ Hin).
  cbn [fst snd] in Ht. rewrite !andb_true_iff, bool_decide_eq_true, Z.leb_le, Z.ltb_lt in Ht.
  naive_solver.
Qed.

Section default_handler_spec.
Context {U : Uncased} {UL : UncasedLaws} {P : Pear} {PC : PearCombinators}
  {IM : IndexMap str (list str) uncased_eq} {IML : IndexMapLaws IM} {IoHandler : Type}.

(** The default catcher's response has the status asked for and a body of
    known size: a JSON document exactly when the request prefers JSON, and an
    HTML page otherwise, labelled as such, that tells the code and, where the
    catcher has a text for it, the reason of the status. *)
Theorem default_handler_spec (s : Status) (req : Request IM) :
  let r : Response IM IoHandler := default_handler s req in
  let json := match accept req with
              | Some a => media_type_eq (media_type (preferred a)) (media_type_of JSON)
              | None => false
              end in
  let template := if json then json_error_template else html_error_template in
  Response.status r = s ∧
  Header.get (#"Content-Type") (resp_headers r) =
    [ if json then #"application/json" else #"text/html; charset=utf-8"] ∧
  (body_size (body r)).1 = Some (length (body_bytes (body r))) ∧
  (∀ reason description, error_row (code s) = Some (reason, description) →
   Status.reason s = Some reason ∧
   body_bytes (body r) = template (decimal_text (Z.to_nat (code s))) reason description) ∧
  (error_row (code s) = None →
   body_bytes (body r) = template (decimal_text (Z.to_nat (code s))) (#"Unknown Error")
     (#"An unknown error has occurred.")).
Proof.
  intros r json template.
  assert (r = set_sized_body (Some (length (error_text template (code s))))
    (Reader_new (error_text template (code s)) (Some (length (error_text template (code s)))))
    (set_header (content_type_header (media_type_of (if json then JSON else HTML)))
       (set_status s response_new))) as ->.
  { unfold r, default_handler, template, json. destruct (accept req) as [a|]; simpl; [|done].
    by destruct (media_type_eq _ _). }
  split_and!; [done| |done| |].
  - etransitivity; [apply get_set_header|].
    destruct json; unfold content_type_header; simpl; by rewrite uncased_eq_refl.
  - intros reason description Hr. destruct (error_row_reason _ _ _ Hr) as [Hs _].
    split; [by destruct s|]. cbn. unfold error_text. by rewrite Hr.
  - intros Hr. cbn. unfold error_text. by rewrite Hr.
Qed.
End default_handler_spec.

Section witness.
Import Reference PearReference PearCombinatorsReference HeaderReference.

Example default_handler_witness :
  let req : Request header_index :=
    add_header (Header_new (#"Accept") (#"application/json")) (request_new false None Get root) in
  let r : Response header_index unit := default_handler Status.NotFound req in
  Response.status r = Status.NotFound ∧
  Header.get (#"Content-Type") (resp_headers r) = [ #"application/json"].
Proof.
  intros req r. destruct (default_handler_spec (IoHandler:=unit) Status.NotFound req) as (Hs & Hc & _).
  split; [exact Hs|]. etransitivity; [exact Hc|]. by vm_compute.
Defined.
End witness.
