(* ===== verification/Responders.v ===== *)
(** * Responders: what makes values into responses
    (core/lib/src/response/responder.rs, content.rs, status.rs, debug.rs,
    redirect.rs, flash.rs, the [Responder]s of response/stream)

    A responder is an instance of the class; it sees the cookie jar of the
    request, which [Flash] writes to.  A body in memory is a reader that knows
    its size. *)

From S2P Require Import Prelude Outcome Crates Header Status Method MediaType UriTables MediaParse.
From S2P Require Import Uri UriForms Route Request Cookies Response DefaultCatcher.

Section Responders.
Context {U : Uncased} {P : Pear} {PC : PearCombinators} {IM : IndexMap str (list str) uncased_eq}.
Context {CC : CookieCrate} {IoHandler : Type}.

(** [response::Result]. *)
Definition Result : Type := Response IM IoHandler + Status.

Class Responder (R : Type) := respond_to : R → Request IM → CookieJar → Result * CookieJar.

(** A responder that leaves the jar alone. *)
Definition respond (r : Result) (jar : CookieJar) : Result * CookieJar := (r, jar).

(** ** Values *)

(** [std::io::Cursor::new] as a body. *)
Definition cursor (s : str) : Reader := Reader_new s (Some (length s)).

(** The common body of the responders of strings and of bytes. *)
Definition sized_response (m : KnownMediaType) (s : str) : Response IM IoHandler :=
  set_sized_body (Some (length s)) (cursor s) (set_header (content_type_header (media_type_of m)) response_new).

(** [&str], [String], [Arc<str>], [Box<str>]; [&[u8]], [Vec<u8>] and so on. *)
Record Text := Text_new { text : str }.
Record Bytes := Bytes_new { contents : str }.

#[export] Instance text_respond_to : Responder Text := λ self _, respond (inl (sized_response Plain (text self))).
#[export] Instance bytes_respond_to : Responder Bytes :=
  λ self _, respond (inl (sized_response Binary (contents self))).

(** [tokio::fs::File]: a body whose size is found by seeking. *)
Record File := File_new { file : Reader }.
#[export] Instance file_respond_to : Responder File :=
  λ self _, respond (inl (set_sized_body None (file self) response_new)).

#[export] Instance unit_respond_to : Responder unit := λ _ _, respond (inl response_new).

#[export] Instance option_respond_to `{Responder R} : Responder (option R) := λ self req jar,
  match self with
  | Some r => respond_to r req jar
  | None => respond (inr Status.NotFound) jar
  end.

(** [Result<T, E>] and [Either<T, E>]. *)
#[export] Instance sum_respond_to `{Responder T} `{Responder E} : Responder (T + E) := λ self req jar,
  match self with
  | inl r => respond_to r req jar
  | inr r => respond_to r req jar
  end.

#[export] Instance status_respond_to : Responder Status := λ self _,
  respond match class self with
          | ClientError | ServerError => inr self
          | Success =>
            if (code self <? 206)%Z then inl (set_status self response_new) else inr Status.InternalServerError
          | Informational =>
            if (code self =? 100)%Z then inl (set_status self response_new) else inr Status.InternalServerError
          | _ => inr Status.InternalServerError
          end.

(** [Debug] and [io::Error]. *)
Inductive Debug := Debug_new.
#[export] Instance debug_respond_to : Responder Debug := λ _ _, respond (inr Status.InternalServerError).

(** [responder.respond_to(req)?], then building on the response. *)
Definition then_build (f : Response IM IoHandler → Response IM IoHandler) (r : Result * CookieJar)
  : Result * CookieJar :=
  match r with
  | (inl response, jar) => (inl (f response), jar)
  | (inr status, jar) => (inr status, jar)
  end.

(** ** Content types (content.rs) *)

(** [(ContentType, R)], and the wrappers that fix one. *)
#[export] Instance content_respond_to `{Responder R} : Responder (MediaType * R) := λ self req jar,
  then_build (λ r, set_header (content_type_header self.1) (merge r response_new)) (respond_to self.2 req jar).

Inductive Content := RawJson | RawXml | RawMsgPack | RawHtml | RawText | RawCss | RawJavaScript.

Definition content_type_of (c : Content) : KnownMediaType :=
  match c with
  | RawJson => JSON | RawXml => XML | RawMsgPack => MsgPack | RawHtml => HTML
  | RawText => MediaType.Text | RawCss => CSS | RawJavaScript => JavaScript
  end.

#[export] Instance raw_content_respond_to `{Responder R} : Responder (Content * R) := λ self req jar,
  respond_to (media_type_of (content_type_of self.1), self.2) req jar.

(** ** Statuses (status.rs) *)

Record Custom (R : Type) := Custom_new { custom_status : Status; custom_inner : R }.
#[export] Instance custom_respond_to `{Responder R} : Responder (Custom R) := λ self req jar,
  then_build (set_status (custom_status _ self)) (respond_to (custom_inner _ self) req jar).

(** [(Status, R)]. *)
#[export] Instance status_pair_respond_to `{Responder R} : Responder (Status * R) := λ self req jar,
  respond_to (Custom_new R self.1 self.2) req jar.

(** The wrappers [status_response!] declares. *)
Inductive StatusWrapper := Accepted | BadRequest | Unauthorized | Forbidden | NotFound | Conflict.

Definition wrapper_status (w : StatusWrapper) : Status :=
  match w with
  | Accepted => Status.Accepted | BadRequest => Status.BadRequest
  | Unauthorized => Status.Unauthorized | Forbidden => Status.Forbidden
  | NotFound => Status.NotFound | Conflict => Status.Conflict
  end.

#[export] Instance wrapper_respond_to `{Responder R} : Responder (StatusWrapper * R) := λ self req jar,
  respond_to (Custom_new R (wrapper_status self.1) self.2) req jar.

Inductive NoContent := NoContent_new.
#[export] Instance no_content_respond_to : Responder NoContent :=
  λ _ _, respond (inl (set_status Status.NoContent response_new)).

(** [Created]: the location, the responder of the body and its hash, which
    [DefaultHasher] computes. *)
Record Created (R : Type) := Created_with { location : str; created_body : option R; etag : option nat }.

Definition created_new {R} (location : str) : Created R := Created_with R location None None.
Definition with_body {R} (responder : R) (self : Created R) : Created R :=
  Created_with R (location _ self) (Some responder) (etag _ self).
Definition tagged_body {R} (hash : R → nat) (responder : R) (self : Created R) : Created R :=
  Created_with R (location _ self) (Some responder) (Some (hash responder)).

Definition dq : ascii := "034".

#[export] Instance created_respond_to `{Responder R} : Responder (Created R) := λ self req jar,
  then_build (λ response,
    let response := match etag _ self with
                    | Some hash => set_raw_header (#"ETag") (dq :: decimal_text hash ++ [dq]) response
                    | None => response
                    end in
    set_raw_header (#"Location") (location _ self) (set_status Status.Created response))
    (match created_body _ self with
     | Some r => then_build (λ r, merge r response_new) (respond_to r req jar)
     | None => (inl response_new, jar)
     end).

(** ** Redirects (redirect.rs) *)

(** The URI is [None] when it was invalid. *)
Record Redirect := Redirect_new { redirect_status : Status; redirect_uri : option Reference }.

Definition to (uri : option Reference) : Redirect := Redirect_new Status.SeeOther uri.
Definition temporary (uri : option Reference) : Redirect := Redirect_new Status.TemporaryRedirect uri.
Definition permanent (uri : option Reference) : Redirect := Redirect_new Status.PermanentRedirect uri.
Definition found (uri : option Reference) : Redirect := Redirect_new Status.Found uri.
Definition moved (uri : option Reference) : Redirect := Redirect_new Status.MovedPermanently uri.
Definition map_uri (f : Reference → option Reference) (self : Redirect) : Redirect :=
  Redirect_new (redirect_status self) (redirect_uri self ≫= f).

#[export] Instance redirect_respond_to : Responder Redirect := λ self _,
  respond match redirect_uri self with
          | Some uri => inl (set_raw_header (#"Location") (reference_to_string uri)
                              (set_status (redirect_status self) response_new))
          | None => inr Status.InternalServerError
          end.

(** ** Streams (response/stream) *)

(** [ReaderStream], [ByteStream], [TextStream], [EventStream]: the reader is
    what reading the stream yields. *)
Inductive StreamKind := ReaderStream | ByteStream | TextStream | EventStream.

#[export] Instance stream_respond_to : Responder (StreamKind * Reader) := λ self _,
  respond (inl (set_streamed_body self.2
    match self.1 with
    | ReaderStream => response_new
    | ByteStream => set_header (content_type_header (media_type_of Binary)) response_new
    | TextStream => set_header (content_type_header (media_type_of MediaType.Text)) response_new
    | EventStream =>
      set_raw_header (#"Expires") (#"0")
        (set_raw_header (#"Cache-Control") (#"no-cache")
          (set_header (content_type_header (media_type_of MediaType.EventStream)) response_new))
    end)).
End Responders.
