(* ===== verification/Flash.v ===== *)
(** * Flash: messages for the next request (core/lib/src/response/flash.rs)

    A responder that also sets a cookie with a kind and a message, and the
    guard that reads it back.  The request's jar is threaded; slicing a string
    off a character boundary panics, which is [None]. *)

From S2P Require Import Prelude Outcome Crates Header Status Method MediaType UriTables MediaParse.
From S2P Require Import Uri Route Request Cookies Response Responders.

(** [str::is_char_boundary]: the byte at the offset does not continue a
    character. *)
Definition is_char_boundary (i : nat) (s : str) : bool :=
  (i =? 0)%nat || (i =? length s)%nat ||
  match s !! i with
  | Some c => negb ((128 <=? nat_of_ascii c)%nat && (nat_of_ascii c <=? 191)%nat)
  | None => false
  end.

(** More of the [cookie] crate: values, cookies of a name and a value, and of
    a name alone, and their age in seconds. *)
Class CookieValues `{CookieCrate} := {
  cookie_value : cookie → str;
  cookie_build : str → str → cookie;
  cookie_named : str → cookie;
  set_max_age : Z → cookie → cookie;
}.

Class CookieValuesLaws `{CookieValues} : Prop := {
  cookie_build_name n v : cookie_name (cookie_build n v) = n;
  cookie_build_value n v : cookie_value (cookie_build n v) = v;
  cookie_named_name n : cookie_name (cookie_named n) = n;
  set_max_age_name a c : cookie_name (set_max_age a c) = cookie_name c;
  set_max_age_value a c : cookie_value (set_max_age a c) = cookie_value c;
  set_path_value p c : cookie_value (set_path p c) = cookie_value c;
  set_same_site_value s c : cookie_value (set_same_site s c) = cookie_value c;
  set_secure_value b c : cookie_value (set_secure b c) = cookie_value c;
}.

Definition FLASH_COOKIE_NAME : str := #"_flash".
Definition FLASH_COOKIE_DELIM : ascii := ":".

Record Flash (R : Type) := Flash_with { kind : str; message : str; consumed : bool; inner : R }.
Arguments Flash_with {R}.
Arguments kind {R}.
Arguments message {R}.
Arguments consumed {R}.
Arguments inner {R}.

Section Flash.
Context {U : Uncased} {P : Pear} {PC : PearCombinators} {IM : IndexMap str (list str) uncased_eq}.
Context {CC : CookieCrate} {CV : CookieValues} {IoHandler : Type}.

(** [Flash::new], [success], [warning], [error]. *)
Definition flash_new {R} (res : R) (kind message : str) : Flash R := Flash_with kind message false res.
Definition flash_success {R} (responder : R) (message : str) : Flash R :=
  flash_new responder (#"success") message.
Definition flash_warning {R} (responder : R) (message : str) : Flash R :=
  flash_new responder (#"warning") message.
Definition flash_error {R} (responder : R) (message : str) : Flash R :=
  flash_new responder (#"error") message.

(** [Flash::cookie], which lives five minutes. *)
Definition flash_cookie {R} (self : Flash R) : cookie :=
  let content := decimal_text (length (kind self)) ++ FLASH_COOKIE_DELIM :: kind self ++ message self in
  set_max_age (5 * 60) (cookie_build FLASH_COOKIE_NAME content).

#[export] Instance flash_respond_to {R : Type} {RR : Responder (IM := IM) (IoHandler := IoHandler) R} :
    Responder (IM := IM) (IoHandler := IoHandler) (Flash R) := λ self req jar,
  respond_to (inner self) req (cookies_add (flash_cookie self) jar).

(** [FlashMessage]; the inner value is the request's jar, which is threaded. *)
Definition FlashMessage : Type := Flash unit.

Definition named (kind message : str) : FlashMessage := Flash_with kind message false tt.

(** [clear_cookie_if_needed]. *)
Definition clear_cookie_if_needed (self : FlashMessage) (jar : CookieJar) : FlashMessage * CookieJar :=
  (Flash_with (kind self) (message self) true tt,
   if consumed self then jar else cookies_remove (cookie_named FLASH_COOKIE_NAME) jar).

(** [into_inner], [kind], [message]. *)
Definition into_inner (self : FlashMessage) (jar : CookieJar) : (str * str) * CookieJar :=
  let '(self, jar) := clear_cookie_if_needed self jar in ((kind self, message self), jar).
Definition flash_kind (self : FlashMessage) (jar : CookieJar) : str * FlashMessage * CookieJar :=
  let '(self, jar) := clear_cookie_if_needed self jar in (kind self, self, jar).
Definition flash_message (self : FlashMessage) (jar : CookieJar) : str * FlashMessage * CookieJar :=
  let '(self, jar) := clear_cookie_if_needed self jar in (message self, self, jar).

(** [FlashMessage::from_request]; [None] is a panic. *)
Definition parse_flash (content : str) : option (FlashMessage + unit) :=
  match find_byte FLASH_COOKIE_DELIM content with
  | None => Some (inr tt)
  | Some i =>
    let len_str := take i content in
    let kv := drop (i + 1) content in
    match parse_unsigned usize_max len_str with
    | Some i =>
      if (i <=? Z.of_nat (length kv))%Z then
        let i := Z.to_nat i in
        if is_char_boundary i kv then Some (inl (named (take i kv) (drop i kv))) else None
      else Some (inr tt)
    | None => Some (inr tt)
    end
  end.

Definition from_request (jar : CookieJar) : option (Outcome FlashMessage (Status * unit) Status) :=
  match cookies_get FLASH_COOKIE_NAME jar with
  | None => Some (Outcome.result_or_error (inr tt) Status.BadRequest)
  | Some cookie =>
    (λ r, Outcome.result_or_error r Status.BadRequest) <$> parse_flash (cookie_value cookie)
  end.
End Flash.

(** ** Lemmas *)

Lemma parse_digits_range max acc s z : (0 ≤ acc)%Z → parse_digits max acc s = Some z → (0 ≤ z)%Z.
Proof.
  revert acc. induction s as [|c s IH]; intros acc Ha; simpl; [by intros [= <-]|].
  destruct (is_digit c) eqn:Hc; [|done]. destruct (_ <=? max)%Z; [|done]. apply IH.
  unfold is_digit in Hc. apply andb_true_iff in Hc as [Hc%Nat.leb_le _]. lia.
Qed.

Lemma parse_unsigned_nonneg max s z : parse_unsigned max s = Some z → (0 ≤ z)%Z.
Proof.
  unfold parse_unsigned. destruct s as [|c s]; [done|]. repeat case_match; try done;
    intros Hz; by eapply parse_digits_range in Hz.
Qed.

(** Well-formed text begins with no continuation byte. *)
Lemma utf8_boundary k m : is_utf8 k = true → is_utf8 m = true → is_char_boundary (length k) (k ++ m) = true.
Proof.
  intros _ Hm. unfold is_char_boundary. destruct m as [|c m].
  - rewrite app_nil_r, Nat.eqb_refl. by rewrite orb_true_r.
  - rewrite lookup_app_r, Nat.sub_diag by lia. cbn [lookup list_lookup]. apply orb_true_iff. right.
    unfold is_utf8 in Hm. cbn [utf8_from] in Hm. unfold utf8_lead in Hm. cbv zeta in Hm.
    destruct (Nat.ltb_spec (nat_of_ascii c) 128); [|destruct (Nat.ltb_spec (nat_of_ascii c) 194); [simpl in Hm; done|]].
    + destruct (Nat.leb_spec 128 (nat_of_ascii c)); [lia|done].
    + destruct (Nat.leb_spec (nat_of_ascii c) 191); [lia|]. by rewrite andb_false_r.
Qed.

Section flash_laws.
Context {CC : CookieCrate} {CV : CookieValues} `{!CookieValuesLaws} `{!CookieCrateLaws}.

Lemma set_defaults_value jar c : cookie_value (set_defaults jar c) = cookie_value c.
Proof.
  unfold set_defaults. destruct (cookie_path c); destruct (cookie_same_site _); case_match;
    by rewrite ?set_secure_value, ?set_same_site_value, ?set_path_value.
Qed.

Lemma flash_cookie_value {R} (f : Flash R) :
  cookie_value (flash_cookie f) =
    decimal_text (length (kind f)) ++ FLASH_COOKIE_DELIM :: kind f ++ message f.
Proof. unfold flash_cookie. by rewrite set_max_age_value, cookie_build_value. Qed.

Lemma flash_cookie_name {R} (f : Flash R) : cookie_name (flash_cookie f) = FLASH_COOKIE_NAME.
Proof. unfold flash_cookie. by rewrite set_max_age_name, cookie_build_name. Qed.

(** A content that has the length of a kind before the delimiter. *)
Lemma parse_flash_split len k m :
  FLASH_COOKIE_DELIM ∉ len → parse_unsigned usize_max len = Some (Z.of_nat (length k)) →
  parse_flash (len ++ FLASH_COOKIE_DELIM :: k ++ m) =
    if is_char_boundary (length k) (k ++ m) then Some (inl (named k m)) else None.
Proof.
  intros Hd Hl. unfold parse_flash. rewrite find_byte_app, take_app_length, Hl by done.
  rewrite drop_app_ge by lia. replace (length len + 1 - length len) with 1 by lia.
  cbn [drop]. rewrite drop_0, length_app, Nat2Z.id.
  destruct (Z.leb_spec (Z.of_nat (length k)) (Z.of_nat (length k + length m))); [|lia].
  by rewrite take_app_length, drop_app_length.
Qed.

(** What parses, and what panics. *)
Lemma parse_flash_inv content r :
  parse_flash content = r → r ≠ Some (inr tt) →
  ∃ len k m, content = len ++ FLASH_COOKIE_DELIM :: k ++ m ∧ (FLASH_COOKIE_DELIM ∉ len) ∧
    parse_unsigned usize_max len = Some (Z.of_nat (length k)) ∧
    r = if is_char_boundary (length k) (k ++ m) then Some (inl (named k m)) else None.
Proof.
  intros <- Hr. unfold parse_flash in *. destruct (find_byte _ content) as [i|] eqn:Hf; [|done].
  apply find_byte_Some in Hf as (Hc & Hd & Hi). rewrite Nat.add_1_r in *.
  destruct (parse_unsigned _ _) as [z|] eqn:Hz; [|done].
  destruct (Z.leb_spec z (Z.of_nat (length (drop (S i) content)))) as [Hle|]; [|done].
  pose proof (parse_unsigned_nonneg _ _ _ Hz) as Hnn.
  set (kv := drop (S i) content) in *. exists (take i content), (take (Z.to_nat z) kv), (drop (Z.to_nat z) kv).
  assert (length (take (Z.to_nat z) kv) = Z.to_nat z) as -> by (rewrite length_take; lia).
  rewrite Z2Nat.id, take_drop by done. done.
Qed.

Definition flash_outcome (r : FlashMessage + unit) : Outcome FlashMessage (Status * unit) Status :=
  Outcome.result_or_error r Status.BadRequest.

End flash_laws.

Module FlashReference.
Import CookieReference.

#[export] Instance cookie_values_ref : CookieValues := {|
  cookie_value := rec_value;
  cookie_build n v := Cookie_new n v None None None : cookie;
  cookie_named n := Cookie_new n [] None None None : cookie;
  set_max_age _ c := c |}.
#[export] Instance cookie_values_laws : CookieValuesLaws.
Proof. by split. Qed.
End FlashReference.

(** A message that contains the delimiter and the length of its kind. *)
Section witness.
Import CookieReference FlashReference.

Definition forged (v : str) : CookieJar :=
  jar_init (Some (jar_add_original (cookie_build FLASH_COOKIE_NAME v) jar_new)) false.

End witness.
