(* ===== verification/FileServer.v ===== *)
(** * FileServer: serving files (core/lib/src/fs/server.rs, rewrite.rs,
    file_name.rs)

    The rewriters that turn the path of a request into the file to open, and
    the handler that runs them.  The file system is a class of operations; its
    answers may differ from one request to the next, so that nothing is assumed
    of it. *)

From S2P Require Import Prelude Outcome Crates RawStr Header Status Method MediaType UriTables.
From S2P Require Import MediaParse Uri UriForms Route Request Data Cookies Response DefaultCatcher.
From S2P Require Import Responders.

(** ** Paths (the Unix [std::path::Path]) *)

(** [Path::iter]: the root, then the components; a [.] counts only at the start
    of a relative path. *)
Definition path_iter (p : str) : list str :=
  let normal := List.filter (λ c, nonempty c && negb (bool_decide (c = #"."))) in
  if starts_with [slash] p then [slash] :: normal (split_on slash p)
  else match split_on slash p with
       | c :: cs => if bool_decide (c = #".") then c :: normal cs else normal (c :: cs)
       | [] => []
       end.

(** [Path::join]. *)
Definition path_join (self p : str) : str := pathbuf_push self p.

(** [Path::file_name] and [Path::extension]. *)
Definition path_file_name (p : str) : option str :=
  match last (path_iter p) with
  | Some c => if bool_decide (c = [slash]) || bool_decide (c = #"..") || bool_decide (c = #".")
              then None else Some c
  | None => None
  end.

Definition path_extension (p : str) : option str :=
  file ← path_file_name p;
  match find_byte "." (reverse file) with
  | Some i =>
    let before := take (length file - S i) file in
    if is_empty before then None else Some (drop (length file - i) file)
  | None => None
  end.

(** [OsStr::to_str]. *)
Definition to_str (s : str) : option str := if is_utf8 s then Some s else None.

(** ** The file system *)

(** What opening a file finds: whether its metadata says it is a directory,
    its length, and its content. *)
Record OpenFile := OpenFile_new { is_directory : bool; file_len : nat; file_reader : Reader }.

Class FileSystem := {
  exists_ : str → bool;
  is_dir : str → bool;
  is_file : str → bool;
  open_file : str → option OpenFile;
}.

Section fs.
Context {U : Uncased} {P : Pear} {PC : PearCombinators} {IM : IndexMap str (list str) uncased_eq}.
Context {SP : StablePattern} {M : Memchr} {PE : PercentEncoding} {CC : CookieCrate}.
Context {FS : FileSystem} {IoHandler : Type}.

(** ** Rewrites *)

(** [struct File], [enum Rewrite]. *)
Record File := File_with { file_path : str; file_headers : HeaderMap IM }.

Inductive Rewrite :=
  | RewriteFile (f : File)
  | RewriteRedirect (r : Redirect).

(** [File::new], [checked], whose panic is [None], [map_path], [is_hidden] and
    [is_visible]. *)
Definition file_new (path : str) : File := File_with path header_map_new.
Definition file_checked (path : str) : option File := if exists_ path then Some (file_new path) else None.
Definition map_path (f : str → str) (self : File) : File := File_with (f (file_path self)) (file_headers self).
Definition is_hidden (self : File) : bool := existsb (starts_with ["."%char]) (path_iter (file_path self)).
Definition is_visible (self : File) : bool := negb (is_hidden self).

(** [trait Rewriter]; as a whole [None] when it panics. *)
Definition Rewriter : Type := option Rewrite → Request IM → option (option Rewrite).

(** [Prefix::checked], whose panic is [None], [unchecked] and its rewriter. *)
Definition prefix_checked (path : str) : option str := if is_dir path then Some path else None.
Definition prefix_unchecked (path : str) : str := path.

Definition prefix (root : str) : Rewriter := λ opt _,
  Some ((λ r, match r with
              | RewriteFile f => RewriteFile (map_path (path_join root) f)
              | RewriteRedirect r => RewriteRedirect r
              end) <$> opt).

(** The rewriters [PathBuf], [Rewrite], [File] and [Redirect], constants. *)
Definition constant (r : Rewrite) : Rewriter := λ _ _, Some (Some r).
Definition path_rewriter (path : str) : Rewriter := constant (RewriteFile (file_new path)).

Definition trailing_dirs : Rewriter := λ opt req,
  match opt with
  | Some (RewriteFile f) =>
    if negb (ends_with [slash] (path (req_uri req))) && is_dir (file_path f) then
      uri ← Uri.map_path (λ p, p ++ [slash]) (req_uri req);
      Some (Some (RewriteRedirect (temporary (Some (reference_of_origin uri)))))
    else Some opt
  | _ => Some opt
  end.

(** [struct DirIndex]. *)
Record DirIndex := DirIndex_new { index_path : str; index_check : bool }.

Definition unconditional (path : str) : DirIndex := DirIndex_new path false.
Definition if_exists (path : str) : DirIndex := DirIndex_new path true.

Definition dir_index (self : DirIndex) : Rewriter := λ opt _,
  match opt with
  | None => Some None
  | Some (RewriteFile f) =>
    if is_dir (file_path f) then
      let candidate := path_join (file_path f) (index_path self) in
      if index_check self && negb (is_file candidate) then Some (Some (RewriteFile f))
      else Some (Some (RewriteFile (map_path (const candidate) f)))
    else Some (Some (RewriteFile f))
  | Some r => Some (Some r)
  end.

(** ** The server *)

(** [struct FileServer]. *)
Record FileServer := FileServer_with { rewrites : list Rewriter; server_rank : Z }.

Definition DEFAULT_RANK : Z := 10.

Definition identity : FileServer := FileServer_with [] DEFAULT_RANK.
Definition with_rank (rank : Z) (self : FileServer) : FileServer := FileServer_with (rewrites self) rank.
Definition rewrite (r : Rewriter) (self : FileServer) : FileServer :=
  FileServer_with (rewrites self ++ [r]) (server_rank self).

Definition filter_rewriter (f : File → Request IM → bool) : Rewriter := λ opt req,
  Some (match opt with
        | Some (RewriteFile file) => if f file req then Some (RewriteFile file) else None
        | _ => None
        end).

Definition filter (f : File → Request IM → bool) (self : FileServer) : FileServer :=
  rewrite (filter_rewriter f) self.

Definition map_rewriter (f : File → Request IM → Rewrite) : Rewriter := λ opt req,
  Some ((λ r, match r with
              | RewriteFile file => f file req
              | RewriteRedirect r => RewriteRedirect r
              end) <$> opt).

Definition map (f : File → Request IM → Rewrite) (self : FileServer) : FileServer :=
  rewrite (map_rewriter f) self.

(** [FileServer::new] and [without_index]; the panic of [Prefix::checked] is
    [None]. *)
Definition server_new (path : str) : option FileServer :=
  root ← prefix_checked path;
  Some (rewrite (dir_index (unconditional (#"index.html")))
    (rewrite trailing_dirs (rewrite (prefix root) (filter (λ f _, is_visible f) identity)))).

Definition without_index (path : str) : option FileServer :=
  root ← prefix_checked path;
  Some (rewrite trailing_dirs (rewrite (prefix root) (filter (λ f _, is_visible f) identity))).

(** [impl From<FileServer> for Vec<Route>]. *)
Definition server_routes (server : FileServer) : option (list (Route FileServer)) :=
  r ← ranked (Some (server_rank server)) (Some Get) (#"/<path..>") server;
  Some [Route_with FileServer (Some (#"FileServer")) (Route.method r) (Route.handler r) (route_uri r)
          (Route.rank r) (Route.format r) (Route.sentinels r) (Route.location r)].

(** [File::open] with [NamedFile::respond_to]: the error is an I/O error's
    response. *)
Definition named_file_response (path : str) (headers : HeaderMap IM) (len : nat) (reader : Reader)
  : Response IM IoHandler :=
  let response := set_header_map headers response_new in
  let response :=
    if negb (contains (#"Content-Type") (resp_headers response)) then
      match (path_extension path ≫= to_str) ≫= from_extension with
      | Some ct => set_header (content_type_header ct) response
      | None => response
      end
    else response in
  set_sized_body (Some len) reader response.

Definition open_respond (f : File) : Response IM IoHandler + Status :=
  match open_file (file_path f) with
  | Some o =>
    if is_directory o then inr Status.InternalServerError
    else inl (named_file_response (file_path f) (file_headers f) (file_len o) (file_reader o))
  | None => inr Status.InternalServerError
  end.

(** The rewrites in order. *)
Fixpoint run_rewrites (rs : list Rewriter) (response : option Rewrite) (req : Request IM)
  : option (option Rewrite) :=
  match rs with
  | [] => Some response
  | r :: rs => response ← r response req; run_rewrites rs response req
  end.

(** What is left of the path of the request, rewritten. *)
Definition rewritten (self : FileServer) (req : Request IM) : option (option Rewrite) :=
  let path := match to_path_buf true (routed_segments 0 req) with
              | inr p => Some p
              | inl _ => None
              end in
  run_rewrites (rewrites self) ((λ p, RewriteFile (file_new p)) <$> path) req.

(** [FileServer::handle]. *)
Definition handle (self : FileServer) (req : Request IM) (data : Data) (jar : CookieJar)
  : option (Outcome (Response IM IoHandler) Status (Data * Status)) :=
  response ← rewritten self req;
  Some (match response with
        | Some (RewriteFile f) =>
          Outcome.response_or_forward (open_respond f) (data, Status.NotFound)
        | Some (RewriteRedirect r) =>
          Outcome.response_or_forward (respond_to r req jar).1 (data, Status.InternalServerError)
        | None => Forward (data, Status.NotFound)
        end).
End fs.

(** ** Lemmas *)

(** A component of a path that stays below the directory it is joined to. *)
Definition inside (w : str) : Prop := w ≠ [] ∧ (slash ∉ w) ∧ w ≠ #"." ∧ w ≠ #"..".

Definition relative (ws : list str) (trailing : bool) : str :=
  join slash ws ++ (if trailing then [slash] else []).

Lemma filter_inside ws :
  Forall inside ws → List.filter (λ c, nonempty c && negb (bool_decide (c = #"."))) ws = ws.
Proof.
  induction 1 as [|w ws (Hw & _ & Hd & _) _ IH]; [done|]. cbn [List.filter].
  rewrite bool_decide_false, IH by done. by destruct w.
Qed.

Lemma path_iter_relative ws t :
  Forall inside ws → (t = true → ws ≠ []) → path_iter (relative ws t) = ws.
Proof.
  intros Hws Ht. unfold path_iter.
  assert (starts_with [slash] (relative ws t) = false) as ->.
  { apply (render_head (ws, t)). split; [|done]. eapply Forall_impl; [done|]. intros w (? & ? & _).
    by split. }
  assert (split_on slash (relative ws t) = if t then ws ++ [[]] else if is_empty ws then [[]] else ws) as ->.
  { unfold relative. assert (Forall (λ w, slash ∉ w) ws) as Hs.
    { eapply Forall_impl; [done|]. by intros w (_ & ? & _). }
    destruct t.
    - rewrite split_on_app_delim, split_join by auto. done.
    - rewrite app_nil_r. destruct ws as [|w ws]; [done|]. by rewrite split_join. }
  assert (∀ l, Forall inside ws → List.filter (λ c, nonempty c && negb (bool_decide (c = #"."))) (ws ++ l) =
    ws ++ List.filter (λ c, nonempty c && negb (bool_decide (c = #"."))) l) as Hf.
  { intros l ?. by rewrite filter_app_list, filter_inside. }
  destruct ws as [|w ws]; [destruct t; [by destruct Ht|done]|].
  assert (w ≠ #".") as Hdot by (inversion_clear Hws as [|? ? (_ & _ & ? & _) _]; done).
  destruct t; cbn [is_empty app]; rewrite bool_decide_false by done.
  - specialize (Hf [[]] Hws). cbn [app] in Hf. rewrite Hf. by rewrite app_nil_r.
  - by apply filter_inside.
Qed.

(** What [to_path_buf] yields is such a path. *)
Lemma to_path_buf_inside allow self p :
  to_path_buf allow self = inr p →
  ∃ ws t, p = relative ws t ∧ Forall inside ws ∧ (t = true → ws ≠ []).
Proof.
  unfold to_path_buf. change [] with (render ([], false)) at 1.
  destruct (decide (Forall (acceptable allow) (remaining self))) as [Ha|Ha].
  - destruct (path_buf_loop_resolve allow (remaining self) ([], false)) as [-> [Hw Ht]];
      [by split; [constructor|]|done|].
    pose proof (resolve_Forall _ _ ([], false) Ha (Forall_nil_2 _)) as Hr.
    destruct (resolve (remaining self) ([], false)) as [ws t]. intros [= <-]. exists ws, t.
    split; [done|]. split; [|done]. cbn [fst] in *. rewrite Forall_forall in Hw, Hr |- *.
    intros w Hin. destruct (Hw w Hin), (Hr w Hin) as (? & ? & _). done.
  - by destruct (path_buf_loop_error _ _ (render ([], false)) Ha) as [e ->].
Qed.

Section fs_laws.
Context `{UncasedLaws} {P : Pear} {PC : PearCombinators} {IM : IndexMap str (list str) uncased_eq}.
Context {SP : StablePattern} {M : Memchr} {PE : PercentEncoding} {CC : CookieCrate}.
Context {FS : FileSystem} {IoHandler : Type}.

Lemma join_relative root ws t :
  Forall inside ws → (t = true → ws ≠ []) →
  ∃ sep, path_join root (relative ws t) = root ++ sep ++ relative ws t ∧ (sep = [] ∨ sep = [slash]).
Proof.
  intros Hws Ht. unfold path_join, pathbuf_push.
  assert (starts_with [slash] (relative ws t) = false) as ->.
  { apply (render_head (ws, t)). split; [|done]. eapply Forall_impl; [done|]. intros w (? & ? & _).
    by split. }
  destruct (is_empty root || _); [exists []; auto|exists [slash]; auto].
Qed.

(** The redirect to the path with a trailing slash. *)
Definition slash_redirect (o : Origin) : Response IM IoHandler :=
  set_raw_header (#"Location") (path o ++ [slash] ++ query_suffix (query o))
    (set_status Status.TemporaryRedirect response_new).

(** The answer to a request for the path [p] below the root. *)
Definition served (p : str) (req : Request IM) (data : Data)
  : Outcome (Response IM IoHandler) Status (Data * Status) :=
  if negb (ends_with [slash] (path (req_uri req))) && is_dir p then
    Outcome.response_or_forward (inl (slash_redirect (req_uri req))) (data, Status.InternalServerError)
  else
    Outcome.response_or_forward
      (open_respond (file_new (if is_dir p then path_join p (#"index.html") else p)))
      (data, Status.NotFound).

(** C21: the default file server never leaves its root and serves no hidden file,
    whatever the request and whatever the file system answers.  A request whose
    segments are no safe path, or one with a component that begins with a dot,
    is forwarded with status 404; any other names the root followed by plain
    components, and gets the file there, the index of the directory there, or,
    for a directory asked for without a trailing slash, a redirect to the same
    path with one; what cannot be opened is forwarded with status 404. *)
Theorem file_server_confined root server (req : Request IM) data jar :
  server_new root = Some server → Origin_valid (req_uri req) →
  match to_path_buf true (routed_segments 0 req) with
  | inl _ => handle (IoHandler := IoHandler) server req data jar = Some (Forward (data, Status.NotFound))
  | inr p =>
    ∃ ws t sep, p = relative ws t ∧ Forall inside ws ∧
      path_join root p = root ++ sep ++ relative ws t ∧ (sep = [] ∨ sep = [slash]) ∧
      handle server req data jar =
        if existsb (starts_with ["."%char]) ws then Some (Forward (data, Status.NotFound))
        else Some (served (path_join root p) req data)
  end.
Proof.
  unfold server_new, prefix_checked. destruct (is_dir root); [|done]. intros [= <-] Hv.
  unfold handle, rewritten. destruct (to_path_buf true _) as [e|p] eqn:Hp; [done|].
  apply to_path_buf_inside in Hp as (ws & t & -> & Hws & Ht).
  destruct (join_relative root ws t Hws Ht) as (sep & Hj & Hsep).
  exists ws, t, sep. split_and!; try done. cbn [rewrites rewrite filter identity app run_rewrites fmap option_fmap option_map].
  unfold filter_rewriter at 1, is_visible, is_hidden. cbn [mbind option_bind file_path file_new].
  rewrite path_iter_relative by done.
  destruct (existsb _ ws); [done|]. cbn [negb].
  unfold prefix at 1. cbn [mbind option_bind fmap option_fmap option_map].
  unfold trailing_dirs, served, map_path, file_new. cbn [file_path file_headers].
  set (q := path_join root (relative ws t)).
  destruct (negb (ends_with [slash] (path (req_uri req))) && is_dir q) eqn:Hd.
  - destruct Hv as (Hs & Hpc & _). unfold Uri.map_path.
    rewrite starts_with_app_l by exact Hs.
    assert (forallb is_pchar (path (req_uri req) ++ [slash]) = true) as ->.
    { apply forallb_forall. intros c Hc%list_elem_of_In. apply elem_of_app in Hc as [Hc|Hc].
      - cbn [fst] in Hpc. rewrite Forall_forall in Hpc. by apply Hpc.
      - by apply list_elem_of_singleton in Hc as ->. }
    cbn [negb orb mbind option_bind dir_index run_rewrites]. unfold slash_redirect. do 2 f_equal.
    unfold respond_to, redirect_respond_to, reference_to_string. simpl.
    by rewrite app_nil_r, <-app_assoc.
  - cbn [mbind option_bind]. unfold dir_index. cbn [file_path index_check unconditional andb].
    by destruct (is_dir q).
Qed.
End fs_laws.

(** ** File names (file_name.rs, on Unix) *)

Definition BAD_CHARS : str := #"./\" ++ #"<>|:()&;#?*".

(** [char::is_control] of a character of one byte and, with the byte after it,
    of two. *)
Definition is_control (c : ascii) : bool := (nat_of_ascii c <? 32) || (nat_of_ascii c =? 127).
Definition is_control2 (c d : ascii) : bool :=
  (nat_of_ascii c =? 194) && (128 <=? nat_of_ascii d) && (nat_of_ascii d <=? 159).

Definition bad_char (c : ascii) : bool := bool_decide (c ∈ BAD_CHARS) || is_control c.

(** [str::split(bad_char)]. *)
Fixpoint split_bad (s : str) : list str :=
  match s with
  | [] => [[]]
  | c :: s1 =>
    if bad_char c then [] :: split_bad s1
    else
      let longer := match split_bad s1 with w :: ws => (c :: w) :: ws | [] => [[c]] end in
      match s1 with
      | d :: s2 => if is_control2 c d then [] :: split_bad s2 else longer
      | [] => longer
      end
  end.

(** [FileName::as_str]; no name is reserved. *)
Definition as_str (self : str) : option str :=
  n ← path_file_name self ≫= to_str;
  file_name ← List.find nonempty (split_bad n);
  if is_empty file_name then None else Some file_name.

(** [FileName::is_safe]. *)
Definition is_safe (self : str) : bool :=
  match as_str self with Some s => bool_decide (s = self) | None => false end.

(** No piece has a byte that is bad, or a control character of two bytes. *)
Fixpoint clean (s : str) : Prop :=
  match s with
  | [] => True
  | c :: s1 => bad_char c = false ∧ match s1 with d :: _ => is_control2 c d = false | [] => True end ∧ clean s1
  end.

Lemma split_bad_ne s : split_bad s ≠ [].
Proof.
  destruct s as [|c s]; [done|]. cbn [split_bad]. destruct (bad_char c); [done|].
  destruct s as [|d s]; [by destruct (split_bad [])|]. destruct (is_control2 c d); [done|].
  by destruct (split_bad (d :: s)).
Qed.

(** The first piece of a text begins as the text does. *)
Lemma split_bad_head s w ws : split_bad s = w :: ws → ∃ r, s = w ++ r.
Proof.
  revert w ws. induction s as [|c s IH]; intros w ws; cbn [split_bad]; [intros [= <- <-]; by exists []|].
  destruct (bad_char c); [intros [= <- <-]; by exists (c :: s)|].
  assert ((match split_bad s with w :: ws => (c :: w) :: ws | [] => [[c]] end) = w :: ws →
    ∃ r, c :: s = w ++ r) as Hl.
  { pose proof (split_bad_ne s). destruct (split_bad s) as [|v vs]; [done|]. intros [= <- <-].
    destruct (IH v vs eq_refl) as [r ->]. by exists r. }
  destruct s as [|d s]; [done|]. destruct (is_control2 c d); [|done].
  intros [= <- <-]. by exists (c :: d :: s).
Qed.

Lemma split_bad_clean_below n s : length s ≤ n → Forall clean (split_bad s).
Proof.
  revert s. induction n as [|n IH]; intros [|c s] Hl; simpl in Hl; try lia; try by repeat constructor.
  cbn [split_bad]. destruct (bad_char c) eqn:Hc; [constructor; [done|apply IH; lia]|].
  assert ((match s with d :: _ => is_control2 c d = false | [] => True end) →
    Forall clean (match split_bad s with w :: ws => (c :: w) :: ws | [] => [[c]] end)) as Hlong.
  { intros Hd. pose proof (IH s ltac:(lia)) as Hs. pose proof (split_bad_ne s).
    destruct (split_bad s) as [|w ws] eqn:E; [done|]. inversion_clear Hs. constructor; [|done].
    split; [done|]. split; [|done]. apply split_bad_head in E as [r ->]. by destruct w. }
  destruct s as [|d s]; [by apply Hlong|]. destruct (is_control2 c d) eqn:Hd; [|by apply Hlong].
  constructor; [done|]. apply IH. simpl in Hl. lia.
Qed.

Lemma split_bad_clean s : Forall clean (split_bad s).
Proof. by apply (split_bad_clean_below (length s)). Qed.

(** A sanitized name is not empty and clean, so that it has no separator, no
    extension and no character a shell or a terminal treats specially. *)
Lemma as_str_clean self s : as_str self = Some s → s ≠ [] ∧ clean s.
Proof.
  unfold as_str. intros (n & _ & Hf)%bind_Some. apply bind_Some in Hf as (f & Hf & Hs).
  apply find_some in Hf as [Hin Hne]. destruct (is_empty f); [done|]. injection Hs as <-.
  split; [by apply nonempty_true|]. apply list_elem_of_In in Hin.
  by eapply Forall_forall in Hin; [|apply split_bad_clean].
Qed.

Section witness.
Import Reference PearReference PearCombinatorsReference HeaderReference CookieReference.

(** A directory [/srv] with a directory [a]. *)
#[local] Instance example_fs : FileSystem := {|
  exists_ _ := true;
  is_dir p := bool_decide (p ∈ [ #"/srv"; #"/srv/a"; #"/srv/a/"]);
  is_file _ := true;
  open_file p :=
    if bool_decide (p = #"/srv/a/index.html")
    then Some (OpenFile_new false 2 (Reader_new (#"hi") (Some 2))) else None |}.

Definition request_for (p : str) : Request header_index :=
  request_new false None Get (Origin_new p None).

Definition example_data : Data := data_local [].

Definition example_server : FileServer (IM := header_index) :=
  default identity (server_new (#"/srv")).

Example file_server_witness :
  ∃ server, server_new (IM := header_index) (#"/srv") = Some server ∧
  handle (IoHandler := unit) server (request_for (#"/.git/config")) example_data (jar_init None false) =
    Some (Forward (example_data, Status.NotFound)) ∧
  match handle (IoHandler := unit) server (request_for (#"/b/../a/")) example_data (jar_init None false) with
  | Some (Outcome.Success r) => body_bytes (body r) = #"hi"
  | _ => False
  end.
Proof.
  assert (server_new (IM := header_index) (#"/srv") = Some example_server) as Hs.
  { unfold example_server, server_new, prefix_checked.
    by assert (is_dir (#"/srv") = true) as -> by (by vm_compute). }
  exists example_server. split; [exact Hs|]. split; [|by vm_compute].
  destruct (file_server_confined (IoHandler := unit) (#"/srv") example_server
    (request_for (#"/.git/config")) example_data (jar_init None false) Hs) as (ws & t & sep & Hp & Hw & _ & _ & ->).
  { split_and!; [done|by repeat constructor|done]. }
  assert (ws = [ #".git"; #"config"]) as ->.
  { rewrite <-(path_iter_relative ws t); [rewrite <-Hp; by vm_compute|done|]. intros -> ->.
    by vm_compute in Hp. }
  by assert (existsb (starts_with ["."%char]) [ #".git"; #"config"] = true) as -> by (by vm_compute).
Defined.
End witness.
