(* ===== verification/Templates.v ===== *)
(** * Templates: dynamic templates (contrib/dyn_templates/src/context.rs,
    template.rs, fairing.rs, metadata.rs, engine/mod.rs)

    The template engines, [walkdir] and [normpath] are interfaces.  A template
    directory is what walking it yields: entries by their path below it.  The
    order in which a [HashMap] is iterated over is that of [map_to_list]. *)

From S2P Require Import Prelude Crates RawStr Status Outcome Header Method MediaType UriTables MediaParse.
From S2P Require Import Uri FileServer.

(** The engines: one for each extension that is enabled. *)
Class TemplateEngines := {
  ENABLED_EXTENSIONS : list str;
  Engine : Type;
  Value : Type;
  engine_init : str → list (str * str) → option Engine;
  engine_render : str → Engine → str → Value → option str;
  engine_templates : str → Engine → list str;
}.

(** An entry of a walk, [None] for one that cannot be read. *)
Record Entry := mkEntry { rel_path : str; entry_is_file : bool }.

(** [normpath] and [walkdir]: a normalized root and its entries. *)
Record TemplateFs := mkTemplateFs {
  normalize_root : str → option str;
  walk : str → list (option Entry);
}.

(** ** Names (context.rs) *)

(** [Path::parent] of a relative path, [Path::file_stem]. *)
Definition rel_parent (p : str) : str := join slash (removelast (path_iter p)).

Definition path_file_stem (p : str) : option str :=
  file ← path_file_name p;
  Some match find_byte "." (reverse file) with
       | Some i => let before := take (length file - S i) file in if is_empty before then file else before
       | None => file
       end.

(** [remove_extension], of a path below the root. *)
Definition remove_extension (path : str) : str :=
  match path_file_stem path with
  | None => path
  | Some stem => path_join (rel_parent path) stem
  end.

(** [split_path], of the path below the root; [lossy] is [to_string_lossy]. *)
Section split.
Context (lossy : str → str).

Definition split_path (rel_path : str) : str * option str :=
  let path_no_ext := remove_extension rel_path in
  let data_type := path_extension path_no_ext in
  (lossy (remove_extension path_no_ext), lossy <$> data_type).
End split.

Section context.
Context `{TE : TemplateEngines} `{Uncased} (lossy : str → str).

(** ** Engines (engine/mod.rs) *)

(** [struct TemplateInfo], [struct Engines]. *)
Record TemplateInfo := mkTemplateInfo {
  info_path : option str;
  engine_ext : str;
  data_type : MediaType;
}.

Definition Engines : Type := list (str * Engine).

(** [Engines::init], [render], [templates]. *)
Definition engines_inner (templates : gmap str TemplateInfo) (ext : str) : option Engine :=
  engine_init ext
    (omap (λ '(k, i), if bool_decide (engine_ext i = ext) then (λ p, (k, p)) <$> info_path i else None)
          (map_to_list templates)).

Definition engines_init (templates : gmap str TemplateInfo) : option Engines :=
  mapM (λ ext, (λ e, (ext, e)) <$> engines_inner templates ext) ENABLED_EXTENSIONS.

Definition engines_render (self : Engines) (name : str) (info : TemplateInfo) (context : Value) : option str :=
  match List.find (λ p, bool_decide (engine_ext info = p.1)) self with
  | Some (ext, engine) => engine_render ext engine name context
  | None => None
  end.

Definition engines_templates (self : Engines) : list (str * str) :=
  concat ((λ '(ext, e), (λ name, (name, ext)) <$> engine_templates ext e) <$> self).

(** ** Context (context.rs) *)

(** [struct Context]. *)
Record Context := mkContext {
  root : str;
  templates : gmap str TemplateInfo;
  engines : Engines;
}.

(** [is_file_with_ext]. *)
Definition is_file_with_ext (root : str) (entry : Entry) (ext : str) : bool :=
  entry_is_file entry && bool_decide (path_extension (path_join root (rel_path entry)) = Some ext).

Definition text_type : MediaType := media_type_of MediaType.Text.

(** What the inner loop makes of an entry. *)
Definition entry_template (root ext : str) (entry : option Entry) : option (str * TemplateInfo) :=
  entry ← entry;
  if is_file_with_ext root entry ext then
    let '(template, data_type_str) := split_path lossy (rel_path entry) in
    let data_type := default text_type (data_type_str ≫= from_extension) in
    Some (template, mkTemplateInfo (Some (path_join root (rel_path entry))) ext data_type)
  else None.

(** A template is added unless there is one of its name. *)
Definition add_template (templates : gmap str TemplateInfo) (t : str * TemplateInfo) : gmap str TemplateInfo :=
  match templates !! t.1 with Some _ => templates | None => <[t.1 := t.2]> templates end.

(** What the loop over the engines' own templates makes of one. *)
Definition engine_template (t : str * str) : str * TemplateInfo :=
  (t.1, mkTemplateInfo None t.2 (default text_type (osstr ← path_extension t.1; ext ← to_str osstr; from_extension ext))).

(** [Context::initialize]. *)
Definition initialize (fs : TemplateFs) (callback : Engines → option Engines) (root : str) : option Context :=
  root ← normalize_root fs root;
  let templates :=
    foldl (λ templates ext,
        foldl (λ templates entry,
            match entry_template root ext entry with
            | Some t => add_template templates t
            | None => templates
            end) templates (walk fs root)) ∅ ENABLED_EXTENSIONS in
  engines ← engines_init templates;
  engines ← callback engines;
  let templates := foldl add_template templates (engine_template <$> engines_templates engines) in
  Some (mkContext root templates engines).

(** [struct ContextManager] of a debug build: whether there is a watcher. *)
Record ContextManager := mkContextManager { context : Context; watching : bool }.

Definition is_reloading (self : ContextManager) : bool := watching self.

(** [ContextManager::reload_if_needed], when [changed] events are there. *)
Definition reload_if_needed (fs : TemplateFs) (callback : Engines → option Engines) (changed : nat)
    (self : ContextManager) : ContextManager :=
  if watching self && (0 <? changed)%nat then
    match initialize fs callback (root (context self)) with
    | Some new_ctxt => mkContextManager new_ctxt (watching self)
    | None => self
    end
  else self.

(** ** Templates (template.rs, metadata.rs) *)

(** [struct Template]; a context that does not serialize is [None]. *)
Record Template := mkTemplate { template_name : str; template_value : option Value }.

(** [Template::render]. *)
Definition render (serialize : option Value) (name : str) : Template := mkTemplate name serialize.

(** [Template::finalize]. *)
Definition finalize (ctxt : Context) (self : Template) : (MediaType * str) + Status :=
  match templates ctxt !! template_name self with
  | None => inr Status.InternalServerError
  | Some info =>
    match template_value self with
    | None => inr Status.InternalServerError
    | Some value =>
      match engines_render (engines ctxt) (template_name self) info value with
      | None => inr Status.InternalServerError
      | Some string => inl (data_type info, string)
      end
    end
  end.

(** [Template::show], [Metadata::contains_template], [Metadata::render], given
    the managed state. *)
Definition show (state : option ContextManager) (name : str) (value : option Value) : option str :=
  cm ← state;
  match finalize (context cm) (render value name) with inl (_, s) => Some s | inr _ => None end.

Definition contains_template (cm : ContextManager) (name : str) : bool :=
  bool_decide (is_Some (templates (context cm) !! name)).

Definition metadata_render (cm : ContextManager) (name : str) (value : option Value) : option (MediaType * str) :=
  match finalize (context cm) (render value name) with inl r => Some r | inr _ => None end.

(** [FromRequest for Metadata], [Sentinel for Template] and [Metadata]. *)
Definition metadata_from_request (state : option ContextManager) : Outcome ContextManager (Status * unit) Status :=
  match state with
  | Some cm => Outcome.Success cm
  | None => Outcome.Error (Status.InternalServerError, tt)
  end.

Definition template_abort (state : option ContextManager) : bool := negb (bool_decide (is_Some state)).

(** ** The fairing (fairing.rs) *)

(** What extracting the directory yields. *)
Inductive Configured := Dir (dir : str) | MissingDir | BadDir.

Definition DEFAULT_TEMPLATE_DIR : str := #"templates".

(** [Fairing::on_ignite], up to the state to manage; [None] fails the
    launch. *)
Definition template_on_ignite (fs : TemplateFs) (callback : Engines → option Engines) (watchable : bool)
    (configured_dir : Configured) : option ContextManager :=
  path ← match configured_dir with
         | Dir dir => Some dir
         | MissingDir => Some DEFAULT_TEMPLATE_DIR
         | BadDir => None
         end;
  ctxt ← initialize fs callback path;
  Some (mkContextManager ctxt watchable).
End context.
Arguments TemplateInfo : clear implicits.

(** ** Which template a name stands for *)

Section lookup.
Context `{TE : TemplateEngines} `{Uncased} (lossy : str → str).

(** The first of the pairs with a key. *)
Definition first_named {A} (l : list (str * A)) (name : str) : option A :=
  snd <$> List.find (λ t, bool_decide (t.1 = name)) l.

Lemma foldl_add_template (l : list (str * TemplateInfo)) (m : gmap str TemplateInfo) (name : str) :
  foldl add_template m l !! name = match m !! name with Some i => Some i | None => first_named l name end.
Proof.
  revert m. induction l as [|[k v] l IH]; intros m; simpl; [by destruct (m !! name)|].
  rewrite IH. unfold add_template, first_named. cbn [fst snd List.find].
  destruct (m !! k) as [i|] eqn:E; case_bool_decide as Hk; try subst k.
  - by rewrite E.
  - done.
  - by rewrite lookup_insert_eq, E.
  - by rewrite lookup_insert_ne.
Qed.

(** The files of a root that are templates, in the order they are met. *)
Definition template_files (fs : TemplateFs) (root : str) : list (str * TemplateInfo) :=
  concat ((λ ext, omap (entry_template lossy root ext) (walk fs root)) <$> ENABLED_EXTENSIONS).

Lemma foldl_files (entries : list (option Entry)) (root ext : str) (m : gmap str TemplateInfo) :
  foldl (λ templates entry,
      match entry_template lossy root ext entry with
      | Some t => add_template templates t
      | None => templates
      end) m entries = foldl add_template m (omap (entry_template lossy root ext) entries).
Proof.
  revert m. induction entries as [|e entries IH]; intros m; [done|]. cbn [foldl omap list_omap].
  destruct (entry_template lossy root ext e); apply IH.
Qed.

Lemma foldl_extensions (fs : TemplateFs) (root : str) (m : gmap str TemplateInfo) :
  foldl (λ templates ext,
      foldl (λ templates entry,
          match entry_template lossy root ext entry with
          | Some t => add_template templates t
          | None => templates
          end) templates (walk fs root)) m ENABLED_EXTENSIONS = foldl add_template m (template_files fs root).
Proof.
  unfold template_files. generalize ENABLED_EXTENSIONS as exts. intros exts. revert m.
  induction exts as [|ext exts IH]; intros m; [done|]. cbn [foldl fmap list_fmap concat].
  by rewrite foldl_files, foldl_app, IH.
Qed.

(** The extension of a template file is one that is enabled. *)
Lemma template_file_ext (fs : TemplateFs) (root name : str) (info : TemplateInfo) :
  first_named (template_files fs root) name = Some info → engine_ext info ∈ ENABLED_EXTENSIONS.
Proof.
  unfold first_named. intros ([k i] & Hf & ->)%fmap_Some. apply find_some in Hf as [Hin _].
  unfold template_files in Hin. apply in_concat in Hin as (l & Hl & Hin).
  apply list_elem_of_In, list_elem_of_fmap in Hl as (ext & -> & Hext).
  apply list_elem_of_In, list_elem_of_omap in Hin as (e & _ & He). unfold entry_template in He.
  apply bind_Some in He as (entry & _ & He). destruct (is_file_with_ext _ _ _); [|done].
  by injection He as <- <-.
Qed.

(** An engine for each extension that is enabled, in order. *)
Lemma engines_init_exts (m : gmap str TemplateInfo) (es : Engines) :
  engines_init m = Some es → es.*1 = ENABLED_EXTENSIONS.
Proof.
  unfold engines_init. intros Hm. apply mapM_Some in Hm. induction Hm as [|ext [x e] exts es Hx _ IH]; [done|].
  apply fmap_Some in Hx as (? & _ & [= <- <-]). cbn. by rewrite IH.
Qed.

(** The names of an application: the first file that has the name in its root,
    the engines in order, or else the first engine that knows the name itself;
    each with an engine for its extension. *)
Definition context_of (fs : TemplateFs) (ctxt : Context) : Prop :=
  (∀ name, templates ctxt !! name =
     match first_named (template_files fs (root ctxt)) name with
     | Some info => Some info
     | None => first_named (engine_template <$> engines_templates (engines ctxt)) name
     end) ∧
  ∀ name info, templates ctxt !! name = Some info →
    ∃ engine, List.find (λ p, bool_decide (engine_ext info = p.1)) (engines ctxt) = Some (engine_ext info, engine) ∧
      ∀ value, finalize ctxt (render value name) =
        match value with
        | Some v =>
          match engine_render (engine_ext info) engine name v with
          | Some s => inl (data_type info, s)
          | None => inr Status.InternalServerError
          end
        | None => inr Status.InternalServerError
        end.

Lemma find_engine (es : Engines) (ext : str) :
  ext ∈ es.*1 → ∃ e, List.find (λ p, bool_decide (ext = p.1)) es = Some (ext, e).
Proof.
  induction es as [|[x e] es IH]; simpl; [by intros ?%elem_of_nil|].
  case_bool_decide as Hx; [subst; eauto|]. intros [Hin|Hin]%elem_of_cons; [done|]. by apply IH.
Qed.

Lemma engine_template_ext (es : Engines) (name : str) (info : TemplateInfo) :
  first_named (engine_template <$> engines_templates es) name = Some info → engine_ext info ∈ es.*1.
Proof.
  unfold first_named. intros ([k i] & Hf & ->)%fmap_Some. apply find_some in Hf as [Hin _].
  apply list_elem_of_In, list_elem_of_fmap in Hin as ([n x] & [= -> ->] & Hin). cbn [engine_ext].
  unfold engines_templates in Hin. apply list_elem_of_In, in_concat in Hin as (l & Hl & Hin).
  apply list_elem_of_In, list_elem_of_fmap in Hl as ([ext e] & -> & He).
  apply list_elem_of_In, list_elem_of_fmap in Hin as (n' & [= -> ->] & _).
  by apply (list_elem_of_fmap_2 fst) in He.
Qed.

Context (callback : Engines → option Engines).
Context (callback_exts : ∀ es es', callback es = Some es' → es'.*1 = es.*1).

Lemma initialize_context (fs : TemplateFs) (dir : str) (ctxt : Context) :
  initialize lossy fs callback dir = Some ctxt → normalize_root fs dir = Some (root ctxt) ∧ context_of fs ctxt.
Proof.
  unfold initialize. intros (r & Hr & H')%bind_Some. rewrite foldl_extensions in H'.
  apply bind_Some in H' as (es & Hes & (es' & Hcb & [= <-])%bind_Some). cbn [root]. split; [done|].
  assert (∀ name, foldl add_template (foldl add_template ∅ (template_files fs r))
            (engine_template <$> engines_templates es') !! name =
          match first_named (template_files fs r) name with
          | Some info => Some info
          | None => first_named (engine_template <$> engines_templates es') name
          end) as Hl by (intros name; by rewrite !foldl_add_template, lookup_empty).
  split; cbn [templates engines root]; [exact Hl|].
  intros name info Hi. rewrite Hl in Hi.
  assert (engine_ext info ∈ es'.*1) as Hext.
  { destruct (first_named (template_files fs r) name) as [i|] eqn:E.
    - injection Hi as ->. rewrite (callback_exts _ _ Hcb), (engines_init_exts _ _ Hes).
      by eapply template_file_ext.
    - by eapply engine_template_ext. }
  destruct (find_engine es' _ Hext) as (e & He). exists e. split; [done|]. intros value.
  unfold finalize, render. cbn [templates engines template_name template_value]. rewrite Hl, Hi.
  destruct value as [v|]; [|done]. unfold engines_render. rewrite He. by destruct (engine_render _ _ _ _).
Qed.

(** Requests that look for changes, each with the state of the files it finds
    and the number of changes. *)
Definition reloads (history : list (TemplateFs * nat)) (cm : ContextManager) : ContextManager :=
  foldl (λ cm h, reload_if_needed lossy h.1 callback h.2 cm) cm history.

End lookup.

(** ** A directory of templates *)

Module TemplatesReference.
Import Reference.

(** An engine that writes a template's name and a value. *)
#[export] Instance engines_ref : TemplateEngines := {
  ENABLED_EXTENSIONS := [ #"tera"; #"hbs"];
  Engine := list (str * str);
  Value := str;
  engine_init _ files := Some files;
  engine_render ext engine name v := Some (ext ++ #":" ++ name ++ #":" ++ v);
  engine_templates _ engine := fst <$> engine;
}.

Definition dir (names : list str) : TemplateFs :=
  mkTemplateFs (λ p, Some p) (λ _, (λ n, Some (mkEntry n true)) <$> names).

(** The same name twice, and one in a directory. *)
Definition site : TemplateFs := dir [ #"index.html.hbs"; #"a/b.tera"; #"index.txt.tera"; #"readme.md"].

Definition no_callback (es : Engines) : option Engines := Some es.

Definition launched : option ContextManager := template_on_ignite id site no_callback true MissingDir.

Lemma site_renders :
  (λ cm, (metadata_render cm #"index" (Some #"x"), metadata_render cm #"a/b" (Some #"y"),
          contains_template cm #"readme")) <$> launched =
  Some (Some (text_type, #"tera:index:x"), Some (text_type, #"tera:a/b:y"), false).
Proof. by vm_compute. Qed.

Lemma names_split :
  split_path id #"a/b.html.tera" = (#"a/b", Some #"html") ∧ split_path id #"x.tera" = (#"x", None).
Proof. split; by vm_compute. Qed.

End TemplatesReference.
