(* ===== verification/UnixSocket.v ===== *)
(** * UnixSocket: which listener binds what (core/lib/src/listener/default.rs,
    tcp.rs, unix.rs, core/lib/src/util/unix.rs)

    The endpoints that listeners bind, and what the processes that bind the
    same Unix socket do to the file system.  A process takes one system call at
    a time, which may fail where the code says so, and may be killed between any
    two; a lock is of the inode that is open and goes with the process. *)

From S2P Require Import Prelude Crates FileServer Endpoint.

(** ** Endpoints *)

Section endpoints.
Context `{NetAddrs} {TlsConfig E : Type}.

(** [<DefaultListener as Bind>::bind]: the listener that is asked to bind. *)
Inductive DefaultListener := TlsTcp | PlainTcp | TlsUnix | PlainUnix.

Definition default_bind (address : Endpoint TlsConfig) (tls : bool) : Endpoint TlsConfig + DefaultListener :=
  match address with
  | Tcp _ => inr (if tls then TlsTcp else PlainTcp)
  | Unix _ => inr (if tls then TlsUnix else PlainUnix)
  | endpoint => inl endpoint
  end.

(** [<TcpListener as Bind>::bind_endpoint], given the default address, what is
    extracted for [address] and, if the configuration has it, for [port]; and
    [<UnixListener as Bind>::bind_endpoint]. *)
Definition tcp_bind_endpoint (localhost_8000 : SocketAddr) (set_port : Z → SocketAddr → SocketAddr)
    (address : Extracted TlsConfig E) (port : option (E + Z)) (invalid : Endpoint TlsConfig → E) : E + Endpoint TlsConfig :=
  match fetch address invalid (λ e, match e with Some e => tcp e | None => Some localhost_8000 end) with
  | inl e => inl e
  | inr address =>
    match port with
    | Some (inl e) => inl e
    | Some (inr port) => inr (Tcp (set_port port address))
    | None => inr (Tcp address)
    end
  end.

Definition unix_bind_endpoint (address : Extracted TlsConfig E) (invalid : Endpoint TlsConfig → E) : E + Endpoint TlsConfig :=
  match fetch address invalid (λ e, e ≫= unix) with
  | inl e => inl e
  | inr path => inr (Unix path)
  end.
End endpoints.

(** [extract_inner("reuse")], which may be missing. *)
Definition reuse_of {E} (extracted : option (E + bool)) : E + bool :=
  match extracted with Some r => r | None => inr true end.

(** The path of the lock file; [Path::with_extension]. *)
Definition with_extension (path ext : str) : str :=
  match path_extension path with
  | Some e => take (length path - length e) path ++ ext
  | None => path ++ #"." ++ ext
  end.

Definition lock_path (path : str) : str :=
  with_extension path
    match path_extension path with
    | Some ext => if negb (is_empty ext) then ext ++ #".lock" else #"lock"
    | None => #"lock"
    end.

(** ** Processes (unix.rs) *)

(** What a process has yet to do: [UnixListener::bind], the listener with its
    lock, and its [drop]. *)
Inductive Pc :=
  | Start
  | Opened (lock : nat)
  | Locked (lock : nat)
  | Exists (lock : nat)
  | Binding (lock : option nat) (retries : nat)
  | Listening (lock : option nat)
  | Unlinked (lock : nat)
  | Unlocking (lock : nat)
  | Stopped.

#[export] Instance Pc_eq_dec : EqDecision Pc.
Proof. solve_decision. Defined.

(** The processes, and the file system: the inode at the path of the lock file,
    the inodes there are and who locks them, and whose socket is at the path of
    the socket, if anyone's of these. *)
Record World := mkWorld {
  procs : nat → Pc;
  lock_file : option nat;
  inodes : nat;
  locks : gmap nat nat;
  socket : option (option nat);
}.

Definition goto (p : nat) (c : Pc) (w : World) : World :=
  mkWorld (λ q, if decide (q = p) then c else procs w q) (lock_file w) (inodes w) (locks w) (socket w).

Definition set_lock_file (f : option nat) (w : World) : World :=
  mkWorld (procs w) f (inodes w) (locks w) (socket w).
Definition set_locks (l : gmap nat nat) (w : World) : World :=
  mkWorld (procs w) (lock_file w) (inodes w) l (socket w).
Definition set_socket (s : option (option nat)) (w : World) : World :=
  mkWorld (procs w) (lock_file w) (inodes w) (locks w) s.

(** [open] with [create]. *)
Definition open_lock (w : World) : nat * World :=
  match lock_file w with
  | Some i => (i, w)
  | None => (inodes w, mkWorld (procs w) (Some (inodes w)) (S (inodes w)) (locks w) (socket w))
  end.

(** The lock a process holds; a process that ends releases it. *)
Definition held (c : Pc) : option nat :=
  match c with
  | Locked i | Exists i | Binding (Some i) _ | Listening (Some i) | Unlinked i | Unlocking i => Some i
  | _ => None
  end.

Definition stop (p : nat) (w : World) : World :=
  goto p Stopped (match held (procs w p) with Some i => set_locks (delete i (locks w)) w | None => w end).

(** The next system call of a process; [ok] is whether it can succeed. *)
Definition advance (reuse : bool) (p : nat) (ok : bool) (w : World) : World :=
  match procs w p with
  | Start =>
    if reuse then
      if ok then let '(i, w) := open_lock w in goto p (Opened i) w else stop p w
    else goto p (Binding None 5) w
  | Opened i =>
    if ok && bool_decide (locks w !! i = None)
    then goto p (Locked i) (set_locks (<[i := p]> (locks w)) w)
    else stop p w
  | Locked i => goto p (if bool_decide (socket w = None) then Binding (Some i) 5 else Exists i) w
  | Exists i =>
    if ok && negb (bool_decide (socket w = None))
    then goto p (Binding (Some i) 5) (set_socket None w)
    else stop p w
  | Binding lock retries =>
    if ok && bool_decide (socket w = None) then goto p (Listening lock) (set_socket (Some (Some p)) w)
    else if negb (bool_decide (socket w = None)) && bool_decide (lock = None) then stop p w
    else match retries with S retries => goto p (Binding lock retries) w | O => stop p w end
  | Listening lock =>
    let w := if ok then set_socket None w else w in
    match lock with Some i => goto p (Unlinked i) w | None => stop p w end
  | Unlinked i => goto p (Unlocking i) (if ok then set_lock_file None w else w)
  | Unlocking i => stop p w
  | Stopped => w
  end.

(** A process goes on or is killed. *)
Inductive Action := Next (ok : bool) | Kill.

Definition act (p : nat) (a : Action) (w : World) : World :=
  match a with Next ok => advance true p ok w | Kill => stop p w end.

Definition run (schedule : list (nat * Action)) (w : World) : World :=
  foldl (λ w '(p, a), act p a w) w schedule.

(** Nobody has started; files may be left from before. *)
Definition started_from (lock : bool) (stale : bool) : World :=
  mkWorld (λ _, Start) (if lock then Some 0 else None) 1 ∅ (if stale then Some None else None).

(** A lock file is not removed while another process has opened it, or one
    before it, and has yet to lock it. *)
Definition calm (p : nat) (w : World) : Prop :=
  ∀ i q j, procs w p = Unlinked i → procs w q ≠ Opened j.

Inductive reach (lock stale : bool) : World → Prop :=
  | reach_start : reach lock stale (started_from lock stale)
  | reach_act w p a : reach lock stale w → calm p w → reach lock stale (act p a w).

(** ** Invariants *)

(** From the lock on until the lock file is removed. *)
Definition critical (c : Pc) : option nat :=
  match c with
  | Locked i | Exists i | Binding (Some i) _ | Listening (Some i) | Unlinked i => Some i
  | _ => None
  end.

Record invariant (w : World) : Prop := {
  inv_critical p i : critical (procs w p) = Some i → lock_file w = Some i;
  inv_held p i : held (procs w p) = Some i ↔ locks w !! i = Some p;
  inv_opened p i : procs w p = Opened i → lock_file w = Some i;
  inv_fresh i : lock_file w = Some i → (i < inodes w)%nat;
  inv_locks i p : locks w !! i = Some p → (i < inodes w)%nat;
  inv_reuse p : procs w p ≠ Listening None ∧ ∀ n, procs w p ≠ Binding None n;
  inv_socket p i : procs w p = Listening (Some i) → socket w = Some (Some p);
}.

Lemma critical_held c i : critical c = Some i → held c = Some i.
Proof. by destruct c as [| | | |[] ?|[]| | |]. Qed.

Lemma goto_same p c w : procs (goto p c w) p = c.
Proof. unfold goto. cbn. by rewrite decide_True. Qed.

Lemma goto_other p q c w : q ≠ p → procs (goto p c w) q = procs w q.
Proof. intros Hq. unfold goto. cbn. by rewrite decide_False. Qed.

(** One process is in its critical section at a time. *)
Lemma critical_unique w p q i j :
  invariant w → critical (procs w p) = Some i → critical (procs w q) = Some j → p = q.
Proof.
  intros Hw Hp Hq. pose proof (inv_critical w Hw p i Hp) as Hi. rewrite (inv_critical w Hw q j Hq) in Hi.
  injection Hi as ->. apply critical_held, (inv_held w Hw) in Hp, Hq. congruence.
Qed.

Lemma held_goto_stop p w : procs (stop p w) p = Stopped.
Proof. unfold stop. apply goto_same. Qed.

Lemma procs_stop_other p q w : q ≠ p → procs (stop p w) q = procs w q.
Proof. intros Hq. unfold stop. rewrite goto_other by done. by destruct (held (procs w p)). Qed.

(** Stopping keeps the rest. *)
Lemma stop_rest p w :
  lock_file (stop p w) = lock_file w ∧ inodes (stop p w) = inodes w ∧ socket (stop p w) = socket w ∧
  locks (stop p w) = match held (procs w p) with Some i => delete i (locks w) | None => locks w end.
Proof. unfold stop. by destruct (held (procs w p)). Qed.

Lemma stop_invariant p w : invariant w → invariant (stop p w).
Proof.
  intros Hw. destruct (stop_rest p w) as (Hf & Hi & Hs & Hl).
  assert (∀ q c, procs (stop p w) q = c → c = Stopped ∨ q ≠ p ∧ procs w q = c) as Hp.
  { intros q c <-. destruct (decide (q = p)) as [->|Hq]; [left; apply held_goto_stop|right]. by rewrite procs_stop_other. }
  assert (∀ q i, locks (stop p w) !! i = Some q ↔ q ≠ p ∧ locks w !! i = Some q) as Hlock.
  { intros q i. rewrite Hl. destruct (held (procs w p)) as [j|] eqn:Hh.
    - apply (inv_held w Hw) in Hh. destruct (decide (i = j)) as [->|Hij].
      + rewrite lookup_delete_eq, Hh. naive_solver.
      + rewrite lookup_delete_ne by done. split; [|naive_solver]. intros Hq. split; [|done]. intros ->.
        apply (inv_held w Hw) in Hq, Hh. congruence.
    - split; [|naive_solver]. intros Hq. split; [|done]. intros ->. apply (inv_held w Hw) in Hq. congruence. }
  split.
  - intros q i Hc. rewrite Hf. destruct (Hp q _ eq_refl) as [E|[_ E]]; [by rewrite E in Hc|]. rewrite <-E in Hc. by eapply inv_critical.
  - intros q i. rewrite Hlock. destruct (decide (q = p)) as [->|Hq].
    + rewrite held_goto_stop. naive_solver.
    + rewrite procs_stop_other by done. rewrite (inv_held w Hw). naive_solver.
  - intros q i Ho. rewrite Hf. destruct (Hp q _ Ho) as [|[_ E]]; [done|]. by eapply inv_opened.
  - intros i. rewrite Hf, Hi. apply (inv_fresh w Hw).
  - intros i q [_ Hq]%Hlock. rewrite Hi. by eapply (inv_locks w Hw).
  - intros q. destruct (decide (q = p)) as [->|Hq]; [by rewrite held_goto_stop|].
    rewrite procs_stop_other by done. apply (inv_reuse w Hw).
  - intros q i Hc. rewrite Hs. destruct (Hp q _ Hc) as [|[_ E]]; [done|]. by eapply inv_socket.
Qed.

Lemma goto_cases p c w q d : procs (goto p c w) q = d → q = p ∧ d = c ∨ q ≠ p ∧ procs w q = d.
Proof.
  destruct (decide (q = p)) as [->|Hq]; [rewrite goto_same|rewrite goto_other by done]; naive_solver.
Qed.

(** A step that leaves the files and the lock of a process alone. *)
Lemma goto_invariant p c w :
  invariant w → (∀ i, critical c = Some i → critical (procs w p) = Some i) → held c = held (procs w p) →
  (∀ i, c ≠ Opened i) → (c ≠ Listening None ∧ ∀ n, c ≠ Binding None n) →
  (∀ i, c ≠ Listening (Some i)) → invariant (goto p c w).
Proof.
  intros Hw Hc Hh Ho Hr Hl. split; cbn [goto lock_file inodes locks socket].
  - intros q i Hq. apply (inv_critical w Hw q). cbn in Hq. case_decide; [subst; by apply Hc|done].
  - intros q i. cbn. rewrite <-(inv_held w Hw). case_decide; [subst; by rewrite Hh|done].
  - intros q i [[_ ?]|[_ Hq]]%goto_cases; [by destruct (Ho i)|]. by apply (inv_opened w Hw q).
  - apply (inv_fresh w Hw).
  - apply (inv_locks w Hw).
  - intros q. cbn. case_decide; [done|apply (inv_reuse w Hw)].
  - intros q i [[_ ?]|[_ Hq]]%goto_cases; [by destruct (Hl i)|]. by apply (inv_socket w Hw q i).
Qed.

(** Only a process in its critical section, which is one, sets the socket. *)
Lemma set_socket_invariant p i s w :
  invariant w → critical (procs w p) = Some i → (∀ j, procs w p ≠ Listening (Some j)) →
  invariant (set_socket s w).
Proof.
  intros Hw Hp Hl. split; cbn [set_socket procs lock_file inodes locks socket]; try apply Hw.
  intros q j Hq. exfalso. assert (p = q) as ->; [|by apply (Hl j)].
  apply (critical_unique w p q i j); [done..|]. by rewrite Hq.
Qed.

Lemma open_invariant p w : invariant w → procs w p = Start → invariant (let '(i, w) := open_lock w in goto p (Opened i) w).
Proof.
  intros Hw Hp. unfold open_lock. destruct (lock_file w) as [i|] eqn:Hf.
  - split; cbn [goto lock_file inodes locks socket].
    + intros q j Hq. apply (inv_critical w Hw q). cbn in Hq. by case_decide.
    + intros q j. cbn. rewrite <-(inv_held w Hw). case_decide; [subst; by rewrite Hp|done].
    + intros q j [[_ [= ->]]|[_ Hq]]%goto_cases; [done|]. by apply (inv_opened w Hw q).
    + apply (inv_fresh w Hw).
    + apply (inv_locks w Hw).
    + intros q. cbn. case_decide; [done|apply (inv_reuse w Hw)].
    + intros q j [[_ ?]|[_ Hq]]%goto_cases; [done|]. by apply (inv_socket w Hw q j).
  - assert (∀ q j, critical (procs w q) ≠ Some j) as Hnone.
    { intros q j Hq. apply (inv_critical w Hw) in Hq. congruence. }
    split; cbn [goto lock_file inodes locks socket procs].
    + intros q j Hq. exfalso. case_decide; [done|by apply (Hnone q j)].
    + intros q j. rewrite <-(inv_held w Hw). case_decide; [subst; by rewrite Hp|done].
    + intros q j Hq. case_decide; [by injection Hq as ->|]. apply (inv_opened w Hw) in Hq. congruence.
    + intros j [= <-]. lia.
    + intros j q Hq. apply (inv_locks w Hw) in Hq. lia.
    + intros q. case_decide; [done|apply (inv_reuse w Hw)].
    + intros q j Hq. case_decide; [done|]. by apply (inv_socket w Hw q j).
Qed.

Lemma lock_invariant p i w :
  invariant w → procs w p = Opened i → locks w !! i = None →
  invariant (goto p (Locked i) (set_locks (<[i := p]> (locks w)) w)).
Proof.
  intros Hw Hp Hi. pose proof (inv_opened w Hw p i Hp) as Hf. split; cbn [goto set_locks lock_file inodes locks socket procs].
  - intros q j Hq. case_decide; [by injection Hq as ->|]. by apply (inv_critical w Hw q).
  - intros q j. case_decide as Hqp.
    + subst q. cbn [held]. destruct (decide (i = j)) as [->|Hij]; [by rewrite lookup_insert_eq|].
      rewrite lookup_insert_ne by done. split; [congruence|]. intros Hq. apply (inv_held w Hw) in Hq. by rewrite Hp in Hq.
    + rewrite (inv_held w Hw). destruct (decide (i = j)) as [->|Hij].
      * rewrite lookup_insert_eq, Hi. naive_solver.
      * by rewrite lookup_insert_ne.
  - intros q j Hq. case_decide; [done|]. by apply (inv_opened w Hw q).
  - apply (inv_fresh w Hw).
  - intros j q. destruct (decide (i = j)) as [->|Hij]; [intros _; by apply (inv_fresh w Hw)|].
    rewrite lookup_insert_ne by done. apply (inv_locks w Hw).
  - intros q. case_decide; [done|apply (inv_reuse w Hw)].
  - intros q j Hq. case_decide; [done|]. by apply (inv_socket w Hw q j).
Qed.

Lemma unlink_invariant p i w :
  invariant w → procs w p = Unlinked i → calm p w → invariant (goto p (Unlocking i) (set_lock_file None w)).
Proof.
  intros Hw Hp Hcalm. assert (critical (procs w p) = Some i) as Hc by by rewrite Hp.
  split; cbn [goto set_lock_file lock_file inodes locks socket procs].
  - intros q j Hq. case_decide as Hqp; [done|]. destruct Hqp. symmetry. by apply (critical_unique w p q i j).
  - intros q j. rewrite <-(inv_held w Hw). case_decide; [subst; by rewrite Hp|done].
  - intros q j Hq. case_decide; [done|]. by apply (Hcalm i q j) in Hp.
  - done.
  - apply (inv_locks w Hw).
  - intros q. case_decide; [done|apply (inv_reuse w Hw)].
  - intros q j Hq. case_decide; [done|]. by apply (inv_socket w Hw q j).
Qed.

Lemma listen_invariant p i w :
  invariant w → critical (procs w p) = Some i →
  invariant (goto p (Listening (Some i)) (set_socket (Some (Some p)) w)).
Proof.
  intros Hw Hp. split; cbn [goto set_socket lock_file inodes locks socket procs].
  - intros q j Hq. case_decide; [injection Hq as <-; by apply (inv_critical w Hw p)|by apply (inv_critical w Hw q)].
  - intros q j. rewrite <-(inv_held w Hw). case_decide; [subst; cbn|done].
    apply critical_held in Hp. by rewrite Hp.
  - intros q j Hq. case_decide; [done|]. by apply (inv_opened w Hw q).
  - apply (inv_fresh w Hw).
  - apply (inv_locks w Hw).
  - intros q. case_decide; [done|apply (inv_reuse w Hw)].
  - intros q j Hq. case_decide as Hqp; [by subst|]. destruct Hqp. symmetry.
    apply (critical_unique w p q i j); [done..|]. by rewrite Hq.
Qed.

Lemma advance_invariant p ok w : invariant w → calm p w → invariant (advance true p ok w).
Proof.
  intros Hw Hcalm. unfold advance. destruct (procs w p) as [|i|i|i|lock retries|lock|i|i|] eqn:Hp.
  - destruct ok; [by apply open_invariant|by apply stop_invariant].
  - destruct (ok && _) eqn:E; [|by apply stop_invariant]. apply andb_true_iff in E as [_ E%bool_decide_eq_true].
    by apply lock_invariant.
  - apply goto_invariant; rewrite ?Hp; try done; by case_bool_decide.
  - destruct (ok && _); [|by apply stop_invariant].
    apply goto_invariant; cbn [set_socket procs]; rewrite ?Hp; try done.
    apply (set_socket_invariant p i); rewrite ?Hp; done.
  - destruct lock as [i|]; [|by destruct (inv_reuse w Hw p) as [_ Hr]; specialize (Hr retries)].
    destruct (ok && _); [apply listen_invariant; [done|by rewrite Hp]|].
    rewrite (bool_decide_false (Some i = None)), andb_false_r by done.
    destruct retries; [by apply stop_invariant|]. apply goto_invariant; rewrite ?Hp; done.
  - destruct lock as [i|]; [|by destruct (inv_reuse w Hw p)].
    assert (∀ s, invariant (goto p (Unlinked i) (set_socket s w))) as Hs.
    { intros s. assert (goto p (Unlinked i) (set_socket s w) = set_socket s (goto p (Unlinked i) w)) as -> by done.
      apply (set_socket_invariant p i); rewrite ?goto_same; try done.
      apply goto_invariant; rewrite ?Hp; done. }
    destruct ok; [apply Hs|]. replace w with (set_socket (socket w) w) at 1 by by destruct w. apply Hs.
  - destruct ok; [by apply unlink_invariant|].
    apply goto_invariant; rewrite ?Hp; done.
  - by apply stop_invariant.
  - done.
Qed.

Lemma reach_invariant lock stale w : reach lock stale w → invariant w.
Proof.
  induction 1 as [|w p a _ Hw Hcalm].
  - unfold started_from. split; cbn [procs lock_file inodes locks socket held critical]; try done.
    intros i. destruct lock; [intros [= <-]; lia|done].
  - destruct a; [by apply advance_invariant|by apply stop_invariant].
Qed.

(** ** A process on its own *)

Lemma free_lock w p :
  invariant w → (∀ q, held (procs w q) = None) → procs w p = Start →
  ∃ i w1, advance true p true w = goto p (Opened i) w1 ∧ locks w1 = locks w ∧ socket w1 = socket w ∧ locks w !! i = None.
Proof.
  intros Hw Hfree Hp. assert (∀ i, locks w !! i = None) as Hl.
  { intros i. destruct (locks w !! i) as [q|] eqn:E; [|done]. apply (inv_held w Hw) in E. by rewrite Hfree in E. }
  unfold advance. rewrite Hp. unfold open_lock.
  destruct (lock_file w) as [i|]; [by exists i, w|]. by eexists _, _.
Qed.

Lemma locks_alone w p i w1 :
  locks w !! i = None → locks w1 = locks w →
  ∃ w2, advance true p true (goto p (Opened i) w1) = goto p (Locked i) w2 ∧ socket w2 = socket w1.
Proof.
  intros Hi Hl. unfold advance. rewrite goto_same. cbn [goto locks andb]. rewrite Hl, bool_decide_true by done.
  by eexists.
Qed.

Lemma binds_alone p i w n :
  socket w = None → advance true p true (goto p (Binding (Some i) n) w) = goto p (Listening (Some i)) (set_socket (Some (Some p)) (goto p (Binding (Some i) n) w)).
Proof. intros Hs. unfold advance. rewrite goto_same. cbn [goto socket andb]. by rewrite bool_decide_true. Qed.

Lemma listens_alone w p :
  invariant w → (∀ q, held (procs w q) = None) → procs w p = Start →
  ∃ n i, (n ≤ 5)%nat ∧ procs (run (repeat (p, Next true) n) w) p = Listening (Some i) ∧
         socket (run (repeat (p, Next true) n) w) = Some (Some p).
Proof.
  intros Hw Hfree Hp. destruct (free_lock w p Hw Hfree Hp) as (i & w1 & E1 & Hl & Hs & Hi).
  destruct (locks_alone w p i w1 Hi Hl) as (w2 & E2 & Hs2).
  destruct (decide (socket w = None)) as [Hnone|Hsome].
  - assert (advance true p true (goto p (Locked i) w2) = goto p (Binding (Some i) 5) (goto p (Locked i) w2)) as E3.
    { unfold advance. rewrite goto_same. cbn [goto socket]. by rewrite Hs2, Hs, bool_decide_true. }
    exists 4, i. split; [lia|]. cbn [repeat run foldl act]. rewrite E1, E2, E3.
    rewrite binds_alone by (cbn; congruence). by rewrite goto_same.
  - assert (advance true p true (goto p (Locked i) w2) = goto p (Exists i) (goto p (Locked i) w2)) as E3.
    { unfold advance. rewrite goto_same. cbn [goto socket]. by rewrite Hs2, Hs, bool_decide_false. }
    assert (∀ w3, socket w3 = socket w →
      advance true p true (goto p (Exists i) w3) = goto p (Binding (Some i) 5) (set_socket None (goto p (Exists i) w3))) as E4.
    { intros w3 H3. unfold advance. rewrite goto_same. cbn [goto socket]. by rewrite H3, bool_decide_false. }
    exists 5, i. split; [lia|]. cbn [repeat run foldl act]. rewrite E1, E2, E3, E4 by (cbn; congruence).
    rewrite binds_alone by done. by rewrite goto_same.
Qed.

(** ** Properties *)

(** C36: One listener at a time: however processes that bind the same socket,
    with [reuse], interleave, whichever of their system calls fail and whenever
    they are killed, as long as no lock file is removed while another process
    has opened it but not locked it, at most one of them is between locking and
    removing the lock file, and the socket at the path is that of the one that
    listens; and whatever files those before have left, a process that runs when
    no lock is held listens after at most five calls. *)
Theorem unix_exclusive (lock stale : bool) (w : World) :
  reach lock stale w →
  (∀ p q i j, critical (procs w p) = Some i → critical (procs w q) = Some j → p = q) ∧
  (∀ p l, procs w p = Listening l → socket w = Some (Some p)) ∧
  ∀ p, procs w p = Start → (∀ q, held (procs w q) = None) →
    ∃ n i, (n ≤ 5)%nat ∧ procs (run (repeat (p, Next true) n) w) p = Listening (Some i) ∧
           socket (run (repeat (p, Next true) n) w) = Some (Some p).
Proof.
  intros Hw%reach_invariant. split_and!.
  - intros p q i j. by apply critical_unique.
  - intros p [i|] Hp; [by apply (inv_socket w Hw p i)|by destruct (inv_reuse w Hw p)].
  - intros p Hp Hfree. by apply listens_alone.
Qed.

(** What a listener binds: TCP and Unix addresses only, with TLS if it is
    configured. *)
Lemma default_bind_spec `{NetAddrs} {TlsConfig : Type} (address : Endpoint TlsConfig) (tls : bool) :
  match default_bind address tls with
  | inl e => e = address ∧ (∀ a, address ≠ Tcp a) ∧ ∀ path, address ≠ Unix path
  | inr TlsTcp => tls = true ∧ ∃ a, address = Tcp a
  | inr PlainTcp => tls = false ∧ ∃ a, address = Tcp a
  | inr TlsUnix => tls = true ∧ ∃ path, address = Unix path
  | inr PlainUnix => tls = false ∧ ∃ path, address = Unix path
  end.
Proof. destruct address, tls; cbn; eauto. Qed.

(** The lock file is beside the socket and is another file. *)
Lemma lock_path_other path : lock_path path ≠ path.
Proof.
  unfold lock_path, with_extension. destruct (path_extension path) as [e|] eqn:E.
  - intros Hp. apply (f_equal length) in Hp. revert Hp. rewrite length_app, length_take.
    destruct (is_empty e) eqn:He; cbn [negb].
    + apply is_empty_true in He. subst e. cbn [length]. change (length #"lock") with 4. lia.
    + rewrite length_app. change (length #".lock") with 5. lia.
  - intros Hp. apply (f_equal length) in Hp. revert Hp. rewrite !length_app. change (length #"lock") with 4. cbn. lia.
Qed.

(** ** Three processes *)

Module UnixSocketReference.

Definition quiet_start : World := started_from true true.

Lemma quiet_reach : reach true true quiet_start.
Proof. constructor. Qed.

Example unix_exclusive_witness :
  ∃ n i, (n ≤ 5)%nat ∧ procs (run (repeat (7, Next true) n) quiet_start) 7 = Listening (Some i) ∧
         socket (run (repeat (7, Next true) n) quiet_start) = Some (Some 7).
Proof.
  destruct (unix_exclusive true true quiet_start quiet_reach) as (_ & _ & Hp). by apply Hp.
Defined.

(** The first listens; the second opens its lock file; the first is dropped up
    to the removal of that file; the third makes a new one, locks it and
    listens; the first unlocks; and the second locks the file it has opened,
    which is no longer at the path, removes the socket of the third, and listens
    too. *)
Definition race : list (nat * Action) :=
  repeat (1, Next true) 4 ++ [(2, Next true)] ++ repeat (1, Next true) 2 ++ repeat (3, Next true) 4 ++
  [(1, Next true)] ++ repeat (2, Next true) 4.

Lemma lock_file_race :
  let w := run race (started_from false false) in
  procs w 3 = Listening (Some 2) ∧ procs w 2 = Listening (Some 1) ∧ socket w = Some (Some 2) ∧
  locks w !! 2 = Some 3 ∧ locks w !! 1 = Some 2 ∧ lock_file w = Some 2.
Proof. by vm_compute. Qed.

Lemma lock_paths : lock_path #"/run/app.sock" = #"/run/app.sock.lock" ∧ lock_path #"/run/app" = #"/run/app.lock".
Proof. by vm_compute. Qed.
End UnixSocketReference.
