(* ===== verification/Fairings.v ===== *)
(** * Fairings: the collection of fairings (core/lib/src/fairing/fairings.rs,
    info_kind.rs)

    A fairing is a value of a type [F], of which the code uses the [Info], the
    [TypeId] of its concrete type and its callbacks.  The vectors of indices
    into [all_fairings] are lists of [nat]; an index that is out of range is
    skipped, as the [iter!] macro does. *)

From S2P Require Import Prelude Search.

(** [struct Kind], a set of bits, and its constants. *)
Definition Kind : Type := Z.
Definition Ignite : Kind := Z.shiftl 1 0.
Definition Liftoff : Kind := Z.shiftl 1 1.
Definition KRequest : Kind := Z.shiftl 1 2.
Definition KResponse : Kind := Z.shiftl 1 3.
Definition Shutdown : Kind := Z.shiftl 1 4.
Definition Singleton : Kind := Z.shiftl 1 5.

(** [Kind::is], [is_exactly], [BitOr for Kind]. *)
Definition kind_is (self other : Kind) : bool := (Z.land other self =? other)%Z.
Definition kind_is_exactly (self other : Kind) : bool := (self =? other)%Z.
Definition kind_or (self rhs : Kind) : Kind := Z.lor self rhs.

(** [struct Info]. *)
Record Info := Info_new { info_name : str; info_kind : Kind }.

Section Fairings.
Context {F : Type} (info : F → Info) (type_id : F → nat).

(** [struct Fairings]. *)
Record Fairings := Fairings_with {
  all_fairings : list F;
  failures : list Info;
  num_ignited : nat;
  ignite : list nat;
  liftoff : list nat;
  request : list nat;
  response : list nat;
  shutdown : list nat;
}.

(** [Fairings::new]. *)
Definition fairings_new : Fairings := Fairings_with [] [] 0 [] [] [] [] [].

(** [iter!]: the fairings at some indices, with the indices. *)
Definition iter (self : Fairings) (indices : list nat) : list (nat * F) :=
  omap (λ i, f ← all_fairings self !! i; Some (i, f)) indices.

(** [Fairings::active], [unique_active], [unique_set]. *)
Definition active (self : Fairings) : list nat :=
  ignite self ++ liftoff self ++ request self ++ response self ++ shutdown self.

Definition unique_active (self : Fairings) : list nat :=
  let bitmap := foldl (λ b i, <[i := true]> b) (replicate (length (all_fairings self)) false)
                  (active self) in
  omap id (imap (λ i (active : bool), if active then Some i else None) bitmap).

Definition unique_set (self : Fairings) : list F := snd <$> iter self (unique_active self).

(** [Iterator::position]. *)
Fixpoint position {A} (P : A → bool) (l : list A) : option nat :=
  match l with
  | [] => None
  | a :: l => if P a then Some 0%nat else S <$> position P l
  end.

(** [Vec::dedup]. *)
Fixpoint dedup (l : list nat) : list nat :=
  match l with
  | a :: (b :: _) as l' => if (a =? b)%nat then dedup l' else a :: dedup l'
  | l => l
  end.

(** The closure [remove] of [Fairings::add]. *)
Definition remove (k : nat) (from : list nat) : list nat :=
  match binary_search_by (λ x, Nat.compare x k) from with
  | inl j => delete j from
  | inr _ => from
  end.

Definition remove_all (self : Fairings) (i : nat) : Fairings :=
  Fairings_with (all_fairings self) (failures self) (num_ignited self)
    (remove i (ignite self)) (remove i (liftoff self)) (remove i (request self))
    (remove i (response self)) (remove i (shutdown self)).

(** The active duplicates of a fairing, from the last to the first. *)
Definition duplicates (this : F) (self : Fairings) : list nat :=
  let dups := fst <$> List.filter (λ p, (type_id p.2 =? type_id this)%nat)
                        (iter self (unique_active self)) in
  reverse (dedup (sort_by_key Z.of_nat dups)).

(** The last part of [Fairings::add]. *)
Definition push (this : F) (self : Fairings) : Fairings :=
  let kind := info_kind (info this) in
  let index := length (all_fairings self) in
  let push_if k l := if kind_is kind k then l ++ [index] else l in
  Fairings_with (all_fairings self ++ [this]) (failures self) (num_ignited self)
    (push_if Ignite (ignite self)) (push_if Liftoff (liftoff self))
    (push_if KRequest (request self)) (push_if KResponse (response self))
    (push_if Shutdown (shutdown self)).

(** [Fairings::add]. *)
Definition add (this : F) (self : Fairings) : Fairings :=
  if kind_is (info_kind (info this)) Singleton then
    let ignite_dup :=
      position (λ p, (type_id p.2 =? type_id this)%nat) (iter self (ignite self)) in
    if match ignite_dup with Some i => (i <? num_ignited self)%nat | None => false end then
      Fairings_with (all_fairings self) (failures self ++ [info this]) (num_ignited self)
        (ignite self) (liftoff self) (request self) (response self) (shutdown self)
    else push this (foldl remove_all self (duplicates this self))
  else push this self.

(** [Fairings::append]; the fairings of [others] are drained. *)
Definition append (others self : Fairings) : Fairings :=
  foldl (λ self f, add f self) self (all_fairings others).

(** [Fairings::audit]. *)
Definition audit (self : Fairings) : unit + list Info :=
  match failures self with [] => inl tt | failures => inr failures end.

(** [Fairings::handle_request], [handle_response]: the callbacks one after
    the other, on a state they change. *)
Definition handle {St} (callback : F → St → St) (self : Fairings) (indices : list nat) (st : St) : St :=
  foldl (λ st p, callback p.2 st) st (iter self indices).

Definition handle_request {St} (on_request : F → St → St) (self : Fairings) : St → St :=
  handle on_request self (request self).
Definition handle_response {St} (on_response : F → St → St) (self : Fairings) : St → St :=
  handle on_response self (response self).

(** [Fairings::handle_ignite]: an ignite fairing changes the rest of the
    instance, may attach fairings to it, and reports success.  While the
    callbacks run, the instance has a collection of its own. *)
Section ignite.
Context {R : Type} (on_ignite : F → R * Fairings → R * Fairings * bool).

Definition ignite_one (st : R * Fairings * Fairings) (p : nat * F) : R * Fairings * Fairings :=
  let '(rocket, attached, fairings) := st in
  let '(rocket, attached, ok) := on_ignite p.2 (rocket, attached) in
  (rocket, attached,
   Fairings_with (all_fairings fairings)
     (if ok then failures fairings else failures fairings ++ [info p.2])
     (num_ignited fairings + 1) (ignite fairings) (liftoff fairings) (request fairings)
     (response fairings) (shutdown fairings)).

(** The loop ends when no fairing attaches another for ever. *)
Fixpoint handle_ignite (fuel : nat) (rocket : R) (fairings : Fairings) : option (R * Fairings) :=
  match fuel with
  | O => None
  | S fuel =>
    if (num_ignited fairings <? length (ignite fairings))%nat then
      let pending := drop (num_ignited fairings) (iter fairings (ignite fairings)) in
      let '(rocket, attached, fairings) :=
        foldl ignite_one (rocket, fairings_new, fairings) pending in
      handle_ignite fuel rocket (append attached fairings)
    else Some (rocket, fairings)
  end.
End ignite.
End Fairings.
Arguments Fairings : clear implicits.

(** ** Lemmas *)

Lemma sorted_by_compare k l : StronglySorted lt l → sorted_by (λ x, Nat.compare x k) l.
Proof.
  intros Hs i j a b Hij Hi Hj. rewrite !Nat.compare_gt_iff, !Nat.compare_lt_iff.
  destruct (decide (i = j)) as [->|Hne]; [simplify_eq; lia|].
  pose proof (sorted_lookup lt l i j a b Hs ltac:(lia) Hi Hj). lia.
Qed.

Lemma filter_true_id {A} (P : A → bool) l : Forall (λ x, P x = true) l → List.filter P l = l.
Proof. induction 1 as [|x l Hx _ IH]; simpl; [done|by rewrite Hx, IH]. Qed.

Lemma remove_filter k l :
  StronglySorted lt l → remove k l = List.filter (λ x, negb (x =? k)%nat) l.
Proof.
  intros Hs. unfold remove.
  pose proof (binary_search_by_spec _ l (sorted_by_compare k l Hs)) as Hb.
  destruct (binary_search_by _ l) as [j|j].
  - destruct Hb as (a & Ha & ->%Nat.compare_eq_iff).
    rewrite <-(take_drop_middle l j k Ha) in Hs |- *.
    rewrite delete_take_drop. rewrite StronglySorted_app, StronglySorted_cons in Hs.
    destruct Hs as (H12 & _ & H2 & _). apply lookup_lt_Some in Ha as Hlt.
    rewrite take_app_length', drop_app_ge by (rewrite length_take; lia).
    rewrite length_take, Nat.min_l, Nat.sub_succ_l, Nat.sub_diag by lia. simpl.
    rewrite List.filter_app. simpl. rewrite Nat.eqb_refl. simpl. rewrite !filter_true_id; [done|..].
    + eapply Forall_impl; [exact H2|]. intros x Hx. apply negb_true_iff, Nat.eqb_neq. lia.
    + apply Forall_forall. intros x Hx. apply negb_true_iff, Nat.eqb_neq.
      specialize (H12 x k Hx ltac:(set_solver)). lia.
  - destruct Hb as (_ & H1 & H2). rewrite filter_true_id; [done|].
    rewrite <-(take_drop j l). apply Forall_app. split.
    + eapply Forall_impl; [exact H1|]. intros x Hx%Nat.compare_lt_iff.
      apply negb_true_iff, Nat.eqb_neq. lia.
    + eapply Forall_impl; [exact H2|]. intros x Hx%Nat.compare_gt_iff.
      apply negb_true_iff, Nat.eqb_neq. lia.
Qed.

Lemma sorted_filter {A} (R : A → A → Prop) P l :
  StronglySorted R l → StronglySorted R (List.filter P l).
Proof.
  induction 1 as [|x l _ IH Hx]; simpl; [constructor|]. destruct (P x); [|done].
  constructor; [done|]. rewrite Forall_forall in Hx |- *. intros y Hy. apply Hx.
  apply list_elem_of_In in Hy. apply filter_In in Hy as [Hy _]. by apply list_elem_of_In.
Qed.

Lemma filter_filter_and {A} (P Q : A → bool) l :
  List.filter P (List.filter Q l) = List.filter (λ x, Q x && P x) l.
Proof.
  induction l as [|x l IH]; simpl; [done|]. destruct (Q x) eqn:E; simpl; [|done].
  by destruct (P x); rewrite IH.
Qed.

Lemma foldl_remove dups l :
  StronglySorted lt l →
  foldl (λ l i, remove i l) l dups = List.filter (λ x, negb (existsb (Nat.eqb x) dups)) l.
Proof.
  revert l. induction dups as [|d dups IH]; intros l Hs; simpl.
  - rewrite filter_true_id; [done|]. by apply Forall_forall.
  - rewrite IH by (rewrite remove_filter by done; by apply sorted_filter).
    rewrite remove_filter, filter_filter_and by done. apply List.filter_ext. intros x.
    by rewrite negb_orb.
Qed.

Lemma elem_of_dedup x l : x ∈ dedup l ↔ x ∈ l.
Proof.
  induction l as [|a [|b l] IH]; [done|done|]. cbn [dedup].
  destruct (Nat.eqb_spec a b) as [->|]; [rewrite IH; set_solver|].
  rewrite !(elem_of_cons _ _ a), IH. done.
Qed.

Section fairings_lemmas.
Context {F : Type} (info : F → Info) (type_id : F → nat).

(** The indices of each kind are increasing and in range, and the fairings
    that have been ignited are ignite fairings. *)
Definition fairings_wf (self : Fairings F) : Prop :=
  Forall (λ l, StronglySorted lt l ∧ Forall (λ i, (i < length (all_fairings self))%nat) l)
    [ignite self; liftoff self; request self; response self; shutdown self] ∧
  (num_ignited self ≤ length (ignite self))%nat.

(** An index whose fairing has the type of [this]. *)
Definition same_type (this : F) (self : Fairings F) (i : nat) : bool :=
  match all_fairings self !! i with
  | Some f => (type_id f =? type_id this)%nat
  | None => false
  end.

Lemma elem_of_iter (self : Fairings F) indices i f :
  (i, f) ∈ iter self indices ↔ i ∈ indices ∧ all_fairings self !! i = Some f.
Proof.
  unfold iter. rewrite list_elem_of_omap. split.
  - intros (j & Hj & Hb). destruct (all_fairings self !! j) eqn:E; [|done]. by simplify_eq/=.
  - intros [Hi Hf]. exists i. split; [done|]. by rewrite Hf.
Qed.

Lemma bitmap_lookup active n i :
  foldl (λ b j, <[j := true]> b) (replicate n false) active !! i = Some true ↔
  i ∈ active ∧ (i < n)%nat.
Proof.
  induction active as [|j active IH] using rev_ind; simpl.
  - split; [intros [? ?]%lookup_replicate; congruence|set_solver].
  - rewrite foldl_app. simpl. set (b := foldl _ _ active) in *.
    assert (length b = n) as Hl.
    { unfold b. clear. induction active as [|k a IH] using rev_ind; simpl;
        [by rewrite length_replicate|]. rewrite foldl_app. simpl. by rewrite length_insert. }
    rewrite elem_of_app, list_elem_of_singleton. destruct (decide (i = j)) as [->|Hne].
    + split; [intros Hb|intros [_ Hn]; by apply list_lookup_insert_eq; rewrite Hl].
      apply lookup_lt_Some in Hb. rewrite length_insert, Hl in Hb. auto.
    + rewrite list_lookup_insert_ne, IH by done. naive_solver.
Qed.

Lemma elem_of_unique_active (self : Fairings F) i :
  i ∈ unique_active self ↔ i ∈ active self ∧ (i < length (all_fairings self))%nat.
Proof.
  rewrite <-bitmap_lookup. unfold unique_active. rewrite list_elem_of_omap. split.
  - intros (o & Ho & Hi). unfold id in Hi. subst o. apply list_elem_of_lookup in Ho as [k Hk].
    rewrite list_lookup_imap in Hk. destruct (_ !! k) as [[]|] eqn:E; simplify_eq/=. done.
  - intros Hi. exists (Some i). split; [|done]. apply list_elem_of_lookup. exists i.
    by rewrite list_lookup_imap, Hi.
Qed.

Lemma elem_of_duplicates this (self : Fairings F) i :
  i ∈ duplicates type_id this self ↔ i ∈ active self ∧ same_type this self i = true.
Proof.
  unfold duplicates, same_type. rewrite elem_of_reverse, elem_of_dedup, elem_of_sort_by_key.
  rewrite list_elem_of_fmap. split.
  - intros ([j f] & -> & Hj). apply elem_of_filter_bool in Hj as [Hj Ht].
    apply elem_of_iter in Hj as [Hj Hf]. apply elem_of_unique_active in Hj as [Hj _].
    simpl. by rewrite Hf.
  - intros [Hi Ht]. destruct (all_fairings self !! i) as [f|] eqn:Hf; [|done].
    exists (i, f). split; [done|]. apply elem_of_filter_bool. split; [|done].
    apply elem_of_iter. split; [|done]. apply elem_of_unique_active.
    split; [done|]. by apply lookup_lt_Some in Hf.
Qed.

Lemma foldl_remove_all dups (self : Fairings F) :
  fairings_wf self →
  let drop_dups := List.filter (λ x, negb (existsb (Nat.eqb x) dups)) in
  foldl remove_all self dups =
  Fairings_with (all_fairings self) (failures self) (num_ignited self)
    (drop_dups (ignite self)) (drop_dups (liftoff self)) (drop_dups (request self))
    (drop_dups (response self)) (drop_dups (shutdown self)).
Proof.
  intros [Hl _] drop_dups. unfold drop_dups.
  repeat apply Forall_cons in Hl as [[? _] Hl]. rewrite <-!foldl_remove by done.
  clear. destruct self as [a f n i l q r s]. cbn. revert i l q r s.
  induction dups as [|d dups IH]; intros i l q r s; [done|]. apply IH.
Qed.

(** Dropping the duplicates from a list of active indices. *)
Lemma drop_duplicates this (self : Fairings F) l :
  (∀ i, i ∈ l → i ∈ active self) →
  List.filter (λ x, negb (existsb (Nat.eqb x) (duplicates type_id this self))) l =
  List.filter (λ i, negb (same_type this self i)) l.
Proof.
  intros Hl. apply List.filter_ext_in. intros i Hi%list_elem_of_In. f_equal.
  apply eq_true_iff_eq. rewrite existsb_exists. setoid_rewrite <-list_elem_of_In.
  setoid_rewrite elem_of_duplicates. setoid_rewrite Nat.eqb_eq. naive_solver.
Qed.

(** The duplicate that [add] refuses: one that has been ignited. *)
Definition refused (this : F) (self : Fairings F) : Prop :=
  kind_is (info_kind (info this)) Singleton = true ∧
  ∃ i, i ∈ take (num_ignited self) (ignite self) ∧ same_type this self i = true.

Lemma position_spec {A} (P : A → bool) l n :
  match position P l with Some i => (i <? n)%nat | None => false end = true ↔
  ∃ a, a ∈ take n l ∧ P a = true.
Proof.
  revert n. induction l as [|a l IH]; intros n; simpl.
  - rewrite take_nil. set_solver.
  - destruct n as [|n]; simpl; [|destruct (P a) eqn:E].
    + split; [|set_solver]. destruct (P a); [done|]. by destruct (position P l).
    + split; [|done]. intros _. exists a. set_solver.
    + setoid_rewrite elem_of_cons. destruct (IH n) as [IH1 IH2].
      destruct (position P l) as [i|]; simpl in *; (split; [intros Hp|intros (b & [->|Hb] & Hp)]).
      * destruct (IH1 Hp) as (b & Hb & Hpb). exists b. auto.
      * congruence.
      * apply IH2. eauto.
      * done.
      * congruence.
      * apply IH2. eauto.
Qed.

(** Every index of a well-formed list has a fairing. *)
Lemma iter_indices (self : Fairings F) l :
  Forall (λ i, (i < length (all_fairings self))%nat) l → fst <$> iter self l = l.
Proof.
  unfold iter. induction 1 as [|i l Hi _ IH]; [done|]. simpl.
  destruct (lookup_lt_is_Some_2 _ _ Hi) as [f ->]. simpl. by f_equal.
Qed.

Lemma refused_iff this (self : Fairings F) :
  fairings_wf self → kind_is (info_kind (info this)) Singleton = true →
  match position (λ p, (type_id p.2 =? type_id this)%nat) (iter self (ignite self)) with
  | Some i => (i <? num_ignited self)%nat
  | None => false
  end = true ↔ refused this self.
Proof.
  intros [Hl _] Hs. rewrite position_spec. unfold refused.
  apply Forall_cons in Hl as [[_ Hr] _]. pose proof (iter_indices self _ Hr) as Hi.
  assert (∀ i f, (i, f) ∈ take (num_ignited self) (iter self (ignite self)) →
            i ∈ take (num_ignited self) (ignite self) ∧ all_fairings self !! i = Some f) as Hto.
  { intros i f Hin. split.
    - rewrite <-Hi, <-fmap_take. by apply (list_elem_of_fmap_2 fst) in Hin.
    - apply elem_of_take in Hin as (k & Hk & _). apply list_elem_of_lookup_2 in Hk.
      apply elem_of_iter in Hk. apply Hk. }
  split.
  - intros ([i f] & Hin & Ht). split; [done|]. destruct (Hto i f Hin) as [Hi' Hf].
    exists i. split; [done|]. unfold same_type. by rewrite Hf.
  - intros (_ & i & Hin & Ht). rewrite <-Hi, <-fmap_take in Hin.
    apply list_elem_of_fmap in Hin as ([j f] & -> & Hin). exists (j, f). split; [done|].
    destruct (Hto j f Hin) as [_ Hf]. unfold same_type in Ht. simpl in Ht |- *. by rewrite Hf in Ht.
Qed.

(** What [push] does to the invariant. *)
Lemma push_wf this (self : Fairings F) :
  fairings_wf self → fairings_wf (push info this self).
Proof.
  intros [Hl Hn].
  assert (∀ k l, StronglySorted lt l ∧ Forall (λ i, (i < length (all_fairings self))%nat) l →
    let l' := if kind_is (info_kind (info this)) k then l ++ [length (all_fairings self)] else l in
    StronglySorted lt l' ∧ Forall (λ i, (i < length (all_fairings self ++ [this]))%nat) l') as Hp.
  { intros k l [Hs Hr]. rewrite length_app. simpl. rewrite Forall_forall in Hr.
    case_match; split.
    - apply StronglySorted_app_2; [|done|by repeat constructor]. intros x y Hx.
      intros ->%list_elem_of_singleton. by apply Hr.
    - apply Forall_forall. intros x. rewrite elem_of_app, list_elem_of_singleton.
      intros [Hx%Hr| ->]; lia.
    - done.
    - apply Forall_forall. intros x Hx%Hr. lia. }
  repeat apply Forall_cons in Hl as [? Hl]. split.
  - repeat constructor; by apply Hp.
  - simpl. case_match; [rewrite length_app; simpl|]; lia.
Qed.

(** The prefix of the list that has been ignited has no duplicate to drop. *)
Lemma ignited_prefix this (self : Fairings F) :
  ¬ refused this self → kind_is (info_kind (info this)) Singleton = true →
  let kept := List.filter (λ i, negb (same_type this self i)) in
  kept (ignite self) =
    take (num_ignited self) (ignite self) ++ kept (drop (num_ignited self) (ignite self)).
Proof.
  intros Hn Hs kept. unfold kept. rewrite <-(take_drop (num_ignited self) (ignite self)) at 1.
  rewrite List.filter_app. f_equal. apply filter_true_id, Forall_forall. intros i Hi.
  apply negb_true_iff. destruct (same_type this self i) eqn:E; [|done].
  destruct Hn. split; [done|]. by exists i.
Qed.

(** The collection without the active fairings of a type. *)
Definition pruned (this : F) (self : Fairings F) : Fairings F :=
  if kind_is (info_kind (info this)) Singleton then
    let kept := List.filter (λ i, negb (same_type this self i)) in
    Fairings_with (all_fairings self) (failures self) (num_ignited self)
      (kept (ignite self)) (kept (liftoff self)) (kept (request self))
      (kept (response self)) (kept (shutdown self))
  else self.

Lemma add_accepted this (self : Fairings F) :
  fairings_wf self → ¬ refused this self →
  add info type_id this self = push info this (pruned this self).
Proof.
  intros Hwf Hn. unfold add, pruned. destruct (kind_is _ Singleton) eqn:Hs; [|done].
  destruct (match position _ _ with Some i => _ | None => _ end) eqn:Hp;
    [by apply refused_iff in Hp|]. f_equal.
  rewrite foldl_remove_all by done. f_equal; apply drop_duplicates; unfold active; set_solver.
Qed.

Lemma pruned_wf this (self : Fairings F) :
  fairings_wf self → ¬ refused this self → fairings_wf (pruned this self) ∧
  take (num_ignited self) (ignite (pruned this self)) = take (num_ignited self) (ignite self).
Proof.
  intros [Hl Hn] Hr. unfold pruned. destruct (kind_is _ Singleton) eqn:Hs; [|done].
  pose proof (ignited_prefix this self Hr Hs) as Hi. cbn zeta in Hi.
  assert (length (take (num_ignited self) (ignite self)) = num_ignited self) as Hlen
    by (by apply length_take_le).
  split.
  - split; [|cbn [ignite num_ignited]; rewrite Hi, length_app, Hlen; lia].
    repeat (apply Forall_cons in Hl as [[? ?] Hl]).
    assert (∀ l, StronglySorted lt l ∧ Forall (λ i, (i < length (all_fairings self))%nat) l →
      let l' := List.filter (λ i, negb (same_type this self i)) l in
      StronglySorted lt l' ∧ Forall (λ i, (i < length (all_fairings self))%nat) l') as Hf.
    { intros l [Hsl Hrl]. split; [by apply sorted_filter|]. rewrite Forall_forall in Hrl |- *.
      intros i [Hin _]%elem_of_filter_bool. by apply Hrl. }
    repeat constructor; by apply Hf.
  - cbn [ignite]. rewrite Hi. by rewrite take_app_length'.
Qed.

(** The list of the indices of a kind once a fairing is accepted. *)
Definition added (this : F) (self : Fairings F) (k : Kind) (l : list nat) : list nat :=
  (if kind_is (info_kind (info this)) Singleton
   then List.filter (λ i, negb (same_type this self i)) l else l) ++
  (if kind_is (info_kind (info this)) k then [length (all_fairings self)] else []).

Lemma push_pruned this (self : Fairings F) :
  push info this (pruned this self) =
  Fairings_with (all_fairings self ++ [this]) (failures self) (num_ignited self)
    (added this self Ignite (ignite self)) (added this self Liftoff (liftoff self))
    (added this self KRequest (request self)) (added this self KResponse (response self))
    (added this self Shutdown (shutdown self)).
Proof.
  unfold push, pruned, added.
  destruct (kind_is _ Singleton); cbn; f_equal; case_match; by rewrite ?app_nil_r.
Qed.

Lemma refused_dec this (self : Fairings F) :
  fairings_wf self → refused this self ∨ ¬ refused this self.
Proof.
  intros Hwf. destruct (kind_is (info_kind (info this)) Singleton) eqn:Hs;
    [|right; intros [Hr _]; congruence].
  pose proof (refused_iff this self Hwf Hs) as Hr.
  destruct (match position _ _ with Some i => _ | None => _ end); [left; by apply Hr|right].
  intros Hx. by apply Hr in Hx.
Qed.

Lemma add_refused this (self : Fairings F) :
  fairings_wf self → refused this self →
  add info type_id this self = Fairings_with (all_fairings self) (failures self ++ [info this])
    (num_ignited self) (ignite self) (liftoff self) (request self) (response self) (shutdown self).
Proof.
  intros Hwf Hr. unfold add. pose proof (proj1 Hr) as Hs. rewrite Hs.
  by rewrite (proj2 (refused_iff this self Hwf Hs) Hr).
Qed.

(** A singleton is the only active fairing of its type. *)
Lemma singleton_unique this (self : Fairings F) i :
  fairings_wf self → kind_is (info_kind (info this)) Singleton = true →
  i ∈ active (push info this (pruned this self)) →
  same_type this (push info this (pruned this self)) i = true → i = length (all_fairings self).
Proof.
  intros [Hl _] Hs. rewrite push_pruned. unfold added. rewrite Hs. intros Hi Hst.
  destruct (decide (i = length (all_fairings self))) as [|Hne]; [done|].
  assert (i ∈ active self ∧ same_type this self i = false) as [Ha Hst'].
  { revert Hi. unfold active. cbn. rewrite !elem_of_app, !elem_of_filter_bool, !negb_true_iff.
    assert (∀ k, i ∈ (if kind_is (info_kind (info this)) k then [length (all_fairings self)] else [])
      → False) as Hk by (intros k; destruct (kind_is _ k); set_solver).
    naive_solver. }
  unfold same_type in Hst, Hst'. cbn in Hst. rewrite lookup_app_l in Hst; [congruence|].
  assert (Forall (λ i, (i < length (all_fairings self))%nat) (active self)) as Hall.
  { repeat (apply Forall_cons in Hl as [[? ?] Hl]). unfold active. by rewrite !Forall_app. }
  rewrite Forall_forall in Hall. by apply Hall.
Qed.

(** Attaching a fairing keeps the invariant and never disturbs the fairings
    that have been ignited.  A singleton one of whose kind has been ignited is
    refused and reported as a failure; any other fairing is added to the lists
    of its kinds, after the others, which keep their order; and a singleton
    replaces every active fairing of its type. *)
Theorem add_spec (this : F) (self : Fairings F) :
  fairings_wf self →
  let result := add info type_id this self in
  fairings_wf result ∧
  take (num_ignited self) (ignite result) = take (num_ignited self) (ignite self) ∧
  (refused this self →
   result = Fairings_with (all_fairings self) (failures self ++ [info this]) (num_ignited self)
     (ignite self) (liftoff self) (request self) (response self) (shutdown self)) ∧
  (¬ refused this self →
   result = Fairings_with (all_fairings self ++ [this]) (failures self) (num_ignited self)
     (added this self Ignite (ignite self)) (added this self Liftoff (liftoff self))
     (added this self KRequest (request self)) (added this self KResponse (response self))
     (added this self Shutdown (shutdown self)) ∧
   (kind_is (info_kind (info this)) Singleton = true →
    ∀ i, i ∈ active result → same_type this result i = true →
    i = length (all_fairings self))).
Proof.
  intros Hwf result. unfold result.
  destruct (refused_dec this self Hwf) as [Hr|Hr]; [by rewrite add_refused|].
  destruct (pruned_wf this self Hwf Hr) as [Hw Ht]. rewrite add_accepted by done.
  split_and!; [by apply push_wf| |done|].
  - rewrite <-Ht. unfold push. cbn [ignite].
    assert (num_ignited self ≤ length (ignite (pruned this self)))%nat.
    { destruct Hw as [_ Hw]. unfold pruned in *. by destruct (kind_is _ Singleton). }
    case_match; [by rewrite take_app_le|done].
  - intros _. split; [apply push_pruned|]. intros Hs i. by apply singleton_unique.
Qed.
End fairings_lemmas.

(** ** An instance *)

(** Fairings that are their type and their kind. *)
Section witness.
Definition demo_info (f : nat * Kind) : Info := Info_new (#"demo") f.2.
Definition demo_add : nat * Kind → Fairings (nat * Kind) → Fairings (nat * Kind) :=
  add demo_info fst.

Example add_spec_witness :
  let self := demo_add (2, KRequest) (demo_add (1, kind_or KRequest Singleton) fairings_new) in
  fairings_wf self ∧ request (demo_add (1, kind_or KRequest Singleton) self) = [1; 2].
Proof.
  intros self.
  assert (fairings_wf self) as Hw.
  { split; [repeat constructor|done]. }
  split; [done|].
  assert (¬ refused demo_info fst (1, kind_or KRequest Singleton) self) as Hr.
  { intros (_ & i & Hi & _). by apply elem_of_nil in Hi. }
  destruct (add_spec demo_info fst (1, kind_or KRequest Singleton) self Hw) as (_ & _ & _ & Ha).
  destruct (Ha Hr) as [He _]. unfold demo_add at 1. rewrite He. by vm_compute.
Defined.
End witness.
