(* ===== verification/Config.v ===== *)
(** * Config: the configuration of an instance (core/lib/src/config/config.rs,
    secret_key.rs, ident.rs, http_header.rs, cli_colors.rs,
    shutdown/config.rs, shutdown/sig.rs)

    Profiles and sources of configuration are those of the [figment] crate,
    keys those of [cookie]; [figment] hands the values it read to the visitors
    of this file, one method per kind of value.  A method that a visitor does
    not have is an error, as are all the [Err]s, which only carry a message. *)

From S2P Require Import Prelude Header Limits.

(** ** Values *)

(** The values a deserializer has for a visitor, by the method it calls. *)
Inductive Value :=
  | VBool (v : bool)
  | VI64 (v : Z)
  | VU64 (v : Z)
  | VStr (v : str)
  | VBytes (v : list Z)
  | VSeq (v : list Z)
  | VUnit
  | VNone
  | VSome (v : Value).

(** ** Secret keys *)

(** The [cookie] crate's [Key]: 64 bytes, of which [master] has all.  [from]
    panics with fewer than 64 bytes, [derive_from] with fewer than 32. *)
Class CookieKey := {
  Key : Type;
  key_eq_dec :: EqDecision Key;
  key_from : list Z → option Key;
  key_derive_from : list Z → option Key;
  master : Key → list Z;
}.

Class CookieKeyLaws `{CookieKey} : Prop := {
  key_from_ge b : 64 ≤ length b → ∃ k, key_from b = Some k ∧ master k = take 64 b;
  key_from_lt b : length b < 64 → key_from b = None;
  key_derive_from_ge b : 32 ≤ length b → is_Some (key_derive_from b);
  master_length k : length (master k) = 64;
  master_inj k k' : master k = master k' → k = k';
}.

(** The [binascii] crate; [None] is an error. *)
Class Binascii := {
  b64decode : str → option (list Z);
  hex2bin : str → option (list Z);
}.

Section secret_key.
Context `{CookieKey} `{Binascii}.

(** [struct SecretKey]. *)
Record SecretKey := mkSecretKey { key : Key; provided : bool }.

(** [SecretKey::zero], [from], [derive_from]; [None] is a panic. *)
Definition secret_zero : option SecretKey :=
  key ← key_from (replicate 64 0%Z);
  Some (mkSecretKey key false).

Definition secret_from (master : list Z) : option SecretKey :=
  key ← key_from master;
  Some (mkSecretKey key true).

Definition secret_derive_from (material : list Z) : option SecretKey :=
  key ← key_derive_from material;
  Some (mkSecretKey key true).

(** [SecretKey::generate]: what the crate generated, if it could. *)
Definition secret_generate (try_generate : option Key) : option SecretKey :=
  key ← try_generate;
  Some (mkSecretKey key false).

(** [PartialEq for SecretKey], [is_zero], [is_provided]. *)
Definition secret_eq (self other : SecretKey) : bool := bool_decide (key self = key other).

(** The conversion of 64 bytes does not panic. *)
Definition is_zero (self : SecretKey) : bool :=
  match secret_zero with Some zero => secret_eq self zero | None => false end.

Definition is_provided (self : SecretKey) : bool := provided self && negb (is_zero self).

(** [Display for SecretKey]. *)
Definition secret_display (self : SecretKey) : str :=
  if is_zero self then #"[zero]"
  else if provided self then #"[provided]" else #"[generated]".

(** The visitor of [Deserialize for SecretKey]. *)
Definition secret_visit_bytes (bytes : list Z) : option SecretKey :=
  if (length bytes <? 32)%nat then None
  else if forallb (λ b, b =? 0)%Z bytes then secret_zero
  else if (64 <=? length bytes)%nat then secret_from bytes
  else secret_derive_from bytes.

Definition secret_visit_str (val : str) : option SecretKey :=
  bytes ← (if decide (length val = 44 ∨ length val = 88) then b64decode val
           else if decide (length val = 64) then hex2bin val
           else None);
  secret_visit_bytes bytes.

Definition secret_deserialize (v : Value) : option SecretKey :=
  match v with
  | VStr val => secret_visit_str val
  | VBytes bytes => secret_visit_bytes bytes
  | VSeq bytes => secret_visit_bytes bytes
  | _ => None
  end.

(** The [secret_key] of [Provider::data]: the serializer writes 32 zero bytes,
    which the key's own bytes replace unless it is zero. *)
Definition secret_data (self : SecretKey) : Value :=
  if is_zero self then VSeq (replicate 32 0%Z) else VSeq (master (key self)).
End secret_key.

(** ** Identifiers and header names *)

(** [struct Ident]. *)
Record Ident := mkIdent { ident_value : option str }.

Definition ident_try_new (ident : str) : option Ident :=
  if is_valid_value ident false then Some (mkIdent (Some ident)) else None.

Definition ident_none : Ident := mkIdent None.
Definition ident_as_str (self : Ident) : option str := ident_value self.

(** [Ident::default]: [ident!] unwraps what it checked when it was compiled. *)
Definition ident_default : option Ident := ident_try_new #"Rocket".

Definition ident_display (self : Ident) : str :=
  match ident_as_str self with Some name => name | None => #"disabled" end.

Fixpoint ident_deserialize (v : Value) : option Ident :=
  match v with
  | VBool false => Some ident_none
  | VSome v => ident_deserialize v
  | VNone | VUnit => Some ident_none
  | VStr v => ident_try_new v
  | _ => None
  end.

(** [http_header::deserialize]. *)
Fixpoint http_header_deserialize (v : Value) : option (option str) :=
  match v with
  | VBool false => Some None
  | VSome v => http_header_deserialize v
  | VNone | VUnit => Some None
  | VStr v => if is_valid_name v then Some (Some v) else None
  | _ => None
  end.

(** ** Colors *)

Inductive CliColors := Always | Auto | Never.

Definition cli_colors_display (self : CliColors) : str :=
  match self with Always => #"always" | Auto => #"auto" | Never => #"never" end.

(** The visitor's [visit_str], given [str::to_lowercase]. *)
Definition cli_colors_visit_str (lowercase : str) : option CliColors :=
  if decide (lowercase = #"true") then Some Auto
  else if decide (lowercase = #"false") then Some Never
  else if decide (lowercase = #"1") then Some Auto
  else if decide (lowercase = #"0") then Some Never
  else if decide (lowercase = #"always") then Some Always
  else if decide (lowercase = #"auto") then Some Auto
  else if decide (lowercase = #"never") then Some Never
  else None.

Definition cli_colors_deserialize (to_lowercase : str → str) (v : Value) : option CliColors :=
  match v with
  | VStr val => cli_colors_visit_str (to_lowercase val)
  | VBool true => Some Auto
  | VBool false => Some Never
  | VI64 1 | VU64 1 => Some Auto
  | VI64 0 | VU64 0 => Some Never
  | _ => None
  end.

(** ** Shutdown *)

(** [enum Sig]. *)
Inductive Sig := Alrm | Chld | Hup | Int | Io | Pipe | Quit | Term | Usr1 | Usr2.

#[export] Instance Sig_eq_dec : EqDecision Sig.
Proof. solve_decision. Defined.

Definition sig_as_str (self : Sig) : str :=
  match self with
  | Alrm => #"SIGALRM" | Chld => #"SIGCHLD" | Hup => #"SIGHUP" | Int => #"SIGINT"
  | Io => #"SIGIO" | Pipe => #"SIGPIPE" | Quit => #"SIGQUIT" | Term => #"SIGTERM"
  | Usr1 => #"SIGUSR1" | Usr2 => #"SIGUSR2"
  end.

(** [struct ShutdownConfig]; a [HashSet] of signals is a list without
    duplicates.  [grace] and [mercy] are [u32]s, in seconds. *)
Record ShutdownConfig := mkShutdownConfig {
  ctrlc : bool;
  signals : list Sig;
  grace_period : Z;
  mercy_period : Z;
  force : bool;
}.

Definition shutdown_default : ShutdownConfig := mkShutdownConfig true [Term] 2 3 true.

(** [ShutdownConfig::grace], [mercy]: [Duration]s, in microseconds. *)
Definition grace (self : ShutdownConfig) : Z := (grace_period self * 1000000)%Z.
Definition mercy (self : ShutdownConfig) : Z := (mercy_period self * 1000000)%Z.

(** [HashSet::insert]. *)
Definition sig_insert (s : Sig) (l : list Sig) : list Sig := if decide (s ∈ l) then l else s :: l.

(** [ShutdownConfig::signal_stream] on unix: the signals whose streams are
    merged, [signal] being what the system answers. *)
Definition signal_stream (signal : Sig → bool) (self : ShutdownConfig) : option (list Sig) :=
  if negb (ctrlc self) && is_empty (signals self) then None
  else
    let signals := if ctrlc self then sig_insert Int (signals self) else signals self in
    Some (List.filter signal signals).

(** ** Config *)

(** [enum TraceFormat] (core/lib/src/trace/mod.rs). *)
Inductive TraceFormat := Pretty | Compact.

(** The [figment] crate: [extract] is for [Config], of which it leaves the
    [profile] out; the [Level]s are those of [tracing]. *)
Class FigmentCrate := {
  Figment : Type;
  Profile : Type;
  profile_eq_dec :: EqDecision Profile;
  profile_new : str → Profile;
  profile_selected : Figment → Profile;
  figment_error : Type;
  Level : Type;
  level_info : Level;
  level_error : Level;
}.

Section config.
Context `{CookieKey} `{FigmentCrate}.

(** [struct Config], without the field that keeps it from being built. *)
Record Config := mkConfig {
  profile : Profile;
  workers : nat;
  max_blocking : nat;
  ident : Ident;
  ip_header : option str;
  proxy_proto_header : option str;
  config_limits : Limits;
  config_temp_dir : str;
  keep_alive : Z;
  secret_key : SecretKey;
  shutdown : ShutdownConfig;
  log_level : option Level;
  log_format : TraceFormat;
  cli_colors : CliColors;
}.

Definition with_profile (profile : Profile) (c : Config) : Config :=
  mkConfig profile (workers c) (max_blocking c) (ident c) (ip_header c) (proxy_proto_header c)
    (config_limits c) (config_temp_dir c) (keep_alive c) (secret_key c) (shutdown c) (log_level c)
    (log_format c) (cli_colors c).

Definition with_secret_key (secret_key : SecretKey) (c : Config) : Config :=
  mkConfig (profile c) (workers c) (max_blocking c) (ident c) (ip_header c) (proxy_proto_header c)
    (config_limits c) (config_temp_dir c) (keep_alive c) secret_key (shutdown c) (log_level c)
    (log_format c) (cli_colors c).

Definition DEBUG_PROFILE : Profile := profile_new #"debug".
Definition RELEASE_PROFILE : Profile := profile_new #"release".
Definition DEFAULT_PROFILE (debug_assertions : bool) : Profile :=
  if debug_assertions then DEBUG_PROFILE else RELEASE_PROFILE.

(** [Config::debug_default], [release_default], [default]. *)
Definition debug_default (num_cpus : nat) (temp_dir : str) `{UncasedOrd} : option Config :=
  ident ← ident_default;
  secret_key ← secret_zero;
  Some (mkConfig DEBUG_PROFILE num_cpus 512 ident (Some #"X-Real-IP") None limits_default temp_dir
          5 secret_key shutdown_default (Some level_info) Pretty Auto).

Definition release_default (num_cpus : nat) (temp_dir : str) `{UncasedOrd} : option Config :=
  c ← debug_default num_cpus temp_dir;
  Some (mkConfig RELEASE_PROFILE (workers c) (max_blocking c) (ident c) (ip_header c)
          (proxy_proto_header c) (config_limits c) (config_temp_dir c) (keep_alive c)
          (secret_key c) (shutdown c) (Some level_error) Compact (cli_colors c)).

Definition config_default (debug_assertions : bool) (num_cpus : nat) (temp_dir : str)
    `{UncasedOrd} : option Config :=
  if debug_assertions then debug_default num_cpus temp_dir else release_default num_cpus temp_dir.

(** [Config::try_from], of a figment; [extract] is the crate's, for [Config]. *)
Definition try_from (extract : Figment → figment_error + Config) (figment : Figment)
  : figment_error + Config :=
  match extract figment with
  | inl e => inl e
  | inr config => inr (with_profile (profile_selected figment) config)
  end.
End config.

(** ** Theorems *)

Section keys.
Context `{CookieKeyLaws} `{Binascii}.

Lemma zero_key : ∃ k, key_from (replicate 64 0%Z) = Some k ∧ master k = replicate 64 0%Z.
Proof.
  destruct (key_from_ge (replicate 64 0%Z)) as (k & Hk & Hm); [by rewrite length_replicate|].
  exists k. split; [done|]. rewrite Hm. by apply firstn_all2; rewrite length_replicate.
Qed.

Lemma is_zero_master (k : SecretKey) : is_zero k = true ↔ master (key k) = replicate 64 0%Z.
Proof.
  destruct zero_key as (z & Hz & Hm). unfold is_zero, secret_zero, secret_eq. rewrite Hz. cbn [mbind option_bind key].
  rewrite bool_decide_eq_true, <-Hm. split; [by intros ->|apply master_inj].
Qed.

Lemma forallb_replicate n (l : list Z) :
  length l = n → forallb (λ b, b =? 0)%Z l = true → l = replicate n 0%Z.
Proof.
  revert n. induction l as [|b l IH]; intros n <-; simpl; [done|].
  intros [->%Z.eqb_eq Hl]%andb_true_iff. f_equal. by apply IH.
Qed.

(** A secret key that a configuration provides is read back the same from
    the data it provides, and counts as provided unless it is zero; what is
    read from bytes is refused when there are fewer than 32 of them, is the
    zero key when they are all zero, and never panics. *)
Theorem secret_key_roundtrip (k : SecretKey) (bytes : list Z) :
  (∃ k', secret_deserialize (secret_data k) = Some k' ∧ key k' = key k ∧
     is_provided k' = negb (is_zero k)) ∧
  (secret_visit_bytes bytes = None ↔ length bytes < 32) ∧
  (32 ≤ length bytes → forallb (λ b, b =? 0)%Z bytes = true →
   ∃ z, secret_visit_bytes bytes = Some z ∧ is_zero z = true ∧ is_provided z = false).
Proof.
  destruct zero_key as (z & Hz & Hm).
  assert (is_zero (mkSecretKey z false) = true) as Hzz by (by apply is_zero_master).
  split_and!.
  - unfold secret_data. destruct (is_zero k) eqn:Hk; cbn [secret_deserialize]; unfold secret_visit_bytes.
    + rewrite length_replicate. cbn [Nat.ltb Nat.leb]. unfold secret_zero. rewrite Hz.
      change (forallb _ (replicate 32 0%Z)) with true. cbn [mbind option_bind].
      exists (mkSecretKey z false). split_and!; [done| |done]. cbn [key].
      apply master_inj. rewrite Hm. symmetry. by apply is_zero_master.
    + rewrite master_length. simpl.
      destruct (forallb _ (master (key k))) eqn:Hf.
      { apply (forallb_replicate 64) in Hf; [|apply master_length]. apply is_zero_master in Hf. congruence. }
      unfold secret_from. destruct (key_from_ge (master (key k))) as (k' & -> & Hk'); [by rewrite master_length|].
      rewrite firstn_all2 in Hk' by (by rewrite master_length). apply master_inj in Hk' as ->. simpl.
      exists (mkSecretKey (key k) true). split_and!; [done..|]. apply negb_true_iff in Hk. exact Hk.
  - unfold secret_visit_bytes. destruct (Nat.ltb_spec (length bytes) 32) as [|Hge]; [done|].
    split; [|lia]. unfold secret_zero, secret_from, secret_derive_from. rewrite Hz. cbn [mbind option_bind].
    destruct (forallb _ bytes); [done|]. destruct (Nat.leb_spec 64 (length bytes)).
    + by destruct (key_from_ge bytes) as (? & -> & _).
    + by destruct (key_derive_from_ge bytes) as [? ->].
  - intros Hl Hf. exists (mkSecretKey z false). unfold secret_visit_bytes, secret_zero.
    rewrite (proj2 (Nat.ltb_ge _ _) Hl), Hf, Hz. split_and!; done.
Qed.
End keys.

(** ** Instances *)

Module ConfigReference.
#[export] Instance cookie_key : CookieKey := {
  Key := dsig (λ l : list Z, length l = 64);
  key_from b :=
    match decide (64 ≤ length b) with
    | Specif.left H => Some (dexist (take 64 b) (eq_trans (length_take_le b 64 H) eq_refl))
    | Specif.right _ => None
    end;
  key_derive_from b :=
    match decide (64 ≤ length (b ++ b)) with
    | Specif.left H => Some (dexist (take 64 (b ++ b)) (eq_trans (length_take_le (b ++ b) 64 H) eq_refl))
    | Specif.right _ => None
    end;
  master k := `k;
}.

#[export] Instance cookie_key_laws : CookieKeyLaws.
Proof.
  split; simpl.
  - intros b Hb. destruct (decide (64 ≤ length b)); [|done]. by eexists.
  - intros b Hb. destruct (decide (64 ≤ length b)); [lia|done].
  - intros b Hb. destruct (decide (64 ≤ length (b ++ b))) as [|Hn]; [done|].
    rewrite length_app in Hn. lia.
  - intros k. apply (proj2_dsig k).
  - intros k k' Hk. by apply dsig_eq.
Qed.

#[export] Instance binascii : Binascii := { b64decode _ := None; hex2bin _ := None }.

#[export] Instance figment_crate : FigmentCrate := {
  Figment := str;
  Profile := str;
  profile_new s := s;
  profile_selected s := s;
  figment_error := str;
  Level := nat;
  level_info := 3;
  level_error := 1;
}.

Definition some_key : SecretKey :=
  mkSecretKey (@dexist (list Z) (λ l, length l = 64) _ (replicate 64 7%Z) eq_refl) true.

Example secret_key_witness :
  is_zero some_key = false ∧
  ∃ k', secret_deserialize (secret_data some_key) = Some k' ∧ key k' = key some_key ∧ is_provided k' = true.
Proof.
  split; [by vm_compute|]. destruct (secret_key_roundtrip some_key []) as [(k' & Hd & Hk & Hp) _].
  exists k'. split_and!; [done..|]. rewrite Hp. by vm_compute.
Defined.
End ConfigReference.
