(* ===== verification/Lifecycle.v ===== *)
(** * Lifecycle: from a request to its response (core/lib/src/lifecycle.rs)

    Handlers and fairings are functions; a handler that panics, when called or
    while it runs, returns [None] ([catch_handle] treats both alike).  What
    they do to the shared request through references is a change of the cookie
    jar, which is threaded; the cells of a request are coherent
    ([Request.header_cache_coherent]), so that initializing one is no change
    another party sees.  The loop of [dispatch_error] is fuelled; two turns
    are enough. *)

From S2P Require Import Prelude Crates RawStr Header Status Method MediaType UriTables MediaParse.
From S2P Require Import Uri Catcher Route Request Router FormName FormParser Data Cookies Response.
From S2P Require Import DefaultCatcher Outcome.

Section Lifecycle.
Context {U : Uncased} {P : Pear} {PC : PearCombinators} {IM : IndexMap str (list str) uncased_eq}.
Context {SP : StablePattern} {M : Memchr} {PE : PercentEncoding} {CC : CookieCrate}.
Context {IoHandler : Type}.

(** The outcome of a route ([route::Outcome]), its handler, a catcher's. *)
Definition RouteOutcome : Type := Outcome (Response IM IoHandler) Status (Data * Status).

Definition RouteHandler : Type :=
  Request IM → Data → CookieJar → option RouteOutcome * CookieJar.

Definition CatcherHandler : Type :=
  Status → Request IM → CookieJar → option (Response IM IoHandler + Status) * CookieJar.

(** The request and response fairings ([Fairing::on_request], [on_response]). *)
Definition OnRequest : Type := Request IM → Data → CookieJar → Request IM * Data * CookieJar.
Definition OnResponse : Type :=
  Request IM → Response IM IoHandler → CookieJar → Response IM IoHandler * CookieJar.

(** The parts of [Rocket<Orbit>] the life cycle uses. *)
Record Rocket := Rocket_new {
  router : Finalized RouteHandler CatcherHandler;
  request_fairings : list OnRequest;
  response_fairings : list OnResponse;
  ident : option str;
  alt_svc : option str;
}.

(** The record of a route as the request refers to it. *)
Definition erase (r : Route RouteHandler) : Route unit :=
  Route_with unit (Route.name r) (method r) tt (route_uri r) (Route.rank r) (Route.format r)
    (Route.sentinels r) (Route.location r).

(** ** Preprocessing *)

(** The method a form's first field asks for, given the peeked bytes. *)
Definition form_method (peek_buffer : str) : option Method :=
  if is_utf8 peek_buffer then
    field ← head (values peek_buffer);
    if default false (view_eq (field_name field) (#"_method"))
    then try_from (field_value field) else None
  else None.

(** [Rocket::preprocess]. *)
Definition preprocess (self : Rocket) (req : Request IM) (data : Data) (jar : CookieJar)
  : Request IM * Data * CookieJar :=
  let is_form := match content_type req with
                 | Some v => media_type_eq v (media_type_of Form)
                 | None => false
                 end in
  let '(req, data) :=
    if bool_decide (req_method req = Post) && is_form then
      let '(peek_buffer, data) := peek 32 data in
      match form_method peek_buffer with
      | Some method => (set_method method req, data)
      | None => (req, data)
      end
    else (req, data) in
  foldl (λ '(req, data, jar) (on_request : OnRequest), on_request req data jar)
    (req, data, jar) (request_fairings self).

(** ** Routing *)

(** A handler run under [catch_handle]; a panic is an internal error. *)
Definition run_handler (route : Route RouteHandler) (req : Request IM) (data : Data)
    (jar : CookieJar) : RouteOutcome * CookieJar :=
  let '(outcome, jar) := Route.handler route req data jar in
  (default (Error Status.InternalServerError) outcome, jar).

(** The loop of [Rocket::route] over the matching routes. *)
Fixpoint route_loop (routes : list (Route RouteHandler)) (req : Request IM) (data : Data)
    (status : Status) (jar : CookieJar) : RouteOutcome * Request IM * CookieJar :=
  match routes with
  | [] => (Forward (data, status), req, jar)
  | route :: routes =>
    let req := set_route (erase route) req in
    let '(outcome, jar) := run_handler route req data jar in
    match outcome with
    | Success _ | Error _ => (outcome, req, jar)
    | Forward (data, status) => route_loop routes req data status jar
    end
  end.

(** [Rocket::route]. *)
Definition route_request (self : Rocket) (req : Request IM) (data : Data) (jar : CookieJar)
  : RouteOutcome * Request IM * CookieJar :=
  route_loop (Router.route (router self) req) req data Status.NotFound jar.

(** ** Errors *)

(** [Rocket::invoke_catcher]; the error is the status the catcher reports,
    [None] when it panicked. *)
Definition invoke_catcher (self : Rocket) (status : Status) (req : Request IM) (jar : CookieJar)
  : (Response IM IoHandler + option Status) * CookieJar :=
  match catch (router self) status req with
  | Some catcher =>
    let '(result, jar) := Catcher.handler catcher status req jar in
    (match result with
     | Some (inl response) => inl response
     | Some (inr e) => inr (Some e)
     | None => inr None
     end, jar)
  | None => (inl (default_handler status req), jar)
  end.

(** The loop of [Rocket::dispatch_error]. *)
Fixpoint dispatch_error_loop (fuel : nat) (self : Rocket) (status : Status) (req : Request IM)
    (jar : CookieJar) : option (Response IM IoHandler * CookieJar) :=
  match fuel with
  | O => None
  | S fuel =>
    let '(result, jar) := invoke_catcher self status req jar in
    match result with
    | inl r => Some (r, jar)
    | inr _ =>
      if negb (Status.code status =? 500)%Z
      then dispatch_error_loop fuel self Status.InternalServerError req jar
      else Some (default_handler Status.InternalServerError req, jar)
    end
  end.

(** [Rocket::dispatch_error]. *)
Definition dispatch_error (self : Rocket) (status : Status) (req : Request IM) (jar : CookieJar)
  : option (Response IM IoHandler * CookieJar) :=
  dispatch_error_loop 2 self status req (reset_delta jar).

(** ** Dispatch *)

(** What [Rocket::dispatch] does to the response before the fairings. *)
Definition add_cookies (jar : CookieJar) (response : Response IM IoHandler)
  : Response IM IoHandler * CookieJar :=
  let '(delta, jar) := take_delta_jar jar in
  (foldl (λ r c, adjoin_header (cookie_header c) r) response (jar_delta delta), jar).

Definition add_server (self : Rocket) (response : Response IM IoHandler) : Response IM IoHandler :=
  match ident self with
  | Some ident => if negb (contains (#"Server") (resp_headers response))
                  then set_header (Header_new (#"Server") ident) response else response
  | None => response
  end.

Definition handle_response (self : Rocket) (req : Request IM) (response : Response IM IoHandler)
    (jar : CookieJar) : Response IM IoHandler * CookieJar :=
  foldl (λ '(response, jar) (on_response : OnResponse), on_response req response jar)
    (response, jar) (response_fairings self).

(** What it does after them: the body and its size. *)
Definition finish (self : Rocket) (was_head_request : bool) (response : Response IM IoHandler)
  : Response IM IoHandler :=
  let response :=
    if was_head_request || bool_decide (Response.status response = Status.NotModified)
    then strip_body response else response in
  let response :=
    if bool_decide (Response.status response = Status.NoContent)
    then set_body unsized_none response
    else
      let '(size, b) := body_size (body response) in
      let response := set_body b response in
      match size with
      | Some size => set_raw_header (#"Content-Length") (decimal_text size) response
      | None => response
      end in
  match alt_svc self with
  | Some alt_svc => set_raw_header (#"Alt-Svc") alt_svc response
  | None => response
  end.

(** The response [Rocket::dispatch] gets from routing and catching: a [HEAD]
    request no route answers is routed again as [GET]. *)
Definition dispatch_response (self : Rocket) (request : Request IM) (data : Data)
    (jar : CookieJar) : option (Response IM IoHandler * Request IM * CookieJar) :=
  let error status request jar :=
    '(response, jar) ← dispatch_error self status request jar;
    Some (response, request, jar) in
  match route_request self request data jar with
  | (Success response, request, jar) => Some (response, request, jar)
  | (Forward (data, status), request, jar) =>
    if bool_decide (req_method request = Head) then
      match route_request self (set_method Get request) data jar with
      | (Success response, request, jar) => Some (response, request, jar)
      | (Error status, request, jar) => error status request jar
      | (Forward (_, status), request, jar) => error status request jar
      end
    else error status request jar
  | (Error status, request, jar) => error status request jar
  end.

(** [Rocket::dispatch]. *)
Definition dispatch (self : Rocket) (request : Request IM) (data : Data) (jar : CookieJar)
  : option (Response IM IoHandler) :=
  let was_head_request := bool_decide (req_method request = Head) in
  '(response, request, jar) ← dispatch_response self request data jar;
  let '(response, jar) := add_cookies jar response in
  let response := add_server self response in
  let '(response, jar) := handle_response self request response jar in
  Some (finish self was_head_request response).

(** [Rocket::extract_io_handler]: the protocol and handler of an upgrade the
    request asks for, and the response that announces it. *)
Definition extract_io_handler (request : Request IM) (response : Response IM IoHandler)
  : option (str * IoHandler) * Response IM IoHandler :=
  let upgrades := Header.get (#"upgrade") (req_headers request) in
  match search_upgrades upgrades response with
  | (None, response) => (None, response)
  | (Some None, response) => (None, response)
  | (Some (Some (proto, io_handler)), response) =>
    let response := set_status Status.SwitchingProtocols response in
    let response := set_raw_header (#"Connection") (#"Upgrade") response in
    let response := set_raw_header (#"Upgrade") proto response in
    (Some (proto, io_handler), response)
  end.
End Lifecycle.

(** ** Routing: the first route that does not forward decides *)

Section routing_spec.
Context {U : Uncased} {P : Pear} {PC : PearCombinators} {IM : IndexMap str (list str) uncased_eq}.
Context {SP : StablePattern} {M : Memchr} {PE : PercentEncoding} {CC : CookieCrate}.
Context {IoHandler : Type}.

(** What a route is tried on: the request, the data, the status to forward
    and the cookies. *)
Definition attempt : Type := Request IM * Data * Status * CookieJar.

(** Trying routes that all forward, each on what the one before forwarded. *)
Inductive forwards : list (Route (RouteHandler (IoHandler:=IoHandler))) → attempt → attempt → Prop :=
  | forwards_nil s : forwards [] s s
  | forwards_cons r rs req data st jar data' st' jar' s' :
      run_handler r (set_route (erase r) req) data jar = (Forward (data', st'), jar') →
      forwards rs (set_route (erase r) req, data', st', jar') s' →
      forwards (r :: rs) (req, data, st, jar) s'.

Definition is_forward (o : RouteOutcome (IoHandler:=IoHandler)) : bool :=
  match o with Forward _ => true | _ => false end.

Lemma forwards_cons_inv r rs req data st jar o jar1 s' :
  forwards (r :: rs) (req, data, st, jar) s' →
  run_handler r (set_route (erase r) req) data jar = (o, jar1) →
  ∃ data' st', o = Forward (data', st') ∧
    forwards rs (set_route (erase r) req, data', st', jar1) s'.
Proof.
  intros Hf Hr. inversion Hf; simplify_eq.
  match goal with Hr' : run_handler _ _ _ _ = (Forward _, _) |- _ => rewrite Hr in Hr' end.
  simplify_eq. eauto.
Qed.

(** What the loop returns, as a relation. *)
Definition routed routes (req : Request IM) data st jar
    (out : RouteOutcome (IoHandler:=IoHandler)) req' jar' : Prop :=
  (∃ data' st', forwards routes (req, data, st, jar) (req', data', st', jar') ∧
     out = Forward (data', st')) ∨
  (∃ pre r post req1 data1 st1 jar1,
     routes = pre ++ r :: post ∧ forwards pre (req, data, st, jar) (req1, data1, st1, jar1) ∧
     req' = set_route (erase r) req1 ∧ run_handler r req' data1 jar1 = (out, jar') ∧
     is_forward out = false).

Lemma routed_nil (req : Request IM) data st jar out req' jar' :
  routed [] req data st jar out req' jar' ↔ (out, req', jar') = (Forward (data, st), req, jar).
Proof.
  split.
  - intros [(? & ? & Hf & ->)|(pre & ? & ? & ? & ? & ? & ? & Hp & _)];
      [by inversion Hf|by destruct pre].
  - intros [= -> -> ->]. left. exists data, st. split; [constructor|done].
Qed.

Lemma routed_stop r routes (req : Request IM) data st jar o jar1 out req' jar' :
  run_handler r (set_route (erase r) req) data jar = (o, jar1) → is_forward o = false →
  routed (r :: routes) req data st jar out req' jar' ↔
  (out, req', jar') = (o, set_route (erase r) req, jar1).
Proof.
  intros Hrun Ho. split.
  - intros [(? & ? & Hf & ->)|(pre & r' & ? & ? & ? & ? & ? & Hp & Hf & -> & Hr & _)].
    { by destruct (forwards_cons_inv _ _ _ _ _ _ _ _ _ Hf Hrun) as (? & ? & -> & _). }
    destruct pre as [|r'' pre]; simplify_eq/=.
    + inversion Hf; simplify_eq. congruence.
    + by destruct (forwards_cons_inv _ _ _ _ _ _ _ _ _ Hf Hrun) as (? & ? & -> & _).
  - intros [= -> -> ->]. right. exists [], r, routes, req, data, st, jar.
    split_and!; [done|constructor|done..].
Qed.

Lemma routed_forward r routes (req : Request IM) data st jar data1 st1 jar1 out req' jar' :
  run_handler r (set_route (erase r) req) data jar = (Forward (data1, st1), jar1) →
  routed (r :: routes) req data st jar out req' jar' ↔
  routed routes (set_route (erase r) req) data1 st1 jar1 out req' jar'.
Proof.
  intros Hrun. split.
  - intros [(data' & st' & Hf & ->)|(pre & r' & post & ? & ? & ? & ? & Hp & Hf & -> & Hr & Ho)].
    + destruct (forwards_cons_inv _ _ _ _ _ _ _ _ _ Hf Hrun) as (? & ? & [= <- <-] & Hf').
      left. by exists data', st'.
    + destruct pre as [|r'' pre]; simplify_eq/=.
      { inversion Hf; simplify_eq. rewrite Hrun in Hr. by simplify_eq. }
      destruct (forwards_cons_inv _ _ _ _ _ _ _ _ _ Hf Hrun) as (? & ? & [= <- <-] & Hf').
      right. by do 7 eexists.
  - intros [(data' & st' & Hf & ->)|(pre & r' & post & ? & ? & ? & ? & -> & Hf & Hr)].
    + left. exists data', st'. split; [by econstructor|done].
    + right. exists (r :: pre). do 6 eexists. split; [done|]. split; [by econstructor|done].
Qed.

(** C3: Routing ends at the first route, in the order of the router, that does
    not forward, with its outcome and on what the routes before it forwarded;
    when all forward, so does routing, with the last status forwarded. *)
Theorem route_loop_iff routes (req req' : Request IM) data st jar jar'
    (out : RouteOutcome (IoHandler:=IoHandler)) :
  route_loop routes req data st jar = (out, req', jar') ↔
  routed routes req data st jar out req' jar'.
Proof.
  revert req data st jar. induction routes as [|r routes IH]; intros req data st jar; simpl.
  - rewrite routed_nil. naive_solver.
  - destruct (run_handler r _ data jar) as [o jar1] eqn:Hrun. destruct o as [s|e|[data1 st1]].
    + rewrite (routed_stop _ _ _ _ _ _ _ _ _ _ _ Hrun) by done. naive_solver.
    + rewrite (routed_stop _ _ _ _ _ _ _ _ _ _ _ Hrun) by done. naive_solver.
    + by rewrite IH, (routed_forward _ _ _ _ _ _ _ _ _ _ _ _ Hrun).
Qed.


Lemma dispatch_error_total (self : Rocket (IoHandler:=IoHandler)) st (r : Request IM) j :
  ∃ x, dispatch_error self st r j = Some x.
Proof.
  unfold dispatch_error. cbn [dispatch_error_loop].
  destruct (invoke_catcher self st r _) as [[?|?] j1]; [by eexists|].
  destruct (negb _); [|by eexists].
  destruct (invoke_catcher self _ r j1) as [[?|?] j2]; by eexists.
Qed.

Lemma dispatch_total_aux (self : Rocket (IoHandler:=IoHandler)) (req : Request IM) data jar :
  ∃ x, dispatch_response self req data jar = Some x.
Proof.
  unfold dispatch_response.
  destruct (route_request self req data jar) as [[[s|e|[data1 st]] req1] jar1].
  - by eexists.
  - destruct (dispatch_error_total self e req1 jar1) as [[? ?] ->]. by eexists.
  - case_bool_decide.
    + destruct (route_request self (set_method Get req1) data1 jar1) as [[[s|e|[? st']] req2] jar2];
        [by eexists| |].
      * destruct (dispatch_error_total self e req2 jar2) as [[? ?] ->]. by eexists.
      * destruct (dispatch_error_total self st' req2 jar2) as [[? ?] ->]. by eexists.
    + destruct (dispatch_error_total self st req1 jar1) as [[? ?] ->]. by eexists.
Qed.

(** Routing changes the route of a request, not its method. *)
Lemma route_keeps_method (self : Rocket (IoHandler:=IoHandler)) (req : Request IM) data jar :
  req_method (route_request self req data jar).1.2 = req_method req.
Proof.
  unfold route_request. generalize Status.NotFound as st.
  generalize (Router.route (router self) req) as rs. intros rs. revert req data jar.
  induction rs as [|r rs IH]; [done|].
  intros req data jar st. cbn [route_loop].
  destruct (run_handler r _ data jar) as [[s|e|[d st']] jar']; [done|done|]. by rewrite IH.
Qed.

Lemma dispatch_some (self : Rocket (IoHandler:=IoHandler)) (req : Request IM) data jar :
  ∃ response, dispatch self req data jar = Some response.
Proof.
  destruct (dispatch_total_aux self req data jar) as [[[resp req'] jar'] Hd].
  unfold dispatch. rewrite Hd. cbn [mbind option_bind].
  destruct (add_cookies jar' resp) as [resp1 jar1].
  destruct (handle_response self req' _ jar1) as [resp2 jar2]. by eexists.
Qed.

(** Every request is answered: whatever the handlers of routes and catchers
    do, panics included, and whatever the fairings change, dispatching yields a
    response. *)
Theorem dispatch_total (self : Rocket (IoHandler:=IoHandler)) (req : Request IM) (data : Data)
    (jar : CookieJar) :
  is_Some (dispatch self req data jar).
Proof. destruct (dispatch_some self req data jar) as [r ->]. by eexists. Qed.


(** The cookies a failed catcher adds stay pending for the 500 catcher: the
    jar is reset before the loop only. *)
Lemma failed_catcher_cookies_kept (self : Rocket (IoHandler:=IoHandler)) status req jar e jar1 r :
  invoke_catcher self status req (reset_delta jar) = (inr e, jar1) →
  Status.code status ≠ 500%Z →
  invoke_catcher self Status.InternalServerError req jar1 = (inl r, jar1) →
  dispatch_error self status req jar = Some (r, jar1).
Proof.
  intros H1 Hs H2. unfold dispatch_error. cbn [dispatch_error_loop]. rewrite H1.
  rewrite (proj2 (Z.eqb_neq _ _)) by done. cbn [negb]. by rewrite H2.
Qed.
End routing_spec.

(** ** Method override *)

Lemma utf8_from_ascii s : Forall (λ c, is_ascii c = true) s → is_utf8 s = true.
Proof.
  unfold is_utf8. induction 1 as [|c s Hc _ IH]; [done|]. simpl. unfold utf8_lead.
  unfold is_ascii in Hc. by rewrite Hc.
Qed.

(** The name of a method reads back as the method, has none of the delimiters
    of a form, and fits the bytes peeked. *)
Lemma method_names m :
  try_from (as_str m) = Some m ∧ ("&"%char ∉ as_str m) ∧ (length (as_str m) ≤ 17)%nat.
Proof.
  pose proof (forall_methods (λ m, bool_decide (try_from (as_str m) = Some m)
    && bool_decide ("&"%char ∉ as_str m) && (length (as_str m) <=? 17)%nat)) as Hm.
  specialize (Hm ltac:(by vm_compute) m). cbn beta in Hm.
  apply andb_true_iff in Hm as [[H1 H2]%andb_true_iff H3].
  apply bool_decide_eq_true in H1, H2. apply Nat.leb_le in H3. done.
Qed.

Section override.
Context {U : Uncased} {P : Pear} {PC : PearCombinators} {IM : IndexMap str (list str) uncased_eq}.
Context {SP : StablePattern} {M : Memchr} {ML : MemchrLaws} {PE : PercentEncoding}
  {CC : CookieCrate}.
Context {IoHandler : Type}.

Definition method_field (m : Method) : str := #"_method=" ++ as_str m.

(** The first field of the bytes peeked asks for the method. *)
Lemma form_method_field m rest :
  is_utf8 (method_field m ++ rest) = true → (rest = [] ∨ head rest = Some "&"%char) →
  form_method (method_field m ++ rest) = Some m.
Proof.
  intros Hu Hr. unfold form_method. rewrite Hu.
  destruct (method_names m) as (Hp & Ha & _).
  assert ("&"%char ∉ method_field m) as Hk.
  { unfold method_field. rewrite not_elem_of_app. split; [|done].
    by apply (bool_decide_unpack _); vm_compute. }
  assert (∃ fs, values (method_field m ++ rest) = field_parse (method_field m) :: fs) as [fs ->].
  { unfold values. destruct Hr as [->|Hr].
    - rewrite app_nil_r, split_on_none by done. by exists [].
    - destruct rest as [|c rest]; [done|]. simplify_eq/=.
      rewrite split_on_app by done. simpl. by eexists. }
  simpl head. cbn [mbind option_bind].
  assert (field_parse (method_field m) = ValueField_new (view_new (#"_method")) (as_str m)) as ->.
  { unfold field_parse, split_at_byte, method_field. autorewrite with crates.
    assert (find_byte "=" (#"_method=" ++ as_str m) = Some 7%nat) as -> by reflexivity.
    reflexivity. }
  done.
Qed.

(** Method override: a [POST] of an ASCII form whose first field is
    [_method=M], alone or followed by others, is handled as a request of
    method [M], whatever the chunks its body arrives in, and its body is still
    there to be read; every other request keeps its method and data. *)
Theorem preprocess_override (self : Rocket (IoHandler:=IoHandler)) (req : Request IM)
    (data : Data) (jar : CookieJar) (m : Method) (ct : MediaType) (rest : str) :
  peekable_wf data → None ∉ reader data →
  Forall (λ c, is_ascii c = true) (content data) →
  content data = method_field m ++ rest → (rest = [] ∨ head rest = Some "&"%char) →
  content_type req = Some ct →
  let fairings start :=
    foldl (λ '(req, data, jar) (f : OnRequest), f req data jar) start (request_fairings self) in
  (req_method req = Post → media_type_eq ct (media_type_of Form) = true →
   ∃ data', content data' = content data ∧ peekable_wf data' ∧
     preprocess self req data jar = fairings (set_method m req, data', jar)) ∧
  (req_method req ≠ Post ∨ media_type_eq ct (media_type_of Form) = false →
   preprocess self req data jar = fairings (req, data, jar)).
Proof.
  intros Hwf Hn Hascii Hc Hr Hct fairings. unfold preprocess. rewrite Hct. split.
  - intros Hm Hf. rewrite Hm, Hf, bool_decide_true by done. cbn [andb].
    pose proof (peek_facts 32 data Hwf) as Hp. destruct (peek 32 data) as [bytes data'].
    destruct Hp as (Hc' & Hwf' & _ & [more Hmore] & _ & Hlen). specialize (Hlen Hn).
    assert (∃ rest', bytes = method_field m ++ rest' ∧ (rest' = [] ∨ head rest' = Some "&"%char))
      as (rest' & Hb & Hr').
    { rewrite Hc in Hmore, Hlen. destruct (method_names m) as (_ & _ & Hl).
      assert (length (method_field m) ≤ 25)%nat as Hl'.
      { unfold method_field. rewrite length_app. change (length (#"_method=")) with 8%nat. lia. }
      rewrite length_app in Hlen. unfold PEEK in Hlen.
      apply app_eq_app in Hmore as (l & [[Hm1 Hm2]|[Hm1 Hm2]]).
      - destruct l as [|c l].
        + exists []. rewrite app_nil_r in Hm1. rewrite app_nil_r. by split; [|left].
        + exfalso. apply (f_equal length) in Hm1. rewrite length_app in Hm1.
          cbn [length] in Hm1. lia.
      - exists l. split; [done|]. destruct Hr as [->|Hr]; [by destruct l; left|].
        destruct l as [|c l]; [by left|right]. rewrite Hm2 in Hr. done. }
    rewrite Hb, form_method_field; [by exists data'|..|done].
    rewrite <-Hb. apply utf8_from_ascii. rewrite Hmore in Hascii. by apply Forall_app in Hascii as [? _].
  - intros Hno. destruct (bool_decide _ && _) eqn:E; [|done].
    apply andb_true_iff in E as [Hm%bool_decide_eq_true Hf]. destruct Hno; congruence.
Qed.
End override.

(** ** The final response *)

Section finish_spec.
Context {U : Uncased} {UL : UncasedLaws} {IM : IndexMap str (list str) uncased_eq}
  {IML : IndexMapLaws IM} {CC : CookieCrate} {IoHandler : Type}.
Context {P : Pear} {PC : PearCombinators} {SP : StablePattern} {M : Memchr} {PE : PercentEncoding}.

Lemma get_set_raw_header n k v (r : Response IM IoHandler) :
  Header.get n (resp_headers (set_raw_header k v r)) =
    if uncased_eq n k then [v] else Header.get n (resp_headers r).
Proof. apply get_set_header. Qed.

Lemma alt_svc_not_length : uncased_eq (#"Content-Length") (#"Alt-Svc") = false.
Proof. rewrite uncased_eq_spec. by vm_compute. Qed.

(** The body as [finish] leaves it. *)
Definition finished_body (was_head : bool) (r : Response IM IoHandler) : Body :=
  if bool_decide (Response.status r = Status.NoContent) then unsized_none
  else (body_size (if was_head || bool_decide (Response.status r = Status.NotModified)
                   then strip (body r) else body r)).2.

Lemma finish_body (self : Rocket (IoHandler:=IoHandler)) h r :
  body (finish self h r) = finished_body h r ∧
  Response.status (finish self h r) = Response.status r ∧
  (Response.status r ≠ Status.NoContent →
   ∀ n, (body_size (finished_body h r)).1 = Some n →
   Header.get (#"Content-Length") (resp_headers (finish self h r)) = [decimal_text n]).
Proof.
  unfold finish, finished_body.
  set (b := if h || _ then strip (body r) else body r).
  set (r1 := if h || _ then strip_body r else r).
  assert (body r1 = b) as Hb by (unfold r1, b; by destruct (h || _)).
  assert (resp_status r1 = resp_status r) as Hs by (unfold r1; by destruct (h || _)).
  assert (Response.status r1 = Response.status r) as -> by (unfold Response.status; by rewrite Hs).
  rewrite Hb. case_bool_decide as Hnc.
  - split_and!; [by destruct (alt_svc self)| |done].
    unfold Response.status. destruct (alt_svc self); cbn; by rewrite Hs.
  - pose proof (measured_twice b) as Hsz.
    destruct (body_size b) as [sz b'] eqn:Eb. cbn [snd fst] in *.
    split_and!.
    + by destruct sz, (alt_svc self).
    + unfold Response.status. destruct sz, (alt_svc self); cbn; by rewrite Hs.
    + intros _ n Hn. rewrite Hsz in Hn. cbn in Hn. rewrite Hn.
      destruct (alt_svc self); rewrite ?get_set_raw_header, ?alt_svc_not_length, ?uncased_eq_refl;
        done.
Qed.

(** The response sent keeps its status.  It carries no body when it answers
    a [HEAD] request or its status is 304 or 204, and its own body otherwise;
    a response whose size is known and whose status is not 204 announces that
    size, which for a seekable body is the same for [HEAD] as for [GET]. *)
Theorem finish_spec (self : Rocket (IoHandler:=IoHandler)) (h : bool) (r : Response IM IoHandler) :
  Response.status (finish self h r) = Response.status r ∧
  (h = true ∨ Response.status r = Status.NotModified ∨ Response.status r = Status.NoContent →
   body_bytes (body (finish self h r)) = []) ∧
  (h = false → Response.status r ≠ Status.NotModified → Response.status r ≠ Status.NoContent →
   body_bytes (body (finish self h r)) = body_bytes (body r)) ∧
  (Response.status r ≠ Status.NoContent →
   ∀ n, (body_size (body (finish self h r))).1 = Some n →
   Header.get (#"Content-Length") (resp_headers (finish self h r)) = [decimal_text n]) ∧
  (∀ rd, inner (body r) = Seekable rd →
   (body_size (body (finish self true r))).1 = (body_size (body (finish self false r))).1).
Proof.
  destruct (finish_body self h r) as (Hb & Hs & Hl).
  assert (∀ b, body_bytes (body_size b).2 = body_bytes b ∧ body_bytes (strip b) = []) as Hbytes.
  { intros [[n|] [x|x|x|] c]; unfold body_size, strip; simpl; try done;
      by destruct (seek_size x). }
  split_and!; [done| | |by rewrite Hb|].
  - rewrite Hb. unfold finished_body. intros Hor. case_bool_decide; [done|].
    rewrite (proj1 (Hbytes _)). destruct Hor as [->|[Hst|Hst]]; [apply Hbytes| |done].
    rewrite bool_decide_true, orb_true_r by done. apply Hbytes.
  - intros -> Hnm Hnc. rewrite Hb. unfold finished_body. rewrite !bool_decide_false by done.
    apply Hbytes.
  - intros rd Hrd. destruct (finish_body self true r) as (-> & _ & _).
    destruct (finish_body self false r) as (-> & _ & _). unfold finished_body.
    case_bool_decide; [done|]. rewrite !measured_twice. simpl orb.
    case_bool_decide; [done|]. by apply (strip_same_size _ rd).
Qed.
End finish_spec.

(** ** A concrete instance *)

Section witness.
Import Reference PearReference PearCombinatorsReference HeaderReference CookieReference.

(** An instance without routes, catchers or fairings. *)
Definition bare : Rocket (IoHandler:=unit) :=
  Rocket_new (Finalized_new [] [] ∅ ∅) [] [] (Some (#"Rocket")) None.

Definition no_cookies : CookieJar := jar_init None false.

Definition form_post : Request header_index :=
  add_header (Header_new (#"Content-Type") (#"application/x-www-form-urlencoded"))
    (request_new false None Post root).

Example preprocess_override_witness :
  let data := Peekable_with [] 0 false [Some (#"_meth"); Some (#"od=PUT&a=b")] in
  req_method (preprocess bare form_post data no_cookies).1.1 = Put.
Proof.
  intros data. destruct (content_type form_post) as [ct|] eqn:Hct; [|by vm_compute in Hct].
  assert (media_type_eq ct (media_type_of Form) = true) as Hf.
  { change (default true ((λ m, media_type_eq m (media_type_of Form)) <$> Some ct) = true).
    rewrite <-Hct. by vm_compute. }
  assert (peekable_wf data) as Hw by (split; [repeat constructor; discriminate|done]).
  assert (None ∉ reader data) as Hn by (by apply (bool_decide_unpack _); vm_compute).
  assert (Forall (λ c, is_ascii c = true) (content data)) as Ha by (by repeat constructor).
  destruct (preprocess_override bare form_post data no_cookies Put ct (#"&a=b")
              Hw Hn Ha eq_refl (or_intror eq_refl) Hct) as [Hp _].
  destruct (Hp eq_refl Hf) as (data' & _ & _ & ->). by vm_compute.
Defined.


Example finish_witness :
  let r : Response header_index unit := set_status Status.NotModified response_new in
  body_bytes (body (finish bare false r)) = [].
Proof.
  intros r. destruct (finish_spec bare false r) as (_ & Hb & _). apply Hb. by right; left.
Defined.
End witness.
