(* ===== verification/WebSocket.v ===== *)
(** * WebSocket: the handshake and what is sent (contrib/ws/src/websocket.rs)

    The protocol itself, its messages and its errors are [tungstenite]'s.  A
    stream of messages is the list of what it yields before it ends; a sink is
    a state that takes a message and may fail. *)

From S2P Require Import Prelude Crates RawStr Header Status Method MediaType UriTables MediaParse.
From S2P Require Import Uri Request Data Cookies Response Responders Outcome Lifecycle.

Class Tungstenite := {
  WsConfig : Type;
  config_default : WsConfig;
  derive_accept_key : str → str;
  Message : Type;
  is_close : Message → bool;
  IoError : Type;
  WsFailure : Type;
}.

Section websocket.
Context {U : Uncased} {P : Pear} {PC : PearCombinators} {IM : IndexMap str (list str) uncased_eq}.
Context {CC : CookieCrate} {TU : Tungstenite}.

(** [tungstenite::Error], by how [handle_result] tells them apart; [io::Error]. *)
Inductive WsError := ConnectionClosed | WsIo (e : IoError) | WsOther (e : WsFailure).
Inductive IoFailure := IoFailed (e : IoError) | IoOther (e : WsFailure).

(** ** The handshake *)

(** [struct WebSocket], [WebSocket::config], [accept_key]. *)
Record WebSocket := mkWebSocket { ws_config : WsConfig; key : str }.

Definition config (c : WsConfig) (self : WebSocket) : WebSocket := mkWebSocket c (key self).
Definition accept_key (self : WebSocket) : str := key self.

(** Is a token among those of the values of a header? *)
Definition has_token (name token : str) (req : Request IM) : bool :=
  existsb (λ h, existsb (λ v, uncased_eq (trim v) token) (split_on "," h)) (Header.get name (req_headers req)).

(** [FromRequest for WebSocket]. *)
Definition from_request (req : Request IM) : Outcome WebSocket (Status * Empty_set) Status :=
  let is_upgrade := has_token #"Connection" #"upgrade" req in
  let is_ws := has_token #"Upgrade" #"websocket" req in
  let is_13 := match get_one #"Sec-WebSocket-Version" (req_headers req) with
               | Some v => bool_decide (v = #"13")
               | None => false
               end in
  let key := derive_accept_key <$> get_one #"Sec-WebSocket-Key" (req_headers req) in
  match key with
  | Some key => if is_upgrade && is_ws && is_13 then Success (mkWebSocket config_default key) else Forward Status.BadRequest
  | None => Forward Status.BadRequest
  end.

(** ** Connections *)

(** The function [handle_result]; [None] is [Ok]. *)
Definition handle_result (result : option WsError) : IoFailure + bool :=
  match result with
  | None => inr true
  | Some ConnectionClosed => inr false
  | Some (WsIo e) => inl (IoFailed e)
  | Some (WsOther e) => inl (IoOther e)
  end.

(** [WebSocket::channel] and [IoHandler for Channel], over the duplex streams
    [D] and what the handler leaves of one. *)
Section connections.
Context {D : Type}.

Record Channel := mkChannel { channel_ws : WebSocket; channel_handler : D → option WsError * D }.

Definition channel (self : WebSocket) (handler : D → option WsError * D) : Channel := mkChannel self handler.

Definition channel_io (duplex_new : WsConfig → D) (self : Channel) : (IoFailure + unit) * D :=
  let stream := duplex_new (ws_config (channel_ws self)) in
  let '(result, stream) := channel_handler self stream in
  (match handle_result result with inl e => inl e | inr _ => inr tt end, stream).

(** [WebSocket::stream] and the loop of [IoHandler for MessageStream]: [send]
    is the sink's. *)
Record MessageStream := mkMessageStream { stream_ws : WebSocket; stream_handler : D → list (WsError + Message) }.

Definition stream (self : WebSocket) (handler : D → list (WsError + Message)) : MessageStream :=
  mkMessageStream self handler.

Fixpoint stream_loop {S} (send : Message → S → option WsError * S) (stream : list (WsError + Message)) (sink : S) :
    (IoFailure + unit) * S :=
  match stream with
  | [] => (inr tt, sink)
  | msg :: stream =>
    match msg with
    | inr msg =>
      if is_close msg then (inr tt, sink)
      else
        let '(result, sink) := send msg sink in
        match handle_result result with
        | inl e => (inl e, sink)
        | inr true => stream_loop send stream sink
        | inr false => (inr tt, sink)
        end
    | inl e =>
      match handle_result (Some e) with
      | inl e => (inl e, sink)
      | inr true => stream_loop send stream sink
      | inr false => (inr tt, sink)
      end
    end
  end.

Definition stream_io {S} (duplex_new : WsConfig → D) (split : D → S) (send : Message → S → option WsError * S)
    (self : MessageStream) : (IoFailure + unit) * S :=
  let source := duplex_new (ws_config (stream_ws self)) in
  stream_loop send (stream_handler self source) (split source).
End connections.

(** [Responder for Channel] and for [MessageStream]: [io] is the handler. *)
Definition upgrade_response {IoHandler} (ws : WebSocket) (io : IoHandler) : Response IM IoHandler :=
  add_upgrade #"websocket" io
    (set_raw_header #"Sec-WebSocket-Accept" (key ws) (set_raw_header #"Sec-Websocket-Version" #"13" response_new)).

Definition channel_respond_to {D IoHandler} (io : @Channel D → IoHandler) : Responder (IM := IM) (IoHandler := IoHandler) (@Channel D) :=
  λ self _, respond (inl (upgrade_response (channel_ws self) (io self))).

Definition stream_respond_to {D IoHandler} (io : @MessageStream D → IoHandler) :
    Responder (IM := IM) (IoHandler := IoHandler) (@MessageStream D) :=
  λ self _, respond (inl (upgrade_response (stream_ws self) (io self))).

(** ** What is sent *)

(** The messages before the stream closes, fails or ends, and why it does. *)
Fixpoint messages (stream : list (WsError + Message)) : list Message * option WsError :=
  match stream with
  | inr msg :: stream => if is_close msg then ([], None) else let '(ms, e) := messages stream in (msg :: ms, e)
  | inl e :: _ => ([], Some e)
  | [] => ([], None)
  end.

(** Sending messages in order, up to the first that fails. *)
Fixpoint send_all {S} (send : Message → S → option WsError * S) (ms : list Message) (sink : S) : option WsError * S :=
  match ms with
  | [] => (None, sink)
  | m :: ms => match send m sink with (None, sink) => send_all send ms sink | r => r end
  end.

Lemma stream_loop_spec {S} (send : Message → S → option WsError * S) stream sink :
  stream_loop send stream sink =
    let '(ms, e) := messages stream in
    let '(failed, sink) := send_all send ms sink in
    let why := match failed with Some f => Some f | None => e end in
    (match handle_result why with inl e => inl e | inr _ => inr tt end, sink).
Proof.
  revert sink. induction stream as [|[e|m] stream IH]; intros sink; [done| |]; cbn [stream_loop messages].
  - by destruct e.
  - destruct (is_close m); [done|]. destruct (messages stream) as [ms e]. cbn [send_all].
    destruct (send m sink) as [[[]|] sink']; cbn [handle_result]; done || apply IH.
Qed.
End websocket.

(** ** The handshake is completed *)

Section handshake.
Context {U : Uncased} {UL : UncasedLaws} {P : Pear} {PC : PearCombinators}.
Context {IM : IndexMap str (list str) uncased_eq} {IML : IndexMapLaws IM}.
Context {CC : CookieCrate} {TU : Tungstenite} {IoHandler : Type}.

(** What a request for a websocket says. *)
Definition asks (name token : str) (req : Request IM) : Prop :=
  ∃ value item, value ∈ Header.get name (req_headers req) ∧ item ∈ split_on "," value ∧ uncased_eq (trim item) token = true.

Definition asks_websocket (req : Request IM) (k : str) : Prop :=
  asks #"Connection" #"upgrade" req ∧ asks #"Upgrade" #"websocket" req ∧
  get_one #"Sec-WebSocket-Version" (req_headers req) = Some #"13" ∧
  get_one #"Sec-WebSocket-Key" (req_headers req) = Some k.

Lemma has_token_asks name token (req : Request IM) : has_token name token req = true ↔ asks name token req.
Proof.
  unfold has_token, asks. rewrite existsb_exists. split.
  - intros (h & Hh%list_elem_of_In & Hv). apply existsb_exists in Hv as (v & Hv%list_elem_of_In & ?). eauto.
  - intros (h & v & Hh & Hv & ?). exists h. rewrite <-list_elem_of_In. split; [done|].
    apply existsb_exists. exists v. by rewrite <-list_elem_of_In.
Qed.

Lemma from_request_spec (req : Request IM) :
  match from_request req with
  | Success ws => ∃ k, asks_websocket req k ∧ ws = mkWebSocket config_default (derive_accept_key k)
  | Forward status => status = Status.BadRequest ∧ ∀ k, ¬ asks_websocket req k
  | Error _ => False
  end.
Proof.
  assert (∀ k, asks_websocket req k ↔ has_token #"Connection" #"upgrade" req = true ∧ has_token #"Upgrade" #"websocket" req = true ∧
    get_one #"Sec-WebSocket-Version" (req_headers req) = Some #"13" ∧
    get_one #"Sec-WebSocket-Key" (req_headers req) = Some k) as Ha by (intros k; by rewrite !has_token_asks).
  unfold from_request.
  destruct (get_one #"Sec-WebSocket-Key" (req_headers req)) as [k|]; cbn [fmap option_fmap option_map];
    [|split; [done|intros k; rewrite Ha; by intros (_ & _ & _ & ?)]].
  destruct (has_token #"Connection" _ req), (has_token #"Upgrade" _ req); cbn [andb];
    try (split; [done|intros k'; rewrite Ha; naive_solver]).
  destruct (get_one #"Sec-WebSocket-Version" (req_headers req)) as [v|];
    [|split; [done|intros k'; rewrite Ha; naive_solver]].
  case_bool_decide; [subst; exists k; split; [by apply Ha|done]|]. split; [done|]. intros k'. rewrite Ha. naive_solver.
Qed.

(** The protocol a request asks for first, of a response with one upgrade. *)
Lemma find_upgrade_one ps proto (h : IoHandler) :
  (∃ p, p ∈ ps ∧ uncased_eq p proto = true) → ∃ rest, find_upgrade ps [(proto, h)] = Some ((proto, h), rest).
Proof.
  induction ps as [|p ps IH]; intros (q & Hq & He); [by apply elem_of_nil in Hq|]. cbn [find_upgrade List.find fst].
  destruct (uncased_eq p proto) eqn:E; [by eexists|]. apply IH. exists q. split; [|done].
  apply elem_of_cons in Hq as [->|?]; [congruence|done].
Qed.

Lemma asked_protocol (req : Request IM) :
  asks #"Upgrade" #"websocket" req →
  ∃ p, p ∈ concat ((λ v, trim <$> split_on "," v) <$> Header.get #"upgrade" (req_headers req)) ∧
       uncased_eq p #"websocket" = true.
Proof.
  intros (value & item & Hv & Hi & He). exists (trim item). split; [|done].
  apply list_elem_of_In, in_concat. exists (trim <$> split_on "," value). rewrite <-!list_elem_of_In.
  split; [|by apply list_elem_of_fmap_2]. apply (list_elem_of_fmap_2 (λ v, trim <$> split_on "," v)).
  rewrite (get_same #"upgrade" #"Upgrade"); [done|]. rewrite uncased_eq_spec. by vm_compute.
Qed.

(** C37: Websockets are upgraded: the guard succeeds for exactly the requests that
    ask for a websocket of version 13 and give a key, and forwards all others
    with 400; when it has succeeded, whatever the application then adds to the
    response of a channel or a stream, the connection is upgraded to that
    channel's or stream's handler, and the response has the status 101, names
    the protocol, and carries the key's answer; and the handler of a stream
    sends the messages of the stream in order, up to the first that closes it
    or cannot be sent, and fails only with an error other than that the
    connection is closed. *)
Theorem websocket_upgraded (req : Request IM) :
  match from_request req with
  | Success ws =>
    (∃ k, asks_websocket req k ∧ key ws = derive_accept_key k) ∧
    ∀ (io : IoHandler) (response : Response IM IoHandler),
      Response.upgrade response = Response.upgrade (upgrade_response (IM := IM) ws io) →
      ∃ r, extract_io_handler req response = (Some (#"websocket", io), r) ∧
        Response.status r = Status.SwitchingProtocols ∧ body r = body response ∧
        ∀ n, Header.get n (resp_headers r) =
          if uncased_eq n #"Upgrade" then [ #"websocket"]
          else if uncased_eq n #"Connection" then [ #"Upgrade"]
          else Header.get n (resp_headers response)
  | Forward status => status = Status.BadRequest ∧ ∀ k, ¬ asks_websocket req k
  | Error _ => False
  end ∧
  (∀ ws (io : IoHandler), Header.get #"Sec-WebSocket-Accept" (resp_headers (upgrade_response (IM := IM) ws io)) = [key ws]) ∧
  ∀ D S (duplex_new : WsConfig → D) (split : D → S) send self,
    stream_io duplex_new split send self =
      let source := duplex_new (ws_config (stream_ws self)) in
      let '(ms, e) := messages (stream_handler self source) in
      let '(failed, sink) := send_all send ms (split source) in
      let why := match failed with Some f => Some f | None => e end in
      (match handle_result why with inl e => inl e | inr _ => inr tt end, sink).
Proof.
  split; [|split].
  - pose proof (from_request_spec req) as Hr. destruct (from_request req) as [ws|e|status]; [|done..].
    destruct Hr as (k & Hk & ->). split; [by exists k|]. intros io response Hup.
    destruct (asked_protocol req) as (p & Hp & He); [apply Hk|].
    destruct (find_upgrade_one _ #"websocket" io (ex_intro _ p (conj Hp He))) as [rest Hf].
    unfold extract_io_handler, search_upgrades. rewrite Hup.
    change (Response.upgrade (upgrade_response _ io)) with [(#"websocket", io)]. cbn [is_empty]. rewrite Hf.
    eexists. split; [done|]. split; [done|]. split; [done|]. intros n.
    unfold set_raw_header. by rewrite !get_set_header.
  - intros ws io. unfold upgrade_response, add_upgrade, set_raw_header. cbn [resp_headers].
    rewrite get_set_header. cbn [header_name header_value]. by rewrite uncased_eq_refl.
  - intros. apply stream_loop_spec.
Qed.
End handshake.

(** ** A request for a websocket *)

Module WebSocketReference.
Import Reference PearReference PearCombinatorsReference HeaderReference CookieReference.

#[export] Instance tungstenite_ref : Tungstenite := {|
  WsConfig := unit;
  config_default := tt;
  derive_accept_key k := #"accept:" ++ k;
  Message := nat;
  is_close m := (m =? 0)%nat;
  IoError := unit;
  WsFailure := unit;
|}.

Definition asking : Request header_index :=
  foldl (λ r h, add_header h r) (request_new false None Get (Origin_new #"/chat" None))
    [Header_new #"connection" #"keep-alive, Upgrade"; Header_new #"upgrade" #"h2c"; Header_new #"Upgrade" #"WebSocket";
     Header_new #"sec-websocket-version" #"13"; Header_new #"Sec-WebSocket-Key" #"k"].

Example websocket_witness :
  ∃ ws r, from_request asking = Success ws ∧
    extract_io_handler asking (set_header (Header_new #"X" #"y") (upgrade_response (IoHandler := nat) ws 7)) = (Some (#"websocket", 7), r) ∧
    Response.status r = Status.SwitchingProtocols ∧ Header.get #"upgrade" (resp_headers r) = [ #"websocket"].
Proof.
  pose proof (websocket_upgraded (IoHandler := nat) asking) as [Hw _].
  destruct (from_request asking) as [ws|e|s] eqn:E; [|by destruct Hw|exfalso; by vm_compute in E].
  destruct Hw as [_ Hw]. exists ws.
  destruct (Hw 7 (set_header (Header_new #"X" #"y") (upgrade_response ws 7)) eq_refl) as (r & He & Hs & _ & Hg).
  exists r. split; [done|]. split; [exact He|]. split; [exact Hs|]. rewrite Hg. by vm_compute.
Defined.

(** A message after the one that closes is not sent; a closed connection is no
    failure. *)
Definition collect (m : nat) (sent : list nat) : option WsError * list nat :=
  if (m =? 9)%nat then (Some ConnectionClosed, sent) else (None, sent ++ [m]).

Lemma stream_sends :
  stream_loop collect [inr 1; inr 2; inr 0; inr 3] [] = (inr tt, [1; 2]) ∧
  stream_loop collect [inr 1; inr 9; inr 3] [] = (inr tt, [1]) ∧
  stream_loop collect [inr 1; inl (WsOther tt); inr 3] [] = (inl (IoOther tt), [1]).
Proof. by vm_compute. Qed.
End WebSocketReference.
