(* ===== verification/Rocket.v ===== *)
(** * Rocket: the phases of an instance (core/lib/src/rocket.rs, phase.rs)

    An instance is built, ignited and launched.  The fairings' [on_ignite] is
    a function on the instance that is built; the functions that [abort]
    pointers stand for apply to the ignited one.  Managed state is a map of the
    [state] crate, by [TypeId].  Logging and tracing have no part in the
    model. *)

From S2P Require Import Prelude Sentinel Crates RawStr Status Method Header MediaType UriTables MediaParse.
From S2P Require Import Fairings Limits Config Uri Catcher Route Request Router.

(** The [state] crate: [set] does nothing to what is there, or when the map is
    frozen. *)
Class TypeMap (V : Type) := {
  type_map : Type;
  tm_new : type_map;
  tm_set : nat → V → type_map → bool * type_map;
  tm_try_get : nat → type_map → option V;
  tm_freeze : type_map → type_map;
}.

Class TypeMapLaws (V : Type) `{TypeMap V} : Prop := {
  tm_new_spec t : tm_try_get t tm_new = None;
  tm_set_spec t v m b m' :
    tm_set t v m = (b, m') →
    if b then tm_try_get t m = None ∧ tm_try_get t m' = Some v ∧
              ∀ t', t' ≠ t → tm_try_get t' m' = tm_try_get t' m
    else m' = m;
  tm_set_there t v m w : tm_try_get t m = Some w → (tm_set t v m).1 = false;
  tm_freeze_spec t m : tm_try_get t (tm_freeze m) = tm_try_get t m;
}.

Section Rocket.
Context {U : Uncased} {P : Pear} {PC : PearCombinators} {SP : StablePattern} {M : Memchr}
  {PE : PercentEncoding}.
Context {KO : CookieKey} {FC : FigmentCrate}.
Context {H C F V Endpoint Stages : Type} {TM : TypeMap V}.

(** [struct Building], [Igniting], [Orbiting], of the macro [phases!]. *)
Record Building := mkBuilding {
  build_routes : list (Route H);
  build_catchers : list (Catcher C);
  build_fairings : Fairings F;
  build_figment : Figment;
  build_state : type_map;
}.

Record Igniting := mkIgniting {
  ignite_router : Finalized H C;
  ignite_fairings : Fairings F;
  ignite_figment : Figment;
  ignite_config : Config;
  ignite_state : type_map;
  ignite_shutdown : Stages;
}.

Record Orbiting := mkOrbiting {
  orbit_router : Finalized H C;
  orbit_fairings : Fairings F;
  orbit_figment : Figment;
  orbit_config : Config;
  orbit_state : type_map;
  orbit_shutdown : Stages;
  orbit_endpoints : list Endpoint;
}.

(** [enum State]. *)
Inductive State :=
  | SBuild (s : Building)
  | SIgnite (s : Igniting)
  | SOrbit (s : Orbiting).

(** [enum ErrorKind] (core/lib/src/error.rs), those of the functions below. *)
Inductive ErrorKind :=
  | FailedFairings (failures : list Info)
  | ConfigError (e : figment_error)
  | InsecureSecretKey (profile : Profile)
  | CollisionsError (collisions : Collisions H C)
  | SentinelAborts (aborted : list Sentry).

(** ** Building *)

Section building.
Context (info : F → Info) (ftype : F → nat) (shield : F).

Definition set_fairings (fairings : Fairings F) (b : Building) : Building :=
  mkBuilding (build_routes b) (build_catchers b) fairings (build_figment b) (build_state b).

Definition building_default (figment : Figment) : Building :=
  mkBuilding [] [] fairings_new figment tm_new.

(** [Rocket::reconfigure], [attach], [custom]. *)
Definition reconfigure (provider : Figment) (self : Building) : Building :=
  mkBuilding (build_routes self) (build_catchers self) (build_fairings self) provider
    (build_state self).

Definition attach (fairing : F) (self : Building) : Building :=
  set_fairings (add info ftype fairing (build_fairings self)) self.

Definition custom (default provider : Figment) : Building :=
  attach shield (reconfigure provider (building_default default)).

(** [Rocket::load]; [None] is a panic. *)
Definition load {T} (base : str) (items : list T) (m : Origin → T → option T)
    (f : T → Building → Building) (self : Building) : option Building :=
  base ← Origin_parse base;
  let base := match query base with Some _ => clear_query base | None => base end in
  foldl (λ self unmounted_item,
    self ← self;
    item ← m base unmounted_item;
    Some (f item self)) (Some self) items.

Definition push_route (route : Route H) (r : Building) : Building :=
  mkBuilding (build_routes r ++ [route]) (build_catchers r) (build_fairings r) (build_figment r)
    (build_state r).

Definition push_catcher (catcher : Catcher C) (r : Building) : Building :=
  mkBuilding (build_routes r) (build_catchers r ++ [catcher]) (build_fairings r) (build_figment r)
    (build_state r).

(** [Rocket::mount], [register]. *)
Definition mount (base : str) (routes : list (Route H)) (self : Building) : option Building :=
  load base routes Route.rebase push_route self.

Definition register (base : str) (catchers : list (Catcher C)) (self : Building)
  : option Building :=
  load base catchers Catcher.rebase push_catcher self.

(** [Rocket::manage], of a value of the type [t]; [None] is a panic. *)
Definition manage (t : nat) (state : V) (self : Building) : option Building :=
  let '(ok, map) := tm_set t state (build_state self) in
  if ok then
    Some (mkBuilding (build_routes self) (build_catchers self) (build_fairings self)
            (build_figment self) map)
  else None.
End building.

(** ** Accessors *)

(** [Rocket::routes], [catchers], [state], [figment], in each phase. *)
Definition routes (self : State) : list (Route H) :=
  match self with
  | SBuild p => build_routes p
  | SIgnite p => Router.routes (ignite_router p)
  | SOrbit p => Router.routes (orbit_router p)
  end.

Definition catchers (self : State) : list (Catcher C) :=
  match self with
  | SBuild p => build_catchers p
  | SIgnite p => Router.catchers (ignite_router p)
  | SOrbit p => Router.catchers (orbit_router p)
  end.

Definition state (t : nat) (self : State) : option V :=
  match self with
  | SBuild p => tm_try_get t (build_state p)
  | SIgnite p => tm_try_get t (ignite_state p)
  | SOrbit p => tm_try_get t (orbit_state p)
  end.

Definition figment (self : State) : Figment :=
  match self with
  | SBuild p => build_figment p
  | SIgnite p => ignite_figment p
  | SOrbit p => orbit_figment p
  end.

(** [Rocket::fairings], [fairing], of the fairings of the type [t]. *)
Definition all_fairings_of (self : State) : Fairings F :=
  match self with
  | SBuild p => build_fairings p
  | SIgnite p => ignite_fairings p
  | SOrbit p => orbit_fairings p
  end.

(** [Fairings::filter] (core/lib/src/fairing/fairings.rs). *)
Definition fairings_filter (ftype : F → nat) (t : nat) (self : Fairings F) : list F :=
  List.filter (λ f, (ftype f =? t)%nat) (snd <$> iter self (unique_active self)).

Definition fairings (ftype : F → nat) (t : nat) (self : State) : list F :=
  fairings_filter ftype t (all_fairings_of self).

Definition fairing (ftype : F → nat) (t : nat) (self : State) : option F :=
  head (fairings ftype t self).

(** ** Ignition *)

Section igniting.
Context (info : F → Info) (ftype : F → nat) (on_ignite : F → Building → Building * bool).
Context (extract : Figment → figment_error + Config) (secrets : bool).
Context (try_generate : option Key) (stages_new : Stages) (call : nat → Igniting → bool).

(** [on_ignite], on an instance whose fairings are apart. *)
Definition on_ignite_apart (f : F) (st : Building * Fairings F) : Building * Fairings F * bool :=
  let '(b, ok) := on_ignite f (set_fairings st.2 st.1) in (b, build_fairings b, ok).

(** [Fairings::handle_ignite]. *)
Definition handle_ignite (fuel : nat) (self : Building) : option Building :=
  '(b, fairings) ← Fairings.handle_ignite info ftype on_ignite_apart fuel self (build_fairings self);
  Some (set_fairings fairings b).

(** The checks of the configured secret. *)
Definition secure (config : Config) : ErrorKind + Config :=
  if negb secrets then inr config
  else if is_provided (secret_key config) then inr config
  else if negb (bool_decide (profile config = DEBUG_PROFILE)) then
    inl (InsecureSecretKey (profile config))
  else if is_zero (secret_key config) then
    match match secret_generate try_generate with Some key => Some key | None => secret_zero end with
    | Some key => inr (with_secret_key key config)
    | None => inr config
    end
  else inr config.

(** [Rocket::ignite], once the fairings' [on_ignite] ran. *)
Definition ignite_rest (self : Building) : option (ErrorKind + Igniting) :=
  match audit (build_fairings self) with
  | inr failures => Some (inl (FailedFairings failures))
  | inl _ =>
    match try_from extract (build_figment self) with
    | inl e => Some (inl (ConfigError e))
    | inr config =>
      match secure config with
      | inl e => Some (inl e)
      | inr config =>
        match finalize (Pending_new (build_routes self) (build_catchers self)) with
        | inl collisions => Some (inl (CollisionsError collisions))
        | inr router =>
          let rocket := mkIgniting router (build_fairings self) (build_figment self) config
                          (tm_freeze (build_state self)) stages_new in
          let sentinels := concat (Route.sentinels <$> Router.routes (ignite_router rocket)) in
          queried ← Sentinel.query (λ abort, call abort rocket) sentinels;
          Some (match queried with
                | inr aborted => inl (SentinelAborts aborted)
                | inl _ => inr rocket
                end)
        end
      end
    end
  end.

Definition ignite (fuel : nat) (self : Building) : option (ErrorKind + Igniting) :=
  self ← handle_ignite fuel self;
  ignite_rest self.

(** [Rocket::into_orbit], [deorbit], [into_ignite], [local_launch]. *)
Definition into_orbit (endpoints : list Endpoint) (self : Igniting) : Orbiting :=
  mkOrbiting (ignite_router self) (ignite_fairings self) (ignite_figment self) (ignite_config self)
    (ignite_state self) (ignite_shutdown self) endpoints.

Definition deorbit (self : Orbiting) : Igniting :=
  mkIgniting (orbit_router self) (orbit_fairings self) (orbit_figment self) (orbit_config self)
    (orbit_state self) (orbit_shutdown self).

Definition into_ignite (fuel : nat) (self : State) : option (ErrorKind + Igniting) :=
  match self with
  | SBuild s => ignite fuel s
  | SIgnite s => Some (inr s)
  | SOrbit s => Some (inr (deorbit s))
  end.

Definition local_launch (fuel : nat) (e : Endpoint) (self : State)
  : option (ErrorKind + Orbiting) :=
  result ← into_ignite fuel self;
  Some (match result with
        | inl e => inl e
        | inr rocket => inr (into_orbit [e] rocket)
        end).
End igniting.

(** [Rocket::try_wait_shutdown]: [strong_count t] is the number of references
    to the instance [t] microseconds after the call; the result has the time
    at which it is given. *)
Fixpoint wait_loop (strong_count : Z → nat) (periods : list Z) (t : Z) : Z :=
  match periods with
  | [] => t
  | period :: periods =>
    if (strong_count t =? 1)%nat then t else wait_loop strong_count periods (t + period)%Z
  end.

Definition try_wait_shutdown (strong_count : Z → nat) (self : Orbiting)
  : Z * (Igniting + Orbiting) :=
  let config := shutdown (orbit_config self) in
  let wait := 250%Z in
  let t := wait_loop strong_count [wait; grace config; wait; mercy config; wait * 4]%Z 0 in
  (t, if (strong_count t =? 1)%nat then inl (deorbit self) else inr self).
End Rocket.

Arguments Building {FC} H C F V {TM}.
Arguments Igniting {KO FC} H C F V Stages {TM}.
Arguments Orbiting {KO FC} H C F V Endpoint Stages {TM}.
Arguments State {KO FC} H C F V Endpoint Stages {TM}.
Arguments ErrorKind {FC} H C.

(** ** Lemmas on the order of routes and catchers *)

Section order.
Context {U : Uncased} {UL : UncasedLaws} {P : Pear} {PC : PearCombinators}
  {IM : IndexMap str (list str) uncased_eq}.
Context {SP : StablePattern} {SPL : StablePatternLaws} {M : Memchr} {PE : PercentEncoding}
  {PEL : PercentEncodingLaws}.
Context {H C : Type}.

Lemma segments_collide_sym a b : segments_collide a b = segments_collide b a.
Proof.
  unfold segments_collide. rewrite (orb_comm (dynamic a)). f_equal. apply bool_decide_ext. naive_solver.
Qed.

Lemma uris_collide_loop_sym a b : uris_collide_loop a b = uris_collide_loop b a.
Proof.
  revert b. induction a as [|x a IH]; intros [|y b]; simpl; try done.
  by rewrite orb_comm, segments_collide_sym, IH.
Qed.

Lemma routes_collide_sym (a b : Route H) : routes_collide a b = routes_collide b a.
Proof.
  unfold routes_collide. apply f_equal2; [apply f_equal2; [apply f_equal2|]|].
  - unfold methods_collide. destruct (method a), (method b); try done. apply bool_decide_ext. naive_solver.
  - apply Z.eqb_sym.
  - unfold uris_collide. by rewrite uris_collide_loop_sym, Nat.eqb_sym.
  - unfold formats_collide. destruct (payload_support (method a)) as [[]|], (payload_support (method b)) as [[]|],
      (Route.format a), (Route.format b); try done. apply media_types_collide_sym.
Qed.

Lemma catchers_collide_sym (a b : Catcher C) : catchers_collide a b = catchers_collide b a.
Proof. unfold catchers_collide. apply f_equal2; apply bool_decide_ext; naive_solver. Qed.

(** That no two items collide does not depend on their order. *)
Lemma collisions_permutation {T} (collides : T → T → bool) (l l' : list T) :
  (∀ a b, collides a b = collides b a) → l ≡ₚ l' →
  collisions collides l = [] → collisions collides l' = [].
Proof.
  intros Hsym Hp. rewrite !collisions_nil. intros Hl i j a b Hij Hi Hj.
  apply symmetry, Permutation_inj in Hp as (_ & f & Hf & Hl').
  rewrite Hl' in Hi, Hj. destruct (Nat.lt_trichotomy (f i) (f j)) as [Hlt|[Heq|Hgt]].
  - by apply (Hl (f i) (f j)).
  - apply Hf in Heq. lia.
  - rewrite Hsym. by apply (Hl (f j) (f i)).
Qed.

Lemma filter_permutation {A} (p : A → bool) (l k : list A) :
  l ≡ₚ k → List.filter p l ≡ₚ List.filter p k.
Proof.
  induction 1 as [|x l k _ IH|x y l|l k m _ IHl _ IHk]; simpl; repeat case_match; try done.
  - by rewrite IH.
  - apply Permutation_swap.
  - by etrans.
Qed.

Context (p p' : Pending H C).
Context (same_routes : pending_routes p ≡ₚ pending_routes p').
Context (same_catchers : pending_catchers p ≡ₚ pending_catchers p').

Lemma finalize_permutation f : finalize p = inr f → ∃ f', finalize p' = inr f'.
Proof.
  unfold finalize. destruct (is_empty (collisions routes_collide (pending_routes p))) eqn:Hr; [|done].
  destruct (is_empty (collisions catchers_collide (pending_catchers p))) eqn:Hc; [|done]. intros _.
  apply is_empty_true in Hr, Hc.
  rewrite (collisions_permutation _ _ _ routes_collide_sym same_routes Hr).
  rewrite (collisions_permutation _ _ _ catchers_collide_sym same_catchers Hc). eauto.
Qed.

Lemma route_permutation f f' (req : Request IM) :
  finalize p = inr f → finalize p' = inr f' →
  Forall (λ r, trail_wf (route_uri r)) (pending_routes p) →
  Router.route f req = Router.route f' req.
Proof.
  intros Hf Hf' Hwf. eapply StronglySorted_unique_strong.
  2: by eapply (route_strict p).
  2: eapply (route_strict p'); [done|by rewrite <-same_routes].
  - simpl. intros. lia.
  - rewrite (route_sorted p f req Hf), (route_sorted p' f' req Hf'), !sort_by_key_perm.
    by apply filter_permutation.
Qed.

Lemma find_permutation f status (req : Request IM) key :
  finalize p = inr f → Forall catcher_wf (pending_catchers p) →
  List.find (catcher_matches status req)
    (sort_by_key Catcher.rank (List.filter (λ c, bool_decide (code c = key)) (pending_catchers p))) =
  List.find (catcher_matches status req)
    (sort_by_key Catcher.rank (List.filter (λ c, bool_decide (code c = key)) (pending_catchers p'))).
Proof.
  intros Hf Hwf.
  pose proof (find_kind status req key (pending_catchers p)) as Hp.
  pose proof (find_kind status req key (pending_catchers p')) as Hp'.
  destruct (List.find _ _) as [a|], (List.find _ _) as [b|]; [|..|done].
  - destruct Hp as (Hain & Hca & Hma & Ha), Hp' as (Hbin & Hcb & Hmb & Hb). rewrite <-same_catchers in Hbin.
    setoid_rewrite <-same_catchers in Hb. specialize (Ha b Hbin Hcb Hmb). specialize (Hb a Hain Hca Hma).
    apply list_elem_of_lookup in Hain as [i Hi], Hbin as [j Hj].
    assert (i = j) as <- by (eapply (catch_unambiguous p f status req i j a b); try done; [lia|congruence]).
    congruence.
  - destruct Hp as (Hain & Hca & Hma & _). rewrite same_catchers in Hain. by rewrite (Hp' a) in Hma.
  - destruct Hp' as (Hbin & Hcb & Hmb & _). rewrite <-same_catchers in Hbin. by rewrite (Hp b) in Hmb.
Qed.

Lemma catch_permutation f f' status (req : Request IM) :
  finalize p = inr f → finalize p' = inr f' → Forall catcher_wf (pending_catchers p) →
  catch f status req = catch f' status req.
Proof.
  intros Hf Hf' Hwf. unfold catch.
  rewrite !(catch_find p f status req _ Hf), !(catch_find p' f' status req _ Hf').
  by rewrite !(find_permutation f).
Qed.
End order.

(** ** Lemmas on building *)

Section mounts.
Context {U : Uncased} {P : Pear} {PL : PearLaws} {SP : StablePattern} {SPL : StablePatternLaws} {M : Memchr}
  {PE : PercentEncoding} {PEL : PercentEncodingLaws}.
Context {FC : FigmentCrate} {H C F V : Type} {TM : TypeMap V}.

(** A call of [mount] or of [register]. *)
Inductive Op :=
  | Mount (base : str) (routes : list (Route H))
  | Register (base : str) (catchers : list (Catcher C)).

Definition apply_op (self : option (Building H C F V)) (op : Op) : option (Building H C F V) :=
  self ← self;
  match op with
  | Mount base routes => mount base routes self
  | Register base catchers => register base catchers self
  end.

(** Calls in a row. *)
Definition apply_ops (ops : list Op) (self : Building H C F V) : option (Building H C F V) :=
  foldl apply_op (Some self) ops.

(** What a call adds. *)
Definition op_adds (op : Op) : option (list (Route H) * list (Catcher C)) :=
  match op with
  | Mount base routes =>
    base ← Origin_parse base; rs ← mapM (Route.rebase (clear_query base)) routes; Some (rs, [])
  | Register base catchers =>
    base ← Origin_parse base; cs ← mapM (Catcher.rebase (clear_query base)) catchers; Some ([], cs)
  end.

Definition extend (self : Building H C F V) (added : list (Route H) * list (Catcher C))
  : Building H C F V :=
  mkBuilding (build_routes self ++ added.1) (build_catchers self ++ added.2) (build_fairings self)
    (build_figment self) (build_state self).

Lemma extend_app b xs ys zs ws :
  extend (extend b (xs, ys)) (zs, ws) = extend b (xs ++ zs, ys ++ ws).
Proof. unfold extend. cbn. by rewrite !app_assoc. Qed.

Lemma extend_nil b : extend b ([], []) = b.
Proof. destruct b. unfold extend. cbn. by rewrite !app_nil_r. Qed.

(** [load] rebases every item, or panics. *)
Lemma foldl_load {T} (m : T → option T) (f : T → Building H C F V → Building H C F V) items b :
  foldl (λ self item, self ← self; item ← m item; Some (f item self)) (Some b) items =
    items ← mapM m items; Some (foldl (λ b item, f item b) b items).
Proof.
  revert b. assert (∀ items, foldl (λ self item, self ← self; item ← m item; Some (f item self))
    None items = None) as Hnone by (intros l; induction l; simpl; done).
  induction items as [|item items IH]; intros b; simpl; [done|].
  destruct (m item) as [item'|]; simpl; [|apply Hnone].
  rewrite IH. by destruct (mapM m items).
Qed.

Lemma foldl_push_route rs b : foldl (λ b r, push_route r b) b rs = extend b (rs, []).
Proof.
  revert b. induction rs as [|r rs IH]; intros b; simpl; [by rewrite extend_nil|].
  rewrite IH. unfold extend, push_route. cbn. by rewrite <-app_assoc, !app_nil_r.
Qed.

Lemma foldl_push_catcher cs b : foldl (λ b c, push_catcher c b) b cs = extend b ([], cs).
Proof.
  revert b. induction cs as [|c cs IH]; intros b; simpl; [by rewrite extend_nil|].
  rewrite IH. unfold extend, push_catcher. cbn. by rewrite <-app_assoc, !app_nil_r.
Qed.

Lemma clear_query_None o : query o = None → clear_query o = o.
Proof. destruct o as [p q]. simpl. by intros ->. Qed.

Lemma apply_op_adds op b : apply_op (Some b) op = extend b <$> op_adds op.
Proof.
  assert (∀ o, match query o with Some _ => clear_query o | None => o end = clear_query o) as Hq.
  { intros o. destruct (query o) eqn:E; [done|]. by rewrite clear_query_None. }
  destruct op as [base rs|base cs]; simpl; unfold mount, register, load;
    destruct (Origin_parse base) as [o|]; simpl; try done; rewrite Hq, foldl_load;
    (destruct (mapM _ _); simpl; [|done]); f_equal;
    [apply foldl_push_route|apply foldl_push_catcher].
Qed.

Lemma apply_ops_adds ops b b' :
  apply_ops ops b = Some b' ↔
  ∃ added, Forall2 (λ op a, op_adds op = Some a) ops added ∧
    b' = extend b (concat (fst <$> added), concat (snd <$> added)).
Proof.
  unfold apply_ops. revert b. induction ops as [|op ops IH]; intros b.
  - simpl. split.
    + intros [= ->]. exists []. simpl. by rewrite extend_nil.
    + intros (added & Ha & ->). inversion_clear Ha. simpl. by rewrite extend_nil.
  - cbn [foldl]. rewrite apply_op_adds. destruct (op_adds op) as [[rs cs]|] eqn:Hop; simpl.
    + rewrite IH. split.
      * intros (added & Ha & ->). exists ((rs, cs) :: added). split; [by constructor|].
        simpl. by rewrite extend_app.
      * intros (added & Ha & ->). inversion_clear Ha as [|? [rs' cs'] ? added' Ho Ha']. simplify_eq.
        exists added'. split; [done|]. simpl. by rewrite extend_app.
    + assert (∀ l, foldl apply_op None l = None) as -> by (intros l; induction l; simpl; done).
      split; [done|]. intros (added & Ha & _). inversion_clear Ha. simplify_eq.
Qed.

(** What is well-formed in an instance, and in what is registered. *)
Definition building_wf (b : Building H C F V) : Prop :=
  Forall (λ r, trail_wf (route_uri r)) (build_routes b) ∧ Forall catcher_wf (build_catchers b).

Definition op_wf (op : Op) : Prop :=
  match op with Mount _ _ => True | Register _ catchers => Forall catcher_wf catchers end.

Lemma op_adds_wf op rs cs :
  op_wf op → op_adds op = Some (rs, cs) →
  Forall (λ r, trail_wf (route_uri r)) rs ∧ Forall catcher_wf cs.
Proof.
  assert (∀ {A B} (f : A → option B) (Q : B → Prop) l k,
    mapM f l = Some k → (∀ x y, x ∈ l → f x = Some y → Q y) → Forall Q k) as Hall.
  { intros A B f Q l k Hm Hq. apply mapM_Some in Hm. apply Forall_forall. intros y Hy.
    apply list_elem_of_lookup in Hy as [i Hi].
    destruct (Forall2_lookup_r _ _ _ _ _ Hm Hi) as (x & Hx & Hxy). apply (Hq x); [|done].
    by eapply list_elem_of_lookup_2. }
  destruct op as [base routes|base catchers]; simpl; intros Hop (o & Ho & Hm)%bind_Some;
    apply bind_Some in Hm as (l & Hl & [= <- <-]); split; try done; eapply Hall; try exact Hl; cbn.
  - intros r r' _ (u & Hu & [= <-])%bind_Some. by eapply try_new_trail_wf.
  - intros c c' Hc Hr. rewrite Forall_forall in Hop. apply Origin_parse_valid in Ho as [Hv _].
    destruct (rebase_wf c (clear_query o) (Hop _ Hc)) as (c2 & Hc2 & Hw & _);
      [by destruct Hv as (? & ? & _); split_and!|congruence].
Qed.
End mounts.
Arguments Op : clear implicits.

(** ** Ignition *)

Section ignition.
Context {U : Uncased} {UL : UncasedLaws} {P : Pear} {PL : PearLaws} {PC : PearCombinators}
  {IM : IndexMap str (list str) uncased_eq}.
Context {SP : StablePattern} {SPL : StablePatternLaws} {M : Memchr} {PE : PercentEncoding}
  {PEL : PercentEncodingLaws}.
Context {KO : CookieKey} {FC : FigmentCrate} {H C F V Stages : Type} {TM : TypeMap V}.
Context (info : F → Info) (ftype : F → nat)
  (on_ignite : F → Building H C F V → Building H C F V * bool).
Context (extract : Figment → figment_error + Config) (secrets : bool).
Context (try_generate : option Key) (stages_new : Stages).
Context (call : nat → Igniting H C F V Stages → bool).

Definition all_sentinels (routes : list (Route H)) : list Sentry := concat (Route.sentinels <$> routes).

(** The sentries of one type have one [abort]: that of the type. *)
Definition sentries_wf (routes : list (Route H)) : Prop :=
  ∀ s s', s ∈ all_sentinels routes → s' ∈ all_sentinels routes → type_id s = type_id s' →
    abort s = abort s'.

(** A configuration that launches with secrets, and what becomes of it. *)
Definition config_secure (config : Config) : Prop :=
  secrets = true → is_provided (secret_key config) = true ∨ profile config = DEBUG_PROFILE.

Lemma secure_spec config :
  match secure (H:=H) (C:=C) secrets try_generate config with
  | inl (InsecureSecretKey p) =>
    secrets = true ∧ is_provided (secret_key config) = false ∧ p = profile config ∧ p ≠ DEBUG_PROFILE
  | inl _ => False
  | inr config' =>
    config_secure config ∧ with_secret_key (secret_key config) config' = config ∧
    (is_provided (secret_key config) = true → config' = config)
  end.
Proof.
  assert (∀ k, with_secret_key (secret_key config) (with_secret_key k config) = config) as Hk
    by (by destruct config).
  assert (with_secret_key (secret_key config) config = config) as Hc by (by destruct config).
  unfold secure, config_secure. destruct secrets; simpl; [|by split_and!].
  destruct (is_provided _) eqn:Hp; [split_and!; auto|].
  case_bool_decide as Hd; simpl; [|by split_and!].
  destruct (is_zero _); [|by split_and!; auto].
  repeat case_match; simplify_eq; split_and!; try done; auto.
Qed.

(** The checks of [ignite], in order, and what they accept. *)
Definition launches (b : Building H C F V) (r : Igniting H C F V Stages) : Prop :=
  failures (build_fairings b) = [] ∧
  (∃ config, try_from extract (build_figment b) = inr config ∧ config_secure config ∧
     with_secret_key (secret_key config) (ignite_config r) = config) ∧
  finalize (Pending_new (build_routes b) (build_catchers b)) = inr (ignite_router r) ∧
  (∀ s, reached (all_sentinels (build_routes b)) s → specialized s = true →
     call (abort s) r = false) ∧
  ignite_fairings r = build_fairings b ∧ ignite_figment r = build_figment b ∧
  ignite_shutdown r = stages_new ∧ ignite_state r = tm_freeze (build_state b).

Lemma ignite_rest_spec b :
  sentries_wf (build_routes b) →
  ∃ res, ignite_rest extract secrets try_generate stages_new call b = Some res ∧
  match res with
  | inr r => launches b r
  | inl (FailedFairings l) => l = failures (build_fairings b) ∧ l ≠ []
  | inl (ConfigError e) => failures (build_fairings b) = [] ∧ try_from extract (build_figment b) = inl e
  | inl (InsecureSecretKey p) =>
    ∃ config, try_from extract (build_figment b) = inr config ∧ p = profile config ∧
      ¬ config_secure config
  | inl (CollisionsError cs) =>
    finalize (Pending_new (build_routes b) (build_catchers b)) = inl cs
  | inl (SentinelAborts l) =>
    l ≠ [] ∧ ∃ r, ∀ s, s ∈ l ↔ reached (all_sentinels (build_routes b)) s ∧ specialized s = true ∧
                              call (abort s) r = true
  end.
Proof.
  intros Hwf. unfold ignite_rest, audit.
  destruct (failures (build_fairings b)) as [|i l] eqn:Hfail; [|by eexists; split].
  destruct (try_from extract (build_figment b)) as [e|config] eqn:Hc; [by eexists; split|].
  pose proof (secure_spec config) as Hs. destruct (secure _ _ config) as [e|config'].
  { eexists; split; [done|]. destruct e; try done. destruct Hs as (? & Hp & -> & Hd).
    exists config. split_and!; [done..|]. intros [Hp'|Hp']; congruence. }
  destruct Hs as (Hsec & Hkey & _).
  destruct (finalize _) as [cs|router] eqn:Hf; [by eexists; split|].
  pose proof (finalize_inr _ _ Hf) as Hr. cbn [ignite_router]. replace (Router.routes router) with (build_routes b) by (by rewrite Hr). clear Hr.
  set (r := mkIgniting router _ _ _ _ _).
  destruct (query_reached (λ a, call a r) (all_sentinels (build_routes b)) Hwf) as (seen & Hq & Hseen & _).
  unfold all_sentinels in Hq. rewrite Hq. cbn.
  assert (∀ s, s ∈ List.filter (aborts (λ a, call a r)) seen ↔
    reached (all_sentinels (build_routes b)) s ∧ specialized s = true ∧ call (abort s) r = true) as Hab.
  { intros s. unfold aborts. by rewrite elem_of_filter_bool, Hseen, andb_true_iff. }
  destruct (List.filter _ seen) as [|s l]; eexists; (split; [done|]); [|split; [done|by exists r]].
  split_and!; try done; [by exists config|]. intros s Hre Hsp. destruct (call (abort s) r) eqn:Hcall; [|done].
  assert (s ∈ []) as []%not_elem_of_nil by (by apply Hab).
Qed.


(** Sentinels that look at the routes and catchers as sets. *)
Definition call_unordered : Prop :=
  ∀ a r r', Router.routes (ignite_router r) ≡ₚ Router.routes (ignite_router r') →
    Router.catchers (ignite_router r) ≡ₚ Router.catchers (ignite_router r') →
    ignite_fairings r = ignite_fairings r' → ignite_figment r = ignite_figment r' →
    ignite_config r = ignite_config r' → ignite_state r = ignite_state r' →
    call a r = call a r'.

Lemma reached_permutation l l' s : l ≡ₚ l' → reached l s → reached l' s.
Proof.
  intros Hp. induction 1 as [s Hs|p s _ IH Hsp Hs]; [apply reached_root|eapply reached_child];
    try done; by rewrite <-Hp.
Qed.

Lemma all_sentinels_permutation rs rs' : rs ≡ₚ rs' → all_sentinels rs ≡ₚ all_sentinels rs'.
Proof. intros Hp. unfold all_sentinels. by rewrite Hp. Qed.

(** An instance with the same routes and catchers in another order. *)
Lemma ignite_rest_permutation b b' r :
  build_routes b ≡ₚ build_routes b' → build_catchers b ≡ₚ build_catchers b' →
  build_fairings b = build_fairings b' → build_figment b = build_figment b' →
  build_state b = build_state b' → call_unordered → sentries_wf (build_routes b) →
  ignite_rest extract secrets try_generate stages_new call b = Some (inr r) →
  ∃ r', ignite_rest extract secrets try_generate stages_new call b' = Some (inr r') ∧
    finalize (Pending_new (build_routes b) (build_catchers b)) = inr (ignite_router r) ∧
    finalize (Pending_new (build_routes b') (build_catchers b')) = inr (ignite_router r').
Proof.
  intros Hr Hc Hfa Hfi Hst Hcall Hwf Hi.
  destruct (ignite_rest_spec b Hwf) as (res & Hres & Hspec). rewrite Hi in Hres. injection Hres as <-.
  destruct Hspec as (Hfail & (config & Hcfg & Hsec & Hkey) & Hfin & Hno & _).
  destruct (finalize_permutation (Pending_new _ _) (Pending_new (build_routes b') (build_catchers b'))
    Hr Hc _ Hfin) as [f' Hfin'].
  assert (Router.routes f' = build_routes b') as Hr' by (by rewrite (finalize_inr _ _ Hfin')).
  assert (Router.catchers f' = build_catchers b') as Hc' by (by rewrite (finalize_inr _ _ Hfin')).
  assert (Router.routes (ignite_router r) = build_routes b) as Hrr by (by rewrite (finalize_inr _ _ Hfin)).
  assert (Router.catchers (ignite_router r) = build_catchers b) as Hcc by (by rewrite (finalize_inr _ _ Hfin)).
  unfold ignite_rest, audit in Hi |- *. rewrite <-Hfa, <-Hfi, <-Hst, Hfin'. rewrite Hfail, Hcfg, Hfin in Hi.
  rewrite Hfail, Hcfg. destruct (secure _ _ config) as [|config'] eqn:Hs; [done|]. cbn [ignite_router] in *.
  set (r' := mkIgniting f' _ _ _ _ _).
  assert (sentries_wf (build_routes b')) as Hwf'.
  { intros s s'. rewrite <-!(all_sentinels_permutation _ _ Hr). apply Hwf. }
  destruct (query_reached (λ a, call a r') (all_sentinels (build_routes b')) Hwf') as (seen & Hq & Hseen & _).
  unfold all_sentinels in Hq at 1. rewrite Hr', Hq. cbn.
  exists r'. split; [|done]. destruct (List.filter _ seen) as [|s l] eqn:Hab; [done|]. exfalso.
  assert (s ∈ List.filter (aborts (λ a, call a r')) seen) as Hs' by (rewrite Hab; by left).
  unfold aborts in Hs'. rewrite elem_of_filter_bool, Hseen, andb_true_iff in Hs'.
  destruct Hs' as (Hre & Hsp & Hca). apply (reached_permutation _ _ _ (symmetry (all_sentinels_permutation _ _ Hr))) in Hre.
  specialize (Hno s Hre Hsp). destruct (Sentinel.query _ _) as [[?|?]|]; try done.
  injection Hi as Hir. rewrite (Hcall _ r' r), Hno in Hca; [done|..]; cbn [r' ignite_router ignite_fairings
    ignite_figment ignite_config ignite_state]; [by rewrite Hr', Hrr|by rewrite Hc', Hcc|by rewrite <-Hir..].
Qed.

Lemma handle_ignite_none fuel b :
  Fairings.ignite (build_fairings b) = [] →
  handle_ignite info ftype on_ignite (S fuel) b = Some b.
Proof.
  intros Hn. unfold handle_ignite. simpl. rewrite Hn. simpl. by destruct b.
Qed.

Lemma apply_ops_permutation ops ops' (b b1 : Building H C F V) :
  ops ≡ₚ ops' → apply_ops ops b = Some b1 →
  ∃ b2, apply_ops ops' b = Some b2 ∧
    build_routes b1 ≡ₚ build_routes b2 ∧ build_catchers b1 ≡ₚ build_catchers b2 ∧
    build_fairings b1 = build_fairings b ∧ build_fairings b2 = build_fairings b ∧
    build_figment b1 = build_figment b2 ∧ build_state b1 = build_state b2.
Proof.
  intros Hp (added & Ha & ->)%apply_ops_adds.
  destruct (Permutation_Forall2 Hp Ha) as (added' & Hp' & Ha').
  exists (extend b (concat (fst <$> added'), concat (snd <$> added'))). split.
  { apply apply_ops_adds. by exists added'. }
  cbn. split_and!; try done; by rewrite Hp'.
Qed.

Lemma apply_ops_wf ops (b b1 : Building H C F V) :
  Forall op_wf ops → building_wf b → apply_ops ops b = Some b1 → building_wf b1.
Proof.
  intros Hops [Hr Hc] (added & Ha & ->)%apply_ops_adds. unfold building_wf. cbn.
  assert (Forall (λ a : list (Route H) * list (Catcher C),
    Forall (λ r, trail_wf (route_uri r)) a.1 ∧ Forall catcher_wf a.2) added) as Hadd.
  { clear -Hops Ha PL SPL PEL. induction Ha as [|op [rs cs] ops added Ho _ IH]; [by constructor|].
    inversion_clear Hops. constructor; [by apply (op_adds_wf op)|by apply IH]. }
  rewrite !Forall_app. split_and!; try done; apply Forall_concat, Forall_fmap;
    (eapply Forall_impl; [exact Hadd|]); by intros ? [].
Qed.


(** ** Phases *)

(** An instance that was launched or shut down is what was ignited. *)
Lemma deorbit_into_orbit endpoints (r : Igniting H C F V Stages) :
  deorbit (Endpoint := str) (into_orbit endpoints r) = r.
Proof. by destruct r. Qed.

(** An instance that was ignited is not ignited again. *)
Lemma into_ignite_deorbit fuel (o : Orbiting H C F V str Stages) :
  into_ignite info ftype on_ignite extract secrets try_generate stages_new call fuel (SOrbit o) =
    Some (inr (deorbit o)).
Proof. done. Qed.

(** Each accessor has the same in every later phase. *)
Lemma accessors_kept (b : Building H C F V) (r : Igniting H C F V Stages) es `{!TypeMapLaws V} :
  launches b r →
  routes (Endpoint := str) (SIgnite r) = build_routes b ∧
  catchers (Endpoint := str) (SIgnite r) = build_catchers b ∧
  (∀ t, state (Endpoint := str) t (SIgnite r) = tm_try_get t (build_state b)) ∧
  figment (Endpoint := str) (SIgnite r) = build_figment b ∧
  routes (SOrbit (into_orbit (Endpoint := str) es r)) = build_routes b ∧
  ∀ t, state t (SOrbit (into_orbit (Endpoint := str) es r)) = tm_try_get t (build_state b).
Proof.
  intros (_ & _ & Hf & _ & _ & Hfig & _ & Hst). apply finalize_inr in Hf. cbn. rewrite Hf, Hst, Hfig.
  by split_and!; try (intros; apply tm_freeze_spec).
Qed.
End ignition.

(** Secrets that are in use are never zero, unless no key could be generated. *)
Lemma secure_not_zero {KO : CookieKey} {FC : FigmentCrate} {H C : Type} (secrets : bool)
    (generated : option Key) (config config' : Config) :
  secure (H:=H) (C:=C) secrets generated config = inr config' →
  secrets = true → is_zero (secret_key config') = true →
  generated = None ∨ ∃ k, generated = Some k ∧ is_zero (mkSecretKey k false) = true.
Proof.
  intros Hs -> Hz. unfold secure in Hs. cbn in Hs. destruct (is_provided (secret_key config)) eqn:Hp.
  - injection Hs as <-. unfold is_provided in Hp. rewrite Hz in Hp. by destruct (provided _).
  - case_bool_decide; [|done]. cbn in Hs. destruct (is_zero (secret_key config)) eqn:Hk; [|congruence].
    destruct generated as [k|]; cbn in Hs; [|by left]. injection Hs as <-. right. by exists k.
Qed.

(** ** Shutdown *)

Section shutdown.
Context {KO : CookieKey} {FC : FigmentCrate} {H C F V Endpoint Stages : Type} {TM : TypeMap V}.

Lemma wait_loop_spec count periods t :
  Forall (λ p, (0 <= p)%Z) periods →
  (t <= wait_loop count periods t <= t + foldr Z.add 0 periods)%Z ∧
  (count (wait_loop count periods t) = 1%nat ∨ wait_loop count periods t = t + foldr Z.add 0 periods)%Z.
Proof.
  intros Hp. revert t. induction Hp as [|p periods Hp' Hp IH]; intros t; simpl; [split; [lia|right; lia]|].
  assert (0 <= foldr Z.add 0 periods)%Z by (clear -Hp; induction Hp; simpl; lia).
  destruct (Nat.eqb_spec (count t) 1); [split; [lia|by left]|].
  destruct (IH (t + p)%Z) as [Hb Hr]. split; [lia|]. destruct Hr as [Hr|Hr]; [by left|right; lia].
Qed.

(** The wait for a shutdown ends within the two periods of the configuration
    and a millisecond and a half; the instance is given back exactly when there
    is no other reference to it then, and there is one if time was left. *)
Lemma try_wait_shutdown_spec (count : Z → nat) (self : Orbiting H C F V Endpoint Stages) t res :
  let config := shutdown (orbit_config self) in
  (0 <= grace_period config)%Z → (0 <= mercy_period config)%Z →
  try_wait_shutdown count self = (t, res) →
  (0 <= t <= grace config + mercy config + 1500)%Z ∧
  (res = inl (deorbit self) ↔ count t = 1) ∧ (res = inr self ↔ count t ≠ 1) ∧
  (t < grace config + mercy config + 1500 → count t = 1%nat)%Z.
Proof.
  intros config Hg Hm. unfold try_wait_shutdown. fold config. cbn zeta.
  set (periods := [250; grace config; 250; mercy config; 250 * 4]%Z).
  destruct (wait_loop_spec count periods 0) as [Hb Hr].
  { unfold periods, grace, mercy. repeat constructor; lia. }
  assert (foldr Z.add 0 periods = grace config + mercy config + 1500)%Z as Hsum
    by (unfold periods; cbn [foldr]; lia).
  rewrite Hsum in Hb, Hr. generalize dependent (wait_loop count periods 0). intros t' Hb Hr [= <- <-].
  split; [lia|]. destruct (Nat.eqb_spec (count t') 1) as [Hc|Hc]; (split; [naive_solver|split; [naive_solver|]]);
    intros Hlt; destruct Hr; [done|lia|done|lia].
Qed.
End shutdown.

(** ** Witnesses: an instance with one route and one catcher *)

Module RocketReference.
#[export] Instance type_map_ref (V : Type) : TypeMap V := {
  type_map := bool * gmap nat V;
  tm_new := (false, ∅);
  tm_set t v m :=
    match m.2 !! t with
    | None => if m.1 then (false, m) else (true, (m.1, <[t := v]> m.2))
    | Some _ => (false, m)
    end;
  tm_try_get t m := m.2 !! t;
  tm_freeze m := (true, m.2);
}.

#[export] Instance type_map_laws (V : Type) : TypeMapLaws V.
Proof.
  split; simpl; try done.
  - intros t v [[] m] b m'; simpl; destruct (m !! t) eqn:Ht; intros [= <- <-]; try done; simpl.
    rewrite lookup_insert_eq. split_and!; [done..|]. intros. by rewrite lookup_insert_ne.
  - intros t v m w ->. done.
Qed.

Import Reference PearReference PearCombinatorsReference HeaderReference ConfigReference.

Definition config : Config :=
  mkConfig DEBUG_PROFILE 1 512 ident_none None None limits_new #"/tmp" 5 some_key shutdown_default None
    Pretty Auto.

Definition ops : list (Op unit unit) :=
  [Mount #"/a" (mounted (Some Get) #"/<b>"); Register #"/a" [Catcher_default tt];
   Mount #"/" (mounted (Some Get) #"/a/b")].

Definition site : Building unit unit unit nat := mkBuilding [] [] fairings_new #"debug" tm_new.

Definition built : Building unit unit unit nat := default site (apply_ops ops site).

Definition no_info (_ : unit) : Info := Info_new [] 0%Z.
Definition no_ignite (_ : unit) (b : Building unit unit unit nat) := (b, true).
Definition extract (_ : Figment) : figment_error + Config := inr config.
Definition no_call (_ : nat) (_ : Igniting unit unit unit nat unit) : bool := false.

Definition start (b : Building unit unit unit nat) :=
  Rocket.ignite no_info (λ _, 0) no_ignite extract true None tt no_call 1 b.

Lemma built_ops : apply_ops ops site = Some built.
Proof.
  assert (match apply_ops ops site with Some _ => true | None => false end = true) as Hs by (by vm_compute).
  unfold built. by destruct (apply_ops ops site).
Qed.

Lemma built_sentries : sentries_wf (build_routes built).
Proof.
  assert (is_empty (all_sentinels (build_routes built)) = true) as He by (by vm_compute).
  apply is_empty_true in He. intros s s' Hs. rewrite He in Hs. destruct (not_elem_of_nil s Hs).
Qed.

Lemma built_starts : ∃ r, start built = Some (inr r).
Proof.
  assert (match start built with Some (inr _) => true | _ => false end = true) as Hs by (by vm_compute).
  destruct (start built) as [[|r]|]; [done|by exists r|done].
Qed.


End RocketReference.
