(* ===== verification/Launch.v ===== *)
(** * Launch: from an instance to a server and back (core/lib/src/rocket.rs,
    server.rs [listen_and_serve] and [serve12], error.rs)

    [Rocket] has the phases; here they are composed as [launch] composes them.
    What the world does (binding, accepting, signals, panics of tasks) are
    arguments; the effects a launch has are recorded in order.  This is the
    server without HTTP/3.  A launch that is still waiting has no outcome. *)

From S2P Require Import Prelude Sentinel Crates RawStr Status Method Header MediaType UriTables MediaParse.
From S2P Require Import Fairings Limits Config Uri Catcher Route Request Router Rocket.

(** ** Effects *)

(** What a launch does that is seen outside: running the fairings of each stage,
    binding, listening for signals, serving a connection in a task of its own. *)
Inductive Event (Conn : Type) :=
  | IgniteFairings
  | BindListener
  | SpawnSignals
  | LiftoffFairings
  | Serve (conn : Conn)
  | ShutdownFairings.
Arguments IgniteFairings {Conn}.
Arguments BindListener {Conn}.
Arguments SpawnSignals {Conn}.
Arguments LiftoffFairings {Conn}.
Arguments Serve {Conn}.
Arguments ShutdownFairings {Conn}.

(** Effects in order and, if it is over, what came of it: [Ok] on the left. *)
Definition Action (Conn A E : Type) : Type := list (Event Conn) * option (A + E).

Section action.
Context {Conn E : Type}.

Definition ok {A} (a : A) : Action Conn A E := ([], Some (inl a)).
Definition err {A} (e : E) : Action Conn A E := ([], Some (inr e)).
Definition emit (ev : Event Conn) : Action Conn unit E := ([ev], Some (inl tt)).
Definition of_result {A E'} (f : E' → E) (r : A + E') : Action Conn A E :=
  match r with inl a => ok a | inr e => err (f e) end.

Definition act_bind {A B} (m : Action Conn A E) (k : A → Action Conn B E) : Action Conn B E :=
  match m.2 with
  | Some (inl a) => let '(evs, out) := k a in (m.1 ++ evs, out)
  | Some (inr e) => (m.1, Some (inr e))
  | None => (m.1, None)
  end.
End action.

Declare Scope launch_scope.
Delimit Scope launch_scope with launch.
Notation "x <-- m ; k" := (act_bind m (λ x, k)) (at level 20, m at level 100, k at level 200, only parsing)
  : launch_scope.
Local Open Scope launch_scope.

(** The events of a launch that lifted off. *)
Definition lifted {Conn} (before : list (Event Conn)) (conns : list Conn) (after : list (Event Conn)) : list (Event Conn) :=
  before ++ BindListener :: SpawnSignals :: LiftoffFairings :: (Serve <$> conns) ++ after.

Lemma lifted_spec {Conn} (before : list (Event Conn)) conns (down : bool) :
  (LiftoffFairings ∉ before ∧ ShutdownFairings ∉ before ∧ ∀ c, Serve c ∉ before) →
  let evs := lifted before conns (if down then [ShutdownFairings] else []) in
  LiftoffFairings ∈ evs ∧ (ShutdownFairings ∈ evs ↔ down = true) ∧ ∀ c, Serve c ∈ evs ↔ c ∈ conns.
Proof.
  intros (H1 & H2 & H3) evs.
  assert (∀ ev, ev ∈ evs ↔ ev ∈ before ∨ ev = BindListener ∨ ev = SpawnSignals ∨ ev = LiftoffFairings ∨
    (∃ c, ev = Serve c ∧ c ∈ conns) ∨ (ev = ShutdownFairings ∧ down = true)) as Hmem.
  { intros ev. unfold evs, lifted. rewrite elem_of_app, !elem_of_cons, elem_of_app, list_elem_of_fmap.
    assert (ev ∈ (if down then [ShutdownFairings] else []) ↔ ev = ShutdownFairings ∧ down = true) as ->; [|done].
    destruct down; [rewrite list_elem_of_singleton|rewrite elem_of_nil]; naive_solver. }
  clearbody evs. split_and!; intros; rewrite Hmem; naive_solver.
Qed.

(** ** Launching *)

Section launch.
Context {U : Uncased} {P : Pear} {PC : PearCombinators} {SP : StablePattern} {M : Memchr}
  {PE : PercentEncoding}.
Context {KO : CookieKey} {FC : FigmentCrate}.
Context {H C F V Endpoint Stages : Type} {TM : TypeMap V}.
Context (info : F → Info) (ftype : F → nat)
  (on_ignite : F → Building H C F V → Building H C F V * bool).
Context (extract : Figment → figment_error + Config) (secrets : bool).
Context (try_generate : option Key) (stages_new : Stages) (call : nat → Igniting H C F V Stages → bool).
Context {Listener Conn IoError BindError JoinError : Type}.
Abbreviation Igniting := (Igniting H C F V Stages).
Abbreviation Orbiting := (Orbiting H C F V Endpoint Stages).
Abbreviation State := (State H C F V Endpoint Stages).

(** [enum ErrorKind]; those of ignition are in [Rocket]. *)
Inductive LaunchError :=
  | BindFailed (endpoint : option Endpoint) (e : BindError)
  | Io (e : IoError)
  | Ignition (e : ErrorKind H C)
  | Liftoff (rocket : Igniting + Orbiting) (e : JoinError)
  | ShutdownFailed (rocket : Orbiting).

(** [impl Display for ErrorKind], of the texts of the errors inside. *)
Definition error_text (bind_text : BindError → str) (io_text : IoError → str) (self : LaunchError) : str :=
  match self with
  | BindFailed _ e => #"binding failed: " ++ bind_text e
  | Io e => #"I/O error: " ++ io_text e
  | Ignition (CollisionsError _) => #"collisions detected"
  | Ignition (FailedFairings _) => #"launch fairing(s) failed"
  | Ignition (InsecureSecretKey _) => #"insecure secret key config"
  | Ignition (ConfigError _) => #"failed to extract configuration"
  | Ignition (SentinelAborts _) => #"sentinel(s) aborted"
  | Liftoff _ _ => #"liftoff failed"
  | ShutdownFailed _ => #"shutdown failed"
  end.

(** [Error::source]: the errors inside. *)
Inductive SourceError := SourceBind (e : BindError) | SourceIo (e : IoError) | SourceConfig (e : figment_error) | SourceJoin (e : JoinError).

Definition error_source (self : LaunchError) : option SourceError :=
  match self with
  | BindFailed _ e => Some (SourceBind e)
  | Io e => Some (SourceIo e)
  | Ignition (ConfigError e) => Some (SourceConfig e)
  | Liftoff _ e => Some (SourceJoin e)
  | _ => None
  end.

(** [Error::report]: the exit code, zero for [ExitCode::SUCCESS]. *)
Definition EXIT_SUCCESS : Z := 0.

Definition report {A} (result : A + LaunchError) : Z :=
  match result with
  | inl _ => EXIT_SUCCESS
  | inr _ => EXIT_SUCCESS
  end.

(** The world of a launch: what [accept] raced with the shutdown gives, each
    time; whether the task of the liftoff fairings panics; the references there
    are to the instance, by the time after the call of [try_wait_shutdown]. *)
Inductive Raced := Accepted (conn : Conn + IoError) | Down.

Record World := mkWorld {
  listener_endpoint : Listener → Endpoint + IoError;
  liftoff_task : Orbiting → unit + JoinError;
  accepting : list Raced;
  strong_count : Z → nat;
}.

Context (world : World).
Abbreviation Launch A := (Action Conn A LaunchError).

(** The loop of [serve12]: each connection has its task. *)
Fixpoint serve12 (answers : list Raced) : Launch unit :=
  match answers with
  | [] => ([], None)
  | Down :: _ => ok tt
  | Accepted (inr e) :: _ => err (Io e)
  | Accepted (inl conn) :: answers => _ <-- emit (Serve conn); serve12 answers
  end.

(** [try_wait_shutdown], which spawns the shutdown fairings. *)
Definition try_wait (rocket : Orbiting) : Launch (Igniting + Orbiting) :=
  _ <-- emit ShutdownFairings; ok (try_wait_shutdown (strong_count world) rocket).2.

(** The callback of [_launch]. *)
Definition orbit_callback (rocket : Orbiting) : Launch Orbiting :=
  _ <-- emit SpawnSignals;
  _ <-- emit LiftoffFairings;
  match liftoff_task world rocket with
  | inr e => rocket <-- try_wait rocket; err (Liftoff rocket e)
  | inl _ => ok rocket
  end.

(** [listen_and_serve], [_launch]. *)
Definition listen_and_serve (rocket : Igniting) (listener : Listener) : Launch Orbiting :=
  endpoint <-- of_result Io (listener_endpoint world listener);
  rocket <-- orbit_callback (into_orbit [endpoint] rocket);
  _ <-- serve12 (accepting world);
  ok rocket.

Definition _launch (rocket : Igniting) (listener : Listener) : Launch Igniting :=
  rocket <-- listen_and_serve rocket listener;
  rocket <-- try_wait rocket;
  match rocket with
  | inl rocket => ok rocket
  | inr rocket => err (ShutdownFailed rocket)
  end.

(** [into_ignite], which runs the ignition fairings of what is being built. *)
Definition igniting (fuel : nat) (self : State) : Launch Igniting :=
  (match self with SBuild _ => [IgniteFairings] | _ => [] end,
   (λ r, match r with inr rocket => inl rocket | inl e => inr (Ignition e) end) <$>
     into_ignite info ftype on_ignite extract secrets try_generate stages_new call fuel self).

(** [launch_with], over [Bind::bind_endpoint] and [bind]; [launch] is that of the
    default listener, whose four cases do the same.  [try_launch_on] awaits its
    listener first; [launch_on] has one. *)
Definition launch_with (bind_endpoint : Igniting → Endpoint + BindError) (bind : Igniting → Listener + BindError)
    (fuel : nat) (self : State) : Launch Igniting :=
  rocket <-- igniting fuel self;
  let endpoint := match bind_endpoint rocket with inl e => Some e | inr _ => None end in
  _ <-- emit BindListener;
  listener <-- of_result (BindFailed endpoint) (bind rocket);
  _launch rocket listener.

Definition try_launch_on (listener : Listener + BindError) (fuel : nat) (self : State) : Launch Igniting :=
  listener <-- of_result (BindFailed None) listener;
  rocket <-- igniting fuel self;
  _launch rocket listener.

Definition launch_on (listener : Listener) (fuel : nat) (self : State) : Launch Igniting :=
  rocket <-- igniting fuel self;
  _launch rocket listener.

(** *** What a launch does *)

(** The connections accepted until a shutdown, or an error, or now; and which of
    these it was. *)
Fixpoint connections (answers : list Raced) : list Conn :=
  match answers with Accepted (inl conn) :: answers => conn :: connections answers | _ => [] end.

Fixpoint loop_end (answers : list Raced) : option (unit + IoError) :=
  match answers with
  | [] => None
  | Down :: _ => Some (inl tt)
  | Accepted (inr e) :: _ => Some (inr e)
  | Accepted (inl _) :: answers => loop_end answers
  end.

Lemma serve12_spec answers :
  serve12 answers = (Serve <$> connections answers, (λ r, match r with inl u => inl u | inr e => inr (Io e) end) <$> loop_end answers).
Proof.
  induction answers as [|[[conn|e]|] answers IH]; [done| |done|done].
  cbn [serve12]. rewrite IH. done.
Qed.

Lemma deorbit_orbiting es (r : Igniting) : deorbit (into_orbit (Endpoint := Endpoint) es r) = r.
Proof. by destruct r. Qed.

#[local] Arguments try_wait_shutdown : simpl never.

Lemma launch_cases rocket listener :
  match listener_endpoint world listener with
  | inr e => _launch rocket listener = ([], Some (inr (Io e)))
  | inl ep =>
    let o := into_orbit [ep] rocket in
    let waited := (try_wait_shutdown (strong_count world) o).2 in
    match liftoff_task world o with
    | inr e => _launch rocket listener =
        ([SpawnSignals; LiftoffFairings; ShutdownFairings], Some (inr (Liftoff waited e)))
    | inl _ =>
      let before := [SpawnSignals; LiftoffFairings] ++ (Serve <$> connections (accepting world)) in
      match loop_end (accepting world) with
      | None => _launch rocket listener = (before, None)
      | Some (inr e) => _launch rocket listener = (before, Some (inr (Io e)))
      | Some (inl _) => _launch rocket listener =
          (before ++ [ShutdownFairings],
           Some (match waited with inl r => inl r | inr o => inr (ShutdownFailed o) end))
      end
    end
  end.
Proof.
  unfold _launch, listen_and_serve. destruct (listener_endpoint world listener) as [ep|e]; [|done].
  unfold orbit_callback, try_wait. cbn. destruct (liftoff_task world _) as [[]|e]; [|done]. cbn.
  rewrite serve12_spec. cbn. destruct (loop_end _) as [[[]|e]|]; cbn; [|done|done].
  match goal with |- context [match snd ?w with _ => _ end] => destruct (snd w) as [r|o] end; cbn; by rewrite ?app_nil_r.
Qed.

(** The stages of one launch in order, connections between liftoff and
    shutdown. *)
Definition in_order (again evs : list (Event Conn)) : Prop :=
  let stages := again ++ [BindListener; SpawnSignals; LiftoffFairings] in
  ∃ before conns after, evs = before ++ (Serve <$> conns) ++ after ∧
    before `prefix_of` stages ∧ after `prefix_of` [ShutdownFairings] ∧
    (conns ≠ [] ∨ after ≠ [] → before = stages).

Lemma in_order_before again evs :
  evs `prefix_of` again ++ [BindListener; SpawnSignals; LiftoffFairings] → in_order again evs.
Proof.
  intros He. exists evs, [], []. rewrite app_nil_r. split_and!; [done|done|by exists [ShutdownFairings]|]. by intros [].
Qed.

Context (bind_endpoint : Igniting → Endpoint + BindError) (bind : Igniting → Listener + BindError).
Context (fuel : nat) (self : State).

Definition ignites : option (ErrorKind H C + Igniting) :=
  into_ignite info ftype on_ignite extract secrets try_generate stages_new call fuel self.

(** The instance is ignited, bound, and its listener tells its endpoint. *)
Definition bound (r : Igniting) (o : Orbiting) : Prop :=
  ignites = Some (inr r) ∧
  ∃ l ep, bind r = inl l ∧ listener_endpoint world l = inl ep ∧ o = into_orbit [ep] r.

Definition ignition_events : list (Event Conn) := match self with SBuild _ => [IgniteFairings] | _ => [] end.

(** What a launch comes to, of an instance that is bound or not. *)
Lemma launch_with_cases :
  let launch := launch_with bind_endpoint bind fuel self in
  (∃ r o, bound r o ∧ ∃ l, bind r = inl l ∧
    launch = (ignition_events ++ BindListener :: (_launch r l).1, (_launch r l).2)) ∨
  ((¬ ∃ r o, bound r o) ∧ (∃ evs, evs `prefix_of` ignition_events ++ [BindListener] ∧ launch.1 = evs) ∧
   (ignites = None ∧ launch.2 = None ∨ ignites ≠ None ∧ ∃ e, launch.2 = Some (inr e))).
Proof.
  cbv zeta. unfold launch_with, igniting. fold ignites ignition_events. unfold act_bind at 1. cbn [fst snd].
  destruct ignites as [[k|r]|] eqn:Hi; cbn.
  - right. split; [intros (r' & o & Hi' & _); congruence|]. split; [eexists; split; [|reflexivity]; by eexists|]. right. split; [done|eauto].
  - destruct (bind r) as [l|e] eqn:Hb; cbn.
    + destruct (listener_endpoint world l) as [ep|e] eqn:Hl.
      * left. exists r, (into_orbit [ep] r). split; [split; [done|by exists l, ep]|]. exists l. split; [done|].
        by destruct (_launch r l).
      * right. pose proof (launch_cases r l) as Hc. rewrite Hl in Hc. rewrite Hc. cbn.
        split; [intros (r' & o & Hi' & l' & ep & Hb' & Hl' & _); congruence|].
        split; [eexists; split; [|reflexivity]; by rewrite ?app_nil_r|]. right. split; [done|eauto].
    + right. split; [intros (r' & o & Hi' & l' & ep & Hb' & _); congruence|].
      split; [eexists; split; [|reflexivity]; by rewrite ?app_nil_r|]. right. split; [done|eauto].
  - right. split; [intros (r' & o & Hi' & _); congruence|]. split; [eexists; split; [|reflexivity]; by eexists|]. by left.
Qed.

(** Before it is bound, a launch does not lift off. *)
Lemma early_events l :
  l `prefix_of` ignition_events ++ [BindListener] →
  LiftoffFairings ∉ l ∧ ShutdownFairings ∉ l ∧ (∀ c, Serve c ∉ l).
Proof.
  intros [k Hk]. assert (∀ ev, ev ∈ l → ev = IgniteFairings ∨ ev = BindListener) as Hl.
  { intros ev Hev. assert (ev ∈ ignition_events ++ [BindListener]) as He by (rewrite Hk; apply elem_of_app; by left).
    unfold ignition_events in He. destruct self; set_solver. }
  split_and!; intros; intros Hin; by destruct (Hl _ Hin).
Qed.

Lemma in_order_lifted cs (down : bool) :
  in_order ignition_events (lifted ignition_events cs (if down then [ShutdownFairings] else [])).
Proof.
  exists (ignition_events ++ [BindListener; SpawnSignals; LiftoffFairings]), cs, (if down then [ShutdownFairings] else []).
  split_and!; [unfold lifted; by rewrite <-app_assoc|done|destruct down; [done|by eexists]|done].
Qed.

Lemma bound_unique r o r' o' : bound r o → bound r' o' ↔ r' = r ∧ o' = o.
Proof.
  intros Hb. split; [|by intros [-> ->]]. destruct Hb as (Hi & l1 & ep1 & Hl1 & He1 & ->).
  intros (Hi' & l2 & ep2 & Hl2 & He2 & ->). assert (r' = r) as -> by congruence.
  assert (l2 = l1) as -> by congruence. assert (ep2 = ep1) as -> by congruence. done.
Qed.

Lemma bound_exists r o (Q : Igniting → Orbiting → Prop) : bound r o → (∃ r' o', bound r' o' ∧ Q r' o') ↔ Q r o.
Proof.
  intros Hb. split; [|by exists r, o]. intros (r' & o' & Hb' & HQ). by apply (bound_unique r o) in Hb' as [-> ->].
Qed.

(** A launch that is bound. *)
Lemma launch_bound r l ep :
  listener_endpoint world l = inl ep →
  let o := into_orbit [ep] r in
  let evs := ignition_events ++ BindListener :: (_launch r l).1 in
  let out := (_launch r l).2 in
  in_order ignition_events evs ∧ LiftoffFairings ∈ evs ∧
  (ShutdownFairings ∈ evs ↔ (∃ e, liftoff_task world o = inr e) ∨ loop_end (accepting world) = Some (inl tt)) ∧
  (∀ c, Serve c ∈ evs ↔ liftoff_task world o = inl tt ∧ c ∈ connections (accepting world)) ∧
  (∀ r', out = Some (inl r') ↔ liftoff_task world o = inl tt ∧ loop_end (accepting world) = Some (inl tt) ∧
     (try_wait_shutdown (strong_count world) o).2 = inl r') ∧
  (out = None ↔ liftoff_task world o = inl tt ∧ loop_end (accepting world) = None).
Proof.
  intros He. cbv zeta. pose proof (launch_cases r l) as Hc. rewrite He in Hc. cbv zeta in Hc.
  generalize dependent (try_wait_shutdown (strong_count world) (into_orbit [ep] r)).2. intros waited Hc.
  generalize dependent (into_orbit [ep] r). intros o Hc. pose proof in_order_lifted as Horder.
  pose proof (λ cs down, lifted_spec ignition_events cs down (early_events _ (prefix_app_r _ _ _ (reflexivity _)))) as Hev.
  cbv zeta in Hev.
  set (conns := connections (accepting world)) in *.
  assert (∀ cs (down : bool), (_launch r l).1 = SpawnSignals :: LiftoffFairings :: (Serve <$> cs) ++ (if down then [ShutdownFairings] else []) →
    ignition_events ++ BindListener :: (_launch r l).1 = lifted ignition_events cs (if down then [ShutdownFairings] else [])) as Hl0
    by by intros cs down ->.
  destruct (liftoff_task world o) as [[]|e] eqn:Hl.
  - destruct (loop_end (accepting world)) as [[[]|e]|] eqn:Hend.
    + rewrite (Hl0 conns true), Hc by by rewrite Hc. destruct (Hev conns true) as (H1 & H2 & H3). clear -H1 H2 H3 Horder.
      split_and!; [apply (Horder conns true)|done|naive_solver|naive_solver|destruct waited; naive_solver|naive_solver].
    + rewrite (Hl0 conns false), Hc by by rewrite Hc, app_nil_r. destruct (Hev conns false) as (H1 & H2 & H3). clear -H1 H2 H3 Horder.
      split_and!; [apply (Horder conns false)|done|naive_solver..].
    + rewrite (Hl0 conns false), Hc by by rewrite Hc, app_nil_r. destruct (Hev conns false) as (H1 & H2 & H3). clear -H1 H2 H3 Horder.
      split_and!; [apply (Horder conns false)|done|naive_solver..].
  - rewrite (Hl0 [] true), Hc by by rewrite Hc. destruct (Hev [] true) as (H1 & H2 & H3). clear -H1 H2 H3 Horder.
    split_and!; [apply (Horder [] true)|done|naive_solver|set_solver|naive_solver..].
Qed.

(** What is given back is what was ignited. *)
Lemma waited_for r es r' :
  (try_wait_shutdown (H := H) (C := C) (F := F) (V := V) (Stages := Stages) (strong_count world) (into_orbit (Endpoint := Endpoint) es r)).2 = inl r' → r' = r.
Proof. unfold try_wait_shutdown. cbn [snd]. destruct (_ =? 1); [|done]. rewrite deorbit_orbiting. congruence. Qed.

(** C10: What a launch does and gives back.  Its stages are run once, in order,
    and connections are served between liftoff and shutdown only.  The liftoff
    fairings run exactly when the instance was ignited and bound; the shutdown
    fairings exactly when then the liftoff task panicked or a shutdown ended the
    loop; between these every connection that was accepted is served.  The
    instance is given back exactly after such a shutdown, when nothing else
    refers to it any more, and is then the one that was ignited.  A launch is
    over unless ignition does not end or it is still accepting. *)
Theorem launch_spec :
  let '(evs, out) := launch_with bind_endpoint bind fuel self in
  in_order ignition_events evs ∧
  (LiftoffFairings ∈ evs ↔ ∃ r o, bound r o) ∧
  (ShutdownFairings ∈ evs ↔ ∃ r o, bound r o ∧
     ((∃ e, liftoff_task world o = inr e) ∨ loop_end (accepting world) = Some (inl tt))) ∧
  (∀ c, Serve c ∈ evs ↔ ∃ r o, bound r o ∧ liftoff_task world o = inl tt ∧ c ∈ connections (accepting world)) ∧
  (∀ r, out = Some (inl r) ↔ ∃ o, bound r o ∧ liftoff_task world o = inl tt ∧
     loop_end (accepting world) = Some (inl tt) ∧ (try_wait_shutdown (strong_count world) o).2 = inl r) ∧
  (out = None ↔ ignites = None ∨
     ∃ r o, bound r o ∧ liftoff_task world o = inl tt ∧ loop_end (accepting world) = None).
Proof.
  destruct (launch_with bind_endpoint bind fuel self) as [evs out] eqn:Hrun.
  pose proof launch_with_cases as [(r & o & Hb & l & Hbl & Hlaunch)|(Hnb & (evs' & Hpre & Hevs) & Hout)]; cbv zeta in *.
  - rewrite Hlaunch in Hrun. injection Hrun as <- <-.
    assert (∃ ep, listener_endpoint world l = inl ep ∧ o = into_orbit [ep] r) as (ep & He & Ho).
    { destruct Hb as (_ & l1 & ep & Hl1 & He & ->). exists ep. split; [congruence|done]. }
    destruct (launch_bound r l ep He) as (H1 & H2 & H3 & H4 & H5 & H6). rewrite <-Ho in *.
    split_and!; [done| | | | |].
    + split; [by exists r, o|done].
    + by rewrite H3, (bound_exists r o).
    + intros c. by rewrite H4, (bound_exists r o).
    + intros r'. rewrite H5. split.
      * intros (? & ? & Hw). rewrite Ho in Hw. pose proof (waited_for _ _ _ Hw) as ->. exists o. by rewrite Ho in *.
      * intros (o' & Hb' & HQ). by apply (bound_unique r o _ _ Hb) in Hb' as [-> ->].
    + rewrite H6, (bound_exists r o) by done. split; [by right|]. intros [Hi|]; [|done]. by rewrite (proj1 Hb) in Hi.
  - rewrite Hrun in *. cbn [fst snd] in *. subst evs'. destruct (early_events _ Hpre) as (H1 & H2 & H3). split_and!.
    + apply in_order_before. destruct Hpre as [k Hk]. exists (k ++ [SpawnSignals; LiftoffFairings]).
      by rewrite app_assoc, <-Hk, <-app_assoc.
    + by split.
    + split; [done|]. intros (r & o & ? & _). destruct Hnb; eauto.
    + intros c. split; [by intros ?%H3|]. intros (r & o & ? & _). destruct Hnb; eauto.
    + intros r. split; [|intros (o & ? & _); destruct Hnb; eauto]. destruct Hout as [[_ ->]|[_ [e ->]]]; done.
    + destruct Hout as [[-> ->]|[Hi [e ->]]]; [by split; [left|]|]. split; [done|].
      intros [?|(r & o & ? & _)]; [done|destruct Hnb; eauto].
Qed.
End launch.

(** ** Concrete launches *)

Module LaunchReference.
Import Reference PearReference PearCombinatorsReference HeaderReference ConfigReference RocketReference.

Definition run (bound : unit + str) (liftoff : unit + str) (answers : list (Raced (Conn := nat) (IoError := str)))
    (references : nat) :=
  launch_with no_info (λ _, 0) no_ignite extract true None tt no_call
    (mkWorld (Listener := unit) (Endpoint := str) (λ _, inl #"tcp") (λ _, liftoff) answers (λ _, references))
    (λ _, inl #"tcp") (λ _, bound) 1 (SBuild built).

Definition outcome {A B} (out : option (A + B)) : option bool :=
  match out with Some (inl _) => Some true | Some (inr _) => Some false | None => None end.

(** Two connections and a shutdown; the same with a reference kept; a panic at
    liftoff; one that goes on; one whose listener does not bind. *)
Example launches_example :
  prod_map id outcome (run (inl tt) (inl tt) [Accepted (inl 1); Accepted (inl 2); Down; Accepted (inl 3)] 1) =
    ([IgniteFairings; BindListener; SpawnSignals; LiftoffFairings; Serve 1; Serve 2; ShutdownFairings], Some true) ∧
  (run (inl tt) (inl tt) [Down] 2).1 =
    [IgniteFairings; BindListener; SpawnSignals; LiftoffFairings; ShutdownFairings] ∧
  outcome (run (inl tt) (inl tt) [Down] 2).2 = Some false ∧
  prod_map id outcome (run (inl tt) (inr #"panic") [Accepted (inl 1)] 1) =
    ([IgniteFairings; BindListener; SpawnSignals; LiftoffFairings; ShutdownFairings], Some false) ∧
  prod_map id outcome (run (inl tt) (inl tt) [Accepted (inl 1)] 1) =
    ([IgniteFairings; BindListener; SpawnSignals; LiftoffFairings; Serve 1], None) ∧
  prod_map id outcome (run (inr #"in use") (inl tt) [] 1) = ([IgniteFairings; BindListener], Some false).
Proof. by vm_compute. Qed.

(** A launch that failed is reported as a success. *)
Example failure_exits_with_success :
  report <$> (run (inr #"in use") (inl tt) [] 1).2 = Some EXIT_SUCCESS ∧
  outcome (run (inr #"in use") (inl tt) [] 1).2 = Some false.
Proof. by vm_compute. Qed.
End LaunchReference.
