(* ===== verification/AdHoc.v ===== *)
(** * AdHoc: fairings made from closures (core/lib/src/fairing/ad_hoc.rs)

    The closures act on an application under construction, one that runs, a
    request and its data, or a response: types of the model, with the effect on
    a world where the code has one.  A [Once] is a cell that [take] empties.
    The second half is the URI normalizer, on the instances of [Rocket] and the
    requests of [Router]. *)

From S2P Require Import Prelude Sentinel Crates RawStr Status Method Header MediaType UriTables MediaParse.
From S2P Require Import Fairings Limits Config Uri Catcher Route Request Router Rocket.

(** ** Fairings of closures *)

Section adhoc.
Context {B O W Req Data Res : Type}.

(** [struct Once]; taking from an empty one is a panic. *)
Definition Once (F : Type) : Type := option F.
Definition once_new {F} (f : F) : Once F := Some f.
Definition once_take {F} (self : Once F) : option (F * Once F) := (λ f, (f, None)) <$> self.

(** [enum AdHocKind], [struct AdHoc]; the flag an ignition gives is whether its
    result is [Ok], and a panic is [None]. *)
Inductive AdHocKind :=
  | KIgnite (f : Once (B → option (B * bool)))
  | KLiftoff (f : Once (O → W → W))
  | KRequest (f : Req → Data → W → Req * Data * W)
  | KResponse (f : Req → Res → W → Res * W)
  | KShutdown (f : Once (O → W → W)).

Record AdHoc := AdHoc_new { adhoc_name : str; adhoc_kind : AdHocKind }.

(** [AdHoc::try_on_ignite], [on_ignite], [on_liftoff], [on_request],
    [on_response], [on_shutdown]. *)
Definition try_on_ignite (name : str) (f : B → option (B * bool)) : AdHoc :=
  AdHoc_new name (KIgnite (once_new f)).
Definition on_ignite (name : str) (f : B → option B) : AdHoc :=
  try_on_ignite name (λ rocket, (λ r, (r, true)) <$> f rocket).
Definition on_liftoff (name : str) (f : O → W → W) : AdHoc := AdHoc_new name (KLiftoff (once_new f)).
Definition on_request (name : str) (f : Req → Data → W → Req * Data * W) : AdHoc :=
  AdHoc_new name (KRequest f).
Definition on_response (name : str) (f : Req → Res → W → Res * W) : AdHoc :=
  AdHoc_new name (KResponse f).
Definition on_shutdown (name : str) (f : O → W → W) : AdHoc :=
  AdHoc_new name (KShutdown (once_new f)).

(** [AdHoc::config], of a type with this name that [extract] reads from the
    instance's figment and [manage] has it manage. *)
Definition config {E T} (type_name : str) (extract : B → E + T) (manage : T → B → option B) : AdHoc :=
  try_on_ignite type_name (λ rocket,
    match extract rocket with
    | inr app_config => (λ r, (r, true)) <$> manage app_config rocket
    | inl e => Some (rocket, false)
    end).

(** [Fairing for AdHoc]. *)
Definition adhoc_info (self : AdHoc) : Info :=
  let kind := match adhoc_kind self with
              | KIgnite _ => Fairings.Ignite
              | KLiftoff _ => Fairings.Liftoff
              | KRequest _ => Fairings.KRequest
              | KResponse _ => Fairings.KResponse
              | KShutdown _ => Fairings.Shutdown
              end in
  Info_new (adhoc_name self) kind.

Definition with_kind (k : AdHocKind) (self : AdHoc) : AdHoc := AdHoc_new (adhoc_name self) k.

Definition adhoc_ignite (self : AdHoc) (rocket : B) : option (B * bool * AdHoc) :=
  match adhoc_kind self with
  | KIgnite f =>
    '(f, rest) ← once_take f;
    result ← f rocket;
    Some (result, with_kind (KIgnite rest) self)
  | _ => Some (rocket, true, self)
  end.

Definition adhoc_liftoff (self : AdHoc) (rocket : O) (w : W) : option (W * AdHoc) :=
  match adhoc_kind self with
  | KLiftoff f =>
    '(f, rest) ← once_take f;
    Some (f rocket w, with_kind (KLiftoff rest) self)
  | _ => Some (w, self)
  end.

Definition adhoc_request (self : AdHoc) (req : Req) (data : Data) (w : W) : Req * Data * W :=
  match adhoc_kind self with
  | KRequest f => f req data w
  | _ => (req, data, w)
  end.

Definition adhoc_response (self : AdHoc) (req : Req) (res : Res) (w : W) : Res * W :=
  match adhoc_kind self with
  | KResponse f => f req res w
  | _ => (res, w)
  end.

Definition adhoc_shutdown (self : AdHoc) (rocket : O) (w : W) : option (W * AdHoc) :=
  match adhoc_kind self with
  | KShutdown f =>
    '(f, rest) ← once_take f;
    Some (f rocket w, with_kind (KShutdown rest) self)
  | _ => Some (w, self)
  end.

(** The events a fairing is given acts on it only where its [Info] says so. *)
Lemma adhoc_kind_only (self : AdHoc) k :
  kind_is (info_kind (adhoc_info self)) k = false →
  (k = Fairings.Ignite → ∀ r, adhoc_ignite self r = Some (r, true, self)) ∧
  (k = Fairings.Liftoff → ∀ r w, adhoc_liftoff self r w = Some (w, self)) ∧
  (k = Fairings.KRequest → ∀ req data w, adhoc_request self req data w = (req, data, w)) ∧
  (k = Fairings.KResponse → ∀ req res w, adhoc_response self req res w = (res, w)) ∧
  (k = Fairings.Shutdown → ∀ r w, adhoc_shutdown self r w = Some (w, self)).
Proof. destruct self as [n []]; intros Hk; split_and!; intros ->; done. Qed.

(** The closure of an ignition is called once: the first call gives what it
    gives, another one panics. *)
Lemma adhoc_ignite_once name f rocket result :
  f rocket = Some result →
  ∃ rest, adhoc_ignite (try_on_ignite name f) rocket = Some (result, rest) ∧
    ∀ rocket', adhoc_ignite rest rocket' = None.
Proof.
  intros Hf. eexists. split; [unfold adhoc_ignite; simpl; by rewrite Hf|]. done.
Qed.
End adhoc.
Arguments AdHoc : clear implicits.

(** ** The URI normalizer *)

(** [str::rsplit_once] at a character. *)
Definition rsplit_once (d : ascii) (s : str) : option (str * str) :=
  '(b, a) ← split_once d (reverse s);
  Some (reverse a, reverse b).

Section normalizer.
Context {U : Uncased} {P : Pear} {PC : PearCombinators} {IM : IndexMap str (list str) uncased_eq}.
Context {SP : StablePattern} {M : Memchr} {PE : PercentEncoding}.
Context {FC : FigmentCrate} {H C F V : Type} {TM : TypeMap V}.

(** [struct Normalizer]: its cell of routes with a trailing slash. *)
Definition Normalizer : Type := option (list (Route H)).

(** [Normalizer::routes], of an instance with these routes. *)
Definition normalizer_routes (self : Normalizer) (routes : list (Route H)) : list (Route H) :=
  default (List.filter (λ r, has_trailing_slash (uri (route_uri r))) routes) self.

(** Its [Fairing::info]. *)
Definition normalizer_info : Info :=
  Info_new (#"URI Normalizer")
    (kind_or (kind_or Fairings.Ignite Fairings.Liftoff) Fairings.KRequest).

(** The routes [Fairing::on_ignite] selects, and what it makes of one. *)
Definition has_trailing_path (r : Route H) : bool :=
  metadata_dynamic_trail (metadata (route_uri r))
  && (1 <? num (segments_new (origin_segments (uri (route_uri r)))))%nat.

Definition normalized_path (path : str) : str :=
  match rsplit_once slash path with
  | Some (prefix, _) => if negb (is_empty prefix) then prefix else #"/"
  | None => #"/"
  end.

Definition normalized_route (route : Route H) : option (Route H) :=
  let new_path := normalized_path (path (unmounted_origin (route_uri route))) in
  let base := path (base (route_uri route)) in
  let uri := match query (unmounted_origin (route_uri route)) with
             | Some q => new_path ++ "?"%char :: q
             | None => new_path
             end in
  uri ← try_new base uri;
  Some (Route_with H ((λ r, r ++ #" [normalized]") <$> Route.name route) (method route)
          (Route.handler route) uri (Route.rank route) (Route.format route)
          (Route.sentinels route) (Route.location route)).

(** Its [Fairing::on_ignite], on the instance under construction. *)
Definition normalizer_on_ignite (rocket : Building H C F V) : option (Building H C F V) :=
  let normalized_trailing :=
    omap normalized_route (List.filter has_trailing_path (build_routes rocket)) in
  mount (#"/") normalized_trailing rocket.

(** Its [Fairing::on_liftoff] and [on_request], on an instance with these
    routes. *)
Definition normalizer_on_liftoff (self : Normalizer) (routes : list (Route H)) : Normalizer :=
  Some (normalizer_routes self routes).

Definition normalizer_on_request (self : Normalizer) (routes : list (Route H)) (req : Request IM)
  : Request IM :=
  if is_normalized_nontrailing (req_uri req) then req
  else if negb (existsb (λ r, route_matches r req) (normalizer_routes self routes)) then
    set_uri (into_normalized_nontrailing (req_uri req)) req
  else req.
End normalizer.

(** ** Paths as lists of segments *)

(** The segments of a normalized path: the non-empty ones, and a last empty one
    for a trailing slash. *)
Definition normal_list (l : list str) : list str :=
  let s := List.filter nonempty l in
  if is_empty s then [[]]
  else if match last l with Some w => is_empty w | None => false end then s ++ [[]] else s.

Lemma normal_list_snoc ws w : normal_list (ws ++ [w]) = normal_words true ws w.
Proof. unfold normal_list. by rewrite last_snoc. Qed.

(** A path that is absolute, free of white space and normalized. *)
Definition canonical `{StablePattern} (p : str) : Prop :=
  starts_with [slash] p = true ∧ Forall (λ c, graphic c = true) p ∧ path_is_normalized true p = true.

Section paths.
Context `{StablePatternLaws} `{MemchrLaws} `{PercentEncodingLaws} `{PearLaws}.

Lemma raw_segments_graphic t :
  Forall (λ c, graphic c = true) t → path_raw_segments (slash :: t) = split_on slash t.
Proof.
  intros Ht. unfold path_raw_segments. rewrite trim_all_graphic by by constructor.
  by autorewrite with crates.
Qed.

Lemma path_join t :
  Forall (λ c, graphic c = true) t → slash :: t = slash :: join slash (path_raw_segments (slash :: t)).
Proof. intros Ht. by rewrite raw_segments_graphic, join_split. Qed.

Lemma normal_list_id ws w :
  Forall (λ v, v ≠ []) ws → normal_list (ws ++ [w]) = ws ++ [w].
Proof.
  intros Hws. rewrite normal_list_snoc. unfold normal_words. rewrite filter_app_list, (filter_nonempty_id ws) by done.
  destruct w as [|c w]; simpl; [|by destruct ws]. rewrite app_nil_r. by destruct ws.
Qed.

(** The segments of a canonical path. *)
Lemma canonical_segments p :
  canonical p →
  p = slash :: join slash (path_raw_segments p) ∧ normal_list (path_raw_segments p) = path_raw_segments p ∧
  ∃ ws w, path_raw_segments p = ws ++ [w] ∧ Forall (λ v, v ≠ []) ws.
Proof.
  intros ([t ->]%starts_with_slash & Hg & Hn). inversion_clear Hg.
  destruct (raw_segments_snoc (slash :: t)) as (ws & w & Hw).
  rewrite (is_normalized_snoc _ _ _ Hw) in Hn. simpl in Hn.
  assert (Forall (λ v, v ≠ []) ws) as Hne.
  { apply Forall_forall. intros v Hv. rewrite forallb_forall in Hn.
    by apply nonempty_true, Hn, list_elem_of_In. }
  split_and!; [by apply path_join|rewrite Hw; by apply normal_list_id|eauto].
Qed.

(** Normalizing an absolute path without white space. *)
Lemma normalize_graphic_path o :
  starts_with [slash] (path o) = true → Forall (λ c, graphic c = true) (path o) →
  canonical (path (into_normalized o)) ∧
  path_raw_segments (path (into_normalized o)) = normal_list (path_raw_segments (path o)).
Proof.
  intros Hs Hg. pose proof (normalize_path_normalized o) as Hn.
  destruct (raw_segments_snoc (path o)) as (ws & w & Hw).
  destruct (path_is_normalized true (path o)) eqn:E.
  - assert (path (into_normalized o) = path o) as -> by (simpl; by rewrite E).
    assert (canonical (path o)) as Hc by done. split; [done|].
    by destruct (canonical_segments _ Hc) as (_ & -> & _).
  - assert (path (into_normalized o) = path_to_normalized true true (path o)) as Hp by (simpl; by rewrite E).
    rewrite Hp in *. destruct (to_normalized_segments true (path o) ws w Hw) as (vs & v & Hv & Hne & Hsegs & Ht).
    specialize (Ht eq_refl) as ->. rewrite (raw_segments_last_trim _ _ _ Hw) in Hsegs.
    split; [|by rewrite Hsegs, Hw, normal_list_snoc].
    pose proof (to_normalized_words true _ _ _ Hw) as Hj. apply starts_with_slash in Hs as [t Ho].
    split_and!; [by rewrite Hj| |done]. rewrite Hj, Hv. constructor; [done|]. apply Forall_join; [done|].
    rewrite Ho in Hg. inversion_clear Hg as [|? ? _ Hgt].
    pose proof (raw_segments_bytes _ t Hgt Hgt) as Hb. rewrite <-Ho, Hw in Hb.
    rewrite <-Hv. unfold normal_words. pose proof (Forall_filter_list nonempty _ _ Hb).
    destruct (is_empty _); [by repeat constructor|].
    destruct (_ && _); [apply Forall_app; split; [done|by repeat constructor]|done].
Qed.

(** Normalizing a query without white space. *)
Lemma normalize_graphic_query o :
  (∀ q, query o = Some q → Forall (λ c, graphic c = true) q) →
  ∀ q, query (into_normalized o) = Some q →
    Forall (λ c, graphic c = true) q ∧ query_is_normalized q = true.
Proof.
  intros Hg q. simpl. destruct (query o) as [q0|]; [|done]. specialize (Hg q0 eq_refl).
  destruct (query_is_normalized q0) eqn:E; simpl; intros [= <-]; [done|].
  split; [|by apply query_to_normalized_is_normalized].
  unfold query_to_normalized. rewrite push_segments_spec. simpl.
  pose proof (Forall_filter_list nonempty _ _ (query_raw_segments_bytes _ q0 Hg Hg)) as Hb.
  destruct (List.filter _ _); [constructor|]. by apply Forall_join.
Qed.

Lemma into_normalized_id o : is_normalized o = true → into_normalized o = o.
Proof.
  unfold is_normalized. intros [Hp Hq]%andb_true_iff. destruct o as [p q]. cbn [path query] in *.
  unfold into_normalized, normalize, _normalize. cbn [path query]. rewrite Hp. simpl.
  destruct q as [q|]; [|done]. by rewrite Hq.
Qed.

(** A canonical path ends in a slash when its last segment is empty. *)
Lemma canonical_trailing p q ws w :
  canonical p → path_raw_segments p = ws ++ [w] →
  has_trailing_slash (Origin_new p q) = negb (is_empty ws) && is_empty w.
Proof.
  intros Hc Hw. pose proof (canonical_segments p Hc) as (Hp & _ & _). rewrite Hw in Hp.
  pose proof (raw_segments_no_slash p) as Hns. rewrite Hw in Hns. apply Forall_app in Hns as [_ Hns].
  inversion_clear Hns as [|? ? Hs]. unfold has_trailing_slash. autorewrite with crates. cbn [path].
  rewrite Hp. destruct ws as [|x ws].
  - simpl. destruct w as [|c w]; [done|]. cbn [length Nat.ltb Nat.leb andb].
    change (slash :: c :: w) with ([] ++ slash :: c :: w). by rewrite ends_with_slash_snoc.
  - rewrite join_snoc by done. rewrite app_comm_cons, ends_with_slash_snoc by done. simpl.
    by rewrite length_app, Nat.add_comm.
Qed.
End paths.

(** ** Mounted URIs *)

Section mounted_uris.
Context `{StablePatternLaws} `{MemchrLaws} `{PercentEncodingLaws} `{PearLaws}.

(** The URI of [o] mounted at [b]. *)
Definition whole (b o : Origin) : Origin :=
  into_normalized (Origin_new
    (if bool_decide (path o = #"/") && negb (has_trailing_slash b) then path b
     else path b ++ path o) (query o)).

Definition mount_at (b o : Origin) : RouteUri :=
  RouteUri_new b o (whole b o) (Metadata_from b (whole b o)).

Lemma try_new_mount_at b s :
  try_new b s =
    b ← into_normalized <$> Origin_parse b;
    o ← into_normalized <$> parse_route s;
    Some (mount_at (clear_query b) o).
Proof.
  unfold try_new. destruct (into_normalized <$> Origin_parse b) as [b'|] eqn:Hb; [|done]. simpl.
  destruct (into_normalized <$> parse_route s) as [o|] eqn:Ho; [|done]. simpl.
  destruct (base_normalized _ _ Hb) as (tb & Htb & Hpb & Hnb).
  destruct (route_normalized _ _ Ho) as (t & Ht & Hqt & _).
  assert ("?"%char ∉ tb) as Hqb by (inversion Hpb; by apply pchars_no_question).
  by rewrite (combined_parses (clear_query b') o tb t Htb Hqb eq_refl Ht Hqt).
Qed.

(** What a base and a route URI are once they are accepted. *)
Definition base_ok (b : Origin) : Prop :=
  canonical (path b) ∧ Forall (λ c, is_pchar c = true) (path b) ∧ query b = None.

Definition unmounted_ok (o : Origin) : Prop :=
  canonical (path o) ∧ ("?"%char ∉ path o) ∧
  ∀ q, query o = Some q → Forall (λ c, graphic c = true) q ∧ query_is_normalized q = true.

Definition is_mounted (u : RouteUri) : Prop :=
  base_ok (base u) ∧ unmounted_ok (unmounted_origin u) ∧ u = mount_at (base u) (unmounted_origin u).

Lemma base_ok_parse b : base_ok b → into_normalized <$> Origin_parse (path b) = Some b.
Proof.
  intros ((Hs & _ & Hn) & Hp & Hq). destruct b as [p q]. cbn [path query] in *. subst.
  unfold Origin_parse. pose proof (origin_from_str_valid (p, None)) as Hv.
  unfold origin_syntax in Hv. simpl in Hv. rewrite app_nil_r in Hv.
  rewrite Hv by by split_and!. simpl. f_equal. apply into_normalized_id.
  unfold is_normalized. simpl. by rewrite Hn.
Qed.

Lemma unmounted_ok_parse o : unmounted_ok o → into_normalized <$> parse_route (to_string o) = Some o.
Proof.
  intros (([t Ht]%starts_with_slash & _ & Hn) & Hq & Hqn). destruct o as [p q]. cbn [path query] in *. subst.
  rewrite parse_route_to_string by set_solver. simpl. f_equal. apply into_normalized_id.
  unfold is_normalized. cbn [path query]. rewrite Hn. destruct q as [q|]; [|done]. by apply Hqn.
Qed.

(** Mounting again what is mounted. *)
Lemma try_new_mounted b o : base_ok b → unmounted_ok o → try_new (path b) (to_string o) = Some (mount_at b o).
Proof.
  intros Hb Ho. rewrite try_new_mount_at, base_ok_parse, unmounted_ok_parse by done. simpl.
  destruct Hb as (_ & _ & Hq). by destruct b as [p []].
Qed.

Lemma base_parsed_ok s b : into_normalized <$> Origin_parse s = Some b → base_ok (clear_query b).
Proof.
  intros Hb. destruct (base_normalized _ _ Hb) as (t & Ht & Hp & Hn). unfold base_ok. simpl.
  split_and!; [|by rewrite Ht|done]. split_and!; [by rewrite Ht| |done]. rewrite Ht. by apply pchars_graphic.
Qed.

Lemma route_parsed_ok s o :
  Forall (λ c, graphic c = true) s → into_normalized <$> parse_route s = Some o → unmounted_ok o.
Proof.
  intros Hg Ho. destruct (route_normalized _ _ Ho) as (t & Ht & Hq & _).
  apply fmap_Some in Ho as (o0 & Ho & ->). apply parse_route_spec in Ho as Hs. destruct Hs as [[t0 Ht0] _].
  assert (Forall (λ c, graphic c = true) (path o0) ∧
    ∀ q, query o0 = Some q → Forall (λ c, graphic c = true) q) as [Hp0 Hq0].
  { unfold parse_route in Ho. destruct (negb _); [done|]. unfold split_once in Ho.
    destruct (find_byte _ _); simplify_eq/=; [|by split]. split.
    - by apply Forall_take.
    - intros q [= <-]. by apply Forall_drop. }
  split_and!.
  - apply normalize_graphic_path; [|done]. rewrite Ht0. by apply starts_with_slash; eexists.
  - rewrite Ht. set_solver.
  - by apply normalize_graphic_query.
Qed.

(** A URI without white space that is accepted is mounted. *)
Lemma try_new_is_mounted b s u : Forall (λ c, graphic c = true) s → try_new b s = Some u → is_mounted u.
Proof.
  intros Hg. rewrite try_new_mount_at. intros (b' & Hb & (o & Ho & [= <-])%bind_Some)%bind_Some.
  split_and!; [by eapply base_parsed_ok|by eapply route_parsed_ok|done].
Qed.

(** The segments and the query of the whole. *)
Lemma whole_spec b o :
  base_ok b → unmounted_ok o →
  canonical (path (whole b o)) ∧ query (whole b o) = query o ∧
  path_raw_segments (path (whole b o)) =
    if bool_decide (path o = #"/") && negb (has_trailing_slash b) then path_raw_segments (path b)
    else normal_list (path_raw_segments (path b) ++ path_raw_segments (path o)).
Proof.
  intros (Hcb & Hpb & _) (Hco & _ & Hqo). unfold whole. set (p := if _ : bool then _ else _).
  assert (starts_with [slash] p = true ∧ Forall (λ c, graphic c = true) p) as [Hs Hg].
  { destruct Hcb as ([t Ht]%starts_with_slash & Hgb & _), Hco as (_ & Hgo & _).
    subst p. destruct (_ && _); [rewrite Ht in *; done|]. rewrite Ht in *. split; [done|]. by apply Forall_app. }
  destruct (normalize_graphic_path (Origin_new p (query o)) Hs Hg) as [Hc Hraw].
  split_and!; [done| |].
  - simpl. destruct (query o) as [q|]; [|done]. by rewrite (proj2 (Hqo q eq_refl)).
  - rewrite Hraw. simpl. subst p. destruct (_ && _); [by apply canonical_segments|]. f_equal.
    destruct Hcb as ([t Ht]%starts_with_slash & Hgb & _), Hco as ([t' Ht']%starts_with_slash & Hgo & _).
    rewrite Ht, Ht' in *. inversion_clear Hgb. inversion_clear Hgo.
    change ((slash :: t) ++ slash :: t') with (slash :: t ++ slash :: t').
    rewrite (raw_segments_graphic (t ++ slash :: t')) by (apply Forall_app; split; [done|by constructor]).
    rewrite !raw_segments_graphic by done. apply split_on_app_delim.
Qed.

(** Mounting a route at the root changes nothing. *)
Lemma rebase_root {Hd} (r : Route Hd) : is_mounted (route_uri r) → rebase root r = Some r.
Proof.
  intros (Hb & Ho & Hu). unfold rebase. set (b := base (route_uri r)) in *.
  assert (try_new (if bool_decide (path b = #"/") then path root else path root ++ path b)
            (to_string (unmounted_origin (route_uri r))) = Some (route_uri r)) as ->.
  { rewrite Hu at 2. case_bool_decide as Hroot.
    - change (path root) with (#"/"). rewrite <-Hroot. by apply try_new_mounted.
    - rewrite try_new_mount_at, unmounted_ok_parse by done.
      destruct Hb as (Hc & Hp & Hq). pose proof Hc as ([t Ht]%starts_with_slash & Hg & Hn).
      assert (Origin_parse (path root ++ path b) = Some (Origin_new (path root ++ path b) None)) as ->.
      { unfold Origin_parse. pose proof (origin_from_str_valid (path root ++ path b, None)) as Hv.
        unfold origin_syntax in Hv. cbn [fst snd] in Hv. rewrite app_nil_r in Hv.
        rewrite Hv; [done|]. split_and!; [done|by constructor|done]. }
      simpl. f_equal.
      assert (path_raw_segments (slash :: path b) = [[]] ++ path_raw_segments (path b)) as Hraw.
      { rewrite raw_segments_graphic by done. rewrite Ht in *. inversion_clear Hg.
        by rewrite raw_segments_graphic. }
      destruct (canonical_segments _ Hc) as (Hj & Hl & ws & w & Hw & Hws).
      assert (clear_query (into_normalized (Origin_new (slash :: path b) None)) = b) as Hbb; [|by f_equal].
      destruct (normalize_graphic_path (Origin_new (slash :: path b) None)) as [Hc' Hr']; [done|by constructor|].
      destruct (canonical_segments _ Hc') as (Hj' & _).
      destruct b as [p q]. cbn [path query] in *. subst q. unfold clear_query, set_query. f_equal.
      rewrite Hj', Hr'. rewrite Hj at 2. do 2 f_equal. rewrite <-Hl. rewrite Hraw.
      unfold normal_list. simpl. rewrite Hw, last_snoc.
      rewrite app_comm_cons, last_snoc. done. }
  simpl. by destruct r.
Qed.
End mounted_uris.

(** ** The routes the normalizer adds *)

Lemma rsplit_once_join d u w : d ∉ w → rsplit_once d (u ++ d :: w) = Some (u, w).
Proof.
  intros Hw. unfold rsplit_once, split_once. rewrite reverse_app, reverse_cons, <-app_assoc. cbn [app].
  rewrite find_byte_app by by rewrite elem_of_reverse. cbn [mbind option_bind].
  rewrite take_app_length, drop_app_ge, Nat.sub_succ_l, Nat.sub_diag by lia.
  by rewrite skipn_cons, drop_0, !reverse_involutive.
Qed.

(** A route and one that differs from it in its URI and its name alone. *)
Definition same_but_uri {H} (a b : Route H) : Prop :=
  method a = method b ∧ Route.handler a = Route.handler b ∧ Route.rank a = Route.rank b ∧
  Route.format a = Route.format b ∧ Route.sentinels a = Route.sentinels b ∧
  Route.location a = Route.location b.

(** Of a mounted URI, the base ends in a slash and the rest is one segment. *)
Definition slash_and_trail `{StablePattern} (u : RouteUri) : bool :=
  has_trailing_slash (base u) && (length (path_raw_segments (path (unmounted_origin u))) =? 1)%nat.

Section added.
Context {U : Uncased} {UL : UncasedLaws} {P : Pear} {PL : PearLaws} {PC : PearCombinators}
  {IM : IndexMap str (list str) uncased_eq}.
Context {SP : StablePattern} {SPL : StablePatternLaws} {M : Memchr} {ML : MemchrLaws}
  {PE : PercentEncoding} {PEL : PercentEncodingLaws}.
Context {H : Type}.

Lemma pchar_not_dynamic w : Forall (λ c, is_pchar c = true) w → dynamic_trail (segment_from w) = false.
Proof.
  intros Hw. unfold segment_from. autorewrite with crates.
  destruct (starts_with (#"<") w) eqn:Hs; [|done]. apply starts_with_spec in Hs as [v ->].
  inversion Hw as [|? ? Hc]. by vm_compute in Hc.
Qed.

(** The segments of a mounted URI with a dynamic trail. *)
Lemma trailing_segments (u : RouteUri) :
  is_mounted u → metadata_dynamic_trail (metadata u) = true →
  ∃ bs ws w, List.filter nonempty (path_raw_segments (path (base u))) = bs ∧
    path_raw_segments (path (unmounted_origin u)) = ws ++ [w] ∧
    path_raw_segments (path (uri u)) = bs ++ ws ++ [w] ∧
    Forall (λ v, v ≠ []) (bs ++ ws ++ [w]) ∧ dynamic_trail (segment_from w) = true.
Proof.
  intros (Hb & Ho & Hu) Ht. destruct (whole_spec _ _ Hb Ho) as (_ & _ & Hraw).
  rewrite Hu in Ht. unfold mount_at, Metadata_from in Ht.
  cbn [metadata metadata_dynamic_trail] in Ht. rewrite fmap_last in Ht.
  assert (uri u = whole (base u) (unmounted_origin u)) as Huri by (by rewrite Hu at 1).
  rewrite Huri. destruct Ho as (Hco & _ & _). destruct Hb as (Hcb & Hpb & _).
  destruct (canonical_segments _ Hcb) as (_ & _ & bs & b & Hwb & Hbne).
  destruct (canonical_segments _ Hco) as (Hpo & _ & ws & w & Hwo & Hone).
  rewrite Hraw in *. clear Hraw Huri Hu.
  pose proof Hcb as ([t Htb]%starts_with_slash & Hgb & _). rewrite Htb in Hgb. inversion_clear Hgb as [|? ? _ Hgt].
  destruct (_ && _) eqn:E.
  { rewrite Hwb, last_snoc in Ht. simpl in Ht. rewrite pchar_not_dynamic in Ht; [done|].
    pose proof (raw_segments_bytes (λ c, is_pchar c = true) t Hgt) as Hall. rewrite <-Htb, Hwb in Hall.
    rewrite Htb in Hpb. inversion_clear Hpb as [|? ? _ Hpt]. specialize (Hall Hpt).
    apply Forall_app in Hall as [_ Hall]. by inversion Hall. }
  exists (List.filter nonempty (bs ++ [b])), ws, w. rewrite Hwb, Hwo in *.
  assert (w ≠ []) as Hw.
  { intros ->. unfold normal_list in Ht. rewrite app_assoc, last_snoc in Ht.
    destruct (is_empty (List.filter _ _)); [|cbn [is_empty] in Ht; rewrite last_snoc in Ht]; simpl in Ht;
      unfold segment_from in Ht; autorewrite with crates in Ht; done. }
  assert (normal_list ((bs ++ [b]) ++ ws ++ [w]) = List.filter nonempty (bs ++ [b]) ++ ws ++ [w]) as Hn.
  { unfold normal_list. rewrite filter_app_list, (filter_nonempty_id (ws ++ [w])) by
      (apply Forall_app; split; [done|by repeat constructor]).
    rewrite (app_assoc (bs ++ [b])), last_snoc, app_assoc. destruct w; [done|]. simpl.
    destruct (is_empty _) eqn:He; [|done]. apply is_empty_true in He.
    by destruct (app_cons_not_nil _ _ _ (eq_sym He)). }
  rewrite Hn in *. split_and!; try done.
  - apply Forall_app. split; [apply filter_nonempty_ne|]. apply Forall_app. split; [done|by repeat constructor].
  - rewrite app_assoc, last_snoc in Ht. done.
Qed.

(** The number of decoded segments. *)
Lemma num_origin_segments (o : Origin) ws w :
  path_raw_segments (path o) = ws ++ [w] → Forall (λ v, v ≠ []) ws →
  num (segments_new (origin_segments o)) = S (length ws).
Proof.
  intros Hw Hne. rewrite num_remaining. unfold segments_new, remaining, origin_segments, path_segments. simpl.
  rewrite Hw, decode_segments_snoc, filter_nonempty_id by done. by rewrite drop_0, length_app, length_fmap, Nat.add_comm.
Qed.

(** The path [normalized_path] gives. *)
Lemma normalized_path_spec p ws w :
  canonical p → path_raw_segments p = ws ++ [w] → Forall (λ v, v ≠ []) ws →
  canonical (normalized_path p) ∧
  path_raw_segments (normalized_path p) = (if is_empty ws then [[]] else ws) ∧
  ((normalized_path p = #"/") ↔ ws = []) ∧ (∀ c, c ∉ p → c ∉ normalized_path p).
Proof.
  intros Hc Hw Hne. destruct (canonical_segments p Hc) as (Hp & _ & _).
  pose proof (raw_segments_no_slash p) as Hns. rewrite Hw in Hp, Hns. apply Forall_app in Hns as [Hws Hsw].
  inversion_clear Hsw as [|? ? Hsw' _]. destruct Hc as (_ & Hg & _). rewrite Hp in Hg |- *.
  assert (normalized_path (slash :: join slash (ws ++ [w])) = if is_empty ws then #"/" else slash :: join slash ws) as Hnew.
  { unfold normalized_path. destruct ws as [|x ws].
    - simpl. change (slash :: w) with ([] ++ slash :: w). by rewrite rsplit_once_join.
    - rewrite join_snoc, app_comm_cons, rsplit_once_join by done. done. }
  rewrite Hnew. destruct ws as [|x ws]; simpl is_empty; cbv iota.
  { change (#"/") with [slash]. assert (path_raw_segments [slash] = [] ++ [[]]) as Hr by by apply raw_segments_graphic.
    split_and!; [split_and!; [done|by constructor|by rewrite (is_normalized_snoc _ _ _ Hr)]|done..|set_solver]. }
  rewrite join_snoc in Hg |- * by done. rewrite app_comm_cons in Hg |- *. apply Forall_app in Hg as [Hg _].
  inversion_clear Hg as [|? ? _ Hgj].
  assert (path_raw_segments (slash :: join slash (x :: ws)) = x :: ws) as Hraw.
  { rewrite raw_segments_graphic by done. by apply split_join. }
  split_and!; [split_and!; [done|by constructor|]|done| |set_solver].
  - destruct (exists_last (l:=x :: ws)) as (vs & v & Hv); [done|]. rewrite Hv in *.
    rewrite (is_normalized_snoc _ _ _ Hraw). simpl. apply forallb_forall. intros y Hy%list_elem_of_In.
    apply Forall_app in Hne as [Hne _]. rewrite Forall_forall in Hne. by apply nonempty_true, Hne.
  - split; [|done]. inversion Hne. destruct x; [done|]. by destruct ws.
Qed.

(** What [normalized_route] makes of such a route. *)
Lemma normalized_route_spec (r : Route H) :
  is_mounted (route_uri r) → has_trailing_path r = true → slash_and_trail (route_uri r) = false →
  ∃ r' ss w, normalized_route r = Some r' ∧ same_but_uri r r' ∧ is_mounted (route_uri r') ∧
    path_raw_segments (path (uri (route_uri r))) = ss ++ [w] ∧ ss ≠ [] ∧
    path_raw_segments (path (uri (route_uri r'))) = ss ∧
    dynamic_trail (segment_from w) = true ∧
    query (uri (route_uri r')) = query (uri (route_uri r)).
Proof.
  intros Hm [Ht Hnum]%andb_true_iff Hst. destruct r as [n m h u rk f s l]. cbn [route_uri] in *.
  destruct (trailing_segments u Hm Ht) as (bs & ws & w & Hbs & Hwo & Hraw & Hne & Hw).
  destruct Hm as (Hb & Ho & Hu). destruct (whole_spec _ _ Hb Ho) as (_ & Hq & _).
  assert (uri u = whole (base u) (unmounted_origin u)) as Huri by (by rewrite Hu at 1).
  assert (Forall (λ v, v ≠ []) ws) as Hws.
  { apply Forall_app in Hne as [_ Hne]. by apply Forall_app in Hne as [? _]. }
  destruct (normalized_path_spec _ _ _ (proj1 Ho) Hwo Hws) as (Hcn & Hrn & Hnew & Hqn).
  set (o' := Origin_new (normalized_path (path (unmounted_origin u))) (query (unmounted_origin u))).
  assert (unmounted_ok o') as Ho'.
  { destruct Ho as (_ & Hno & Hqo). split_and!; [done|by apply Hqn|done]. }
  assert (bs ++ ws ≠ []) as Hss.
  { rewrite app_assoc in Hraw, Hne. apply Forall_app in Hne as [Hne _].
    rewrite (num_origin_segments _ _ _ Hraw Hne) in Hnum. by destruct (bs ++ ws). }
  destruct (whole_spec _ _ Hb Ho') as (_ & Hq' & Hraw').
  eexists (Route_with H ((λ r, r ++ #" [normalized]") <$> n) m h (mount_at (base u) o') rk f s l), (bs ++ ws), w.
  split_and!; try done.
  - unfold normalized_route. cbn [route_uri].
    assert (match query (unmounted_origin u) with
            | Some q => normalized_path (path (unmounted_origin u)) ++ "?"%char :: q
            | None => normalized_path (path (unmounted_origin u))
            end = to_string o') as ->.
    { unfold to_string, o'. cbn [path query]. destruct (query (unmounted_origin u)); [done|]. by rewrite app_nil_r. }
    by rewrite try_new_mounted.
  - by rewrite Hraw, app_assoc.
  - cbn [route_uri mount_at uri]. rewrite Hraw'. unfold o'. cbn [path]. rewrite Hrn.
    destruct ws as [|x ws].
    + rewrite (proj2 Hnew eq_refl). simpl. rewrite app_nil_r in Hss |- *.
      unfold slash_and_trail in Hst. rewrite Hwo in Hst. simpl in Hst. rewrite andb_true_r in Hst. rewrite Hst. simpl.
      destruct Hb as (Hcb & _ & _). destruct (canonical_segments _ Hcb) as (_ & _ & bs0 & b & Hwb & Hbne).
      destruct (base u) as [pb qb]. cbn [path] in *. rewrite (canonical_trailing _ _ _ _ Hcb Hwb) in Hst.
      rewrite Hwb in Hbs |- *. rewrite <-Hbs. rewrite filter_nonempty_id; [done|].
      apply Forall_app. split; [done|]. constructor; [|done]. intros ->. rewrite andb_true_r in Hst.
      apply Hss. rewrite <-Hbs. by destruct bs0.
    + rewrite bool_decide_eq_false_2 by (intros E%Hnew; done). cbn [andb is_empty]. rewrite <-Hbs.
      unfold normal_list. rewrite filter_app_list, (filter_nonempty_id (x :: ws)) by done.
      destruct (exists_last (l:=x :: ws)) as (vs & v & Hv); [done|]. rewrite Hv in *.
      rewrite (app_assoc (path_raw_segments (path (base u)))), last_snoc. apply Forall_app in Hws as [_ Hv0]. inversion_clear Hv0.
      destruct v; [done|]. cbn [is_empty]. destruct (is_empty (List.filter _ _ ++ _)) eqn:He; [|done].
      apply is_empty_true in He. rewrite app_assoc in He. by destruct (app_cons_not_nil _ _ _ (eq_sym He)).
  - cbn [route_uri mount_at uri]. by rewrite Hq', Huri, Hq.
Qed.

(** The loop of [paths_match], on a route's segments less a last one that is a
    dynamic trail. *)
Lemma paths_match_loop_trail A d ss x :
  dynamic_trail d = true → (length A ≤ length ss)%nat →
  default true (paths_match_loop (A ++ [d]) (ss ++ [x])) = default true (paths_match_loop A ss) ∧
  default true (paths_match_loop (A ++ [d]) ss) = default true (paths_match_loop A ss).
Proof.
  intros Hd. revert ss. induction A as [|a A IH]; intros ss Hl.
  { destruct ss; simpl; by rewrite Hd. }
  destruct ss as [|y ss]; simpl in Hl; [lia|]. simpl. destruct (dynamic_trail a); [done|].
  destruct (_ && _); [done|]. apply IH. lia.
Qed.

(** A request without a trailing slash, and the same with one. *)
Definition slashed (o : Origin) : Origin := Origin_new (path o ++ [slash]) (query o).

Lemma slashed_segments o t :
  path o = slash :: t → Forall (λ c, graphic c = true) (path o) →
  origin_segments (slashed o) = decode_path_segments (path_raw_segments (path o) ++ [[]]).
Proof.
  intros Ho Hg. rewrite Ho in Hg. inversion_clear Hg. unfold origin_segments, slashed, path_segments.
  cbn [path]. rewrite Ho. change ((slash :: t) ++ [slash]) with (slash :: t ++ [slash]).
  rewrite raw_segments_graphic by (try done; apply Forall_app; split; [done|by repeat constructor]).
  by rewrite raw_segments_graphic, split_on_app_delim by done.
Qed.

(** The route matches a request with a slash exactly when it, or what the
    normalizer makes of it, matches the request without. *)
Lemma normalized_matches (r r' : Route H) (req : Request IM) ss w vs v x :
  trail_wf (route_uri r') → metadata_dynamic_trail (metadata (route_uri r)) = true →
  uri_segments (metadata (route_uri r)) = (segment_from <$> ss) ++ [segment_from w] →
  uri_segments (metadata (route_uri r')) = segment_from <$> ss →
  dynamic_trail (segment_from w) = true →
  origin_segments (req_uri req) = vs ++ [v] → origin_segments (slashed (req_uri req)) = vs ++ [v; x] →
  paths_match r (set_uri (slashed (req_uri req)) req) = paths_match r req || paths_match r' req.
Proof.
  intros Hwf' Ht Hr Hr' Hw Ho Hos. unfold paths_match. rewrite !num_remaining.
  change (req_uri (set_uri (slashed (req_uri req)) req)) with (slashed (req_uri req)).
  assert (∀ l, remaining (segments_new l) = l) as Hrem by (intros l; unfold remaining; apply drop_0).
  rewrite !Hrem, Hos, Ho, Hr, Hr', Ht, !andb_false_r.
  unfold trail_wf in Hwf'. rewrite Hr' in Hwf'.
  change [v; x] with ([v] ++ [x]). rewrite app_assoc.
  set (A := segment_from <$> ss) in *. set (rs := vs ++ [v]).
  pose proof (λ Hl, paths_match_loop_trail A _ rs x Hw Hl) as Hloop.
  rewrite !length_app. cbn [length].
  destruct (Nat.ltb_spec (length rs + 1) (length A + 1)); destruct (Nat.ltb_spec (length rs) (length A + 1));
    destruct (Nat.ltb_spec (length rs) (length A)); try lia; try done.
  - destruct Hloop as [-> _]; [lia|]. destruct (Nat.ltb_spec (length A) (length rs)); [lia|done].
  - destruct Hloop as [-> ->]; [lia|].
    destruct (default true (paths_match_loop A rs)) eqn:E; [done|]. simpl.
    by destruct (_ && _).
Qed.

(** A request's URI that is normalized up to its query, is not the root and has
    no trailing slash. *)
Definition no_slash (o : Origin) : Prop :=
  canonical (path o) ∧ has_trailing_slash o = false ∧ path o ≠ [slash].

Lemma no_slash_segments o :
  no_slash o → ∃ vs v x, origin_segments o = vs ++ [v] ∧ origin_segments (slashed o) = vs ++ [v; x].
Proof.
  intros (Hc & Ht & Hr). destruct (canonical_segments _ Hc) as (Hj & _ & ws & w & Hw & Hne).
  destruct o as [p q]. cbn [path] in *. rewrite (canonical_trailing _ _ _ _ Hc Hw) in Ht.
  assert (w ≠ []) as Hwne.
  { intros ->. rewrite andb_true_r in Ht. destruct ws; [|done]. apply Hr. by rewrite Hj, Hw. }
  pose proof Hc as ([t Ho]%starts_with_slash & Hg & _).
  rewrite (slashed_segments (Origin_new p q) t Ho Hg). unfold origin_segments, path_segments. cbn [path].
  rewrite Hw, decode_segments_snoc, decode_segments_snoc, !filter_nonempty_id;
    [|apply Forall_app; split; [done|by repeat constructor]|done].
  rewrite fmap_app, <-app_assoc. eauto.
Qed.

Lemma mounted_metadata u : is_mounted u → metadata u = Metadata_from (base u) (uri u).
Proof. by intros (_ & _ & ->). Qed.

Lemma mounted_segments u :
  is_mounted u → uri_segments (metadata u) = segment_from <$> path_raw_segments (path (uri u)) ∧ trail_wf u.
Proof. intros (_ & _ & ->). done. Qed.

Lemma normalized_route_matches (r r' : Route H) :
  is_mounted (route_uri r) → has_trailing_path r = true → slash_and_trail (route_uri r) = false →
  normalized_route r = Some r' →
  same_but_uri r r' ∧ is_mounted (route_uri r') ∧
  ∀ req : Request IM, no_slash (req_uri req) →
    route_matches r (set_uri (slashed (req_uri req)) req) = route_matches r req || route_matches r' req.
Proof.
  intros Hm Ht Hs Hn.
  destruct (normalized_route_spec r Hm Ht Hs) as (r2 & ss & w & Hn2 & Hsame & Hm' & Hraw & _ & Hraw' & Hw & Hq).
  rewrite Hn in Hn2. injection Hn2 as <-. split_and!; [done..|]. intros req Hreq.
  destruct (mounted_segments _ Hm) as [Hu _], (mounted_segments _ Hm') as [Hu' Hwf'].
  rewrite Hraw, fmap_app in Hu. rewrite Hraw' in Hu'.
  apply andb_true_iff in Ht as [Ht _]. destruct (no_slash_segments _ Hreq) as (vs & v & x & Ho & Hos).
  pose proof (normalized_matches r r' req ss w vs v x Hwf' Ht Hu Hu' Hw Ho Hos) as Hp.
  destruct Hsame as (Hme & _ & _ & Hfo & _).
  assert (queries_match r' req = queries_match r req) as Hqm.
  { unfold queries_match. rewrite (mounted_metadata _ Hm), (mounted_metadata _ Hm').
    unfold Metadata_from. cbn [query_color static_query_fields]. by rewrite Hq. }
  assert (methods_match r' req = methods_match r req) as Hmm by (unfold methods_match; by rewrite Hme).
  assert (formats_match r' req = formats_match r req) as Hfm.
  { unfold formats_match, payload_support. by rewrite Hfo, Hme. }
  unfold route_matches. rewrite Hp, Hqm, Hmm, Hfm.
  assert (methods_match r (set_uri (slashed (req_uri req)) req) = methods_match r req) as -> by done.
  assert (queries_match r (set_uri (slashed (req_uri req)) req) = queries_match r req) as -> by done.
  assert (formats_match r (set_uri (slashed (req_uri req)) req) = formats_match r req) as -> by done.
  destruct (methods_match r req), (paths_match r req), (paths_match r' req), (queries_match r req),
    (formats_match r req); done.
Qed.

(** Dropping the slash of a normalized URI. *)
Lemma into_nontrailing_slashed (o : Origin) :
  Origin_valid o → is_normalized o = true → has_trailing_slash o = true →
  no_slash (into_normalized_nontrailing o) ∧ slashed (into_normalized_nontrailing o) = o.
Proof.
  intros (Hs & Hp & _) Hn Ht. cbn [fst snd] in Hs, Hp.
  unfold into_normalized_nontrailing, is_normalized_nontrailing. rewrite Hn, Ht. cbn [negb andb].
  unfold has_trailing_slash in Ht. autorewrite with crates in Ht.
  apply andb_true_iff in Ht as [Hlen [r Hr]%ends_with_spec]. apply starts_with_slash in Hs as [t Ht].
  apply andb_true_iff in Hn as [Hn _]. destruct o as [p q]. cbn [path query] in *. subst p.
  destruct r as [|c r]; [by simplify_eq/=|]. simplify_eq/=.
  destruct (drop_trailing_slash r Hp Hn) as [Hn1 Hn2].
  replace (take _ (slash :: r ++ [slash])) with (slash :: r).
  2: { change (slash :: r ++ [slash]) with ((slash :: r) ++ [slash]).
       rewrite length_app, Nat.sub_0_r, Nat.add_comm. by rewrite (take_app_length (slash :: r)). }
  pose proof (pchars_graphic _ Hp) as Hg. rewrite app_comm_cons in Hg. apply Forall_app in Hg as [Hg _].
  split; [|done]. split_and!; [done| |].
  - unfold has_trailing_slash. autorewrite with crates. cbn [path]. by rewrite Hn2, andb_false_r.
  - cbn [path]. intros [= ->]. by vm_compute in Hn2.
Qed.

(** A dynamic trail that is the only segment matches every path. *)
Lemma sole_trail_matches (r : Route H) (req : Request IM) :
  is_mounted (route_uri r) → metadata_dynamic_trail (metadata (route_uri r)) = true →
  has_trailing_path r = false → paths_match r req = true.
Proof.
  intros Hm Ht Hn. unfold has_trailing_path in Hn. rewrite Ht in Hn. cbn [andb] in Hn.
  destruct (trailing_segments _ Hm Ht) as (bs & ws & w & _ & _ & Hraw & Hne & Hw).
  rewrite app_assoc in Hraw, Hne. apply Forall_app in Hne as [Hne _].
  rewrite (num_origin_segments _ _ _ Hraw Hne) in Hn.
  destruct (bs ++ ws) as [|x l]; [|simpl in Hn; done].
  destruct (mounted_segments _ Hm) as [Hu _]. rewrite Hraw in Hu.
  unfold paths_match. rewrite Hu, Ht, andb_false_r, num_remaining.
  assert (remaining (segments_new (origin_segments (req_uri req))) ≠ []) as Hne2.
  { unfold remaining, segments_new, origin_segments, path_segments. cbn [segs pos]. rewrite drop_0.
    destruct (raw_segments_snoc (path (req_uri req))) as (us & u & ->). rewrite decode_segments_snoc.
    apply not_eq_sym, app_cons_not_nil. }
  destruct (remaining _) as [|a l]; [done|].
  simpl. by rewrite Hw.
Qed.
End added.

(** ** The application under the normalizer *)

(** A route whose URI was written without white space. *)
Definition written `{StablePattern} `{Memchr} `{PercentEncoding} `{Pear} {H} (r : Route H) : Prop :=
  ∃ b s, Forall (λ c, graphic c = true) s ∧ try_new b s = Some (route_uri r).

Section compat.
Context {U : Uncased} {UL : UncasedLaws} {P : Pear} {PL : PearLaws} {PC : PearCombinators}
  {IM : IndexMap str (list str) uncased_eq}.
Context {SP : StablePattern} {SPL : StablePatternLaws} {M : Memchr} {ML : MemchrLaws}
  {PE : PercentEncoding} {PEL : PercentEncodingLaws}.
Context {FC : FigmentCrate} {H C F V : Type} {TM : TypeMap V}.
Implicit Types b : Building H C F V.

Lemma written_mounted (r : Route H) : written r → is_mounted (route_uri r).
Proof. intros (b & s & Hg & Hr). by eapply try_new_is_mounted. Qed.

Lemma mount_root (rs : list (Route H)) b :
  Forall (λ r, is_mounted (route_uri r)) rs → mount (#"/") rs b = Some (extend b (rs, [])).
Proof.
  intros Hrs. unfold mount, load.
  assert (Origin_parse (#"/") = Some root) as ->.
  { unfold Origin_parse. change (#"/") with (origin_syntax ([slash], None)).
    rewrite origin_from_str_valid; [done|]. split_and!; [done|by repeat constructor|done]. }
  cbn [mbind option_bind query root]. rewrite foldl_load.
  assert (mapM (Route.rebase root) rs = Some rs) as ->.
  { induction Hrs as [|r rs Hr _ IH]; [done|]. cbn. by rewrite rebase_root, IH. }
  cbn [mbind option_bind]. by rewrite foldl_push_route.
Qed.

(** What the normalizer adds, route by route. *)
Lemma added_routes (rs : list (Route H)) :
  Forall written rs → Forall (λ r, slash_and_trail (route_uri r) = false) (List.filter has_trailing_path rs) →
  Forall2 (λ r r', normalized_route r = Some r' ∧ is_mounted (route_uri r))
    (List.filter has_trailing_path rs) (omap normalized_route (List.filter has_trailing_path rs)).
Proof.
  induction 1 as [|r rs Hr _ IH]; simpl; [constructor|].
  destruct (has_trailing_path r) eqn:Ht; [|done]. inversion_clear 1 as [|? ? Hs Hss]. cbn.
  pose proof (written_mounted r Hr) as Hm.
  destruct (normalized_route_spec r Hm Ht Hs) as (r' & _ & _ & Hn & _). rewrite Hn. constructor; auto.
Qed.

(** What [on_request] leaves of a request with a trailing slash. *)
Lemma on_request_slash (rs : list (Route H)) (req : Request IM) :
  Origin_valid (req_uri req) → is_normalized (req_uri req) = true → has_trailing_slash (req_uri req) = true →
  let req' := normalizer_on_request (normalizer_on_liftoff None rs) rs req in
  if existsb (λ r, route_matches r req) (List.filter (λ r, has_trailing_slash (uri (route_uri r))) rs)
  then req' = req
  else no_slash (req_uri req') ∧ set_uri (slashed (req_uri req')) req' = req.
Proof.
  intros Hv Hn Ht. cbv zeta. unfold normalizer_on_request, is_normalized_nontrailing. rewrite Hn, Ht.
  cbn [andb negb]. unfold normalizer_on_liftoff, normalizer_routes. cbn [default].
  destruct (existsb _ _); [done|]. cbn [negb].
  destruct (into_nontrailing_slashed _ Hv Hn Ht) as [Hs Hu]. split; [done|].
  change (req_uri (set_uri _ req)) with (into_normalized_nontrailing (req_uri req)).
  rewrite Hu. by destruct req.
Qed.

End compat.

(** ** A concrete application *)

Module AdHocReference.
Import Reference PearReference PearCombinatorsReference HeaderReference ConfigReference RocketReference.

Definition building (routes : list (Route unit)) : Building unit unit unit nat :=
  mkBuilding routes [] fairings_new #"debug" tm_new.

Definition app : Building unit unit unit nat :=
  building (mounted (Some Get) (#"/foo/<a>/<b..>?x") ++ mounted (Some Get) (#"/<c..>") ++
            mounted (Some Get) (#"/bar/")).

Definition get (path : str) (query : option str) : Request header_index :=
  request_new false None Get (Origin_new path query).

Lemma mounted_written uri :
  forallb graphic uri = true → Forall written (mounted (Some Get) uri).
Proof.
  intros Hg. unfold mounted, Route_new, ranked. destruct (try_new (#"/") uri) as [u|] eqn:E; simpl; [|done].
  constructor; [|done]. exists (#"/"), uri. split; [|done]. apply Forall_forall.
  rewrite forallb_forall in Hg. intros c Hc. by apply Hg, list_elem_of_In.
Qed.

Lemma app_written : Forall written (build_routes app).
Proof.
  assert (∀ a b c, Forall written (mounted (Some Get) a) → Forall written (mounted (Some Get) b) →
    Forall written (mounted (Some Get) c) →
    Forall written (mounted (Some Get) a ++ mounted (Some Get) b ++ mounted (Some Get) c)) as Happ
    by (intros; by repeat apply Forall_app_2).
  apply Happ; apply mounted_written; by vm_compute.
Qed.

Lemma forallb_negb {A} (f : A → bool) l :
  forallb (λ x, negb (f x)) l = true → Forall (λ x, f x = false) l.
Proof.
  induction l as [|x l IH]; simpl; [constructor|]. intros [Hx Hl]%andb_true_iff.
  constructor; [by apply negb_true_iff|auto].
Qed.

Lemma app_bases :
  Forall (λ r, slash_and_trail (route_uri r) = false) (List.filter has_trailing_path (build_routes app)).
Proof. apply (forallb_negb (λ r, slash_and_trail (route_uri r))). by vm_compute. Qed.

(** The request for [/foo/1/], what the fairing makes of it, and the routes that
    answer. *)
Definition app_request : Request header_index := get (#"/foo/1/") (Some (#"x")).

Definition app_routes (b : option (Building unit unit unit nat)) : list (Route unit) :=
  match b with Some b => build_routes b | None => [] end.

Lemma app_normalized :
  let routes := app_routes (normalizer_on_ignite app) in
  let req' := normalizer_on_request None routes app_request in
  (to_string ∘ uri ∘ route_uri) <$> List.filter (λ r, route_matches r req') routes =
    [ #"/<c..>"; #"/foo/<a>?x"].
Proof. by vm_compute. Qed.

Definition trail_answers (r : Route unit) : bool :=
  metadata_dynamic_trail (metadata (route_uri r)) && route_matches r app_request.

Lemma app_answers : ∃ r, r ∈ build_routes app ∧ trail_answers r = true.
Proof.
  assert (∀ l, existsb trail_answers l = true → ∃ r, r ∈ l ∧ trail_answers r = true) as He.
  { intros l (r & Hr%list_elem_of_In & Ha)%existsb_exists. eauto. }
  apply He. by vm_compute.
Qed.

Lemma app_request_valid : Origin_valid (req_uri app_request).
Proof. split_and!; [done|by repeat constructor|intros q [= <-]; by repeat constructor]. Qed.


(** A lone dynamic trail under a base that ends in a slash: the route added for
    it ends in the slash and collides with it, so that the application does not
    ignite. *)
Definition slash_app : option (Building unit unit unit nat) :=
  mount (#"/foo/") (mounted (Some Get) (#"/<c..>")) (building []).

Lemma slash_base_collides :
  match slash_app ≫= normalizer_on_ignite with
  | Some b =>
    ((to_string ∘ uri ∘ route_uri) <$> build_routes b = [ #"/foo/<c..>"; #"/foo/"]) ∧
    match finalize (Pending_new (build_routes b) (build_catchers b)) with
    | inl (routes, _) => length routes = 1
    | inr _ => False
    end
  | None => False
  end.
Proof. by vm_compute. Qed.

(** A request whose query is not normalized keeps its slash. *)
Lemma slash_kept :
  let req := get (#"/foo/1/") (Some (#"x&&y")) in
  let routes := app_routes (normalizer_on_ignite app) in
  to_string (req_uri (normalizer_on_request None routes req)) = #"/foo/1/?x&y".
Proof. by vm_compute. Qed.
End AdHocReference.
