(* ===== verification/Params.v ===== *)
(** * Params: parameters of a route (core/lib/src/request/from_param.rs)

    The conversions from path segments, and the accessors of the request that
    apply them (request.rs).  [FromStr] of the integer types of std is modelled
    by [int_from_str], for the bounds of the type. *)

From S2P Require Import Prelude Crates RawStr Header Method MediaType UriTables MediaParse.
From S2P Require Import Uri Route Request.

(** ** [FromStr] for integers *)

(** [std::num::IntErrorKind]. *)
Inductive IntErrorKind := EmptyInt | InvalidDigit | PosOverflow | NegOverflow | ZeroInt.

#[export] Instance IntErrorKind_eq_dec : EqDecision IntErrorKind.
Proof. solve_decision. Defined.

(** The digits: checked multiplication, the digit, checked addition. *)
Fixpoint int_digits (lo hi : Z) (negative : bool) (acc : Z) (s : str) : Z + IntErrorKind :=
  match s with
  | [] => inl acc
  | c :: s =>
    if is_digit c then
      let d := (Z.of_nat (nat_of_ascii c) - 48)%Z in
      let overflow := if negative then NegOverflow else PosOverflow in
      let mul := (acc * 10)%Z in
      if ((lo <=? mul) && (mul <=? hi))%Z then
        let next := if negative then (mul - d)%Z else (mul + d)%Z in
        if ((lo <=? next) && (next <=? hi))%Z then int_digits lo hi negative next s
        else inr overflow
      else inr overflow
    else inr InvalidDigit
  end.

(** [from_str] for the type of the integers from [lo] to [hi]. *)
Definition int_from_str (lo hi : Z) (src : str) : Z + IntErrorKind :=
  match src with
  | [] => inr EmptyInt
  | c :: rest =>
    if decide (c = "+"%char) then
      if is_empty rest then inr InvalidDigit else int_digits lo hi false 0 rest
    else if decide (c = "-"%char ∧ (lo < 0)%Z) then
      if is_empty rest then inr InvalidDigit else int_digits lo hi true 0 rest
    else if decide (c = "-"%char ∧ rest = []) then inr InvalidDigit
    else int_digits lo hi false 0 src
  end.

(** [NonZero]. *)
Definition non_zero_from_str (lo hi : Z) (src : str) : Z + IntErrorKind :=
  match int_from_str lo hi src with
  | inl 0%Z => inr ZeroInt
  | r => r
  end.

(** [bool]. *)
Definition bool_from_str (src : str) : bool + unit :=
  if decide (src = #"true") then inl true
  else if decide (src = #"false") then inl false
  else inr tt.

(** ** [FromParam] and [FromSegments] *)

(** [trait FromParam], [trait FromSegments]. *)
Class FromParam (A E : Type) := from_param : str → A + E.
Class FromSegments (A E : Type) := from_segments : Segments → A + E.

(** [error::Empty]. *)
Inductive EmptyError := Empty.

Section from_param.
Context `{StablePattern}.

#[export] Instance str_from_param : FromParam str EmptyError := λ param,
  if is_empty param then inr Empty else inl param.

(** [impl_with_fromstr!]. *)
Definition with_fromstr {A E} (from_str : str → A + E) : FromParam A E := from_str.

#[export] Instance bool_from_param : FromParam bool unit := with_fromstr bool_from_str.

(** [PathBuf]: the parameter as the only segment. *)
Record PathBuf := PathBuf_of { path_buf : str }.

Definition path_buf_result (r : PathError + str) : PathBuf + PathError :=
  match r with inr p => inl (PathBuf_of p) | inl e => inr e end.

#[export] Instance path_from_param : FromParam PathBuf PathError := λ param,
  path_buf_result (to_path_buf false (segments_new [param])).

#[export] Instance result_from_param {A E} `{FromParam A E} : FromParam (A + E) Empty_set :=
  λ param, inl (from_param param).

#[export] Instance option_from_param {A E} `{FromParam A E} : FromParam (option A) Empty_set :=
  λ param, inl match from_param param with inl v => Some v | inr _ => None end.

(** [Either<A, B>]. *)
Definition either_from_param {A B E F} `{FromParam A E} `{FromParam B F} (param : str) :
    (A + B) + (E * F) :=
  match from_param param with
  | inl a => inl (inl a)
  | inr a =>
    match from_param param with
    | inl b => inl (inr b)
    | inr b => inr (a, b)
    end
  end.

#[export] Instance segments_from_segments : FromSegments Segments Empty_set := inl.

#[export] Instance path_from_segments : FromSegments PathBuf PathError := λ segments,
  path_buf_result (to_path_buf false segments).

#[export] Instance result_from_segments {A E} `{FromSegments A E} :
  FromSegments (A + E) Empty_set := λ segments, inl (from_segments segments).

#[export] Instance option_from_segments {A E} `{FromSegments A E} :
  FromSegments (option A) Empty_set := λ segments,
  inl match from_segments segments with inl v => Some v | inr _ => None end.
End from_param.

(** ** Accessors of the request *)

Section accessors.
Context {U : Uncased} {P : Pear} {PC : PearCombinators} {IM : IndexMap str (list str) uncased_eq}.
Context {SP : StablePattern} {M : Memchr} {PE : PercentEncoding}.

(** [Request::param], [Request::segments]. *)
Definition param {A E} `{FromParam A E} (n : nat) (self : Request IM) : option (A + E) :=
  from_param <$> routed_segment n self.

Definition segments {A E} `{FromSegments A E} (n : nat) (self : Request IM) : A + E :=
  from_segments (routed_segments n self).
End accessors.

(** ** Integers are parsed within their bounds *)

Definition digits_value (acc : Z) (s : str) : Z :=
  foldl (λ acc c, acc * 10 + (Z.of_nat (nat_of_ascii c) - 48))%Z acc s.

Definition signed (negative : bool) (z : Z) : Z := if negative then (- z)%Z else z.

Lemma digit_bounds c : is_digit c = true → (0 ≤ Z.of_nat (nat_of_ascii c) - 48 ≤ 9)%Z.
Proof. unfold is_digit. intros [?%Nat.leb_le ?%Nat.leb_le]%andb_true_iff. lia. Qed.

Lemma digits_value_ge acc s :
  (0 ≤ acc)%Z → Forall (λ c, is_digit c = true) s → (acc ≤ digits_value acc s)%Z.
Proof.
  intros Hacc Hs. revert acc Hacc. induction Hs as [|c s Hc _ IH]; intros acc Hacc; simpl; [lia|].
  apply digit_bounds in Hc. specialize (IH (acc * 10 + (Z.of_nat (nat_of_ascii c) - 48))%Z). lia.
Qed.

Lemma int_digits_spec lo hi negative acc s z :
  (lo ≤ 0 ≤ hi)%Z → (0 ≤ acc)%Z → (lo ≤ signed negative acc ≤ hi)%Z →
  int_digits lo hi negative (signed negative acc) s = inl z ↔
  Forall (λ c, is_digit c = true) s ∧ z = signed negative (digits_value acc s) ∧ (lo ≤ z ≤ hi)%Z.
Proof.
  intros Hb. revert acc. induction s as [|c s IH]; intros acc Hacc Hr; simpl.
  { split; [intros [= <-]; by split; [apply list.Forall_nil_2|]|by intros (_ & -> & _)]. }
  destruct (is_digit c) eqn:Hc.
  2: { split; [done|]. intros (Hd&_). inversion Hd. congruence. }
  pose proof (digit_bounds c Hc) as Hdig.
  set (d := (Z.of_nat (nat_of_ascii c) - 48)%Z) in *.
  assert (Hnext : (if negative then signed negative acc * 10 - d else signed negative acc * 10 + d)%Z =
                  signed negative (acc * 10 + d)) by (unfold signed; destruct negative; lia).
  rewrite Hnext.
  assert (Hfold : digits_value (acc * 10 + d) s = digits_value acc (c :: s)) by done.
  assert (Hge := digits_value_ge (acc * 10 + d) s ltac:(lia)).
  destruct (((lo <=? signed negative acc * 10) && (signed negative acc * 10 <=? hi))%Z) eqn:E1.
  - destruct (((lo <=? signed negative (acc * 10 + d)) && (signed negative (acc * 10 + d) <=? hi))%Z) eqn:E2.
    + rewrite IH by (lia || (apply andb_true_iff in E2 as [?%Z.leb_le ?%Z.leb_le]; lia)).
      rewrite Hfold, Forall_cons. naive_solver.
    + split; [done|]. intros (Hd&->&Hz). inversion_clear Hd as [|? ? _ Hs]. specialize (Hge Hs).
      rewrite ?Hfold in *. apply andb_false_iff in E2 as [?%Z.leb_gt|?%Z.leb_gt];
        unfold signed in *; destruct negative; lia.
  - split; [done|]. intros (Hd&->&Hz). inversion_clear Hd as [|? ? _ Hs]. specialize (Hge Hs).
    rewrite ?Hfold in *. apply andb_false_iff in E1 as [?%Z.leb_gt|?%Z.leb_gt];
      unfold signed in *; destruct negative; lia.
Qed.

(** The texts of an integer: an optional sign, a minus only for signed types,
    and digits. *)
Definition text_of (lo : Z) (s : str) (z : Z) : Prop :=
  ∃ sign ds, s = sign ++ ds ∧ ds ≠ [] ∧ Forall (λ c, is_digit c = true) ds ∧
    (((sign = [] ∨ sign = #"+") ∧ z = digits_value 0 ds) ∨
     (sign = #"-" ∧ (lo < 0)%Z ∧ z = (- digits_value 0 ds)%Z)).

Lemma is_digit_not_sign c : is_digit c = true → c ≠ "+"%char ∧ c ≠ "-"%char.
Proof. split; by intros ->. Qed.

(** What the text is when its first byte is known. *)
Lemma text_of_plus lo s z :
  text_of lo ("+"%char :: s) z ↔
  s ≠ [] ∧ Forall (λ c, is_digit c = true) s ∧ z = digits_value 0 s.
Proof.
  split.
  - intros (sign&ds&Hs&Hne&Hds&[[[->| ->] Hz]|(->&_&_)]); simpl in Hs.
    + subst ds. inversion Hds. done.
    + by injection Hs as ->.
    + done.
  - intros (Hne&Hs&Hz). exists (#"+"), s. split_and!; [done..|]. left. auto.
Qed.

Lemma text_of_minus lo s z :
  text_of lo ("-"%char :: s) z ↔
  (lo < 0)%Z ∧ s ≠ [] ∧ Forall (λ c, is_digit c = true) s ∧ z = (- digits_value 0 s)%Z.
Proof.
  split.
  - intros (sign&ds&Hs&Hne&Hds&[[[->| ->] Hz]|(->&Hlo&Hz)]); simpl in Hs.
    + subst ds. inversion Hds. done.
    + done.
    + by injection Hs as ->.
  - intros (Hlo&Hne&Hs&Hz). exists (#"-"), s. split_and!; [done..|]. right. auto.
Qed.

Lemma text_of_digits lo c s z :
  c ≠ "+"%char → c ≠ "-"%char →
  text_of lo (c :: s) z ↔
  Forall (λ c, is_digit c = true) (c :: s) ∧ z = digits_value 0 (c :: s).
Proof.
  intros Hp Hm. split.
  - intros (sign&ds&Hs&Hne&Hds&[[[->| ->] Hz]|(->&_&_)]); simpl in Hs.
    + by subst ds.
    + by injection Hs as ? _.
    + by injection Hs as ? _.
  - intros [Hs Hz]. exists [], (c :: s). split_and!; [done..|]. left. auto.
Qed.

Lemma int_from_str_spec lo hi s z :
  (lo ≤ 0 ≤ hi)%Z →
  int_from_str lo hi s = inl z ↔ text_of lo s z ∧ (lo ≤ z ≤ hi)%Z.
Proof.
  intros Hb. pose proof (λ neg s, int_digits_spec lo hi neg 0 s z Hb ltac:(lia)) as Hd.
  assert (Hpos : ∀ s, int_digits lo hi false 0 s = inl z ↔
    Forall (λ c, is_digit c = true) s ∧ z = digits_value 0 s ∧ (lo ≤ z ≤ hi)%Z).
  { intros s'. apply (Hd false s'). simpl. lia. }
  assert (Hneg : ∀ s, int_digits lo hi true 0 s = inl z ↔
    Forall (λ c, is_digit c = true) s ∧ z = (- digits_value 0 s)%Z ∧ (lo ≤ z ≤ hi)%Z).
  { intros s'. apply (Hd true s'). simpl. lia. }
  destruct s as [|c s].
  { split; [done|]. intros [(sign&ds&Hs&Hne&_) _]. symmetry in Hs. by apply app_nil in Hs as [_ ->]. }
  unfold int_from_str. destruct (decide (c = "+"%char)) as [->|Hp].
  { rewrite text_of_plus. destruct s as [|d s]; simpl is_empty; cbn iota; [naive_solver|].
    rewrite Hpos. naive_solver. }
  destruct (decide (c = "-"%char ∧ (lo < 0)%Z)) as [[-> Hlo]|Hnm].
  { rewrite text_of_minus. destruct s as [|d s]; simpl is_empty; cbn iota; [naive_solver|].
    rewrite Hneg. naive_solver. }
  destruct (decide (c = "-"%char)) as [->|Hm].
  - rewrite text_of_minus. destruct (decide _) as [[_ ->]|_]; [naive_solver|].
    rewrite Hpos. split; [|naive_solver]. intros (Hs&_). inversion Hs. done.
  - rewrite decide_False by tauto. rewrite text_of_digits, Hpos by done. tauto.
Qed.

Lemma parse_digits_value max acc s z : parse_digits max acc s = Some z → z = digits_value acc s.
Proof.
  revert acc. induction s as [|c s IH]; intros acc; simpl; [by intros [= ->]|].
  destruct (is_digit c); [|done]. case_match; [|done]. intros ->%IH. do 2 f_equal. lia.
Qed.

(** Integer parameters.  For an integer type with the bounds [lo] and [hi] a
    segment is accepted exactly when it is digits after an optional sign, a
    minus only for a signed type, and their value is within the bounds, and
    the parameter is that value; [NonZero] types refuse zero; and the decimal
    text of every number in range is accepted as that number. *)
Theorem int_param_bounds lo hi s z n :
  (lo ≤ 0 ≤ hi)%Z → (Z.of_nat n ≤ hi)%Z →
  (int_from_str lo hi s = inl z ↔ text_of lo s z ∧ (lo ≤ z ≤ hi)%Z) ∧
  (non_zero_from_str lo hi s = inl z ↔ text_of lo s z ∧ (lo ≤ z ≤ hi)%Z ∧ z ≠ 0%Z) ∧
  int_from_str lo hi (decimal_text n) = inl (Z.of_nat n).
Proof.
  intros Hb Hn. split_and!.
  - by apply int_from_str_spec.
  - pose proof (int_from_str_spec lo hi s z Hb) as Hs. unfold non_zero_from_str.
    destruct (int_from_str lo hi s) as [[]|e]; naive_solver.
  - apply int_from_str_spec; [done|]. split; [|lia].
    pose proof (decimal_text_digits n) as Hdig. pose proof (decimal_text_ne n) as Hne.
    exists [], (decimal_text n). split_and!; [done..|]. left. split; [by left|].
    apply (parse_digits_value (Z.of_nat n)). by apply parse_decimal_text.
Qed.

(** [i8] and [u8]. *)
Example int_param_witness :
  int_from_str (-128) 127 (#"-128") = inl (-128)%Z ∧ ¬ text_of 0 (#"-1") (-1) ∧
  int_from_str 0 255 (decimal_text 255) = inl 255%Z.
Proof.
  destruct (int_param_bounds (-128) 127 (#"-128") (-128) 0) as (Hi&_&_); [lia..|].
  destruct (int_param_bounds 0 255 (#"-1") (-1) 255) as (Hu&_&Hd); [lia..|].
  split_and!; [|intros Ht|exact Hd].
  - apply Hi. split; [|lia]. exists (#"-"), (#"128"). split_and!; [done|done| |right; done].
    by repeat constructor.
  - apply text_of_minus in Ht as [? _]. lia.
Defined.
