(* ===== verification/UriFmt.v ===== *)
(** * UriFmt: formatting of typed URIs (core/http/src/uri/fmt/*.rs)

    The encode sets, the formatter and its state, the types that display as
    URIs, and the builder that the URI macro expands to.  Writing to a string
    does not fail, but a [UriDisplay] may: results are true when they are [Ok].
    Encoding and its sets of bytes are the [percent_encoding] crate's. *)

From S2P Require Import Prelude Crates RawStr UriTables Uri UriForms Route FormName FormParser FileServer.

(** ** Encoding *)

Class PercentEncode := {
  AsciiSet : Type;
  CONTROLS : AsciiSet;
  set_add : ascii → AsciiSet → AsciiSet;
  set_remove : ascii → AsciiSet → AsciiSet;
  utf8_percent_encode : AsciiSet → str → str;
}.

(** The text of a byte, [%XX]. *)
Definition hex_upper (n : nat) : ascii := ascii_of_nat (if (n <? 10)%nat then 48 + n else 55 + n).
Definition percent_byte (c : ascii) : str :=
  [ "%"%char; hex_upper (nat_of_ascii c / 16); hex_upper (nat_of_ascii c mod 16)].

(** Bytes that are not ASCII and those in the set are encoded; [mem] is what is
    in a set.  Decoding is that of bytes when the result is UTF-8. *)
Class PercentEncodeLaws `{PercentEncode} `{PercentEncoding} := {
  mem : AsciiSet → ascii → bool;
  mem_controls c : mem CONTROLS c = (nat_of_ascii c <? 32)%nat || (nat_of_ascii c =? 127)%nat;
  mem_add b s c : mem (set_add b s) c = bool_decide (c = b) || mem s c;
  mem_remove b s c : mem (set_remove b s) c = negb (bool_decide (c = b)) && mem s c;
  utf8_percent_encode_spec s t :
    utf8_percent_encode s t =
      concat ((λ c, if negb (is_ascii c) || mem s c then percent_byte c else [c]) <$> t);
  percent_decode_utf8 s :
    is_utf8 (Reference.percent_decode s) = true →
    cow_value (percent_decode_utf8_lossy s) = Reference.percent_decode s;
}.

(** [Part::KIND] and [Part::DELIMITER]. *)
Inductive Kind := KPath | KQuery.

#[export] Instance Kind_eq_dec : EqDecision Kind.
Proof. solve_decision. Defined.

Definition delimiter (k : Kind) : ascii := match k with KPath => "/" | KQuery => "&" end.

Section encoding.
Context `{PercentEncode}.

(** The loop of [set_from_table], over the bytes below [0x80]. *)
Definition set_from_table (table : str) : AsciiSet :=
  foldl (λ set i, if negb (in_table table (ascii_of_nat i)) then set_add (ascii_of_nat i) set else set)
    (set_add "000"%char CONTROLS) (seq 0 128).

Definition PATH_SET : AsciiSet := set_from_table PATH_CHARS.

(** [EncodeSet::SET] of [UNSAFE_ENCODE_SET], [ENCODE_SET], [DEFAULT_ENCODE_SET]. *)
Definition UNSAFE_ENCODE_SET (k : Kind) : AsciiSet :=
  match k with
  | KPath => set_add "%" PATH_SET
  | KQuery => set_add "+" (set_add "%" (set_remove "?" PATH_SET))
  end.

Definition ENCODE_SET (k : Kind) : AsciiSet :=
  match k with
  | KPath => set_add "/" (UNSAFE_ENCODE_SET KPath)
  | KQuery => set_add "=" (set_add "&" (UNSAFE_ENCODE_SET KQuery))
  end.

Definition DEFAULT_ENCODE_SET : AsciiSet :=
  set_add "=" (set_add "&" (set_add "+" (set_add "%" (ENCODE_SET KPath)))).

(** [RawStr::percent_encode] and [percent_encode_bytes] (core/http/src/raw_str.rs). *)
Definition percent_encode (self : str) : str := utf8_percent_encode DEFAULT_ENCODE_SET self.
Definition percent_encode_bytes (bytes : str) : str := utf8_percent_encode DEFAULT_ENCODE_SET bytes.
End encoding.

(** ** The formatter *)

(** [struct Formatter], with what has been written to [inner]. *)
Record Formatter := mkFormatter {
  prefixes : list str;
  inner : str;
  previous : bool;
  fresh : bool;
}.

(** What a display does, and whether it is [Ok]. *)
Definition Fmt : Type := Formatter → Formatter * bool.

(** [Formatter::new], over a string. *)
Definition formatter_new (inner : str) : Formatter := mkFormatter [] inner false true.

(** [Formatter::refresh], [refreshed]. *)
Definition refresh (self : Formatter) : Formatter :=
  mkFormatter (prefixes self) (inner self) (previous self) true.

Definition refreshed (f : Fmt) : Fmt := λ self,
  let '(self, result) := f (refresh self) in (refresh self, result).

(** The names before a value: [prefixes], joined by dots. *)
Fixpoint write_prefixes (i : nat) (prefixes : list str) : str :=
  match prefixes with
  | [] => []
  | prefix :: prefixes => (if negb (i =? 0)%nat then #"." else []) ++ prefix ++ write_prefixes (S i) prefixes
  end.

(** [Formatter::write_raw]. *)
Definition write_raw (k : Kind) (string : str) : Fmt := λ self,
  let start :=
    if fresh self then
      (if previous self then [delimiter k] else []) ++
      (if bool_decide (k = KQuery) && negb (is_empty (prefixes self))
       then write_prefixes 0 (prefixes self) ++ #"=" else [])
    else [] in
  (mkFormatter (prefixes self) (inner self ++ start ++ string) true false, true).

(** [Formatter::write_value], of the display of a value. *)
Definition write_value (f : Fmt) : Fmt := refreshed f.

(** [Formatter::with_prefix]: the guard pops the prefix when it is dropped. *)
Definition with_prefix (prefix : str) (f : Fmt) : Fmt := λ self,
  let '(self, result) := f (mkFormatter (prefixes self ++ [prefix]) (inner self) (previous self) (fresh self)) in
  (mkFormatter (removelast (prefixes self)) (inner self) (previous self) (fresh self), result).

(** [Formatter::write_named_value]. *)
Definition write_named_value (name : str) (f : Fmt) : Fmt := refreshed (with_prefix name (write_value f)).

(** [Ok(())], and one display after another while they are [Ok]. *)
Definition fmt_ok : Fmt := λ self, (self, true).
Definition fmt_then (f g : Fmt) : Fmt := λ self,
  let '(self, result) := f self in if result then g self else (self, false).

(** [Iterator::try_for_each]. *)
Fixpoint try_for_each {A} (f : A → Fmt) (l : list A) : Fmt :=
  match l with
  | [] => fmt_ok
  | x :: l => fmt_then (f x) (try_for_each f l)
  end.

(** ** Displays *)

(** [trait UriDisplay]. *)
Class UriDisplay (k : Kind) (T : Type) := fmt : T → Fmt.

Section displays.
Context `{PercentEncode}.

(** [str], [String], [Cow]. *)
#[export] Instance display_str k : UriDisplay k str := λ self, write_raw k (percent_encode self).

(** [Path]: the components but the root, by their names; paths are strings too. *)
Definition path_fmt (self : str) : Fmt :=
  try_for_each (λ component, write_value (write_raw KPath (percent_encode component)))
    (List.filter (λ c, negb (bool_decide (c = [slash]))) (path_iter self)).

(** [impl_with_display!], for the integers and [bool]. *)
#[export] Instance display_int k : UriDisplay k Z := λ self, write_raw k (integer_text self).
#[export] Instance display_bool k : UriDisplay k bool := λ self,
  write_raw k (if self then #"true" else #"false").

(** [Either], [Option], [Result], [Vec], [[u8]]. *)
#[export] Instance display_either k {T U} `{UriDisplay k T} `{UriDisplay k U} : UriDisplay k (T + U) := λ self,
  match self with inl t => fmt t | inr u => fmt u end.

#[export] Instance display_option {T} `{UriDisplay KQuery T} : UriDisplay KQuery (option T) := λ self,
  match self with Some v => fmt v | None => fmt_ok end.

Definition result_fmt {T E} `{UriDisplay KQuery T} (self : E + T) : Fmt :=
  match self with inr v => fmt v | inl _ => fmt_ok end.

#[export] Instance display_vec {T} `{UriDisplay KQuery T} : UriDisplay KQuery (list T) | 10 := λ self,
  try_for_each (λ v, write_value (fmt v)) self.

Definition bytes_fmt (self : str) : Fmt := write_raw KQuery (percent_encode_bytes self).

(** [HashMap], [BTreeMap]: the loop over the entries, from the [i]th on. *)
Fixpoint map_fmt {K V} `{UriDisplay KQuery K} `{UriDisplay KQuery V} (i : nat) (entries : list (K * V)) : Fmt :=
  match entries with
  | [] => fmt_ok
  | (key, value) :: entries =>
    fmt_then (write_named_value (#"k:" ++ decimal_text i) (fmt key))
      (fmt_then (write_named_value (#"v:" ++ decimal_text i) (fmt value)) (map_fmt (S i) entries))
  end.

(** What [#[derive(UriDisplayQuery)]] makes of a struct or a variant with fields,
    the field of a tuple having no name, and of a variant without
    (core/codegen/src/derive/uri_display.rs); and [#[derive(UriDisplayPath)]]. *)
Definition struct_fmt (fields : list (option str * Fmt)) : Fmt :=
  try_for_each (λ f, match f.1 with
                     | Some name => write_named_value name f.2
                     | None => write_value f.2
                     end) fields.

Definition variant_fmt (value : str) : Fmt := write_value (display_str KQuery value).

Definition newtype_path_fmt (field : Fmt) : Fmt := fmt_then (write_value field) fmt_ok.
End displays.

(** ** The builder *)

(** [enum UriArgumentsKind], [UriQueryArgument]; a [dyn UriDisplay] is its
    [fmt]. *)
Inductive UriArgumentsKind (A : Type) := StaticArgs (s : str) | DynamicArgs (args : A).
Arguments StaticArgs {A}.
Arguments DynamicArgs {A}.

Inductive UriQueryArgument := Raw (v : str) | NameValue (n : str) (v : Fmt) | Value (v : Fmt).

(** [struct RouteUriBuilder]. *)
Record RouteUriBuilder := mkBuilder { builder_path : str; builder_query : option str }.

(** The loops of [RouteUriBuilder::new], which drop the results. *)
Definition write_path_args (args : list Fmt) (formatter : Formatter) : Formatter :=
  foldl (λ formatter value, (write_value value formatter).1) formatter args.

Definition write_query_arg (f : Formatter) (arg : UriQueryArgument) : Formatter :=
  match arg with
  | Raw v => (write_raw KQuery v f).1
  | NameValue n v => (write_named_value n v f).1
  | Value v => (write_value v f).1
  end.

(** [RouteUriBuilder::new]. *)
Definition builder_new (path_args : UriArgumentsKind (list Fmt))
    (query_args : option (UriArgumentsKind (list UriQueryArgument))) : RouteUriBuilder :=
  let path :=
    match path_args with
    | StaticArgs path => path
    | DynamicArgs args => inner (write_path_args args (formatter_new [slash]))
    end in
  let query :=
    match query_args with
    | None => None
    | Some (StaticArgs query) => Some query
    | Some (DynamicArgs args) =>
      let string := inner (foldl write_query_arg (formatter_new []) args) in
      if negb (is_empty string) then Some string else None
    end in
  mkBuilder path query.

(** [RouteUriBuilder::render]. *)
Definition builder_render (self : RouteUriBuilder) : Origin := Origin_new (builder_path self) (builder_query self).

Section prefixes.
Context `{StablePattern} `{Memchr}.

(** [ValidRoutePrefix::append], for [Origin] and [Absolute]. *)
Definition origin_append (self : Origin) (path : str) (query : option str) : Origin :=
  let prefix := clear_query (into_normalized self) in
  if bool_decide (Uri.path prefix = [slash]) then Origin_new path query
  else if bool_decide (path = [slash]) then set_query query prefix
  else if has_trailing_slash prefix && starts_with [slash] path
  then Origin_new (Uri.path prefix ++ drop 1 path) query
  else Origin_new (Uri.path prefix ++ path) query.

Definition absolute_append (self : Absolute) (path : str) (query : option str) : Absolute :=
  let prefix := absolute_clear_query (absolute_normalize self) in
  if bool_decide (path = [slash]) then absolute_set_query query prefix
  else if is_empty (abs_path prefix) || bool_decide (abs_path prefix = [slash])
  then absolute_set_query query (absolute_set_path path prefix)
  else absolute_set_query query (absolute_set_path (abs_path prefix ++ path) prefix).
End prefixes.

(** [ValidRouteSuffix::prepend], for a [Reference] and an [Absolute] suffix
    after an [Origin] and an [Absolute]. *)
Definition reference_prepend_origin (self : Reference) (prefix : Origin) : Reference :=
  with_query_fragment_of self (reference_of_origin prefix).

Definition reference_prepend_absolute (self : Reference) (prefix : Absolute) : Reference :=
  with_query_fragment_of self (reference_of_absolute prefix).

Definition absolute_prepend_origin (self : Absolute) (prefix : Origin) : Origin :=
  match abs_query self with
  | Some query => if bool_decide (Uri.query prefix = None) then set_query (Some query) prefix else prefix
  | None => prefix
  end.

Definition absolute_prepend_absolute (self : Absolute) (prefix : Absolute) : Absolute :=
  match abs_query self with
  | Some query => if bool_decide (abs_query prefix = None) then absolute_set_query (Some query) prefix else prefix
  | None => prefix
  end.

(** ** Lemmas on encoding *)

(** Bytes that [percent_encode] encodes, and what it writes. *)
Definition reserved (c : ascii) : bool :=
  negb (is_ascii c) || negb (is_pchar c) || bool_decide (c ∈ ["%"; "/"; "+"; "&"; "="]%char).

Definition encode_byte (c : ascii) : str := if reserved c then percent_byte c else [c].

Definition encoded (s : str) : str := concat (encode_byte <$> s).

(** Bytes that encoding can yield. *)
Definition plain (c : ascii) : bool :=
  is_pchar c && is_ascii c && negb (bool_decide (c ∈ ["/"; "+"; "&"; "="; "?"; "#"]%char)).

Ltac all_bytes c := destruct c as [[] [] [] [] [] [] [] []]; vm_compute; done.

Lemma encode_byte_plain c : forallb plain (encode_byte c) = true.
Proof. all_bytes c. Qed.

Lemma encode_byte_decode c :
  encode_byte c = [c] ∧ c ≠ "%"%char ∨
  ∃ h l a b, encode_byte c = ["%"%char; h; l] ∧ Reference.hex_digit h = Some a ∧ Reference.hex_digit l = Some b ∧
    ascii_of_nat (16 * a + b) = c.
Proof.
  assert (match encode_byte c with
    | [d] => bool_decide (d = c) && negb (bool_decide (c = "%"%char))
    | [p; h; l] => match Reference.hex_digit h, Reference.hex_digit l with
        | Some a, Some b => bool_decide (p = "%"%char) && bool_decide (ascii_of_nat (16 * a + b) = c)
        | _, _ => false end
    | _ => false end = true) as Hc by (all_bytes c).
  destruct (encode_byte c) as [|p [|h [|l [|? ?]]]]; try discriminate Hc.
  - left. apply andb_true_iff in Hc as [->%bool_decide_eq_true Hc]. split; [done|].
    by apply negb_true_iff, bool_decide_eq_false in Hc.
  - right. destruct (Reference.hex_digit h) as [a|] eqn:Ha; [|discriminate].
    destruct (Reference.hex_digit l) as [b|] eqn:Hb; [|discriminate].
    apply andb_true_iff in Hc as [->%bool_decide_eq_true Hc%bool_decide_eq_true].
    exists h, l, a, b. done.
Qed.

Lemma percent_decode_encoded s : Reference.percent_decode (encoded s) = s.
Proof.
  induction s as [|c s IH]; [done|]. change (encoded (c :: s)) with (encode_byte c ++ encoded s).
  destruct (encode_byte_decode c) as [[-> Hc]|(h & l & a & b & -> & Ha & Hb & <-)]; cbn [app].
  - destruct (encoded s) as [|h [|l r]] eqn:He; cbn [Reference.percent_decode].
    + f_equal. by rewrite <-IH.
    + f_equal. by rewrite <-IH.
    + rewrite decide_False by done. f_equal. by rewrite <-IH.
  - cbn [Reference.percent_decode]. rewrite decide_True by done. rewrite Ha, Hb. by rewrite IH.
Qed.

Lemma encoded_plain s : Forall (λ c, plain c = true) (encoded s).
Proof.
  unfold encoded. induction s as [|c s IH]; [constructor|]. cbn. apply Forall_app. split; [|done].
  apply List.Forall_forall, List.forallb_forall, encode_byte_plain.
Qed.

Lemma encoded_nonempty s : s ≠ [] → encoded s ≠ [].
Proof.
  destruct s as [|c s]; [done|]. intros _. change (encoded (c :: s)) with (encode_byte c ++ encoded s).
  destruct (encode_byte_decode c) as [[-> _]|(h & l & a & b & -> & _)]; done.
Qed.

Section encode_lemmas.
Context `{PercentEncodeLaws}.

Lemma mem_from_table table c :
  mem (set_from_table table) c =
    existsb (λ i, negb (in_table table (ascii_of_nat i)) && bool_decide (c = ascii_of_nat i)) (seq 0 128) ||
    (bool_decide (c = "000"%char) || ((nat_of_ascii c <? 32)%nat || (nat_of_ascii c =? 127)%nat)).
Proof.
  unfold set_from_table. rewrite <-mem_controls, <-mem_add.
  generalize (set_add "000"%char CONTROLS) as set. generalize (seq 0 128) as l.
  induction l as [|i l IH]; intros set; [done|]. cbn [foldl existsb]. rewrite IH.
  destruct (negb (in_table table (ascii_of_nat i))); cbn; [|done].
  rewrite mem_add. by destruct (bool_decide _), (existsb _ l).
Qed.

Lemma percent_encode_encoded s : percent_encode s = encoded s.
Proof.
  unfold percent_encode, encoded. rewrite utf8_percent_encode_spec. f_equal.
  apply list_fmap_ext. intros _ c _. unfold encode_byte.
  replace (negb (is_ascii c) || mem DEFAULT_ENCODE_SET c) with (reserved c); [done|].
  unfold DEFAULT_ENCODE_SET, ENCODE_SET, UNSAFE_ENCODE_SET, PATH_SET.
  rewrite !mem_add, mem_from_table. all_bytes c.
Qed.

Lemma percent_decode_lossy_encoded s :
  is_utf8 s = true → cow_value (percent_decode_lossy (percent_encode s)) = s.
Proof.
  intros Hs. rewrite percent_encode_encoded. unfold percent_decode_lossy.
  pose proof (percent_decode_encoded s) as Hd. destruct (encoded s) as [|c r] eqn:He; [done|].
  cbn [is_empty]. rewrite percent_decode_utf8; [done|by rewrite Hd].
Qed.
End encode_lemmas.

(** ** Lemmas on the formatter *)

(** A display shows items, each with the names under it: it writes them, one
    after the other, wherever it starts afresh. *)
Definition Item : Type := list str * str.

Fixpoint dots (names : list str) : str :=
  match names with
  | [] => []
  | [n] => n
  | n :: names => n ++ "."%char :: dots names
  end.

Definition item_text (k : Kind) (ps : list str) (it : Item) : str :=
  (if bool_decide (k = KQuery) && negb (is_empty (ps ++ it.1)) then dots (ps ++ it.1) ++ #"=" else []) ++ it.2.

Definition emit_item (k : Kind) (f : Formatter) (it : Item) : Formatter :=
  mkFormatter (prefixes f)
    (inner f ++ (if previous f then [delimiter k] else []) ++ item_text k (prefixes f) it) true true.

Definition emit (k : Kind) (its : list Item) (f : Formatter) : Formatter := foldl (emit_item k) f its.

Definition Shows (k : Kind) (m : Fmt) (its : list Item) : Prop :=
  ∀ f, fresh f = true → refresh (m f).1 = emit k its f ∧ (m f).2 = true.

(** The same, leaving the formatter fresh. *)
Definition Shown (k : Kind) (m : Fmt) (its : list Item) : Prop :=
  ∀ f, fresh f = true → m f = (emit k its f, true).

Lemma write_prefixes_dots i ps : write_prefixes (S i) ps = concat ((λ p, "."%char :: p) <$> ps).
Proof. revert i. induction ps as [|p ps IH]; intros i; [done|]. cbn. by rewrite IH. Qed.

Lemma write_prefixes_0 ps : write_prefixes 0 ps = dots ps.
Proof.
  destruct ps as [|p ps]; [done|]. cbn [write_prefixes Nat.eqb negb app]. rewrite write_prefixes_dots.
  revert p. induction ps as [|q ps IH]; intros p; [by rewrite app_nil_r|].
  change (dots (p :: q :: ps)) with (p ++ "."%char :: dots (q :: ps)). rewrite <-IH. done.
Qed.

Lemma shows_raw k s : Shows k (write_raw k s) [([], s)].
Proof.
  intros [ps i p fr] Hf. cbn in Hf. subst fr. split; [|done].
  unfold write_raw, emit, emit_item, item_text, refresh. cbn [foldl fst snd prefixes inner previous fresh].
  rewrite write_prefixes_0, app_nil_r. by rewrite <-!app_assoc.
Qed.

Lemma write_value_any k m its f : Shows k m its → write_value m f = (emit k its (refresh f), true).
Proof.
  intros Hm. unfold write_value, refreshed. destruct (Hm (refresh f) eq_refl) as [He Hr].
  destruct (m (refresh f)) as [g r]. cbn in *. by rewrite He, Hr.
Qed.

Lemma refresh_fresh f : fresh f = true → refresh f = f.
Proof. destruct f. cbn. by intros ->. Qed.

Lemma shown_value k m its : Shows k m its → Shown k (write_value m) its.
Proof. intros Hm f Hf. by rewrite (write_value_any k m its), refresh_fresh. Qed.

Lemma emit_fresh k its f : fresh f = true → fresh (emit k its f) = true.
Proof. revert f. induction its as [|it its IH]; intros f Hf; [done|]. by apply IH. Qed.

Lemma shown_shows k m its : Shown k m its → Shows k m its.
Proof. intros Hm f Hf. rewrite Hm by done. split; [|done]. by apply refresh_fresh, emit_fresh. Qed.

Lemma shown_ok k : Shown k fmt_ok [].
Proof. by intros f Hf. Qed.

Lemma shown_then k m1 m2 l1 l2 : Shown k m1 l1 → Shown k m2 l2 → Shown k (fmt_then m1 m2) (l1 ++ l2).
Proof.
  intros H1 H2 f Hf. unfold fmt_then. rewrite H1, H2 by auto using emit_fresh.
  unfold emit. by rewrite foldl_app.
Qed.

Lemma shown_each {A} k (m : A → Fmt) (its : A → list Item) l :
  (∀ x, x ∈ l → Shown k (m x) (its x)) → Shown k (try_for_each m l) (concat (its <$> l)).
Proof.
  induction l as [|x l IH]; intros Hm; [apply shown_ok|]. cbn. apply shown_then; [apply Hm; by left|].
  apply IH. intros y Hy. apply Hm. by right.
Qed.

(** Under a prefix, items have one more name. *)
Definition under (name : str) (its : list Item) : list Item := (λ it, (name :: it.1, it.2)) <$> its.

Lemma emit_under name its f :
  let g := emit KQuery its (mkFormatter (prefixes f ++ [name]) (inner f) (previous f) true) in
  fresh f = true →
  mkFormatter (removelast (prefixes g)) (inner g) (previous g) (fresh g) = emit KQuery (under name its) f.
Proof.
  cbv zeta. revert f. induction its as [|it its IH]; intros f Hf.
  - cbn. rewrite removelast_last. destruct f. cbn in *. by subst.
  - change (emit KQuery (it :: its) ?f) with (emit KQuery its (emit_item KQuery f it)).
    change (emit KQuery (under name (it :: its)) f)
      with (emit KQuery (under name its) (emit_item KQuery f (name :: it.1, it.2))).
    rewrite <-IH by done.
    replace (emit_item KQuery (mkFormatter (prefixes f ++ [name]) (inner f) (previous f) true) it)
      with (mkFormatter (prefixes (emit_item KQuery f (name :: it.1, it.2)) ++ [name])
        (inner (emit_item KQuery f (name :: it.1, it.2)))
        (previous (emit_item KQuery f (name :: it.1, it.2))) true); [done|].
    unfold emit_item, item_text. cbn [prefixes inner previous fst snd]. by rewrite <-!app_assoc.
Qed.

Lemma write_named_any name m its f :
  Shows KQuery m its → write_named_value name m f = (emit KQuery (under name its) (refresh f), true).
Proof.
  intros Hm. unfold write_named_value, refreshed, with_prefix. cbn [refresh prefixes inner previous fresh].
  rewrite (write_value_any KQuery m its) by done. cbn [refresh prefixes inner previous fresh].
  pose proof (emit_under name its (refresh f) eq_refl) as He. cbn [refresh prefixes inner previous fresh] in He.
  f_equal. unfold refresh at 1. rewrite <-He. cbn [prefixes inner previous fresh]. f_equal.
  by rewrite emit_fresh.
Qed.

Lemma shown_named name m its : Shows KQuery m its → Shown KQuery (write_named_value name m) (under name its).
Proof. intros Hm f Hf. by rewrite (write_named_any name m its), refresh_fresh. Qed.

(** What items look like one after the other. *)
Lemma emit_join k its ps start :
  its ≠ [] →
  emit k its (mkFormatter ps start false true) =
    mkFormatter ps (start ++ join (delimiter k) (item_text k ps <$> its)) true true.
Proof.
  intros Hne. induction its as [|it its IH] using rev_ind; [done|]. clear Hne.
  unfold emit. rewrite foldl_app. fold (emit k its (mkFormatter ps start false true)).
  destruct its as [|it' its]; [done|]. rewrite IH by done. cbn [foldl]. unfold emit_item.
  cbn [prefixes inner previous]. rewrite fmap_app. cbn [fmap list_fmap]. rewrite join_snoc by done.
  by rewrite <-!app_assoc.
Qed.

(** ** Displays of values *)

(** The items of a value, whose texts are encoded. *)
Definition encoded_items (its : list Item) : list Item := (λ it, (it.1, encoded it.2)) <$> its.

Class DisplayItems (k : Kind) (T : Type) `{UriDisplay k T} := {
  items : T → list Item;
  fmt_items v : Shows k (fmt v) (encoded_items (items v));
}.

Lemma encoded_id s : Forall (λ c, reserved c = false) s → encoded s = s.
Proof.
  unfold encoded. induction 1 as [|c s Hc Hs IH]; [done|]. cbn.
  rewrite IH by done. unfold encode_byte. by rewrite Hc.
Qed.

Lemma integer_text_encoded z : encoded (integer_text z) = integer_text z.
Proof. apply encoded_id, integer_text_Forall. repeat constructor. Qed.

Section display_items.
Context `{PercentEncodeLaws}.

#[export] Instance items_str k : DisplayItems k str.
Proof.
  refine {| items s := [([], s)] |}.
  intros v. unfold fmt, display_str. rewrite percent_encode_encoded. apply shows_raw.
Defined.

#[export] Instance items_int k : DisplayItems k Z.
Proof.
  refine {| items z := [([], integer_text z)] |}.
  intros v. unfold fmt, display_int, encoded_items. cbn [fmap list_fmap fst snd].
  rewrite integer_text_encoded. apply shows_raw.
Defined.

#[export] Instance items_bool k : DisplayItems k bool.
Proof.
  refine {| items (b : bool) := [([], if b then #"true" else #"false")] |}.
  intros []; apply shows_raw.
Defined.

#[export] Instance items_either k {T U} `{DisplayItems k T} `{DisplayItems k U} : DisplayItems k (T + U).
Proof.
  refine {| items (v : T + U) := match v with inl t => items t | inr u => items u end |}.
  intros [t|u]; [exact (fmt_items t)|exact (fmt_items u)].
Defined.

#[export] Instance items_option {T} `{DisplayItems KQuery T} : DisplayItems KQuery (option T).
Proof.
  refine {| items (v : option T) := match v with Some v => items v | None => [] end |}.
  intros [v|]; [exact (fmt_items v)|apply shown_shows, shown_ok].
Defined.

Lemma encoded_items_concat (l : list (list Item)) : encoded_items (concat l) = concat (encoded_items <$> l).
Proof. induction l as [|x l IH]; [done|]. unfold encoded_items in *. cbn. by rewrite fmap_app, IH. Qed.

#[export] Instance items_vec {T} `{DisplayItems KQuery T} : DisplayItems KQuery (list T) | 10.
Proof.
  refine {| items (l : list T) := concat (items <$> l) |}.
  intros l. unfold fmt, display_vec. rewrite encoded_items_concat, <-list_fmap_compose.
  apply shown_shows. apply (shown_each KQuery _ (encoded_items ∘ items)).
  intros x _. apply shown_value, fmt_items.
Defined.

Lemma encoded_items_under name its : encoded_items (under name its) = under name (encoded_items its).
Proof. unfold encoded_items, under. by rewrite <-!list_fmap_compose. Qed.

(** The items of a map: its keys under [k:i], its values under [v:i]. *)
Fixpoint map_items {K V} `{DisplayItems KQuery K} `{DisplayItems KQuery V} (i : nat) (entries : list (K * V))
  : list Item :=
  match entries with
  | [] => []
  | (key, value) :: entries =>
    under (#"k:" ++ decimal_text i) (items key) ++ under (#"v:" ++ decimal_text i) (items value) ++
      map_items (S i) entries
  end.

Lemma map_fmt_items {K V} `{DisplayItems KQuery K} `{DisplayItems KQuery V} i (entries : list (K * V)) :
  Shown KQuery (map_fmt i entries) (encoded_items (map_items i entries)).
Proof.
  revert i. induction entries as [|[k v] entries IH]; intros i; [apply shown_ok|].
  cbn [map_fmt map_items]. unfold encoded_items. rewrite !fmap_app.
  fold (encoded_items (under (#"k:" ++ decimal_text i) (items k))).
  fold (encoded_items (under (#"v:" ++ decimal_text i) (items v))). rewrite !encoded_items_under.
  apply shown_then; [apply shown_named, fmt_items|]. apply shown_then; [apply shown_named, fmt_items|apply IH].
Qed.

(** Structures, given what their fields show. *)
Lemma struct_fmt_items (fields : list (option str * Fmt)) (its : list (list Item)) :
  Forall2 (λ f l, Shows KQuery f.2 l) fields its →
  Shown KQuery (struct_fmt fields)
    (concat (zip_with (λ f l, match f.1 with Some name => under name l | None => l end) fields its)).
Proof.
  induction 1 as [|[[name|] m] l fields its Hf _ IH]; [apply shown_ok| |]; cbn;
    (apply shown_then; [|apply IH]); [by apply shown_named|by apply shown_value].
Qed.
End display_items.

(** ** Paths that are built *)

Section paths.
Context `{PercentEncodeLaws} `{!PercentEncodingLaws} `{StablePatternLaws} `{Memchr}.

Lemma path_fmt_items p :
  Shown KPath (path_fmt p)
    (encoded_items ((λ c, ([], c)) <$> List.filter (λ c, negb (bool_decide (c = [slash]))) (path_iter p))).
Proof.
  unfold path_fmt. generalize (List.filter (λ c, negb (bool_decide (c = [slash]))) (path_iter p)) as l.
  intros l. replace (encoded_items ((λ c : str, ([], c) : Item) <$> l)) 
    with (concat ((λ c : str, [([], encoded c) : Item]) <$> l)).
  - apply (shown_each KPath _ (λ c : str, [([], encoded c) : Item])). intros c _. apply shown_value.
    rewrite percent_encode_encoded. apply shows_raw.
  - unfold encoded_items. induction l as [|c l IH]; [done|]. cbn. by rewrite IH.
Qed.

Lemma write_path_args_spec args its f :
  Forall2 (Shows KPath) args its → fresh f = true → write_path_args args f = emit KPath (concat its) f.
Proof.
  intros Ha. revert f. induction Ha as [|m l args its Hm _ IH]; intros f Hf; [done|]. cbn.
  rewrite (write_value_any KPath m l), refresh_fresh by done. cbn [fst].
  unfold emit in *. rewrite foldl_app. apply IH. by apply emit_fresh.
Qed.

Lemma plain_graphic c : plain c = true → graphic c = true ∧ c ≠ slash ∧ is_pchar c = true.
Proof.
  assert (plain c = true → (graphic c && negb (bool_decide (c = slash)) && is_pchar c) = true) as Hp
    by (all_bytes c).
  intros [[Hg Hs]%andb_true_iff Hc]%Hp%andb_true_iff. split_and!; [done| |done].
  by apply negb_true_iff, bool_decide_eq_false in Hs.
Qed.

Lemma trim_end_join_words (ws : list str) :
  ws ≠ [] → Forall (λ w, (slash ∉ w) ∧ w ≠ [] ∧ Forall (λ c, graphic c = true) w) ws →
  trim_end (join slash ws) = join slash ws.
Proof.
  intros Hne Hws. destruct ws as [|w ws _] using rev_ind; [done|]. clear Hne.
  apply Forall_app in Hws as [_ Hw]. inversion_clear Hw as [|?? (_ & Hn & Hg) _].
  destruct (exists_last Hn) as (u & c & ->). apply Forall_app in Hg as [_ Hc]. inversion_clear Hc.
  destruct ws as [|w' ws]; [by apply trim_end_snoc|].
  rewrite join_snoc by done. rewrite app_comm_cons, app_assoc. by apply trim_end_snoc.
Qed.

(** Encoded segments have bytes of paths only. *)
Lemma encoded_words (ss : list str) :
  Forall (λ s, s ≠ [] ∧ is_utf8 s = true) ss →
  Forall (λ w, (slash ∉ w) ∧ w ≠ [] ∧ Forall (λ c, graphic c = true) w) (encoded <$> ss).
Proof.
  intros Hss. apply Forall_fmap. eapply Forall_impl; [exact Hss|]. intros s [Hs _]. cbn.
  pose proof (encoded_plain s) as Hp. split_and!; [|by apply encoded_nonempty|].
  - intros Hin. rewrite Forall_forall in Hp. by apply Hp, plain_graphic in Hin as (_ & ? & _).
  - eapply Forall_impl; [exact Hp|]. intros c Hc. by apply plain_graphic in Hc as (? & _).
Qed.

(** Encoded segments, joined by slashes, are those segments again. *)
Lemma path_segments_encoded (ss : list str) :
  ss ≠ [] → Forall (λ s, s ≠ [] ∧ is_utf8 s = true) ss →
  path_segments (slash :: join slash (encoded <$> ss)) = ss.
Proof.
  intros Hne Hss. unfold path_segments. rewrite raw_segments_slash.
  pose proof (encoded_words ss Hss) as Hw.
  assert (encoded <$> ss ≠ []) as Hne' by (intros ?%fmap_nil_inv; done).
  rewrite trim_end_join_words by done.
  rewrite split_join; [|done|eapply Forall_impl; [exact Hw|naive_solver]].
  clear Hne Hne'. induction Hss as [|s ss [Hs Hu] Hss IH]; [done|].
  cbn [fmap list_fmap decode_path_segments]. inversion_clear Hw as [|?? (_ & Hn & _) Hw'].
  rewrite (proj2 (is_empty_false (encoded s)) Hn). cbn [andb]. rewrite IH by done. f_equal.
  rewrite <-percent_encode_encoded. by apply percent_decode_lossy_encoded.
Qed.
End paths.

(** ** Queries that are built *)

(** What an argument of a query stands for: a static piece, or the items of a
    display, under the name of the argument if it has one. *)
Inductive ArgSpec := SRaw (v : str) | SItems (its : list Item).

Inductive arg_shows : UriQueryArgument → ArgSpec → Prop :=
  | shows_static v : arg_shows (Raw v) (SRaw v)
  | shows_name_value n m its :
      Shows KQuery m (encoded_items its) → arg_shows (NameValue n m) (SItems (under n its))
  | shows_just_value m its : Shows KQuery m (encoded_items its) → arg_shows (Value m) (SItems its).

Definition spec_items (a : ArgSpec) : list Item :=
  match a with SRaw v => [([], v)] | SItems its => encoded_items its end.

(** The texts between the [&]s of the query, and the fields they denote. *)
Definition spec_fields `{Memchr} `{PercentEncoding} (a : ArgSpec) : list ValueField :=
  match a with
  | SRaw v => [decoded_field v]
  | SItems its => (λ it, field_from (dots it.1, it.2)) <$> its
  end.

Definition name_byte (c : ascii) : bool :=
  is_ascii c && negb (bool_decide (c ∈ ["%"; "+"; "&"; "="]%char)).

Definition spec_ok (a : ArgSpec) : Prop :=
  match a with
  | SRaw v => v ≠ [] ∧ ("&"%char ∉ v)
  | SItems its =>
    Forall (λ it, it.1 ≠ [] ∧ Forall (Forall (λ c, name_byte c = true)) it.1 ∧ is_utf8 it.2 = true) its
  end.

(** No static piece directly follows another. *)
Fixpoint separated (args : list UriQueryArgument) : bool :=
  match args with
  | Raw _ :: ((Raw _ :: _) as args) => false
  | _ :: args => separated args
  | [] => true
  end.

Section queries.
Context `{PercentEncodeLaws} `{!PercentEncodingLaws} `{MemchrLaws}.

Lemma write_query_args_spec args specs f :
  Forall2 arg_shows args specs → separated args = true →
  match args with Raw _ :: _ => fresh f = true | _ => True end →
  refresh (foldl write_query_arg f args) = emit KQuery (concat (spec_items <$> specs)) (refresh f).
Proof.
  intros Ha. revert f. induction Ha as [|a sp args specs Hs Ha IH]; intros f Hsep Hf; [done|].
  cbn [foldl fmap list_fmap concat]. unfold emit. rewrite foldl_app.
  change (foldl (emit_item KQuery)) with (λ f its, emit KQuery its f). cbv beta.
  destruct Hs as [v|n m its Hm|m its Hm].
  - rewrite IH; [|by destruct args as [|[]]|by destruct args as [|[]]]. f_equal.
    cbn [write_query_arg spec_items]. rewrite (refresh_fresh f) by done. by apply (shows_raw KQuery v f).
  - rewrite IH; [|done|]; cbn [write_query_arg spec_items];
      rewrite (write_named_any n m (encoded_items its)) by done; cbn [fst].
    + rewrite encoded_items_under. f_equal. apply refresh_fresh. by apply emit_fresh.
    + destruct args as [|[]]; try done. by apply emit_fresh.
  - rewrite IH; [|done|]; cbn [write_query_arg spec_items];
      rewrite (write_value_any KQuery m (encoded_items its)) by done; cbn [fst].
    + f_equal. apply refresh_fresh. by apply emit_fresh.
    + destruct args as [|[]]; try done. by apply emit_fresh.
Qed.

Lemma name_byte_decode s : Forall (λ c, name_byte c = true) s → cow_value (url_decode_lossy s) = s.
Proof.
  intros Hs. assert (("+"%char ∉ s) ∧ ("%"%char ∉ s) ∧ Forall (λ c, is_ascii c = true) s) as (Hp & Hc & Ha).
  { rewrite !Forall_forall in *. unfold name_byte in Hs. split_and!.
    - intros Hin. by apply Hs in Hin.
    - intros Hin. by apply Hs in Hin.
    - intros c Hin. apply Hs, andb_true_iff in Hin. tauto. }
  unfold url_decode_lossy. assert (cow_value (_replace_plus s) = s) as Hr.
  { rewrite _replace_plus_spec. clear Hs Hc Ha. induction s as [|c s IH]; [done|]. cbn.
    rewrite IH by set_solver. unfold replace_byte. by rewrite decide_False by set_solver. }
  pose proof (percent_decode_plain s Ha Hc) as Hd. rewrite Hr.
  destruct (percent_decode_utf8_lossy s); [done|exact Hd].
Qed.

Lemma encoded_url_decode s : is_utf8 s = true → cow_value (url_decode_lossy (encoded s)) = s.
Proof.
  intros Hs. unfold url_decode_lossy. assert (cow_value (_replace_plus (encoded s)) = encoded s) as Hr.
  { rewrite _replace_plus_spec. pose proof (encoded_plain s) as Hp.
    induction Hp as [|c t Hc Ht IH]; [done|]. cbn. rewrite IH. f_equal. unfold replace_byte.
    rewrite decide_False; [done|]. intros ->. discriminate. }
  pose proof (percent_decode_utf8 (encoded s)) as Hd. rewrite percent_decode_encoded in Hd.
  specialize (Hd Hs). rewrite Hr. destruct (percent_decode_utf8_lossy (encoded s)) as [t|t] eqn:Ht; [|exact Hd].
  apply percent_decode_borrowed in Ht as ->. rewrite Hr. exact Hd.
Qed.

Lemma dots_names ns :
  Forall (Forall (λ c, name_byte c = true)) ns → Forall (λ c, name_byte c = true) (dots ns).
Proof.
  induction 1 as [|n ns Hn Hns IH]; [constructor|]. destruct ns as [|m ns]; [exact Hn|].
  change (dots (n :: m :: ns)) with (n ++ "."%char :: dots (m :: ns)).
  apply Forall_app. split; [done|]. by constructor.
Qed.

Lemma name_byte_ne c : name_byte c = true → c ≠ "="%char ∧ c ≠ "&"%char.
Proof. intros Hc. by split; intros ->. Qed.

(** A named item is a piece that parses to its name and its value. *)
Lemma item_piece ns s :
  ns ≠ [] → Forall (Forall (λ c, name_byte c = true)) ns → is_utf8 s = true →
  let piece := item_text KQuery [] (ns, encoded s) in
  piece ≠ [] ∧ ("&"%char ∉ piece) ∧ decoded_field piece = field_from (dots ns, s).
Proof.
  intros Hne Hns Hs. cbv zeta. unfold item_text. cbn [fst snd app]. rewrite bool_decide_eq_true_2 by done.
  rewrite (proj2 (is_empty_false ns) Hne). cbn [negb andb]. rewrite <-app_assoc.
  change (#"=" ++ encoded s) with ("="%char :: encoded s).
  pose proof (dots_names ns Hns) as Hd. split_and!.
  - by intros [_ ?]%app_eq_nil.
  - intros [Hin|Hin]%elem_of_app.
    + rewrite Forall_forall in Hd. by apply Hd, name_byte_ne in Hin as [? ?].
    + apply elem_of_cons in Hin as [|Hin]; [done|]. pose proof (encoded_plain s) as Hp.
      rewrite Forall_forall in Hp. by apply Hp in Hin.
  - unfold decoded_field. rewrite split_at_byte_app.
    + by rewrite (name_byte_decode (dots ns)), encoded_url_decode.
    + done.
    + intros Hin. rewrite Forall_forall in Hd. by apply Hd, name_byte_ne in Hin as [? ?].
Qed.

(** The pieces of the arguments, and their fields. *)
Lemma spec_pieces a :
  spec_ok a →
  Forall (λ it, item_text KQuery [] it ≠ [] ∧ ("&"%char ∉ item_text KQuery [] it)) (spec_items a) ∧
  (decoded_field ∘ item_text KQuery []) <$> spec_items a = spec_fields a.
Proof.
  destruct a as [v|its]; cbn [spec_ok spec_items spec_fields].
  - intros [Hv Ha]. split; [|done]. by repeat constructor.
  - intros Hok. unfold encoded_items. rewrite <-list_fmap_compose. split.
    + apply Forall_fmap. eapply Forall_impl; [exact Hok|]. intros [ns s] (Hne & Hns & Hs).
      destruct (item_piece ns s Hne Hns Hs) as (? & ? & _). done.
    + induction Hok as [|[ns s] its (Hne & Hns & Hs) Hok IH]; [done|]. cbn [fmap list_fmap]. f_equal; [|exact IH].
      destruct (item_piece ns s Hne Hns Hs) as (_ & _ & He). exact He.
Qed.
End queries.

(** ** Properties *)

Section properties.
Context `{PercentEncodeLaws} `{!PercentEncodingLaws} `{StablePatternLaws} `{MemchrLaws} `{PearLaws}.

(** The path of a normalized origin. *)
Lemma normalized_path o :
  Origin_valid o → ∃ t, path (into_normalized o) = slash :: t ∧ Forall (λ c, is_pchar c = true) (slash :: t).
Proof.
  intros (Hs & Hp & _). cbn [fst snd] in Hs, Hp. pose proof (normalize_path_normalized o) as Hn.
  destruct (normalized_path_slash _ Hn) as [t Ht]. exists t. split; [done|].
  rewrite <-Ht. simpl. apply starts_with_slash in Hs as [u Hu].
  case_match; [|done]. rewrite Hu in *. apply to_normalized_bytes. by inversion Hp.
Qed.

(** The path that the builder writes. *)
Lemma built_path (args : list Fmt) (its : list (list Item)) query :
  Forall2 (λ m l, Shows KPath m (encoded_items l)) args its →
  concat its ≠ [] →
  builder_path (builder_new (DynamicArgs args) query) = slash :: join slash (encoded <$> (snd <$> concat its)).
Proof.
  intros Ha Hne. unfold builder_new. cbn [builder_path].
  rewrite (write_path_args_spec args (encoded_items <$> its)); [| |done].
  - rewrite <-encoded_items_concat. unfold formatter_new. rewrite emit_join.
    + cbn [inner app]. f_equal. f_equal. unfold encoded_items. rewrite <-!list_fmap_compose. done.
    + unfold encoded_items. by intros Hn%fmap_nil_inv.
  - clear -Ha. induction Ha; constructor; auto.
Qed.

Lemma encoded_pchars (values : list str) : Forall (λ c, is_pchar c = true) (slash :: join slash (encoded <$> values)).
Proof.
  constructor; [done|]. apply Forall_join; [done|]. apply Forall_fmap, Forall_forall. intros s _. cbn.
  eapply Forall_impl; [apply encoded_plain|]. intros c Hc. by apply plain_graphic in Hc as (_ & _ & ?).
Qed.

(** Paths round trip: whatever values fill the dynamic parts of a route, the
    path that the builder writes is made of path bytes and its segments, once
    decoded, are the values again, slashes and percent signs included, as long
    as they are not empty. *)
Theorem built_path_segments (args : list Fmt) (its : list (list Item)) query :
  Forall2 (λ m l, Shows KPath m (encoded_items l)) args its →
  let values := snd <$> concat its in
  values ≠ [] → Forall (λ s, s ≠ [] ∧ is_utf8 s = true) values →
  let o := builder_render (builder_new (DynamicArgs args) query) in
  origin_segments o = values ∧ Forall (λ c, is_pchar c = true) (path o).
Proof.
  intros Ha values Hne Hv o. unfold origin_segments, o, builder_render. cbn [path].
  rewrite (built_path args its) by (done || by intros Hn; apply Hne; unfold values; rewrite Hn).
  split; [by apply path_segments_encoded|apply encoded_pchars].
Qed.

(** Queries round trip: when no static piece of a route's query directly
    follows another, the query that the builder writes parses, as a form, to the
    static fields and, for each value shown under a name, a field of that name
    (dots between nested names) and that value, in order; it has none exactly
    when there is nothing to show. *)
Theorem built_query_fields path_args (args : list UriQueryArgument) (specs : list ArgSpec) :
  Forall2 arg_shows args specs → separated args = true → Forall spec_ok specs →
  match builder_query (builder_new path_args (Some (DynamicArgs args))) with
  | Some q => fields q = Some (concat (spec_fields <$> specs))
  | None => concat (spec_fields <$> specs) = []
  end.
Proof.
  intros Ha Hsep Hok. unfold builder_new. cbn [builder_query].
  assert (inner (foldl write_query_arg (formatter_new []) args) =
    inner (emit KQuery (concat (spec_items <$> specs)) (formatter_new []))) as ->.
  { pose proof (write_query_args_spec args specs (formatter_new []) Ha Hsep) as He.
    rewrite (refresh_fresh (formatter_new [])) in He by done. rewrite <-He; [done|].
    by destruct args as [|[]]. }
  assert (decoded_field <$> (item_text KQuery [] <$> concat (spec_items <$> specs)) = concat (spec_fields <$> specs) ∧
    Forall (λ it, item_text KQuery [] it ≠ [] ∧ ("&"%char ∉ item_text KQuery [] it)) (concat (spec_items <$> specs)))
    as [<- Ht].
  { clear Ha. induction Hok as [|a specs Hs Hok [IH1 IH2]]; [done|]. cbn.
    destruct (spec_pieces a Hs) as [Hf <-]. rewrite !fmap_app, IH1, list_fmap_compose. split; [done|].
    by apply Forall_app. }
  destruct (concat (spec_items <$> specs)) as [|it its] eqn:Hits; [done|].
  unfold formatter_new. rewrite emit_join by done. cbn [inner app].
  set (texts := item_text KQuery [] <$> (it :: its)) in *.
  assert (Forall (λ w, w ≠ []) texts ∧ Forall (λ w, "&"%char ∉ w) texts) as [Hn Hd].
  { unfold texts. rewrite !Forall_fmap. split; (eapply Forall_impl; [exact Ht|]); naive_solver. }
  assert (pieces (join "&" texts) = texts) as Hp.
  { unfold pieces. rewrite split_join by done. by apply filter_nonempty_id. }
  assert (join "&" texts ≠ []) as Hj.
  { intros He. rewrite He in Hp. by rewrite <-Hp in Hn. }
  cbn [delimiter]. rewrite (proj2 (is_empty_false _) Hj). cbn [negb].
  unfold fields. by rewrite parser_run_spec, Hp by lia.
Qed.

(** The words of a path after a base. *)
Lemma append_words (base : Origin) t q :
  Origin_valid base → Forall (λ c, is_pchar c = true) (slash :: t) →
  let o := origin_append base (slash :: t) q in
  words (path o) = words (path base) ++ words (slash :: t) ∧ query o = q ∧
  starts_with [slash] (path o) = true ∧ Forall (λ c, is_pchar c = true) (path o).
Proof.
  intros Hb Ht o. destruct (normalized_path base Hb) as (u & Hu & Hpu).
  pose proof (words_normalize base) as Hw. rewrite Hu in Hw.
  assert (Forall (λ c, graphic c = true) u) as Hg by (inversion_clear Hpu; by apply pchars_graphic).
  unfold o, origin_append. unfold clear_query, set_query. cbn [path]. rewrite Hu.
  case_bool_decide as Hr1.
  { injection Hr1 as ->. cbn [path query]. by rewrite <-Hw, words_root. }
  case_bool_decide as Hr2.
  { injection Hr2 as ->. cbn [path query]. by rewrite <-Hw, words_root, app_nil_r. }
  cbn [path query]. unfold has_trailing_slash. cbn [path].
  replace (starts_with [slash] (slash :: t)) with true by done. rewrite andb_true_r.
  destruct (_ && sp_is_suffix_of [slash] (slash :: u)) eqn:Hs; cbn [path query].
  - apply andb_true_iff in Hs as [_ Hs]. rewrite sp_is_suffix_of_spec in Hs. apply ends_with_spec in Hs as [v Hv].
    destruct v as [|c v]; [by injection Hv as ->|]. injection Hv as <- ->.
    apply Forall_app in Hg as [Hg _].
    rewrite <-Hw, words_app, words_root, app_nil_r by done. cbn [drop].
    rewrite <-app_comm_cons, <-app_assoc. cbn [app]. rewrite words_app by done. split_and!; [done..|].
    inversion_clear Hpu as [|?? _ Hv]. apply Forall_app in Hv as [? _]. constructor; [done|]. by apply Forall_app.
  - rewrite <-app_comm_cons, words_app, Hw by done. split_and!; [done..|].
    inversion_clear Hpu. constructor; [done|]. by apply Forall_app.
Qed.
(** Prefixing: a URI built after a base has the segments of the base
    followed by those of the route's path, the route's query, and a path that
    is a valid one, whether or not base and path have slashes at the joint. *)
Theorem origin_append_words (base : Origin) t q :
  Origin_valid base → Forall (λ c, is_pchar c = true) (slash :: t) →
  let o := origin_append base (slash :: t) q in
  words (path o) = words (path base) ++ words (slash :: t) ∧ query o = q ∧
  starts_with [slash] (path o) = true ∧ Forall (λ c, is_pchar c = true) (path o).
Proof. apply append_words. Qed.
End properties.

Module UriFmtReference.
Import Crates.Reference.

(** Sets as predicates. *)
#[export] Instance encode_ref : PercentEncode := {|
  AsciiSet := ascii → bool;
  CONTROLS := λ c, (nat_of_ascii c <? 32)%nat || (nat_of_ascii c =? 127)%nat;
  set_add b s := λ c, bool_decide (c = b) || s c;
  set_remove b s := λ c, negb (bool_decide (c = b)) && s c;
  utf8_percent_encode s t := concat ((λ c, if negb (is_ascii c) || s c then percent_byte c else [c]) <$> t);
|}.

#[export] Instance encode_laws : PercentEncodeLaws.
Proof. by refine {| mem := (λ s c, s c) |}. Defined.

(** Static pieces that follow each other run together. *)
Lemma adjacent_statics_merge :
  builder_query (builder_new (StaticArgs #"/")
    (Some (DynamicArgs [Raw #"a=1"; Raw #"b=2"; NameValue #"c" (fmt (k:=KQuery) 3%Z)]))) = Some #"a=1b=2&c=3".
Proof. by vm_compute. Qed.

(** A static segment, a text and a number. *)
Example built_path_witness :
  origin_segments (builder_render (builder_new (DynamicArgs [fmt (k:=KPath) #"a"; fmt (k:=KPath) #"x/y %2F"; fmt (k:=KPath) 5%Z]) None)) =
    [ #"a"; #"x/y %2F"; #"5"].
Proof.
  refine (proj1 (built_path_segments [fmt (k:=KPath) #"a"; fmt (k:=KPath) #"x/y %2F"; fmt (k:=KPath) 5%Z] [items (k:=KPath) #"a"; items (k:=KPath) #"x/y %2F"; items (k:=KPath) 5%Z] None _ _ _)).
  - do 3 (constructor; [apply fmt_items|]). constructor.
  - discriminate.
  - repeat constructor; discriminate.
Defined.

(** A static piece, an optional value and a map. *)
Example built_query_witness :
  let args := [Raw #"lang=en"; NameValue #"q" (fmt (k:=KQuery) (Some #"a&b=c"));
               NameValue #"m" (map_fmt 0 [(#"x", 1%Z)])] in
  match builder_query (builder_new (StaticArgs #"/") (Some (DynamicArgs args))) with
  | Some q => fields q = Some [field_from (#"lang", #"en"); field_from (#"q", #"a&b=c");
                               field_from (#"m.k:0", #"x"); field_from (#"m.v:0", #"1")]
  | None => False
  end.
Proof.
  intros args.
  assert (Forall2 arg_shows args [SRaw #"lang=en"; SItems (under #"q" (items (k:=KQuery) (Some #"a&b=c")));
    SItems (under #"m" (map_items 0 [(#"x", 1%Z)]))]) as Ha.
  { constructor; [constructor|]. constructor; [constructor; apply fmt_items|].
    constructor; [constructor; apply shown_shows, map_fmt_items|constructor]. }
  pose proof (built_query_fields (StaticArgs #"/") args _ Ha eq_refl) as Hf.
  destruct (builder_query _) as [q|] eqn:Hq; [|vm_compute in Hq; discriminate].
  rewrite Hf; [reflexivity|].
  repeat (constructor || split || discriminate || reflexivity). intros Hin. repeat (inversion Hin as [|? ? ? Hin']; clear Hin; rename Hin' into Hin).
Defined.

Example origin_append_witness :
  words (path (origin_append (Origin_new #"/a//b/" None) #"/c" (Some #"d"))) = [ #"a"; #"b"; #"c"].
Proof.
  change #"/c" with (slash :: #"c").
  destruct (origin_append_words (Origin_new #"/a//b/" None) #"c" (Some #"d")) as (-> & _); [|repeat constructor|reflexivity].
  split; [reflexivity|]. split; [repeat constructor|discriminate].
Defined.
End UriFmtReference.
