(* ===== verification/FormError.v ===== *)
(** * FormError: form errors (core/lib/src/form/error.rs)

    Errors of the standard library are their messages, except those of integers,
    of which the kind is kept, and I/O errors, which are compared by their
    kinds.  The messages of [multer] and the texts of [ubyte] are those crates'. *)

From S2P Require Import Prelude Crates RawStr Status Params FormName.

(** ** Kinds of errors *)

(** [multer::Error], with the variants the code names. *)
Inductive MulterError :=
  | UnknownField (field_name : option str)
  | FieldSizeExceeded (limit : Z) (field_name : option str)
  | StreamSizeExceeded (limit : Z)
  | IncompleteFieldData (field_name : option str)
  | IncompleteStream
  | IncompleteHeaders
  | OtherMulter (message : str).

(** The [multer] and [ubyte] crates. *)
Class FormCrates := {
  multer_display : MulterError → str;
  multer_eq : MulterError → MulterError → bool;
  byte_unit_display : Z → str;
}.

(** [enum Entity]. *)
Inductive Entity :=
  | Form | Field | EValueField | EDataField | EName | EValue | EKey | Index (k : nat).

#[export] Instance Entity_eq_dec : EqDecision Entity.
Proof. solve_decision. Defined.

(** [enum ErrorKind]; [u64] and [isize] bounds are numbers. *)
Inductive ErrorKind :=
  | InvalidLength (min max : option Z)
  | InvalidChoice (choices : list str)
  | OutOfRange (start stop : option Z)
  | Validation (msg : str)
  | Duplicate
  | Missing
  | Unexpected
  | Unknown
  | Custom (status : Status) (e : str)
  | Multipart (e : MulterError)
  | Utf8 (e : str)
  | Char (e : str)
  | Int (e : IntErrorKind)
  | Bool (e : str)
  | Float (e : str)
  | Addr (e : str)
  | Io (io_kind : nat) (e : str).

(** [Entity::default_for]. *)
Definition default_for (kind : ErrorKind) : Entity :=
  match kind with
  | InvalidLength _ _ | InvalidChoice _ | OutOfRange _ _ | Validation _ | Utf8 _ | Char _ | Int _
  | Float _ | Bool _ | Custom _ _ | Addr _ => EValue
  | Duplicate | Missing | Unknown | Unexpected => Field
  | Multipart _ | Io _ _ => Form
  end.

(** [struct Error], [struct Errors]. *)
Record Error := mkError {
  error_name : option NameBuf;
  error_value : option str;
  error_kind : ErrorKind;
  entity : Entity;
}.

Definition Errors : Type := list Error.

(** [impl From<T> for Error], for what an [ErrorKind] is made from. *)
Definition error_from (kind : ErrorKind) : Error := mkError None None kind (default_for kind).

(** [impl From<T> for Errors], for what an [Error] is made from. *)
Definition errors_from (e : Error) : Errors := [e].

(** [Error::validation], and [Error::custom] of an error with its message. *)
Definition validation (msg : str) : Error := error_from (Validation msg).
Definition custom (message : str) : Error := error_from (Custom Status.UnprocessableEntity message).

(** [impl From<&Name> for NameBuf], [From<&str>], [From<(Option<&Name>, _)>]. *)
Definition buf_from_name (name : str) : NameBuf := NameBuf_new name [].
Definition buf_from_str (name : str) : NameBuf := NameBuf_new [] name.
Definition buf_from_pair (prefix : option str) (suffix : str) : NameBuf :=
  NameBuf_new (default [] prefix) suffix.

(** [Error::set_entity], [set_name], [set_value] and their [with_] variants. *)
Definition with_entity (entity : Entity) (self : Error) : Error :=
  mkError (error_name self) (error_value self) (error_kind self) entity.

Definition with_name (name : NameBuf) (self : Error) : Error :=
  match error_name self with
  | None => mkError (Some name) (error_value self) (error_kind self) (entity self)
  | Some _ => self
  end.

Definition with_value (value : str) (self : Error) : Error :=
  match error_value self with
  | None => mkError (error_name self) (Some value) (error_kind self) (entity self)
  | Some _ => self
  end.

(** [Errors::set_name], [set_value]. *)
Definition errors_with_name (name : NameBuf) (self : Errors) : Errors :=
  (λ error, match error_name error with None => with_name name error | Some _ => error end) <$> self.

Definition errors_with_value (value : str) (self : Errors) : Errors := with_value value <$> self.

(** [Error::status]. *)
Definition status (self : Error) : Status :=
  match error_kind self with
  | InvalidLength None _ => Status.PayloadTooLarge
  | Multipart (FieldSizeExceeded _ _) => Status.PayloadTooLarge
  | Multipart (StreamSizeExceeded _) => Status.PayloadTooLarge
  | Unknown => Status.InternalServerError
  | Io _ _ => if decide (entity self = Form) then Status.BadRequest else Status.UnprocessableEntity
  | Custom status _ => status
  | _ => Status.UnprocessableEntity
  end.

(** [Ord for Status]: [std::cmp::max] has its second argument when the codes
    are equal, as [Iterator::max] has the last. *)
Definition status_max (a b : Status) : Status :=
  if (code a <=? code b)%Z then b else a.

(** [Errors::status]. *)
Definition errors_status (self : Errors) : Status :=
  match status <$> self with
  | [] => Status.InternalServerError
  | s :: statuses => foldl status_max s statuses
  end.

(** ** Names *)

(** The keys of a [NameBuf] one after the other: those of its two parts. *)
Section names.
Context `{Memchr} `{PercentEncoding}.

(** [NameBuf::is_empty]. *)
Definition buf_is_empty (self : NameBuf) : bool := is_empty (left self) && is_empty (right self).

(** The loop of [Error::is_for]: the keys of the error against those of the
    name. *)
Fixpoint is_for_loop (e_keys n_keys : list str) : bool :=
  match e_keys, n_keys with
  | e :: e_keys, n :: n_keys => if bool_decide (e = n) then is_for_loop e_keys n_keys else false
  | _ :: _, [] => false
  | [], _ => true
  end.

(** [Error::is_for]; [None] when the keys of a name do not end. *)
Definition is_for (name : str) (self : Error) : option bool :=
  match error_name self with
  | None => Some false
  | Some e_name =>
    if negb (Bool.eqb (buf_is_empty e_name) (is_empty name)) then Some false
    else e_keys ← buf_keys e_name; n_keys ← keys name; Some (is_for_loop e_keys n_keys)
  end.

(** [Error::is_for_exactly], with [PartialEq<NameBuf> for Name]. *)
Definition is_for_exactly (name : str) (self : Error) : option bool :=
  match error_name self with
  | None => Some false
  | Some n => n_keys ← keys name; e_keys ← buf_keys n; Some (bool_decide (n_keys = e_keys))
  end.

(** [PartialEq for NameBuf]. *)
Definition buf_eq (a b : NameBuf) : option bool :=
  a_keys ← buf_keys a; b_keys ← buf_keys b; Some (bool_decide (a_keys = b_keys)).
End names.

(** ** Conversions and texts *)

Section texts.
Context `{FormCrates}.

(** [impl From<multer::Error> for Error]. *)
Definition from_multer (error : MulterError) : Error :=
  let incomplete := error_from (InvalidLength None None) in
  match error with
  | UnknownField (Some name) => with_name (buf_from_str name) (error_from Unexpected)
  | UnknownField None => error_from Unexpected
  | FieldSizeExceeded limit field_name =>
    let e := error_from (InvalidLength None (Some limit)) in
    match field_name with
    | Some name => with_name (buf_from_str name) e
    | None => e
    end
  | StreamSizeExceeded limit => with_entity Form (error_from (InvalidLength None (Some limit)))
  | IncompleteFieldData (Some name) => with_name (buf_from_str name) incomplete
  | IncompleteFieldData None => incomplete
  | IncompleteStream | IncompleteHeaders => with_entity Form incomplete
  | e => error_from (Multipart e)
  end.

(** [Display for ParseIntError]. *)
Definition parse_int_display (e : IntErrorKind) : str :=
  match e with
  | EmptyInt => #"cannot parse integer from empty string"
  | InvalidDigit => #"invalid digit found in string"
  | PosOverflow => #"number too large to fit in target type"
  | NegOverflow => #"number too small to fit in target type"
  | ZeroInt => #"number would be zero for non-zero type"
  end.

(** The choices of a [Display], separated. *)
Fixpoint choices_display (i : nat) (choices : list str) : str :=
  match choices with
  | [] => []
  | choice :: choices =>
    (if (i =? 0)%nat then [] else #", ") ++ #"`" ++ choice ++ #"`" ++ choices_display (S i) choices
  end.

(** [Display for ErrorKind]. *)
Definition kind_display (self : ErrorKind) : str :=
  match self with
  | InvalidLength min max =>
    match min, max with
    | None, None => #"invalid length: incomplete"
    | None, Some k =>
      if (k <? 1024)%Z then #"length cannot exceed " ++ integer_text k
      else #"size must not exceed " ++ byte_unit_display k
    | Some k, None =>
      if decide (k = 1%Z) then #"cannot be empty"
      else if (k <? 1024)%Z then #"expected at least " ++ integer_text k
      else #"size must be at least " ++ byte_unit_display k
    | Some i, Some j =>
      if (i <? 1024)%Z && (j <? 1024)%Z then
        #"length must be between " ++ integer_text i ++ #" and " ++ integer_text j
      else #"size must be between " ++ byte_unit_display i ++ #" and " ++ byte_unit_display j
    end
  | InvalidChoice choices =>
    match choices with
    | [] => #"invalid choice"
    | [choice] => #"expected " ++ choice
    | _ => #"expected one of " ++ choices_display 0 choices
    end
  | OutOfRange start stop =>
    match start, stop with
    | None, None => #"value is out of range"
    | None, Some k => #"value cannot exceed " ++ integer_text k
    | Some k, None => #"value must be at least " ++ integer_text k
    | Some i, Some j => #"value must be between " ++ integer_text i ++ #" and " ++ integer_text j
    end
  | Validation msg => msg
  | Duplicate => #"duplicate"
  | Missing => #"missing"
  | Unexpected => #"unexpected"
  | Unknown => #"unknown internal error"
  | Custom _ e => e
  | Multipart e => #"invalid multipart: " ++ multer_display e
  | Utf8 e => #"invalid UTF-8: " ++ e
  | Char e => #"invalid character: " ++ e
  | Int e => #"invalid integer: " ++ parse_int_display e
  | Bool e => #"invalid boolean: " ++ e
  | Float e => #"invalid float: " ++ e
  | Addr e => #"invalid address: " ++ e
  | Io _ e => #"i/o error: " ++ e
  end.

(** [Display for Entity], [Error], [Errors]. *)
Definition entity_display (self : Entity) : str :=
  match self with
  | Form => #"form" | Field => #"field" | EValueField => #"value field"
  | EDataField => #"data field" | EName => #"name" | EValue => #"value" | EKey => #"key"
  | Index k => #"index " ++ decimal_text k
  end.

Definition error_display (self : Error) : str := kind_display (error_kind self).

Definition errors_display (self : Errors) : str :=
  decimal_text (length self) ++ #" error(s):" ++
  concat ((λ error, "010"%char :: error_display error) <$> self).

(** [PartialEq for ErrorKind]. *)
Definition kind_eq (self other : ErrorKind) : bool :=
  match self, other with
  | InvalidLength a b, InvalidLength min max => bool_decide (min = a) && bool_decide (max = b)
  | InvalidChoice a, InvalidChoice choices => bool_decide (choices = a)
  | OutOfRange a b, OutOfRange start stop => bool_decide (start = a) && bool_decide (stop = b)
  | Validation a, Validation b => bool_decide (a = b)
  | Duplicate, Duplicate | Missing, Missing | Unexpected, Unexpected => true
  | Custom a _, Custom b _ => bool_decide (code a = code b)
  | Multipart a, Multipart b => multer_eq a b
  | Utf8 a, Utf8 b => bool_decide (a = b)
  | Int a, Int b => bool_decide (a = b)
  | Bool a, Bool b => bool_decide (a = b)
  | Float a, Float b => bool_decide (a = b)
  | Addr a, Addr b => bool_decide (a = b)
  | Io a _, Io b _ => bool_decide (a = b)
  | _, _ => false
  end.

(** [IntoOwned]: every part is the same, owned. *)
Definition error_into_owned (self : Error) : Error :=
  mkError (buf_into_owned <$> error_name self) (error_value self) (error_kind self) (entity self).

Definition errors_into_owned (self : Errors) : Errors := error_into_owned <$> self.
End texts.
