(* ===== verification/FromForm.v ===== *)
(** * FromForm: the push parsers of forms (core/lib/src/form/from_form.rs,
    from_form_field.rs, strict.rs, lenient.rs, options.rs, form.rs)

    The trait [FromForm] is a class: a context is made, changed by each field
    that is pushed, and finalized.  Everything of a data field but its name is a
    parameter.  A [Result] is a sum with the errors on the left. *)

From S2P Require Import Prelude Crates RawStr Params FormName FormError FormParser.

(** [struct Options]. *)
Record Options := mkOptions { strict : bool }.
Definition Lenient : Options := mkOptions false.
Definition Strict : Options := mkOptions true.

(** [struct DataField], with [D] its file name, content type and data. *)
Record DataField (D : Type) := mkDataField { data_name : NameView; data_rest : D }.
Arguments mkDataField {D}.
Arguments data_name {D}.
Arguments data_rest {D}.

Definition Result (T : Type) : Type := Errors + T.

Definition is_ok {T} (r : Result T) : option T := match r with inl _ => None | inr v => Some v end.
Definition err {T} (r : Result T) : Errors := match r with inl e => e | inr _ => [] end.

(** [trait FromForm]. *)
Class FromForm (D T : Type) := {
  Context : Type;
  init : Options → Context;
  push_value : ValueField → Context → Context;
  push_data : DataField D → Context → Context;
  push_error : Error → Context → Context;
  finalize : Context → Result T;
}.
Arguments Context {D} T {_}.
Arguments init {D} T {_}.
Arguments push_value {D} T {_}.
Arguments push_data {D} T {_}.
Arguments push_error {D} T {_}.
Arguments finalize {D} T {_}.

(** [FromForm::default]. *)
Definition default_of {D} (T : Type) `{FromForm D T} (opts : Options) : option T :=
  is_ok (finalize T (init T opts)).

(** What is pushed. *)
Inductive Pushed (D : Type) :=
  | PValue (field : ValueField)
  | PData (field : DataField D)
  | PError (e : Error).
Arguments PValue {D}.
Arguments PData {D}.
Arguments PError {D}.

Section fields.
Context `{Memchr} `{PercentEncoding}.

(** [DataField::shift], [unexpected], and [ValueField::unexpected], [missing]
    (core/lib/src/form/field.rs). *)
Definition data_shift {D} (self : DataField D) : DataField D :=
  mkDataField (view_shift (data_name self)) (data_rest self).

Definition data_unexpected {D} (self : DataField D) : Error :=
  with_entity EDataField (with_name (buf_from_name (source (data_name self))) (error_from Unexpected)).

Definition value_unexpected (self : ValueField) : Error :=
  with_entity EValueField (with_value (field_value self)
    (with_name (buf_from_name (source (field_name self))) (error_from Unexpected))).

Definition value_missing (self : ValueField) : Error :=
  with_entity EValueField (with_value (field_value self)
    (with_name (buf_from_name (source (field_name self))) (error_from Missing))).

(** A push, and a whole parse. *)
Definition push {D T} `{FF : FromForm D T} (ctxt : Context T) (p : Pushed D) : Context T :=
  match p with
  | PValue field => push_value T field ctxt
  | PData field => push_data T field ctxt
  | PError e => push_error T e ctxt
  end.

Definition run_parser {D} (T : Type) `{FF : FromForm D T} (opts : Options) (ps : list (Pushed D)) : Result T :=
  finalize T (foldl push (init T opts) ps).

Definition pushed_shift {D} (p : Pushed D) : Pushed D :=
  match p with
  | PValue field => PValue (field_shift field)
  | PData field => PData (data_shift field)
  | PError e => PError e
  end.

(** [Form::parse_iter], [parse], [parse_encoded]. *)
Definition parse_iter {D} (T : Type) `{FromForm D T} (fields : list ValueField) : Result T :=
  finalize T (foldl (λ ctxt field, push_value T field ctxt) (init T Lenient) fields).

Definition parse {D} (T : Type) `{FromForm D T} (string : str) : Result T :=
  parse_iter (D:=D) T (values string).

Definition parse_encoded {D} (T : Type) `{FromForm D T} (string : str) : option (Result T) :=
  fields ← fields string;
  Some (match finalize T (foldl (λ ctxt field, push_value T field ctxt) (init T Lenient) fields) with
        | inl e => inl (errors_into_owned e)
        | inr value => inr value
        end).

(** [FromData for Form], once the parser is made: what it yields is pushed, and
    the errors' status goes with them. *)
Definition form_from_data {D} (T : Type) `{FromForm D T}
    (next : list (Error + (ValueField + DataField D))) : (Status.Status * Errors) + T :=
  let context := foldl (λ context field,
    match field with
    | inr (inl value) => push_value T value context
    | inr (inr data) => push_data T data context
    | inl e => push_error T e context
    end) (init T Lenient) next in
  match finalize T context with
  | inr value => inr value
  | inl e => inl (errors_status e, e)
  end.
End fields.

(** ** Single fields *)

(** [trait FromFormField]. *)
Class FromFormField (D T : Type) := {
  from_value : ValueField → Result T;
  from_data : DataField D → Result T;
  field_default : option T;
}.
Arguments from_value {D} T {_}.
Arguments from_data {D} T {_}.
Arguments field_default {D} T {_}.

(** [struct FromFieldContext]. *)
Record FromFieldContext (T : Type) := mkFieldContext {
  ctxt_name : option NameView;
  ctxt_value : option str;
  ctxt_opts : Options;
  ctxt_result : option (Result T);
  pushes : nat;
}.
Arguments mkFieldContext {T}.
Arguments ctxt_name {T}.
Arguments ctxt_value {T}.
Arguments ctxt_opts {T}.
Arguments ctxt_result {T}.
Arguments pushes {T}.

Section from_form_field.
Context {D T : Type} `{FromFormField D T}.

(** [FromFieldContext::should_push]. *)
Definition should_push (self : FromFieldContext T) : bool * FromFieldContext T :=
  (match ctxt_result self with None => true | Some _ => false end,
   mkFieldContext (ctxt_name self) (ctxt_value self) (ctxt_opts self) (ctxt_result self)
     (pushes self + 1)).

(** The function [is_unexpected] of [FromFieldContext::push], and [push]. *)
Definition is_unexpected (e : Errors) : bool :=
  match last e with
  | Some e => match error_kind e with Unexpected => true | _ => false end
  | None => false
  end.

Definition ctxt_push (name : NameView) (result : Result T) (self : FromFieldContext T)
  : FromFieldContext T :=
  match result with
  | inl e =>
    if negb (strict (ctxt_opts self)) && is_unexpected e then
      mkFieldContext (Some name) (ctxt_value self) (ctxt_opts self) (ctxt_result self) (pushes self)
    else mkFieldContext (Some name) (ctxt_value self) (ctxt_opts self) (Some (inl e)) (pushes self)
  | inr v => mkFieldContext (Some name) (ctxt_value self) (ctxt_opts self) (Some (inr v)) (pushes self)
  end.

Definition set_field_value (value : str) (self : FromFieldContext T) : FromFieldContext T :=
  mkFieldContext (ctxt_name self) (Some value) (ctxt_opts self) (ctxt_result self) (pushes self).

(** [impl FromForm for T: FromFormField]. *)
Definition field_push_value (field : ValueField) (ctxt : FromFieldContext T) : FromFieldContext T :=
  let '(should, ctxt) := should_push ctxt in
  if should then
    ctxt_push (field_name field) (from_value T field) (set_field_value (field_value field) ctxt)
  else ctxt.

Definition field_push_data (field : DataField D) (ctxt : FromFieldContext T) : FromFieldContext T :=
  let '(should, ctxt) := should_push ctxt in
  if should then ctxt_push (data_name field) (from_data T field) ctxt else ctxt.

Definition field_finalize (ctxt : FromFieldContext T) : Result T :=
  let fail (errors : Errors) : Result T :=
    let errors := match ctxt_name ctxt with
                  | Some name => errors_with_name (buf_from_view name) errors
                  | None => errors
                  end in
    inl (match ctxt_value ctxt with
         | Some value => errors_with_value value errors
         | None => errors
         end) in
  match ctxt_result ctxt with
  | Some (inr val) =>
    if negb (strict (ctxt_opts ctxt)) || (pushes ctxt <=? 1)%nat then inr val
    else fail (errors_from (error_from Duplicate))
  | Some (inl errors) => fail errors
  | None =>
    if negb (strict (ctxt_opts ctxt)) then
      match field_default T with
      | Some default => inr default
      | None => fail (errors_from (error_from Missing))
      end
    else fail (errors_from (error_from Missing))
  end.

#[export] Instance from_field : FromForm D T := {
  Context := FromFieldContext T;
  init opts := mkFieldContext None None opts None 0;
  push_value := field_push_value;
  push_data := field_push_data;
  push_error _ ctxt := ctxt;
  finalize := field_finalize;
}.
End from_form_field.

(** The values of the fields of the standard types; data is unexpected except
    where [DataStream] has its guard. *)
Section values.
Context `{Memchr} `{PercentEncoding} `{Uncased} {D : Type}.

(** [String], [&str]: any value. *)
Definition str_from_value (field : ValueField) : Result str := inr (field_value field).

(** [bool]; the error of parsing the empty string as a [bool]. *)
Definition bool_from_value (field : ValueField) : Result bool :=
  let v := field_value field in
  if uncased_eq v #"off" || uncased_eq v #"no" || uncased_eq v #"false" then inr false
  else if is_empty v || uncased_eq v #"on" || uncased_eq v #"yes" || uncased_eq v #"true" then inr true
  else inl (errors_from (error_from (Bool #"provided string was not `true` or `false`"))).

(** [impl_with_parse!], for an integer type with its bounds. *)
Definition int_from_value (lo hi : Z) (field : ValueField) : Result Z :=
  match int_from_str lo hi (field_value field) with
  | inl z => inr z
  | inr e => inl (errors_from (error_from (Int e)))
  end.

(** The default methods of [FromFormField]. *)
Definition unexpected_from_data {T} (field : DataField D) : Result T :=
  inl (errors_from (data_unexpected field)).
End values.

(** ** Sequences *)

(** [struct VecContext]. *)
Record VecContext (C T : Type) := mkVecContext {
  vec_opts : Options;
  last_key : option str;
  current : option C;
  vec_errors : Errors;
  items : list T;
}.
Arguments mkVecContext {C T}.
Arguments vec_opts {C T}.
Arguments last_key {C T}.
Arguments current {C T}.
Arguments vec_errors {C T}.
Arguments items {C T}.

Section vec.
Context `{Memchr} `{PercentEncoding} {D T : Type} `{FromForm D T}.

(** [VecContext::shift]. *)
Definition vec_shift (self : VecContext (Context T) T) : VecContext (Context T) T :=
  match current self with
  | Some current =>
    match finalize T current with
    | inr v => mkVecContext (vec_opts self) (last_key self) None (vec_errors self) (items self ++ [v])
    | inl e => mkVecContext (vec_opts self) (last_key self) None (vec_errors self ++ e) (items self)
    end
  | None => self
  end.

(** [VecContext::context]: the context left current is the one returned. *)
Definition vec_context (name : NameView) (self : VecContext (Context T) T) : VecContext (Context T) T :=
  let this_key := key name in
  let keys_match :=
    match last_key self, this_key with
    | Some k1, Some k2 => bool_decide (k1 = k2)
    | _, _ => false
    end in
  let self :=
    if negb keys_match then
      let self := vec_shift self in
      mkVecContext (vec_opts self) (last_key self) (Some (init T (vec_opts self))) (vec_errors self)
        (items self)
    else self in
  mkVecContext (vec_opts self) this_key (current self) (vec_errors self) (items self).

(** A push to the current context, which there is (see [vec_current]). *)
Definition vec_update (f : Context T → Context T) (self : VecContext (Context T) T)
  : VecContext (Context T) T :=
  mkVecContext (vec_opts self) (last_key self) (f <$> current self) (vec_errors self) (items self).

Definition vec_push_value (field : ValueField) (this : VecContext (Context T) T)
  : VecContext (Context T) T :=
  vec_update (push_value T (field_shift field)) (vec_context (field_name field) this).

Definition vec_push_data (field : DataField D) (this : VecContext (Context T) T)
  : VecContext (Context T) T :=
  vec_update (push_data T (data_shift field)) (vec_context (data_name field) this).

Definition vec_finalize (this : VecContext (Context T) T) : Result (list T) :=
  let this := vec_shift this in
  if negb (is_empty (vec_errors this)) then inl (vec_errors this)
  else if strict (vec_opts this) && is_empty (items this) then inl (errors_from (error_from Missing))
  else inr (items this).

#[export] Instance from_vec : FromForm D (list T) := {
  Context := VecContext (Context T) T;
  init opts := mkVecContext opts None None [] [];
  push_value := vec_push_value;
  push_data := vec_push_data;
  push_error _ this := this;
  finalize := vec_finalize;
}.
End vec.

(** ** Maps *)

(** The [starts_with] of [uncased]. *)
Class UncasedStartsWith := { uncased_starts_with : str → str → bool }.

(** [struct MapContext]; the [IndexMap] has its keys in order. *)
Record MapContext (K V : Type) := mkMapContext {
  map_opts : Options;
  table : list (str * nat);
  entries : list (K * V);
  metadata : list NameView;
  map_errors : Errors;
}.
Arguments mkMapContext {K V}.
Arguments map_opts {K V}.
Arguments table {K V}.
Arguments entries {K V}.
Arguments metadata {K V}.
Arguments map_errors {K V}.

(** Which context of an entry a push goes to. *)
Inductive Either (A B : Type) := Left (a : A) | Right (b : B).
Arguments Left {A B}.
Arguments Right {A B}.

Section map.
Context `{Memchr} `{PercentEncoding} `{UncasedStartsWith} {D K V : Type} `{FK : FromForm D K} `{FV : FromForm D V}.
Context {M : Type} (collect : list (K * V) → M).

Definition table_get (key : str) (self : MapContext (Context K) (Context V)) : option nat :=
  snd <$> List.find (λ e, bool_decide (e.1 = key)) (table self).

(** [MapContext::ctxt]: the index of the entry it returns. *)
Definition map_ctxt (key : str) (name : NameView) (self : MapContext (Context K) (Context V))
  : nat * MapContext (Context K) (Context V) :=
  match table_get key self with
  | Some i => (i, self)
  | None =>
    let i := length (entries self) in
    (i, mkMapContext (map_opts self) (table self ++ [(key, i)])
          (entries self ++ [(init K (map_opts self), init V (map_opts self))])
          (metadata self ++ [name]) (map_errors self))
  end.

(** Changing a context of an entry. *)
Definition update_key (i : nat) (f : Context K → Context K) (self : MapContext (Context K) (Context V))
  : MapContext (Context K) (Context V) :=
  mkMapContext (map_opts self) (table self) (alter (λ e, (f e.1, e.2)) i (entries self))
    (metadata self) (map_errors self).

Definition update_value (i : nat) (f : Context V → Context V) (self : MapContext (Context K) (Context V))
  : MapContext (Context K) (Context V) :=
  mkMapContext (map_opts self) (table self) (alter (λ e, (e.1, f e.2)) i (entries self))
    (metadata self) (map_errors self).

Definition add_error (e : Error) (self : MapContext (Context K) (Context V))
  : MapContext (Context K) (Context V) :=
  mkMapContext (map_opts self) (table self) (entries self) (metadata self) (map_errors self ++ [e]).

(** The first two indices of a key. *)
Definition index_pair (name : NameView) : option str * option str :=
  match key name with
  | Some k => (indices k !! 0, indices k !! 1)
  | None => (None, None)
  end.

(** [MapContext::push]: the context to push to. *)
Definition map_push (name : NameView) (self : MapContext (Context K) (Context V))
  : option (Either nat nat) * MapContext (Context K) (Context V) :=
  match index_pair name with
  | (Some key, None) =>
    let is_new_key := match table_get key self with Some _ => false | None => true end in
    let '(i, self) := map_ctxt key name self in
    let self := if is_new_key then update_key i (push_value K (field_from_value key)) self else self in
    (Some (Right i), self)
  | (Some kind, Some key) =>
    if uncased_starts_with #"k" kind then
      let '(i, self) := map_ctxt key name self in (Some (Left i), self)
    else if uncased_starts_with #"v" kind then
      let '(i, self) := map_ctxt key name self in (Some (Right i), self)
    else
      (None, add_error (with_name (buf_from_view name) (with_entity (Index 0)
               (error_from (InvalidChoice [ #"k"; #"v"])))) self)
  | _ =>
    (None, add_error (with_name (buf_from_view name) (with_entity EKey (error_from Missing))) self)
  end.

(** [MapContext::push_value], [push_data]. *)
Definition map_push_value (field : ValueField) (self : MapContext (Context K) (Context V))
  : MapContext (Context K) (Context V) :=
  match map_push (field_name field) self with
  | (Some (Left i), self) => update_key i (push_value K (field_shift field)) self
  | (Some (Right i), self) => update_value i (push_value V (field_shift field)) self
  | (None, self) => self
  end.

Definition map_push_data (field : DataField D) (self : MapContext (Context K) (Context V))
  : MapContext (Context K) (Context V) :=
  match map_push (data_name field) self with
  | (Some (Left i), self) => update_key i (push_data K (data_shift field)) self
  | (Some (Right i), self) => update_value i (push_data V (data_shift field)) self
  | (None, self) => self
  end.

(** The closure of [MapContext::finalize], on the errors it extends. *)
Definition finalize_entry (st : Errors * list (K * V)) (e : Context K * Context V * NameView * str)
  : Errors * list (K * V) :=
  let '(errors, pairs) := st in
  let '(k_ctxt, v_ctxt, name, idx) := e in
  let form_key := #"k:" ++ idx in
  let '(errors, key) :=
    match finalize K k_ctxt with
    | inr key => (errors, Some key)
    | inl e => (errors ++ errors_with_name (buf_from_pair (parent name) form_key) e, None)
    end in
  let '(errors, val) :=
    match finalize V v_ctxt with
    | inr val => (errors, Some val)
    | inl e => (errors ++ errors_with_name (buf_from_pair (parent name) idx) e, None)
    end in
  (errors, pairs ++ match key, val with Some k, Some v => [(k, v)] | _, _ => [] end).

(** [MapContext::finalize]. *)
Definition map_finalize (self : MapContext (Context K) (Context V)) : Result M :=
  let '(errors, pairs) :=
    foldl finalize_entry (map_errors self, [])
      (zip (zip (entries self) (metadata self)) (fst <$> table self)) in
  if negb (is_empty errors) then inl errors
  else if strict (map_opts self) && is_empty (table self) then inl (errors_from (error_from Missing))
  else inr (collect pairs).

(** [impl FromForm for HashMap<K, V>], [BTreeMap<K, V>]: [collect] makes them. *)
Definition from_map : FromForm D M := {|
  Context := MapContext (Context K) (Context V);
  init opts := mkMapContext opts [] [] [] [];
  push_value := map_push_value;
  push_data := map_push_data;
  push_error _ ctxt := ctxt;
  finalize := map_finalize;
|}.
End map.

(** ** Pairs and wrappers *)

(** [struct PairContext]. *)
Record PairContext (A B : Type) := mkPairContext {
  pair_left : A;
  pair_right : B;
  pair_errors : Errors;
}.
Arguments mkPairContext {A B}.
Arguments pair_left {A B}.
Arguments pair_right {A B}.
Arguments pair_errors {A B}.

Section pair.
Context `{Memchr} `{PercentEncoding} {D A B : Type} `{FA : FromForm D A} `{FB : FromForm D B}.

(** [PairContext::context], as a side or an error. *)
Definition pair_context (name : NameView) : Error + Either unit unit :=
  match key name with
  | Some k =>
    if bool_decide (k = #"0") then inr (Left tt)
    else if bool_decide (k = #"1") then inr (Right tt)
    else inl (with_name (buf_from_view name)
                (with_entity (Index 0) (error_from (InvalidChoice [ #"0"; #"1"]))))
  | None =>
    inl (with_name (buf_from_view name)
           (with_entity (Index 0) (error_from (InvalidChoice [ #"0"; #"1"]))))
  end.

Definition pair_push (name : NameView) (f : Context A → Context A) (g : Context B → Context B)
    (ctxt : PairContext (Context A) (Context B)) : PairContext (Context A) (Context B) :=
  match pair_context name with
  | inr (Left _) => mkPairContext (f (pair_left ctxt)) (pair_right ctxt) (pair_errors ctxt)
  | inr (Right _) => mkPairContext (pair_left ctxt) (g (pair_right ctxt)) (pair_errors ctxt)
  | inl e => mkPairContext (pair_left ctxt) (pair_right ctxt) (pair_errors ctxt ++ [e])
  end.

Definition pair_finalize (ctxt : PairContext (Context A) (Context B)) : Result (A * B) :=
  match finalize A (pair_left ctxt), finalize B (pair_right ctxt) with
  | inr key, inr val => if is_empty (pair_errors ctxt) then inr (key, val) else inl (pair_errors ctxt)
  | left, right => inl (pair_errors ctxt ++ err left ++ err right)
  end.

#[export] Instance from_pair : FromForm D (A * B) := {
  Context := PairContext (Context A) (Context B);
  init opts := mkPairContext (init A opts) (init B opts) [];
  push_value field :=
    pair_push (field_name field) (push_value A (field_shift field)) (push_value B (field_shift field));
  push_data field :=
    pair_push (data_name field) (push_data A (data_shift field)) (push_data B (data_shift field));
  push_error _ ctxt := ctxt;
  finalize := pair_finalize;
}.
End pair.

Section wrappers.
Context {D T : Type} `{F : FromForm D T}.

(** [impl FromForm for Option<T>] and [Result<T>]: they never fail. *)
#[export] Instance from_option : FromForm D (option T) := {
  Context := Context T;
  init _ := init T Strict;
  push_value := push_value T;
  push_data := push_data T;
  push_error _ ctxt := ctxt;
  finalize this := inr (is_ok (finalize T this));
}.

#[export] Instance from_result : FromForm D (Result T) := {
  Context := Context T;
  init := init T;
  push_value := push_value T;
  push_data := push_data T;
  push_error _ ctxt := ctxt;
  finalize this := inr (finalize T this);
}.

(** [struct Strict], [Lenient]: the options they initialize with. *)
Definition from_strict : FromForm D T := {|
  Context := Context T;
  init _ := init T Strict;
  push_value := push_value T;
  push_data := push_data T;
  push_error _ ctxt := ctxt;
  finalize := finalize T;
|}.

Definition from_lenient : FromForm D T := {|
  Context := Context T;
  init _ := init T Lenient;
  push_value := push_value T;
  push_data := push_data T;
  push_error _ ctxt := ctxt;
  finalize := finalize T;
|}.
End wrappers.

(** ** Specifications *)

Section specs.
Context `{Memchr} `{PercentEncoding} {D : Type}.

(** Errors of the form's parser are of no concern to these parsers. *)
Definition is_field (p : Pushed D) : bool := match p with PError _ => false | _ => true end.

Definition pushed_name (p : Pushed D) : NameView :=
  match p with
  | PValue field => field_name field
  | PData field => data_name field
  | PError _ => view_new []
  end.

Definition pushed_value (p : Pushed D) : option str :=
  match p with PValue field => Some (field_value field) | _ => None end.

Definition pushed_key (p : Pushed D) : option str := key (pushed_name p).

(** A single field: the pushes up to the first whose result counts, and that
    result; a lenient parse does not count that a push was unexpected. *)
Definition field_result {T} `{FromFormField D T} (p : Pushed D) : Result T :=
  match p with
  | PValue field => from_value T field
  | PData field => from_data T field
  | PError e => inl []
  end.

Definition decisive {T} (opts : Options) (r : Result T) : option (Result T) :=
  match r with
  | inl e => if negb (strict opts) && is_unexpected e then None else Some (inl e)
  | inr v => Some (inr v)
  end.

Fixpoint handled {T} `{FromFormField D T} (opts : Options) (ps : list (Pushed D))
  : list (Pushed D) * option (Result T) :=
  match ps with
  | [] => ([], None)
  | p :: ps =>
    match decisive opts (field_result p) with
    | Some r => ([p], Some r)
    | None => let '(hs, r) := handled opts ps in (p :: hs, r)
    end
  end.

(** Errors with the name and the value of the last of some pushes. *)
Definition errors_of (hs : list (Pushed D)) (e : Errors) : Errors :=
  let e := match last hs with
           | Some p => errors_with_name (buf_from_view (pushed_name p)) e
           | None => e
           end in
  match last (omap pushed_value hs) with
  | Some value => errors_with_value value e
  | None => e
  end.

Definition field_spec {T} `{FromFormField D T} (opts : Options) (ps : list (Pushed D)) : Result T :=
  let '(hs, r) := handled opts ps in
  match r with
  | Some (inr v) =>
    if strict opts && (1 <? length ps)%nat then inl (errors_of hs [error_from Duplicate]) else inr v
  | Some (inl e) => inl (errors_of hs e)
  | None =>
    match (if strict opts then None else field_default T) with
    | Some default => inr default
    | None => inl (errors_of hs [error_from Missing])
    end
  end.

(** A sequence: the pushes fall into runs of the same non-empty key, each of
    which is an item. *)
Definition same_key (a b : option str) : bool :=
  match a, b with Some a, Some b => bool_decide (a = b) | _, _ => false end.

Fixpoint runs_from (g : list (Pushed D)) (k : option str) (ps : list (Pushed D))
  : list (list (Pushed D)) :=
  match ps with
  | [] => [g]
  | p :: ps =>
    if same_key k (pushed_key p) then runs_from (g ++ [p]) (pushed_key p) ps
    else g :: runs_from [p] (pushed_key p) ps
  end.

Definition runs (ps : list (Pushed D)) : list (list (Pushed D)) :=
  match ps with [] => [] | p :: ps => runs_from [p] (pushed_key p) ps end.

(** All errors if there are any; else what there is, unless a strict parse has
    nothing. *)
Definition collected {T M} (opts : Options) (errors : Errors) (found : list T) (value : M) : Result M :=
  if negb (is_empty errors) then inl errors
  else if strict opts && is_empty found then inl [error_from Missing]
  else inr value.

Definition vec_spec {T} `{FromForm D T} (opts : Options) (ps : list (Pushed D)) : Result (list T) :=
  let rs := (λ g, run_parser T opts (pushed_shift <$> g)) <$> runs ps in
  collected opts (concat (err <$> rs)) (omap is_ok rs) (omap is_ok rs).

(** A map: the index that each field names, as [k], [k:x] or [v:x], or its error. *)
Inductive Mention := Single | ForKey | ForValue.

Definition map_target `{UncasedStartsWith} (name : NameView) : Error + (str * Mention) :=
  match index_pair name with
  | (Some key, None) => inr (key, Single)
  | (Some kind, Some key) =>
    if uncased_starts_with #"k" kind then inr (key, ForKey)
    else if uncased_starts_with #"v" kind then inr (key, ForValue)
    else inl (with_name (buf_from_view name) (with_entity (Index 0)
                (error_from (InvalidChoice [ #"k"; #"v"]))))
  | _ => inl (with_name (buf_from_view name) (with_entity EKey (error_from Missing)))
  end.

(** The errors of the fields that name none, and the indices in the order of the
    first field that names each, with that field's name. *)
Definition bad_targets `{UncasedStartsWith} (ps : list (Pushed D)) : Errors :=
  omap (λ p, match map_target (pushed_name p) with inl e => Some e | inr _ => None end) ps.

Definition map_index `{UncasedStartsWith} (l : list (str * NameView)) (p : Pushed D)
  : list (str * NameView) :=
  match map_target (pushed_name p) with
  | inl _ => l
  | inr (k, _) => if decide (k ∈ l.*1) then l else l ++ [(k, pushed_name p)]
  end.

Definition map_indices `{UncasedStartsWith} (ps : list (Pushed D)) : list (str * NameView) :=
  foldl map_index [] ps.

(** The pushes that name an index; those of its key, whose value is the index
    itself where the first names neither key nor value; and those of its value. *)
Definition mentions `{UncasedStartsWith} (k : str) (ps : list (Pushed D)) : list (Mention * Pushed D) :=
  omap (λ p, match map_target (pushed_name p) with
             | inr (k', m) => if decide (k' = k) then Some (m, p) else None
             | inl _ => None
             end) ps.

Definition key_pushes `{UncasedStartsWith} (k : str) (ps : list (Pushed D)) : list (Pushed D) :=
  match mentions k ps with (Single, _) :: _ => [PValue (field_from_value k)] | _ => [] end ++
  omap (λ m, match m with (ForKey, p) => Some (pushed_shift p) | _ => None end) (mentions k ps).

Definition val_pushes `{UncasedStartsWith} (k : str) (ps : list (Pushed D)) : list (Pushed D) :=
  omap (λ m, match m with (ForKey, _) => None | (_, p) => Some (pushed_shift p) end) (mentions k ps).

(** The entry of an index, and its errors, under the names [k:x] and [x]. *)
Definition map_entry {K V} `{UncasedStartsWith} `{FromForm D K} `{FromForm D V} (opts : Options)
    (ps : list (Pushed D)) (e : str * NameView) : Errors * option (K * V) :=
  let key := run_parser K opts (key_pushes e.1 ps) in
  let val := run_parser V opts (val_pushes e.1 ps) in
  (errors_with_name (buf_from_pair (parent e.2) (#"k:" ++ e.1)) (err key) ++
     errors_with_name (buf_from_pair (parent e.2) e.1) (err val),
   match is_ok key, is_ok val with Some k, Some v => Some (k, v) | _, _ => None end).

Definition map_spec {K V M} `{UncasedStartsWith} `{FromForm D K} `{FromForm D V}
    (collect : list (K * V) → M) (opts : Options) (ps : list (Pushed D)) : Result M :=
  let es := map_entry (K:=K) (V:=V) opts ps <$> map_indices ps in
  collected opts (bad_targets ps ++ concat (fst <$> es)) (map_indices ps) (collect (omap snd es)).
End specs.

(** ** Lemmas *)

Section field_lemmas.
Context `{Memchr} `{PercentEncoding} {D T : Type} `{FF : FromFormField D T}.

(** A context whose result is decided only counts. *)
Lemma field_decided ps (c : FromFieldContext T) r :
  Forall (λ p, is_field (D:=D) p = true) ps → ctxt_result c = Some r →
  foldl (push (T:=T)) c ps =
    mkFieldContext (ctxt_name c) (ctxt_value c) (ctxt_opts c) (ctxt_result c) (pushes c + length ps).
Proof.
  intros Hps. revert c. induction Hps as [|p ps Hp Hps IH]; intros c Hr; cbn [foldl length].
  - destruct c. cbn. by rewrite Nat.add_0_r.
  - assert (push (T:=T) c p = mkFieldContext (ctxt_name c) (ctxt_value c) (ctxt_opts c) (ctxt_result c)
      (pushes c + 1)) as ->.
    { destruct p as [f|f|e]; [| |done]; cbn; unfold field_push_value, field_push_data, should_push;
        by rewrite Hr. }
    rewrite IH by done. cbn. f_equal. lia.
Qed.

(** The name and value of a context, after some pushes. *)
Definition last_name (n : option NameView) (hs : list (Pushed D)) : option NameView :=
  match last hs with Some p => Some (pushed_name p) | None => n end.
Definition last_value (v : option str) (hs : list (Pushed D)) : option str :=
  match last (omap pushed_value hs) with Some v => Some v | None => v end.

Lemma last_name_cons n p hs : last_name n (p :: hs) = last_name (Some (pushed_name p)) hs.
Proof. unfold last_name. rewrite last_cons. by destruct (last hs). Qed.

Lemma last_value_cons v p hs :
  last_value v (p :: hs) = last_value (match pushed_value p with Some x => Some x | None => v end) hs.
Proof.
  unfold last_value. change (omap pushed_value (p :: hs)) with
    (match pushed_value p with Some y => y :: omap pushed_value hs | None => omap pushed_value hs end).
  destruct (pushed_value p); [|done]. rewrite last_cons. by destruct (last (omap pushed_value hs)).
Qed.

Lemma push_undecided p n v opts k :
  is_field p = true →
  push (T:=T) (mkFieldContext n v opts None k) p =
    mkFieldContext (Some (pushed_name p)) (match pushed_value p with Some x => Some x | None => v end)
      opts (decisive opts (field_result (T:=T) p)) (k + 1).
Proof.
  destruct p as [f|f|e]; intros Hf; [| |done]; cbn.
  - unfold field_push_value, should_push, ctxt_push. cbn. destruct (from_value T f) as [e|x]; [|done].
    unfold decisive. by destruct (_ && _).
  - unfold field_push_data, should_push, ctxt_push. cbn. destruct (from_data T f) as [e|x]; [|done].
    unfold decisive. by destruct (_ && _).
Qed.

Lemma field_run ps n v opts k :
  Forall (λ p, is_field p = true) ps →
  foldl (push (T:=T)) (mkFieldContext n v opts None k) ps =
    mkFieldContext (last_name n (handled opts ps).1) (last_value v (handled opts ps).1) opts
      (handled (T:=T) opts ps).2 (k + length ps).
Proof.
  intros Hps. revert n v k. induction Hps as [|p ps Hp Hps IH]; intros n v k; [by rewrite Nat.add_0_r|].
  cbn [foldl handled length]. rewrite push_undecided by done.
  destruct (decisive opts (field_result p)) as [r|] eqn:Hd.
  - rewrite (field_decided ps _ r) by done. cbn. rewrite last_value_cons. cbn. f_equal. lia.
  - rewrite IH. destruct (handled opts ps) as [hs r]. cbn.
    rewrite last_name_cons, last_value_cons. f_equal. lia.
Qed.

Lemma field_filter ps (c : FromFieldContext T) : foldl (push (T:=T)) c ps = foldl (push (T:=T)) c (List.filter is_field ps).
Proof. revert c. induction ps as [|[f|f|e] ps IH]; intros c; simpl; [done|apply IH..]. Qed.

Lemma filter_is_field (ps : list (Pushed D)) :
  Forall (λ p, is_field p = true) (List.filter is_field ps).
Proof. apply Forall_forall. intros p Hp. by apply elem_of_filter_bool in Hp as [_ Hp]. Qed.

Lemma errors_of_last hs e :
  errors_of hs e =
    let e := match last_name None hs with
             | Some name => errors_with_name (buf_from_view name) e
             | None => e
             end in
    match last_value None hs with Some value => errors_with_value value e | None => e end.
Proof. unfold errors_of, last_value, last_name. by destruct (last hs), (last (omap pushed_value hs)). Qed.

Lemma field_correct opts ps :
  run_parser T opts ps = field_spec opts (List.filter is_field ps).
Proof.
  unfold run_parser, field_spec. rewrite field_filter. cbn [init from_field].
  rewrite (field_run _ None None opts 0) by apply filter_is_field.
  destruct (handled opts _) as [hs r]. unfold finalize, from_field, field_finalize.
  cbn [fst snd ctxt_name ctxt_value ctxt_opts ctxt_result pushes Nat.add].
  rewrite !errors_of_last. unfold errors_from. destruct r as [[e|x]|].
  - by rewrite errors_of_last.
  - rewrite Nat.ltb_antisym. by destruct (strict opts), (_ <=? 1)%nat.
  - by destruct (strict opts), (field_default T).
Qed.
End field_lemmas.

Section vec_lemmas.
Context `{Memchr} `{PercentEncoding} {D T : Type} `{F : FromForm D T}.

(** A push, whatever the field. *)
Lemma vec_push p (this : VecContext (Context T) T) :
  is_field p = true →
  push (T:=list T) this p =
    vec_update (λ c, push (T:=T) c (pushed_shift p)) (vec_context (pushed_name p) this).
Proof. by destruct p. Qed.

(** After [context] there is a current context, so that [expect] never panics. *)
Lemma vec_current name (this : VecContext (Context T) T) :
  (is_Some (last_key this) → is_Some (current this)) → is_Some (current (vec_context name this)).
Proof.
  intros Hc. unfold vec_context. cbn. destruct (last_key this) as [k1|], (key name) as [k2|]; cbn; eauto.
  destruct (bool_decide (k1 = k2)); cbn; eauto.
Qed.

Lemma filter_pushes {M} `{FM : FromForm D M} ps (c : Context M) :
  (∀ c e, push_error M e c = c) →
  foldl (push (T:=M)) c ps = foldl (push (T:=M)) c (List.filter is_field ps).
Proof.
  intros He. revert c. induction ps as [|[f|f|e] ps IH]; intros c; simpl; [done|apply IH..|].
  by rewrite He.
Qed.

(** The item a run of pushes makes, as a context, and ending it. *)
Definition run_context (opts : Options) (g : list (Pushed D)) : Context T :=
  foldl (push (T:=T)) (init T opts) (pushed_shift <$> g).

Lemma run_context_snoc opts g p :
  push (T:=T) (run_context opts g) (pushed_shift p) = run_context opts (g ++ [p]).
Proof. unfold run_context. by rewrite fmap_app, foldl_app. Qed.

Lemma vec_shift_some opts k c errors (found : list T) :
  vec_shift (mkVecContext opts k (Some c) errors found) =
    mkVecContext opts k None (errors ++ err (finalize T c)) (found ++ option_list (is_ok (finalize T c))).
Proof. unfold vec_shift. cbn. destruct (finalize T c); cbn; by rewrite ?app_nil_r. Qed.

(** A push to a sequence with a current item: it goes to it, or starts another. *)
Lemma vec_push_current p opts k g errors (found : list T) :
  is_field p = true →
  push (T:=list T) (mkVecContext opts k (Some (run_context opts g)) errors found) p =
    if same_key k (pushed_key p) then
      mkVecContext opts (pushed_key p) (Some (run_context opts (g ++ [p]))) errors found
    else
      mkVecContext opts (pushed_key p) (Some (run_context opts [p]))
        (errors ++ err (run_parser T opts (pushed_shift <$> g)))
        (found ++ option_list (is_ok (run_parser T opts (pushed_shift <$> g)))).
Proof.
  intros Hp. rewrite vec_push by done. unfold vec_context. cbn [last_key].
  change (match k with Some k1 => match key (pushed_name p) with
    | Some k2 => bool_decide (k1 = k2) | None => false end | None => false end)
    with (same_key k (pushed_key p)).
  destruct (same_key k (pushed_key p)); cbn [negb].
  - rewrite <-run_context_snoc. done.
  - rewrite vec_shift_some. done.
Qed.

(** Finishing a parse whose last item is open. *)
Lemma vec_run ps g k opts errors (found : list T) :
  Forall (λ p, is_field p = true) ps →
  vec_finalize (foldl (push (T:=list T))
    (mkVecContext opts k (Some (run_context opts g)) errors found) ps) =
  let rs := (λ g, run_parser T opts (pushed_shift <$> g)) <$> runs_from g k ps in
  collected opts (errors ++ concat (err <$> rs)) (found ++ omap is_ok rs) (found ++ omap is_ok rs).
Proof.
  intros Hps. revert g k errors found. induction Hps as [|p ps Hp Hps IH]; intros g k errors found.
  - cbn [foldl runs_from]. unfold vec_finalize. rewrite vec_shift_some. unfold collected. cbn.
    rewrite app_nil_r. fold (run_context opts g). unfold run_parser. fold (run_context opts g).
    by destruct (finalize T (run_context opts g)).
  - cbn [foldl runs_from]. rewrite vec_push_current by done.
    destruct (same_key k (pushed_key p)); rewrite IH; [done|].
    cbn. rewrite <-!app_assoc. by destruct (run_parser T opts (pushed_shift <$> g)).
Qed.

Lemma vec_correct opts ps :
  run_parser (list T) opts ps = vec_spec opts (List.filter is_field ps).
Proof.
  unfold run_parser. rewrite filter_pushes by done. pose proof (filter_is_field ps) as Hf.
  destruct (List.filter is_field ps) as [|p l]; cbn [foldl].
  - unfold vec_spec, collected. cbn. by destruct (strict opts).
  - inversion_clear Hf as [|?? Hp Hl]. rewrite vec_push by done. unfold vec_context, vec_update, vec_shift. cbn.
    by rewrite (vec_run l [p]).
Qed.
End vec_lemmas.

Section map_lemmas.
Context `{Memchr} `{PercentEncoding} `{UncasedStartsWith} {D K V : Type} `{FK : FromForm D K} `{FV : FromForm D V}.

Lemma mentions_snoc k (ps : list (Pushed D)) p :
  mentions k (ps ++ [p]) =
    mentions k ps ++ match map_target (pushed_name p) with
                     | inr (k', m) => if decide (k' = k) then [(m, p)] else []
                     | inl _ => []
                     end.
Proof.
  unfold mentions. rewrite omap_app. f_equal. cbn.
  destruct (map_target (pushed_name p)) as [|[k' m]]; [done|]. by destruct (decide (k' = k)).
Qed.

Lemma map_indices_snoc (ps : list (Pushed D)) p : map_indices (ps ++ [p]) = map_index (map_indices ps) p.
Proof. unfold map_indices. by rewrite foldl_app. Qed.

Lemma map_indices_nodup (ps : list (Pushed D)) : NoDup (map_indices ps).*1.
Proof.
  induction ps as [|p ps IH] using rev_ind; [constructor|]. rewrite map_indices_snoc. unfold map_index.
  destruct (map_target (pushed_name p)) as [|[k m]]; [done|]. case_decide as Hk; [done|].
  rewrite fmap_app. apply NoDup_app. repeat split; [done| |apply NoDup_singleton].
  intros x Hx. by intros ->%list_elem_of_singleton.
Qed.

(** An index is named by some push; no other has pushes. *)
Lemma map_indices_mentions k (ps : list (Pushed D)) : k ∉ (map_indices ps).*1 → mentions k ps = [].
Proof.
  induction ps as [|p ps IH] using rev_ind; [done|]. rewrite map_indices_snoc, mentions_snoc.
  unfold map_index. destruct (map_target (pushed_name p)) as [|[k' m]]; [intros; by rewrite IH|].
  case_decide as Hk; intros Hn.
  - rewrite IH by done. by rewrite decide_False by (intros ->; done).
  - rewrite fmap_app in Hn. apply not_elem_of_app in Hn as [Hn Hk'].
    rewrite IH by done. rewrite decide_False; [done|]. intros ->. apply Hk'. by left.
Qed.

Lemma map_indices_mentioned k (ps : list (Pushed D)) : k ∈ (map_indices ps).*1 → mentions k ps ≠ [].
Proof.
  induction ps as [|p ps IH] using rev_ind; [by intros ?%elem_of_nil|].
  rewrite map_indices_snoc, mentions_snoc. unfold map_index.
  destruct (map_target (pushed_name p)) as [|[k' m]]; [rewrite app_nil_r; apply IH|].
  case_decide as Hk; intros Hn.
  - specialize (IH Hn). by destruct (mentions k ps).
  - rewrite fmap_app in Hn. apply elem_of_app in Hn as [Hn| ->%list_elem_of_singleton].
    + specialize (IH Hn). by destruct (mentions k ps).
    + rewrite decide_True by done. by intros []%app_eq_nil.
Qed.

(** The pushes of an index after one more field. *)
Lemma pushes_other k k' m p (ps : list (Pushed D)) :
  map_target (pushed_name p) = inr (k, m) → k' ≠ k →
  key_pushes k' (ps ++ [p]) = key_pushes k' ps ∧ val_pushes k' (ps ++ [p]) = val_pushes k' ps.
Proof.
  intros Ht Hk. unfold key_pushes, val_pushes. rewrite mentions_snoc, Ht.
  rewrite decide_False by done. by rewrite app_nil_r.
Qed.

Lemma pushes_bad k' e p (ps : list (Pushed D)) :
  map_target (pushed_name p) = inl e →
  key_pushes k' (ps ++ [p]) = key_pushes k' ps ∧ val_pushes k' (ps ++ [p]) = val_pushes k' ps.
Proof. intros Ht. unfold key_pushes, val_pushes. by rewrite mentions_snoc, Ht, app_nil_r. Qed.

Lemma pushes_first k m p (ps : list (Pushed D)) :
  map_target (pushed_name p) = inr (k, m) → mentions k ps = [] →
  key_pushes k (ps ++ [p]) =
    match m with Single => [PValue (field_from_value k)] | ForKey => [pushed_shift p] | ForValue => [] end ∧
  val_pushes k (ps ++ [p]) = match m with ForKey => [] | _ => [pushed_shift p] end.
Proof.
  intros Ht Hk. unfold key_pushes, val_pushes. rewrite mentions_snoc, Ht, Hk.
  rewrite decide_True by done. by destruct m.
Qed.

Lemma pushes_again k m p (ps : list (Pushed D)) :
  map_target (pushed_name p) = inr (k, m) → mentions k ps ≠ [] →
  key_pushes k (ps ++ [p]) =
    key_pushes k ps ++ match m with ForKey => [pushed_shift p] | _ => [] end ∧
  val_pushes k (ps ++ [p]) = val_pushes k ps ++ match m with ForKey => [] | _ => [pushed_shift p] end.
Proof.
  intros Ht Hk. unfold key_pushes, val_pushes. rewrite mentions_snoc, Ht.
  rewrite decide_True by done. destruct (mentions k ps) as [|[m' p'] ms]; [done|].
  rewrite !omap_app, app_assoc. split; [|by destruct m]. f_equal. by destruct m.
Qed.

(** The context of a map after some pushes. *)
Definition entry_context (opts : Options) (ps : list (Pushed D)) (e : str * NameView)
  : Context K * Context V :=
  (foldl (push (T:=K)) (init K opts) (key_pushes e.1 ps),
   foldl (push (T:=V)) (init V opts) (val_pushes e.1 ps)).

Definition map_state (opts : Options) (ps : list (Pushed D)) : MapContext (Context K) (Context V) :=
  mkMapContext opts (imap (λ i k, (k, i)) (map_indices ps).*1) (entry_context opts ps <$> map_indices ps)
    (map_indices ps).*2 (bad_targets ps).

Lemma table_get_state k opts ps :
  match table_get k (map_state opts ps) with
  | Some i => (map_indices ps).*1 !! i = Some k
  | None => k ∉ (map_indices ps).*1
  end.
Proof.
  unfold table_get. cbn. destruct (List.find _ _) as [[k' i]|] eqn:Hf; cbn.
  - apply List.find_some in Hf as [Hin Hk%bool_decide_eq_true]. cbn in Hk. subst k'.
    apply list_elem_of_In, elem_of_lookup_imap in Hin as (j & x & [= -> ->] & Hx). done.
  - intros (j & Hj)%list_elem_of_lookup. assert (Hin : In (k, j) (imap (λ i k, (k, i)) (map_indices ps).*1)).
    { apply list_elem_of_In, elem_of_lookup_imap. eauto. }
    apply (List.find_none _ _ Hf) in Hin. cbn in Hin. by rewrite bool_decide_eq_true_2 in Hin.
Qed.

Lemma alter_entries {A B} (l : list (str * A)) (g g' : str * A → B) h i k :
  NoDup l.*1 → l.*1 !! i = Some k →
  (∀ e, e.1 = k → g' e = h (g e)) → (∀ e, e.1 ≠ k → g' e = g e) →
  alter h i (g <$> l) = g' <$> l.
Proof.
  intros Hnd Hi Hk Ho. apply list_eq. intros j. destruct (decide (i = j)) as [->|Hne].
  - rewrite list_lookup_alter, !list_lookup_fmap. rewrite list_lookup_fmap in Hi.
    destruct (l !! j) as [e|]; [|done]. cbn in *. injection Hi as Hi. by rewrite (Hk e Hi), decide_True.
  - rewrite list_lookup_alter_ne, !list_lookup_fmap by done.
    destruct (l !! j) as [e|] eqn:Hj; [|done]. cbn. rewrite Ho; [done|]. intros He.
    apply Hne. eapply NoDup_lookup; [apply Hnd|apply Hi|]. by rewrite list_lookup_fmap, Hj, <-He.
Qed.

(** The contexts of the entry of the index that a push names. *)
Lemma entry_again opts k m p (ps : list (Pushed D)) e :
  map_target (pushed_name p) = inr (k, m) → mentions k ps ≠ [] → e.1 = k →
  entry_context opts (ps ++ [p]) e =
    match m with
    | ForKey => (push (T:=K) (entry_context opts ps e).1 (pushed_shift p), (entry_context opts ps e).2)
    | _ => ((entry_context opts ps e).1, push (T:=V) (entry_context opts ps e).2 (pushed_shift p))
    end.
Proof.
  intros Ht Hm <-. unfold entry_context.
  destruct (pushes_again _ _ _ _ Ht Hm) as [-> ->]. rewrite !foldl_app. by destruct m.
Qed.

Lemma entry_first opts k m p (ps : list (Pushed D)) e :
  map_target (pushed_name p) = inr (k, m) → mentions k ps = [] → e.1 = k →
  entry_context opts (ps ++ [p]) e =
    match m with
    | Single => (push_value K (field_from_value k) (init K opts), push (T:=V) (init V opts) (pushed_shift p))
    | ForKey => (push (T:=K) (init K opts) (pushed_shift p), init V opts)
    | ForValue => (init K opts, push (T:=V) (init V opts) (pushed_shift p))
    end.
Proof.
  intros Ht Hm <-. unfold entry_context.
  destruct (pushes_first _ _ _ _ Ht Hm) as [-> ->]. by destruct m.
Qed.

Lemma entry_other opts k m p (ps : list (Pushed D)) e :
  map_target (pushed_name p) = inr (k, m) → e.1 ≠ k →
  entry_context opts (ps ++ [p]) e = entry_context opts ps e.
Proof.
  intros Ht Hk. unfold entry_context. by destruct (pushes_other _ _ _ _ ps Ht Hk) as [-> ->].
Qed.

Lemma bad_targets_snoc (ps : list (Pushed D)) p :
  bad_targets (ps ++ [p]) =
    bad_targets ps ++ match map_target (pushed_name p) with inl e => [e] | inr _ => [] end.
Proof. unfold bad_targets. rewrite omap_app. f_equal. cbn. by destruct (map_target _). Qed.

(** A push to an index that there is. *)
Lemma state_again opts ps p k m i :
  map_target (pushed_name p) = inr (k, m) → (map_indices ps).*1 !! i = Some k →
  match m with
  | ForKey => update_key i (λ c, push (T:=K) c (pushed_shift p)) (map_state opts ps)
  | _ => update_value i (λ c, push (T:=V) c (pushed_shift p)) (map_state opts ps)
  end = map_state opts (ps ++ [p]).
Proof.
  intros Ht Hi. assert (Hin : k ∈ (map_indices ps).*1) by (eapply list_elem_of_lookup_2; eauto).
  pose proof (map_indices_mentioned _ _ Hin) as Hm.
  unfold map_state. rewrite map_indices_snoc, bad_targets_snoc. unfold map_index. rewrite Ht.
  rewrite decide_True by done. rewrite app_nil_r. unfold update_key, update_value.
  destruct m; cbn [map_opts table entries metadata map_errors]; f_equal;
    (eapply alter_entries; [apply map_indices_nodup|done| |intros; by eapply entry_other]);
    intros e He; by rewrite (entry_again _ _ _ _ _ _ Ht Hm He).
Qed.

(** A push to an index that there is not. *)
Lemma state_first opts ps p k m :
  map_target (pushed_name p) = inr (k, m) → k ∉ (map_indices ps).*1 →
  map_state opts (ps ++ [p]) =
    mkMapContext opts (table (map_state opts ps) ++ [(k, length (entries (map_state opts ps)))])
      (entries (map_state opts ps) ++
        [match m with
         | Single => (push_value K (field_from_value k) (init K opts), push (T:=V) (init V opts) (pushed_shift p))
         | ForKey => (push (T:=K) (init K opts) (pushed_shift p), init V opts)
         | ForValue => (init K opts, push (T:=V) (init V opts) (pushed_shift p))
         end])
      (metadata (map_state opts ps) ++ [pushed_name p]) (bad_targets ps).
Proof.
  intros Ht Hk. unfold map_state. rewrite map_indices_snoc, bad_targets_snoc. unfold map_index. rewrite Ht.
  rewrite decide_False by done. cbn [table entries metadata].
  rewrite !fmap_app, imap_app, app_nil_r. cbn [fmap list_fmap fst snd imap].
  rewrite !length_fmap, Nat.add_0_r. f_equal. f_equal.
  - apply list_fmap_ext. intros j e Hj. eapply entry_other; [done|]. intros <-.
    apply Hk. apply list_elem_of_fmap. exists e. split; [done|]. by eapply list_elem_of_lookup_2.
  - f_equal. rewrite (entry_first opts k m p ps (k, pushed_name p) Ht); [done| |done].
    by apply map_indices_mentions.
Qed.

(** [MapContext::push], by what the name says. *)
Lemma map_push_target name (c : MapContext (Context K) (Context V)) :
  map_push name c =
    match map_target name with
    | inl e => (None, add_error e c)
    | inr (k, m) =>
      let '(i, c') := map_ctxt k name c in
      match m with
      | ForKey => (Some (Left i), c')
      | ForValue => (Some (Right i), c')
      | Single =>
        (Some (Right i),
         match table_get k c with
         | Some _ => c'
         | None => update_key i (push_value K (field_from_value k)) c'
         end)
      end
    end.
Proof.
  unfold map_push, map_target. destruct (index_pair name) as [[kind|] [key|]]; [| |done..].
  - destruct (uncased_starts_with #"k" kind), (uncased_starts_with #"v" kind); unfold map_ctxt;
      by destruct (table_get key c).
  - unfold map_ctxt. by destruct (table_get kind c).
Qed.

Lemma alter_snoc {A} (f : A → A) (l : list A) x : alter f (length l) (l ++ [x]) = l ++ [f x].
Proof. induction l as [|y l IH]; [done|]. cbn. by rewrite <-IH. Qed.

Lemma map_step {M} (collect : list (K * V) → M) opts ps p :
  is_field p = true →
  push (FF := from_map collect) (map_state opts ps) p = map_state opts (ps ++ [p]).
Proof.
  intros Hp. transitivity (match map_push (pushed_name p) (map_state opts ps) with
    | (Some (Left i), c) => update_key i (λ c, push (T:=K) c (pushed_shift p)) c
    | (Some (Right i), c) => update_value i (λ c, push (T:=V) c (pushed_shift p)) c
    | (None, c) => c
    end); [by destruct p|].
  rewrite map_push_target. destruct (map_target (pushed_name p)) as [e|[k m]] eqn:Ht.
  - unfold map_state, add_error. rewrite map_indices_snoc, bad_targets_snoc. unfold map_index.
    rewrite Ht. cbn [map_opts table entries metadata map_errors]. f_equal.
    apply list_fmap_ext. intros j x _. unfold entry_context. by destruct (pushes_bad x.1 _ _ ps Ht) as [-> ->].
  - unfold map_ctxt. pose proof (table_get_state k opts ps) as Hg.
    destruct (table_get k (map_state opts ps)) as [i|].
    + rewrite <-(state_again opts ps p k m i) by done. by destruct m.
    + rewrite (state_first opts ps p k m) by done.
      destruct m; unfold update_key, update_value; cbn [map_opts table entries metadata map_errors];
        by rewrite !alter_snoc.
Qed.

Lemma map_run {M} (collect : list (K * V) → M) opts ps :
  Forall (λ p, is_field p = true) ps →
  foldl (push (FF := from_map collect)) (mkMapContext opts [] [] [] []) ps = map_state opts ps.
Proof.
  intros Hps. induction ps as [|p ps IH] using rev_ind; [done|].
  apply Forall_app in Hps as [Hps Hp]. rewrite foldl_app, IH by done.
  cbn. apply map_step. by inversion Hp.
Qed.

(** Finalizing the entries one after the other. *)
Lemma finalize_entries opts ps l errors pairs :
  foldl finalize_entry (errors, pairs)
    (zip (zip (entry_context opts ps <$> l) l.*2) l.*1) =
  (errors ++ concat (fst <$> (map_entry (K:=K) (V:=V) opts ps <$> l)),
   pairs ++ omap snd (map_entry (K:=K) (V:=V) opts ps <$> l)).
Proof.
  revert errors pairs. induction l as [|[k n] l IH]; intros errors pairs; [by rewrite !app_nil_r|].
  cbn [fmap list_fmap zip zip_with foldl fst snd]. unfold finalize_entry at 2.
  unfold entry_context at 1. cbn [fst snd].
  change (omap snd (map_entry opts ps (k, n) :: (map_entry opts ps <$> l)))
    with (match snd (map_entry (K:=K) (V:=V) opts ps (k, n)) with
          | Some y => y :: omap snd (map_entry opts ps <$> l)
          | None => omap snd (map_entry opts ps <$> l) end).
  unfold map_entry at 1 3. unfold run_parser. cbn [fst snd concat].
  destruct (finalize K _), (finalize V _); cbn [err is_ok errors_with_name fmap list_fmap];
    rewrite IH; by rewrite <-?app_assoc, ?app_nil_r.
Qed.
End map_lemmas.

(** ** Properties *)

Section properties.
Context `{Memchr} `{PercentEncoding} {D : Type}.

(** A single field is decided by the first pushed field whose value, or
    error, counts: a lenient parse passes over fields that were unexpected, has
    the default when none counts, and ignores what follows; a strict one fails
    on a second field, whatever it is.  Errors carry the name and the value of
    the last field looked at, and the errors of the form's parser are ignored. *)
Theorem single_field_spec `{FromFormField D T} opts (ps : list (Pushed D)) :
  run_parser T opts ps = field_spec opts (List.filter is_field ps).
Proof. apply field_correct. Qed.

(** The push parser of a sequence makes an item of each maximal run of
    fields with the same index, a field with none being a run of its own, each
    parsed on its own with the index shifted away; it yields all items in
    order, or all the errors of all items in order, and only a strict parse
    asks for an item. *)
Theorem sequence_spec `{FromForm D T} opts (ps : list (Pushed D)) :
  run_parser (list T) opts ps = vec_spec opts (List.filter is_field ps).
Proof. apply vec_correct. Qed.

(** C28: the push parser of a map has an entry for each index named by a field,
    in the order of first mention: the key and the value of an entry are parsed
    from exactly the fields that name its key and its value (or from the index
    itself, when the first field to mention it names neither), wherever they
    are in the form; every error of every entry is reported, under [k:x] or
    [x], after those of the fields that name no index. *)
Theorem map_collection_spec `{UncasedStartsWith} `{FromForm D K} `{FromForm D V} {M}
    (collect : list (K * V) → M) opts (ps : list (Pushed D)) :
  run_parser (FF := from_map collect) M opts ps = map_spec collect opts (List.filter is_field ps).
Proof.
  unfold run_parser. rewrite (filter_pushes (FM := from_map collect)) by done. cbn [init from_map].
  rewrite map_run by apply filter_is_field. cbn [finalize from_map]. unfold map_finalize, map_state.
  cbn [map_opts table entries metadata map_errors].
  assert (fst <$> imap (λ i k, (k, i)) (map_indices (List.filter is_field ps)).*1 =
    (map_indices (List.filter is_field ps)).*1) as ->.
  { apply list_eq. intros i. rewrite list_lookup_fmap, list_lookup_imap. by destruct (_ !! i). }
  rewrite finalize_entries. unfold map_spec, collected. cbn [app].
  destruct (map_indices _) as [|e l]; [|done]. by destruct (strict opts).
Qed.
End properties.
