(* ===== verification/FormGuard.v ===== *)
(** * FormGuard: forms as data guards
    (core/lib/src/form/parser.rs, core/lib/src/form/form.rs)

    The parser of a request's body is chosen by its content type: url-encoded
    forms are read as a string within the limit, multipart forms are streamed
    through [multer], an interface here.  The loop of [Form::from_data] is
    fuelled; what remains of the body bounds the turns. *)

From S2P Require Import Prelude Crates RawStr Status Outcome Header MediaType UriTables MediaParse.
From S2P Require Import Streams Data Limits DataStream FormName FormParser Params FormError FromForm.

(** [multer]: a reader over a stream with a boundary and the limits on the
    whole and on each field; fields with their headers; the text of a field,
    which reads on. *)
Class Multer (Stream : Type) := {
  Multipart : Type;
  MField : Type;
  no_multipart : MulterError;
  no_boundary : MulterError;
  multipart_new : Stream → str → Z → Z → Multipart;
  next_field : Multipart → (option MField + MulterError) * Multipart;
  name : MField → option str;
  file_name : MField → option str;
  content_type : MField → option str;
  text : MField → Multipart → (str + MulterError) * Multipart;
}.
Arguments Multipart Stream {_}.
Arguments MField Stream {_}.

(** Each field takes some of the body, and reading its text puts none back. *)
Class MulterLaws (Stream : Type) `{Multer Stream} := {
  remaining : Multipart Stream → nat;
  next_field_remaining m f m' : next_field m = (inl (Some f), m') → remaining m' < remaining m;
  text_remaining f m r m' : text f m = (r, m') → remaining m' ≤ remaining m;
}.

Section form_guard.
Context `{Memchr} `{PercentEncoding} {U : Uncased} {P : Pear} {PC : PearCombinators}.
Context {Tr : Type} `{Transform Tr} `{TokioIo}.
Abbreviation Source := (Chain.Chain Cursor (list (option str))).
Abbreviation Stream := (DataStream Tr (list (option str))).
Context `{!TokioTake Source} `{!AsyncReadExt (Source * nat)} `{!AsyncReadExt Stream}.
Context `{UncasedOrd} `{StablePattern} `{ML : !Multer Stream}.

(** What a [DataField] has beside its name. *)
Record DataRest := mkDataRest { rest_content_type : MediaType; rest_file_name : option str; rest_data : MField Stream }.

(** The error of a read, with its kind and message. *)
Context (io_failure : nat * str).
Definition io_error : FormError.Error := error_from (Io io_failure.1 io_failure.2).

(** [enum Parser], [struct MultipartParser]. *)
Record MultipartParser := mkMultipartParser { source : Multipart Stream; done : bool }.
Inductive Parser := PMultipart (p : MultipartParser) | PRawStr (source : str).

Definition Parsed : Type := FormError.Error + (ValueField + DataField DataRest).

(** [ByteUnit + 1], which saturates. *)
Definition byte_unit_succ (limit : Z) : Z := Z.min (limit + 1) (2 ^ 64 - 1).

(** [Parser::from_form]. *)
Definition from_form (limits : Limits) (data : TransformedData) : option (FormError.Error + Parser) :=
  let limit := default FORM (Limits.get #"form" limits) in
  string ← into_string (open limit data);
  Some match string with
  | None => inl io_error
  | Some string =>
    if is_complete string then inr (PRawStr (value string)) else inl (error_from (InvalidLength None (Some limit)))
  end.

(** [Parser::from_multipart]. *)
Definition from_multipart (ct : option MediaType) (limits : Limits) (data : TransformedData) : FormError.Error + Parser :=
  match ct with
  | None => inl (from_multer no_multipart)
  | Some ct =>
    match MediaType.param #"boundary" ct with
    | None => inl (from_multer no_boundary)
    | Some boundary =>
      let form_limit := default DATA_FORM (Limits.get #"data-form" limits) in
      let stream := open (byte_unit_succ form_limit) data in
      inr (PMultipart (mkMultipartParser (multipart_new stream boundary form_limit form_limit) false))
    end
  end.

(** [Parser::new]. *)
Definition is_type (name : KnownMediaType) (ct : option MediaType) : bool :=
  match ct with Some c => media_type_eq c (media_type_of name) | None => false end.

Definition parser_new (ct : option MediaType) (limits : Limits) (data : TransformedData)
  : option (Outcome Parser (Status * Errors) (TransformedData (T := Tr) * Status)) :=
  let finish (parser : FormError.Error + Parser) := Some match parser with
    | inr storage => Success storage
    | inl e => Outcome.Error (status e, errors_from e)
    end in
  if is_type MediaType.Form ct then from_form limits data ≫= finish
  else if is_type MediaType.FormData ct then finish (from_multipart ct limits data)
  else Some (Forward (data, Status.UnsupportedMediaType)).

(** [MultipartParser::next]: a field with a content type that parses is data. *)
Definition multipart_next (self : MultipartParser) : option Parsed * MultipartParser :=
  if done self then (None, self)
  else
    match next_field (source self) with
    | (inl None, m) => (None, mkMultipartParser m (done self))
    | (inr e, m) => (Some (inl (from_multer e)), mkMultipartParser m true)
    | (inl (Some field), m) =>
      match content_type field ≫= parse_media_type with
      | Some ct =>
        (Some (inr (inr (mkDataField (view_new (default [] (name field))) (mkDataRest ct (file_name field) field)))),
         mkMultipartParser m (done self))
      | None =>
        match text field m with
        | (inl t, m) => (Some (inr (inl (field_from (default [] (name field), t)))), mkMultipartParser m (done self))
        | (inr e, m) => (Some (inl (from_multer e)), mkMultipartParser m (done self))
        end
      end
    end.

(** [Parser::next]. *)
Definition next (self : Parser) : option Parsed * Parser :=
  match self with
  | PMultipart p => let '(r, p) := multipart_next p in (r, PMultipart p)
  | PRawStr source =>
    match parser_next source with
    | Some (f, source) => (Some (inr (inl f)), PRawStr source)
    | None => (None, PRawStr [])
    end
  end.

(** [FromData for Form]. *)
Definition push_parsed {T} `{FF : FromForm DataRest T} (context : FromForm.Context T) (field : Parsed) : FromForm.Context T :=
  match field with
  | inr (inl value) => push_value T value context
  | inr (inr data) => push_data T data context
  | inl e => push_error T e context
  end.

Fixpoint form_loop {T} `{FF : FromForm DataRest T} (fuel : nat) (parser : Parser) (context : FromForm.Context T)
  : option (FromForm.Context T) :=
  match fuel with
  | O => None
  | S fuel =>
    match next parser with
    | (Some field, parser) => form_loop fuel parser (push_parsed context field)
    | (None, _) => Some context
    end
  end.

Definition form_guard (T : Type) `{FF : FromForm DataRest T} (fuel : nat) (ct : option MediaType) (limits : Limits)
    (data : TransformedData) : option (Outcome T (Status * Errors) (TransformedData (T := Tr) * Status)) :=
  parser ← parser_new ct limits data;
  match parser with
  | Success parser =>
    context ← form_loop (T := T) fuel parser (init T Lenient);
    Some match finalize T context with
    | inr value => Success value
    | inl e => Outcome.Error (errors_status e, e)
    end
  | Outcome.Error e => Some (Outcome.Error e)
  | Forward d => Some (Forward d)
  end.
End form_guard.

(** ** What the guard yields *)

Section form_guard_spec.
Context `{MemchrLaws} `{PercentEncoding} {U : Uncased} {P : Pear} {PC : PearCombinators}.
Context {Tr : Type} `{PlainTransform Tr} `{TokioIoLaws}.
Abbreviation Source := (Chain.Chain Cursor (list (option str))).
Abbreviation Stream := (DataStream Tr (list (option str))).
Context `{!TokioTake Source} `{!TokioTakeLaws Source}.
Context `{!AsyncReadExt (Source * nat)} `{!AsyncReadExt Stream}.
Context `{!AsyncReadExtLaws (Source * nat)} `{!AsyncReadExtLaws Stream}.
Context `{UncasedOrd} `{StablePattern} `{ML : !Multer Stream} `{MLL : !MulterLaws Stream}.
Context (io_failure : nat * str) {T : Type} `{FF : !FromForm (DataRest (Tr := Tr)) T}.
Abbreviation Pushed := (Pushed (DataRest (Tr := Tr))).

(** What a multipart body pushes: a field with a content type as data, one
    without as the value of its text; the errors of texts, and the first error
    of the stream, which ends it. *)
Inductive yields : Multipart Stream → list Pushed → Prop :=
  | yields_end m m' : next_field m = (inl None, m') → yields m []
  | yields_error m e m' : next_field m = (inr e, m') → yields m [PError (from_multer e)]
  | yields_data m f m' ct ps :
      next_field m = (inl (Some f), m') → content_type f ≫= parse_media_type = Some ct → yields m' ps →
      yields m (PData (mkDataField (view_new (default [] (name f))) (mkDataRest ct (file_name f) f)) :: ps)
  | yields_value m f m' t m'' ps :
      next_field m = (inl (Some f), m') → content_type f ≫= parse_media_type = None →
      text f m' = (inl t, m'') → yields m'' ps →
      yields m (PValue (field_from (default [] (name f), t)) :: ps)
  | yields_bad_text m f m' e m'' ps :
      next_field m = (inl (Some f), m') → content_type f ≫= parse_media_type = None →
      text f m' = (inr e, m'') → yields m'' ps →
      yields m (PError (from_multer e) :: ps).

(** The outcome of a parse. *)
Definition outcome (r : Result T) : Outcome T (Status * Errors) (TransformedData (T := Tr) * Status) :=
  match r with inr v => Success v | inl e => Outcome.Error (errors_status e, e) end.

Lemma raw_loop n source (ctxt : FromForm.Context T) :
  form_loop n (PRawStr source) ctxt = (λ fs, foldl push ctxt (PValue <$> fs)) <$> parser_run n source.
Proof.
  revert source ctxt. induction n as [|n IH]; intros source ctxt; [done|]. cbn [form_loop next parser_run].
  destruct (parser_next source) as [[f rest]|]; [|done]. rewrite IH. by destruct (parser_run n rest).
Qed.

Lemma multipart_loop n m (ctxt : FromForm.Context T) : S (remaining m) < n →
  ∃ ps, yields m ps ∧ form_loop n (PMultipart (mkMultipartParser m false)) ctxt = Some (foldl push ctxt ps).
Proof.
  revert m ctxt. induction n as [|n IH]; intros m ctxt Hn; [lia|]. cbn [form_loop next multipart_next done source].
  destruct (next_field m) as [[[f|]|e] m'] eqn:Hf.
  - pose proof (next_field_remaining _ _ _ Hf) as Hr. destruct (content_type f ≫= parse_media_type) as [ct|] eqn:Hct.
    + destruct (IH m' (push_parsed ctxt (inr (inr (mkDataField (view_new (default [] (name f))) (mkDataRest ct (file_name f) f))))))
        as (ps & Hy & Hl); [lia|]. eexists. split; [by eapply yields_data|]. exact Hl.
    + destruct (text f m') as [[t|e] m''] eqn:Ht; pose proof (text_remaining _ _ _ _ Ht).
      * destruct (IH m'' (push_parsed ctxt (inr (inl (field_from (default [] (name f), t)))))) as (ps & Hy & Hl); [lia|].
        eexists. split; [by eapply yields_value|]. exact Hl.
      * destruct (IH m'' (push_parsed ctxt (inl (from_multer e)))) as (ps & Hy & Hl); [lia|].
        eexists. split; [by eapply yields_bad_text|]. exact Hl.
  - exists []. split; [by eapply yields_end|done].
  - exists [PError (from_multer e)]. split; [by eapply yields_error|]. destruct n as [|n]; [lia|]. done.
Qed.
(** C27: The form guard refines the push parser.  A request of another content
    type is forwarded with 415 and its body.  A url-encoded form is cut at the
    limit: one that is no UTF-8 then is refused with the error of reading, a
    longer one with 413, and otherwise the outcome is that of pushing the decoded
    pieces of the body in order.  A multipart form without a boundary is
    refused; else the outcome is that of pushing what the stream yields, of
    which nothing is lost up to its end or first error.  There is fuel that is
    enough, and more changes nothing. *)
Theorem form_guard_spec ct limits (data : TransformedData (T := Tr)) :
  peekable_wf (stream data) → None ∉ reader (stream data) →
  let form_limit := default FORM (Limits.get #"form" limits) in
  let seen := within form_limit data in
  let guard fuel := form_guard io_failure T fuel ct limits data in
  (is_type MediaType.Form ct = false → is_type MediaType.FormData ct = false →
     ∀ fuel, guard fuel = Some (Forward (data, Status.UnsupportedMediaType))) ∧
  (is_type MediaType.Form ct = true → ∀ fuel, S (length (value seen)) ≤ fuel →
     guard fuel = Some (
       if negb (is_utf8 (value seen)) then Outcome.Error (Status.BadRequest, [io_error io_failure])
       else if decide (length (Data.content (stream data)) ≤ Z.to_nat form_limit)
       then outcome (run_parser T Lenient (PValue <$> (decoded_field <$> pieces (value seen))))
       else Outcome.Error (Status.PayloadTooLarge, [error_from (InvalidLength None (Some form_limit))]))) ∧
  (is_type MediaType.Form ct = false → is_type MediaType.FormData ct = true →
     (ct ≫= MediaType.param #"boundary" = None → ∀ fuel, ∃ e, guard fuel = Some (Outcome.Error (status e, [e]))) ∧
     ∀ boundary, ct ≫= MediaType.param #"boundary" = Some boundary →
       let data_limit := default DATA_FORM (Limits.get #"data-form" limits) in
       let m := multipart_new (open (byte_unit_succ data_limit) data) boundary data_limit data_limit in
       ∀ fuel, S (remaining m) < fuel →
         ∃ ps, yields m ps ∧ guard fuel = Some (outcome (run_parser T Lenient ps))).
Proof.
  intros Hwf Hio form_limit seen guard. unfold guard, form_guard, parser_new. split_and!.
  - intros -> -> fuel. done.
  - intros -> fuel Hfuel. unfold from_form. fold form_limit. rewrite open_into_string by done. fold seen. cbn [mbind option_bind].
    destruct (is_utf8 (value seen)); simpl negb; [|done].
    unfold is_complete. change (complete (n seen)) with (bool_decide (length (Data.content (stream data)) ≤ Z.to_nat form_limit)).
    case_decide; [rewrite bool_decide_eq_true_2 by done|by rewrite bool_decide_eq_false_2].
    cbn [mbind option_bind]. rewrite raw_loop, parser_run_spec by lia. done.
  - intros -> ->. unfold from_multipart. split.
    + intros Hb fuel. destruct ct as [c|]; [simpl in Hb; rewrite Hb; by eexists|by eexists].
    + intros boundary Hb fuel Hfuel. destruct ct as [c|]; [|done]. simpl in Hb. rewrite Hb. cbn [mbind option_bind].
      destruct (multipart_loop fuel _ (init T Lenient) Hfuel) as (ps & Hy & Hl). exists ps. split; [done|]. by rewrite Hl.
Qed.
End form_guard_spec.

(** ** A concrete instance *)

Module FormGuardReference.
Import DataStream.AdaptorReference TokioReference UncasedOrdReference Reference.
Import PearReference PearCombinatorsReference.

(** A multipart body as the lines of what the stream yields, each a field with
    its name before a colon. *)
#[export] Instance multer_ref : Multer (DataStream (Inspect nat) (list (option str))) := {|
  Multipart := list str;
  MField := str;
  no_multipart := OtherMulter #"no multipart";
  no_boundary := OtherMulter #"no boundary";
  multipart_new s _ _ _ := match into_string s with Some (Some c) => split_on "|" (value c) | _ => [] end;
  next_field m := match m with f :: m => (inl (Some f), m) | [] => (inl None, []) end;
  name f := fst <$> split_once ":" f;
  file_name _ := None;
  content_type _ := None;
  text f m := (inl (default f (snd <$> split_once ":" f)), m) |}.

#[export] Instance multer_laws : MulterLaws (DataStream (Inspect nat) (list (option str))).
Proof.
  refine {| remaining := (length : Multipart (DataStream (Inspect nat) (list (option str))) → nat) |}.
  - intros [|f0 m] f m' Hf; simplify_eq/=. lia.
  - intros f m r m' Ht. by simplify_eq/=.
Qed.

(** The values of a form. *)
#[export] Instance values_form {D} : FromForm D (list str) := {|
  FromForm.Context := list str;
  init _ := [];
  push_value f vs := vs ++ [field_value f];
  push_data _ vs := vs;
  push_error _ vs := vs;
  finalize vs := inr vs |}.

Definition login : TransformedData (T := Inspect nat) :=
  data_new (Peekable_with #"u=a" 3 false [Some #"nn&p="; Some #"%31"]).

Example form_guard_witness :
  form_guard (Tr := Inspect nat) (0, #"io") (list str) 20 (Some (media_type_of MediaType.Form)) limits_new login
    = Some (Success [ #"ann"; #"1"]).
Proof.
  destruct (form_guard_spec (Tr := Inspect nat) (T := list str) (0, #"io") (Some (media_type_of MediaType.Form)) limits_new login)
    as (_ & Hf & _).
  - split; [by repeat constructor|done].
  - set_solver.
  - rewrite Hf; [by vm_compute|by vm_compute|]. apply (bool_decide_unpack _). by vm_compute.
Defined.
End FormGuardReference.
