(* ===== verification/TempFile.v ===== *)
(** * TempFile: files made of uploads (core/lib/src/fs/temp_file.rs)

    The file system is a state that the operations of [tokio::fs] and of the
    crate [tempfile] change.  An operation that runs on the pool for blocking
    calls may be lost with it; the file of a temporary path that is lost or
    dropped is removed.  [unit + E] is an [io::Result<()>]. *)

From S2P Require Import Prelude Crates RawStr Status Outcome Header MediaType UriTables MediaParse.
From S2P Require Import Streams Data Limits DataStream FormName FormParser.
From S2P Require FileServer.

(** [std::fs] and [tempfile].  [alias] holds of two paths that name one
    file. *)
Class TempFiles := {
  Fs : Type;
  IoError : Type;
  TempPath : Type;
  broken_pipe : IoError;
  alias : str → str → Prop;
  contents : str → Fs → option str;
  temp_as_path : TempPath → str;
  fs_write : str → str → Fs → (unit + IoError) * Fs;
  fs_rename : str → str → Fs → (unit + IoError) * Fs;
  fs_copy : str → str → Fs → (unit + IoError) * Fs;
  fs_remove_file : str → Fs → (unit + IoError) * Fs;
  temp_new_in : str → Fs → option (TempPath + IoError) * Fs;
  temp_persist : TempPath → str → Fs → option (unit + TempPath * IoError) * Fs;
  temp_keep : TempPath → Fs → option (str + TempPath * IoError) * Fs;
  temp_drop : TempPath → Fs → Fs;
}.

Section kept.
Context `{TempFiles}.

(** The files but those that [p] names are as they were. *)
Definition others_kept (p : str) (s s' : Fs) : Prop :=
  ∀ q, ¬ alias q p → contents q s' = contents q s.

(** All the files are as they were. *)
Definition kept (s s' : Fs) : Prop := ∀ q, contents q s' = contents q s.
End kept.

(** What succeeds does what it says and leaves other files alone; renaming,
    removing and the operations on temporary paths change nothing when they
    fail. *)
Class TempFilesLaws `{TempFiles} : Prop := {
  alias_refl p : alias p p;
  alias_sym p q : alias p q → alias q p;
  alias_contents p q s : alias p q → contents p s = contents q s;
  fs_write_spec p c s r s' :
    fs_write p c s = (r, s') →
    others_kept p s s' ∧ (r = inl tt → contents p s' = Some c);
  fs_rename_spec p q s r s' :
    fs_rename p q s = (r, s') →
    match r with
    | inl _ =>
      is_Some (contents p s) ∧ contents q s' = contents p s ∧ (¬ alias p q → contents p s' = None) ∧
      ∀ x, ¬ alias x p → ¬ alias x q → contents x s' = contents x s
    | inr _ => kept s s'
    end;
  fs_copy_spec p q s r s' :
    fs_copy p q s = (r, s') → ¬ alias p q →
    others_kept q s s' ∧ (r = inl tt → is_Some (contents p s) ∧ contents q s' = contents p s);
  fs_remove_spec p s r s' :
    fs_remove_file p s = (r, s') →
    match r with inl _ => contents p s' = None ∧ others_kept p s s' | inr _ => kept s s' end;
  temp_new_spec d s t s' :
    temp_new_in d s = (Some (inl t), s') →
    contents (temp_as_path t) s = None ∧ contents (temp_as_path t) s' = Some [] ∧
    others_kept (temp_as_path t) s s';
  temp_new_fails d s r s' q :
    temp_new_in d s = (r, s') → (∀ t, r ≠ Some (inl t)) → is_Some (contents q s) → contents q s' = contents q s;
  temp_persist_spec t q s r s' :
    temp_persist t q s = (Some r, s') →
    match r with
    | inl _ =>
      is_Some (contents (temp_as_path t) s) ∧ contents q s' = contents (temp_as_path t) s ∧
      (¬ alias (temp_as_path t) q → contents (temp_as_path t) s' = None) ∧
      ∀ x, ¬ alias x (temp_as_path t) → ¬ alias x q → contents x s' = contents x s
    | inr (t', _) => temp_as_path t' = temp_as_path t ∧ kept s s'
    end;
  temp_keep_spec t s r s' :
    temp_keep t s = (Some r, s') →
    match r with
    | inl p => p = temp_as_path t ∧ kept s s'
    | inr (t', _) => temp_as_path t' = temp_as_path t ∧ kept s s'
    end;
  temp_drop_spec t s : others_kept (temp_as_path t) s (temp_drop t s);
}.

Section TempFile.
Context `{TempFiles}.

(** [enum TempFile]. *)
Inductive TempFile :=
  | File (file_name : option str) (content_type : option MediaType) (path : TempPath + str) (len : nat)
  | Buffered (content : str).

Definition either_path (path : TempPath + str) : str :=
  match path with inl p => temp_as_path p | inr p => p end.

Definition with_path (path : TempPath + str) (self : TempFile) : TempFile :=
  match self with
  | File file_name content_type _ len => File file_name content_type path len
  | Buffered content => Buffered content
  end.

(** The file a buffered value is written to. *)
Definition file_of (path content : str) : TempFile := File None None (inr path) (length content).

(** [TempFile::persist_to]. *)
Definition persist_to (new_path : str) (self : TempFile) (s : Fs) : (unit + IoError) * TempFile * Fs :=
  match self with
  | File _ _ path _ =>
    let replaced := with_path (inr new_path) self in
    match path with
    | inl temp =>
      match temp_persist temp new_path s with
      | (None, s) => (inr broken_pipe, replaced, s)
      | (Some (inl _), s) => (inl tt, replaced, s)
      | (Some (inr (temp, e)), s) => (inr e, with_path (inl temp) self, s)
      end
    | inr prev =>
      match fs_rename prev new_path s with
      | (inl _, s) => (inl tt, replaced, s)
      | (inr e, s) => (inr e, with_path (inr prev) self, s)
      end
    end
  | Buffered content =>
    match fs_write new_path content s with
    | (inl _, s) => (inl tt, file_of new_path content, s)
    | (inr e, s) => (inr e, self, s)
    end
  end.

(** [TempFile::copy_to]. *)
Definition copy_to (path : str) (self : TempFile) (s : Fs) : (unit + IoError) * TempFile * Fs :=
  match self with
  | File _ _ either _ =>
    let replaced := with_path (inr (either_path either)) self in
    let copy (s : Fs) := let '(r, s) := fs_copy (either_path either) path s in (r, replaced, s) in
    match either with
    | inl temp =>
      match temp_keep temp s with
      | (None, s) => (inr broken_pipe, replaced, s)
      | (Some (inl _), s) => copy s
      | (Some (inr (temp, e)), s) => (inr e, with_path (inl temp) self, s)
      end
    | inr _ => copy s
    end
  | Buffered content =>
    match fs_write path content s with
    | (inl _, s) => (inl tt, file_of path content, s)
    | (inr e, s) => (inr e, self, s)
    end
  end.

(** [TempFile::move_copy_to]. *)
Definition move_copy_to (dest : str) (self : TempFile) (s : Fs) : (unit + IoError) * TempFile * Fs :=
  match copy_to dest self s with
  | (inr e, self, s) => (inr e, self, s)
  | (inl _, self, s) =>
    match self with
    | File _ _ path _ =>
      match fs_remove_file (either_path path) s with
      | (inr e, s) => (inr e, self, s)
      | (inl _, s) => (inl tt, with_path (inr dest) self, s)
      end
    | Buffered _ => (inl tt, self, s)
    end
  end.

(** [TempFile::open], what reading yields; [len], [is_empty], [path], [name],
    [raw_name], [content_type]. *)
Definition open_contents (self : TempFile) (s : Fs) : option str :=
  match self with
  | File _ _ path _ => contents (either_path path) s
  | Buffered content => Some content
  end.

Definition len (self : TempFile) : nat :=
  match self with File _ _ _ len => len | Buffered content => length content end.
Definition is_empty (self : TempFile) : bool := len self =? 0.
Definition path (self : TempFile) : option str :=
  match self with File _ _ path _ => Some (either_path path) | Buffered _ => None end.
Definition raw_name (self : TempFile) : option str :=
  match self with File file_name _ _ _ => file_name | Buffered _ => None end.
Definition name (self : TempFile) : option str := raw_name self ≫= FileServer.as_str.
Definition content_type (self : TempFile) : option MediaType :=
  match self with File _ content_type _ _ => content_type | Buffered _ => None end.

(** Dropping the value drops the temporary path it has. *)
Definition drop_file (self : TempFile) (s : Fs) : Fs :=
  match self with File _ _ (inl temp) _ => temp_drop temp s | _ => s end.
End TempFile.

(** ** Making one *)

Section from.
Context {Tr : Type} `{Transform Tr} `{TokioIo}.
Abbreviation Source := (Chain.Chain Cursor (list (option str))).
Abbreviation Stream := (DataStream Tr (list (option str))).
Context `{!TokioTake Source} `{!AsyncReadExt (Source * nat)} `{!AsyncReadExt Stream}.
Context `{UncasedOrd} `{Uncased} `{TempFiles}.

(** The errors of a blocking task that is lost and of a read. *)
Context (spawn_error read_error : IoError).

(** The limit of [TempFile::from]. *)
Definition file_limit (limits : Limits) (content_type : option MediaType) : Z :=
  match (ct ← content_type; ext ← extension ct; Limits.find [ #"file"; ext] limits) with
  | Some limit => limit
  | None => default FILE (Limits.get #"file" limits)
  end.

(** [TempFile::from]: the stream is copied to the new file; a file that is not
    complete is dropped. *)
Definition from (limits : Limits) (temp_dir : str) (data : TransformedData) (file_name : option str)
    (content_type : option MediaType) (s : Fs) : option ((Capped TempFile + IoError) * Fs) :=
  let limit := file_limit limits content_type in
  match temp_new_in temp_dir s with
  | (None, s) => Some (inr spawn_error, s)
  | (Some (inr e), s) => Some (inr e, s)
  | (Some (inl temp_path), s) =>
    n ← into_bytes (open limit data : Stream);
    Some match n with
    | None => (inr read_error, temp_drop temp_path s)
    | Some n =>
      match fs_write (temp_as_path temp_path) (value n) s with
      | (inl _, s) =>
        (inl (Capped_new (File file_name content_type (inl temp_path) (written (DataStream.n n)))
                (DataStream.n n)), s)
      | (inr e, s) => (inr e, temp_drop temp_path s)
      end
    end
  end.

(** [FromFormField for Capped<TempFile>]: of a value field, and of data. *)
Definition from_value (field : ValueField) : Capped TempFile :=
  let n := N_with (length (field_value field)) true in
  Capped_new (Buffered (field_value field)) n.

Definition from_field_data (limits : Limits) (temp_dir : str) (data : TransformedData)
    (file_name : option str) (content_type : MediaType) (s : Fs) :=
  from limits temp_dir data file_name (Some content_type) s.

(** [FromData for Capped<TempFile>]; [ct] is the request's content type. *)
Definition from_data (limits : Limits) (temp_dir : str) (ct : option MediaType)
    (data : TransformedData) (s : Fs) :
    option (Outcome (Capped TempFile) (Status * IoError) (TransformedData (T := Tr) * Status) * Fs) :=
  '(r, s) ← from limits temp_dir data None ct s;
  Some (Outcome.result_or_error r Status.BadRequest, s).
End from.

(** ** What becomes of the contents *)

(** The operations that move a file about. *)
Inductive Op := Persist (p : str) | Copy (p : str) | MoveCopy (p : str).

Definition target (op : Op) : str := match op with Persist p | Copy p | MoveCopy p => p end.

Section history.
Context `{TempFilesLaws}.

Definition apply_op (op : Op) : TempFile → Fs → (unit + IoError) * TempFile * Fs :=
  match op with
  | Persist p => persist_to p
  | Copy p => copy_to p
  | MoveCopy p => move_copy_to p
  end.

Definition run (ops : list Op) (st : TempFile * Fs) : TempFile * Fs :=
  foldl (λ st op, let '(_, self, s) := apply_op op st.1 st.2 in (self, s)) st ops.

(** What the caller has to see to: files are not copied onto themselves, a value
    in memory is not moved by a copy, and the pool does not lose the task. *)
Definition careful (op : Op) (self : TempFile) (s : Fs) : Prop :=
  match self with
  | File _ _ path _ =>
    match op with
    | Persist p => ∀ t, path = inl t → (temp_persist t p s).1 ≠ None
    | Copy p | MoveCopy p =>
      ¬ alias (either_path path) p ∧ ∀ t, path = inl t → (temp_keep t s).1 ≠ None
    end
  | Buffered _ => match op with MoveCopy _ => False | _ => True end
  end.

Fixpoint all_careful (ops : list Op) (st : TempFile * Fs) : Prop :=
  match ops with
  | [] => True
  | op :: ops => careful op st.1 st.2 ∧ all_careful ops (run [op] st)
  end.

(** The value stands for the bytes [c]. *)
Definition holds (c : str) (self : TempFile) (s : Fs) : Prop :=
  open_contents self s = Some c ∧ len self = length c.

(** The path after a successful operation. *)
Definition path_after (op : Op) (self : TempFile) : str :=
  match op, path self with Copy _, Some q => q | _, _ => target op end.

(** What an operation does, success or not. *)
Definition op_result (c : str) (op : Op) (self self' : TempFile) (s s' : Fs) (r : unit + IoError) : Prop :=
  holds c self' s' ∧
  match r with
  | inl _ =>
    contents (target op) s' = Some c ∧ path self' = Some (path_after op self) ∧
    (∀ q, path self = Some q → ¬ alias q (path_after op self) → contents q s' = None)
  | inr _ => path self' = path self ∧ (∀ q, path self = Some q → contents q s' = Some c)
  end ∧
  ∀ x, ¬ alias x (target op) → (∀ q, path self = Some q → ¬ alias x q) → contents x s' = contents x s.

Lemma persist_result c p self s r self' s' :
  careful (Persist p) self s → holds c self s → persist_to p self s = (r, self', s') →
  op_result c (Persist p) self self' s s' r.
Proof.
  intros Hca [Ho Hl]. destruct self as [fn ct [t|q] l|b]; simpl in *.
  - destruct (temp_persist t p s) as [[[u|[t' e]]|] s1] eqn:E; [| |destruct (Hca t eq_refl); by rewrite E].
    + apply temp_persist_spec in E as (_ & Hp & Hn & Hx). intros [= <- <- <-]. rewrite Ho in Hp.
      split; [done|]. split; [|simpl; auto]. split_and!; [done|done|]. by intros q [= <-].
    + apply temp_persist_spec in E as (Ht & Hk). intros [= <- <- <-].
      split; [split; simpl; [by rewrite Hk, Ht|done]|]. split; [|intros; apply Hk].
      split; [simpl; by rewrite Ht|]. intros q [= <-]. by rewrite Hk.
  - destruct (fs_rename q p s) as [[[]|e] s1] eqn:E; apply fs_rename_spec in E; intros [= <- <- <-].
    + destruct E as (_ & Hp & Hn & Hx). rewrite Ho in Hp.
      split; [done|]. split; [|simpl; auto]. split_and!; [done|done|]. by intros ? [= <-].
    + split; [split; simpl; [by rewrite E|done]|]. split; [|intros; apply E].
      split; [done|]. intros ? [= <-]. by rewrite E.
  - destruct (fs_write p b s) as [[[]|e] s1] eqn:E; apply fs_write_spec in E as [Hx Hp]; intros [= <- <- <-].
    + specialize (Hp eq_refl). simplify_eq. split; [done|]. split; [done|]. intros x Hxp _. by apply Hx.
    + split; [done|]. split; [done|]. intros x Hxp _. by apply Hx.
Qed.

(** Copying a file that is kept. *)
Lemma copied_result c p q fn ct l (s : Fs) r (s' : Fs) :
  contents q s = Some c → l = length c → ¬ alias q p → fs_copy q p s = (r, s') →
  holds c (File fn ct (inr q) l) s' ∧ (r = inl tt → contents p s' = Some c) ∧ others_kept p s s'.
Proof.
  intros Ho Hl Ha Hc. apply fs_copy_spec in Hc as [Hx Hp]; [|done]. split; [|split; [|done]].
  - split; simpl; [by rewrite Hx|done].
  - intros Hr. destruct (Hp Hr) as [_ ->]. done.
Qed.

Lemma copy_result c p self s r self' s' :
  careful (Copy p) self s → holds c self s → copy_to p self s = (r, self', s') →
  op_result c (Copy p) self self' s s' r ∧
  (∀ q, path self = Some q → contents q s' = Some c) ∧
  (r = inl tt → ∃ fn ct l, self' = File fn ct (inr (path_after (Copy p) self)) l).
Proof.
  intros Hca [Ho Hl]. destruct self as [fn ct e l|b]; simpl in *.
  2: { destruct (fs_write p b s) as [[[]|e] s1] eqn:E; apply fs_write_spec in E as [Hx Hp]; intros [= <- <- <-].
       - specialize (Hp eq_refl). simplify_eq. split; [|split; [done|]].
         + split; [done|]. split; [done|]. intros x Hxp _. by apply Hx.
         + intros _. by eexists _, _, _.
       - split; [|done]. split; [done|]. split; [done|]. intros x Hxp _. by apply Hx. }
  destruct Hca as [Ha Hk].
  assert (∀ s0, kept s s0 → (let '(r, s) := fs_copy (either_path e) p s0 in
            (r, File fn ct (inr (either_path e)) l, s)) = (r, self', s') →
          op_result c (Copy p) (File fn ct e l) self' s s' r ∧
          (∀ q, Some (either_path e) = Some q → contents q s' = Some c) ∧
          (r = inl tt → ∃ fn ct l, self' = File fn ct (inr (either_path e)) l)) as Hcopy.
  { intros s0 Hs0. destruct (fs_copy (either_path e) p s0) as [r0 s1] eqn:E. intros [= <- <- <-].
    rewrite <-(Hs0 (either_path e)) in Ho.
    destruct (copied_result c p _ fn ct l s0 r0 s1 Ho Hl Ha E) as ([Hc _] & Hp & Hx).
    assert (∀ x, ¬ alias x p → contents x s1 = contents x s) as Hx' by (intros; by rewrite Hx).
    split; [|split; [by intros ? [= <-]|by intros _; eexists _, _, _]].
    split; [done|]. split; [|intros x Hxp _; by apply Hx'].
    destruct r0 as [[]|e0]; [|split; [done|by intros ? [= <-]]].
    split; [by apply Hp|]. split; [done|]. intros q [= <-] Hq. by destruct Hq; apply alias_refl. }
  destruct e as [t|q]; [|by apply Hcopy].
  destruct (temp_keep t s) as [[[u|[t' e]]|] s1] eqn:E; [| |destruct (Hk t eq_refl); by rewrite E].
  - apply temp_keep_spec in E as [_ Hkept]. by apply Hcopy.
  - apply temp_keep_spec in E as (Ht & Hkept). intros [= <- <- <-]. simpl in *.
    split; [|split; [intros q [= <-]; by rewrite Hkept|done]].
    split; [split; simpl; [by rewrite Hkept, Ht|done]|]. split; [|intros; apply Hkept].
    split; [simpl; by rewrite Ht|]. intros q [= <-]. by rewrite Hkept.
Qed.

Lemma move_result c p self s r self' s' :
  careful (MoveCopy p) self s → holds c self s → move_copy_to p self s = (r, self', s') →
  op_result c (MoveCopy p) self self' s s' r.
Proof.
  intros Hca Hh. unfold move_copy_to. destruct (copy_to p self s) as [[r1 self1] s1] eqn:E.
  destruct self as [fn ct e l|b]; [|done]. destruct Hca as [Ha Hk].
  destruct (copy_result c p (File fn ct e l) s r1 self1 s1) as ((Hh1 & Hr & Hx) & Hsrc & Hself); [by split|done|done|].
  destruct r1 as [[]|e1].
  2: { intros [= <- <- <-]. by split. }
  destruct (Hself eq_refl) as (fn' & ct' & l' & ->). cbn [path_after target path] in *.
  specialize (Hsrc _ eq_refl). destruct Hr as (Hp & _ & _). cbn [either_path].
  destruct (fs_remove_file (either_path e) s1) as [[[]|e2] s2] eqn:R; apply fs_remove_spec in R; intros [= <- <- <-].
  - destruct R as [Hn Ho].
    assert (contents p s2 = Some c) as Hp2 by (rewrite Ho; [done|by intros Hal%alias_sym]).
    destruct Hh1 as [_ Hl1]. split; [done|]. split.
    + split; [done|]. split; [done|]. by intros q [= <-].
    + intros x Hxp Hxe. rewrite Ho by by apply Hxe. by apply Hx.
  - destruct Hh1 as [Ho1 Hl1]. split; [split; simpl; [by rewrite R|done]|]. split.
    + split; [done|]. intros q [= <-]. by rewrite R.
    + intros x Hxp Hxe. rewrite R. by apply Hx.
Qed.

Lemma op_results c op self s r self' s' :
  careful op self s → holds c self s → apply_op op self s = (r, self', s') →
  op_result c op self self' s s' r.
Proof.
  destruct op; simpl; [apply persist_result| |apply move_result].
  intros Hc Hh E. by destruct (copy_result _ _ _ _ _ _ _ Hc Hh E).
Qed.

Lemma run_holds c ops self s :
  all_careful ops (self, s) → holds c self s → holds c (run ops (self, s)).1 (run ops (self, s)).2.
Proof.
  revert self s. induction ops as [|op ops IH]; intros self s; [done|]. cbn [all_careful fst snd].
  intros [Hc Hall] Hh. unfold run in *. cbn [foldl fst snd] in *.
  destruct (apply_op op self s) as [[r self'] s'] eqn:E.
  apply IH; [done|]. by destruct (op_results c op self s r self' s' Hc Hh E).
Qed.

End history.

(** A value in memory that is moved by a copy is lost: the file that was just
    written is removed. *)
Lemma move_copy_loses `{TempFilesLaws} dest content (s : Fs) :
  let '(r, self', s') := move_copy_to dest (Buffered content) s in
  r = inl tt → path self' = Some dest ∧ open_contents self' s' = None.
Proof.
  unfold move_copy_to. simpl. destruct (fs_write dest content s) as [[[]|e] s1]; [|done]. simpl.
  destruct (fs_remove_file dest s1) as [[[]|e] s2] eqn:E; [|done]. intros _.
  by apply fs_remove_spec in E as [Hn _].
Qed.

Section made.
Context {T : Type} `{PlainTransform T} `{TokioIoLaws}.
Abbreviation Source := (Chain.Chain Cursor (list (option str))).
Abbreviation Stream := (DataStream T (list (option str))).
Context `{!TokioTake Source} `{!TokioTakeLaws Source}.
Context `{!AsyncReadExt (Source * nat)} `{!AsyncReadExt Stream}.
Context `{!AsyncReadExtLaws (Source * nat)} `{!AsyncReadExtLaws Stream}.
Context `{UncasedOrd} `{Uncased} `{TempFilesLaws}.
Context (spawn_error read_error : IoError).

Lemma file_not_alias t q (s : Fs) :
  contents (temp_as_path t) s = None → is_Some (contents q s) → ¬ alias q (temp_as_path t).
Proof. intros Hn [x Hx] Ha. rewrite (alias_contents _ _ s Ha) in Hx. congruence. Qed.

(** An upload becomes a file that holds exactly the bytes of the body within
    the limit of its content type, transformed, in a temporary file that is
    new, with the flag that says whether that is the whole body; when it fails,
    and in any case, no file there was before is touched.  A field of a form
    that is no file holds its own bytes. *)
Theorem temp_file_made limits dir (data : TransformedData (T := T)) fn ct (s : Fs) field :
  peekable_wf (stream data) → None ∉ reader (stream data) →
  let upload := within (file_limit limits ct) data in
  (∃ r s', from spawn_error read_error limits dir data fn ct s = Some (r, s') ∧
    (∀ q, is_Some (contents q s) → contents q s' = contents q s) ∧
    match r with
    | inl file =>
      holds (value upload) (value file) s' ∧ n file = n upload ∧ raw_name (value file) = fn ∧
      content_type (value file) = ct ∧
      ∃ t, value file = File fn ct (inl t) (written (n upload)) ∧ contents (temp_as_path t) s = None
    | inr _ => True
    end) ∧
  holds (field_value field) (value (from_value field)) s ∧ is_complete (from_value field) = true.
Proof.
  intros Hwf Hio upload. split; [|done]. unfold from. fold upload.
  destruct (temp_new_in dir s) as [[[t|e]|] s1] eqn:E.
  2, 3: eexists _, s1; split; [done|]; split; [|done]; intros q; by apply (temp_new_fails _ _ _ _ _ E).
  destruct (temp_new_spec _ _ _ _ E) as (Hn & _ & Ho).
  rewrite open_into_bytes by done. fold upload. cbn [mbind option_bind].
  assert (∀ q, is_Some (contents q s) → ¬ alias q (temp_as_path t)) as Hq
    by (intros q; by apply file_not_alias).
  destruct (fs_write (temp_as_path t) (value upload) s1) as [[[]|e] s2] eqn:W;
    apply fs_write_spec in W as [Hk Hc].
  - eexists _, s2. split; [done|]. split; [intros q Hs; by rewrite Hk, Ho by by apply Hq|].
    split; [split; [by apply Hc|done]|]. split_and!; [done..|]. eauto.
  - eexists _, (temp_drop t s2). split; [done|]. split; [|done]. intros q Hs.
    by rewrite temp_drop_spec, Hk, Ho by by apply Hq.
Qed.
End made.

(** ** Files in a map *)

Module TempFileReference.
Abbreviation store := (gmap str str).

Definition rename (p q : str) (s : store) : (unit + unit) * store :=
  match s !! p with
  | None => (inr tt, s)
  | Some c => if bool_decide (p = q) then (inl tt, s) else (inl tt, <[q := c]> (delete p s))
  end.

#[export] Instance files : TempFiles := {
  Fs := store;
  IoError := unit;
  TempPath := str;
  broken_pipe := tt;
  alias := eq;
  contents p s := s !! p;
  temp_as_path := id;
  fs_write p c s := (inl tt, <[p := c]> s);
  fs_rename := rename;
  fs_copy p q s := match s !! p with Some c => (inl tt, <[q := c]> s) | None => (inr tt, s) end;
  fs_remove_file p s := match s !! p with Some _ => (inl tt, delete p s) | None => (inr tt, s) end;
  temp_new_in d s :=
    let p := d ++ #"/.tmp" in
    match s !! p with Some _ => (Some (inr tt), s) | None => (Some (inl p), <[p := []]> s) end;
  temp_persist t q s :=
    let '(r, s) := rename t q s in (Some match r with inl u => inl u | inr e => inr (t, e) end, s);
  temp_keep t s := (Some (inl t), s);
  temp_drop t s := delete t s;
}.

Lemma rename_spec p q s r s' :
  rename p q s = (r, s') →
  match r with
  | inl _ =>
    is_Some (s !! p) ∧ s' !! q = s !! p ∧ (p ≠ q → s' !! p = None) ∧ ∀ x, x ≠ p → x ≠ q → s' !! x = s !! x
  | inr _ => s' = s
  end.
Proof.
  unfold rename. destruct (s !! p) as [c|] eqn:E; [|by intros [= <- <-]].
  case_bool_decide as Hpq; intros [= <- <-].
  - subst. by split_and!.
  - split; [done|]. split; [apply lookup_insert_eq|]. split.
    + intros _. rewrite lookup_insert_ne by done. apply lookup_delete_eq.
    + intros x Hx Hxq. by rewrite lookup_insert_ne, lookup_delete_ne.
Qed.

#[export] Instance files_laws : TempFilesLaws.
Proof.
  split; unfold others_kept, kept; simpl; try (by intros; subst).
  - intros p c s r s' [= <- <-]. split; [|intros _; by rewrite lookup_insert_eq].
    intros q Hq. by rewrite lookup_insert_ne.
  - intros p q s [] s' E; apply rename_spec in E; [done|by subst].
  - intros p q s r s'. destruct (s !! p) as [c|] eqn:E; intros [= <- <-] Hpq; split; try done.
    + intros x Hx. by rewrite lookup_insert_ne.
    + intros _. by rewrite lookup_insert_eq.
  - intros p s r s'. destruct (s !! p) eqn:E; intros [= <- <-]; [|done].
    split; [apply lookup_delete_eq|]. intros q Hq. by rewrite lookup_delete_ne.
  - intros d s t s'. destruct (s !! _) eqn:E; [done|]. intros [= <- <-]. unfold id.
    rewrite lookup_insert_eq. split_and!; [done..|]. intros q Hq. by rewrite lookup_insert_ne.
  - intros d s r s' q. destruct (s !! (d ++ _)) eqn:E; intros [= <- <-] Hr; [done|]. by destruct (Hr (d ++ #"/.tmp")).
  - intros t q s r s'. destruct (rename t q s) as [r0 s0] eqn:E. apply rename_spec in E.
    destruct r0 as [[]|[]]; intros [= <- <-]; [done|by subst].
  - intros t s r s' [= <- <-]. done.
  - intros t s q Hq. by rewrite lookup_delete_ne.
Qed.

Import AdaptorReference TokioReference UncasedOrdReference Reference.

(** A field in memory is persisted and copied. *)
Definition history : list Op := [Persist #"/a"; Copy #"/b"].


Definition io_failed : IoError (TempFiles := files) := tt.

(** An upload of six bytes, under a limit of four. *)
Definition upload : TransformedData (T := Inspect nat) :=
  data_new (Peekable_with (#"ab") 2 false [Some (#"c"); Some (#"def")]).

Definition upload_limits : Limits := limit (#"file") 4 limits_new.

Example temp_file_made_witness :
  ∃ r s', from io_failed io_failed upload_limits #"/tmp" upload None None ∅ = Some (r, s') ∧
    match r with inl file => contents #"/tmp/.tmp" s' = Some #"abcd" ∧ is_complete file = false | inr _ => False end.
Proof.
  destruct (temp_file_made (T := Inspect nat) io_failed io_failed upload_limits #"/tmp" upload None None ∅ (field_from (#"a", #"b")))
    as ((r & s' & Hr & _) & _).
  - split; [by repeat constructor|done].
  - set_solver.
  - exists r, s'. split; [exact Hr|].
    assert (match from (Tr := Inspect nat) io_failed io_failed upload_limits #"/tmp" upload None None ∅ with
            | Some (inl file, s') => contents #"/tmp/.tmp" s' = Some #"abcd" ∧ is_complete file = false
            | _ => False
            end) as Hv by (by vm_compute).
    rewrite Hr in Hv. by destruct r.
Defined.
End TempFileReference.
