(* ===== verification/SerdeGuards.v ===== *)
(** * SerdeGuards: JSON and MessagePack values as data guards, form fields and
    responses (core/lib/src/serde/json.rs, msgpack.rs)

    Parsing and printing is done by [serde_json] and [rmp_serde], interfaces
    here; a type [T] that is read and written is an instance of them.  The
    kind of an error of reading is whether it is an unexpected end. *)

From S2P Require Import Prelude Crates RawStr Status Outcome Header Method MediaType UriTables MediaParse.
From S2P Require Import Request Cookies Response Responders Streams Data Limits DataStream FormName FormParser FormError.

(** [serde_json]: the error of a text says whether it is JSON of another
    shape ([Category::Data]). *)
Class SerdeJson (T : Type) := {
  json_error : Type;
  is_data_error : json_error → bool;
  json_error_text : json_error → str;
  json_from_str : str → T + json_error;
  json_to_string : T → option str;
}.
Arguments json_error T {_}.

(** [rmp_serde], with the errors the guard tells apart; those of reading have
    an I/O error, of a kind. *)
Inductive MsgPackError (E : Type) :=
  | InvalidDataRead (eof : bool)
  | InvalidMarkerRead (eof : bool)
  | TypeMismatch
  | OutOfRange
  | LengthMismatch (len : nat)
  | Utf8Error (e : str)
  | OtherError (e : E).
Arguments InvalidDataRead {E}.
Arguments InvalidMarkerRead {E}.
Arguments TypeMismatch {E}.
Arguments OutOfRange {E}.
Arguments LengthMismatch {E}.
Arguments Utf8Error {E}.
Arguments OtherError {E}.

Class RmpSerde (T : Type) := {
  rmp_error : Type;
  rmp_error_text : MsgPackError rmp_error → str;
  rmp_from_slice : str → T + MsgPackError rmp_error;
  rmp_to_vec : T → option str;
  rmp_to_vec_named : T → option str;
}.
Arguments rmp_error T {_}.

(** [enum Error] of json.rs; an I/O error is whether its kind is
    [UnexpectedEof]. *)
Inductive JsonError (T : Type) `{SerdeJson T} :=
  | JIo (eof : bool)
  | JParse (s : str) (e : json_error T).
Arguments JIo {T _}.
Arguments JParse {T _}.

Section guards.
Context {Tr : Type} `{Transform Tr} `{TokioIo}.
Abbreviation Source := (Chain.Chain Cursor (list (option str))).
Abbreviation Stream := (DataStream Tr (list (option str))).
Context `{!TokioTake Source} `{!AsyncReadExt (Source * nat)} `{!AsyncReadExt Stream}.
Context `{UncasedOrd} `{StablePattern}.

(** Whether a read that fails says that the end was unexpected. *)
Context (read_eof : bool).

Definition GuardOutcome (A E : Type) : Type := Outcome A (Status * E) (TransformedData (T := Tr) * Status).

(** ** JSON *)

Section json.
Context {T : Type} `{SerdeJson T}.

(** [Json::from_str]; the wrapper [Json] is its value. *)
Definition json_parse (s : str) : T + JsonError T :=
  match json_from_str s with inl v => inl v | inr e => inr (JParse s e) end.

(** [Json::from_data], of the limits of the request and its data. *)
Definition json_from_data (limits : Limits) (data : TransformedData) : option (T + JsonError T) :=
  let limit := default JSON (Limits.get #"json" limits) in
  string ← into_string (open limit data : Stream);
  Some match string with
  | Some s => if is_complete s then json_parse (value s) else inr (JIo true)
  | None => inr (JIo read_eof)
  end.

(** [FromData for Json]. *)
Definition json_guard (limits : Limits) (data : TransformedData) : option (GuardOutcome T (JsonError T)) :=
  r ← json_from_data limits data;
  Some match r with
  | inl value => Success value
  | inr (JIo true) => Outcome.Error (Status.PayloadTooLarge, JIo true)
  | inr (JParse s e) =>
    if is_data_error e then Outcome.Error (Status.UnprocessableEntity, JParse s e)
    else Outcome.Error (Status.BadRequest, JParse s e)
  | inr e => Outcome.Error (Status.BadRequest, e)
  end.

(** The form errors of these, and [FromFormField for Json], of a value. *)
Definition json_form_error (io_kind : nat) (io_text : str) (e : JsonError T) : FormError.Error :=
  match e with
  | JIo _ => error_from (Io io_kind io_text)
  | JParse _ e => custom (json_error_text e)
  end.

Definition json_from_value (io_kind : nat) (io_text : str) (field : ValueField) : T + FormError.Error :=
  match json_parse (field_value field) with
  | inl v => inl v
  | inr e => inr (json_form_error io_kind io_text e)
  end.
End json.

(** ** MessagePack *)

Section msgpack.
Context {T : Type} `{RmpSerde T}.
Abbreviation MError := (MsgPackError (rmp_error T)).

(** [MsgPack::from_data]. *)
Definition msgpack_from_data (limits : Limits) (data : TransformedData) : option (T + MError) :=
  let limit := default MESSAGE_PACK (Limits.get #"msgpack" limits) in
  bytes ← into_bytes (open limit data : Stream);
  Some match bytes with
  | Some buf => if is_complete buf then rmp_from_slice (value buf) else inr (InvalidDataRead true)
  | None => inr (InvalidDataRead read_eof)
  end.

(** [FromData for MsgPack]. *)
Definition msgpack_guard (limits : Limits) (data : TransformedData) : option (GuardOutcome T MError) :=
  r ← msgpack_from_data limits data;
  Some match r with
  | inl value => Success value
  | inr (InvalidDataRead true) => Outcome.Error (Status.PayloadTooLarge, InvalidDataRead true)
  | inr TypeMismatch => Outcome.Error (Status.UnprocessableEntity, TypeMismatch)
  | inr OutOfRange => Outcome.Error (Status.UnprocessableEntity, OutOfRange)
  | inr (LengthMismatch n) => Outcome.Error (Status.UnprocessableEntity, LengthMismatch n)
  | inr e => Outcome.Error (Status.BadRequest, e)
  end.

(** The form error of one. *)
Definition msgpack_form_error (io_kind : nat) (io_text : str) (e : MError) : FormError.Error :=
  match e with
  | InvalidMarkerRead _ | InvalidDataRead _ => error_from (Io io_kind io_text)
  | Utf8Error e => error_from (Utf8 e)
  | e => custom (rmp_error_text e)
  end.
End msgpack.
End guards.

(** ** Responses *)

Section responders.
Context {U : Uncased} {P : Pear} {PC : PearCombinators} {IM : IndexMap str (list str) uncased_eq}.
Context {CC : CookieCrate} {IoHandler : Type}.

(** [Responder for Json], [MsgPack], compact or not. *)
Definition json_respond_to `{SerdeJson T} (self : T) (req : Request IM) (jar : CookieJar) :
    Responders.Result (IM := IM) (IoHandler := IoHandler) * CookieJar :=
  match json_to_string self with
  | Some string => Responders.respond_to (Responders.RawJson, Responders.Text_new string) req jar
  | None => (inr Status.InternalServerError, jar)
  end.

Definition msgpack_respond_to `{RmpSerde T} (compact : bool) (self : T) (req : Request IM) (jar : CookieJar) :
    Responders.Result (IM := IM) (IoHandler := IoHandler) * CookieJar :=
  match (if compact then rmp_to_vec self else rmp_to_vec_named self) with
  | Some buf => Responders.respond_to (Responders.RawMsgPack, Responders.Bytes_new buf) req jar
  | None => (inr Status.InternalServerError, jar)
  end.
End responders.

(** ** What the guards give *)

Section laws.
Context {Tr : Type} `{PlainTransform Tr} `{TokioIoLaws}.
Abbreviation Source := (Chain.Chain Cursor (list (option str))).
Abbreviation Stream := (DataStream Tr (list (option str))).
Context `{!TokioTake Source} `{!TokioTakeLaws Source}.
Context `{!AsyncReadExt (Source * nat)} `{!AsyncReadExt Stream}.
Context `{!AsyncReadExtLaws (Source * nat)} `{!AsyncReadExtLaws Stream}.
Context `{UncasedOrd} `{StablePattern}.
Context (read_eof : bool).

(** The outcome of a parse. *)
Definition json_outcome {T} `{SerdeJson T} (s : str) : GuardOutcome (Tr := Tr) T (JsonError T) :=
  match json_from_str s with
  | inl v => Success v
  | inr e =>
    Outcome.Error (if is_data_error e then Status.UnprocessableEntity else Status.BadRequest, JParse s e)
  end.

(** That an error is no I/O error of a cut body. *)
Definition shape_error {E} (e : MsgPackError E) : bool :=
  match e with TypeMismatch | OutOfRange | LengthMismatch _ => true | _ => false end.

Definition msgpack_outcome {T} `{RmpSerde T} (s : str)
    : GuardOutcome (Tr := Tr) T (MsgPackError (rmp_error T)) :=
  match rmp_from_slice s with
  | inl v => Success v
  | inr (InvalidDataRead true) => Outcome.Error (Status.PayloadTooLarge, InvalidDataRead true)
  | inr e =>
    Outcome.Error (if shape_error e then Status.UnprocessableEntity else Status.BadRequest, e)
  end.

(** The JSON and MessagePack guards parse the whole body, however it arrives,
    when it is within the limit, and answer a value of another shape with status
    422 and what is malformed with 400; a longer body is never parsed and
    answered with 413, unless the cut splits a character of JSON, which is
    answered with 400. *)
Theorem serde_guards_spec {A B : Type} {J : SerdeJson A} {R : RmpSerde B} limits (data : TransformedData (T := Tr)) :
  peekable_wf (stream data) → None ∉ reader (stream data) →
  let body := all_effects (transforms data) <$> Data.content (stream data) in
  let json_limit := Z.to_nat (default JSON (Limits.get #"json" limits)) in
  let msgpack_limit := Z.to_nat (default MESSAGE_PACK (Limits.get #"msgpack" limits)) in
  json_guard (T := A) read_eof limits data = Some
    (if is_utf8 (take json_limit body) then
       if bool_decide (length body ≤ json_limit) then json_outcome body
       else Outcome.Error (Status.PayloadTooLarge, JIo true)
     else Outcome.Error (if read_eof then Status.PayloadTooLarge else Status.BadRequest, JIo read_eof)) ∧
  msgpack_guard (T := B) read_eof limits data = Some
    (if bool_decide (length body ≤ msgpack_limit) then msgpack_outcome body
     else Outcome.Error (Status.PayloadTooLarge, InvalidDataRead true)).
Proof.
  intros Hwf Hio. cbv zeta. unfold json_guard, json_from_data, msgpack_guard, msgpack_from_data.
  rewrite open_into_string, open_into_bytes by done. cbn [mbind option_bind]. unfold within, is_complete.
  cbn [DataStream.value DataStream.n DataStream.complete]. rewrite <-!fmap_take, !length_fmap. split; f_equal.
  - destruct (is_utf8 _); [|by destruct read_eof]. case_bool_decide as Hl; [|done].
    rewrite take_ge by done. unfold json_parse, json_outcome. cbn [DataStream.value DataStream.n DataStream.complete].
    destruct (json_from_str _) as [v|e]; [done|]. by destruct (is_data_error e).
  - case_bool_decide as Hl; [|done]. rewrite take_ge by done. unfold msgpack_outcome. cbn [DataStream.value DataStream.n DataStream.complete].
    by destruct (rmp_from_slice _) as [v|[[]|[]| | |k|e|e]].
Qed.
End laws.

(** ** Booleans *)

Module SerdeReference.
#[export] Instance json_bool : SerdeJson bool := {
  json_error := bool;
  is_data_error := id;
  json_error_text _ := #"no boolean";
  json_from_str s :=
    if bool_decide (s = #"true") then inl true
    else if bool_decide (s = #"false") then inl false
    else inr (bool_decide (s = #"null"));
  json_to_string b := Some (if b then #"true" else #"false");
}.

(** The two bytes of MessagePack for booleans; a slice that ends is an
    unexpected end. *)
#[export] Instance rmp_bool : RmpSerde bool := {
  rmp_error := unit;
  rmp_error_text _ := #"no boolean";
  rmp_from_slice s :=
    match s with
    | [] => inr (InvalidDataRead true)
    | c :: _ =>
      if (nat_of_ascii c =? 195) then inl true
      else if (nat_of_ascii c =? 194) then inl false
      else inr TypeMismatch
    end;
  rmp_to_vec b := Some [ascii_of_nat (if b then 195 else 194)];
  rmp_to_vec_named b := Some [ascii_of_nat (if b then 195 else 194)];
}.

Import AdaptorReference TokioReference UncasedOrdReference Reference.

Definition json_data (chunks : list str) : TransformedData (T := Inspect nat) :=
  data_new (Peekable_with [] 0 false (Some <$> chunks)).

Lemma json_data_io chunks : None ∉ reader (stream (json_data chunks)).
Proof. unfold json_data. simpl. by intros (? & ? & _)%list_elem_of_fmap. Qed.

Definition small : Limits := limit #"json" 8 (limit #"msgpack" 8 limits_new).

Example serde_guards_witness :
  json_guard (T := bool) false small (json_data [ #"tr"; #"ue"]) = Some (Success true) ∧
  msgpack_guard (T := bool) false small (json_data [ #"x"]) =
    Some (Outcome.Error (Status.UnprocessableEntity, TypeMismatch)).
Proof.
  pose proof (json_data_io [ #"tr"; #"ue"]) as Hio. pose proof (json_data_io [ #"x"]) as Hio'.
  assert (peekable_wf (stream (json_data [ #"tr"; #"ue"]))) as Hwf by (split; [by repeat constructor|done]).
  assert (peekable_wf (stream (json_data [ #"x"]))) as Hwf' by (split; [by repeat constructor|done]).
  pose proof (proj1 (serde_guards_spec (A := bool) (B := bool) false small _ Hwf Hio)) as Hj.
  pose proof (proj2 (serde_guards_spec (A := bool) (B := bool) false small _ Hwf' Hio')) as Hm.
  rewrite Hj, Hm. split; by vm_compute.
Defined.

(** A cut inside a character of JSON: 400, although the body is too large; a
    MessagePack body that is merely truncated: 413, although it is not. *)
Lemma wrong_statuses :
  (let limits := limit #"json" 2 small in
   let body := (ascii_of_nat <$> [34; 195; 169; 34]%nat) : str in
   default None ((λ o, match o with Outcome.Error (st, _) => Some (code st) | _ => None end) <$>
     json_guard (T := bool) false limits (json_data [body])) = Some 400%Z) ∧
  default None ((λ o, match o with Outcome.Error (st, _) => Some (code st) | _ => None end) <$>
     msgpack_guard (T := bool) false small (json_data [])) = Some 413%Z.
Proof. split; by vm_compute. Qed.
End SerdeReference.
