(* ===== verification/FormContext.v ===== *)
(** * FormContext: form contexts (core/lib/src/form/context.rs)

    The fields and errors of a form that is parsed, kept whether or not parsing
    fails.  The maps are lists in insertion order, keyed by names up to the keys
    of the names.  Hashing a name goes over all of its keys: [None] is a hash
    that does not end (see [FormName.keys_diverge]). *)

From S2P Require Import Prelude Crates RawStr Status FormName FormParser FormError FromForm.

(** [struct Context]. *)
Record Context := mkContext {
  ctx_errors : list (NameBuf * Errors);
  ctx_values : list (str * list str);
  ctx_data_fields : list str;
  form_errors : Errors;
  ctx_status : Status;
}.

(** [struct Contextual]. *)
Record Contextual (T : Type) := mkContextual { contextual_value : option T; context : Context }.
Arguments mkContextual {T}.
Arguments contextual_value {T}.
Arguments context {T}.

(** The [Default] of [Context], with that of [Status]. *)
Definition context_default : Context := mkContext [] [] [] [] Status.Ok.

Section context.
Context `{Memchr} `{PercentEncoding}.

(** Equality of the keys of the maps. *)
Definition name_eqk (a b : str) : bool := bool_decide (keys a = keys b).
Definition buf_eqk (a b : NameBuf) : bool := bool_decide (buf_keys a = buf_keys b).

(** [Context::fields], [field_value], [field_values], [errors], [status]. *)
Definition context_fields (self : Context) : list str := (fst <$> ctx_values self) ++ ctx_data_fields self.

Definition field_values (name : str) (self : Context) : list str :=
  default [] (assoc_get name_eqk name (ctx_values self)).

Definition context_field_value (name : str) (self : Context) : option str :=
  values ← assoc_get name_eqk name (ctx_values self); head values.

Definition context_errors (self : Context) : Errors :=
  concat (snd <$> ctx_errors self) ++ form_errors self.

Definition context_status (self : Context) : Status := ctx_status self.

(** [Context::field_errors], [exact_field_errors]: the errors whose test
    succeeds; a test that does not end keeps the iterator from going on. *)
Fixpoint filter_errors (test : Error → option bool) (es : Errors) : option Errors :=
  match es with
  | [] => Some []
  | e :: es => keep ← test e; rest ← filter_errors test es; Some (if (keep : bool) then e :: rest else rest)
  end.

Definition field_errors (name : str) (self : Context) : option Errors :=
  filter_errors (is_for name) (concat (snd <$> ctx_errors self)).

Definition exact_field_errors (name : str) (self : Context) : option Errors :=
  filter_errors (is_for_exactly name) (concat (snd <$> ctx_errors self)).

(** [Context::push_error]. *)
Definition context_push_error (error : Error) (self : Context) : option Context :=
  let new_status := status_max (ctx_status self) (status error) in
  match error_name error with
  | Some name =>
    _ ← buf_keys name;
    Some (mkContext (assoc_update buf_eqk [] name (λ errors, errors ++ [error]) (ctx_errors self))
            (ctx_values self) (ctx_data_fields self) (form_errors self) new_status)
  | None =>
    Some (mkContext (ctx_errors self) (ctx_values self) (ctx_data_fields self)
            (form_errors self ++ [error]) new_status)
  end.

(** [Context::push_errors], and [From<Errors> for Context]. *)
Fixpoint push_errors (errors : Errors) (self : Context) : option Context :=
  match errors with
  | [] => Some self
  | e :: errors => self ← context_push_error e self; push_errors errors self
  end.

Definition context_from (errors : Errors) : option Context := push_errors errors context_default.

(** The values and data fields a push records. *)
Definition record_value (field : ValueField) (self : Context) : option Context :=
  let name := source (field_name field) in
  _ ← keys name;
  Some (mkContext (ctx_errors self)
          (assoc_update name_eqk [] name (λ values, values ++ [field_value field]) (ctx_values self))
          (ctx_data_fields self) (form_errors self) (ctx_status self)).

Definition record_data {D} (field : DataField D) (self : Context) : option Context :=
  let name := source (data_name field) in
  _ ← keys name;
  Some (mkContext (ctx_errors self) (ctx_values self)
          (if existsb (name_eqk name) (ctx_data_fields self) then ctx_data_fields self
           else ctx_data_fields self ++ [name])
          (form_errors self) (ctx_status self)).

(** [impl FromForm for Contextual]. *)
Section contextual.
Context {D T : Type} `{F : FromForm D T}.

Definition contextual_init (opts : Options) : FromForm.Context T * Context := (init T opts, context_default).

Definition contextual_push (c : FromForm.Context T * Context) (p : Pushed D)
  : option (FromForm.Context T * Context) :=
  let '(val_ctxt, ctxt) := c in
  match p with
  | PValue field => ctxt ← record_value field ctxt; Some (push_value T field val_ctxt, ctxt)
  | PData field => ctxt ← record_data field ctxt; Some (push_data T field val_ctxt, ctxt)
  | PError e => ctxt ← context_push_error e ctxt; Some (val_ctxt, ctxt)
  end.

Definition contextual_finalize (c : FromForm.Context T * Context) : option (Result (Contextual T)) :=
  let '(val_ctxt, context) := c in
  match finalize T val_ctxt with
  | inr value => Some (inr (mkContextual (Some value) context))
  | inl errors => context ← push_errors errors context; Some (inr (mkContextual None context))
  end.

Fixpoint contextual_pushes (c : FromForm.Context T * Context) (ps : list (Pushed D))
  : option (FromForm.Context T * Context) :=
  match ps with
  | [] => Some c
  | p :: ps => c ← contextual_push c p; contextual_pushes c ps
  end.

Definition run_contextual (opts : Options) (ps : list (Pushed D)) : option (Result (Contextual T)) :=
  contextual_pushes (contextual_init opts) ps ≫= contextual_finalize.
End contextual.
End context.

(** ** Lemmas *)

Section lemmas.
Context `{Memchr} `{PercentEncoding}.

(** Names whose hash ends. *)
Definition hashable_error (e : Error) : Prop :=
  match error_name e with Some name => is_Some (buf_keys name) | None => True end.

Definition hashable_push {D} (p : Pushed D) : Prop :=
  match p with
  | PError e => hashable_error e
  | p => is_Some (keys (source (pushed_name p)))
  end.

Definition pushed_errors {D} (ps : list (Pushed D)) : Errors :=
  omap (λ p, match p with PError e => Some e | _ => None end) ps.

(** The values pushed under a name. *)
Definition values_named {D} (name : str) (ps : list (Pushed D)) : list str :=
  omap (λ p, match p with
             | PValue f => if name_eqk name (source (field_name f)) then Some (field_value f) else None
             | _ => None
             end) ps.

Lemma name_eqk_equiv : (∀ a, name_eqk a a = true) ∧ (∀ a b, name_eqk a b = name_eqk b a) ∧
  (∀ a b c, name_eqk a b = true → name_eqk b c = true → name_eqk a c = true).
Proof.
  unfold name_eqk. split_and!.
  - intros a. by apply bool_decide_eq_true.
  - intros a b. by apply bool_decide_ext.
  - intros a b c ?%bool_decide_eq_true ?%bool_decide_eq_true. apply bool_decide_eq_true. congruence.
Qed.

Lemma concat_update k (e : Error) l :
  concat (snd <$> assoc_update buf_eqk [] k (λ es, es ++ [e]) l) ≡ₚ concat (snd <$> l) ++ [e].
Proof.
  induction l as [|[k' es] l IH]; [done|]. cbn. destruct (buf_eqk k k'); cbn.
  - rewrite <-!app_assoc. f_equiv. by rewrite Permutation_app_comm.
  - by rewrite IH, app_assoc.
Qed.

Lemma push_error_spec e c :
  hashable_error e → ∃ c', context_push_error e c = Some c' ∧
    context_errors c' ≡ₚ context_errors c ++ [e] ∧
    ctx_status c' = status_max (ctx_status c) (status e) ∧
    ctx_values c' = ctx_values c ∧ ctx_data_fields c' = ctx_data_fields c.
Proof.
  unfold context_push_error, hashable_error. destruct (error_name e) as [name|].
  - intros [ks ->]. eexists. split; [done|]. unfold context_errors. cbn.
    rewrite concat_update. split_and!; [|done..]. rewrite <-!app_assoc. apply Permutation_app_head, Permutation_app_comm.
  - intros _. eexists. split; [done|]. unfold context_errors. cbn. by rewrite app_assoc.
Qed.

Lemma push_errors_spec es c :
  Forall hashable_error es → ∃ c', push_errors es c = Some c' ∧
    context_errors c' ≡ₚ context_errors c ++ es ∧
    ctx_status c' = foldl status_max (ctx_status c) (status <$> es) ∧
    ctx_values c' = ctx_values c ∧ ctx_data_fields c' = ctx_data_fields c.
Proof.
  intros Hes. revert c. induction Hes as [|e es He Hes IH]; intros c; cbn.
  - exists c. by rewrite app_nil_r.
  - destruct (push_error_spec e c He) as (c1 & -> & Hp1 & Hs1 & Hv1 & Hd1). cbn.
    destruct (IH c1) as (c' & -> & Hp & Hs & Hv & Hd). exists c'.
    split_and!; [done|by rewrite Hp, Hp1, <-app_assoc|congruence..].
Qed.
End lemmas.

Section properties.
Context `{Memchr} `{PercentEncoding} {D T : Type} `{F : FromForm D T}.

Lemma record_value_spec f c :
  is_Some (keys (source (field_name f))) → ∃ c', record_value f c = Some c' ∧
    context_errors c' = context_errors c ∧ ctx_status c' = ctx_status c ∧
    (∀ name, field_values name c' = field_values name c ++ values_named name [PValue (D:=D) f]).
Proof.
  intros [ks Hks]. unfold record_value. rewrite Hks. eexists. split; [done|]. split_and!; [done..|].
  intros name. unfold field_values. cbn [ctx_values].
  destruct name_eqk_equiv as (Hr & Hs & Ht). rewrite assoc_get_update by done.
  unfold values_named. cbn. destruct (name_eqk name (source (field_name f))) eqn:Hn; cbn.
  - by rewrite (assoc_get_eq name_eqk Hs Ht _ _ _ Hn).
  - by rewrite app_nil_r.
Qed.

Lemma contextual_pushes_spec ps v c :
  Forall hashable_push ps → ∃ c',
    contextual_pushes (v, c) ps = Some (foldl (push (T:=T)) v (List.filter (is_field (D:=D)) ps), c') ∧
    context_errors c' ≡ₚ context_errors c ++ pushed_errors ps ∧
    ctx_status c' = foldl status_max (ctx_status c) (status <$> pushed_errors ps) ∧
    (∀ name, field_values name c' = field_values name c ++ values_named name ps).
Proof.
  intros Hps. revert v c. induction Hps as [|p ps Hp Hps IH]; intros v c.
  { exists c. cbn. split_and!; [done|by rewrite app_nil_r|done|intros; by rewrite app_nil_r]. }
  destruct p as [f|f|e]; cbn [contextual_pushes contextual_push List.filter is_field foldl].
  - destruct (record_value_spec f c Hp) as (c1 & -> & He1 & Hs1 & Hv1). cbn [mbind option_bind].
    destruct (IH (push_value T f v) c1) as (c' & -> & He & Hs & Hv). exists c'.
    split_and!; [done|by rewrite He, He1|by rewrite Hs, Hs1|].
    intros name. rewrite Hv, Hv1, <-app_assoc. f_equal. unfold values_named. by rewrite <-omap_app.
  - unfold record_data. change (is_Some (keys (source (data_name f)))) in Hp. destruct Hp as [ks ->]. cbn [mbind option_bind].
    destruct (IH (push_data T f v) (mkContext (ctx_errors c) (ctx_values c)
      (if existsb (name_eqk (source (data_name f))) (ctx_data_fields c) then ctx_data_fields c
       else ctx_data_fields c ++ [source (data_name f)]) (form_errors c) (ctx_status c)))
      as (c' & -> & He & Hs & Hv). by exists c'.
  - destruct (push_error_spec e c Hp) as (c1 & -> & He1 & Hs1 & Hv1 & _). cbn [mbind option_bind].
    destruct (IH v c1) as (c' & -> & He & Hs & Hv). exists c'. split_and!; [done| |by rewrite Hs, Hs1|].
    + by rewrite He, He1, <-app_assoc.
    + intros name. rewrite Hv. unfold field_values. by rewrite Hv1.
Qed.

End properties.

Module ContextReference.
Import Crates.Reference.

#[local] Instance str_field : FromFormField unit str := {
  from_value := str_from_value;
  from_data := unexpected_from_data;
  field_default := None;
}.

(** A strict parse of two values for one field, after an error of the parser. *)
Definition sample : list (Pushed unit) :=
  [PError (custom #"too slow"); PValue (field_parse #"a=1"); PValue (field_parse #"a=2")].

End ContextReference.
