(* ===== verification/DeriveForm.v ===== *)
(** * DeriveForm: what [#[derive(FromForm)]] and [#[derive(FromFormField)]] make
    (core/codegen/src/derive/form_field.rs, from_form.rs, from_form_field.rs)

    The attributes of a structure's fields and the parser they expand to, for
    fields of any types.  A validation is an expression of a type [V]: which
    members it accesses and what it returns are parameters; the rewriting of
    [self] in its tokens is the work of syn. *)

From S2P Require Import Prelude Crates RawStr FormName FormParser FormError FromForm.

(** ** Attributes *)

(** [enum FieldName]; [UncasedName] is its [Uncased]. *)
Inductive FieldName := Cased (name : str) | UncasedName (name : str).

Definition name_text (self : FieldName) : str := match self with Cased n | UncasedName n => n end.

(** The expression of [default = expr], by what [default_expr] makes of it. *)
Inductive DefaultExpr (T : Type) := DefaultNone | DefaultInt (value : T) | DefaultInto (value : T).
Arguments DefaultNone {T}.
Arguments DefaultInt {T}.
Arguments DefaultInto {T}.

(** [struct FieldAttr]. *)
Record FieldAttr (V T : Type) := mkAttr {
  attr_name : option FieldName;
  attr_validate : option V;
  attr_default : option (DefaultExpr T);
  attr_default_with : option (option T);
}.
Arguments mkAttr {V T}.
Arguments attr_name {V T}.
Arguments attr_validate {V T}.
Arguments attr_default {V T}.
Arguments attr_default_with {V T}.

(** A field of the structure: its identifier, if it has one, its type and that
    type's parser, its attributes and those of the structure. *)
Record FormField (D V : Type) := mkFormField {
  field_ident : option str;
  field_ty : Type;
  field_from : FromForm D field_ty;
  field_attrs : list (FieldAttr V field_ty);
  parent_attrs : list (FieldAttr V field_ty);
}.
Arguments mkFormField {D V}.
Arguments field_ident {D V}.
Arguments field_ty {D V}.
Arguments field_from {D V}.
Arguments field_attrs {D V}.
Arguments parent_attrs {D V}.

#[local] Existing Instance field_from.

(** What the derive reports. *)
Inductive Diagnostic :=
  | InvalidFieldName
  | DuplicateDefault
  | DuplicateDefaults
  | NoFields
  | TupleFields
  | ConflictingNames
  | ConflictsWithPrevious.

Section attributes.
Context `{Uncased}.

(** [CONTROL_CHARS], [is_valid_field_name]; the check of [FieldName::from_meta]. *)
Definition CONTROL_CHARS : str := #"&=?.[]".

Definition is_valid_field_name (s : str) : bool :=
  if bool_decide (s = #"isindex") || is_empty s then false
  else forallb (λ c, graphic c && negb (bool_decide (c ∈ CONTROL_CHARS))) s.

Definition field_name_from_meta (field_name : FieldName) : Diagnostic + FieldName :=
  if negb (is_valid_field_name (name_text field_name)) then inl InvalidFieldName else inr field_name.

(** [PartialEq for FieldName]. *)
Definition field_name_eq (self other : FieldName) : bool :=
  match self, other with
  | Cased a, Cased b => bool_decide (a = b)
  | Cased a, UncasedName u | UncasedName u, Cased a => uncased_eq a u
  | UncasedName u1, UncasedName u2 => uncased_eq u1 u2
  end.

(** [FieldExt::field_names], [name_buf_opt]. *)
Definition field_names {D V} (self : FormField D V) : list FieldName :=
  let attr_names := omap attr_name (field_attrs self) in
  if is_empty attr_names then
    match field_ident self with Some ident => [Cased ident] | None => attr_names end
  else attr_names.

Definition name_buf_opt {D V} (parent : option str) (self : FormField D V) : option NameBuf :=
  match field_names self with
  | name :: _ => Some (buf_from_pair parent (name_text name))
  | [] => None
  end.

(** [validators]: the expressions of the field, then of the structure. *)
Definition validate_exprs {D V} (self : FormField D V) : list V :=
  omap attr_validate (field_attrs self) ++ omap attr_validate (parent_attrs self).

(** [default_expr]. *)
Definition default_expr {T} (expr : DefaultExpr T) : option T :=
  match expr with DefaultNone => None | DefaultInt value => Some value | DefaultInto value => Some value end.

(** The function [default]: an expression of an option, for the options of the parse. *)
Definition default_of_attrs {D V} (field : FormField D V) : Diagnostic + option (Options → option (field_ty field)) :=
  let attrs := field_attrs field ++ parent_attrs field in
  let exprs := default_expr <$> omap attr_default attrs in
  let exprs_with := omap attr_default_with attrs in
  if (1 <? length exprs)%nat || (1 <? length exprs_with)%nat then inl DuplicateDefault
  else
    let emit e := inr (Some (λ opts : Options, if strict opts then None else e)) in
    match exprs, exprs_with with
    | _ :: _, _ :: _ => inl DuplicateDefaults
    | e :: _, [] | [], e :: _ => emit e
    | [], [] => inr None
    end.

(** [first_duplicate]: the first two equal values, each with the number of
    values up to the end of its key's. *)
Fixpoint count_values {A} (n : nat) (values : list (list A)) : list nat :=
  match values with
  | [] => []
  | vs :: values => (n + length vs)%nat :: count_values (n + length vs) values
  end.

Definition key_of (counts : list nat) (k : nat) : option nat := List.find (λ i, (k <? i)%nat) counts.

Fixpoint first_duplicate_loop {A} (eqb : A → A → bool) (counts : list nat) (i : nat) (all_values : list A)
  : option ((nat * nat) * (nat * nat)) :=
  match all_values with
  | [] => None
  | a :: rest =>
    match list_find (λ b, eqb b a = true) rest with
    | Some (j, _) =>
      let j := (i + 1 + j)%nat in
      a_i ← key_of counts i; b_i ← key_of counts j; Some ((a_i, i), (b_i, j))
    | None => first_duplicate_loop eqb counts (S i) rest
    end
  end.

Definition first_duplicate {A} (eqb : A → A → bool) (values : list (list A)) : option ((nat * nat) * (nat * nat)) :=
  first_duplicate_loop eqb (count_values 0 values) 0 (concat values).

(** [fields_validate] of the derive. *)
Definition are_unnamed {D V} (fields : list (FormField D V)) : bool :=
  match fields with
  | [] => true
  | f :: _ => match field_ident f with None => true | Some _ => false end
  end.

Definition fields_validate {D V} (fields : list (FormField D V)) : option Diagnostic :=
  if is_empty fields then Some NoFields
  else if are_unnamed fields && negb (length fields =? 1)%nat then Some TupleFields
  else
    match first_duplicate field_name_eq (List.map field_names fields) with
    | Some ((field_a_i, _), (field_b_i, _)) =>
      if (field_a_i =? field_b_i)%nat then Some ConflictingNames else Some ConflictsWithPrevious
    | None => None
    end.
End attributes.

(** ** The generated parser *)

(** What the fields of a structure hold, one after the other: their values, the
    values there are, their contexts. *)
Fixpoint values_of {D V} (fields : list (FormField D V)) : Type :=
  match fields with [] => unit | f :: fields => field_ty f * values_of fields end.

Fixpoint partial_of {D V} (fields : list (FormField D V)) : Type :=
  match fields with [] => unit | f :: fields => option (field_ty f) * partial_of fields end.

Fixpoint contexts_of {D V} (fields : list (FormField D V)) : Type :=
  match fields with [] => unit | f :: fields => option (Context (field_ty f)) * contexts_of fields end.

(** A structure: its fields, how it is built of their values, the members that a
    validation accesses and what it returns for a field, by its index, when it
    is given the values there are. *)
Record FormStruct (D V T : Type) := mkFormStruct {
  fields : list (FormField D V);
  builder : values_of fields → T;
  accesses : V → list str;
  check : V → nat → partial_of fields → Result unit;
}.
Arguments mkFormStruct {D V T}.
Arguments fields {D V T}.
Arguments builder {D V T}.
Arguments accesses {D V T}.
Arguments check {D V T}.

(** [struct FromFormGeneratedContext]. *)
Record GeneratedContext {D V} (fields : list (FormField D V)) := mkGenerated {
  gen_opts : Options;
  gen_errors : Errors;
  gen_parent : option str;
  gen_contexts : contexts_of fields;
}.
Arguments mkGenerated {D V fields}.
Arguments gen_opts {D V fields}.
Arguments gen_errors {D V fields}.
Arguments gen_parent {D V fields}.
Arguments gen_contexts {D V fields}.

Section generated.
Context `{Memchr} `{PercentEncoding} `{Uncased} {D V : Type}.
Implicit Types f : FormField D V.

(** [init]. *)
Fixpoint init_contexts (fields : list (FormField D V)) : contexts_of fields :=
  match fields with [] => tt | _ :: fields => (None, init_contexts fields) end.

Definition gen_init (fields : list (FormField D V)) (opts : Options) : GeneratedContext fields :=
  mkGenerated opts [] None (init_contexts fields).

(** [unexpected] of a pushed field. *)
Definition pushed_unexpected (p : Pushed D) : Error :=
  match p with
  | PValue field => value_unexpected field
  | PData field => data_unexpected field
  | PError e => e
  end.

(** The arms of [fields_map]: does a name match the key, and the push to the
    field's context, which is made if there is none. *)
Definition name_matches (key : str) (name : FieldName) : bool :=
  match name with
  | Cased name => bool_decide (key = name)
  | UncasedName name => uncased_eq key name
  end.

Definition field_matches (key : str) f : bool := existsb (name_matches key) (field_names f).

Definition push_context f (opts : Options) (p : Pushed D) (ctxt : option (Context (field_ty f)))
  : option (Context (field_ty f)) :=
  Some (push (match ctxt with Some c => c | None => init (field_ty f) opts end) (pushed_shift p)).

Fixpoint push_match (fields : list (FormField D V)) (key : str) (opts : Options) (p : Pushed D)
  : contexts_of fields → option (contexts_of fields) :=
  match fields with
  | [] => λ _, None
  | f :: fields => λ '(c, cs),
    if field_matches key f then Some (push_context f opts p c, cs)
    else match push_match fields key opts p cs with Some cs => Some (c, cs) | None => None end
  end.

Definition push_first (fields : list (FormField D V)) (opts : Options) (p : Pushed D)
  : contexts_of fields → contexts_of fields :=
  match fields with
  | [] => λ cs, cs
  | f :: _ => λ '(c, cs), (push_context f opts p c, cs)
  end.

(** [fields_map]: what [push_value] and [push_data] do. *)
Definition fields_map {fields : list (FormField D V)} (p : Pushed D) (c : GeneratedContext fields)
  : GeneratedContext fields :=
  let parent := parent (pushed_name p) in
  if are_unnamed fields then
    mkGenerated (gen_opts c) (gen_errors c) parent (push_first fields (gen_opts c) p (gen_contexts c))
  else
    let k := key_lossy (pushed_name p) in
    match push_match fields k (gen_opts c) p (gen_contexts c) with
    | Some contexts => mkGenerated (gen_opts c) (gen_errors c) parent contexts
    | None =>
      if bool_decide (k = #"_method") || negb (strict (gen_opts c))
      then mkGenerated (gen_opts c) (gen_errors c) parent (gen_contexts c)
      else mkGenerated (gen_opts c) (gen_errors c ++ [pushed_unexpected p]) parent (gen_contexts c)
    end.

(** The result of a field, [finalize_field]; attributes that are refused do not
    get here. *)
Definition field_missing f (opts : Options) : option (field_ty f) :=
  match default_of_attrs f with
  | inr (Some default) => default opts
  | _ => default_of (D:=D) (field_ty f) opts
  end.

Definition or_unknown {T} (r : Result T) : Result T :=
  match r with
  | inl e => inl (if is_empty e then errors_from (error_from Unknown) else e)
  | inr v => inr v
  end.

Definition named {T} (name : option NameBuf) (r : Result T) : Result T :=
  match r, name with
  | inl e, Some name => inl (errors_with_name name e)
  | r, _ => r
  end.

Definition finalize_field f (opts : Options) (parent : option str) (ctxt : option (Context (field_ty f)))
  : Result (field_ty f) :=
  or_unknown (named (name_buf_opt parent f)
    (match ctxt with
     | None => match field_missing f opts with
               | Some v => inr v
               | None => inl (errors_from (error_from Missing))
               end
     | Some c => finalize (field_ty f) c
     end)).

Fixpoint finalize_fields (fields : list (FormField D V)) (opts : Options) (parent : option str)
  : contexts_of fields → Errors * partial_of fields :=
  match fields with
  | [] => λ _, ([], tt)
  | f :: fields => λ '(c, cs),
    let r := finalize_field f opts parent c in
    let '(errors, vs) := finalize_fields fields opts parent cs in
    (err r ++ errors, (is_ok r, vs))
  end.

(** [context_ident]; whether a member has a value. *)
Definition context_ident (i : nat) f : str :=
  match field_ident f with Some ident => ident | None => #"__" ++ decimal_text i end.

Fixpoint has_value (i : nat) (fields : list (FormField D V)) (member : str) : partial_of fields → bool :=
  match fields with
  | [] => λ _, false
  | f :: fields => λ '(v, vs),
    if bool_decide (context_ident i f = member) then match v with Some _ => true | None => false end
    else has_value (S i) fields member vs
  end.

(** The expressions of [validators], for the [i]th field. *)
Definition run_validator {T} (s : FormStruct D V T) (parent : option str) (i : nat) f (vs : partial_of (fields s))
    (expr : V) : Result unit :=
  let __result :=
    if forallb (λ member, has_value 0 (fields s) member vs) (context_ident i f :: accesses s expr)
    then check s expr i vs else inr tt in
  named (name_buf_opt parent f) __result.

Definition validation_errors {T} (s : FormStruct D V T) (parent : option str) (vs : partial_of (fields s)) : Errors :=
  concat (imap (λ i f, concat ((λ e, err (run_validator s parent i f vs e)) <$> validate_exprs f)) (fields s)).

(** The builder's [unwrap]s; see [generated_unwraps]. *)
Fixpoint unwrap_all (fields : list (FormField D V)) : partial_of fields → option (values_of fields) :=
  match fields with
  | [] => λ _, Some tt
  | f :: fields => λ '(v, vs),
    match v, unwrap_all fields vs with
    | Some v, Some vs => Some (v, vs)
    | _, _ => None
    end
  end.

(** [finalize]; [None] is an [unwrap] that fails. *)
Definition gen_finalize {T} (s : FormStruct D V T) (c : GeneratedContext (fields s)) : option (Result T) :=
  let '(errors, vs) := finalize_fields (fields s) (gen_opts c) (gen_parent c) (gen_contexts c) in
  let errors := gen_errors c ++ errors ++ validation_errors s (gen_parent c) vs in
  if negb (is_empty errors) then Some (inl errors)
  else match unwrap_all (fields s) vs with
       | Some vs => Some (inr (builder s vs))
       | None => None
       end.

(** The generated implementation. *)
Definition derived {T} (s : FormStruct D V T) : FromForm D T := {|
  Context := GeneratedContext (fields s);
  init := gen_init (fields s);
  push_value field := fields_map (PValue field);
  push_data field := fields_map (PData field);
  push_error e c := mkGenerated (gen_opts c) (gen_errors c ++ [e]) (gen_parent c) (gen_contexts c);
  finalize c := match gen_finalize s c with Some r => r | None => inl [] end;
|}.
End generated.

(** ** Enumerations *)

Section enumerations.
Context `{Memchr} `{PercentEncoding} `{Uncased} {D T : Type}.

(** The validation of the derive: a variant is given by the values it is parsed
    from, of which the first duplicates are refused. *)
Definition variants_validate (variants : list (list str)) : option Diagnostic :=
  if is_empty variants then Some NoFields
  else
    match first_duplicate uncased_eq variants with
    | Some ((a_i, _), (b_i, _)) => if (a_i =? b_i)%nat then Some ConflictingNames else Some ConflictsWithPrevious
    | None => None
    end.

(** [form_field_values] of a variant. *)
Definition form_field_values (attr_values : list str) (ident : str) : list str :=
  if is_empty attr_values then [ident] else attr_values.

(** [from_value]. *)
Fixpoint variant_of (value : str) (variants : list (T * list str)) : option T :=
  match variants with
  | [] => None
  | (variant, values) :: variants =>
    if existsb (uncased_eq value) values then Some variant else variant_of value variants
  end.

Definition enum_from_value (variants : list (T * list str)) (f : ValueField) : Result T :=
  match variant_of (field_value f) variants with
  | Some variant => inr variant
  | None =>
    inl (errors_from (with_value (field_value f)
      (with_name (buf_from_view (field_name f)) (error_from (InvalidChoice (concat (snd <$> variants)))))))
  end.
End enumerations.

(** ** What the generated parser does *)

(** The pushes that a field gets: those whose key is one of its names, and all
    of them in a tuple structure. *)
Section routing.
Context `{Memchr} `{PercentEncoding} `{Uncased} {D V : Type}.

Definition routed (unnamed : bool) (f : FormField D V) (p : Pushed D) : bool :=
  is_field p && (unnamed || field_matches (key_lossy (pushed_name p)) f).

(** The result of a field: that of its type's parser on the shifted pushes, and
    its default when there is none. *)
Definition field_outcome (f : FormField D V) (opts : Options) (parent : option str) (mine : list (Pushed D))
  : Result (field_ty f) :=
  or_unknown (named (name_buf_opt parent f)
    (match mine with
     | [] => match field_missing f opts with
             | Some v => inr v
             | None => inl (errors_from (error_from Missing))
             end
     | _ => run_parser (field_ty f) opts (pushed_shift <$> mine)
     end)).

Fixpoint field_outcomes (unnamed : bool) (fields : list (FormField D V)) (opts : Options) (parent : option str)
    (ps : list (Pushed D)) : Errors * partial_of fields :=
  match fields with
  | [] => ([], tt)
  | f :: fields =>
    let r := field_outcome f opts parent (List.filter (routed unnamed f) ps) in
    let '(errors, vs) := field_outcomes unnamed fields opts parent ps in
    (err r ++ errors, (is_ok r, vs))
  end.

(** The parent of the name of the last field. *)
Definition form_parent (ps : list (Pushed D)) : option str :=
  match last (List.filter is_field ps) with Some p => parent (pushed_name p) | None => None end.

(** The errors of the form, and of the fields that none matches in a strict
    parse. *)
Definition stray_error (fields : list (FormField D V)) (opts : Options) (p : Pushed D) : Errors :=
  match p with
  | PError e => [e]
  | _ =>
    let k := key_lossy (pushed_name p) in
    if negb (are_unnamed fields) && negb (existsb (field_matches k) fields)
       && negb (bool_decide (k = #"_method")) && strict opts
    then [pushed_unexpected p] else []
  end.

Definition stray_errors (fields : list (FormField D V)) (opts : Options) (ps : list (Pushed D)) : Errors :=
  concat (stray_error fields opts <$> ps).

(** No key matches two fields. *)
Fixpoint separate (key : str) (fields : list (FormField D V)) : Prop :=
  match fields with
  | [] => True
  | f :: fields => (field_matches key f = true → existsb (field_matches key) fields = false) ∧ separate key fields
  end.

(** The contexts after some pushes. *)
Definition context_after (f : FormField D V) (opts : Options) (mine : list (Pushed D)) : option (Context (field_ty f)) :=
  match mine with [] => None | _ => Some (foldl push (init (field_ty f) opts) (pushed_shift <$> mine)) end.

Fixpoint contexts_after (unnamed : bool) (fields : list (FormField D V)) (opts : Options) (ps : list (Pushed D))
  : contexts_of fields :=
  match fields with
  | [] => tt
  | f :: fields =>
    (context_after f opts (List.filter (routed unnamed f) ps), contexts_after unnamed fields opts ps)
  end.

Lemma context_after_snoc f opts mine p :
  context_after f opts (mine ++ [p]) = push_context f opts p (context_after f opts mine).
Proof.
  unfold context_after, push_context. destruct mine as [|q mine]; [done|].
  cbn [app]. rewrite app_comm_cons, fmap_app, foldl_app. done.
Qed.

Lemma filter_snoc {A} (g : A → bool) l x : List.filter g (l ++ [x]) = List.filter g l ++ (if g x then [x] else []).
Proof. rewrite List.filter_app. cbn. by destruct (g x). Qed.

Lemma contexts_after_unrouted unnamed fields opts ps p :
  (∀ f, List.In f fields → routed unnamed f p = false) →
  contexts_after unnamed fields opts (ps ++ [p]) = contexts_after unnamed fields opts ps.
Proof.
  induction fields as [|f fields IH]; intros Hr; [done|]. cbn [contexts_after].
  rewrite filter_snoc, (Hr f) by by left. rewrite app_nil_r, IH; [done|]. intros g Hg. apply Hr. by right.
Qed.

Lemma unmatched_fields key (fields : list (FormField D V)) :
  existsb (field_matches key) fields = false → ∀ f, List.In f fields → field_matches key f = false.
Proof.
  induction fields as [|g fields IH]; [done|]. cbn. intros [Hg Hf]%orb_false_iff f [->|Hin]; auto.
Qed.

(** A push goes to the context of the field it matches. *)
Lemma push_match_after fields opts ps p :
  is_field p = true → separate (key_lossy (pushed_name p)) fields →
  push_match fields (key_lossy (pushed_name p)) opts p (contexts_after false fields opts ps) =
    if existsb (field_matches (key_lossy (pushed_name p))) fields
    then Some (contexts_after false fields opts (ps ++ [p])) else None.
Proof.
  intros Hp. set (k := key_lossy (pushed_name p)).
  induction fields as [|f fields IH]; [done|]. intros [Hs1 Hs2]. cbn [push_match contexts_after existsb].
  rewrite filter_snoc. assert (routed false f p = field_matches k f) as -> by (unfold routed; by rewrite Hp).
  destruct (field_matches k f) eqn:Hf; cbn [orb].
  - rewrite context_after_snoc, contexts_after_unrouted; [done|]. intros g Hg. unfold routed. fold k.
    rewrite (unmatched_fields k fields (Hs1 eq_refl) g Hg). apply andb_false_r.
  - rewrite (IH Hs2), app_nil_r. by destruct (existsb _ fields).
Qed.

Definition state_after (fields : list (FormField D V)) (opts : Options) (ps : list (Pushed D)) : GeneratedContext fields :=
  mkGenerated opts (stray_errors fields opts ps) (form_parent ps) (contexts_after (are_unnamed fields) fields opts ps).

Lemma form_parent_snoc ps p : is_field p = true → form_parent (ps ++ [p]) = parent (pushed_name p).
Proof. intros Hp. unfold form_parent. by rewrite filter_snoc, Hp, last_snoc. Qed.

Lemma stray_errors_snoc fields opts ps p : stray_errors fields opts (ps ++ [p]) = stray_errors fields opts ps ++ stray_error fields opts p.
Proof. unfold stray_errors. rewrite fmap_app, concat_app. cbn. by rewrite app_nil_r. Qed.

Lemma stray_error_field fields opts p :
  is_field p = true →
  stray_error fields opts p =
    (let k := key_lossy (pushed_name p) in
     if negb (are_unnamed fields) && negb (existsb (field_matches k) fields)
        && negb (bool_decide (k = #"_method")) && strict opts
     then [pushed_unexpected p] else []).
Proof. by destruct p. Qed.

Lemma fields_map_after fields opts ps p :
  is_field p = true → separate (key_lossy (pushed_name p)) fields →
  (are_unnamed fields = true → length fields = 1) →
  fields_map p (state_after fields opts ps) = state_after fields opts (ps ++ [p]).
Proof.
  intros Hp Hs Hu. unfold state_after, fields_map. cbn [gen_opts gen_errors gen_contexts gen_parent].
  rewrite form_parent_snoc, stray_errors_snoc, stray_error_field by done. cbv zeta.
  destruct (are_unnamed fields) eqn:Ha; cbn [negb andb].
  - rewrite app_nil_r. destruct fields as [|f [|? ?]]; try (by specialize (Hu eq_refl)).
    cbn [push_first contexts_after]. f_equal. f_equal. rewrite filter_snoc.
    assert (routed true f p = true) as -> by (unfold routed; by rewrite Hp). by rewrite context_after_snoc.
  - rewrite push_match_after by done. set (k := key_lossy (pushed_name p)) in *.
    destruct (existsb (field_matches k) fields) eqn:He; cbn [negb andb]; [by rewrite app_nil_r|].
    rewrite contexts_after_unrouted.
    2: { intros f Hf. unfold routed. fold k. rewrite (unmatched_fields k fields He f Hf). apply andb_false_r. }
    destruct (bool_decide _), (strict opts); cbn [negb andb orb]; by rewrite ?app_nil_r.
Qed.

Lemma init_contexts_after unnamed (fields : list (FormField D V)) opts :
  init_contexts fields = contexts_after unnamed fields opts [].
Proof. induction fields as [|f fields IH]; [done|]. cbn. by rewrite IH. Qed.

Lemma run_after {T} (s : FormStruct D V T) opts ps :
  (∀ key, separate key (fields s)) → (are_unnamed (fields s) = true → length (fields s) = 1) →
  foldl (push (FF := derived s)) (init T (FromForm := derived s) opts) ps = state_after (fields s) opts ps.
Proof.
  intros Hs Hu. induction ps as [|p ps IH] using rev_ind.
  - unfold state_after. by rewrite <-init_contexts_after.
  - rewrite foldl_app, IH. cbn [foldl]. destruct (is_field p) eqn:Hp.
    + rewrite <-fields_map_after by done. by destruct p.
    + destruct p as [| |e]; try discriminate. unfold state_after, push, push_error, derived.
      cbn [gen_opts gen_errors gen_parent gen_contexts]. rewrite stray_errors_snoc. cbn [stray_error].
      unfold form_parent. rewrite filter_snoc. cbn [is_field]. rewrite app_nil_r. f_equal.
      symmetry. apply contexts_after_unrouted. by intros f _.
Qed.

(** The results of the fields. *)
Lemma finalize_fields_after unnamed (fields : list (FormField D V)) opts parent ps :
  finalize_fields fields opts parent (contexts_after unnamed fields opts ps) = field_outcomes unnamed fields opts parent ps.
Proof.
  induction fields as [|f fields IH]; [done|]. cbn [finalize_fields contexts_after field_outcomes]. rewrite IH.
  assert (finalize_field f opts parent (context_after f opts (List.filter (routed unnamed f) ps)) =
    field_outcome f opts parent (List.filter (routed unnamed f) ps)) as ->; [|done].
  unfold finalize_field, field_outcome, context_after, run_parser. by destruct (List.filter (routed unnamed f) ps).
Qed.

(** An error of a field is never without errors. *)
Lemma or_unknown_error {T} (r : Result T) : is_ok (or_unknown r) = None → err (or_unknown r) ≠ [].
Proof. destruct r as [e|v]; [|done]. cbn. by destruct e. Qed.

Lemma generated_unwraps unnamed (fields : list (FormField D V)) opts parent ps :
  let '(errors, vs) := field_outcomes unnamed fields opts parent ps in
  errors = [] → is_Some (unwrap_all fields vs).
Proof.
  induction fields as [|f fields IH]; [by eexists|]. cbn [field_outcomes].
  destruct (field_outcomes unnamed fields opts parent ps) as [errors vs]. intros [He Hes]%app_nil.
  cbn [unwrap_all]. destruct (IH Hes) as [w ->].
  destruct (is_ok (field_outcome _ _ _ _)) as [v|] eqn:Hv; [by eexists|].
  by apply or_unknown_error in Hv.
Qed.
End routing.

(** ** What the derive accepts *)

Section duplicates.
Context {A : Type} (eqb : A → A → bool).

(** No value equals an earlier one. *)
Fixpoint all_differ (l : list A) : Prop :=
  match l with [] => True | a :: l => Forall (λ b, eqb b a = false) l ∧ all_differ l end.

Lemma key_of_some n (values : list (list A)) k :
  (n ≤ k < n + length (concat values))%nat → is_Some (key_of (count_values n values) k).
Proof.
  revert n. induction values as [|vs values IH]; intros n Hk; cbn [concat length] in Hk; [lia|]. rewrite length_app in Hk.
  unfold key_of. cbn [count_values List.find]. destruct (k <? n + length vs)%nat eqn:Hl; [by eexists|]. apply Nat.ltb_ge in Hl. apply IH. lia.
Qed.

Lemma first_duplicate_loop_none counts i l :
  (∀ k, (i ≤ k < i + length l)%nat → is_Some (key_of counts k)) →
  first_duplicate_loop eqb counts i l = None ↔ all_differ l.
Proof.
  revert i. induction l as [|a l IH]; intros i Hk; [done|]. cbn [first_duplicate_loop all_differ].
  destruct (list_find _ l) as [[j b]|] eqn:Hf.
  - apply list_find_Some in Hf as (Hj & Hb & _). apply lookup_lt_Some in Hj as Hlt. cbn [length] in Hk.
    destruct (Hk i) as [a_i ->]; [lia|]. destruct (Hk (i + 1 + j)%nat) as [b_i ->]; [lia|]. cbn.
    split; [done|]. intros [Hd _]. rewrite Forall_lookup in Hd. rewrite (Hd _ _ Hj) in Hb. done.
  - apply list_find_None in Hf. rewrite IH by (intros k ?; apply Hk; cbn [length]; lia). split; [|by intros []].
    intros Hd. split; [|done]. eapply Forall_impl; [exact Hf|]. intros b Hb. by apply not_true_iff_false.
Qed.

Lemma first_duplicate_none (values : list (list A)) :
  first_duplicate eqb values = None ↔ all_differ (concat values).
Proof. apply first_duplicate_loop_none. intros k Hk. by apply key_of_some. Qed.

Lemma all_differ_app l1 l2 :
  all_differ (l1 ++ l2) → all_differ l2 ∧ ∀ a b, a ∈ l1 → b ∈ l2 → eqb b a = false.
Proof.
  induction l1 as [|x l1 IH]; cbn; [intros Hd; split; [done|by intros a b ?%not_elem_of_nil]|].
  intros [Hx (Hd & Hl)%IH]. split; [done|]. intros a b [->|Ha]%elem_of_cons Hb; [|by apply Hl].
  apply Forall_app in Hx as [_ Hx]. rewrite Forall_forall in Hx. by apply Hx.
Qed.
End duplicates.

Section accepted.
Context `{UncasedLaws} `{Memchr} `{PercentEncoding} {D V : Type}.

(** Names that a key matches are equal. *)
Lemma both_match key a b : name_matches key a = true → name_matches key b = true → field_name_eq b a = true.
Proof.
  destruct a as [a|a], b as [b|b]; cbn.
  - intros ->%bool_decide_eq_true ->%bool_decide_eq_true. by apply bool_decide_eq_true.
  - by intros ->%bool_decide_eq_true ?.
  - by intros ? ->%bool_decide_eq_true.
  - intros Ha Hb. apply (uncased_eq_trans _ key); [by rewrite uncased_eq_sym|done].
Qed.

(** Accepted structures have at most one field for every key. *)
Lemma accepted_separate key (fs : list (FormField D V)) :
  first_duplicate field_name_eq (List.map field_names fs) = None → separate key fs.
Proof.
  rewrite first_duplicate_none. induction fs as [|f fs IH]; [done|]. cbn [List.map concat separate].
  intros (Hd & Hl)%all_differ_app. split; [|auto]. intros Hf. apply not_true_iff_false. intros Hfs.
  unfold field_matches in *. apply existsb_exists in Hf as (a & Ha%list_elem_of_In & Hka).
  apply existsb_exists in Hfs as (g & Hg & Hkg). apply existsb_exists in Hkg as (b & Hb%list_elem_of_In & Hkb).
  pose proof (both_match key a b Hka Hkb) as He. rewrite (Hl a b Ha) in He; [done|].
  clear -Hg Hb. induction fs as [|f' fs IH]; [done|]. cbn. apply elem_of_app. destruct Hg as [->|Hg]; auto.
Qed.

Lemma accepted_fields (fs : list (FormField D V)) :
  fields_validate fs = None → (∀ key, separate key fs) ∧ (are_unnamed fs = true → length fs = 1).
Proof.
  unfold fields_validate. destruct (is_empty fs); [done|].
  destruct (are_unnamed fs && negb (length fs =? 1)%nat) eqn:Hu; [done|].
  destruct (first_duplicate _ _) as [[[a ?] [b ?]]|] eqn:Hd; [by destruct (a =? b)%nat|]. intros _. split.
  - intros key. by apply accepted_separate.
  - intros Ha. rewrite Ha in Hu. cbn in Hu. by apply negb_false_iff, Nat.eqb_eq in Hu.
Qed.

(** The result of a parse by the results of the fields. *)
Lemma derived_run {T} (s : FormStruct D V T) opts (ps : list (Pushed D)) :
  fields_validate (fields s) = None →
  run_parser (FF := derived s) T opts ps =
    let '(field_errors, vs) := field_outcomes (are_unnamed (fields s)) (fields s) opts (form_parent ps) ps in
    let errors := stray_errors (fields s) opts ps ++ field_errors ++ validation_errors s (form_parent ps) vs in
    if negb (is_empty errors) then inl errors
    else match unwrap_all (fields s) vs with Some values => inr (builder s values) | None => inl [] end.
Proof.
  intros Hv. destruct (accepted_fields _ Hv) as [Hs Hu]. unfold run_parser. rewrite run_after by done.
  unfold finalize, derived, gen_finalize, state_after. cbn [gen_opts gen_errors gen_parent gen_contexts].
  rewrite finalize_fields_after. destruct (field_outcomes _ _ _ _ _) as [field_errors vs].
  destruct (negb (is_empty _)); [done|]. by destruct (unwrap_all _ _).
Qed.

End accepted.

(** ** Enumerations are parsed by their values *)

Section enumeration_spec.
Context `{UncasedLaws} `{Memchr} `{PercentEncoding} {T : Type}.

Lemma variant_of_some value v values (variants : list (T * list str)) :
  all_differ uncased_eq (concat (snd <$> variants)) → (v, values) ∈ variants →
  (∃ w, w ∈ values ∧ uncased_eq value w = true) → variant_of value variants = Some v.
Proof.
  intros Hd Hin (b & Hb & Hvb). induction variants as [|[w ws] variants IH]; [by apply not_elem_of_nil in Hin|].
  cbn [fmap list_fmap concat snd variant_of] in *. apply all_differ_app in Hd as [Hd Hl].
  destruct (existsb (uncased_eq value) ws) eqn:He.
  - apply elem_of_cons in Hin as [[= <- <-]|Hin]; [done|exfalso].
    apply existsb_exists in He as (a & Ha%list_elem_of_In & Hva).
    assert (b ∈ concat (snd <$> variants)) as Hbc.
    { apply list_elem_of_In, in_concat. exists values. rewrite <-!list_elem_of_In. split; [|done].
      apply list_elem_of_fmap. by exists (v, values). }
    specialize (Hl a b Ha Hbc). rewrite (uncased_eq_trans b value a) in Hl; [done| |done]. by rewrite uncased_eq_sym.
  - apply elem_of_cons in Hin as [[= <- <-]|Hin]; [exfalso|by apply IH].
    apply not_true_iff_false in He. apply He, existsb_exists. exists b. by rewrite <-list_elem_of_In.
Qed.

(** An accepted enumeration is parsed from exactly the values of its variants,
    without regard to case, each by its own variant; the error for any other
    value lists all of them. *)
Theorem enum_from_value_spec (variants : list (T * list str)) (f : ValueField) :
  variants_validate (snd <$> variants) = None →
  (∀ v values, (v, values) ∈ variants → (∃ w, w ∈ values ∧ uncased_eq (field_value f) w = true) →
    enum_from_value variants f = inr v) ∧
  ((∀ v values w, (v, values) ∈ variants → w ∈ values → uncased_eq (field_value f) w = false) →
    enum_from_value variants f =
      inl [with_value (field_value f) (with_name (buf_from_view (field_name f))
             (error_from (InvalidChoice (concat (snd <$> variants)))))]).
Proof.
  intros Hv. assert (all_differ uncased_eq (concat (snd <$> variants))) as Hd.
  { apply first_duplicate_none. unfold variants_validate in Hv. destruct (is_empty _); [done|].
    by destruct (first_duplicate _ _) as [[[? ?] [? ?]]|]; [case_match|]. }
  unfold enum_from_value. split.
  - intros v values Hin Hw. by rewrite (variant_of_some _ v values).
  - intros Hn. replace (variant_of (field_value f) variants) with (None : option T); [done|]. symmetry.
    clear Hv Hd. induction variants as [|[w ws] variants IH]; [done|]. cbn [variant_of].
    destruct (existsb _ ws) eqn:He.
    + apply existsb_exists in He as (a & Ha%list_elem_of_In & Hfa). specialize (Hn w ws a (list_elem_of_here _ _) Ha). congruence.
    + apply IH. intros v values b Hin. apply (Hn v values b). by right.
Qed.
End enumeration_spec.

(** ** A concrete structure *)

Module DeriveReference.
Import Crates.Reference.

#[local] Instance str_field : FromFormField unit str := {
  from_value := str_from_value;
  from_data := unexpected_from_data;
  field_default := None;
}.

#[local] Instance int_field : FromFormField unit Z := {
  from_value := int_from_value 0 255;
  from_data := unexpected_from_data;
  field_default := None;
}.

(** [struct Person { #[field(validate = len(2..))] name: String,
    #[field(name = uncased("Years"), default = 18)] age: u8 }]; a validation is
    the least length of the name. *)
Definition person_fields : list (FormField unit nat) := [
  mkFormField (Some #"name") str from_field [mkAttr None (Some 2) None None] [];
  mkFormField (Some #"age") Z from_field
    [mkAttr (Some (UncasedName #"Years")) None (Some (DefaultInt 18%Z)) None] []].

Definition person : FormStruct unit nat (str * Z) := mkFormStruct person_fields (λ '(n, (a, _)), (n, a)) (λ _, [])
  (λ least _ '(n, _), match n with
                      | Some n => if (length n <? least)%nat then inl [validation #"short"] else inr tt
                      | None => inr tt
                      end).

Definition pushed (fields : list str) : list (Pushed unit) := (λ f, PValue (field_parse f)) <$> fields.

(** The default; a strict parse of a short name and of fields not known. *)
Example person_parses :
  run_parser (FF := derived person) (str * Z) Lenient (pushed [ #"x=1"; #"name=Ada"]) = inr (#"Ada", 18%Z) ∧
  length (err (run_parser (FF := derived person) (str * Z) Strict (pushed [ #"x=1"; #"name=A"; #"_method=PUT"]))) = 3.
Proof. by vm_compute. Qed.


(** A tuple structure does not parse what its field does, unless that is a
    single value: the name is shifted for the structure too. *)
Definition wrapper : FormStruct unit nat (str * Z) :=
  mkFormStruct [mkFormField None (str * Z) (derived person) [] []] (λ '(p, _), p) (λ _, []) (λ _ _ _, inr tt).

Lemma wrapper_shifts :
  fields_validate (fields wrapper) = None ∧
  is_ok (run_parser (FF := derived person) (str * Z) Lenient (pushed [ #"name=Ada"])) = Some (#"Ada", 18%Z) ∧
  is_ok (run_parser (FF := derived wrapper) (str * Z) Lenient (pushed [ #"name=Ada"])) = None ∧
  is_ok (run_parser (FF := derived wrapper) (str * Z) Lenient (pushed [ #"any.name=Ada"])) = Some (#"Ada", 18%Z).
Proof. by vm_compute. Qed.
End DeriveReference.
