(* ===== verification/Validate.v ===== *)
(** * Validate: the validators of form fields (core/lib/src/form/validate.rs)

    Lengths are [u64]s and the numbers of [range] are [isize]s; the [Debug] of
    items is an argument.  A [char] is the string that encodes it. *)

From S2P Require Import Prelude Crates Status MediaType DataStream FormName FormError FromForm.

(** ** Ranges *)

(** [std::ops::Bound], and [RangeBounds::contains]. *)
Inductive Bound := Included (v : Z) | Excluded (v : Z) | Unbounded.

Definition range_contains (lo hi : Bound) (item : Z) : bool :=
  match lo with
  | Included start => (start <=? item)%Z
  | Excluded start => (start <? item)%Z
  | Unbounded => true
  end &&
  match hi with
  | Included stop => (item <=? stop)%Z
  | Excluded stop => (item <? stop)%Z
  | Unbounded => true
  end.

Definition u64_max : Z := 2 ^ 64 - 1.
Definition isize_min : Z := - 2 ^ 63.
Definition isize_max : Z := 2 ^ 63 - 1.

(** The inclusive bounds that the errors of [len] and [range] carry. *)
Definition reported_start (max : Z) (lo : Bound) : option Z :=
  match lo with
  | Included v => Some v
  | Excluded v => Some (Z.min max (v + 1))
  | Unbounded => None
  end.

Definition reported_end (min : Z) (hi : Bound) : option Z :=
  match hi with
  | Included v => Some v
  | Excluded v => Some (Z.max min (v - 1))
  | Unbounded => None
  end.

(** ** Lengths *)

(** [trait Len]. *)
Class Len (V : Type) := { len_of : V → Z }.

#[export] Instance len_str : Len str := { len_of s := Z.of_nat (length s) }.
#[export] Instance len_vec {T} : Len (list T) | 10 := { len_of l := Z.of_nat (length l) }.
#[export] Instance len_option {T} `{Len T} : Len (option T) := {
  len_of v := match v with Some v => len_of v | None => 0%Z end
}.
#[export] Instance len_capped {T} `{Len T} : Len (Capped T) := { len_of v := len_of (value v) }.
#[export] Instance len_result {T} `{Len T} : Len (Result T) := { len_of v := len_of (is_ok v) }.

(** [len]. *)
Definition len {V} `{Len V} (value : V) (lo hi : Bound) : Result unit :=
  if negb (range_contains lo hi (len_of value)) then
    inl (errors_from (error_from (InvalidLength (reported_start u64_max lo) (reported_end 0 hi))))
  else inr tt.

(** [range], with what [TryInto<isize>] makes of the value. *)
Definition try_into_isize (z : Z) : option Z :=
  if (isize_min <=? z)%Z && (z <=? isize_max)%Z then Some z else None.

Definition range {V} (try_into : V → option Z) (value : V) (lo hi : Bound) : Result unit :=
  let outside := inl (errors_from (error_from
    (OutOfRange (reported_start isize_max lo) (reported_end isize_min hi)))) in
  match try_into value with
  | Some v => if range_contains lo hi v then inr tt else outside
  | None => outside
  end.

(** ** Items *)

(** [trait Contains]. *)
Class Contains (V I : Type) := { contains_item : V → I → bool }.

(** [str::contains]. *)
Fixpoint contains_str (s item : str) : bool :=
  starts_with item s || match s with [] => false | _ :: s => contains_str s item end.

#[export] Instance str_contains_str : Contains str str := { contains_item := contains_str }.
#[export] Instance str_contains_chars : Contains str (list str) := {
  contains_item s chars := existsb (contains_str s) chars
}.
#[export] Instance vec_contains {T} `{EqDecision T} : Contains (list T) T | 10 := {
  contains_item l item := bool_decide (item ∈ l)
}.
#[export] Instance option_contains {T I} `{Contains T I} : Contains (option T) I := {
  contains_item v item := match v with Some v => contains_item v item | None => false end
}.
#[export] Instance result_contains {T I} `{Contains T I} : Contains (Result T) I := {
  contains_item v item := match v with inr v => contains_item v item | inl _ => false end
}.

Definition invalid (msg : str) : Result unit := inl (errors_from (FormError.validation msg)).

Section items.
Context {V I : Type} `{Contains V I} (debug : I → str).

(** [contains], [dbg_contains], [omits], [dbg_omits]. *)
Definition contains (value : V) (item : I) : Result unit :=
  if negb (contains_item value item) then invalid #"value does not contain expected item" else inr tt.

Definition dbg_contains (value : V) (item : I) : Result unit :=
  if negb (contains_item value item) then invalid (#"value must contain " ++ debug item) else inr tt.

Definition omits (value : V) (item : I) : Result unit :=
  if contains_item value item then invalid #"value contains a disallowed item" else inr tt.

Definition dbg_omits (value : V) (item : I) : Result unit :=
  if contains_item value item then invalid (#"value cannot contain " ++ debug item) else inr tt.

(** [one_of]: the loop, then the choices. *)
Fixpoint one_of_loop (value : V) (items : list I) : bool :=
  match items with
  | [] => false
  | item :: items => if contains_item value item then true else one_of_loop value items
  end.

Definition one_of (value : V) (items : list I) : Result unit :=
  if one_of_loop value items then inr tt
  else inl (errors_from (error_from (InvalidChoice (debug <$> items)))).
End items.

(** ** Other validators *)

(** [eq], [dbg_eq], [neq]; [ne] is the [!=] of the value. *)
Section equality.
Context {A B : Type} (eqb : A → B → bool) (debug : B → str).

Definition eq (a : A) (b : B) : Result unit :=
  if negb (eqb a b) then invalid #"value does not match expected value" else inr tt.

Definition dbg_eq (a : A) (b : B) : Result unit :=
  if negb (eqb a b) then invalid (#"value must be " ++ debug b) else inr tt.

Definition neq (a : A) (b : B) : Result unit :=
  if eqb a b then invalid #"value is equal to an invalid value" else inr tt.
End equality.

(** [ext], on the content type of the file. *)
Section ext.
Context `{Uncased}.

Definition ext (content_type : option MediaType) (type : MediaType) : Result unit :=
  let msg :=
    match content_type ≫= extension, extension type with
    | Some a, Some b => #"invalid file type: ." ++ a ++ #", must be ." ++ b
    | Some a, None => #"invalid file type: ." ++ a ++ #", must be " ++ media_type_to_string type
    | None, Some b => #"file type must be ." ++ b
    | None, None => #"file type must be " ++ media_type_to_string type
    end in
  match content_type with
  | Some file_ct => if media_type_eq file_ct type then inr tt else invalid msg
  | None => invalid msg
  end.
End ext.

(** [with], [try_with]; the error of [try_with] by its text. *)
Definition with_ {V} (value : V) (f : V → bool) (msg : str) : Result unit :=
  if negb (f value) then invalid msg else inr tt.

Definition try_with {V T} (value : V) (f : V → str + T) : Result unit :=
  match f value with
  | inr _ => inr tt
  | inl e => invalid e
  end.

(** ** Properties *)

(** The interval an error's bounds describe, to its reader. *)
Definition within (start stop : option Z) (v : Z) : Prop :=
  match start with Some a => (a ≤ v)%Z | None => True end ∧
  match stop with Some b => (v ≤ b)%Z | None => True end.

(** A bound of a [w]-bit range, which the reported one does not saturate. *)
Definition representable (min max : Z) (lo hi : Bound) : Prop :=
  match lo with Excluded v => (v < max)%Z | _ => True end ∧
  match hi with Excluded v => (min < v)%Z | _ => True end.

Lemma reported_bounds min max lo hi v :
  representable min max lo hi →
  range_contains lo hi v = true ↔ within (reported_start max lo) (reported_end min hi) v.
Proof.
  intros [Hlo Hhi]. unfold range_contains, within, reported_start, reported_end.
  rewrite andb_true_iff. destruct lo, hi; lia.
Qed.

Lemma one_of_loop_spec {V I} `{Contains V I} value items :
  one_of_loop value items = true ↔ ∃ item, item ∈ items ∧ contains_item value item = true.
Proof.
  induction items as [|i items IH]; cbn.
  - split; [done|]. intros (i & Hi & _). by apply elem_of_nil in Hi.
  - destruct (contains_item value i) eqn:Hi.
    + split; [|done]. intros _. exists i. split; [left|done].
    + rewrite IH. setoid_rewrite elem_of_cons. split; intros (i' & Hi' & Hc); exists i'; [auto|].
      destruct Hi' as [-> |Hi']; [congruence|auto].
Qed.

(** The checks of lengths and of numbers succeed exactly on the range, a
    number beyond the pointer width being outside of any; otherwise their one
    error describes exactly the range by inclusive bounds, unless an excluded
    bound is the last value of its type; a length with no minimum is answered
    as a payload that is too large. *)
Theorem range_checks_exact {V W} `{Len V} (into : W → option Z) (value : V) (n : W) lo hi :
  (len value lo hi = inr tt ↔ range_contains lo hi (len_of value) = true) ∧
  (range into n lo hi = inr tt ↔ ∃ v, into n = Some v ∧ range_contains lo hi v = true) ∧
  (∀ e, len value lo hi = inl e → ∃ start stop, e = [error_from (InvalidLength start stop)] ∧
     (representable 0 u64_max lo hi → ∀ v, range_contains lo hi v = true ↔ within start stop v) ∧
     errors_status e = match lo with Unbounded => Status.PayloadTooLarge | _ => Status.UnprocessableEntity end) ∧
  (∀ e, range into n lo hi = inl e → ∃ start stop, e = [error_from (OutOfRange start stop)] ∧
     (representable isize_min isize_max lo hi → ∀ v, range_contains lo hi v = true ↔ within start stop v)).
Proof.
  unfold len, range. repeat split.
  - destruct (range_contains _ _ _); [done|discriminate].
  - by intros ->.
  - destruct (into n) as [v|]; [|discriminate]. destruct (range_contains lo hi v) eqn:Hv; [eauto|discriminate].
  - intros (v & -> & ->). done.
  - intros e. destruct (range_contains lo hi (len_of value)); [discriminate|]. intros [= <-].
    eexists _, _. split_and!; [done| |by destruct lo].
    intros Hr v. by apply reported_bounds.
  - intros e He. eexists _, _. split.
    + destruct (into n) as [v|]; [destruct (range_contains lo hi v); [discriminate|]|]; by injection He as <-.
    + intros Hr v. by apply reported_bounds.
Qed.

(** [one_of] accepts a value exactly when it contains one of the items, and
    otherwise lists all of them; [contains] and [omits] are each other's
    negation. *)
Theorem one_of_spec {V I} `{Contains V I} (debug : I → str) (value : V) (items : list I) (item : I) :
  (one_of debug value items = inr tt ↔ ∃ i, i ∈ items ∧ contains_item value i = true) ∧
  (one_of debug value items = inr tt ∨
   one_of debug value items = inl [error_from (InvalidChoice (debug <$> items))]) ∧
  (contains value item = inr tt ↔ omits value item ≠ inr tt) ∧
  (one_of debug value [item] = inr tt ↔ contains value item = inr tt).
Proof.
  pose proof (one_of_loop_spec value items) as Hl. unfold one_of, contains, omits. repeat split.
  - destruct (one_of_loop value items); [tauto|discriminate].
  - intros Hi. apply Hl in Hi. by rewrite Hi.
  - destruct (one_of_loop value items); eauto.
  - by destruct (contains_item value item).
  - by destruct (contains_item value item).
  - cbn. by destruct (contains_item value item).
  - cbn. by destruct (contains_item value item).
Qed.
