(* ===== verification/Shield.v ===== *)
(** * Shield: security headers (core/lib/src/shield/policy.rs, shield.rs)

    A policy is a class of types with a name and a header.  Ages are durations
    of the [time] crate. *)

From S2P Require Import Prelude Crates Header UriForms Response Fairings.

(** [time::Duration]: from seconds and to whole seconds, compared. *)
Class Time := {
  Duration : Type;
  seconds : Z → Duration;
  whole_seconds : Duration → Z;
  duration_max : Duration → Duration → Duration;
  duration_eqb : Duration → Duration → bool;
}.

Class TimeLaws `{Time} : Prop := {
  whole_seconds_seconds n : whole_seconds (seconds n) = n;
  duration_eqb_true a b : duration_eqb a b = true ↔ a = b;
  whole_seconds_max a b : whole_seconds (duration_max a b) = Z.max (whole_seconds a) (whole_seconds b);
}.

(** [Duration::days]. *)
Definition days `{Time} (n : Z) : Duration := seconds (n * 86400).

Definition quote : ascii := "034".

(** ** Policies *)

(** [trait Policy]. *)
Class Policy (P : Type) := {
  NAME : str;
  policy_header : P → Header;
  policy_default : P;
}.
Arguments NAME P {_}.
Arguments policy_default P {_}.

(** [enum Referrer]. *)
Inductive Referrer :=
  | NoReferrer | NoReferrerWhenDowngrade | RefOrigin | OriginWhenCrossOrigin | RefSameOrigin
  | StrictOrigin | StrictOriginWhenCrossOrigin | UnsafeUrl.

Definition referrer_name : str := #"Referrer-Policy".

Definition referrer_header (referrer : Referrer) : Header :=
  Header_new referrer_name
    match referrer with
    | NoReferrer => #"no-referrer"
    | NoReferrerWhenDowngrade => #"no-referrer-when-downgrade"
    | RefOrigin => #"origin"
    | OriginWhenCrossOrigin => #"origin-when-cross-origin"
    | RefSameOrigin => #"same-origin"
    | StrictOrigin => #"strict-origin"
    | StrictOriginWhenCrossOrigin => #"strict-origin-when-cross-origin"
    | UnsafeUrl => #"unsafe-url"
    end.

#[export] Instance referrer_policy : Policy Referrer :=
  {| NAME := referrer_name; policy_header := referrer_header; policy_default := NoReferrer |}.

(** [enum NoSniff], [Frame], [XssFilter], [Prefetch]. *)
Inductive NoSniff := NoSniffEnable.
Inductive Frame := Deny | SameOrigin.
Inductive XssFilter := XssDisable | XssEnable | EnableBlock.
Inductive Prefetch := On | Off.

Definition no_sniff_header (_ : NoSniff) : Header := Header_new #"X-Content-Type-Options" #"nosniff".

Definition frame_header (frame : Frame) : Header :=
  Header_new #"X-Frame-Options" match frame with Deny => #"DENY" | SameOrigin => #"SAMEORIGIN" end.

Definition xss_filter_header (filter : XssFilter) : Header :=
  Header_new #"X-XSS-Protection"
    match filter with XssDisable => #"0" | XssEnable => #"1" | EnableBlock => #"1; mode=block" end.

Definition prefetch_header (prefetch : Prefetch) : Header :=
  Header_new #"X-DNS-Prefetch-Control" match prefetch with On => #"on" | Off => #"off" end.

#[export] Instance no_sniff_policy : Policy NoSniff :=
  {| NAME := #"X-Content-Type-Options"; policy_header := no_sniff_header; policy_default := NoSniffEnable |}.
#[export] Instance frame_policy : Policy Frame :=
  {| NAME := #"X-Frame-Options"; policy_header := frame_header; policy_default := SameOrigin |}.
#[export] Instance xss_filter_policy : Policy XssFilter :=
  {| NAME := #"X-XSS-Protection"; policy_header := xss_filter_header; policy_default := XssEnable |}.
#[export] Instance prefetch_policy : Policy Prefetch :=
  {| NAME := #"X-DNS-Prefetch-Control"; policy_header := prefetch_header; policy_default := Off |}.

Section timed.
Context `{Time}.

(** [enum ExpectCt]. *)
Inductive ExpectCt :=
  | Enforce (age : Duration)
  | Report (age : Duration) (uri : Absolute)
  | ReportAndEnforce (age : Duration) (uri : Absolute).

Definition expect_ct_header (expect : ExpectCt) : Header :=
  Header_new #"Expect-CT"
    match expect with
    | Enforce age => #"max-age=" ++ integer_text (whole_seconds age) ++ #", enforce"
    | Report age uri =>
      #"max-age=" ++ integer_text (whole_seconds age) ++ #", report-uri=" ++
        [quote] ++ absolute_to_string uri ++ [quote]
    | ReportAndEnforce age uri =>
      #"max-age=" ++ integer_text (whole_seconds age) ++ #", enforce, report-uri=" ++
        [quote] ++ absolute_to_string uri ++ [quote]
    end.

(** [enum Hsts], its [PartialEq], and the text its header has in general. *)
Inductive Hsts :=
  | HstsEnable (age : Duration)
  | IncludeSubDomains (age : Duration)
  | Preload (age : Duration).

Definition hsts_default : Hsts := HstsEnable (days 365).

Definition hsts_eqb (a b : Hsts) : bool :=
  match a, b with
  | HstsEnable a, HstsEnable b => duration_eqb a b
  | IncludeSubDomains a, IncludeSubDomains b => duration_eqb a b
  | Preload a, Preload b => duration_eqb a b
  | _, _ => false
  end.

Definition hsts_text (hsts : Hsts) : str :=
  match hsts with
  | HstsEnable age => #"max-age=" ++ integer_text (whole_seconds age)
  | IncludeSubDomains age => #"max-age=" ++ integer_text (whole_seconds age) ++ #"; includeSubDomains"
  | Preload age =>
    #"max-age=" ++ integer_text (whole_seconds (duration_max age (seconds 31536000))) ++
      #"; includeSubDomains; preload"
  end.

Definition hsts_name : str := #"Strict-Transport-Security".

Definition hsts_header (hsts : Hsts) : Header :=
  if hsts_eqb hsts hsts_default then Header_new hsts_name #"max-age=31536000"
  else Header_new hsts_name (hsts_text hsts).

#[export] Instance expect_ct_policy : Policy ExpectCt :=
  {| NAME := #"Expect-CT"; policy_header := expect_ct_header; policy_default := Enforce (days 30) |}.
#[export] Instance hsts_policy : Policy Hsts :=
  {| NAME := hsts_name; policy_header := hsts_header; policy_default := hsts_default |}.
End timed.

(** ** Permissions *)

(** [enum Feature]. *)
Inductive Feature :=
  | Accelerometer | AmbientLightSensor | Autoplay | Battery | Camera | CrossOriginIsolated
  | Displaycapture | DocumentDomain | EncryptedMedia | ExecutionWhileNotRendered
  | ExecutionWhileOutOfviewport | Fullscreen | Geolocation | Gyroscope | Magnetometer | Microphone
  | Midi | NavigationOverride | Payment | PictureInPicture | PublickeyCredentialsGet
  | ScreenWakeLock | SyncXhr | Usb | WebShare | XrSpatialTracking | ClipboardRead | ClipboardWrite
  | Gamepad | SpeakerSelection | InterestCohort | ConversionMeasurement
  | FocusWithoutUserActivation | Hid | IdleDetection | Serial | SyncScript | TrustTokenRedemption
  | VerticalScroll.

#[export] Instance Feature_eq_dec : EqDecision Feature.
Proof. solve_decision. Defined.

Definition feature_str (self : Feature) : str :=
  match self with
  | Accelerometer => #"accelerometer"
  | AmbientLightSensor => #"ambient-light-sensor"
  | Autoplay => #"autoplay"
  | Battery => #"battery"
  | Camera => #"camera"
  | CrossOriginIsolated => #"cross-origin-isolated"
  | Displaycapture => #"display-capture"
  | DocumentDomain => #"document-domain"
  | EncryptedMedia => #"encrypted-media"
  | ExecutionWhileNotRendered => #"execution-while-not-rendered"
  | ExecutionWhileOutOfviewport => #"execution-while-out-of-viewport"
  | Fullscreen => #"fullscreen"
  | Geolocation => #"geolocation"
  | Gyroscope => #"gyroscope"
  | Magnetometer => #"magnetometer"
  | Microphone => #"microphone"
  | Midi => #"midi"
  | NavigationOverride => #"navigation-override"
  | Payment => #"payment"
  | PictureInPicture => #"picture-in-picture"
  | PublickeyCredentialsGet => #"publickey-credentials-get"
  | ScreenWakeLock => #"screen-wake-lock"
  | SyncXhr => #"sync-xhr"
  | Usb => #"usb"
  | WebShare => #"web-share"
  | XrSpatialTracking => #"xr-spatial-tracking"
  | ClipboardRead => #"clipboard-read"
  | ClipboardWrite => #"clipboard-write"
  | Gamepad => #"gamepad"
  | SpeakerSelection => #"speaker-selection"
  | InterestCohort => #"interest-cohort"
  | ConversionMeasurement => #"conversion-measurement"
  | FocusWithoutUserActivation => #"focus-without-user-activation"
  | Hid => #"hid"
  | IdleDetection => #"idle-detection"
  | Serial => #"serial"
  | SyncScript => #"sync-script"
  | TrustTokenRedemption => #"trust-token-redemption"
  | VerticalScroll => #"vertical-scroll"
  end.

(** [enum Allow]. *)
Inductive Allow := AllowOrigin (uri : Absolute) | Any | This.

#[export] Instance Authority_eq_dec : EqDecision Authority.
Proof. solve_decision. Defined.
#[export] Instance Absolute_eq_dec : EqDecision Absolute.
Proof. solve_decision. Defined.
#[export] Instance Allow_eq_dec : EqDecision Allow.
Proof. solve_decision. Defined.

(** [Allow::rendered]. *)
Definition rendered (self : Allow) : str :=
  match self with
  | AllowOrigin uri =>
    [quote] ++ scheme uri ++
    match authority uri with
    | Some auth => #"://" ++ host auth ++ port_text (port auth)
    | None => []
    end ++ [quote]
  | Any => #"*"
  | This => #"self"
  end.

(** [struct Permission]; the [IndexMap] by its entries. *)
Definition Permission : Type := list (Feature * list Allow).

Definition feature_eqb (a b : Feature) : bool := bool_decide (a = b).

(** [Permission::block], [blocked], [allow], [allowed], [get], [iter], and the
    default; [allow] panics on an origin without a host. *)
Definition permission_insert (feature : Feature) (allow : list Allow) (self : Permission) : Permission :=
  assoc_update feature_eqb allow feature (λ _, allow) self.

Definition block (feature : Feature) (self : Permission) : Permission := permission_insert feature [] self.

Definition blocked (feature : Feature) : Permission := block feature [].

Definition hostless (allow : Allow) : bool :=
  match allow with
  | AllowOrigin absolute =>
    match authority absolute with Some a => is_empty (host a) | None => true end
  | _ => false
  end.

Definition allow (feature : Feature) (allow : list Allow) (self : Permission) : option Permission :=
  if existsb hostless allow then None
  else
    let allow := if bool_decide (Any ∈ allow) then [Any] else allow in
    Some (permission_insert feature allow self).

Definition allowed (feature : Feature) (l : list Allow) : option Permission := allow feature l [].

Definition permission_get (feature : Feature) (self : Permission) : option (list Allow) :=
  assoc_get feature_eqb feature self.

Definition permission_iter (self : Permission) : list (Feature * list Allow) := self.

Definition permission_default : Permission := blocked InterestCohort.

(** [PartialEq] of [IndexMap]s: as many entries, each of them in the other. *)
Definition permission_eqb (a b : Permission) : bool :=
  (length a =? length b)%nat &&
  forallb (λ e, bool_decide (permission_get e.1 b = Some e.2)) a.

(** [[str]::join]. *)
Fixpoint join_str (sep : str) (ws : list str) : str :=
  match ws with
  | [] => []
  | [w] => w
  | w :: ws => w ++ sep ++ join_str sep ws
  end.

(** [impl From<&Permission> for Header]. *)
Definition permission_name : str := #"Permissions-Policy".

Definition permission_entry (e : Feature * list Allow) : str :=
  feature_str e.1 ++ #"=(" ++ join_str #" " (rendered <$> e.2) ++ #")".

Definition permission_text (perm : Permission) : str := join_str #", " (permission_entry <$> perm).

Definition permission_header (perm : Permission) : Header :=
  if permission_eqb perm permission_default then Header_new permission_name #"interest-cohort=()"
  else Header_new permission_name (permission_text perm).

#[export] Instance permission_policy : Policy Permission :=
  {| NAME := permission_name; policy_header := permission_header; policy_default := permission_default |}.

(** ** Shield *)

Section Shield.
Context {U : Uncased} {IM : IndexMap str (list str) uncased_eq} {IoHandler : Type} `{Time}.

(** [struct Shield]: the [HashMap] of policies is a list in the order, whatever
    it is, in which the map iterates. *)
Record Shield := mkShield {
  policies : list (str * Header);
  force_hsts : bool;
}.

(** [Shield::new], [enable], [disable], [is_enabled], and the default. *)
Definition shield_new : Shield := mkShield [] false.

Definition enable {P} `{Policy P} (policy : P) (self : Shield) : Shield :=
  mkShield (assoc_update uncased_eq (policy_header policy) (NAME P) (λ _, policy_header policy) (policies self))
    (force_hsts self).

Definition disable (P : Type) `{Policy P} (self : Shield) : Shield :=
  mkShield (List.filter (λ e, negb (uncased_eq (NAME P) e.1)) (policies self)) (force_hsts self).

Definition is_enabled (P : Type) `{Policy P} (self : Shield) : bool :=
  match assoc_get uncased_eq (NAME P) (policies self) with Some _ => true | None => false end.

Definition shield_default : Shield :=
  enable permission_default (enable SameOrigin (enable NoSniffEnable shield_new)).

(** [Shield::info], [on_liftoff] (with whether each endpoint is TLS and whether
    the profile is the debug one) and [on_response]. *)
Definition shield_kind : Kind := Z.lor (Z.lor Liftoff KResponse) Singleton.

Definition on_liftoff (endpoints_tls : list bool) (debug_profile : bool) (self : Shield) : Shield :=
  if is_empty (policies self) then self
  else
    let force := forallb id endpoints_tls && negb debug_profile && negb (is_enabled Hsts self) in
    if force then mkShield (policies self) true else self.

Definition on_response (self : Shield) (response : Response IM IoHandler) : Response IM IoHandler :=
  foldl (λ response header,
    if contains (header_name header) (resp_headers response) then response
    else set_header header response) response (snd <$> policies self).
End Shield.

(** ** Lemmas *)

(** A policy's header has the policy's name. *)
Class PolicyLaws (P : Type) `{Policy P} : Prop := { header_name_NAME p : header_name (policy_header p) = NAME P }.

#[export] Instance referrer_laws : PolicyLaws Referrer.
Proof. by split. Qed.
#[export] Instance no_sniff_laws : PolicyLaws NoSniff.
Proof. by split. Qed.
#[export] Instance frame_laws : PolicyLaws Frame.
Proof. by split. Qed.
#[export] Instance xss_filter_laws : PolicyLaws XssFilter.
Proof. by split. Qed.
#[export] Instance prefetch_laws : PolicyLaws Prefetch.
Proof. by split. Qed.
#[export] Instance expect_ct_laws `{Time} : PolicyLaws ExpectCt.
Proof. by split. Qed.
#[export] Instance hsts_laws `{Time} : PolicyLaws Hsts.
Proof. split. intros p. cbn. unfold hsts_header. by destruct (hsts_eqb _ _). Qed.
#[export] Instance permission_laws : PolicyLaws Permission.
Proof. split. intros p. cbn. unfold permission_header. by destruct (permission_eqb _ _). Qed.

Section shield_lemmas.
Context {U : Uncased} {UL : UncasedLaws} {IM : IndexMap str (list str) uncased_eq}
  {IML : IndexMapLaws IM} {IoHandler : Type} `{Time}.

(** The shields that can be made. *)
Inductive built : Shield → Prop :=
  | built_new : built shield_new
  | built_enable {P} `{PolicyLaws P} (policy : P) s : built s → built (enable policy s)
  | built_disable P `{PolicyLaws P} s : built s → built (disable P s)
  | built_liftoff tls debug s : built s → built (on_liftoff tls debug s).

Definition shield_wf (es : list (str * Header)) : Prop :=
  assoc_wf uncased_eq es ∧ Forall (λ e, uncased_eq (header_name e.2) e.1 = true) es.

Lemma assoc_wf_filter (P : str * Header → bool) (l : list (str * Header)) :
  assoc_wf uncased_eq l → assoc_wf uncased_eq (List.filter P l).
Proof.
  induction l as [|[k v] l IH]; [done|]. cbn. intros [Hn Hw]. destruct (P (k, v)); [|by apply IH].
  split; [|by apply IH]. pose proof (assoc_get_None (V:=Header) uncased_eq uncased_eq_sym uncased_eq_trans) as Hg.
  rewrite Hg in Hn. apply Hg. intros p Hp. apply elem_of_filter_bool in Hp as [Hp _]. by apply Hn.
Qed.

Lemma assoc_update_Forall (Q : str * Header → Prop) h k (l : list (str * Header)) :
  Forall Q l → (∀ k', uncased_eq k k' = true → Q (k', h)) → Q (k, h) →
  Forall Q (assoc_update uncased_eq h k (λ _, h) l).
Proof.
  intros Hl Hk Hq. induction Hl as [|[k' v] l Hx Hl IH]; cbn; [by constructor|].
  destruct (uncased_eq k k') eqn:E; constructor; auto.
Qed.

Lemma built_wf s : built s → shield_wf (policies s).
Proof.
  induction 1 as [|P HP HL policy s Hs [Hw Hf]|P HP HL s Hs [Hw Hf]|tls debug s Hs IH].
  - by split.
  - split; [by apply assoc_wf_update; [apply uncased_eq_sym|]|].
    apply assoc_update_Forall; [done| |]; intros; cbn; rewrite header_name_NAME; [done|apply uncased_eq_refl].
  - split; [by apply assoc_wf_filter|]. apply Forall_forall. intros e He.
    apply elem_of_filter_bool in He as [He _]. rewrite Forall_forall in Hf. by apply Hf.
  - unfold on_liftoff. destruct (is_empty _); [done|]. by destruct (_ && _ && _).
Qed.

(** Whether a header is there after another is set, and its values where not. *)
Lemma contains_set_header n h (r : Response IM IoHandler) :
  contains n (resp_headers (set_header h r)) = uncased_eq n (header_name h) || contains n (resp_headers r).
Proof.
  unfold contains, set_header, set_header_map, replace. cbn [resp_headers].
  pose proof (im_insert_spec (header_name h) [header_value h] (resp_headers r)) as [_ He].
  destruct (im_insert (header_name h) [header_value h] (resp_headers r)) as [old m] eqn:Hi. cbn in He |- *.
  rewrite !im_get_spec, He, assoc_get_update; [by destruct (uncased_eq n (header_name h))|..].
  - apply uncased_eq_sym.
  - apply uncased_eq_trans.
  - apply uncased_eq_refl.
Qed.

Lemma contains_get n (m : HeaderMap IM) : contains n m = false → get n m = [].
Proof. unfold contains, get. by destruct (im_get n m). Qed.

Lemma contains_eq n k (m : HeaderMap IM) : uncased_eq n k = true → contains n m = contains k m.
Proof.
  intros Hn. unfold contains. rewrite !im_get_spec.
  by rewrite (assoc_get_eq uncased_eq uncased_eq_sym uncased_eq_trans n k).
Qed.

Lemma on_response_entries es (r : Response IM IoHandler) n :
  shield_wf es →
  let r' := foldl (λ r h, if contains (header_name h) (resp_headers r) then r else set_header h r) r (snd <$> es) in
  get n (resp_headers r') =
    (if contains n (resp_headers r) then get n (resp_headers r)
     else match assoc_get uncased_eq n es with Some h => [header_value h] | None => [] end) ∧
  resp_status r' = resp_status r ∧ body r' = body r.
Proof.
  intros [Hw Hf]. revert r. induction es as [|[k h] es IH]; intros r; cbn.
  { split_and!; [|done..]. destruct (contains n _) eqn:Hc; [done|]. by apply contains_get. }
  destruct Hw as [Hk Hw]. inversion_clear Hf as [|?? Hh Hf']. cbn in Hh.
  destruct (contains (header_name h) (resp_headers r)) eqn:Hc.
  - destruct (IH Hw Hf' r) as (-> & -> & ->). split_and!; [|done..].
    destruct (uncased_eq n k) eqn:Hn; [|done].
    by rewrite (contains_eq n (header_name h)), Hc by (eapply uncased_eq_trans; [done|by rewrite uncased_eq_sym]).
  - destruct (IH Hw Hf' (set_header h r)) as (-> & -> & ->). split_and!; [|done..].
    rewrite contains_set_header, get_set_header.
    destruct (uncased_eq n (header_name h)) eqn:Hn; cbn.
    + rewrite (contains_eq n (header_name h)), Hc by done.
      by rewrite (uncased_eq_trans n (header_name h) k).
    + destruct (uncased_eq n k) eqn:Hnk; [|done].
      rewrite (uncased_eq_trans n k (header_name h)) in Hn; [done|done|by rewrite uncased_eq_sym].
Qed.

Lemma policies_enable n {P} `{Policy P} (policy : P) s :
  assoc_get uncased_eq n (policies (enable policy s)) =
    if uncased_eq n (NAME P) then Some (policy_header policy) else assoc_get uncased_eq n (policies s).
Proof.
  cbn. rewrite assoc_get_update; [done|..].
  - apply uncased_eq_sym.
  - apply uncased_eq_trans.
  - apply uncased_eq_refl.
Qed.

Lemma policies_disable n P `{Policy P} s :
  assoc_get uncased_eq n (policies (disable P s)) =
    if uncased_eq n (NAME P) then None else assoc_get uncased_eq n (policies s).
Proof.
  cbn. induction (policies s) as [|[k h] es IH]; cbn; [by destruct (uncased_eq n _)|].
  destruct (uncased_eq (NAME P) k) eqn:Hk; cbn; rewrite IH.
  - destruct (uncased_eq n (NAME P)) eqn:Hn; [done|]. destruct (uncased_eq n k) eqn:Hnk; [|done].
    rewrite (uncased_eq_trans n k (NAME P)) in Hn; [done|done|by rewrite uncased_eq_sym].
  - destruct (uncased_eq n (NAME P)) eqn:Hn; [|done]. destruct (uncased_eq n k) eqn:Hnk; [|done].
    rewrite (uncased_eq_trans (NAME P) n k) in Hk; [done|by rewrite uncased_eq_sym|done].
Qed.

(** A shield, however it was configured, adds the header of each enabled
    policy to a response exactly where the response has none of that name,
    whatever the order of its policies; every header that was there is kept,
    and so are status and body.  A policy that is enabled last is the one of its
    name, and one that is disabled has no header. *)
Theorem shield_headers s (r : Response IM IoHandler) n :
  built s →
  let r' := on_response s r in
  get n (resp_headers r') =
    (if contains n (resp_headers r) then get n (resp_headers r)
     else match assoc_get uncased_eq n (policies s) with Some h => [header_value h] | None => [] end) ∧
  resp_status r' = resp_status r ∧ body r' = body r ∧
  (∀ P (HP : Policy P) (policy : P),
     assoc_get uncased_eq n (policies (enable policy s)) =
       (if uncased_eq n (NAME P) then Some (policy_header policy) else assoc_get uncased_eq n (policies s)) ∧
     assoc_get uncased_eq n (policies (disable P s)) =
       (if uncased_eq n (NAME P) then None else assoc_get uncased_eq n (policies s))).
Proof.
  intros Hs r'. destruct (on_response_entries (policies s) r n (built_wf s Hs)) as (? & ? & ?).
  split_and!; [done..|]. intros P HP policy. split; [apply policies_enable|apply policies_disable].
Qed.

(** The default policy for TLS that [on_liftoff] announces is never sent. *)
Lemma forced_hsts_not_sent tls debug s (r : Response IM IoHandler) :
  built s → is_enabled Hsts s = false → contains hsts_name (resp_headers r) = false →
  get hsts_name (resp_headers (on_response (on_liftoff tls debug s) r)) = [].
Proof.
  intros Hs He Hc.
  destruct (on_response_entries (policies (on_liftoff tls debug s)) r hsts_name) as (Hg & _ & _).
  { by apply built_wf, built_liftoff. }
  unfold on_response. rewrite Hg, Hc.
  assert (policies (on_liftoff tls debug s) = policies s) as ->.
  { unfold on_liftoff. destruct (is_empty _); [done|]. by destruct (_ && _ && _). }
  unfold is_enabled in He. cbn in He. by destruct (assoc_get _ _ _).
Qed.
End shield_lemmas.

(** ** Policies *)

Section policies.
Context `{TimeLaws}.

Lemma hsts_header_text hsts : hsts_header hsts = Header_new hsts_name (hsts_text hsts).
Proof.
  unfold hsts_header. destruct (hsts_eqb hsts hsts_default) eqn:He; [|done].
  destruct hsts as [age|age|age]; [|discriminate..]. apply duration_eqb_true in He as ->.
  unfold hsts_text, days. rewrite whole_seconds_seconds. reflexivity.
Qed.

Lemma permission_header_text perm : permission_header perm = Header_new permission_name (permission_text perm).
Proof.
  unfold permission_header. destruct (permission_eqb perm permission_default) eqn:He; [|done].
  unfold permission_eqb in He. apply andb_true_iff in He as [Hl He].
  destruct perm as [|[f l] [|? ?]]; [discriminate| |discriminate].
  cbn [forallb fst snd] in He. rewrite andb_true_r in He. apply bool_decide_eq_true in He.
  change (permission_get f [(InterestCohort, [])] = Some l) in He.
  unfold permission_get, feature_eqb in He. cbn [assoc_get] in He.
  case_bool_decide as Hf; [|discriminate]. injection He as <-. subst f. reflexivity.
Qed.

(** What [Permission]s are made by. *)
Inductive granted : Permission → Prop :=
  | granted_new : granted []
  | granted_block f p : granted p → granted (block f p)
  | granted_allow f l p p' : granted p → allow f l p = Some p' → granted p'.

Definition well_hosted (e : Feature * list Allow) : Prop :=
  Forall (λ a, hostless a = false) e.2 ∧ (Any ∈ e.2 → e.2 = [Any]).

Lemma feature_update_Forall (Q : Feature * list Allow → Prop) l k (es : Permission) :
  Forall Q es → (∀ k', Q (k', l)) → Forall Q (permission_insert k l es).
Proof.
  intros Hes Hq. unfold permission_insert. induction Hes as [|[k' v] es Hx Hes IH]; cbn; [by constructor|].
  destruct (feature_eqb k k'); constructor; auto.
Qed.

(** Headers are what the policies say, the two static ones included; [allow]
    refuses exactly the origins without a host, so that every origin rendered
    has one, and an allow-list with [Any] is nothing else. *)
Theorem permission_spec f l perm :
  granted perm →
  Forall well_hosted perm ∧
  permission_header perm = Header_new permission_name (permission_text perm) ∧
  (allow f l perm = None ↔ ∃ uri, AllowOrigin uri ∈ l ∧
     (authority uri = None ∨ ∃ a, authority uri = Some a ∧ host a = [])) ∧
  (∀ perm', allow f l perm = Some perm' →
     permission_get f perm' = Some (if bool_decide (Any ∈ l) then [Any] else l) ∧
     ∀ f', f' ≠ f → permission_get f' perm' = permission_get f' perm).
Proof.
  intros Hg. split_and!.
  - induction Hg as [|f' p Hp IH|f' l' p p' Hp IH Ha]; [constructor| |].
    + apply feature_update_Forall; [done|]. intros k. split; [constructor|]. by intros ?%not_elem_of_nil.
    + unfold allow in Ha. destruct (existsb hostless l') eqn:Hh; [discriminate|]. injection Ha as <-.
      apply feature_update_Forall; [done|]. intros k. case_bool_decide as Hany; split; cbn; [|done| |done].
      * by repeat constructor.
      * apply Forall_forall. intros a Hin. apply not_true_iff_false. intros Ht.
        apply not_true_iff_false in Hh. apply Hh, List.existsb_exists. exists a. by rewrite <-list_elem_of_In.
  - apply permission_header_text.
  - unfold allow. destruct (existsb hostless l) eqn:Hh; split; try done.
    + intros _. apply List.existsb_exists in Hh as (a & Hin%list_elem_of_In & Ha).
      destruct a as [uri| |]; [|discriminate..]. exists uri. split; [done|]. cbn in Ha.
      destruct (authority uri) as [a|]; [right|by left]. exists a. split; [done|].
      by apply is_empty_true.
    + intros (uri & Hin & Ha). exfalso. apply not_true_iff_false in Hh. apply Hh, List.existsb_exists.
      exists (AllowOrigin uri). rewrite <-list_elem_of_In. split; [done|]. cbn.
      destruct Ha as [-> |(a & -> & ->)]; done.
  - intros perm' Ha. unfold allow in Ha. destruct (existsb hostless l); [discriminate|]. injection Ha as <-.
    assert (∀ a b c : Feature, feature_eqb a b = true → feature_eqb b c = true → feature_eqb a c = true) as Ht.
    { unfold feature_eqb. intros a b c ?%bool_decide_eq_true ?%bool_decide_eq_true. apply bool_decide_eq_true. congruence. }
    unfold permission_get, permission_insert. split; [|intros f' Hf]; rewrite assoc_get_update; try done;
      try (intros; by apply bool_decide_ext); try (intros; by apply bool_decide_eq_true).
    + unfold feature_eqb. by rewrite bool_decide_eq_true_2.
    + unfold feature_eqb at 1. by rewrite bool_decide_eq_false_2.
Qed.
End policies.

Module ShieldReference.
Import Crates.Reference HeaderReference.

(** Durations of whole seconds. *)
#[local] Instance time_ref : Time := {|
  Duration := Z; seconds := id; whole_seconds := id; duration_max := Z.max; duration_eqb := Z.eqb |}.
#[local] Instance time_laws : TimeLaws.
Proof. split; [done|apply Z.eqb_eq|done]. Qed.

(** The default shield and a response that allows no frames. *)
Example shield_witness :
  let r := set_header (Header_new #"x-frame-options" #"DENY") (response_new (IoHandler:=unit)) in
  let r' := on_response shield_default r in
  get #"X-Frame-Options" (resp_headers r') = [ #"DENY"] ∧
  get #"Permissions-Policy" (resp_headers r') = [ #"interest-cohort=()"].
Proof.
  intros r r'. assert (built shield_default) as Hs by (repeat apply built_enable; apply _ || apply built_new).
  destruct (shield_headers shield_default r #"X-Frame-Options" Hs) as (H1 & _).
  destruct (shield_headers shield_default r #"Permissions-Policy" Hs) as (H2 & _).
  unfold r'. rewrite H1, H2. split; vm_compute; reflexivity.
Defined.
End ShieldReference.
