(* ===== verification/Codegen.v ===== *)
(** * Codegen: what a route attribute declares

    The parser of the parameters in a route attribute and the classification
    of a handler's arguments into guards, as the macros perform them at
    compile time (core/codegen/src/attribute/param/parse.rs, param/mod.rs and
    route/parse.rs).  Spans only locate diagnostics and lints only warn;
    neither is modelled.  Types are opaque. *)

From S2P Require Import UriFmt.
From S2P Require Import Prelude Crates Method.

(** [UnicodeXID], for the characters beyond ASCII; a character is its UTF-8
    encoding. *)
Class UnicodeXID := { is_xid_start : str → bool; is_xid_continue : str → bool }.

(** [Ident::unraw] of syn. *)
Class SynIdent := { unraw : str → str }.

(** [str::chars]: a byte of the form 10xxxxxx continues a character. *)
Definition is_continuation (c : ascii) : bool :=
  (128 <=? nat_of_ascii c) && (nat_of_ascii c <? 192).

Fixpoint chars (s : str) : list str :=
  match s with
  | [] => []
  | c :: s =>
    match chars s with
    | (d :: w) :: ws => if is_continuation d then (c :: d :: w) :: ws else [c] :: (d :: w) :: ws
    | ws => [c] :: ws
    end
  end.

Definition is_ascii_alphabetic (c : ascii) : bool :=
  let n := nat_of_ascii c in
  ((65 <=? n) && (n <=? 90)) || ((97 <=? n) && (n <=? 122)).

Section idents.
Context `{UnicodeXID}.

(** [is_ident_start] and [is_ident_continue]. *)
Definition is_ident_start (c : str) : bool :=
  match c with
  | [b] => is_ascii_alphabetic b || bool_decide (b = "_"%char)
  | _ => is_xid_start c
  end.

Definition is_ident_continue (c : str) : bool :=
  match c with
  | [b] => is_ascii_alphabetic b || is_digit b || bool_decide (b = "_"%char)
  | _ => is_xid_continue c
  end.

(** [is_valid_ident]. *)
Definition is_valid_ident (string : str) : bool :=
  match chars string with
  | c :: cs => is_ident_start c && forallb is_ident_continue cs
  | [] => false
  end.

(** [candidate_from_malformed]: the name a diagnostic suggests. *)
Definition candidate_from_malformed (segment : str) : str :=
  let candidate :=
    match chars segment with
    | c :: cs => (if is_ident_start c then c else []) ++ concat (List.filter is_ident_continue cs)
    | [] => []
    end in
  if is_empty candidate then #"param" else candidate.
End idents.

(** ** Parameters *)

(** [struct Dynamic], its [Name] as the text it compares by. *)
Record Dynamic := Dynamic_new { name : str; index : nat; trailing : bool }.

(** [struct Guard]. *)
Record Guard (Ty : Type) := Guard_from { source : Dynamic; fn_ident : str; ty : Ty }.
Arguments Guard_from {Ty}.
Arguments source {Ty}.
Arguments fn_ident {Ty}.
Arguments ty {Ty}.

(** [enum Parameter]: [Parameter] is a keyword here. *)
Inductive Param (Ty : Type) :=
  | PStatic (s : str)
  | PIgnored (d : Dynamic)
  | PDynamic (d : Dynamic)
  | PGuard (g : Guard Ty).
Arguments PStatic {Ty}.
Arguments PIgnored {Ty}.
Arguments PDynamic {Ty}.
Arguments PGuard {Ty}.

(** [enum ErrorKind]. *)
Inductive ErrorKind := Empty | BadIdent | Ignored | EarlyTrailing | NoTrailing | Static.

#[export] Instance ErrorKind_eq_dec : EqDecision ErrorKind.
Proof. solve_decision. Defined.

Section params.
Context {Ty : Type} `{UnicodeXID}.
Implicit Types p : Param Ty.

Definition is_wild (self : Dynamic) : bool := bool_decide (name self = #"_").

Definition static (self : Param Ty) : option str :=
  match self with PStatic s => Some s | _ => None end.

Definition dynamic (self : Param Ty) : option Dynamic :=
  match self with PDynamic d => Some d | PGuard g => Some (source g) | _ => None end.

Definition guard (self : Param Ty) : option (Guard Ty) :=
  match self with PGuard g => Some g | _ => None end.

(** Assigning to [dynamic_mut().index]. *)
Definition set_index (i : nat) (self : Param Ty) : Param Ty :=
  let set d := Dynamic_new (name d) i (trailing d) in
  match self with
  | PDynamic d => PDynamic (set d)
  | PGuard g => PGuard (Guard_from (set (source g)) (fn_ident g) (ty g))
  | p => p
  end.

(** [Parameter::parse]. *)
Definition parse (k : Kind) (segment : str) : Param Ty + ErrorKind :=
  if starts_with (#"<") segment && ends_with (#">") segment then
    let name := take (length segment - 1 - 1) (drop 1 segment) in
    let trailing := ends_with (#"..") name in
    let name := if trailing then take (length name - 2) name else name in
    if is_empty name then inr Empty
    else if negb (is_valid_ident name) then inr BadIdent
    else
      let dynamic := Dynamic_new name 0 trailing in
      if is_wild dynamic && negb (bool_decide (k = KPath)) then inr Ignored
      else if is_wild dynamic then inl (PIgnored dynamic)
      else inl (PDynamic dynamic)
  else if is_empty segment then inr Empty
  else inl (PStatic segment).

(** [Dynamic::parse]. *)
Definition dynamic_parse (k : Kind) (segment : str) : Dynamic + ErrorKind :=
  match parse k segment with
  | inl (PDynamic d) | inl (PIgnored d) => inl d
  | inl (PGuard g) => inl (source g)
  | inl (PStatic _) => inr Static
  | inr e => inr e
  end.

(** [<Dynamic as FromMeta>::from_meta], of the [data] parameter. *)
Definition dynamic_from_meta (string : str) : Dynamic + ErrorKind :=
  match dynamic_parse KPath string with
  | inl param =>
    if is_wild param then inr Ignored
    else if trailing param then inr NoTrailing
    else inl param
  | inr e => inr e
  end.

(** The loop of [Parameter::parse_many] over the numbered segments; an ignored
    trailing parameter does not end it. *)
Fixpoint parse_segments (k : Kind) (trailed : bool) (i : nat) (segments : list str) :
    list (Param Ty + ErrorKind) :=
  match segments with
  | [] => []
  | segment :: segments =>
    if trailed then inr EarlyTrailing :: parse_segments k true (S i) segments
    else
      match parse k segment with
      | inl parsed =>
        let trailed := match dynamic parsed with Some d => trailing d | None => false end in
        inl (set_index i parsed) :: parse_segments k trailed (S i) segments
      | inr e => inr e :: parse_segments k false (S i) segments
      end
  end.

Definition parse_many (k : Kind) (source : str) : list (Param Ty + ErrorKind) :=
  parse_segments k false 0 (List.filter (λ s, negb (is_empty s)) (split_on (delimiter k) source)).
End params.

(** ** Routes (route/parse.rs) *)

(** The arguments of the decorated function: [ident: Type] or anything else. *)
Inductive FnArg (Ty : Type) := Typed (ident : str) (ty : Ty) | Untyped.
Arguments Typed {Ty}.
Arguments Untyped {Ty}.

(** The errors among the diagnostics; they abort the compilation. *)
Inductive Diagnostic :=
  | DataOnRoute
  | BadArgument
  | BadParameter (e : ErrorKind)
  | UnusedParameter (name : str)
  | DuplicateParameter (name : str).

(** [struct Attribute], less the format and rank, which pass through. *)
Record Attribute := Attribute_new {
  attr_path : str;
  attr_query : option str;
  attr_method : option Method;
  attr_data : option Dynamic;
}.

Section route.
Context {Ty : Type} `{UnicodeXID} `{SynIdent}.

(** [ArgumentMap], an [IndexMap] by name. *)
Abbreviation ArgumentMap := (list (str * (str * Ty))).

Definition args_get (n : str) (args : ArgumentMap) : option (str * Ty) :=
  snd <$> List.find (λ a, bool_decide (a.1 = n)) args.

Fixpoint args_insert (n : str) (v : str * Ty) (args : ArgumentMap) : ArgumentMap :=
  match args with
  | [] => [(n, v)]
  | (m, w) :: args => if decide (m = n) then (n, v) :: args else (m, w) :: args_insert n v args
  end.

(** [struct Route]. *)
Record Route := Route_with {
  attr : Attribute;
  path_params : list (Param Ty);
  query_params : list (Param Ty);
  data_guard : option (Guard Ty);
  request_guards : list (Guard Ty);
  arguments : ArgumentMap;
}.

(** [upgrade_dynamic], [upgrade_param]. *)
Definition upgrade_dynamic (param : Dynamic) (args : ArgumentMap) : Guard Ty + Diagnostic :=
  match args_get (name param) args with
  | Some (ident, ty) => inl (Guard_from param ident ty)
  | None => inr (UnusedParameter (name param))
  end.

Definition upgrade_param (param : Param Ty) (args : ArgumentMap) : Param Ty + Diagnostic :=
  match dynamic param with
  | None => inl param
  | Some d => match upgrade_dynamic d args with inl g => inl (PGuard g) | inr e => inr e end
  end.

(** Keeping what succeeds, and the diagnostics. *)
Definition collect {A} (results : list (A + Diagnostic)) : list A * list Diagnostic :=
  (omap (λ r, match r with inl a => Some a | inr _ => None end) results,
   omap (λ r, match r with inl _ => None | inr e => Some e end) results).

Definition upgrade_all (parsed : list (Param Ty + ErrorKind)) (args : ArgumentMap) :
    list (Param Ty) * list Diagnostic :=
  collect ((λ p, match p with inl p => upgrade_param p args | inr e => inr (BadParameter e) end)
             <$> parsed).

(** The function arguments. *)
Fixpoint collect_arguments (inputs : list (FnArg Ty)) (args : ArgumentMap) :
    ArgumentMap * list Diagnostic :=
  match inputs with
  | [] => (args, [])
  | Typed ident ty :: inputs => collect_arguments inputs (args_insert (unraw ident) (ident, ty) args)
  | Untyped :: inputs => prod_map id (cons BadArgument) (collect_arguments inputs args)
  end.

(** The loop over [dyn_params.replace(p)]. *)
Fixpoint duplicates (seen : list str) (params : list Dynamic) : list Diagnostic :=
  match params with
  | [] => []
  | p :: params =>
    (if decide (name p ∈ seen) then [DuplicateParameter (name p)] else [])
    ++ duplicates (name p :: seen) params
  end.

(** The guards of the path, the query and the data. *)
Definition other_guards (path query : list (Param Ty)) (data : option (Guard Ty)) :
    list (Guard Ty) :=
  omap guard path ++ omap guard query ++ from_option (λ g, [g]) [] data.

Definition all_dynamic (path query : list (Param Ty)) (data : option (Guard Ty)) :
    list Dynamic :=
  omap dynamic path ++ omap dynamic query ++ (source <$> from_option (λ g, [g]) [] data).

(** The arguments that are no other guard, numbered. *)
Definition request_guards_of (others : list (Guard Ty)) (args : ArgumentMap) : list (Guard Ty) :=
  imap (λ i '(n, (ident, ty)), Guard_from (Dynamic_new n i false) ident ty)
    (List.filter (λ '(n, _), forallb (λ g, negb (bool_decide (name (source g) = n))) others) args).

(** [Route::from]; [head_err_or] fails with the diagnostics when there are
    any. *)
Definition from (attr : Attribute) (inputs : list (FnArg Ty)) : Route + list Diagnostic :=
  let method_diags :=
    match attr_data attr, attr_method attr with
    | Some _, Some m => if bool_decide (allows_request_body m = Some false) then [DataOnRoute] else []
    | _, _ => []
    end in
  let '(arguments, arg_diags) := collect_arguments inputs [] in
  let '(path_params, path_diags) := upgrade_all (parse_many KPath (attr_path attr)) arguments in
  let '(query_params, query_diags) :=
    match attr_query attr with
    | Some q => upgrade_all (parse_many KQuery q) arguments
    | None => ([], [])
    end in
  let '(data_guard, data_diags) :=
    match attr_data attr with
    | Some d => match upgrade_dynamic d arguments with
                | inl g => (Some g, [])
                | inr e => (None, [e])
                end
    | None => (None, [])
    end in
  let dup_diags := duplicates [] (all_dynamic path_params query_params data_guard) in
  let request_guards :=
    request_guards_of (other_guards path_params query_params data_guard) arguments in
  match method_diags ++ arg_diags ++ path_diags ++ query_diags ++ data_diags ++ dup_diags with
  | [] => inl (Route_with attr path_params query_params data_guard request_guards arguments)
  | diags => inr diags
  end.

(** [Route::param_guards], [query_guards] and [guards] (route/mod.rs). *)
Definition param_guards (self : Route) : list (Guard Ty) := omap guard (path_params self).
Definition query_guards (self : Route) : list (Guard Ty) := omap guard (query_params self).
Definition guards (self : Route) : list (Guard Ty) :=
  param_guards self ++ query_guards self ++ from_option (λ g, [g]) [] (data_guard self) ++ request_guards self.
End route.
Arguments Route : clear implicits.

(** ** Every argument becomes one guard *)

Section spec.
Context {Ty : Type} `{UnicodeXID} `{SynIdent}.
Abbreviation ArgumentMap := (list (str * (str * Ty))).
Implicit Types args : ArgumentMap.

(** A guard has the identifier and the type of the argument of its name. *)
Definition typed_by args (g : Guard Ty) : Prop :=
  args_get (name (source g)) args = Some (fn_ident g, ty g).

(** Upgraded: a parameter with a name is a guard. *)
Definition upgraded args (p : Param Ty) : Prop :=
  match p with PDynamic _ => False | PGuard g => typed_by args g | _ => True end.

Lemma args_insert_keys n v args k :
  k ∈ (args_insert n v args).*1 ↔ k = n ∨ k ∈ args.*1.
Proof.
  induction args as [|[m w] args IH]; simpl; [set_solver|].
  destruct (decide (m = n)) as [->|Hne]; simpl; set_solver.
Qed.

Lemma args_insert_NoDup n v args : NoDup args.*1 → NoDup (args_insert n v args).*1.
Proof.
  induction args as [|[m w] args IH]; simpl; [by repeat constructor; set_solver|].
  intros [Hm Hnd]%NoDup_cons. destruct (decide (m = n)) as [->|Hne]; simpl; [by constructor|].
  constructor; [|auto]. rewrite args_insert_keys. naive_solver.
Qed.

Lemma collect_arguments_spec inputs args args' :
  collect_arguments inputs args = (args', []) → NoDup args.*1 →
  NoDup args'.*1 ∧ Forall (λ a, a ≠ Untyped) inputs.
Proof.
  revert args. induction inputs as [|[ident ty|] inputs IH]; intros args; simpl.
  - intros [= ->]. by split.
  - intros Hc Hnd. destruct (IH _ Hc) as [? ?]; [by apply args_insert_NoDup|]. by split; [|constructor].
  - by destruct (collect_arguments inputs args).
Qed.

Lemma args_get_elem n v args : args_get n args = Some v → (n, v) ∈ args.
Proof.
  unfold args_get. intros ([m w]&[Hin Hm%bool_decide_eq_true]%List.find_some&[= <-])%fmap_Some.
  simpl in *. subst. by apply list_elem_of_In.
Qed.

Lemma args_get_key n v args : NoDup args.*1 → (n, v) ∈ args → args_get n args = Some v.
Proof.
  unfold args_get. induction args as [|[m w] args IH]; simpl; [set_solver|].
  intros [Hm Hnd]%NoDup_cons [[= <- <-]|Hin]%elem_of_cons; [by rewrite bool_decide_eq_true_2|].
  rewrite bool_decide_eq_false_2; [by apply IH|]. intros ->. apply Hm.
  apply list_elem_of_fmap. by exists (n, v).
Qed.

Lemma upgrade_all_cons r parsed args ps :
  upgrade_all (r :: parsed) args = (ps, []) →
  ∃ p q ps', r = inl p ∧ upgrade_param p args = inl q ∧
    upgrade_all parsed args = (ps', []) ∧ ps = q :: ps'.
Proof.
  unfold upgrade_all, collect. destruct r as [p|e]; [|done]. simpl.
  destruct (upgrade_param p args) as [q|d] eqn:Hq; [|done]. simpl.
  intros [= <- Hd]. eexists _, _, _. split_and!; [done|exact Hq|by f_equal|done].
Qed.

Lemma upgrade_all_spec parsed args ps :
  upgrade_all parsed args = (ps, []) → Forall (upgraded args) ps.
Proof.
  revert ps. induction parsed as [|r parsed IH]; intros ps; [by intros [= <-]; constructor|].
  intros (p&q&ps'&->&Hq&Hps&->)%upgrade_all_cons.
  constructor; [|auto]. revert Hq. unfold upgrade_param, upgrade_dynamic.
  destruct p as [s|d|d|g]; simpl; try (intros [= <-]; done).
  - destruct (args_get (name d) args) as [[i t]|] eqn:Ha; intros [= <-]. done.
  - destruct (args_get (name (source g)) args) as [[i t]|] eqn:Ha; intros [= <-]. done.
Qed.

Lemma upgraded_dynamic args ps :
  Forall (upgraded args) ps →
  omap dynamic ps = source <$> omap guard ps ∧ Forall (typed_by args) (omap guard ps).
Proof.
  induction 1 as [|p ps Hp _ [IHd IHt]]; simpl; [by split|].
  destruct p; simpl; [by split|by split|done|]. split; [f_equal; exact IHd|by constructor].
Qed.

Lemma duplicates_spec seen ps :
  duplicates seen ps = [] → NoDup (name <$> ps) ∧ ∀ n, n ∈ name <$> ps → n ∉ seen.
Proof.
  revert seen. induction ps as [|p ps IH]; intros seen; simpl; [split; [constructor|set_solver]|].
  destruct (decide (name p ∈ seen)) as [Hin|Hnin]; [done|].
  intros [Hnd Hs]%IH. split; [constructor; [|done]|].
  - intros Hp. apply (Hs _ Hp). set_solver.
  - intros n [->|Hn]%elem_of_cons; [done|]. specialize (Hs n Hn). set_solver.
Qed.

Lemma request_guards_typed others args :
  NoDup args.*1 →
  (λ g, name (source g)) <$> request_guards_of others args =
    List.filter (λ n, forallb (λ g, negb (bool_decide (name (source g) = n))) others) args.*1 ∧
  Forall (typed_by args) (request_guards_of others args).
Proof.
  intros Hnd. unfold request_guards_of. split.
  - rewrite fmap_imap. clear Hnd. generalize 0.
    assert (Hgen : ∀ f : nat → nat, imap (λ n x, (λ g : Guard Ty, name (source g))
       ((λ i '(n, (ident, ty)), Guard_from (Dynamic_new n i false) ident ty) (f n) x))
       (List.filter (λ '(n, _), forallb (λ g, negb (bool_decide (name (source g) = n))) others) args) =
       List.filter (λ n, forallb (λ g, negb (bool_decide (name (source g) = n))) others) args.*1).
    { induction args as [|[n [i t]] args IH]; intros f; simpl; [done|].
      destruct (forallb _ others); simpl; [|apply IH]. f_equal. apply (IH (f ∘ S)). }
    intros _. apply (Hgen id).
  - apply list.Forall_forall. intros g Hg. apply elem_of_lookup_imap in Hg as (i&[n [id t]]&->&Hl).
    unfold typed_by. simpl. apply args_get_key; [done|].
    apply list_elem_of_lookup_2 in Hl. apply list_elem_of_In, List.filter_In in Hl as [Hl _].
    by apply list_elem_of_In.
Qed.

(** The other guards: typed, of different names. *)
Lemma other_guards_spec path query (data : option (Guard Ty)) args :
  Forall (upgraded args) path → Forall (upgraded args) query →
  from_option (typed_by args) True data →
  duplicates [] (all_dynamic path query data) = [] →
  Forall (typed_by args) (other_guards path query data) ∧
  NoDup ((λ g, name (source g)) <$> other_guards path query data).
Proof.
  intros Hp Hq Hdata Hdup%duplicates_spec.
  destruct (upgraded_dynamic args path Hp) as [Hdp Htp].
  destruct (upgraded_dynamic args query Hq) as [Hdq Htq].
  unfold other_guards, all_dynamic in *. split.
  - rewrite !Forall_app. split_and!; [done|done|]. destruct data; simpl in *; [by constructor|constructor].
  - destruct Hdup as [Hnd _]. revert Hnd. rewrite Hdp, Hdq, <-!fmap_app, <-list_fmap_compose. done.
Qed.

(** All guards together name the arguments, each once. *)
Lemma guards_permutation (others : list (Guard Ty)) args :
  NoDup args.*1 → Forall (typed_by args) others →
  NoDup ((λ g, name (source g)) <$> others) →
  (λ g, name (source g)) <$> (others ++ request_guards_of others args) ≡ₚ args.*1.
Proof.
  intros Hnd Ht Hno. rewrite fmap_app. rewrite (proj1 (request_guards_typed others args Hnd)).
  assert (Hin : ∀ n, forallb (λ g, negb (bool_decide (name (source g) = n))) others = true ↔
                     n ∉ (λ g, name (source g)) <$> others).
  { intros n. rewrite forallb_forall, list_elem_of_fmap. split.
    - intros Hf (g&->&Hg%list_elem_of_In). specialize (Hf g Hg).
      by rewrite bool_decide_eq_true_2 in Hf.
    - intros Hn g Hg. rewrite bool_decide_eq_false_2; [done|]. intros <-. apply Hn.
      exists g. by rewrite list_elem_of_In. }
  apply NoDup_Permutation.
  - apply NoDup_app. split_and!; [done| |by apply NoDup_ListNoDup, List.NoDup_filter, NoDup_ListNoDup].
    intros n Hn. rewrite elem_of_filter_bool, Hin. tauto.
  - done.
  - intros n. rewrite elem_of_app, elem_of_filter_bool, Hin. split; [|destruct (decide (n ∈ (λ g, name (source g)) <$> others)); tauto].
    intros [(g&->&Hg)%list_elem_of_fmap|[? _]]; [|done].
    rewrite list.Forall_forall in Ht. specialize (Ht g Hg). apply args_get_elem in Ht.
    apply list_elem_of_fmap. eexists. split; [|exact Ht]. done.
Qed.
End spec.


(** An ignored trailing parameter is not seen as one: text may follow it. *)
Lemma ignored_trailing_accepted {Ty} `{UnicodeXID} :
  parse_many (Ty := Ty) KPath (#"/<_..>/b") =
    [ inl (PIgnored (Dynamic_new (#"_") 0 true)); inl (PStatic (#"b"))] ∧
  parse_many (Ty := Ty) KPath (#"/<a..>/b") =
    [ inl (PDynamic (Dynamic_new (#"a") 0 true)); inr EarlyTrailing].
Proof. done. Qed.

Module CodegenReference.
#[export] Instance xid_ref : UnicodeXID := {| is_xid_start _ := false; is_xid_continue _ := false |}.
#[export] Instance syn_ref : SynIdent := {| unraw s := default s (strip_prefix (#"r#") s) |}.
End CodegenReference.

Section witness.
Import CodegenReference.

(** [#[post("/<id>/x?<q>", data = "<body>")] fn f(q: 2, user: 3, id: 1, body: 4)]. *)
Definition example_attribute : Attribute :=
  Attribute_new (#"/<id>/x") (Some (#"<q>")) (Some Post) (Some (Dynamic_new (#"body") 0 false)).
Definition example_inputs : list (FnArg nat) :=
  [ Typed (#"q") 2; Typed (#"user") 3; Typed (#"id") 1; Typed (#"body") 4].

End witness.
