(* ===== verification/Derives.v ===== *)
(** * Derives: catchers, responders and parameters from attributes
    (core/codegen/src/attribute/catch, derive/responder.rs, from_param.rs)

    What the attribute and the two derives accept, and the code they expand to.
    Parsing is by [syn]; types and values of the user are parameters.  A field
    that is a header is its conversion into one. *)

From S2P Require Import Prelude Crates RawStr Header Status Method MediaType UriTables MediaParse.
From S2P Require Import Uri Catcher Route Request Router FormName FormParser Data Cookies Response.
From S2P Require Import DefaultCatcher Responders Outcome Params Lifecycle Codegen.

Section derives.
Context {U : Uncased} {P : Pear} {PC : PearCombinators} {IM : IndexMap str (list str) uncased_eq}.
Context {SP : StablePattern} {M : Memchr} {PE : PercentEncoding} {CC : CookieCrate}.
Context {IoHandler : Type} {SI : SynIdent}.
Abbreviation Resp := (Response IM IoHandler).

(** A responder with its value. *)
Definition Responds : Type := Request IM → CookieJar → Responders.Result (IM := IM) (IoHandler := IoHandler) * CookieJar.

(** ** #[catch] (attribute/catch) *)

(** The argument of the attribute, as [syn] has it. *)
Inductive MetaArg := MInt (n : Z) | MPath (ident : str) | MOther.

(** [FromMeta for Status] (http_codegen.rs). *)
Definition status_from_meta (num : Z) : option Status :=
  if (num <? 100)%Z || (600 <=? num)%Z then None else Some (Status_new num).

(** [FromMeta for Code]: a status, or [None] for the default catcher. *)
Definition code_from_meta (meta : MetaArg) : option (option Status) :=
  match meta with
  | MInt num => Some <$> status_from_meta num
  | MPath path => if bool_decide (path = #"default") then Some None else None
  | MOther => None
  end.

(** The arguments the function is called with, from the right. *)
Inductive CatchArg := ArgStatus | ArgRequest.

Definition catch_inputs (num_inputs : nat) : option (list CatchArg) :=
  if (2 <? num_inputs)%nat then None
  else Some (reverse (take num_inputs [ArgRequest; ArgStatus])).

Definition catch_value (status : Status) (req : Request IM) (a : CatchArg) : Status + Request IM :=
  match a with ArgStatus => inl status | ArgRequest => inr req end.

(** The user's function; [None] is a panic. *)
Definition UserCatcher : Type := list (Status + Request IM) → CookieJar → option Responds * CookieJar.

(** The generated [monomorphized_function], of the user's function. *)
Definition monomorphized_catcher (user_catcher_fn : UserCatcher)
    (inputs : list CatchArg) : CatcherHandler (IM := IM) (IoHandler := IoHandler) :=
  λ status req jar,
    match user_catcher_fn (catch_value status req <$> inputs) jar with
    | (None, jar) => (None, jar)
    | (Some responder, jar) =>
      match responder req jar with
      | (inl response, jar) => (Some (inl (merge response (set_status status response_new))), jar)
      | (inr e, jar) => (Some (inr e), jar)
      end
    end.

(** [_catch]: the information the attribute expands to. *)
Definition _catch (meta : MetaArg) (name : str) (num_inputs : nat)
    (user_catcher_fn : UserCatcher) (location : str * Z * Z) :=
  status ← code_from_meta meta;
  inputs ← catch_inputs num_inputs;
  Some (CatcherInfo_new (CatcherHandler (IM := IM) (IoHandler := IoHandler)) name (Status.code <$> status)
          (monomorphized_catcher user_catcher_fn inputs) location).

(** ** #[derive(Responder)] (derive/responder.rs) *)

(** [struct ItemAttr], [struct FieldAttr]. *)
Record ItemAttr := mkItemAttr { attr_content_type : option MediaType; attr_status : option Status }.
Record FieldAttr := mkFieldAttr { ignore : bool }.

(** A field: its attribute and its value as a responder and as a header. *)
Record RField := mkRField { field_attr : FieldAttr; as_responder : Responds; as_header : Header }.

(** The validators: one lifetime at most, one field at least. *)
Definition validate_responder (lifetimes : nat) (fields : list RField) : bool :=
  negb (1 <? lifetimes)%nat && negb (is_empty fields).

(** The generated [respond_to] of a structure or of the variant at hand. *)
Definition derived_respond_to (attr : ItemAttr) (fields : list RField) : option Responds :=
  f ← head fields;
  Some (λ req jar,
    let headers := as_header <$> List.filter (λ f, negb (ignore (field_attr f))) (tail fields) in
    then_build (λ res,
        let res := foldl (λ res h, set_header h res) res headers in
        let res := match attr_content_type attr with
                   | Some ct => set_header (content_type_header ct) res
                   | None => res
                   end in
        match attr_status attr with Some status => set_status status res | None => res end)
      (as_responder f req jar)).

(** ** #[derive(FromParam)] (derive/from_param.rs) *)

(** [struct InvalidOption] (lib/src/error.rs). *)
Record InvalidOption := mkInvalidOption { invalid_value : str; options : list str }.

(** The variants by name, with whether they have fields; the names that are
    matched. *)
Definition derive_from_param (variants : list (str * bool)) : option (list str) :=
  if existsb snd variants then None else Some ((λ v, unraw v.1) <$> variants).

(** The generated [from_param], which gives the variant by its place. *)
Definition enum_from_param (names : list str) (param : str) : nat + InvalidOption :=
  match list_find (λ name, param = name) names with
  | Some (i, _) => inl i
  | None => inr (mkInvalidOption param names)
  end.
End derives.

(** ** What they give *)

Section laws.
Context {U : Uncased} {UL : UncasedLaws} {P : Pear} {PC : PearCombinators} {IM : IndexMap str (list str) uncased_eq}
  {IML : IndexMapLaws IM}.
Context {SP : StablePattern} {M : Memchr} {PE : PercentEncoding} {CC : CookieCrate}.
Context {IoHandler : Type} {SI : SynIdent}.

Abbreviation Resp := (Response IM IoHandler).

(** The statuses the attribute takes are those a catcher can have. *)
Lemma code_from_meta_spec meta s :
  code_from_meta meta = Some s ↔
    (meta = MPath #"default" ∧ s = None) ∨ ∃ n, meta = MInt n ∧ (100 ≤ n < 600)%Z ∧ s = Some (Status_new n).
Proof.
  destruct meta as [n|path|]; simpl.
  - unfold status_from_meta. destruct (Z.ltb_spec n 100), (Z.leb_spec 600 n); simpl; split;
      try (intros [[? _]|(m & [= <-] & ? & ->)]; done || lia || done); try done.
    intros [= <-]. right. exists n. split_and!; [done|lia..|done].
  - case_bool_decide as Hp; split; try done; [intros [= <-]; left; by subst|by intros [[_ ->]|(? & ? & _)]|].
    intros [[[= ->] _]|(? & ? & _)]; done.
  - split; [done|]. by intros [[? _]|(? & ? & _)].
Qed.

(** The headers, status and body of a response made of another that it
    completes. *)
Lemma merge_new status (r : Resp) :
  let sent := merge r (set_status status response_new) in
  Response.status sent = default status (resp_status r) ∧
  (is_some (body r) = true → body sent = body r) ∧
  ∀ n, Header.get n (resp_headers sent) = Header.get n (resp_headers r).
Proof.
  intros sent. split_and!.
  - unfold Response.status, sent. destruct (merge_join_spec r (set_status status response_new) []) as (-> & _).
    by destruct (resp_status r).
  - intros Hb. unfold sent. destruct (merge_join_spec r (set_status status response_new) []) as (_ & -> & _).
    by rewrite Hb.
  - intros n. unfold sent. destruct (merge_join_spec r (set_status status response_new) n) as (_ & _ & -> & _).
    unfold contains, Header.get. destruct (im_get n (resp_headers r)); [done|].
    unfold set_status, response_new, header_map_new. cbn [resp_headers]. by rewrite im_get_spec, im_entries_new.
Qed.

(** The catcher of an attribute: that a catcher is made of it at all takes one
    of the statuses that catchers have. *)
Lemma generated_info meta name num_inputs f location info :
  _catch (IM := IM) (IoHandler := IoHandler) meta name num_inputs f location = Some info →
  (num_inputs ≤ 2)%nat ∧
  Catcher.info_handler info = monomorphized_catcher f (reverse (take num_inputs [ArgRequest; ArgStatus])) ∧
  Catcher.info_code info = match meta with MInt n => Some n | _ => None end.
Proof.
  unfold _catch, catch_inputs. intros (s & Hs & Hi)%bind_Some.
  destruct (Nat.ltb_spec 2 num_inputs) as [|Hle]; [done|]. injection Hi as <-.
  split; [done|]. split; [done|]. cbn [Catcher.info_code].
  by apply code_from_meta_spec in Hs as [[-> ->]|(n & -> & _ & ->)].
Qed.

Lemma generated_accepted meta name num_inputs f location :
  is_Some (_catch (IM := IM) (IoHandler := IoHandler) meta name num_inputs f location) ↔
  (num_inputs ≤ 2)%nat ∧ (meta = MPath #"default" ∨ ∃ n, meta = MInt n ∧ (100 ≤ n < 600)%Z).
Proof.
  unfold _catch, catch_inputs. destruct (Nat.ltb_spec 2 num_inputs).
  - split; [|lia]. intros [i Hi]. by destruct (code_from_meta meta).
  - destruct (code_from_meta meta) as [s|] eqn:E; simpl.
    + apply code_from_meta_spec in E. split; [|by eexists]. intros _. split; [done|]. naive_solver.
    + split; [by intros [? ?]|]. intros [_ Hm]. exfalso.
      destruct Hm as [->|(n & -> & Hn)]; [by simpl in E|].
      rewrite (proj2 (code_from_meta_spec (MInt n) (Some (Status_new n)))) in E; [done|]. right. eauto.
Qed.

(** The attribute is accepted for the statuses from 100 to 599 or for all, on
    a function with no more than two arguments; a catcher can be made of it
    only from 400 on.  The function is given the request last and the status
    before it.  When its catcher is the one that catches, rebased or not, the
    response is sent with its own status or else with the one that was caught;
    its failure, or its panic, is that of the catcher. *)
Theorem generated_catcher (rocket : Lifecycle.Rocket (IM := IM) (IoHandler := IoHandler)) meta name num_inputs f location :
  (is_Some (_catch (IM := IM) (IoHandler := IoHandler) meta name num_inputs f location) ↔
     (num_inputs ≤ 2)%nat ∧ (meta = MPath #"default" ∨ ∃ n, meta = MInt n ∧ (100 ≤ n < 600)%Z)) ∧
  ∀ info, _catch meta name num_inputs f location = Some info →
    (is_Some (catcher_from info) ↔ ∀ n, meta = MInt n → (400 ≤ n)%Z) ∧
    ∀ c, catcher_from info = Some c →
      Catcher.code c = match meta with MInt n => Some n | _ => None end ∧
      ∀ c' status (req : Request IM) jar,
       Catcher.handler c' = Catcher.handler c → catch (router rocket) status req = Some c' →
       match f (drop (2 - num_inputs) [inl status; inr req]) jar with
       | (None, jar') => invoke_catcher rocket status req jar = (inr None, jar')
       | (Some responder, jar') =>
         match responder req jar' with
         | (inl response, jar') =>
           ∃ sent, invoke_catcher rocket status req jar = (inl sent, jar') ∧
             Response.status sent = default status (resp_status response) ∧
             (is_some (body response) = true → body sent = body response) ∧
             ∀ n, Header.get n (resp_headers sent) = Header.get n (resp_headers response)
         | (inr e, jar') => invoke_catcher rocket status req jar = (inr (Some e), jar')
         end
       end.
Proof.
  split; [apply generated_accepted|]. intros info Hinfo.
  pose proof (proj1 (generated_accepted _ _ _ _ _) (mk_is_Some _ _ Hinfo)) as [_ Hmeta].
  apply generated_info in Hinfo as (Hle & Hh & Hcode). split.
  - transitivity (is_Some (Catcher_new (Catcher.info_code info) (Catcher.info_handler info))).
    { unfold catcher_from. destruct (Catcher_new _ _); simpl; split; intros [? ?]; by eexists. }
    rewrite Catcher_new_iff, Hcode. destruct Hmeta as [->|(n & -> & Hn)]; [naive_solver|].
    split; [intros H n' [= <-]; by apply H|intros H n' [= <-]; split; [by apply H|lia]].
  - unfold catcher_from. intros c (c0 & Hc0 & [= <-])%bind_Some. cbn [Catcher.code].
    unfold Catcher_new in Hc0. destruct (match Catcher.info_code info with Some _ => _ | None => _ end); [|done].
    injection Hc0 as <-. cbn [Catcher.code Catcher.handler]. split; [done|]. intros c' status req jar Hsame Hcatch.
    unfold invoke_catcher. rewrite Hcatch, Hsame, Hh. unfold monomorphized_catcher.
    assert (catch_value status req <$> reverse (take num_inputs [ArgRequest; ArgStatus]) =
            drop (2 - num_inputs) [inl status; inr req]) as ->
      by (destruct num_inputs as [|[|[|k]]]; [done..|lia]).
    destruct (f _ jar) as [[responder|] jar0]; [|done]. destruct (responder req jar0) as [[response|e] jar']; [|done].
    eexists. split; [done|]. apply merge_new.
Qed.

(** ** Responders *)

Lemma get_foldl_set_header n (headers : list Header) (r : Resp) :
  Header.get n (resp_headers (foldl (λ res h, set_header h res) r headers)) =
    match List.find (λ h, uncased_eq n (header_name h)) (reverse headers) with
    | Some h => [header_value h]
    | None => Header.get n (resp_headers r)
    end.
Proof.
  induction headers as [|h headers IH] using rev_ind; [done|].
  rewrite foldl_app, reverse_app, reverse_singleton. cbn [foldl List.find app]. rewrite get_set_header.
  by destruct (uncased_eq n (header_name h)).
Qed.

(** What is not a header of a response. *)
Lemma foldl_set_header_rest (headers : list Header) (r : Resp) :
  let r' := foldl (λ res h, set_header h res) r headers in
  resp_status r' = resp_status r ∧ body r' = body r ∧ upgrade r' = upgrade r.
Proof. induction headers as [|h headers IH] using rev_ind; [done|]. by rewrite foldl_app. Qed.

(** A derived responder: the response of the first field, with the status of
    the attribute if it has one; a header of it is the content type of the
    attribute, else the last field that gives one and is not ignored, else
    what it was; body and upgrades are kept, and a failure of the first field
    is that of the whole. *)
Theorem derived_responder attr first rest lifetimes :
  validate_responder lifetimes (first :: rest) = bool_decide (lifetimes ≤ 1)%nat ∧
  ∃ responder, derived_respond_to (IM := IM) (IoHandler := IoHandler) attr (first :: rest) = Some responder ∧
  ∀ req jar,
    match as_responder first req jar with
    | (inr e, jar') => responder req jar = (inr e, jar')
    | (inl response, jar') =>
      ∃ sent, responder req jar = (inl sent, jar') ∧
        Response.status sent = default (Response.status response) (attr_status attr) ∧
        body sent = body response ∧ upgrade sent = upgrade response ∧
        ∀ n, Header.get n (resp_headers sent) =
          match List.find (λ h, uncased_eq n (header_name h))
                  (option_list (content_type_header <$> attr_content_type attr) ++
                   reverse (as_header <$> filter (λ f, ignore (field_attr f) = false) rest)) with
          | Some h => [header_value h]
          | None => Header.get n (resp_headers response)
          end
    end.
Proof.
  split.
  { unfold validate_responder. rewrite andb_true_r. destruct (Nat.ltb_spec 1 lifetimes); by case_bool_decide; try lia. }
  eexists. split; [done|]. intros req jar. unfold then_build.
  destruct (as_responder first req jar) as [[response|e] jar']; [|done]. eexists. split; [done|]. cbn [tail].
  assert (List.filter (λ f : RField (IM := IM) (IoHandler := IoHandler), negb (ignore (field_attr f))) rest =
          filter (λ f, ignore (field_attr f) = false) rest) as ->.
  { induction rest as [|f rest IH]; [done|]. rewrite filter_cons. simpl. rewrite IH.
    by destruct (ignore (field_attr f)). }
  destruct (foldl_set_header_rest (as_header <$> filter (λ f, ignore (field_attr f) = false) rest) response)
    as (Hst & Hb & Hu).
  pose proof (λ n, get_foldl_set_header n (as_header <$> filter (λ f, ignore (field_attr f) = false) rest) response) as Hg.
  set (res := foldl _ response _) in *.
  destruct attr as [[ct|] [status|]]; cbn [attr_content_type attr_status option_list fmap option_fmap option_map app List.find].
  all: unfold Response.status, set_status, set_header, set_header_map; cbn [resp_status body upgrade resp_headers default].
  all: rewrite ?Hst, ?Hb, ?Hu; split_and!; try done; intros n.
  all: pose proof (get_set_header n (content_type_header ct) res) as Hs; unfold set_header, set_header_map in Hs;
    cbn [resp_headers] in Hs; rewrite Hs, Hg;
    simpl option_list; cbn [app List.find]; by destruct (uncased_eq n (header_name (content_type_header ct))).
Qed.

(** ** Parameters *)

(** A derived parameter is the first variant of its name, as written without
    [r#]; no other text is one, and the error lists the names.  Enumerations
    with data are refused. *)
Theorem derived_param variants param :
  match derive_from_param variants with
  | None => ∃ v, v ∈ variants ∧ v.2 = true
  | Some names =>
    (∀ v, v ∈ variants → v.2 = false) ∧
    match enum_from_param names param with
    | inl i => ∃ v, variants !! i = Some v ∧ unraw v.1 = param ∧
                ∀ j w, (j < i)%nat → variants !! j = Some w → unraw w.1 ≠ param
    | inr e => (∀ v, v ∈ variants → unraw v.1 ≠ param) ∧
               e = mkInvalidOption param ((λ v, unraw v.1) <$> variants)
    end
  end.
Proof.
  unfold derive_from_param. destruct (existsb snd variants) eqn:E.
  - apply existsb_exists in E as (v & Hv & E). exists v. by rewrite list_elem_of_In.
  - split.
    { intros v Hv. destruct v.2 eqn:E2; [|done]. exfalso.
      rewrite (proj2 (existsb_exists snd variants)) in E; [done|]. exists v. by rewrite <-list_elem_of_In. }
    unfold enum_from_param. destruct (list_find _ _) as [[i x]|] eqn:Hf.
    + apply list_find_Some in Hf as (Hi & <- & Hlt). rewrite list_lookup_fmap in Hi.
      apply fmap_Some in Hi as (v & Hv & ->). exists v. split_and!; [done|done|].
      intros j w Hj Hw. specialize (Hlt j (unraw w.1)). rewrite list_lookup_fmap, Hw in Hlt. naive_solver.
    + apply list_find_None in Hf. split; [|done]. intros v Hv Heq.
      rewrite Forall_forall in Hf. apply (Hf (unraw v.1)); [|done]. apply list_elem_of_fmap. by exists v.
Qed.
End laws.

(** ** A catcher and a responder *)

Module DerivesReference.
Import Reference PearReference PearCombinatorsReference HeaderReference CookieReference.

#[local] Instance syn_derives : SynIdent := {| unraw s := default s (strip_prefix (#"r#") s) |}.

Definition text (s : str) : Responds (IM := header_index) (IoHandler := unit) :=
  λ _ jar, (inl (set_header (Header_new #"X-Text" s) response_new), jar).

(** A catcher of what is not found, on a function of the request alone. *)
Definition not_found_fn : UserCatcher (IM := header_index) (IoHandler := unit) :=
  λ args jar, (match args with [inr req] => Some (text (to_string (req_uri req))) | _ => None end, jar).

Definition serving (c : Catcher (CatcherHandler (IM := header_index) (IoHandler := unit))) :
    Lifecycle.Rocket (IM := header_index) (IoHandler := unit) :=
  Rocket_new (Finalized_new [] [c] ∅ {[Some 404%Z := [0]]}) [] [] None None.

Definition get_x : Request header_index := request_new false None Get (Origin_new #"/x" None).

Definition jar : CookieJar := jar_init None false.

Definition not_found_info := _catch (MInt 404) #"not_found" 1 not_found_fn (#"main.rs", 1%Z, 1%Z).

Lemma catch_served c :
  catcher_matches Status.NotFound get_x c = true → catch (router (serving c)) Status.NotFound get_x = Some c.
Proof.
  intros Hm. unfold catch, serving. cbn [router catcher_map catchers].
  change (Status.code Status.NotFound) with 404%Z.
  rewrite lookup_singleton_eq, lookup_singleton_ne by done. cbn [mbind option_bind items_at omap list_omap lookup list_lookup List.find].
  by rewrite Hm.
Qed.

Example generated_catcher_witness :
  ∃ info c, not_found_info = Some info ∧ catcher_from info = Some c ∧
    ∃ sent, invoke_catcher (serving c) Status.NotFound get_x jar = (inl sent, jar) ∧
      Response.status sent = Status.NotFound ∧ Header.get #"X-Text" (resp_headers sent) = [ #"/x"].
Proof.
  assert (is_Some not_found_info) as [info Hi] by by eexists.
  pose proof (proj2 (generated_catcher bare (MInt 404) #"not_found" 1 not_found_fn (#"main.rs", 1%Z, 1%Z)) info Hi) as [Hc _].
  destruct (proj2 Hc) as [c Hc'].
  { by intros n [= <-]. }
  exists info, c. split; [done|]. split; [done|].
  pose proof (proj2 (generated_catcher (serving c) (MInt 404) #"not_found" 1 not_found_fn (#"main.rs", 1%Z, 1%Z)) info Hi)
    as [_ Hinv].
  assert (catch (router (serving c)) Status.NotFound get_x = Some c) as Hcatch.
  { apply catch_served.
    assert (match not_found_info ≫= catcher_from with
            | Some c => catcher_matches Status.NotFound get_x c
            | None => false
            end = true) as Hm by by vm_compute.
    rewrite Hi in Hm. cbn [mbind option_bind] in Hm. by rewrite Hc' in Hm. }
  destruct (Hinv c Hc') as [_ Hs]. specialize (Hs c Status.NotFound get_x jar eq_refl Hcatch).
  destruct Hs as (sent & Hs & Hst & _ & Hh). exists sent. split; [exact Hs|].
  rewrite Hst, Hh. split; by vm_compute.
Defined.

(** The status 200, which the documentation of the attribute allows, has no
    catcher. *)
Lemma no_success_catcher :
  let info := _catch (MInt 200) #"ok" 0 not_found_fn (#"main.rs", 1%Z, 1%Z) in
  is_Some info ∧ info ≫= catcher_from = None.
Proof.
  split; [|reflexivity].
  apply generated_accepted. split; [lia|]. right. exists 200%Z. split; [reflexivity|lia].
Qed.

(** The last field wins over the ones before, the attribute over all. *)
Lemma last_header :
  (λ r : Responds, match r get_x jar with
        | (inl res, _) => Some (Header.get #"a" (resp_headers res), Response.status res)
        | _ => None
        end) <$>
  derived_respond_to (mkItemAttr None (Some Status.NotFound))
    ((λ '(i, v), mkRField (mkFieldAttr i) (text #"x") (Header_new #"A" v)) <$>
       [(false, #"0"); (false, #"1"); (false, #"2"); (true, #"3")]) =
  Some (Some ([ #"2"], Status.NotFound)).
Proof. by vm_compute. Qed.
End DerivesReference.
