(* ===== verification/Generated.v ===== *)
(** * Generated: the handlers the macros generate
    (core/codegen/src/attribute/route/mod.rs)

    The code a route attribute expands to, as a function of the guards that
    [Codegen.from] found: the request guards, the path and query guards and
    the data guard run in this order and the function is called with their
    values.  The traits the types of the arguments implement are the class
    [Guards].  What the macro and the router agree on is proved here: when a
    route matches, its parameters are there. *)

From S2P Require Import Prelude Crates RawStr Header Method MediaType UriTables MediaParse.
From S2P Require Import Uri Route Catcher Request Router FormName FormParser Data Cookies Response.
From S2P Require Import Params Status Outcome Lifecycle Codegen.

Section generated.
Context {U : Uncased} {P : Pear} {PC : PearCombinators} {IM : IndexMap str (list str) uncased_eq}.
Context {SP : StablePattern} {M : Memchr} {PE : PercentEncoding} {CC : CookieCrate}.
Context {IoHandler : Type}.
Context {XID : UnicodeXID} {SI : SynIdent}.

(** The trait implementations of a type of argument: [FromRequest],
    [FromParam], [FromSegments], [FromForm] and [FromData], with values of all
    types in [V]; [None] is a panic. *)
Class Guards (Ty V E Ctxt : Type) := {
  ty_from_request : Ty → Request IM → CookieJar → option (Outcome V (Status * E) Status) * CookieJar;
  ty_from_param : Ty → FromParam V E;
  ty_from_segments : Ty → FromSegments V E;
  ty_init : Ty → Ctxt;
  ty_push_value : Ty → Ctxt → ValueField → Ctxt;
  ty_finalize : Ty → Ctxt → V + E;
  ty_from_data : Ty → Request IM → Data → CookieJar →
    option (Outcome V (Status * E) (Data * Status)) * CookieJar;
}.

Context {Ty V E Ctxt : Type} `{Guards Ty V E Ctxt}.
Abbreviation RouteOutcome := (RouteOutcome (IM := IM) (IoHandler := IoHandler)).

(** The variables bound so far, and what a declaration does: it binds or
    returns from the handler. *)
Abbreviation Env := (list (str * V)).
Definition Step : Type := Env + option RouteOutcome.

(** [request_guard_decl]. *)
Definition request_guard_decl (g : Guard Ty) (req : Request IM) (data : Data) (env : Env)
    (jar : CookieJar) : Step * CookieJar :=
  let '(outcome, jar) := ty_from_request (ty g) req jar in
  (match outcome with
   | Some (Success v) => inl (env ++ [(fn_ident g, v)])
   | Some (Forward e) => inr (Some (Forward (data, e)))
   | Some (Error (c, _)) => inr (Some (Error c))
   | None => inr None
   end, jar).

Fixpoint request_guard_decls (gs : list (Guard Ty)) (req : Request IM) (data : Data) (env : Env)
    (jar : CookieJar) : Step * CookieJar :=
  match gs with
  | [] => (inl env, jar)
  | g :: gs =>
    match request_guard_decl g req data env jar with
    | (inl env, jar) => request_guard_decls gs req data env jar
    | r => r
    end
  end.

(** The value [param_guard_decl] binds, or the status it forwards with. *)
Definition param_value (g : Guard Ty) (req : Request IM) : V + Status :=
  let parse_error := inr Status.UnprocessableEntity in
  if trailing (source g) then
    match @from_segments V E (ty_from_segments (ty g)) (routed_segments (index (source g)) req) with
    | inl v => inl v
    | inr _ => parse_error
    end
  else
    match routed_segment (index (source g)) req with
    | Some s =>
      match @from_param V E (ty_from_param (ty g)) s with
      | inl v => inl v
      | inr _ => parse_error
      end
    | None => inr Status.InternalServerError
    end.

(** [param_guard_decl]. *)
Fixpoint param_guard_decls (gs : list (Guard Ty)) (req : Request IM) (data : Data) (env : Env) :
    Step :=
  match gs with
  | [] => inl env
  | g :: gs =>
    match param_value g req with
    | inl v => param_guard_decls gs req data (env ++ [(fn_ident g, v)])
    | inr status => inr (Some (Forward (data, status)))
    end
  end.

(** [Request::query_fields] (core/lib/src/request/request.rs). *)
Definition query_fields (req : Request IM) : list ValueField :=
  match query (req_uri req) with
  | Some q => field_from <$> query_segments q
  | None => []
  end.

(** The static parameters of the query, split at the first equals sign. *)
Definition static_params (params : list (Param Ty)) : list (str * str) :=
  (λ name, default (name, []) (split_once "=" name)) <$> omap static params.

(** A field goes to the first guard of its name, or to the trailing one, which
    takes it with all its keys. *)
Fixpoint push_field (f : ValueField) (ctxts : list (Guard Ty * Ctxt)) : list (Guard Ty * Ctxt) :=
  match ctxts with
  | [] => []
  | (g, c) :: ctxts =>
    if trailing (source g) then (g, ty_push_value (ty g) c f) :: ctxts
    else if bool_decide (key_lossy (field_name f) = name (source g)) then
      (g, ty_push_value (ty g) c (field_shift f)) :: ctxts
    else (g, c) :: push_field f ctxts
  end.

(** [query_decls]. *)
Definition query_decls (params : list (Param Ty)) (req : Request IM) (data : Data) (env : Env) :
    Step :=
  let statics := static_params params in
  let push ctxts f :=
    if decide ((FormName.source (field_name f), field_value f) ∈ statics) then ctxts
    else push_field f ctxts in
  let ctxts := foldl push ((λ g, (g, ty_init (ty g))) <$> omap guard params) (query_fields req) in
  let results := (λ '(g, c), (fn_ident g, ty_finalize (ty g) c)) <$> ctxts in
  if existsb (λ r, match r.2 with inr _ => true | inl _ => false end) results then
    inr (Some (Forward (data, Status.UnprocessableEntity)))
  else inl (env ++ omap (λ r, match r.2 with inl v => Some (r.1, v) | inr _ => None end) results).

(** [data_guard_decl]; it is the last to use the data. *)
Definition data_guard_decl (g : option (Guard Ty)) (req : Request IM) (data : Data) (env : Env)
    (jar : CookieJar) : Step * CookieJar :=
  match g with
  | None => (inl env, jar)
  | Some g =>
    let '(outcome, jar) := ty_from_data (ty g) req data jar in
    (match outcome with
     | Some (Success v) => inl (env ++ [(fn_ident g, v)])
     | Some (Forward d) => inr (Some (Forward d))
     | Some (Error (c, _)) => inr (Some (Error c))
     | None => inr None
     end, jar)
  end.

(** [route::Outcome::from] (core/lib/src/route/handler.rs), of what the
    responder returned. *)
Definition outcome_from (r : Response IM IoHandler + Status) : RouteOutcome :=
  match r with inl response => Success response | inr status => Error status end.

(** [responder_outcome_expr]: the function, applied to its arguments in order,
    and its responder; a variable that is not bound would not compile. *)
Definition responder_outcome (r : Codegen.Route Ty)
    (call : list V → Request IM → CookieJar → option (Response IM IoHandler + Status) * CookieJar)
    (req : Request IM) (env : Env) (jar : CookieJar) : option RouteOutcome * CookieJar :=
  let args := omap (λ '(_, (ident, _)),
    snd <$> List.find (λ b, bool_decide (b.1 = ident)) env) (arguments r) in
  let '(response, jar) := call args req jar in (outcome_from <$> response, jar).

(** The [monomorphized_function] of [codegen_route]. *)
Definition monomorphized_function (r : Codegen.Route Ty)
    (call : list V → Request IM → CookieJar → option (Response IM IoHandler + Status) * CookieJar) :
    RouteHandler := λ req data jar,
  match request_guard_decls (request_guards r) req data [] jar with
  | (inr outcome, jar) => (outcome, jar)
  | (inl env, jar) =>
    match param_guard_decls (param_guards r) req data env with
    | inr outcome => (outcome, jar)
    | inl env =>
      match query_decls (query_params r) req data env with
      | inr outcome => (outcome, jar)
      | inl env =>
        match data_guard_decl (data_guard r) req data env jar with
        | (inr outcome, jar) => (outcome, jar)
        | (inl env, jar) => responder_outcome r call req env jar
        end
      end
    end
  end.
End generated.

(** ** The parameters of a matching route are there *)

Section found.
Context {U : Uncased} {P : Pear} {PL : PearLaws} {PC : PearCombinators}
  {IM : IndexMap str (list str) uncased_eq}.
Context {SP : StablePattern} {SPL : StablePatternLaws} {M : Memchr} {ML : MemchrLaws}
  {PE : PercentEncoding} {PEL : PercentEncodingLaws} {CC : CookieCrate}.
Context {IoHandler : Type}.
Context {XID : UnicodeXID} {SI : SynIdent}.
Context {Ty V E Ctxt : Type} {G : Guards (IM := IM) Ty V E Ctxt}.

(** Guards among parsed segments are numbered by the segments. *)
Lemma parse_segments_index k trailed i segments args ps (g : Guard Ty) :
  upgrade_all (parse_segments k trailed i segments) args = (ps, []) →
  g ∈ omap guard ps → i ≤ index (source g) < i + length segments.
Proof.
  revert trailed i ps. induction segments as [|s segments IH]; intros trailed i ps; simpl.
  { intros [= <-]. by intros ?%elem_of_nil. }
  intros Hu Hg. assert (∃ p q ps' trailed', upgrade_param (set_index i p) args = inl q ∧
    upgrade_all (parse_segments k trailed' (S i) segments) args = (ps', []) ∧ ps = q :: ps')
    as (p&q&ps'&trailed'&Hq&Hps&->).
  { destruct trailed; [|destruct (parse k s) as [pp|ee]]; apply upgrade_all_cons in Hu as (p&q&ps'&[= <-]&?&?&->).
    by eexists _, _, _, _. }
  assert (Hrest : g ∈ omap guard ps' → i ≤ index (source g) < i + S (length segments)).
  { intros Hin. specialize (IH _ _ _ Hps Hin). lia. }
  simpl in Hg. destruct (guard q) as [g'|] eqn:Hgq; [|by apply Hrest].
  apply elem_of_cons in Hg as [->|Hg]; [|by apply Hrest].
  assert (index (source g') = i); [|lia]. revert Hq. unfold upgrade_param, upgrade_dynamic.
  destruct q; simpl in Hgq; simplify_eq/=. destruct p; simpl; try done;
    by destruct (args_get _ args) as [[? ?]|]; intros [= <-].
Qed.

Lemma param_guards_index attr inputs (r : Codegen.Route Ty) g :
  from attr inputs = inl r → g ∈ param_guards r →
  index (source g) < length (List.filter nonempty (split_on slash (attr_path attr))).
Proof.
  unfold from. destruct (collect_arguments inputs []) as [args ds].
  destruct (upgrade_all _ args) as [ps path_diags] eqn:Hpath.
  destruct (match attr_query attr with Some q => _ | None => _ end) as [query query_diags].
  destruct (match attr_data attr with Some d => _ | None => _ end) as [data data_diags].
  destruct (_ ++ _) as [|d ds'] eqn:Hdiags; [|done]. intros [= <-].
  apply app_nil in Hdiags as [_ Hdiags]. apply app_nil in Hdiags as [_ Hdiags].
  apply app_nil in Hdiags as [-> _]. intros Hg.
  apply (parse_segments_index _ _ _ _ _ _ g) in Hpath; [|done]. apply Hpath.
Qed.

(** A matching request has a segment for each word of the route. *)
Lemma matching_segment {H : Type} (rt : Route.Route H) (req : Request IM) (n : nat) :
  metadata (route_uri rt) = Metadata_from (Route.base (route_uri rt)) (uri (route_uri rt)) →
  paths_match rt req = true →
  length (words (path (Route.base (route_uri rt)))) + n < length (words (path (uri (route_uri rt)))) →
  is_Some (path_segments (path (req_uri req)) !!
             (length (words (path (Route.base (route_uri rt)))) + n)).
Proof.
  intros Hm Hp Hn. apply lookup_lt_is_Some. unfold paths_match in Hp.
  destruct (num _ <? _) eqn:Hlen in Hp; [done|]. apply Nat.ltb_ge in Hlen.
  rewrite Hm in Hlen. simpl in Hlen. rewrite length_fmap in Hlen.
  assert (length (words (path (uri (route_uri rt)))) ≤ length (path_raw_segments (path (uri (route_uri rt)))))
    by (unfold words; apply List.filter_length_le).
  unfold num, segments_new, origin_segments in Hlen. simpl in Hlen. lia.
Qed.

Lemma base_len_words b u :
  base_len (Metadata_from b u) = length (words (path b)).
Proof.
  unfold Metadata_from. simpl. unfold origin_segments. rewrite <-path_segments_words.
  enough (length (path_segments (path b)) =
    length (List.filter is_empty (path_segments (path b))) +
    length (List.filter nonempty (path_segments (path b)))) by lia.
  induction (path_segments (path b)) as [|s ss IH]; [done|]. destruct s; simpl; lia.
Qed.

(** The words the macro numbers are those the runtime mounts. *)
Lemma codegen_words s o :
  parse_route s = Some o → Forall (λ c, graphic c = true) (path o) →
  List.filter nonempty (split_on slash (path o)) = words (path o).
Proof.
  intros [[t Ht] _]%parse_route_spec Hg. rewrite Ht in *. inversion_clear Hg as [|? ? _ Hg'].
  by rewrite words_graphic.
Qed.

End found.

Section witness.
Import Reference PearReference PearCombinatorsReference HeaderReference CookieReference CodegenReference.

(** Guards for one type, the text itself. *)
#[local] Instance text_guards : Guards (IM := header_index) unit str EmptyError unit := {
  ty_from_request _ _ jar := (Some (Success []), jar);
  ty_from_param _ := str_from_param;
  ty_from_segments _ _ := inl [];
  ty_init _ := tt;
  ty_push_value _ c _ := c;
  ty_finalize _ _ := inl [];
  ty_from_data _ _ _ jar := (Some (Success []), jar);
}.

Definition item_attribute : Attribute := Attribute_new (#"/<id>/x") None (Some Get) None.
Definition item_route : option (Route.Route unit) :=
  u ← try_new (#"/api") (#"/<id>/x");
  Some (Route.Route_with unit None (Some Get) tt u 0%Z None [] None).
Definition item_request : Request header_index :=
  request_new false None Get (Origin_new (#"/api/7/x") None).

End witness.
