(* ===== verification/DeriveUri.v ===== *)
(** * DeriveUri: structures as queries, there and back
    (core/codegen/src/derive/uri_display.rs)

    What [#[derive(UriDisplayQuery)]] makes of structures and enumerations, and
    that what it writes is what [#[derive(FromForm)]] parses. *)

From Stdlib Require Import DecimalString DecimalNat DecimalN DecimalPos.
From S2P Require Import Header MediaParse UriTables Uri Request Lifecycle Codegen Generated.
From S2P Require Import Prelude Crates RawStr Params FormName FormParser FormError FromForm UriFmt DeriveForm.

(** ** The derive *)

(** A field of a structure that is parsed and displayed. *)
Record UriField (D V : Type) := mkUriField {
  uri_field : FormField D V;
  uri_display : UriDisplay KQuery (field_ty uri_field);
}.
Arguments mkUriField {D V}.
Arguments uri_field {D V}.
Arguments uri_display {D V}.

#[local] Existing Instance field_from.
#[local] Existing Instance uri_display.

(** Why structures and enumerations are refused. *)
Inductive UriDiagnostic := NoEmptyFields | OnlyOneUnnamed | NoEmptyEnums.

Section derive.
Context `{Uncased} `{PercentEncode} {D V : Type}.

(** [struct_validate], [fields_validate] and [enum_validate] of the derive. *)
Definition uri_fields_validate (fields : list (FormField D V)) : option UriDiagnostic :=
  if is_empty fields then Some NoEmptyFields
  else if are_unnamed fields && (1 <? length fields)%nat then Some OnlyOneUnnamed
  else None.

Definition uri_enum_validate (variants : list (list str)) : option UriDiagnostic :=
  if is_empty variants then Some NoEmptyEnums else None.

(** [first_field_name], [first_form_field_value] (derive/form_field.rs). *)
Definition first_field_name (f : FormField D V) : option FieldName := head (field_names f).

Definition first_form_field_value (attr_values : list str) (ident : str) : str :=
  default ident (head attr_values).

(** The fields of a structure, each with its name. *)
Fixpoint field_fmts (fields : list (UriField D V)) : values_of (List.map uri_field fields) → list (option str * Fmt) :=
  match fields with
  | [] => λ _, []
  | f :: fields => λ '(v, vs), (name_text <$> first_field_name (uri_field f), uri_display f v) :: field_fmts fields vs
  end.

(** Structures that can be parsed can be displayed. *)
Lemma parsed_displayed (fields : list (FormField D V)) :
  fields_validate fields = None → uri_fields_validate fields = None.
Proof.
  unfold fields_validate, uri_fields_validate. destruct (is_empty fields); [done|].
  destruct (are_unnamed fields); [|done]. cbn [andb].
  destruct (Nat.eqb_spec (length fields) 1) as [->|]; done.
Qed.
End derive.

(** A structure that derives both traits, with its members. *)
Record UriStruct (D V T : Type) := mkUriStruct {
  uri_fields : list (UriField D V);
  uri_builder : values_of (List.map uri_field uri_fields) → T;
  uri_members : T → values_of (List.map uri_field uri_fields);
  uri_accesses : V → list str;
  uri_check : V → nat → partial_of (List.map uri_field uri_fields) → Result unit;
}.
Arguments mkUriStruct {D V T}.
Arguments uri_fields {D V T}.
Arguments uri_builder {D V T}.
Arguments uri_members {D V T}.
Arguments uri_accesses {D V T}.
Arguments uri_check {D V T}.

(** The structure as [FromForm] has it, and the generated display. *)
Definition form_struct {D V T} (s : UriStruct D V T) : FormStruct D V T :=
  mkFormStruct (List.map uri_field (uri_fields s)) (uri_builder s) (uri_accesses s) (uri_check s).

Definition derived_display {D V T} (s : UriStruct D V T) : UriDisplay KQuery T := λ self,
  struct_fmt (field_fmts (uri_fields s) (uri_members s self)).

(** ** Names, as they are shifted *)

(** Names without any byte that delimits keys or is encoded in a query. *)
Definition key_byte (c : ascii) : bool := name_byte c && negb (bool_decide (c ∈ ["."; "["]%char)).
Definition key_name (n : str) : Prop := n ≠ [] ∧ Forall (λ c, key_byte c = true) n.

Lemma key_byte_ne c : key_byte c = true → c ≠ "."%char ∧ c ≠ "["%char ∧ c ≠ "="%char.
Proof. intros Hc. split_and!; intros ->; by vm_compute in Hc. Qed.

Lemma dots_app pre n post :
  dots (pre ++ n :: post) =
    dots pre ++ (if is_empty pre then [] else #".") ++ n ++ (if is_empty post then [] else "."%char :: dots post).
Proof.
  induction pre as [|m pre IH].
  - destruct post; cbn; [by rewrite app_nil_r|done].
  - destruct pre as [|m' pre].
    + cbn. f_equal. f_equal. by destruct post; [rewrite app_nil_r|].
    + change (dots ((m :: m' :: pre) ++ n :: post)) with (m ++ "."%char :: dots ((m' :: pre) ++ n :: post)).
      rewrite IH. change (dots (m :: m' :: pre)) with (m ++ "."%char :: dots (m' :: pre)).
      cbn [is_empty]. by rewrite <-!app_assoc.
Qed.

Lemma find_delims_name n t :
  Forall (λ c, key_byte c = true) n →
  find_delims (n ++ t) = (λ i, (length n + i)%nat) <$> find_delims t.
Proof.
  induction 1 as [|c n Hc Hn IH]; [cbn; by destruct (find_delims t)|]. cbn [app find_delims].
  apply key_byte_ne in Hc as (? & ? & _).
  rewrite !bool_decide_false by done. cbn [orb]. rewrite IH. by destruct (find_delims t).
Qed.

Section views.
Context `{Memchr} `{PercentEncoding}.

(** The view of a dotted name after some of its names. *)
Definition view_before (pre post : list str) : NameView :=
  view_shift (NameView_at (dots (pre ++ post)) 0 (length (dots pre))).

Lemma shift_by_name n (post : list str) :
  key_name n →
  shift_by (n ++ (if is_empty post then [] else "."%char :: dots post)) = length n ∧
  shift_by ("."%char :: n ++ (if is_empty post then [] else "."%char :: dots post)) = S (length n).
Proof.
  intros [Hne Hn]. pose proof (find_delims_name n (if is_empty post then [] else "."%char :: dots post) Hn) as Hf.
  assert (find_delims (if is_empty post then [] else "."%char :: dots post) = if is_empty post then None else Some 0) as Ht
    by by destruct post.
  rewrite Ht in Hf. split.
  - destruct n as [|c n]; [done|]. cbn [app] in *. unfold shift_by.
    inversion_clear Hn as [|?? Hc _]. apply key_byte_ne in Hc as (? & ? & ?).
    rewrite !bool_decide_false by done. rewrite Hf. destruct post; cbn; [by rewrite app_nil_r|lia].
  - unfold shift_by. cbn [bool_decide]. rewrite !(bool_decide_false ("."%char = _)) by done.
    rewrite bool_decide_true by done. rewrite Hf.
    destruct post; cbn; [by rewrite app_nil_r|lia].
Qed.

Lemma view_before_next pre n post :
  key_name n →
  view_before pre (n :: post) = NameView_at (dots (pre ++ n :: post)) (length (dots pre)) (length (dots (pre ++ [n]))).
Proof.
  intros Hn. unfold view_before, view_shift. cbn [view_end view_name]. f_equal.
  rewrite (dots_app pre n post), (dots_app pre n []), drop_app_length, !length_app. cbn [is_empty length].
  destruct (shift_by_name n post Hn) as [Hs1 Hs2]. destruct pre; cbn [is_empty app length].
  - rewrite Hs1. lia.
  - change #"." with ["."%char]. cbn [app length]. rewrite Hs2. lia.
Qed.

Lemma view_before_done pre : view_before pre [] = NameView_at (dots pre) (length (dots pre)) (length (dots pre)).
Proof. unfold view_before, view_shift. cbn. rewrite app_nil_r, drop_all. cbn. f_equal. lia. Qed.

Lemma view_shift_before pre n post :
  key_name n → view_shift (view_before pre (n :: post)) = view_before (pre ++ [n]) post.
Proof.
  intros Hn. rewrite view_before_next by done. unfold view_before, view_shift. cbn [view_end view_name].
  by rewrite <-app_assoc.
Qed.

Lemma view_shift_done pre : view_shift (view_before pre []) = view_before pre [].
Proof. rewrite view_before_done. unfold view_shift. cbn. rewrite drop_all. cbn. f_equal. lia. Qed.

Lemma key_before pre n post : key_name n → key_lossy (view_before pre (n :: post)) = n.
Proof.
  intros Hn. rewrite view_before_next by done. unfold key_lossy, window. cbn [view_end view_start view_name].
  assert (take (length (dots (pre ++ [n])) - length (dots pre)) (drop (length (dots pre)) (dots (pre ++ n :: post))) =
    (if is_empty pre then [] else #".") ++ n) as ->.
  { rewrite (dots_app pre n post), (dots_app pre n []), drop_app_length, !length_app. cbn [is_empty length].
    rewrite app_assoc. rewrite take_app_le; [|rewrite length_app; lia].
    apply take_ge. rewrite length_app. lia. }
  destruct Hn as [Hne Hn]. destruct pre; cbn [is_empty app].
  - destruct n as [|c n]; [done|]. inversion_clear Hn as [|?? Hc _].
    apply key_byte_ne in Hc as (? & ? & _). by rewrite !bool_decide_false by done.
  - done.
Qed.

Lemma key_done pre : key (view_before pre []) = None.
Proof. rewrite view_before_done. unfold key, key_lossy, window. cbn. by rewrite Nat.sub_diag. Qed.

(** ** Items, as they are pushed *)

(** The pushes of the items of a value, after some names. *)
Definition located {D} (pre : list str) (its : list Item) : list (Pushed D) :=
  (λ it, PValue (ValueField_new (view_before pre it.1) it.2)) <$> its.

Lemma located_fields {D} (its : list Item) : located (D := D) [] its = PValue <$> ((λ it, FormParser.field_from (dots it.1, it.2)) <$> its).
Proof. unfold located. by rewrite <-list_fmap_compose. Qed.

Lemma shift_under {D} pre n (its : list Item) :
  key_name n → pushed_shift <$> located (D := D) pre (under n its) = located (pre ++ [n]) its.
Proof.
  intros Hn. unfold located, under. rewrite <-!list_fmap_compose. apply list_fmap_ext. intros _ it _. cbn.
  unfold field_shift. cbn. by rewrite view_shift_before.
Qed.

Lemma located_is_field {D} pre its : List.filter is_field (located (D := D) pre its) = located pre its.
Proof. induction its as [|it its IH]; [done|]. cbn. by f_equal. Qed.

Lemma located_app {D} pre its1 its2 : located (D := D) pre (its1 ++ its2) = located pre its1 ++ located pre its2.
Proof. apply fmap_app. Qed.
End views.

(** ** Values that are parsed from what they display *)

Definition item_ok (it : Item) : Prop := Forall key_name it.1 ∧ is_utf8 it.2 = true.

(** A type whose values, but for some, are displayed as items that parse to them
    again, wherever they are. *)
Class RoundTrips `{Memchr} `{PercentEncoding} (D T : Type) `{FF : FromForm D T} {UD : UriDisplay KQuery T} := {
  rt_items :: DisplayItems KQuery T;
  shown : Options → T → Prop;
  shown_items opts v : shown opts v → Forall item_ok (items v);
  shown_parses opts v pre : shown opts v → run_parser T opts (located pre (items v)) = inr v;
}.

Section structures.
Context `{UncasedLaws} `{PercentEncodeLaws} `{Memchr} {D V : Type}.

(** What the fields of a structure need for this, and their items. *)
Fixpoint laws_of (fields : list (UriField D V)) : Type :=
  match fields with [] => unit | f :: fields => RoundTrips D (field_ty (uri_field f)) * laws_of fields end.

Fixpoint struct_items (fields : list (UriField D V)) :
    laws_of fields → values_of (List.map uri_field fields) → list Item :=
  match fields with
  | [] => λ _ _, []
  | f :: fields => λ '(L, Ls) '(v, vs),
    (match first_field_name (uri_field f) with
     | Some name => under (name_text name) (items v)
     | None => items v
     end) ++ struct_items fields Ls vs
  end.

(** A value of a field that shows nothing must be what a missing field is. *)
Fixpoint fields_shown (opts : Options) (fields : list (UriField D V)) :
    laws_of fields → values_of (List.map uri_field fields) → Prop :=
  match fields with
  | [] => λ _ _, True
  | f :: fields => λ '(L, Ls) '(v, vs),
    (shown opts v ∧ (items v = [] → field_missing (uri_field f) opts = Some v)) ∧ fields_shown opts fields Ls vs
  end.

Fixpoint all_values (fields : list (FormField D V)) : values_of fields → partial_of fields :=
  match fields with [] => λ _, tt | f :: fields => λ '(v, vs), (Some v, all_values fields vs) end.

Definition named_field (f : UriField D V) : Prop :=
  ∃ name, first_field_name (uri_field f) = Some name ∧ key_name (name_text name).

Lemma unwrap_all_values (fields : list (FormField D V)) vs : unwrap_all fields (all_values fields vs) = Some vs.
Proof. induction fields as [|f fields IH]; destruct vs; [done|]. cbn. by rewrite IH. Qed.

Lemma struct_fmt_shown (fields : list (UriField D V)) Ls vs :
  Shown KQuery (struct_fmt (field_fmts fields vs)) (encoded_items (struct_items fields Ls vs)).
Proof.
  induction fields as [|f fields IH]; [apply shown_ok|]. destruct Ls as [L Ls], vs as [v vs].
  cbn [struct_items field_fmts struct_fmt try_for_each]. unfold encoded_items. rewrite fmap_app.
  apply shown_then; [|apply IH]. cbn [fst snd].
  destruct (first_field_name (uri_field f)); cbn [fmap option_fmap option_map].
  - fold (encoded_items (under (name_text f0) (items v))). rewrite encoded_items_under.
    apply shown_named, fmt_items.
  - apply shown_value, fmt_items.
Qed.

Lemma struct_items_ok opts (fields : list (UriField D V)) Ls vs :
  Forall named_field fields → fields_shown opts fields Ls vs → Forall item_ok (struct_items fields Ls vs).
Proof.
  induction 1 as [|f fields (name & Hn & Hk) _ IH]; [constructor|]. destruct Ls as [L Ls], vs as [v vs].
  cbn [struct_items fields_shown]. intros [[Hs _] Hss]. apply Forall_app. split; [|by apply IH].
  rewrite Hn. unfold under. apply Forall_fmap. eapply Forall_impl; [by eapply shown_items|].
  intros it [? ?]. split; [by constructor|done].
Qed.

(** ** Which field an item is for *)

Lemma first_name_matches (f : FormField D V) name :
  first_field_name f = Some name → field_matches (name_text name) f = true.
Proof.
  unfold first_field_name, field_matches. destruct (field_names f) as [|n ns]; [done|]. intros [= ->]. cbn.
  apply orb_true_iff. left. destruct name; cbn; [by apply bool_decide_eq_true|apply uncased_eq_refl].
Qed.

(** The pushes of the items under a name that is a key. *)
Lemma located_keys pre n its p :
  key_name n → p ∈ located (D := D) pre (under n its) → is_field p = true ∧ key_lossy (pushed_name p) = n.
Proof.
  intros Hn Hp. unfold located, under in Hp. apply list_elem_of_fmap in Hp as (it & -> & Hit).
  apply list_elem_of_fmap in Hit as (it' & -> & _). cbn. split; [done|]. by apply key_before.
Qed.

Lemma struct_keys pre (fields : list (UriField D V)) Ls vs p :
  Forall named_field fields → p ∈ located (D := D) pre (struct_items fields Ls vs) →
  is_field p = true ∧ existsb (field_matches (key_lossy (pushed_name p))) (List.map uri_field fields) = true.
Proof.
  induction 1 as [|f fields (name & Hn & Hk) _ IH]; [by intros ?%elem_of_nil|]. destruct Ls as [L Ls], vs as [v vs].
  cbn [struct_items List.map existsb]. rewrite located_app, Hn. intros [Hp|Hp]%elem_of_app.
  - apply located_keys in Hp as [Hf Hkey]; [|done]. split; [done|]. apply orb_true_iff. left. rewrite Hkey.
    by apply first_name_matches.
  - destruct (IH _ _ Hp) as [? He]. split; [done|]. apply orb_true_iff. by right.
Qed.

Lemma filter_rejected {A} (g : A → bool) l : (∀ x, x ∈ l → g x = false) → List.filter g l = [].
Proof.
  induction l as [|x l IH]; intros Hg; [done|]. cbn. rewrite Hg by by left. apply IH. intros y Hy. apply Hg. by right.
Qed.

Lemma filter_accepted {A} (g : A → bool) l : (∀ x, x ∈ l → g x = true) → List.filter g l = l.
Proof.
  induction l as [|x l IH]; intros Hg; [done|]. cbn. rewrite Hg by by left. f_equal. apply IH. intros y Hy. apply Hg. by right.
Qed.

Lemma field_outcome_value (f : FormField D V) opts parent mine v :
  (mine = [] → field_missing f opts = Some v) →
  (mine ≠ [] → run_parser (field_ty f) opts (pushed_shift <$> mine) = inr v) →
  field_outcome f opts parent mine = inr v.
Proof.
  intros Hnone Hsome. unfold field_outcome. destruct mine as [|p mine]; [by rewrite Hnone|].
  by rewrite Hsome.
Qed.

(** Every field is parsed from its own items. *)
Lemma struct_outcomes pre (fields : list (UriField D V)) Ls vs opts parent ps0 :
  Forall named_field fields → fields_shown opts fields Ls vs →
  (∀ key, separate key (List.map uri_field fields)) →
  (∀ p, p ∈ ps0 → existsb (field_matches (key_lossy (pushed_name p))) (List.map uri_field fields) = false) →
  field_outcomes false (List.map uri_field fields) opts parent (ps0 ++ located pre (struct_items fields Ls vs)) =
    ([], all_values _ vs).
Proof.
  intros Hnames. revert ps0. induction Hnames as [|f fields (name & Hn & Hk) Hnames IH]; intros ps0 Hshown Hsep Hps.
  { by destruct vs. }
  destruct Ls as [L Ls], vs as [v vs]. cbn [struct_items fields_shown List.map field_outcomes all_values] in *.
  destruct Hshown as [[Hv Hmissing] Hshown]. rewrite Hn, located_app.
  set (mine := located pre (under (name_text name) (items v))).
  assert (∀ p, p ∈ mine → is_field p = true ∧ key_lossy (pushed_name p) = name_text name) as Hmine
    by (intros p; by apply located_keys).
  rewrite app_assoc, (IH Ls vs (ps0 ++ mine)); [|done| |].
  - rewrite !List.filter_app, (filter_rejected _ ps0), (filter_accepted _ mine), filter_rejected.
    + rewrite !app_nil_r. cbn [app]. rewrite (field_outcome_value (uri_field f) opts parent mine v); [done| |].
      * unfold mine. intros Hm%fmap_nil_inv%fmap_nil_inv. by apply Hmissing.
      * intros _. unfold mine. rewrite shift_under by done. by apply shown_parses.
    + intros p Hp. apply struct_keys in Hp as [_ He]; [|done]. unfold routed. apply andb_false_iff. right. cbn [orb].
      destruct (Hsep (key_lossy (pushed_name p))) as [Hs _]. apply not_true_iff_false. intros Hm.
      rewrite Hs in He; done.
    + intros p Hp. destruct (Hmine p Hp) as [Hf Hkey]. unfold routed. rewrite Hf, Hkey. cbn [andb orb].
      by apply first_name_matches.
    + intros p Hp. specialize (Hps p Hp). apply orb_false_iff in Hps as [Hps _]. unfold routed. cbn [orb].
      by rewrite Hps, andb_false_r.
  - intros key. by destruct (Hsep key).
  - intros p [Hp|Hp]%elem_of_app.
    + specialize (Hps p Hp). by apply orb_false_iff in Hps as [_ Hps].
    + destruct (Hmine p Hp) as [_ ->]. destruct (Hsep (name_text name)) as [Hs _]. apply Hs.
      by apply first_name_matches.
Qed.
End structures.

(** ** Derived structures *)

Section derived.
Context `{UncasedLaws} `{PercentEncodeLaws} `{Memchr} {D V T : Type}.
Context (s : UriStruct D V T) (Ls : laws_of (uri_fields s)).
Context (accepted : fields_validate (List.map uri_field (uri_fields s)) = None).
Context (idents : are_unnamed (List.map uri_field (uri_fields s)) = false).
Context (names : Forall named_field (uri_fields s)).
Context (members_built : ∀ v, uri_builder s (uri_members s v) = v).

(** A value whose fields parse, and that its validations accept. *)
Definition derived_shown (opts : Options) (v : T) : Prop :=
  fields_shown opts (uri_fields s) Ls (uri_members s v) ∧
  ∀ parent, validation_errors (form_struct s) parent (all_values _ (uri_members s v)) = [].

Definition derived_items : DisplayItems KQuery T (H := derived_display s).
Proof.
  refine {| items v := struct_items (uri_fields s) Ls (uri_members s v) |}.
  intros v. apply shown_shows. apply struct_fmt_shown.
Defined.

Lemma derived_parses opts v pre :
  derived_shown opts v →
  run_parser (FF := derived (form_struct s)) T opts
    (located pre (struct_items (uri_fields s) Ls (uri_members s v))) = inr v.
Proof.
  intros [Hv Hval]. rewrite derived_run by done. cbn [form_struct fields]. rewrite idents.
  destruct (accepted_fields _ accepted) as [Hsep _].
  pose proof (struct_outcomes pre (uri_fields s) Ls (uri_members s v) opts
    (form_parent (located (D := D) pre (struct_items (uri_fields s) Ls (uri_members s v)))) [] names Hv Hsep) as Ho.
  cbn [app] in Ho. rewrite Ho by (by intros p ?%elem_of_nil). clear Ho. cbv zeta. rewrite Hval, app_nil_r.
  assert (∀ ps : list (Pushed D), (∀ p, p ∈ ps → is_field p = true ∧
      existsb (field_matches (key_lossy (pushed_name p))) (List.map uri_field (uri_fields s)) = true) →
    stray_errors (List.map uri_field (uri_fields s)) opts ps = []) as ->.
  - intros ps Hps. unfold stray_errors. induction ps as [|p ps IH]; [done|]. cbn [fmap list_fmap concat].
    rewrite IH by (intros q Hq; apply Hps; by right). destruct (Hps p) as [Hf He]; [by left|].
    rewrite stray_error_field by done. cbv zeta. rewrite He. cbn [negb andb]. by rewrite andb_false_r.
  - cbn [app is_empty negb]. unfold form_struct. cbn [fields builder]. rewrite unwrap_all_values. cbn. by rewrite members_built.
  - intros p. by apply struct_keys.
Qed.

Definition derived_round_trips : RoundTrips D T (FF := derived (form_struct s)) (UD := derived_display s).
Proof.
  refine (Build_RoundTrips _ _ D T _ (derived_display s) derived_items derived_shown _ _).
  - intros opts v [Hv _]. by apply (struct_items_ok opts).
  - intros opts v pre Hv. by apply derived_parses.
Defined.
End derived.

(** ** Single values, options, sequences *)

Section values.
Context `{UncasedLaws} `{PercentEncodeLaws} `{Memchr} {D : Type}.

(** A type whose values are displayed as one text. *)
Class SingleItem (T : Type) {UD : UriDisplay KQuery T} {DI : DisplayItems KQuery T} :=
  single_item v : ∃ t, items v = [([], t)].

Lemma single_parses {T} `{FromFormField D T} opts pre t v :
  from_value T (ValueField_new (view_before pre []) t) = inr v → run_parser T opts (located pre [([], t)]) = inr v.
Proof.
  intros Hv. rewrite single_field_spec. unfold located. cbn [fmap list_fmap fst snd List.filter is_field].
  unfold field_spec. cbn [handled field_result]. rewrite Hv. cbn. by rewrite andb_false_r.
Qed.

(** [String]. *)
Definition round_trips_str {F : FromFormField D str} (from_str : ∀ f, from_value str f = inr (field_value f)) :
  RoundTrips D str.
Proof.
  refine (Build_RoundTrips _ _ D str _ _ (items_str KQuery) (λ _ v, is_utf8 v = true) _ _).
  - intros _ v Hv. by repeat constructor.
  - intros opts v pre _. apply single_parses. apply from_str.
Defined.

(** Enumerations, by the first value of each variant. *)
Definition enum_display {T} (value : T → str) : UriDisplay KQuery T := λ v, variant_fmt (value v).

Definition enum_items {T} (value : T → str) : DisplayItems KQuery T (H := enum_display value).
Proof.
  refine {| items v := [([], value v)] |}.
  intros v. apply shown_shows, shown_value. exact (fmt_items (k := KQuery) (value v)).
Defined.

Definition round_trips_enum {T} {F : FromFormField D T} (variants : list (T * list str)) (value : T → str)
    (from_enum : ∀ f, from_value T f = enum_from_value variants f)
    (accepted : variants_validate (snd <$> variants) = None)
    (first_value : ∀ v, ∃ attr_values ident, (v, form_field_values attr_values ident) ∈ variants ∧
                          value v = first_form_field_value attr_values ident) :
  RoundTrips D T (UD := enum_display value).
Proof.
  refine (Build_RoundTrips _ _ D T _ (enum_display value) (enum_items value) (λ _ v, is_utf8 (value v) = true) _ _).
  - intros _ v Hv. by repeat constructor.
  - intros opts v pre _. apply single_parses. rewrite from_enum.
    destruct (first_value v) as (attr_values & ident & Hin & Hvalue).
    destruct (enum_from_value_spec variants (ValueField_new (view_before pre []) (value v)) accepted) as [Hs _].
    apply (Hs v _ Hin). exists (value v). split; [|apply uncased_eq_refl]. rewrite Hvalue.
    unfold form_field_values, first_form_field_value. destruct attr_values; by left.
Defined.

(** [Option<T>]: none is what a strict parse of nothing cannot be. *)
Lemma option_run {T} {FF : FromForm D T} opts (ps : list (Pushed D)) :
  Forall (λ p, is_field p = true) ps → run_parser (option T) opts ps = inr (is_ok (run_parser T Strict ps)).
Proof.
  intros Hps. unfold run_parser. cbn. do 2 f_equal. generalize (init T Strict). 
  induction Hps as [|p ps Hp _ IH]; intros c; [done|]. cbn. by destruct p.
Qed.

Lemma located_Forall pre its : Forall (λ p, is_field (D := D) p = true) (located pre its).
Proof. unfold located. by apply Forall_fmap, Forall_forall. Qed.

Definition round_trips_option {T} {FF : FromForm D T} {UD : UriDisplay KQuery T} (RT : RoundTrips D T) :
  RoundTrips D (option T).
Proof.
  refine (Build_RoundTrips _ _ D (option T) _ _ items_option
    (λ _ v, match v with
            | Some v => shown Strict v
            | None => is_ok (run_parser T Strict []) = None
            end) _ _).
  - intros opts [v|] Hv; [by apply (shown_items Strict)|constructor].
  - intros opts v pre Hv. rewrite option_run by apply located_Forall. f_equal.
    destruct v as [v|]; [|exact Hv]. cbn [items items_option]. by rewrite shown_parses.
Defined.

(** [Vec<T>], of single values: each item is a field without a key. *)
Lemma runs_from_unkeyed g k (ps : list (Pushed D)) :
  Forall (λ p, pushed_key p = None) ps → runs_from g k ps = g :: ((λ p, [p]) <$> ps).
Proof.
  revert g k. induction ps as [|p ps IH]; intros g k; [done|]. inversion_clear 1 as [|?? Hp Hps]. cbn. rewrite Hp.
  replace (same_key k None) with false by by destruct k. by rewrite IH.
Qed.

Lemma runs_unkeyed (ps : list (Pushed D)) :
  Forall (λ p, pushed_key p = None) ps → runs ps = (λ p, [p]) <$> ps.
Proof.
  intros Hps. destruct ps as [|p ps]; [done|]. inversion_clear Hps. by apply runs_from_unkeyed.
Qed.

Lemma runs_items {T} (its : T → list Item) pre (l : list T) :
  (∀ v, ∃ t, its v = [([], t)]) →
  runs (located (D := D) pre (concat (its <$> l))) = (λ v, located (D := D) pre (its v)) <$> l.
Proof.
  intros Hs. rewrite runs_unkeyed.
  - induction l as [|v l IH]; [done|]. cbn [fmap list_fmap concat]. rewrite located_app, fmap_app, IH.
    by destruct (Hs v) as [t ->].
  - unfold located. rewrite Forall_fmap. apply Forall_concat, Forall_fmap, Forall_forall. intros v _. cbn.
    destruct (Hs v) as [t ->]. constructor; [|done]. cbn. apply key_done.
Qed.

Lemma collected_all {T} opts (l : list T) (rs : list (Result T)) :
  rs = inr <$> l → (strict opts = true → l ≠ []) →
  collected opts (concat (err <$> rs)) (omap is_ok rs) (omap is_ok rs) = inr l.
Proof.
  intros -> Hne. replace (concat (err <$> (inr <$> l))) with ([] : Errors) by (clear; by induction l).
  replace (omap is_ok (inr <$> l)) with l by (clear; induction l; cbn; by f_equal).
  unfold collected. cbn [is_empty negb]. destruct l, (strict opts); cbn; by try specialize (Hne eq_refl).
Qed.

Definition round_trips_vec {T} {FF : FromForm D T} {UD : UriDisplay KQuery T} (RT : RoundTrips D T)
    (single : SingleItem T) : RoundTrips D (list T).
Proof.
  refine (Build_RoundTrips _ _ D (list T) _ _ items_vec
    (λ opts l, Forall (shown opts) l ∧ (strict opts = true → l ≠ [])) _ _).
  - intros opts l [Hl _]. cbn [items items_vec]. apply Forall_concat, Forall_fmap.
    eapply Forall_impl; [exact Hl|]. apply shown_items.
  - intros opts l pre [Hl Hne]. rewrite sequence_spec, located_is_field. cbn [items items_vec]. unfold vec_spec.
    rewrite runs_items by exact single. apply collected_all; [|done]. clear Hne.
    induction Hl as [|v l Hv Hl IH]; [done|]. cbn [fmap list_fmap]. f_equal; [|exact IH].
    rewrite <-(shown_parses opts v pre Hv). destruct (single v) as [t ->]. unfold located. cbn.
    unfold field_shift. cbn. by rewrite view_shift_done.
Defined.

(** Integers. *)
Lemma digits_value_pos (d : Decimal.uint) (acc : positive) :
  digits_value (Zpos acc) (lit (NilEmpty.string_of_uint d)) = Zpos (Pos.of_uint_acc d acc).
Proof.
  unfold lit. revert acc. induction d; intros acc; [done|..];
    cbn [Pos.of_uint_acc NilEmpty.string_of_uint String.list_ascii_of_string]; rewrite <-IHd; unfold digits_value;
    cbn [foldl]; f_equal;
    match goal with |- context [nat_of_ascii ?c] =>
      let n := eval vm_compute in (nat_of_ascii c) in change (nat_of_ascii c) with n end; lia.
Qed.

Lemma digits_value_N (n : N) : digits_value 0 (lit (NilEmpty.string_of_uint (N.to_uint n))) = Z.of_N n.
Proof.
  rewrite <-(DecimalN.Unsigned.of_to n) at 2. unfold N.of_uint. generalize (N.to_uint n). intros d. unfold lit.
  induction d; [done|exact IHd|..];
    cbn [Pos.of_uint NilEmpty.string_of_uint String.list_ascii_of_string Z.of_N]; rewrite <-digits_value_pos; done.
Qed.

Lemma uint_digits (d : Decimal.uint) : Forall (λ c, is_digit c = true) (lit (NilEmpty.string_of_uint d)).
Proof. unfold lit. by induction d; cbn; constructor. Qed.

Lemma integer_parses lo hi z : (lo ≤ 0 ≤ hi)%Z → (lo ≤ z ≤ hi)%Z → int_from_str lo hi (integer_text z) = inl z.
Proof.
  intros Hb Hz. apply int_from_str_spec; [done|]. split; [|done]. unfold integer_text.
  assert (∀ n : N, lit (NilEmpty.string_of_uint (N.to_uint n)) ≠ []) as Hne.
  { intros n Hn. pose proof (DecimalN.Unsigned.of_to n) as Ho. pose proof (DecimalPos.Unsigned.to_uint_nonnil) as Hp.
    destruct n as [|p]; [done|]. specialize (Hp p). cbn in Hn. destruct (Pos.to_uint p); done. }
  destruct (Z.ltb_spec z 0).
  - exists #"-", (lit (NilEmpty.string_of_uint (N.to_uint (Z.to_N (- z))))).
    split_and!; [done|apply Hne|apply uint_digits|]. right. split_and!; [done|lia|]. rewrite digits_value_N. lia.
  - exists [], (lit (NilEmpty.string_of_uint (N.to_uint (Z.to_N z)))).
    split_and!; [done|apply Hne|apply uint_digits|]. left. split; [by left|]. rewrite digits_value_N. lia.
Qed.

Definition round_trips_int {F : FromFormField D Z} lo hi (bounds : (lo ≤ 0 ≤ hi)%Z)
    (from_int : ∀ f, from_value Z f = int_from_value lo hi f) : RoundTrips D Z.
Proof.
  refine (Build_RoundTrips _ _ D Z _ _ (items_int KQuery) (λ _ z, (lo ≤ z ≤ hi)%Z) _ _).
  - intros _ z _. constructor; [|done]. split; [constructor|]. apply utf8_from_ascii, integer_text_Forall.
    by repeat constructor.
  - intros opts z pre Hz. apply single_parses. rewrite from_int. unfold int_from_value. cbn.
    by rewrite integer_parses.
Defined.

(** [bool]. *)
Definition round_trips_bool {F : FromFormField D bool} (from_bool : ∀ f, from_value bool f = bool_from_value f) :
  RoundTrips D bool.
Proof.
  refine (Build_RoundTrips _ _ D bool _ _ (items_bool KQuery) (λ _ _, True) _ _).
  - intros _ [] _; by repeat constructor.
  - intros opts b pre _. apply single_parses. rewrite from_bool. unfold bool_from_value. cbn [field_value].
    rewrite !uncased_eq_spec. by destruct b.
Defined.
End values.

(** ** Queries of requests *)

Section queries.
Context `{UncasedLaws} `{PercentEncodeLaws} `{!PercentEncodingLaws} `{MemchrLaws} `{StablePatternLaws}.
Context {IM : IndexMap str (list str) uncased_eq} {D : Type}.

(** The fields a request has are those a form of its query has. *)
Lemma query_segments_fields q :
  Forall (λ c, graphic c = true) q → FormParser.fields q = Some (FormParser.field_from <$> query_segments q).
Proof.
  intros Hq. rewrite fields_spec. f_equal. unfold query_segments, decoded_field, pieces.
  rewrite <-!list_fmap_compose.
  assert (List.filter nonempty (query_raw_segments q) = List.filter (λ s, negb (is_empty s)) (split_on "&" q)) as ->.
  { destruct q as [|c q]; [done|]. by rewrite query_raw_segments_graphic. }
  apply list_fmap_ext. intros _ piece _. cbn. by destruct (split_at_byte piece "=").
Qed.

(** What the parser of a parameter is given: the fields under its name. *)
Definition for_guard (n : str) (fs : list ValueField) : list (Pushed D) :=
  pushed_shift <$> List.filter (λ p, bool_decide (key_lossy (pushed_name p) = n)) (PValue <$> fs).

Lemma for_guard_app n fs1 fs2 : for_guard n (fs1 ++ fs2) = for_guard n fs1 ++ for_guard n fs2.
Proof. unfold for_guard. by rewrite fmap_app, List.filter_app, fmap_app. Qed.

Lemma for_guard_others n fs : (∀ f, f ∈ fs → key_lossy (field_name f) ≠ n) → for_guard n fs = [].
Proof.
  intros Hf. unfold for_guard. rewrite filter_rejected; [done|]. intros p (f & -> & Hin)%list_elem_of_fmap.
  apply bool_decide_eq_false. by apply Hf.
Qed.

Lemma for_guard_own n its :
  key_name n → for_guard n (spec_fields (SItems (under n its))) = located [n] its.
Proof.
  intros Hn. unfold for_guard. cbn [spec_fields]. rewrite <-located_fields, filter_accepted.
  - by rewrite shift_under.
  - intros p Hp. apply located_keys in Hp as [_ Hk]; [|done]. by apply bool_decide_eq_true.
Qed.
End queries.

Section roundtrip.
Context `{UncasedLaws} `{PercentEncodeLaws} `{!PercentEncodingLaws} `{MemchrLaws} `{StablePatternLaws}.
Context {IM : IndexMap str (list str) uncased_eq} {D V T : Type}.
Context (s : UriStruct D V T) (Ls : laws_of (uri_fields s)).

(** C32: Structures round trip through URIs: when a structure derives both
    traits, its fields have names that need no encoding and are types whose
    values parse from what they display, nested structures among them, then in
    any URI built for a route with a parameter of that type, between whatever
    other arguments that are not of its name, the fields that the generated
    handler of the route gives to the parameter's parser make the same value
    again, as long as its validations accept it and a field that shows nothing
    has what is missing as its value. *)
Theorem derived_query_roundtrip path before after bspecs aspecs (n : str) (v : T) (req : Request IM) :
  let args := before ++ NameValue n (derived_display s v) :: after in
  let uri := builder_render (builder_new path (Some (DynamicArgs args))) in
  fields_validate (List.map uri_field (uri_fields s)) = None →
  are_unnamed (List.map uri_field (uri_fields s)) = false →
  Forall named_field (uri_fields s) →
  (∀ v, uri_builder s (uri_members s v) = v) →
  derived_shown s Ls Lenient v →
  key_name n →
  Forall2 arg_shows before bspecs → Forall2 arg_shows after aspecs →
  separated args = true → Forall spec_ok (bspecs ++ aspecs) →
  (∀ f, f ∈ concat (spec_fields <$> bspecs ++ aspecs) → key_lossy (field_name f) ≠ n) →
  Origin_valid uri → req_uri req = uri →
  run_parser (FF := derived (form_struct s)) T Lenient (for_guard n (query_fields req)) = inr v.
Proof.
  intros args uri Hacc Hun Hnames Heta Hv Hn Hb Ha Hsep Hok Hother (_ & _ & Hq) Hreq.
  set (its := struct_items (uri_fields s) Ls (uri_members s v)).
  assert (Forall2 arg_shows args (bspecs ++ SItems (under n its) :: aspecs)) as Hargs.
  { apply Forall2_app; [done|]. constructor; [|done]. constructor.
    apply (fmt_items (DisplayItems := derived_items s Ls) v). }
  assert (Forall spec_ok (bspecs ++ SItems (under n its) :: aspecs)) as Hoks.
  { apply Forall_app in Hok as [? ?]. apply Forall_app. split; [done|]. constructor; [|done].
    cbn [spec_ok]. unfold under. apply Forall_fmap.
    eapply Forall_impl; [apply (struct_items_ok Lenient _ Ls); [done|apply Hv]|]. intros it [Hk Hu]. cbn.
    split; [done|]. split; [|done].
    assert (∀ m, key_name m → Forall (λ c, name_byte c = true) m) as Hm.
    { intros m [_ Hm]. eapply Forall_impl; [exact Hm|]. intros c Hc. by apply andb_true_iff in Hc as [? _]. }
    constructor; [by apply Hm|]. eapply Forall_impl; [exact Hk|exact Hm]. }
  pose proof (built_query_fields path args _ Hargs Hsep Hoks) as Hf.
  assert (query_fields req = concat (spec_fields <$> bspecs ++ SItems (under n its) :: aspecs)) as ->.
  { unfold query_fields. rewrite Hreq. unfold uri, builder_render in *. cbn [Uri.query snd] in *.
    destruct (builder_query _) as [q|]; [|done].
    rewrite query_segments_fields in Hf by (by apply qchars_graphic, Hq). by injection Hf. }
  rewrite fmap_app, concat_app, for_guard_app. cbn [fmap list_fmap concat].
  rewrite for_guard_app, for_guard_own by done.
  rewrite !for_guard_others, app_nil_r.
  - by apply derived_parses.
  - intros f Hin. apply Hother. rewrite fmap_app, concat_app. apply elem_of_app. by right.
  - intros f Hin. apply Hother. rewrite fmap_app, concat_app. apply elem_of_app. by left.
Qed.
End roundtrip.

(** ** A structure in a structure *)

Module DeriveUriReference.
Import Crates.Reference PearReference MediaParse.PearCombinatorsReference Header.HeaderReference UriFmtReference.

#[local] Instance str_field : FromFormField unit str := {
  from_value := str_from_value;
  from_data := unexpected_from_data;
  field_default := None;
}.

#[local] Instance int_field : FromFormField unit Z := {
  from_value := int_from_value 0 255;
  from_data := unexpected_from_data;
  field_default := None;
}.

(** A field without attributes but a name. *)
Definition plain_field (T : Type) {F : FromForm unit T} {UD : UriDisplay KQuery T} (ident : str) (name : option FieldName) :
    UriField unit nat :=
  mkUriField (mkFormField (Some ident) T F (match name with Some n => [mkAttr (Some n) None None None] | None => [] end) []) UD.

(** [struct Person { name: String, #[field(name = uncased("Years"))] age:
    Option<u8>, tags: Vec<String> }]. *)
Definition Person : Type := str * (option Z * (list str * unit)).

Definition person : UriStruct unit nat Person :=
  mkUriStruct [plain_field str #"name" None; plain_field (option Z) #"age" (Some (UncasedName #"Years"));
               plain_field (list str) #"tags" None]
    (λ vs, vs) (λ vs, vs) (λ _, []) (λ _ _ _, inr tt).

(** [struct Order { item: String, buyer: Person }]. *)
Definition Order : Type := str * (Person * unit).

Definition order : UriStruct unit nat Order :=
  mkUriStruct [plain_field str #"item" None;
               plain_field Person (F := derived (form_struct person)) (UD := derived_display person) #"buyer" None]
    (λ vs, vs) (λ vs, vs) (λ _, []) (λ _ _ _, inr tt).

Definition ada : Order := (#"tea & cake", ((#"Ada=1", (Some 36%Z, ([ #"a/b"; #"50%"], tt))), tt)).

Definition order_args : list UriQueryArgument := [Raw #"lang=en"; NameValue #"o" (derived_display order ada)].

Definition order_uri : Origin := builder_render (builder_new (StaticArgs #"/") (Some (DynamicArgs order_args))).

Lemma order_written :
  Uri.query order_uri = Some #"lang=en&o.item=tea%20%26%20cake&o.buyer.name=Ada%3D1&o.buyer.Years=36&o.buyer.tags=a%2Fb&o.buyer.tags=50%25".
Proof. by vm_compute. Qed.

Definition str_trips : RoundTrips unit str := round_trips_str (λ _, eq_refl).
Definition int_trips : RoundTrips unit Z := round_trips_int 0 255 ltac:(lia) (λ _, eq_refl).

Lemma str_single : SingleItem (UD := display_str KQuery) (DI := items_str KQuery) str.
Proof. intros v. by exists v. Defined.

Definition person_laws : laws_of (uri_fields person) :=
  (str_trips, (round_trips_option int_trips, (round_trips_vec str_trips str_single, tt))).

Lemma key_name_of n : negb (is_empty n) && forallb key_byte n = true → key_name n.
Proof.
  intros [Hn Hk]%andb_true_iff. split; [by destruct n|]. apply Forall_forall. intros c Hc.
  rewrite List.forallb_forall in Hk. apply Hk. by apply list_elem_of_In.
Qed.

Lemma person_names : Forall named_field (uri_fields person).
Proof. repeat constructor; eexists; (split; [reflexivity|apply key_name_of; by vm_compute]). Qed.

Lemma order_names : Forall named_field (uri_fields order).
Proof. repeat constructor; eexists; (split; [reflexivity|apply key_name_of; by vm_compute]). Qed.

Definition order_laws : laws_of (uri_fields order) :=
  (str_trips, (derived_round_trips person person_laws eq_refl eq_refl person_names (λ _, eq_refl), tt)).

Lemma ada_shown : derived_shown order order_laws Lenient ada.
Proof. split; [|done]. repeat (split || constructor || done). Qed.

Definition order_request : Request header_index :=
  request_new false None Method.Get order_uri.

Lemma order_valid : Origin_valid order_uri.
Proof.
  split; [done|]. split; [by repeat constructor|]. cbn [snd]. rewrite order_written. intros q [= <-].
  apply Forall_forall. intros c Hc.
  assert (forallb is_qchar #"lang=en&o.item=tea%20%26%20cake&o.buyer.name=Ada%3D1&o.buyer.Years=36&o.buyer.tags=a%2Fb&o.buyer.tags=50%25" = true)
    as Hq by by vm_compute.
  rewrite List.forallb_forall in Hq. apply Hq. by apply list_elem_of_In.
Qed.

Example derived_query_witness :
  run_parser (FF := derived (form_struct order)) Order Lenient (for_guard #"o" (query_fields order_request)) = inr ada.
Proof.
  apply (derived_query_roundtrip order order_laws (StaticArgs #"/") [Raw #"lang=en"] [] [SRaw #"lang=en"] []).
  - reflexivity.
  - reflexivity.
  - exact order_names.
  - reflexivity.
  - exact ada_shown.
  - apply key_name_of. reflexivity.
  - repeat constructor.
  - constructor.
  - reflexivity.
  - repeat constructor; [done|]. apply (bool_decide_unpack _). by vm_compute.
  - intros f Hf%list_elem_of_singleton. subst f. by vm_compute.
  - change (Origin_valid order_uri). exact order_valid.
  - reflexivity.
Defined.

(** Names are checked for bytes that delimit keys, and not for those that a
    query encodes: this one is accepted by both derives, displayed as it is,
    and then parsed as another name. *)
Definition plus : UriStruct unit nat (str * unit) :=
  mkUriStruct [plain_field str #"sum" (Some (Cased #"a+b"))] (λ vs, vs) (λ vs, vs) (λ _, []) (λ _ _ _, inr tt).

Lemma names_not_encoded :
  field_name_from_meta (Cased #"a+b") = inr (Cased #"a+b") ∧ fields_validate (List.map uri_field (uri_fields plus)) = None ∧
  let query := builder_query (builder_new (StaticArgs #"/") (Some (DynamicArgs [Value (derived_display plus (#"1", tt))]))) in
  query = Some #"a+b=1" ∧
  is_ok (run_parser (FF := derived (form_struct plus)) (str * unit) Lenient
    (PValue <$> (FormParser.field_from <$> default [] (query_segments <$> query)))) = None.
Proof. by vm_compute. Qed.

(** A sequence of structures is displayed without indices, and then every field
    is an item of its own. *)
Lemma structures_not_indexed :
  let display : UriDisplay KQuery (list Person) := display_vec (H0 := derived_display person) in
  let query := builder_query (builder_new (StaticArgs #"/") (Some (DynamicArgs [NameValue #"p" (display [(#"A", (Some 1%Z, ([], tt)))])]))) in
  query = Some #"p.name=A&p.Years=1" ∧
  is_ok (run_parser (FF := from_vec (H1 := derived (form_struct person))) (list Person) Lenient
    (for_guard #"p" (FormParser.field_from <$> default [] (query_segments <$> query)))) = None.
Proof. by vm_compute. Qed.
End DeriveUriReference.
