(* ===== verification/UriMacro.v ===== *)
(** * UriMacro: the [uri!] macro (core/codegen/src/bang/uri.rs, uri_parsing.rs)

    The arguments a call gives are checked against the parameters of the route,
    and the code it expands to builds the URI at run time.  An expression [E] is
    its value; [FromUriParam] converts and [UriDisplay] shows it at the type
    [Ty] of the parameter.  Errors carry what their messages list. *)

From S2P Require Import UriFmt.
From S2P Require Import Prelude Crates RawStr UriTables MediaParse Uri UriForms Header Request Route Catcher Router.
From S2P Require Import Codegen.

(** [enum ArgExpr], [Arg] and [Args]. *)
Inductive ArgExpr (E : Type) := Expr (e : E) | AIgnored.
Arguments Expr {E}.
Arguments AIgnored {E}.

Inductive Arg (E : Type) := Unnamed (e : ArgExpr E) | Named (name : str) (e : ArgExpr E).
Arguments Unnamed {E}.
Arguments Named {E}.

Inductive Args (E : Type) := ArgsUnnamed (args : list (ArgExpr E)) | ArgsNamed (args : list (str * ArgExpr E)).
Arguments ArgsUnnamed {E}.
Arguments ArgsNamed {E}.

(** [enum Validation]. *)
Inductive Validation (E : Type) :=
  | NamedIgnored (ignored : list Dynamic)
  | VUnnamed (expected actual : nat)
  | VNamed (missing extra dup : list str)
  | VOk (exprs : list (ArgExpr E)).
Arguments NamedIgnored {E}.
Arguments VUnnamed {E}.
Arguments VNamed {E}.
Arguments VOk {E}.

(** What [extract_exprs] refuses. *)
Inductive UriMacroError :=
  | PathIgnored
  | ExpectedUnnamed (ignored : list Dynamic)
  | WrongCount (expected actual : nat)
  | InvalidNames (missing extra dup : list str).

Section validate.
Context {Ty E : Type}.

(** [Arg::is_named], and [Args::parse] once the arguments are parsed. *)
Definition is_named (self : Arg E) : bool := match self with Named _ _ => true | Unnamed _ => false end.

Fixpoint args_parse_loop (first_is_named : option bool) (args : list (Arg E)) : option (option bool) :=
  match args with
  | [] => Some first_is_named
  | arg :: args =>
    match first_is_named with
    | Some first => if negb (Bool.eqb first (is_named arg)) then None else args_parse_loop first_is_named args
    | None => args_parse_loop (Some (is_named arg)) args
    end
  end.

Definition args_parse (args : list (Arg E)) : option (Args E) :=
  first_is_named ← args_parse_loop None args;
  match first_is_named with
  | Some true =>
    Some (ArgsNamed (omap (λ a, match a with Named n e => Some (n, e) | Unnamed _ => None end) args))
  | _ => Some (ArgsUnnamed (omap (λ a, match a with Unnamed e => Some e | Named _ _ => None end) args))
  end.

(** [ArgExpr::as_expr]. *)
Definition as_expr (self : ArgExpr E) : option E := match self with Expr e => Some e | AIgnored => None end.

(** [Parameter::ignored]; [InternalUriParams::dynamic_path_params],
    [dynamic_query_params]. *)
Definition ignored (self : Param Ty) : option Dynamic := match self with PIgnored d => Some d | _ => None end.

Definition dynamic_path_params (path_params : list (Param Ty)) : list Dynamic :=
  omap (λ p, match dynamic p with Some d => Some d | None => ignored p end) path_params.

Definition dynamic_query_params (query_params : list (Param Ty)) : list Dynamic := omap dynamic query_params.

(** The loop of [validate] over the named arguments: the [IndexMap] of names
    with the expression each has so far, the extra and the duplicate names. *)
Definition name_eqb (a b : str) : bool := bool_decide (a = b).

Fixpoint assign_args (args : list (str * ArgExpr E)) (params : list (str * option (ArgExpr E)))
    (extra dup : list str) : list (str * option (ArgExpr E)) * list str * list str :=
  match args with
  | [] => (params, extra, dup)
  | (name, expr) :: args =>
    match assoc_get name_eqb name params with
    | Some (Some _) => assign_args args params extra (dup ++ [name])
    | Some None => assign_args args (assoc_update name_eqb None name (λ _, Some expr) params) extra dup
    | None => assign_args args params (extra ++ [name]) dup
    end
  end.

(** [InternalUriParams::validate]. *)
Definition validate (path_params query_params : list (Param Ty)) (args : Args E) : Validation E :=
  let all_params := dynamic_path_params path_params ++ dynamic_query_params query_params in
  match args with
  | ArgsUnnamed args =>
    let '(expected, actual) := (length all_params, length args) in
    if (expected =? actual)%nat then VOk args else VUnnamed expected actual
  | ArgsNamed args =>
    let ignored := List.filter is_wild all_params in
    if negb (is_empty ignored) then NamedIgnored ignored
    else
      let params := foldl (λ m p, assoc_update name_eqb None (name p) (λ _, None) m) [] all_params in
      let '(params, extra, dup) := assign_args args params [] [] in
      let exprs := omap snd params in
      let missing := omap (λ p, match p with (n, None) => Some n | _ => None end) params in
      if (length extra + length dup + length missing =? 0)%nat then VOk exprs else VNamed missing extra dup
  end.

(** [extract_exprs]: the expressions of the path and those of the query. *)
Definition extract_exprs (path_params query_params : list (Param Ty)) (args : Args E)
  : UriMacroError + (list E * list (ArgExpr E)) :=
  match validate path_params query_params args with
  | VOk exprs =>
    let path_param_count := length (dynamic_path_params path_params) in
    if existsb (λ e, match as_expr e with None => true | Some _ => false end) (take path_param_count exprs)
    then inl PathIgnored
    else inr (omap as_expr (take path_param_count exprs), drop path_param_count exprs)
  | NamedIgnored args => inl (ExpectedUnnamed args)
  | VUnnamed expected actual => inl (WrongCount expected actual)
  | VNamed missing extra dup => inl (InvalidNames missing extra dup)
  end.
End validate.

(** ** The arguments a call must give *)

(** The names that occur once more than once before them. *)
Fixpoint repeated (seen names : list str) : list str :=
  match names with
  | [] => []
  | n :: names => if decide (n ∈ seen) then n :: repeated seen names else repeated (n :: seen) names
  end.

Definition known (names : list str) (n : str) : bool := bool_decide (n ∈ names).

Lemma repeated_nil seen names :
  repeated seen names = [] ↔ NoDup names ∧ ∀ n, n ∈ names → n ∉ seen.
Proof.
  revert seen. induction names as [|n names IH]; intros seen; cbn [repeated]; [split; [split; [constructor|set_solver]|done]|].
  rewrite NoDup_cons. destruct (decide (n ∈ seen)) as [Hn|Hn]; [split; [done|set_solver]|].
  rewrite IH. split; intros (? & Hd); split_and!; set_solver.
Qed.

Lemma repeated_ext seen seen' names :
  (∀ n, n ∈ seen ↔ n ∈ seen') → repeated seen names = repeated seen' names.
Proof.
  revert seen seen'. induction names as [|n names IH]; intros seen seen' Hs; [done|]. cbn [repeated].
  destruct (decide (n ∈ seen)), (decide (n ∈ seen')); [f_equal; by apply IH|naive_solver..|].
  apply IH. intros k. rewrite !elem_of_cons. naive_solver.
Qed.

Lemma name_eqb_true a b : name_eqb a b = true ↔ a = b.
Proof. apply bool_decide_eq_true. Qed.

Lemma name_eqb_refl a : name_eqb a a = true.
Proof. by apply name_eqb_true. Qed.

Lemma name_eqb_ne a b : a ≠ b → name_eqb a b = false.
Proof. apply bool_decide_eq_false_2. Qed.

(** Entries by name. *)
Section entries.
Context {V : Type}.
Implicit Types m : list (str * V).

Lemma get_None n m : assoc_get name_eqb n m = None ↔ n ∉ m.*1.
Proof.
  induction m as [|[k v] m IH]; cbn; [split; [intros _; apply not_elem_of_nil|done]|].
  rewrite not_elem_of_cons. unfold name_eqb at 1. case_bool_decide; [naive_solver|]. rewrite IH. naive_solver.
Qed.

Lemma get_Some n v m : assoc_get name_eqb n m = Some v → (n, v) ∈ m.
Proof.
  induction m as [|[k v'] m IH]; cbn; [done|]. unfold name_eqb at 1.
  case_bool_decide; [intros [= ->]; subst; by left|right; auto].
Qed.

Lemma get_elem n v m : NoDup m.*1 → (n, v) ∈ m → assoc_get name_eqb n m = Some v.
Proof.
  induction m as [|[k w] m IH]; cbn; [by intros _ ?%not_elem_of_nil|].
  intros [Hk Hnd]%NoDup_cons [[= -> ->]|Hin]%elem_of_cons; unfold name_eqb at 1.
  - by rewrite bool_decide_eq_true_2.
  - rewrite bool_decide_eq_false_2; [auto|]. intros ->. apply Hk, list_elem_of_fmap. by exists (k, v).
Qed.

Lemma update_known d n f m :
  NoDup m.*1 → n ∈ m.*1 →
  assoc_update name_eqb d n f m = (λ p, if name_eqb n p.1 then (p.1, f p.2) else p) <$> m.
Proof.
  induction m as [|[k v] m IH]; cbn; [by intros _ ?%not_elem_of_nil|].
  intros [Hk Hnd]%NoDup_cons Hin. unfold name_eqb at 1 3. case_bool_decide as Hn.
  - subst. f_equal. rewrite <-(list_fmap_id m) at 1. apply list_fmap_ext. intros i [k' v'] Hi%list_elem_of_lookup_2.
    unfold name_eqb. rewrite bool_decide_eq_false_2; [done|]. intros ->. apply Hk, list_elem_of_fmap. by exists (k', v').
  - f_equal. apply elem_of_cons in Hin as [->|Hin]; [done|auto].
Qed.
End entries.

Section validate_lemmas.
Context {Ty E : Type}.
Implicit Types (m : list (str * option (ArgExpr E))) (args : list (str * ArgExpr E)).

(** What the first loop leaves: every parameter, without an expression. *)
Lemma insert_params_spec (names : list str) m :
  NoDup (m.*1 ++ names) →
  foldl (λ m n, assoc_update name_eqb None n (λ _, None) m) m names = m ++ ((λ n, (n, None)) <$> names).
Proof.
  assert (∀ m n, n ∉ m.*1 → assoc_update name_eqb (None : option (ArgExpr E)) n (λ _, None) m = m ++ [(n, None)]) as Hu.
  { clear. intros m n. induction m as [|[k v] m IH]; [done|]. cbn. intros Hn.
    unfold name_eqb at 1. rewrite bool_decide_eq_false_2 by set_solver. rewrite IH by set_solver. done. }
  revert m. induction names as [|n names IH]; intros m Hnd; [by rewrite app_nil_r|]. cbn [foldl].
  assert (n ∉ m.*1) as Hn by (apply NoDup_app in Hnd as (_ & Hd & _); intros Hin; apply (Hd n Hin); by left).
  rewrite Hu by done. rewrite IH; [by rewrite <-app_assoc|].
  rewrite fmap_app, <-app_assoc. done.
Qed.

(** The names that have an expression. *)
Definition assigned m : list str := omap (λ p, match p with (n, Some _) => Some n | _ => None end) m.

Lemma assigned_spec n m : n ∈ assigned m ↔ ∃ e, (n, Some e) ∈ m.
Proof.
  unfold assigned. rewrite list_elem_of_omap. split.
  - intros ([k [e|]] & Hin & [= ->]). by exists e.
  - intros [e Hin]. by exists (n, Some e).
Qed.

(** A parameter takes its first expression. *)
Definition given args (p : str * option (ArgExpr E)) : str * option (ArgExpr E) :=
  (p.1, match p.2 with Some e => Some e | None => assoc_get name_eqb p.1 args end).

Definition give (n : str) (e : ArgExpr E) (p : str * option (ArgExpr E)) : str * option (ArgExpr E) :=
  if name_eqb n p.1 then (p.1, Some e) else p.

Lemma give_keys n e m : (give n e <$> m).*1 = m.*1.
Proof.
  rewrite <-list_fmap_compose. apply list_fmap_ext. intros i [k w] _. unfold give. cbn. by destruct (name_eqb n k).
Qed.

Lemma give_assigned n e m k :
  NoDup m.*1 → (n, None) ∈ m → k ∈ assigned (give n e <$> m) ↔ k ∈ n :: assigned m.
Proof.
  intros Hnd Hn. rewrite elem_of_cons, !assigned_spec. setoid_rewrite list_elem_of_fmap. unfold give, name_eqb. split.
  - intros (w & [k' w'] & Hw & Hin). cbn in Hw.
    case_bool_decide; simplify_eq; [by left|right; eauto].
  - intros [->|[w Hw]].
    + exists e, (n, None). split; [|done]. cbn. by rewrite bool_decide_eq_true_2.
    + exists w, (k, Some w). split; [|done]. cbn. rewrite bool_decide_eq_false_2; [done|]. intros ->.
      apply (get_elem _ _ _ Hnd) in Hw, Hn. congruence.
Qed.

Lemma given_other n e args m :
  (∀ v, (n, v) ∈ m → is_Some v) → given args <$> m = given ((n, e) :: args) <$> m.
Proof.
  intros Hn. apply list_fmap_ext. intros i [k w] Hi%list_elem_of_lookup_2. unfold given. cbn.
  destruct w; [done|]. destruct (decide (k = n)) as [->|Hk]; [by apply Hn in Hi as [? ?]|]. by rewrite name_eqb_ne.
Qed.

Lemma given_give n e args m :
  NoDup m.*1 → (n, None) ∈ m → given args <$> (give n e <$> m) = given ((n, e) :: args) <$> m.
Proof.
  intros Hnd Hn. rewrite <-list_fmap_compose. apply list_fmap_ext. intros i [k w] Hi%list_elem_of_lookup_2.
  unfold given, give. cbn. destruct (decide (n = k)) as [<-|Hk].
  - apply (get_elem _ _ _ Hnd) in Hi, Hn. rewrite Hn in Hi. injection Hi as <-. by rewrite name_eqb_refl.
  - rewrite !name_eqb_ne by done. by destruct w.
Qed.

(** The loop over the arguments. *)
Lemma assign_args_spec args m extra dup :
  NoDup m.*1 →
  assign_args args m extra dup =
    (given args <$> m, extra ++ List.filter (λ n, negb (known m.*1 n)) args.*1,
     dup ++ repeated (assigned m) (List.filter (known m.*1) args.*1)).
Proof.
  revert m extra dup. induction args as [|[n e] args IH]; intros m extra dup Hnd; cbn [assign_args].
  { cbn. rewrite !app_nil_r. do 2 f_equal. rewrite <-(list_fmap_id m) at 1. apply list_fmap_ext. by intros _ [k [v|]] _. }
  cbn [fmap list_fmap List.filter fst]. destruct (assoc_get name_eqb n m) as [v|] eqn:Hg.
  - pose proof (get_Some _ _ _ Hg) as Hin.
    assert (known m.*1 n = true) as -> by (apply bool_decide_eq_true, list_elem_of_fmap; by exists (n, v)).
    cbn [negb repeated]. destruct v as [v|].
    + rewrite IH by done. rewrite decide_True by (apply assigned_spec; eauto).
      rewrite <-app_assoc. do 2 f_equal. apply given_other. intros w Hw. apply (get_elem _ _ _ Hnd) in Hw.
      rewrite Hg in Hw. injection Hw as <-. by eexists.
    + rewrite update_known by (done || (apply list_elem_of_fmap; by exists (n, None))).
      change (λ p, if name_eqb n p.1 then _ else p) with (give n e). rewrite IH, give_keys by by rewrite give_keys.
      rewrite decide_False.
      2: { rewrite assigned_spec. intros [w Hw]. apply (get_elem _ _ _ Hnd) in Hw. congruence. }
      f_equal; [f_equal; by apply given_give|]. f_equal. apply repeated_ext. intros k. by apply give_assigned.
  - apply get_None in Hg. assert (known m.*1 n = false) as -> by by apply bool_decide_eq_false.
    cbn [negb]. rewrite IH by done. rewrite <-app_assoc. do 2 f_equal. apply given_other.
    intros w Hw. exfalso. apply Hg, list_elem_of_fmap. by exists (n, w).
Qed.
End validate_lemmas.

Lemma filter_none {A} (f : A → bool) l : Forall (λ x, f x = false) l → List.filter f l = [].
Proof. induction 1 as [|x l Hx _ IH]; [done|]. cbn. by rewrite Hx. Qed.

Lemma filter_known (names l : list str) : (∀ n, n ∈ l → n ∈ names) → List.filter (known names) l = l.
Proof.
  induction l as [|n l IH]; intros Hin; [done|]. cbn. unfold known at 1.
  rewrite bool_decide_eq_true_2 by set_solver. f_equal. apply IH. set_solver.
Qed.

Lemma filter_unknown (names l : list str) :
  List.filter (λ n, negb (known names n)) l = [] ↔ ∀ n, n ∈ l → n ∈ names.
Proof.
  induction l as [|n l IH]; [set_solver|]. cbn. unfold known at 1. case_bool_decide; cbn.
  - rewrite IH. set_solver.
  - split; [done|set_solver].
Qed.

Lemma foldl_names {B} (l : list Dynamic) (f : B → str → B) b :
  foldl (λ m p, f m (name p)) b l = foldl f b (name <$> l).
Proof. revert b. induction l as [|p l IH]; intros b; [done|]. cbn. apply IH. Qed.

Section validate_spec.
Context {Ty E : Type}.
Implicit Types args : list (str * ArgExpr E).

Definition missing_names (names : list str) args : list str := List.filter (λ n, negb (known args.*1 n)) names.
Definition extra_names (names : list str) args : list str := List.filter (λ n, negb (known names n)) args.*1.
Definition duplicate_names (names : list str) args : list str := repeated [] (List.filter (known names) args.*1).

Definition route_params (path_params query_params : list (Param Ty)) : list Dynamic :=
  dynamic_path_params path_params ++ dynamic_query_params query_params.

(** What [validate] computes of named arguments. *)
Lemma validate_named path_params query_params args :
  let names := name <$> route_params path_params query_params in
  NoDup names → Forall (λ p, is_wild p = false) (route_params path_params query_params) →
  validate path_params query_params (ArgsNamed args) =
    if (length (extra_names names args) + length (duplicate_names names args) + length (missing_names names args) =? 0)%nat
    then VOk (omap (λ n, assoc_get name_eqb n args) names)
    else VNamed (missing_names names args) (extra_names names args) (duplicate_names names args).
Proof.
  intros names Hnd Hw. unfold validate. fold (route_params path_params query_params).
  rewrite (filter_none is_wild) by done. cbn [is_empty negb].
    change (foldl _ [] (route_params path_params query_params))
    with (foldl (λ m p, (λ m n, assoc_update name_eqb None n (λ _, None : option (ArgExpr E)) m) m (name p)) []
            (route_params path_params query_params)).
  rewrite foldl_names, insert_params_spec by done. fold names. cbn [app].
  assert (((λ n : str, (n, None : option (ArgExpr E))) <$> names).*1 = names) as Hn
    by (rewrite <-list_fmap_compose; apply list_fmap_id).
  rewrite assign_args_spec by by rewrite Hn. rewrite Hn. cbn [app].
  assert (assigned ((λ n : str, (n, None : option (ArgExpr E))) <$> names) = []) as ->
    by (unfold assigned; clear; by induction names).
  rewrite <-list_fmap_compose. unfold given, compose. cbn [fst snd].
  assert (omap snd ((λ n, (n, assoc_get name_eqb n args)) <$> names) = omap (λ n, assoc_get name_eqb n args) names) as ->
    by (clear; induction names as [|n l IH]; [done|]; cbn; by destruct (assoc_get name_eqb n args); rewrite IH).
  assert (omap (λ p : str * option (ArgExpr E), match p with (n, None) => Some n | _ => None end)
      ((λ n, (n, assoc_get name_eqb n args)) <$> names) = missing_names names args) as ->; [|done].
  clear. unfold missing_names. induction names as [|n l IH]; [done|]. cbn. unfold known.
  destruct (assoc_get name_eqb n args) as [e|] eqn:Hg; cbn; rewrite IH.
  - apply get_Some in Hg. rewrite bool_decide_eq_true_2; [done|]. apply list_elem_of_fmap. by exists (n, e).
  - apply get_None in Hg. by rewrite bool_decide_eq_false_2.
Qed.

Lemma missing_nil names args : missing_names names args = [] ↔ ∀ n, n ∈ names → n ∈ args.*1.
Proof. apply filter_unknown. Qed.

Lemma extra_nil names args : extra_names names args = [] ↔ ∀ n, n ∈ args.*1 → n ∈ names.
Proof. apply filter_unknown. Qed.

Lemma duplicate_nil names args :
  extra_names names args = [] → duplicate_names names args = [] ↔ NoDup args.*1.
Proof.
  intros Hx. unfold duplicate_names. rewrite repeated_nil, filter_known by by apply extra_nil. set_solver.
Qed.

(** The expressions, by name. *)
Lemma zip_given names args :
  NoDup args.*1 → (∀ n, n ∈ names → n ∈ args.*1) →
  let exprs := omap (λ n, assoc_get name_eqb n args) names in
  length exprs = length names ∧ zip names exprs = omap (λ n, (n,.) <$> assoc_get name_eqb n args) names.
Proof.
  intros Hnd. induction names as [|n names IH]; intros Hin; [done|]. cbn.
  destruct (assoc_get name_eqb n args) as [e|] eqn:Hg; cbn.
  - destruct IH as [Hl ->]; [intros; apply Hin; by right|]. by rewrite Hl.
  - apply get_None in Hg. exfalso. apply Hg, Hin. by left.
Qed.

Lemma given_zip names args exprs :
  NoDup args.*1 → length exprs = length names → (∀ p, p ∈ zip names exprs → p ∈ args) →
  omap (λ n, assoc_get name_eqb n args) names = exprs.
Proof.
  intros Hnd. revert exprs. induction names as [|n names IH]; intros [|e exprs] Hl Hin; try done. cbn.
  rewrite (get_elem n e) by (done || by apply Hin; left). f_equal. apply IH; [by injection Hl|].
  intros p Hp. apply Hin. by right.
Qed.

(** A permutation of the parameters with expressions is what is accepted. *)
Lemma accepted_named names args exprs :
  NoDup names →
  (missing_names names args = [] ∧ extra_names names args = [] ∧ duplicate_names names args = []) ∧
    exprs = omap (λ n, assoc_get name_eqb n args) names ↔
  length exprs = length names ∧ args ≡ₚ zip names exprs.
Proof.
  intros Hnd. split.
  - intros [(Hm & Hx & Hd) ->]. rewrite (duplicate_nil _ _ Hx) in Hd. rewrite missing_nil in Hm. rewrite extra_nil in Hx.
    destruct (zip_given names args Hd Hm) as [Hl Hz]. split; [done|]. rewrite Hz.
    apply NoDup_Permutation; [by apply (NoDup_fmap_1 fst)| |].
    + rewrite <-Hz. apply (NoDup_fmap_1 fst). by rewrite fst_zip by lia.
    + intros [n e]. rewrite list_elem_of_omap. setoid_rewrite fmap_Some. split.
      * intros Hin. exists n. split; [apply Hx, list_elem_of_fmap; by exists (n, e)|].
        exists e. split; [by apply get_elem|done].
      * intros (k & _ & e' & Hg & [= -> ->]). by apply get_Some.
  - intros [Hl Hp]. assert (args.*1 ≡ₚ names) as Hf by (rewrite Hp, fst_zip by lia; done).
    assert (extra_names names args = []) as Hx by (apply extra_nil; intros n; by rewrite Hf).
    assert (NoDup args.*1) as Hda by by rewrite Hf. split_and!; [|done|by apply duplicate_nil|].
    + apply missing_nil. intros n. by rewrite Hf.
    + symmetry. apply given_zip; [done..|]. intros p. by rewrite Hp.
Qed.

(** C31: What arguments [uri!] takes: named arguments are accepted exactly when
    they are the parameters of the route, each once and in any order, and their
    expressions are then put in the order of the parameters; otherwise the names
    that are missing, those the route does not have and those given again are
    reported, each in order.  Unnamed arguments are taken by their number. *)
Theorem validate_spec (path_params query_params : list (Param Ty)) :
  let names := name <$> route_params path_params query_params in
  NoDup names → Forall (λ p, is_wild p = false) (route_params path_params query_params) →
  (∀ args exprs, validate path_params query_params (ArgsNamed args) = VOk exprs ↔
    length exprs = length names ∧ args ≡ₚ zip names exprs) ∧
  (∀ args missing extra dup, validate path_params query_params (ArgsNamed args) = VNamed missing extra dup →
    missing = missing_names names args ∧ extra = extra_names names args ∧ dup = duplicate_names names args) ∧
  (∀ args : list (ArgExpr E), validate path_params query_params (ArgsUnnamed args) =
    if decide (length args = length names) then VOk args else VUnnamed (length names) (length args)).
Proof.
  intros names Hnd Hw. split_and!.
  - intros args exprs. rewrite validate_named by done. fold names. rewrite <-accepted_named by done.
    destruct (_ =? 0)%nat eqn:Hz.
    + apply Nat.eqb_eq in Hz.
      destruct (extra_names names args), (duplicate_names names args), (missing_names names args); cbn in Hz; try lia.
      split; [by intros [= <-]|by intros [_ ->]].
    + split; [done|]. intros [(Hm & Hx & Hd) _]. by rewrite Hm, Hx, Hd in Hz.
  - intros args missing extra dup. rewrite validate_named by done. fold names.
    destruct (_ =? 0)%nat; [done|]. by intros [= <- <- <-].
  - intros args. unfold validate. fold (route_params path_params query_params). unfold names. rewrite length_fmap.
    case_decide as Hl; [by rewrite Hl, Nat.eqb_refl|]. by rewrite (proj2 (Nat.eqb_neq _ _)).
Qed.
End validate_spec.

(** ** Expansion *)

Section expand.
Context {Ty E : Type} (path_display query_display : Ty → E → Fmt) (expr_display : E → Fmt).
Context `{PercentEncode}.

(** [explode_path]: the arguments the expansion writes, and the arguments of the
    handler that are left; [None] where an [expect] fails. *)
Fixpoint explode_path_params (params : list (Param Ty)) (exprs : list E) (args : list Ty)
  : option (list Fmt * list Ty) :=
  match params with
  | [] => Some ([], args)
  | PStatic name :: params =>
    '(fmts, args) ← explode_path_params params exprs args; Some (display_str KPath name :: fmts, args)
  | PIgnored _ :: params =>
    match exprs with
    | expr :: exprs =>
      '(fmts, args) ← explode_path_params params exprs args; Some (expr_display expr :: fmts, args)
    | [] => None
    end
  | _ :: params =>
    match args, exprs with
    | ty :: args, expr :: exprs =>
      '(fmts, args) ← explode_path_params params exprs args; Some (path_display ty expr :: fmts, args)
    | _, _ => None
    end
  end.

Definition explode_path (route_uri : Origin) (path_params : list (Param Ty)) (exprs : list E) (args : list Ty)
  : option (UriArgumentsKind (list Fmt) * list Ty) :=
  if (length (dynamic_path_params path_params) =? 0)%nat then Some (StaticArgs (path route_uri), args)
  else '(fmts, args) ← explode_path_params path_params exprs args; Some (DynamicArgs fmts, args).

(** [explode_query]. *)
Fixpoint explode_query_params (params : list (Param Ty)) (arg_exprs : list (ArgExpr E)) (args : list Ty)
  : option (list UriQueryArgument) :=
  match params with
  | [] => Some []
  | PStatic source :: params => cons (Raw source) <$> explode_query_params params arg_exprs args
  | PIgnored _ :: _ => None
  | PDynamic dynamic :: params | PGuard (Guard_from dynamic _ _) :: params =>
    match args, arg_exprs with
    | ty :: args, arg_expr :: arg_exprs =>
      rest ← explode_query_params params arg_exprs args;
      match as_expr arg_expr with
      | Some expr =>
        Some ((if trailing dynamic then Value (query_display ty expr)
               else NameValue (name dynamic) (query_display ty expr)) :: rest)
      | None => Some rest
      end
    | _, _ => None
    end
  end.

Definition explode_query (route_uri : Origin) (query_params : list (Param Ty)) (arg_exprs : list (ArgExpr E))
    (args : list Ty) : option (option (UriArgumentsKind (list UriQueryArgument))) :=
  match query route_uri with
  | None => Some None
  | Some query =>
    if (length (dynamic_query_params query_params) =? 0)%nat then Some (Some (StaticArgs query))
    else Some ∘ DynamicArgs <$> explode_query_params query_params arg_exprs args
  end.

(** [_uri_internal_macro] without prefix and suffix, and the builder that its
    expansion makes; [None] is a failed [expect]. *)
Definition uri_builder (route_uri : Origin) (path_params query_params : list (Param Ty)) (fn_args : list Ty)
    (args : Args E) : option (UriMacroError + RouteUriBuilder) :=
  match extract_exprs path_params query_params args with
  | inl e => Some (inl e)
  | inr (path_exprs, query_exprs) =>
    '(path, fn_args) ← explode_path route_uri path_params path_exprs fn_args;
    query ← explode_query route_uri query_params query_exprs fn_args;
    Some (inr (builder_new path query))
  end.
End expand.

(** ** Prefixes and suffixes *)

(** What [.render()] yields, by the types of prefix and suffix. *)
Inductive Rendered := ROrigin (o : Origin) | RAbsolute (a : Absolute) | RReference (r : Reference).

Inductive UriPrefix := PrefixOrigin (o : Origin) | PrefixAbsolute (a : Absolute).
Inductive UriSuffix := SuffixAbsolute (a : Absolute) | SuffixReference (r : Reference).

Section affixes.
Context `{StablePattern} `{Memchr} `{PercentEncoding} `{Pear} `{PearUri}.

(** [__builder #prefix #suffix .render()]. *)
Definition apply_prefix (prefix : option UriPrefix) (b : RouteUriBuilder) : Rendered :=
  match prefix with
  | None => ROrigin (builder_render b)
  | Some (PrefixOrigin o) => ROrigin (origin_append o (builder_path b) (builder_query b))
  | Some (PrefixAbsolute a) => RAbsolute (absolute_append a (builder_path b) (builder_query b))
  end.

Definition apply_suffix (suffix : option UriSuffix) (u : Rendered) : Rendered :=
  match suffix, u with
  | Some (SuffixAbsolute s), ROrigin o => ROrigin (absolute_prepend_origin s o)
  | Some (SuffixAbsolute s), RAbsolute a => RAbsolute (absolute_prepend_absolute s a)
  | Some (SuffixReference s), ROrigin o => RReference (reference_prepend_origin s o)
  | Some (SuffixReference s), RAbsolute a => RReference (reference_prepend_absolute s a)
  | _, u => u
  end.

(** [UriExpr::parse_prefix] and [parse_suffix], of a literal. *)
Definition parse_prefix (lit : str) : option UriPrefix :=
  match Origin_parse lit with
  | Some o => if bool_decide (Uri.query o = None) then Some (PrefixOrigin o) else None
  | None =>
    a ← absolute_from_str lit;
    if bool_decide (abs_query a = None) then Some (PrefixAbsolute a) else None
  end.

Definition parse_suffix (lit : str) : option UriSuffix :=
  uri ← reference_from_str lit;
  if bool_decide (ref_scheme uri ≠ None) || bool_decide (ref_authority uri ≠ None) || negb (is_empty (ref_path uri))
  then None
  else
    match fragment uri with
    | None => Some (SuffixAbsolute (Absolute_new [] None [] (ref_query uri)))
    | Some _ => Some (SuffixReference uri)
    end.
End affixes.

(** ** Paths with their last segment *)

Section path_ends.
Context `{StablePatternLaws} `{Memchr} `{PercentEncodingLaws} `{PearLaws}.

Definition decode_segment (s : str) : str := cow_value (percent_decode_lossy s).

(** Unless the last segment is empty, the segments are the decoded words. *)
Lemma decoded_words p :
  last (path_raw_segments p) ≠ Some [] → path_segments p = decode_segment <$> words p.
Proof.
  destruct (raw_segments_snoc p) as (ws & w & Hw). unfold path_segments, words.
  rewrite Hw, last_snoc, decode_segments_snoc, filter_app_list, fmap_app. intros Hne. f_equal.
  cbn [List.filter]. rewrite (proj2 (nonempty_true w)); [done|congruence].
Qed.

Lemma last_raw_segment p :
  (∃ t, p = slash :: t) → Forall (λ c, graphic c = true) p →
  (1 <? length p)%nat && ends_with [slash] p = false → words p ≠ [] →
  last (path_raw_segments p) ≠ Some [].
Proof.
  intros [t ->] Hg He Hw. destruct (raw_segments_snoc (slash :: t)) as (ws & w & Hs).
  rewrite Hs, last_snoc. intros [= ->]. unfold words in Hw. rewrite Hs in Hw.
  pose proof (trim_ends_with_slash (slash :: t) ws [] Hs Hw) as Ht.
  rewrite trim_all_graphic in Ht by done. cbn [is_empty] in Ht. congruence.
Qed.

(** A normalized path has no empty segment but the last. *)
Lemma raw_segments_words p :
  path_is_normalized true p = true → last (path_raw_segments p) ≠ Some [] → path_raw_segments p = words p.
Proof.
  intros Hn Hl. destruct (raw_segments_snoc p) as (ws & w & Hw). rewrite (is_normalized_snoc _ _ _ Hw) in Hn.
  apply andb_true_iff in Hn as [_ Hn]. unfold words. rewrite Hw, last_snoc in *.
  symmetry. apply filter_nonempty_id, Forall_app. split; [|repeat constructor; congruence].
  apply Forall_forall. intros v Hv. rewrite forallb_forall in Hn. apply nonempty_true, Hn. by apply list_elem_of_In.
Qed.

(** Bytes of a mounted path are bytes of the base and of the route. *)
Lemma try_new_bytes bs us r (P : ascii → Prop) :
  try_new bs us = Some r → P slash →
  Forall P (path (Route.base r)) → Forall P (path (unmounted_origin r)) → Forall P (path (uri r)).
Proof.
  intros Hr Hs. unfold try_new in Hr.
  apply bind_Some in Hr as (b' & Hb & (o & Ho & (w & Hw & [= <-])%bind_Some)%bind_Some).
  cbn [Route.base unmounted_origin uri]. intros HPb HPo.
  destruct (base_normalized _ _ Hb) as (tb & Htb & Hpb & _).
  destruct (route_normalized _ _ Ho) as (t & Ht & Hqt & _).
  assert ("?"%char ∉ tb) as Hqb by (inversion Hpb; by apply pchars_no_question).
  rewrite (combined_parses (clear_query b') o tb t Htb Hqb eq_refl Ht Hqt) in Hw.
  apply fmap_Some in Hw as (w' & [= <-] & ->).
  apply Forall_forall. intros d Hd. destruct (decide (d = slash)) as [->|Hds]; [done|].
  set (o' := Origin_new _ _) in Hd.
  assert (∃ u, path o' = slash :: u) as [u Hu].
  { unfold o'. cbn [path]. destruct (_ && _); cbn [clear_query set_query path]; rewrite Htb; by eexists. }
  destruct (decide (d ∈ path o')) as [Hin|Hnin]; [|by apply (normalize_no_byte d o' u) in Hnin].
  unfold o' in Hin. cbn [path] in Hin. rewrite Forall_forall in HPb, HPo.
  destruct (_ && _); [by apply HPb|]. apply elem_of_app in Hin as [?|?]; [by apply HPb|by apply HPo].
Qed.
End path_ends.

(** ** URIs match the routes they are made for *)

(** The segment that a parameter of the path stands for. *)
Definition param_segment {Ty} (p : Param Ty) : Segment :=
  match p with
  | PStatic s => Segment_new s false false
  | PIgnored d | PDynamic d => Segment_new (name d) true (trailing d)
  | PGuard g => Segment_new (name (source g)) true (trailing (source g))
  end.

(** What fills a parameter: a static one stands for itself, a dynamic one for a
    segment, or, at the end and if it is trailing, for at least one. *)
Definition fills {Ty} (at_end : bool) (p : Param Ty) (vs : list str) : Prop :=
  Forall (λ v, v ≠ [] ∧ is_utf8 v = true) vs ∧
  match p with
  | PStatic s => vs = [s]
  | _ => length vs = 1 ∨ (at_end = true ∧ dynamic_trail (param_segment p) = true ∧ vs ≠ [])
  end.

(** All parameters but the last are filled by one segment. *)
Fixpoint fit {Ty} (params : list (Param Ty)) (vss : list (list str)) : Prop :=
  match params, vss with
  | [], [] => True
  | p :: params, vs :: vss => fills (is_empty params) p vs ∧ fit params vss
  | _, _ => False
  end.

Section segments.
Context {Ty : Type} `{StablePatternLaws} `{Memchr} `{PercentEncoding} `{UnicodeXID}.
Implicit Types p : Param Ty.

Lemma parse_param_segment segment p :
  parse KPath segment = inl p → segment_from segment = param_segment p.
Proof.
  unfold parse, segment_from. autorewrite with crates. destruct (_ && _).
  - cbv zeta. destruct (ends_with _ _); (destruct (is_empty _); [done|]); (destruct (negb (is_valid_ident _)); [done|]);
      (destruct (_ && _); [done|]); destruct (is_wild _); by intros [= <-].
  - destruct (is_empty segment); [done|]. by intros [= <-].
Qed.

Lemma param_segment_index i p : param_segment (set_index i p) = param_segment p.
Proof. by destruct p. Qed.

Lemma parse_segments_params trailed i segments (params : list (Param Ty)) :
  parse_segments KPath trailed i segments = inl <$> params →
  segment_from <$> segments = param_segment <$> params.
Proof.
  revert trailed i params. induction segments as [|segment segments IH]; intros trailed i params; cbn [parse_segments].
  { by destruct params. }
  destruct params as [|q params]; [by destruct trailed, (parse (Ty:=Ty) KPath segment)|]. cbn [fmap list_fmap].
  destruct trailed; [discriminate|]. destruct (parse KPath segment) as [p|e] eqn:Hp; [|discriminate].
  intros [= <- Hps]. rewrite param_segment_index, (parse_param_segment _ _ Hp). f_equal. by apply IH in Hps.
Qed.

(** A base segment without a parameter stands for itself. *)
Lemma segment_from_static w :
  Forall (λ c, is_pchar c = true) w → segment_from w = Segment_new w false false.
Proof.
  intros Hw. unfold segment_from. autorewrite with crates.
  destruct (starts_with #"<" w) eqn:Hs; [|done]. apply starts_with_spec in Hs as [t ->].
  inversion_clear Hw as [|?? Hc _]. discriminate Hc.
Qed.

Lemma match_loop_static (ws : list str) segs vs :
  paths_match_loop (((λ w, Segment_new w false false) <$> ws) ++ segs) (ws ++ vs) = paths_match_loop segs vs.
Proof.
  induction ws as [|w ws IH]; [done|]. cbn [fmap list_fmap app paths_match_loop dynamic_trail Route.dynamic Route.value].
  by rewrite bool_decide_eq_true_2.
Qed.

Lemma match_loop_fit (params : list (Param Ty)) vss :
  fit params vss → paths_match_loop (param_segment <$> params) (concat vss) ≠ Some false.
Proof.
  revert vss. induction params as [|p params IH]; intros [|vs vss]; cbn [fit]; try done.
  intros [[_ Hp] Hf]. cbn [fmap list_fmap concat].
  destruct p as [s|d|d|g]; cbn [param_segment dynamic_trail] in Hp |- *.
  1: { subst vs. cbn [app paths_match_loop dynamic_trail Route.dynamic Route.value].
       rewrite bool_decide_eq_true_2 by done. by apply IH. }
  all: (destruct Hp as [Hl|(_ & Ht & Hne)];
    [destruct vs as [|v [|??]]; try discriminate Hl|destruct vs as [|v vs]; [done|]]);
    cbn [app paths_match_loop dynamic_trail Route.dynamic];
    [case_match; [done|by apply IH]|by rewrite Ht].
Qed.

(** The number of segments. *)
Lemma fit_length (params : list (Param Ty)) vss :
  fit params vss →
  length params ≤ length (concat vss) ∧
  (length params < length (concat vss) →
   from_option dynamic_trail false (last (param_segment <$> params)) = true).
Proof.
  revert vss. induction params as [|p params IH]; intros [|vs vss]; cbn [fit]; try done; [cbn; lia|].
  intros [[_ Hp] Hf]. destruct (IH _ Hf) as [Hle Hlt]. cbn [concat length]. rewrite length_app.
  assert (length vs = 1 ∨ params = [] ∧ dynamic_trail (param_segment p) = true ∧ vs ≠ []) as [Hl|(-> & Ht & Hne)].
  { destruct p; [subst; by left|..]; (destruct Hp as [?|(He%is_empty_true & ?)]; [by left|by right]). }
  - split; [lia|]. intros Hlen. destruct params as [|q params].
    { destruct vss; [cbn in Hlen; lia|done]. }
    cbn [fmap list_fmap]. cbn [last]. apply Hlt. cbn [length] in *. lia.
  - destruct vss; [|done]. destruct vs as [|v vs]; [done|]. cbn. split; [lia|done].
Qed.
End segments.

(** Segments as items without names. *)
Definition segment_items (vs : list str) : list Item := (λ v, ([], v)) <$> vs.

(** What the values given to the parameters of a path show. *)
Section path_values.
Context {Ty E : Type} (path_display : Ty → E → Fmt) (expr_display : E → Fmt).
Context (path_items : Ty → E → list str) (expr_items : E → list str).

Definition shows_path (m : Fmt) (vs : list str) : Prop := Shows KPath m (encoded_items (segment_items vs)).

Fixpoint path_values (params : list (Param Ty)) (exprs : list E) (args : list Ty) : list (list str) :=
  match params with
  | [] => []
  | PStatic s :: params => [s] :: path_values params exprs args
  | PIgnored _ :: params =>
    match exprs with
    | expr :: exprs => expr_items expr :: path_values params exprs args
    | [] => []
    end
  | _ :: params =>
    match args, exprs with
    | ty :: args, expr :: exprs => path_items ty expr :: path_values params exprs args
    | _, _ => []
    end
  end.

Context `{PercentEncodeLaws}.
Hypothesis path_shows : ∀ ty e, shows_path (path_display ty e) (path_items ty e).
Hypothesis expr_shows : ∀ e, shows_path (expr_display e) (expr_items e).

Lemma explode_path_shows params exprs args fmts rest :
  explode_path_params path_display expr_display params exprs args = Some (fmts, rest) →
  Forall2 (λ m l, Shows KPath m (encoded_items l)) fmts (segment_items <$> path_values params exprs args).
Proof.
  revert exprs args fmts. induction params as [|p params IH]; intros exprs args fmts; [intros [= <- <-]; constructor|].
  cbn [explode_path_params path_values]. destruct p as [s|d|d|g].
  - intros ([fs rs] & Hfs & [= <- <-])%bind_Some. constructor; [|by apply IH].
    unfold display_str. rewrite percent_encode_encoded. apply shows_raw.
  - destruct exprs as [|e exprs]; [done|]. intros ([fs rs] & Hfs & [= <- <-])%bind_Some.
    constructor; [apply expr_shows|by apply IH].
  - destruct args as [|ty args], exprs as [|e exprs]; try done. intros ([fs rs] & Hfs & [= <- <-])%bind_Some.
    constructor; [apply path_shows|by apply IH].
  - destruct args as [|ty args], exprs as [|e exprs]; try done. intros ([fs rs] & Hfs & [= <- <-])%bind_Some.
    constructor; [apply path_shows|by apply IH].
Qed.
End path_values.

Lemma concat_items (vss : list (list str)) :
  snd <$> concat (segment_items <$> vss) = concat vss.
Proof.
  induction vss as [|vs vss IH]; [done|]. cbn. rewrite fmap_app, IH. unfold segment_items. rewrite <-list_fmap_compose. f_equal. apply list_fmap_id.
Qed.

Lemma fit_valid {Ty} (params : list (Param Ty)) vss :
  fit params vss → Forall (λ v, v ≠ [] ∧ is_utf8 v = true) (concat vss).
Proof.
  revert vss. induction params as [|p params IH]; intros [|vs vss]; cbn [fit]; try done.
  intros [[Hv _] Hf]. cbn. apply Forall_app. auto.
Qed.

Section matching.
Context {U : Uncased} {P : Pear} {PC : PearCombinators} {IM : IndexMap str (list str) uncased_eq}.
Context {SP : StablePattern} {SPL : StablePatternLaws} {M : Memchr} {ML : MemchrLaws}.
Context {PE : PercentEncoding} {PEL : PercentEncodingLaws} {PL : PearLaws}.
Context {PN : PercentEncode} {PNL : PercentEncodeLaws} {PU : PearUri} {XID : UnicodeXID}.
Context {Handler Ty E : Type} (path_display : Ty → E → Fmt) (expr_display : E → Fmt).
Context (path_items : Ty → E → list str) (expr_items : E → list str).

(** Bases that no decoding changes. *)
Definition plain_base (b : Origin) : Prop := Forall (λ c, is_ascii c = true ∧ c ≠ "%"%char) (path b).

Lemma decode_segment_plain w : Forall (λ c, is_ascii c = true ∧ c ≠ "%"%char) w → decode_segment w = w.
Proof.
  intros Hw. unfold decode_segment, percent_decode_lossy. destruct w as [|c w]; [done|].
  cbn [is_empty]. apply percent_decode_plain.
  - eapply Forall_impl; [exact Hw|]. by intros d [? _].
  - intros Hin. rewrite Forall_forall in Hw. by destruct (Hw _ Hin).
Qed.

Lemma words_bytes (Q : ascii → Prop) t :
  Forall (λ c, graphic c = true) t → Forall Q t → Forall (Forall Q) (words (slash :: t)).
Proof. intros Hg Ht. apply Forall_filter_list. by apply raw_segments_bytes. Qed.

(** The words of what the builder writes, and where its path ends. *)
Lemma built_words (values : list str) :
  values ≠ [] → Forall (λ s, s ≠ [] ∧ is_utf8 s = true) values →
  let p := slash :: join slash (encoded <$> values) in
  decode_segment <$> words p = values ∧ last (path_raw_segments p) ≠ Some [].
Proof.
  intros Hne Hv p. assert (path_raw_segments p = encoded <$> values) as Hr.
  { unfold p. rewrite raw_segments_slash. 
    assert (Forall (λ w, (slash ∉ w) ∧ w ≠ [] ∧ Forall (λ c, graphic c = true) w) (encoded <$> values)) as Hw by by apply encoded_words.
    rewrite trim_end_join_words by (done || by intros ?%fmap_nil_inv).
    apply split_join; [by intros ?%fmap_nil_inv|]. eapply Forall_impl; [exact Hw|naive_solver]. }
  pose proof (path_segments_encoded values Hne Hv) as Hs. fold p in Hs.
  assert (last (path_raw_segments p) ≠ Some []) as Hl.
  { rewrite Hr. destruct values as [|v vs _] using rev_ind; [done|]. rewrite fmap_app. cbn [fmap list_fmap].
    rewrite last_snoc. intros [= He]. apply Forall_app in Hv as [_ Hv]. inversion_clear Hv as [|?? [Hn _]].
    by apply encoded_nonempty in Hn. }
  split; [|done]. rewrite <-Hs. by rewrite decoded_words.
Qed.

Lemma append_suffix b t q : t ≠ [] → ∃ u, path (origin_append b (slash :: t) q) = u ++ t.
Proof.
  intros Ht. unfold origin_append. set (prefix := clear_query _).
  destruct (bool_decide (path prefix = _)); [by exists [slash]|].
  rewrite (bool_decide_eq_false_2 (slash :: t = [slash])) by congruence.
  destruct (_ && _); cbn [path drop]; [by eexists|].
  exists (path prefix ++ [slash]). by rewrite <-app_assoc.
Qed.

(** No built path ends with a slash. *)
Lemma built_end (values : list str) u :
  values ≠ [] → Forall (λ s, s ≠ [] ∧ is_utf8 s = true) values →
  ends_with [slash] (u ++ join slash (encoded <$> values)) = false.
Proof.
  intros Hne Hv. destruct values as [|v vs _] using rev_ind; [done|].
  pose proof (encoded_words _ Hv) as Hw. rewrite fmap_app in *. cbn [fmap list_fmap] in *.
  apply Forall_app in Hw as [_ Hw]. inversion_clear Hw as [|?? (Hs & Hn & _) _].
  destruct (exists_last Hn) as (w & c & Hc). rewrite Hc in *.
  assert (∃ u', u ++ join slash ((encoded <$> vs) ++ [w ++ [c]]) = u' ++ [c]) as [u' ->].
  { destruct (decide (encoded <$> vs = [])) as [->|Hvs]; [exists (u ++ w); by rewrite <-app_assoc|].
    rewrite join_snoc by done. exists (u ++ join slash (encoded <$> vs) ++ slash :: w). by rewrite <-!app_assoc. }
  rewrite ends_with_snoc. apply bool_decide_eq_false. set_solver.
Qed.

Lemma join_encoded_nonempty (values : list str) :
  values ≠ [] → Forall (λ s, s ≠ [] ∧ is_utf8 s = true) values → join slash (encoded <$> values) ≠ [].
Proof.
  intros Hne Hv He. destruct values as [|v [|v' vs]]; [done| |].
  - inversion_clear Hv as [|?? [Hn _]]. by apply encoded_nonempty in Hn.
  - cbn [fmap list_fmap] in He. rewrite join_cons in He by done. by apply app_eq_nil in He as [_ ?].
Qed.

(** The segments of a URI built after a base. *)
Lemma appended_segments b values q :
  Origin_valid b → plain_base b → values ≠ [] → Forall (λ s, s ≠ [] ∧ is_utf8 s = true) values →
  origin_segments (origin_append b (slash :: join slash (encoded <$> values)) q) =
    words (path (into_normalized b)) ++ values.
Proof.
  intros Hb Hpl Hne Hv. set (t := join slash (encoded <$> values)).
  destruct (built_words values Hne Hv) as [Hw Hl]. fold t in Hw, Hl.
  pose proof (encoded_pchars values) as Hp. fold t in Hp.
  destruct (append_words b t q Hb Hp) as (Ha & _ & Hs & Hpc).
  unfold origin_segments. rewrite decoded_words.
  - rewrite Ha, fmap_app, Hw, words_normalize. f_equal.
    destruct Hb as (Hst & Hpb & _). apply starts_with_slash in Hst as [u Hu]. cbn [fst] in Hu, Hpb.
    unfold plain_base in Hpl. rewrite Hu in *. inversion_clear Hpl as [|?? _ Hpl'].
    inversion_clear Hpb as [|?? _ Hpb']. apply words_bytes in Hpl'; [|by apply pchars_graphic]. rewrite <-(list_fmap_id (words _)) at 2. apply list_fmap_ext.
    intros i w Hi%list_elem_of_lookup_2. rewrite Forall_forall in Hpl'. by apply decode_segment_plain, Hpl'.
  - apply last_raw_segment.
    + by apply starts_with_slash.
    + by apply pchars_graphic.
    + destruct (append_suffix b t q (join_encoded_nonempty values Hne Hv)) as [u ->].
      unfold t. by rewrite built_end, andb_false_r.
    + rewrite Ha. intros [_ He]%app_eq_nil. rewrite He in Hw. by destruct values.
Qed.

Lemma try_new_uri bs us r :
  try_new bs us = Some r →
  path_is_normalized true (path (uri r)) = true ∧
  metadata_dynamic_trail (metadata r) = from_option dynamic_trail false (last (uri_segments (metadata r))).
Proof.
  intros Hr. unfold try_new in Hr.
  apply bind_Some in Hr as (b' & _ & (o & _ & (w & Hw & [= <-])%bind_Some)%bind_Some). cbn [uri metadata].
  apply fmap_Some in Hw as (w' & _ & ->). split; [apply normalize_path_normalized|].
  cbn [metadata_dynamic_trail uri_segments Metadata_from]. by destruct (last _).
Qed.

(** The route's segments: those of the base, then its parameters. *)
Lemma route_segments bs us b r (params : list (Param Ty)) :
  try_new bs us = Some r → Origin_parse bs = Some b →
  Forall (λ c, graphic c = true) (path (unmounted_origin r)) → has_trailing_slash (uri r) = false →
  parse_many KPath (path (unmounted_origin r)) = inl <$> params → params ≠ [] →
  uri_segments (metadata r) =
    ((λ w, Segment_new w false false) <$> words (path (into_normalized b))) ++ (param_segment <$> params).
Proof.
  intros Hr Hb Hg Ht Hps Hne. destruct (try_new_words bs us r Hr) as (Hw & -> & _).
  cbn [uri_segments Metadata_from].
  assert (Route.base r = clear_query (into_normalized b)) as Hbase.
  { unfold try_new in Hr. rewrite Hb in Hr.
    by apply bind_Some in Hr as (b' & [= <-] & (o & Ho & (w & _ & [= <-])%bind_Some)%bind_Some). }
  destruct (base_normalized bs (into_normalized b)) as (tb & Htb & Hpb & _); [by rewrite Hb|].
  assert (∃ t, path (unmounted_origin r) = slash :: t) as [t Hto].
  { unfold try_new in Hr. apply bind_Some in Hr as (b' & _ & (o & Ho & (w & _ & [= <-])%bind_Some)%bind_Some).
    destruct (route_normalized _ _ Ho) as (t & ? & _). by exists t. }
  pose proof (try_new_bytes bs us r (λ c, graphic c = true) Hr graphic_slash) as Hgr.
  rewrite Hbase in Hgr, Hw. cbn [clear_query set_query path] in Hgr, Hw. rewrite Htb in Hgr, Hw.
  specialize (Hgr (pchars_graphic _ Hpb) Hg). rewrite Hto in *.
  inversion Hg as [|?? _ Hgt]. subst. unfold parse_many in Hps.
  apply parse_segments_params in Hps. rewrite (words_graphic t Hgt) in Hw.
  change (segment_from <$> List.filter nonempty (split_on slash t) = param_segment <$> params) in Hps.
  assert (path_raw_segments (path (uri r)) = words (path (uri r))) as ->.
  { destruct (try_new_uri _ _ _ Hr) as [Hnu _]. apply raw_segments_words; [done|]. apply last_raw_segment.
    - by apply normalized_path_slash.
    - done.
    - unfold has_trailing_slash in Ht. by rewrite sp_is_suffix_of_spec in Ht.
    - rewrite Hw. intros [_ He]%app_eq_nil. rewrite He in Hps. by destruct params. }
  rewrite Hw, fmap_app, Htb, Hps. f_equal. apply list_fmap_ext. intros i w Hi%list_elem_of_lookup_2.
  inversion_clear Hpb as [|?? _ Hpt]. pose proof (words_bytes _ tb (pchars_graphic _ Hpt) Hpt) as Hf.
  rewrite Forall_forall in Hf. by apply segment_from_static, Hf.
Qed.

End matching.

(** ** Concrete calls *)

Module UriMacroReference.
Import Crates.Reference UriTables.PearReference UriForms.PearUriReference MediaParse.PearCombinatorsReference HeaderReference.
Import UriFmtReference CodegenReference.

(** Expressions that are the segments they show. *)
Definition segments_fmt (l : list str) : Fmt := try_for_each (λ s, write_value (display_str KPath s)) l.

Lemma segments_fmt_shows l : shows_path (segments_fmt l) l.
Proof.
  unfold shows_path, segments_fmt. apply shown_shows.
  replace (encoded_items (segment_items l)) with (concat ((λ s : str, [([], encoded s) : Item]) <$> l)).
  - apply (shown_each KPath _ (λ s : str, [([], encoded s) : Item])). intros s _. apply shown_value.
    unfold display_str. rewrite percent_encode_encoded. apply shows_raw.
  - unfold encoded_items, segment_items. induction l as [|s l IH]; [done|]. cbn. by rewrite IH.
Qed.

(** A route at a base; a request; a call [uri!(base, route(exprs))]. *)
Definition route_at (base uri : str) : option (Route.Route unit) :=
  rt ← Route_new (Some Method.Get) uri tt; u ← try_new base uri; Some (with_uri u rt).

Definition request_to (o : Origin) : Request header_index := request_new false None Method.Get o.

Definition params_of (o : Origin) : list (Param unit) :=
  omap (λ p, match p with inl p => Some p | inr _ => None end) (parse_many KPath (path o)).

Definition call (base : Origin) (route_uri : str) (exprs : list (list str)) : option Origin :=
  o ← into_normalized <$> parse_route route_uri;
  '(p, _) ← explode_path (λ _, segments_fmt) segments_fmt o (params_of o) exprs (replicate (length exprs) tt);
  match apply_prefix (Some (PrefixOrigin base)) (builder_new p None) with ROrigin o => Some o | _ => None end.

Definition call_matches (base route_uri : str) (exprs : list (list str)) : option bool :=
  b ← Origin_parse base; rt ← route_at base route_uri; o ← call b route_uri exprs;
  Some (paths_match rt (request_to o)).

Example calls_match :
  call_matches #"/app" #"/user/<id>" [[ #"a/b"]] = Some true ∧
  call_matches #"/app/" #"/<_>/x/<p..>" [[ #"a"]; [ #"b"; #"50%"]] = Some true.
Proof. by vm_compute. Qed.

(** The URI made for a route with a parameter and a trailing slash lacks the
    slash, and is not matched by the route; nor is that of a trailing parameter
    that shows nothing, or that of a base with an encoded byte. *)
Lemma call_drops_trailing_slash :
  call (Origin_new #"/" None) #"/a/<b>/" [[ #"v"]] = Some (Origin_new #"/a/v" None) ∧
  call_matches #"/" #"/a/<b>/" [[ #"v"]] = Some false ∧
  call_matches #"/" #"/a/<p..>" [[]] = Some false ∧
  call_matches #"/a%20b" #"/<c>" [[ #"v"]] = Some false.
Proof. by vm_compute. Qed.

Example validate_witness :
  let path : list (Param unit) := params_of (Origin_new #"/<id>/x/<name>" None) in
  validate path [] (ArgsNamed [(#"name", Expr 1); (#"id", Expr 2)]) = VOk [Expr 2; Expr 1].
Proof.
  intros path. destruct (validate_spec (E := nat) path []) as (Hok & _).
  - apply (bool_decide_unpack _). by vm_compute.
  - apply (bool_decide_unpack _). by vm_compute.
  - apply Hok. split; [reflexivity|]. exact (Permutation_swap (#"id", Expr 2) (#"name", Expr 1) []).
Defined.

End UriMacroReference.
