(* ===== verification/Server.v ===== *)
(** * Server: from a connection's request to the response sent
    (core/lib/src/server.rs, core/lib/src/request/request.rs [from_hyp],
    core/lib/src/request/from_request.rs)

    What hyper hands over, the parsed head of a request, is a record; the
    request made of it has the fields [Request] leaves out.  The [secure] flag
    of the cookie jar is kept in [Request] while headers are added and written
    back at the end, for it is one cell.  [from_request] of the types of the
    library are the functions [.._guard].  A response handed back is the calls
    of the builder, which fails when it gets a name or a value that is no
    header. *)

From S2P Require Import Prelude Crates RawStr Header Method MediaType UriTables MediaParse.
From S2P Require Import Uri UriForms Route Catcher Request Router FormName FormParser Data Cookies.
From S2P Require Import Response Status Outcome Lifecycle FormError FromForm Params Generated Endpoint.

(** [http::Version], [HttpVersion]. *)
Inductive Version := HTTP_09 | HTTP_10 | HTTP_11 | HTTP_2 | HTTP_3.
Inductive HttpVersion := Http09 | Http10 | Http11 | Http2 | Http3.

Definition http_version (v : Version) : HttpVersion :=
  match v with
  | HTTP_09 => Http09
  | HTTP_10 => Http10
  | HTTP_11 => Http11
  | HTTP_2 => Http2
  | HTTP_3 => Http3
  end.

(** [version < HTTP_2]. *)
Definition before_http2 (v : Version) : bool :=
  match v with HTTP_09 | HTTP_10 | HTTP_11 => true | _ => false end.

(** [http::request::Parts]: the method, the parts of the URI that are read and
    the headers as they are iterated. *)
Record Parts := mkParts {
  parts_method : str;
  path_and_query : option (str * option str);
  uri_host : option str;
  port_u16 : option Z;
  parts_version : Version;
  parts_headers : list Header;
}.

(** [http::HeaderMap::get_all] and [get]: names have no case. *)
Definition parts_get_all `{Uncased} (name : str) (parts : Parts) : list str :=
  header_value <$> List.filter (λ h, uncased_eq (header_name h) name) (parts_headers parts).
Definition parts_get `{Uncased} (name : str) (parts : Parts) : option str := head (parts_get_all name parts).

(** [cookie::Cookie::parse_encoded]; [http::response::Builder]: what it takes
    for the name and the value of a header. *)
Class CookieParse `{CookieCrate} := { parse_cookie : str → option cookie }.
Class HttpBuilder := { http_header_ok : str → str → bool }.

(** [enum RequestError], [struct ConnectionMeta]. *)
Inductive RequestError := InvalidUri | BadMethod (method : str).

Record ConnectionMeta `{NetAddrs} (TlsConfig Certificates : Type) := mkConnectionMeta {
  peer_endpoint : option (Endpoint TlsConfig);
  peer_certs : option Certificates;
  server_name : option str;
}.
Arguments mkConnectionMeta {_ _ _}.
Arguments peer_endpoint {_ _ _}.
Arguments peer_certs {_ _ _}.
Arguments server_name {_ _ _}.

(** [ConnectionMeta::new] and its default. *)
Definition connection_new `{NetAddrs} {TlsConfig Certificates E} (endpoint : Endpoint TlsConfig + E)
    (certs : option Certificates) (name : option str) : ConnectionMeta TlsConfig Certificates :=
  mkConnectionMeta match endpoint with inl e => Some e | inr _ => None end certs name.
Definition connection_default `{NetAddrs} {TlsConfig Certificates} : ConnectionMeta TlsConfig Certificates :=
  mkConnectionMeta None None None.

(** [state::TypeMap]: a value for a type is set once. *)
Class TypeMaps (V : Type) := {
  TypeMap : Type;
  try_get : nat → TypeMap → option V;
  type_map_set : nat → V → TypeMap → bool * TypeMap;
}.
Arguments TypeMap V {_}.

Class TypeMapsLaws (V : Type) `{TypeMaps V} : Prop := {
  try_get_set t t' v m :
    try_get t (type_map_set t' v m).2 = if decide (t = t') then Some (default v (try_get t m)) else try_get t m;
}.

(** [Request::local_cache] and [local_cache_async], in what happens before the
    future is awaited and after it; [None] is the panic of [get]. *)
Section local_cache.
Context {V : Type} `{TypeMaps V}.

Definition local_cache (t : nat) (f : unit → V) (cache : TypeMap V) : option (V * TypeMap V) :=
  match try_get t cache with
  | Some v => Some (v, cache)
  | None => let cache := (type_map_set t (f tt) cache).2 in v ← try_get t cache; Some (v, cache)
  end.

Definition local_cache_async (t : nat) (cache : TypeMap V) : option V := try_get t cache.

Definition local_cache_awaited (t : nat) (v : V) (cache : TypeMap V) : option (V * TypeMap V) :=
  let cache := (type_map_set t v cache).2 in v ← try_get t cache; Some (v, cache).

(** Whatever is cached in between, all callers get the same value. *)
Lemma local_cache_once `{!TypeMapsLaws V} t f v cache :
  (∃ w c, local_cache t f cache = Some (w, c) ∧ try_get t c = Some w ∧ (try_get t cache = Some v → w = v)) ∧
  (∃ w c, local_cache_awaited t (f tt) cache = Some (w, c) ∧ try_get t c = Some w ∧ (try_get t cache = Some v → w = v)).
Proof.
  unfold local_cache, local_cache_awaited. pose proof (try_get_set t t (f tt) cache) as Hs. rewrite decide_True in Hs by done. split.
  - destruct (try_get t cache) as [w|] eqn:Hg; simpl in *.
    + exists w, cache. split_and!; [done..|congruence].
    + rewrite Hs. simpl. by do 2 eexists.
  - rewrite Hs. simpl. do 2 eexists. split; [done|]. split; [done|]. by intros ->.
Qed.
End local_cache.

Section server.
Context {U : Uncased} {P : Pear} {PC : PearCombinators} {IM : IndexMap str (list str) uncased_eq}.
Context {SP : StablePattern} {M : Memchr} {PE : PercentEncoding} {CC : CookieCrate} {CP : CookieParse} {PU : PearUri}.
Context {NA : NetAddrs} {TlsConfig Certificates : Type} {IoHandler : Type}.

(** The fields of the configuration and the endpoints the request refers to
    through its [Rocket]. *)
Record Setting := mkSetting {
  ip_header : option str;
  setting_proxy_proto_header : option str;
  endpoints : list (Endpoint TlsConfig);
}.

(** [struct Request], whole. *)
Record Incoming := mkIncoming {
  inner : Request IM;
  cookies : CookieJar;
  host : option Host;
  version : option HttpVersion;
  errors : list RequestError;
  connection : ConnectionMeta TlsConfig Certificates;
}.

(** [CookieJar::new] and [Request::new] for an instance. *)
Definition jar_for (rocket : Setting) : CookieJar := jar_init None (forallb is_tls (endpoints rocket)).

Definition incoming_new (rocket : Setting) (method : Method) (uri : Origin) (version : option HttpVersion) : Incoming :=
  mkIncoming (request_new (jar_secure (jar_for rocket)) (setting_proxy_proto_header rocket) method uri)
    (jar_for rocket) None version [] connection_default.

(** [Request::set_host], [set_remote], [remote]. *)
Definition set_host (host : Host) (self : Incoming) : Incoming :=
  mkIncoming (inner self) (cookies self) (Some host) (version self) (errors self) (connection self).

Definition set_remote (endpoint : Endpoint TlsConfig) (self : Incoming) : Incoming :=
  mkIncoming (inner self) (cookies self) (host self) (version self) (errors self)
    (mkConnectionMeta (Some endpoint) (peer_certs (connection self)) (server_name (connection self))).

Definition remote (self : Incoming) : option (Endpoint TlsConfig) := peer_endpoint (connection self).

(** [Request::real_ip], [client_ip]. *)
Definition real_ip (rocket : Setting) (self : Incoming) : option IpAddr :=
  ip_header ← ip_header rocket; get_one ip_header (req_headers (inner self)) ≫= parse_ip.

Definition client_ip (rocket : Setting) (self : Incoming) : option IpAddr :=
  match real_ip rocket self with
  | Some ip => Some ip
  | None => remote self ≫= ip
  end.

(** [Request::query_value]; [None] when a name has no end. *)
Fixpoint fields_named (name : str) (fields : list ValueField) : option (list ValueField) :=
  match fields with
  | [] => Some []
  | f :: fields =>
    same ← view_eq (field_name f) name;
    named ← fields_named name fields;
    Some (if same : bool then f :: named else named)
  end.

Definition query_value {D} (T : Type) `{FF : FromForm D T} (name : str) (self : Request IM) : option (option (Result T)) :=
  named ← fields_named name (query_fields self);
  Some (if is_empty named then None
        else Some (finalize T (foldl (λ ctxt f, push_value T (field_shift f) ctxt) (init T Lenient) named))).

(** ** [FromRequest] of the types of the library *)

(** [request::Outcome]. *)
Definition GuardOutcome (S E : Type) : Type := Outcome S (Status * E) Status.

Definition method_guard (request : Incoming) : GuardOutcome Method Empty_set := Success (req_method (inner request)).
Definition origin_guard (request : Incoming) : GuardOutcome Origin Empty_set := Success (req_uri (inner request)).
Definition host_guard (request : Incoming) : GuardOutcome Host Empty_set :=
  match host request with Some host => Success host | None => Forward Status.InternalServerError end.
Definition route_guard (request : Incoming) : GuardOutcome (Route unit) Empty_set :=
  match req_route (inner request) with Some route => Success route | None => Forward Status.InternalServerError end.
Definition cookies_guard (request : Incoming) : GuardOutcome CookieJar Empty_set := Success (cookies request).
Definition accept_guard (request : Incoming) : GuardOutcome Accept Empty_set :=
  match accept (inner request) with Some accept => Success accept | None => Forward Status.InternalServerError end.
Definition content_type_guard (request : Incoming) : GuardOutcome MediaType Empty_set :=
  match content_type (inner request) with Some ct => Success ct | None => Forward Status.InternalServerError end.
Definition ip_guard (rocket : Setting) (request : Incoming) : GuardOutcome IpAddr Empty_set :=
  match client_ip rocket request with Some addr => Success addr | None => Forward Status.InternalServerError end.
Definition proxy_proto_guard (request : Incoming) : GuardOutcome ProxyProto Empty_set :=
  Outcome.option_or_forward (proxy_proto (inner request)) Status.InternalServerError.
Definition endpoint_guard (request : Incoming) : GuardOutcome (Endpoint TlsConfig) Empty_set :=
  Outcome.option_or_forward (remote request) Status.InternalServerError.
Definition socket_addr_guard (request : Incoming) : GuardOutcome SocketAddr Empty_set :=
  Outcome.option_or_forward (remote request ≫= socket_addr) Status.InternalServerError.

(** [Result<T, T::Error>], [Option<T>], [Outcome<T, T::Error>]. *)
Definition result_guard {T E} (o : GuardOutcome T E) : GuardOutcome (T + E) Empty_set :=
  match o with
  | Success val => Success (inl val)
  | Outcome.Error (_, e) => Success (inr e)
  | Forward status => Forward status
  end.
Definition option_guard {T E} (o : GuardOutcome T E) : GuardOutcome (option T) Empty_set :=
  match o with
  | Success val => Success (Some val)
  | Outcome.Error _ | Forward _ => Success None
  end.
Definition outcome_guard {T E} (o : GuardOutcome T E) : GuardOutcome (GuardOutcome T E) Empty_set := Success o.

(** ** From hyper *)

(** The method, with the error of an unknown one. *)
Definition hyp_method (method : str) : Method * list RequestError :=
  match List.find (λ m, bool_decide (as_str m = method)) [Get; Put; Post; Delete; Method.Options; Head; Trace; Connect; Patch] with
  | Some m => (m, [])
  | None =>
    match try_from method with
    | Some m => (m, [])
    | None => (Get, [BadMethod method])
    end
  end.

(** The URI, with the error of one that has no path. *)
Definition hyp_uri (parts : Parts) : Origin * list RequestError :=
  match path_and_query parts with
  | Some (path, query) => (Origin_new path query, [])
  | None => (root, [InvalidUri])
  end.

Definition hyp_host (parts : Parts) : option Host :=
  if before_http2 (parts_version parts)
  then parts_get #"host" parts ≫= host_parse
  else (λ h, Host_new (Authority_new None h (port_u16 parts))) <$> uri_host parts.

(** The cookies of one header and of all. *)
Definition add_cookie (jar : CookieJar) (cookie_str : str) : CookieJar :=
  match parse_cookie cookie_str with Some cookie => add_original cookie jar | None => jar end.

Definition hyp_cookies (parts : Parts) (jar : CookieJar) : CookieJar :=
  foldl (λ jar header,
    if is_utf8 header then foldl add_cookie jar (trim <$> split_on ";" header) else jar)
    jar (parts_get_all #"Cookie" parts).

(** The headers that are text. *)
Definition hyp_headers (parts : Parts) (request : Request IM) : Request IM :=
  foldl (λ request h, if is_utf8 (header_value h) then add_header h request else request)
    request (parts_headers parts).

(** [Request::from_hyp]; the left side is [Ok]. *)
Definition from_hyp (rocket : Setting) (hyper : Parts) (connection : ConnectionMeta TlsConfig Certificates)
  : Incoming + Incoming :=
  let '(method, errors) := hyp_method (parts_method hyper) in
  let '(uri, errors') := hyp_uri hyper in
  let errors := errors ++ errors' in
  let request := incoming_new rocket method uri (Some (http_version (parts_version hyper))) in
  let jar := hyp_cookies hyper (cookies request) in
  let headed := hyp_headers hyper (inner request) in
  let request := mkIncoming headed (CookieJar_with (original jar) (ops jar) (secure headed)) (hyp_host hyper)
    (version request) errors connection in
  if is_empty errors then inl request else inr request.

(** ** Service *)

(** What [service] hands back: the response as built, and the task it spawns. *)
Record Served := mkServed {
  served_code : Z;
  served_headers : list Header;
  served_body : Body;
  served_chunk_size : nat;
}.

(** What is dispatched to: the response, or with request errors the catcher of
    400, for the preprocessed request; the jar is that of the request. *)
Definition respond (self : Rocket) (request : Incoming) (data : Data)
  : option (Response IM IoHandler * Request IM) :=
  let '(req, data, jar) := preprocess self (inner request) data (cookies request) in
  let response :=
    if is_empty (errors request) then dispatch self req data jar
    else fst <$> dispatch_error self Status.BadRequest req jar in
  response ← response; Some (response, req).

(** [Rocket::service]: [None] is the error of the builder. *)
Definition service `{HttpBuilder} (self : Rocket) (rocket : Setting) (parts : Parts) (stream : Data) (upgrade : bool)
    (connection : ConnectionMeta TlsConfig Certificates)
  : option (option Served * option (str * IoHandler)) :=
  let request := match from_hyp rocket parts connection with inl r => r | inr e => e end in
  '(response, req) ← respond self request stream;
  let '(io_handler, response) := extract_io_handler req response in
  let spawned := if upgrade then io_handler else None in
  let headers := iter (resp_headers response) in
  let served := mkServed (Status.code (Response.status response)) headers (body response) (max_chunk (body response)) in
  Some (if forallb (λ h, http_header_ok (header_name h) (header_value h)) headers then Some served else None, spawned).
End server.

(** ** What a request is made of *)

Section from_hyp_spec.
Context {U : Uncased} {UL : UncasedLaws} {P : Pear} {PC : PearCombinators}.
Context {IM : IndexMap str (list str) uncased_eq} {IML : IndexMapLaws IM}.
Context {CC : CookieCrate} {CP : CookieParse} {CJ : CookieJars} {CJL : CookieJarsLaws} {PU : PearUri}.
Context {NA : NetAddrs} {TlsConfig Certificates : Type}.

(** The headers that are text, and the cookies of those named so. *)
Definition texts (parts : Parts) : list Header := List.filter (λ h, is_utf8 (header_value h)) (parts_headers parts).

Definition values_of (name : str) (parts : Parts) : list str :=
  header_value <$> List.filter (λ h, uncased_eq name (header_name h)) (texts parts).

Definition sent_cookies (parts : Parts) : list cookie :=
  omap parse_cookie (concat ((λ v, trim <$> split_on ";" v) <$> values_of #"Cookie" parts)).

(** The headers by which a proxy tells that the connection is secure. *)
Definition tells_https (proxy_header : option str) (h : Header) : bool :=
  match proxy_header with
  | Some name => uncased_eq (header_name h) name && is_https (proxy_proto_from (header_value h))
  | None => false
  end.

Lemma hyp_method_spec method m errs :
  hyp_method method = (m, errs) →
  (errs = [] ∧ named method m = true) ∨ (errs = [BadMethod method] ∧ m = Get ∧ ∀ m', named method m' = false).
Proof.
  unfold hyp_method. destruct (List.find _ _) as [m'|] eqn:Hf.
  - intros [= -> <-]. left. apply find_some in Hf as [_ Hm]. apply bool_decide_eq_true in Hm as <-.
    split; [done|]. apply named_true. by left.
  - destruct (try_from method) as [m'|] eqn:Ht; intros [= <- <-].
    + left. split; [done|]. by apply find_some in Ht as [_ Hm].
    + right. split_and!; [done..|]. intros m'.
      refine (find_none _ _ Ht m' _). apply list_elem_of_In. apply elem_of_ALL_VARIANTS.
Qed.

(** Adding the headers: the ones that are text are appended to their names,
    and nothing but the flag of the connection changes besides. *)
Lemma bust_keeps h b (r : Request IM) :
  let r' := bust_header_cache h b r in
  req_headers r' = req_headers r ∧ req_method r' = req_method r ∧ req_uri r' = req_uri r ∧
  req_route r' = req_route r ∧ proxy_proto_header r' = proxy_proto_header r.
Proof. unfold bust_header_cache. by repeat case_match. Qed.

Lemma bust_secure h (r : Request IM) :
  (∀ name, proxy_proto_header r = Some name →
     uncased_eq name #"Content-Type" = false ∧ uncased_eq name #"Accept" = false) →
  secure (bust_header_cache h false r) = secure r || tells_https (proxy_proto_header r) h.
Proof.
  intros Hp. unfold bust_header_cache, tells_https.
  destruct (proxy_proto_header r) as [name|]; [specialize (Hp name eq_refl) as [Hc Ha]|].
  - destruct (uncased_eq (header_name h) name) eqn:Hn.
    + assert (∀ k, uncased_eq name k = false → uncased_eq (header_name h) k = false) as Hne.
      { intros k Hk. destruct (uncased_eq (header_name h) k) eqn:E; [|done].
        rewrite uncased_eq_sym in Hn. by rewrite (uncased_eq_trans _ _ _ Hn E) in Hk. }
      rewrite (Hne _ Hc), (Hne _ Ha). by destruct (secure r) eqn:Hs; simpl; rewrite ?Hs.
    + by repeat case_match; rewrite ?orb_false_r.
  - by repeat case_match; rewrite ?orb_false_r.
Qed.
(** A step of the loop over the headers, and all of it. *)
Lemma hyp_headers_fold hs (r : Request IM) :
  let r' := foldl (λ request h, if is_utf8 (header_value h) then add_header h request else request) r hs in
  let ts := List.filter (λ h, is_utf8 (header_value h)) hs in
  (coherent r → coherent r') ∧
  (∀ n, Header.get n (req_headers r') =
     Header.get n (req_headers r) ++ (header_value <$> List.filter (λ h, uncased_eq n (header_name h)) ts)) ∧
  req_method r' = req_method r ∧ req_uri r' = req_uri r ∧ req_route r' = req_route r ∧
  proxy_proto_header r' = proxy_proto_header r ∧
  ((∀ name, proxy_proto_header r = Some name →
      uncased_eq name #"Content-Type" = false ∧ uncased_eq name #"Accept" = false) →
   secure r' = secure r || existsb (tells_https (proxy_proto_header r)) ts).
Proof.
  revert r. induction hs as [|h hs IH]; intros r; simpl.
  { split_and!; try done; intros; by rewrite ?app_nil_r, ?orb_false_r. }
  destruct (is_utf8 (header_value h)); [|by apply IH].
  pose proof (bust_keeps h false r) as (Hh & Hm & Hu & Hr & Hp). pose proof (bust_secure h r) as Hs.
  destruct (IH (add_header h r)) as (IHc & IHg & IHm & IHu & IHr & IHp & IHs).
  split_and!.
  - intros Hc. by apply IHc, coherent_add.
  - intros n. rewrite IHg. unfold add_header, add. cbn [req_headers set_headers]. rewrite get_or_default, Hh. simpl.
    destruct (uncased_eq n (header_name h)) eqn:E; [|done]. rewrite fmap_cons, (get_same _ _ _ E), <-app_assoc. done.
  - by rewrite IHm.
  - by rewrite IHu.
  - by rewrite IHr.
  - by rewrite IHp.
  - intros Hn. rewrite IHs by (unfold add_header; cbn [proxy_proto_header set_headers]; by rewrite Hp).
    unfold add_header. cbn [secure proxy_proto_header set_headers]. by rewrite (Hs Hn), Hp, <-orb_assoc.
Qed.

(** The jar has the cookies that were sent. *)
Lemma hyp_cookies_original parts (jar : CookieJar) :
  hyp_cookies parts jar = CookieJar_with (foldl (λ j c, jar_add_original c j) (original jar) (sent_cookies parts))
    (ops jar) (jar_secure jar).
Proof.
  unfold hyp_cookies, sent_cookies, values_of, texts, parts_get_all. generalize (parts_headers parts) as hs. intros hs.
  revert jar. induction hs as [|h hs IH]; intros jar; [by destruct jar|]. simpl.
  rewrite (uncased_eq_sym (header_name h)). destruct (is_utf8 (header_value h)) eqn:Hutf; simpl.
  - destruct (uncased_eq #"Cookie" (header_name h)); simpl; [|by apply IH]. rewrite Hutf, omap_app, foldl_app.
    assert (∀ ws jar, foldl add_cookie jar ws =
      CookieJar_with (foldl (λ j c, jar_add_original c j) (original jar) (omap parse_cookie ws)) (ops jar)
        (jar_secure jar)) as Hws.
    { clear. induction ws as [|w ws IHw]; intros jar; [by destruct jar|]. simpl. rewrite IHw. unfold add_cookie.
      by destruct (parse_cookie w). }
    by rewrite IH, Hws.
  - destruct (uncased_eq #"Cookie" (header_name h)); simpl; [|by apply IH]. rewrite Hutf. apply IH.
Qed.

(** C5: A request is made of what hyper hands over: it is in order exactly when
    the method is known, in either case, and the URI has a path, and else it is
    a [GET] or a request of the root.  Its headers are the ones that are text,
    with the values of each name in order, and content type and accepted types
    are of them; its cookies are the last ones of each name sent, nothing is
    pending; and the connection counts as secure when every endpoint is TLS or
    a header of the proxy says so. *)
Theorem from_hyp_spec (rocket : Setting) (parts : Parts) (connection : ConnectionMeta TlsConfig Certificates) :
  let res : Incoming + Incoming := from_hyp rocket parts connection in
  let r := match res with inl r => r | inr e => e end in
  (res = inl r ↔ (∃ m, named (parts_method parts) m = true) ∧ is_Some (path_and_query parts)) ∧
  (∀ m, named (parts_method parts) m = true → req_method (inner r) = m) ∧
  ((∀ m, named (parts_method parts) m = false) → req_method (inner r) = Get) ∧
  (∀ path query, path_and_query parts = Some (path, query) → req_uri (inner r) = Origin_new path query) ∧
  (path_and_query parts = None → req_uri (inner r) = root) ∧
  (∀ n, Header.get n (req_headers (inner r)) = values_of n parts) ∧
  content_type (inner r) = head (values_of #"Content-Type" parts) ≫= parse_media_type ∧
  accept (inner r) = head (values_of #"Accept" parts) ≫= parse_accept ∧
  (∀ n, cookies_get n (cookies r) = last (List.filter (λ c, bool_decide (cookie_name c = n)) (sent_cookies parts))) ∧
  ops (cookies r) = [] ∧ secure (inner r) = jar_secure (cookies r) ∧
  ((∀ name, setting_proxy_proto_header rocket = Some name →
      uncased_eq name #"Content-Type" = false ∧ uncased_eq name #"Accept" = false) →
   jar_secure (cookies r) =
     forallb is_tls (endpoints rocket) || existsb (tells_https (setting_proxy_proto_header rocket)) (texts parts)).
Proof.
  intros res r. subst r. unfold res, from_hyp.
  destruct (hyp_method (parts_method parts)) as [method errs] eqn:Hm.
  destruct (hyp_uri parts) as [uri errs'] eqn:Hu.
  set (new := incoming_new rocket method uri _). set (headed := hyp_headers parts (inner new)).
  set (r := mkIncoming headed _ _ _ _ _).
  assert ((if is_empty (errs ++ errs') then inl r else inr r) = inl r ↔ errs ++ errs' = []) as Hok by (by destruct (errs ++ errs')).
  replace (match (if is_empty (errs ++ errs') then inl r else inr r) with inl r => r | inr e => e end) with r
    by (by destruct (errs ++ errs')).
  destruct (hyp_headers_fold (parts_headers parts) (inner new)) as (Hc & Hg & Hme & Hur & _ & Hp & Hs).
  fold (hyp_headers parts (inner new)) in Hc, Hg, Hme, Hur, Hp, Hs. fold headed in Hc, Hg, Hme, Hur, Hp, Hs.
  assert (∀ n, Header.get n (req_headers headed) = values_of n parts) as Hget.
  { intros n. rewrite Hg. unfold Header.get at 1. cbn. unfold header_map_new. by rewrite im_get_spec, im_entries_new. }
  destruct (coherent_cells headed (Hc ltac:(done))) as [Hct Hac].
  rewrite get_one_head, Hget in Hct, Hac.
  rewrite Hok. unfold r; cbn [inner cookies original ops jar_secure]. split_and!; try done.
  - unfold hyp_uri in Hu. apply hyp_method_spec in Hm as [[-> Hn]|(-> & _ & Hn)];
      destruct (path_and_query parts) as [[? ?]|]; simplify_eq/=; split; try done; [by eauto|..];
      intros [[m Hm] Hsome]; [by destruct Hsome|by rewrite Hn in Hm..].
  - intros m Hn. rewrite Hme. apply hyp_method_spec in Hm as [[-> Hn']|(_ & _ & Hn')]; [|by rewrite Hn' in Hn].
    by eapply named_unique.
  - intros Hn. rewrite Hme. by apply hyp_method_spec in Hm as [[_ Hn']|(_ & -> & _)]; [rewrite Hn in Hn'|].
  - intros path query Hpq. rewrite Hur. unfold hyp_uri in Hu. rewrite Hpq in Hu. by simplify_eq/=.
  - intros Hpq. rewrite Hur. unfold hyp_uri in Hu. rewrite Hpq in Hu. by simplify_eq/=.
  - intros n. unfold cookies_get. rewrite hyp_cookies_original. cbn [original new incoming_new cookies jar_for jar_init default].
    rewrite (proj2 (jar_get_originals _ _ n plain_new)), get_new. by destruct (last _).
  - by rewrite hyp_cookies_original.
Qed.
End from_hyp_spec.

(** ** Every request is answered *)

Section service_spec.
Context {U : Uncased} {P : Pear} {PC : PearCombinators} {IM : IndexMap str (list str) uncased_eq}.
Context {SP : StablePattern} {M : Memchr} {PE : PercentEncoding} {CC : CookieCrate} {CP : CookieParse} {PU : PearUri}.
Context {NA : NetAddrs} {TlsConfig Certificates IoHandler : Type} {HB : HttpBuilder}.

(** The response to a request with errors is that of a catcher for 400; no
    response fairing, and nothing else of dispatching, sees it. *)
Lemma malformed_skips_fairings (self : Rocket (IoHandler:=IoHandler)) (fs : list OnResponse) name alt
    (request : Incoming (TlsConfig:=TlsConfig) (Certificates:=Certificates)) data :
  errors request ≠ [] →
  respond (Rocket_new (router self) (request_fairings self) fs name alt) request data = respond self request data.
Proof.
  intros He. set (self' := Rocket_new _ _ fs name alt).
  assert (∀ n st req j, dispatch_error_loop n self' st req j = dispatch_error_loop n self st req j) as Hl.
  { induction n as [|n IH]; intros st req j; [done|]. cbn [dispatch_error_loop].
    change (invoke_catcher self') with (invoke_catcher self).
    destruct (invoke_catcher self st req j) as [[resp|err] j1]; [done|]. case_match; [apply IH|done]. }
  unfold respond, dispatch_error. change (preprocess self') with (preprocess self).
  destruct (preprocess self _ _ _) as [[req data'] jar]. rewrite Hl. by destruct (errors request).
Qed.

Lemma forallb_false {A} (f : A → bool) l : forallb f l = false → ∃ x, x ∈ l ∧ f x = false.
Proof.
  induction l as [|x l IH]; [done|]. simpl. intros [Hx|(y & Hy & Hf)%IH]%andb_false_iff; [exists x|exists y]; set_solver.
Qed.

(** What an upgrade changes. *)
Lemma extract_io_handler_cases req (response : Response IM IoHandler) :
  let '(o, r) := extract_io_handler req response in
  body r = body response ∧
  match o with
  | None => r = response
  | Some (proto, handler) =>
    (proto, handler) ∈ Response.upgrade response ∧ Status.code (Response.status r) = 101%Z ∧
    Response.status r = Status.SwitchingProtocols
  end.
Proof.
  unfold extract_io_handler, search_upgrades. destruct (is_empty (Response.upgrade response)); [done|].
  generalize (concat ((λ v, trim <$> split_on "," v) <$> Header.get #"upgrade" (req_headers req))). intros ps.
  assert (∀ ps e rest, find_upgrade ps (Response.upgrade response) = Some (e, rest) → e ∈ Response.upgrade response) as Hf.
  { clear. induction ps as [|p ps IH]; intros e rest; [done|]. simpl. destruct (List.find _ _) as [e'|] eqn:Hf; [|apply IH].
    intros [= -> _]. apply list_elem_of_In. by apply find_some in Hf as [Hin _]. }
  destruct (find_upgrade ps _) as [[[proto h] rest]|] eqn:Hu; [|by destruct (negb _)].
  split; [done|]. by split_and!; [eapply Hf|..].
Qed.
End service_spec.

(** ** A concrete instance *)

Module ServerReference.
Import Reference PearReference PearCombinatorsReference PearUriReference HeaderReference CookieReference.
Import EndpointReference.

#[export] Instance type_maps_ref : TypeMaps nat := {|
  TypeMap := gmap nat nat;
  try_get t m := m !! t;
  type_map_set t v m := match m !! t with Some _ => (false, m) | None => (true, <[t := v]> m) end |}.

Lemma set_once (m : gmap nat nat) t t' v :
  (match m !! t' with Some _ => (false, m) | None => (true, <[t' := v]> m) end).2 !! t =
    if decide (t = t') then Some (default v (m !! t)) else m !! t.
Proof.
  case_decide as Ht.
  - subst. destruct (m !! t') as [w|] eqn:Hw; cbn; [done|]. by rewrite lookup_insert_eq.
  - destruct (m !! t') as [w|]; cbn; [done|]. by rewrite lookup_insert_ne.
Qed.

#[export] Instance type_maps_laws : TypeMapsLaws nat.
Proof. split. intros t t' v m. apply set_once. Qed.

#[export] Instance cookie_parse_ref : CookieParse := {|
  parse_cookie s := (λ '(n, v), Cookie_new n v None None None) <$> split_once "=" s |}.

(** A request of a client behind a proxy, with cookies. *)
Definition proxied : Parts := mkParts #"get" (Some (#"/a", Some #"b=c")) None None HTTP_11
  [Header_new #"host" #"rocket.rs"; Header_new #"cookie" #"id=1; x=2"; Header_new #"cookie" #"id=3";
   Header_new #"x-forwarded-proto" #"https"; Header_new #"x-bad" [ascii_of_nat 255]; Header_new #"accept" #"text/html"].

Definition behind : Setting (TlsConfig:=unit) := mkSetting None (Some #"X-Forwarded-Proto") [Tcp 80%nat].

Example from_hyp_witness :
  ∃ r : Incoming (IM:=header_index) (TlsConfig:=unit) (Certificates:=unit),
    from_hyp behind proxied connection_default = inl r ∧ req_method (inner r) = Get ∧
    req_uri (inner r) = Origin_new #"/a" (Some #"b=c") ∧ Header.get #"x-bad" (req_headers (inner r)) = [] ∧
    (cookie_encoded <$> cookies_get #"id" (cookies r)) = Some #"id=3" ∧ jar_secure (cookies r) = true.
Proof.
  pose proof (from_hyp_spec (IM:=header_index) (Certificates:=unit) behind proxied connection_default)
    as (Hok & Hm & _ & Hu & _ & Hg & _ & _ & Hc & _ & _ & Hs).
  eexists. split; [apply Hok; split; [by exists Get|by eexists]|].
  split; [by apply Hm|]. split; [by apply Hu|]. split; [by rewrite Hg|]. split; [by rewrite Hc|].
  rewrite Hs; [by vm_compute|]. intros name [= <-]. by split.
Defined.
End ServerReference.
