(* ===== verification/Tls.v ===== *)
(** * Tls: what a TLS configuration makes a server do, and the guard for client
    certificates (core/lib/src/tls/config.rs, listener.rs, resolver.rs, error.rs;
    core/lib/src/mtls/config.rs, certificate.rs, name.rs, error.rs)

    rustls, its parser of PEM files and x509-parser are interfaces whose answers
    the code passes on; files are read by a function.  A [Result<T, E>] is a
    [T + E]. *)

From S2P Require Import Prelude Crates Status Header MediaParse Outcome Endpoint Server.

(** ** Results *)

(** The operator [?]. *)
Definition and_then {A B E} (r : A + E) (k : A → B + E) : B + E :=
  match r with inl a => k a | inr e => inr e end.

Definition map_err {A E F} (f : E → F) (r : A + E) : A + F := match r with inl a => inl a | inr e => inr (f e) end.

(** [collect::<Result<Vec<_>, _>>], which ends at the first error. *)
Fixpoint collect {A E} (l : list (A + E)) : list A + E :=
  match l with
  | [] => inl []
  | r :: l => and_then r (λ a, and_then (collect l) (λ rest, inl (a :: rest)))
  end.

Lemma collect_inl {A E} (l : list (A + E)) rest : collect l = inl rest ↔ l = inl <$> rest.
Proof.
  revert rest. induction l as [|[a|e] l IH]; intros rest; cbn.
  - split; [by intros [= <-]|]. by destruct rest.
  - destruct (collect l) as [rest'|e'] eqn:Hl; cbn.
    + split; [intros [= <-]; cbn; f_equal; by apply IH|]. destruct rest as [|b rest]; [done|].
      intros [= -> Hr]. apply IH in Hr. by simplify_eq.
    + split; [done|]. destruct rest as [|b rest]; [done|]. intros [= -> Hr]. apply IH in Hr. done.
  - split; [done|]. by destruct rest.
Qed.

(** ** Configuration *)

(** [enum CipherSuite]. *)
Inductive CipherSuite :=
  | TLS_CHACHA20_POLY1305_SHA256
  | TLS_AES_256_GCM_SHA384
  | TLS_AES_128_GCM_SHA256
  | TLS_ECDHE_ECDSA_WITH_CHACHA20_POLY1305_SHA256
  | TLS_ECDHE_RSA_WITH_CHACHA20_POLY1305_SHA256
  | TLS_ECDHE_ECDSA_WITH_AES_256_GCM_SHA384
  | TLS_ECDHE_ECDSA_WITH_AES_128_GCM_SHA256
  | TLS_ECDHE_RSA_WITH_AES_256_GCM_SHA384
  | TLS_ECDHE_RSA_WITH_AES_128_GCM_SHA256.

#[export] Instance CipherSuite_eq_dec : EqDecision CipherSuite.
Proof. solve_decision. Defined.

Definition TLS_V13_SET : list CipherSuite :=
  [TLS_CHACHA20_POLY1305_SHA256; TLS_AES_256_GCM_SHA384; TLS_AES_128_GCM_SHA256].

Definition TLS_V12_SET : list CipherSuite :=
  [TLS_ECDHE_ECDSA_WITH_CHACHA20_POLY1305_SHA256; TLS_ECDHE_RSA_WITH_CHACHA20_POLY1305_SHA256;
   TLS_ECDHE_ECDSA_WITH_AES_256_GCM_SHA384; TLS_ECDHE_ECDSA_WITH_AES_128_GCM_SHA256;
   TLS_ECDHE_RSA_WITH_AES_256_GCM_SHA384; TLS_ECDHE_RSA_WITH_AES_128_GCM_SHA256].

Definition DEFAULT_SET : list CipherSuite :=
  [TLS_CHACHA20_POLY1305_SHA256; TLS_AES_256_GCM_SHA384; TLS_AES_128_GCM_SHA256;
   TLS_ECDHE_ECDSA_WITH_CHACHA20_POLY1305_SHA256; TLS_ECDHE_RSA_WITH_CHACHA20_POLY1305_SHA256;
   TLS_ECDHE_ECDSA_WITH_AES_256_GCM_SHA384; TLS_ECDHE_ECDSA_WITH_AES_128_GCM_SHA256;
   TLS_ECDHE_RSA_WITH_AES_256_GCM_SHA384; TLS_ECDHE_RSA_WITH_AES_128_GCM_SHA256].

(** Collecting into an [IndexSet]: what is there keeps its place. *)
Definition index_set (ciphers : list CipherSuite) : list CipherSuite :=
  foldl (λ set c, if decide (c ∈ set) then set else set ++ [c]) [] ciphers.

Definition default_set : list CipherSuite := index_set DEFAULT_SET.

(** [Either<RelativePathBuf, Vec<u8>>]; what [RelativePathBuf::relative] does is
    figment's. *)
Inductive Source (P : Type) := FromPath (path : P) | FromBytes (bytes : str).
Arguments FromPath {P}.
Arguments FromBytes {P}.

(** [struct MtlsConfig] and its builder. *)
Record MtlsConfig (P : Type) := mkMtls { ca_source : Source P; mandatory : bool }.
Arguments mkMtls {P}.
Arguments ca_source {P}.
Arguments mandatory {P}.

Definition mtls_from_path {P} (ca_certs : P) : MtlsConfig P := mkMtls (FromPath ca_certs) false.
Definition mtls_from_bytes {P} (ca_certs : str) : MtlsConfig P := mkMtls (FromBytes ca_certs) false.
Definition with_mandatory {P} (m : bool) (self : MtlsConfig P) : MtlsConfig P := mkMtls (ca_source self) m.

(** [struct TlsConfig] and its builder. *)
Record TlsConfig (P R : Type) := mkTls {
  cert_source : Source P;
  key_source : Source P;
  cipher_set : list CipherSuite;
  prefer_server_cipher_order : bool;
  mutual : option (MtlsConfig P);
  resolver : option R;
}.
Arguments mkTls {P R}.
Arguments cert_source {P R}.
Arguments key_source {P R}.
Arguments cipher_set {P R}.
Arguments prefer_server_cipher_order {P R}.
Arguments mutual {P R}.
Arguments resolver {P R}.

Section config.
Context {P R : Type}.
Abbreviation TlsConfig := (TlsConfig P R).

Definition tls_default : TlsConfig := mkTls (FromBytes []) (FromBytes []) default_set false None None.

Definition tls_from (certs key : Source P) : TlsConfig :=
  mkTls certs key (cipher_set tls_default) (prefer_server_cipher_order tls_default) (mutual tls_default)
    (resolver tls_default).

Definition from_paths (certs key : P) : TlsConfig := tls_from (FromPath certs) (FromPath key).
Definition from_bytes (certs key : str) : TlsConfig := tls_from (FromBytes certs) (FromBytes key).

Definition with_ciphers (ciphers : list CipherSuite) (self : TlsConfig) : TlsConfig :=
  mkTls (cert_source self) (key_source self) (index_set ciphers) (prefer_server_cipher_order self) (mutual self)
    (resolver self).

Definition with_preferred_server_cipher_order (prefer : bool) (self : TlsConfig) : TlsConfig :=
  mkTls (cert_source self) (key_source self) (cipher_set self) prefer (mutual self) (resolver self).

Definition with_mutual (config : MtlsConfig P) (self : TlsConfig) : TlsConfig :=
  mkTls (cert_source self) (key_source self) (cipher_set self) (prefer_server_cipher_order self) (Some config)
    (resolver self).

(** [config.resolver = ..]. *)
Definition set_resolver (r : option R) (self : TlsConfig) : TlsConfig :=
  mkTls (cert_source self) (key_source self) (cipher_set self) (prefer_server_cipher_order self) (mutual self) r.

(** [certs], [key]; [ciphers]. *)
Definition source_get {Q} (relative : P → Q) (s : Source P) : Q + str :=
  match s with FromPath path => inl (relative path) | FromBytes bytes => inr bytes end.

Definition certs {Q} (relative : P → Q) (self : TlsConfig) : Q + str := source_get relative (cert_source self).
Definition key {Q} (relative : P → Q) (self : TlsConfig) : Q + str := source_get relative (key_source self).
Definition ciphers (self : TlsConfig) : list CipherSuite := cipher_set self.
Definition ca_certs {Q} (relative : P → Q) (self : MtlsConfig P) : Q + str := source_get relative (ca_source self).
End config.

Lemma index_set_spec cs : NoDup (index_set cs) ∧ (∀ c, c ∈ index_set cs ↔ c ∈ cs) ∧ (NoDup cs → index_set cs = cs).
Proof.
  unfold index_set. induction cs as [|c cs IH] using rev_ind; [split_and!; [constructor|done|done]|].
  rewrite foldl_app. cbn. destruct IH as (Hnd & Hin & Heq). case_decide as Hc.
  - split_and!; [done| |].
    + intros d. rewrite Hin, elem_of_app, list_elem_of_singleton. rewrite Hin in Hc. naive_solver.
    + intros (_ & Hd & _)%NoDup_app. exfalso. apply (Hd c); [by apply Hin|by left].
  - split_and!.
    + apply NoDup_app. split_and!; [done| |by apply NoDup_singleton]. intros d Hd ->%list_elem_of_singleton. done.
    + intros d. by rewrite !elem_of_app, Hin.
    + intros (Hnd' & _ & _)%NoDup_app. by rewrite Heq.
Qed.

(** ** Loading *)

(** [rustls_pemfile::Item]: the three kinds of private keys, and the rest. *)
Inductive PemItem (K : Type) := Pkcs1Key (key : K) | Pkcs8Key (key : K) | Sec1Key (key : K) | OtherItem (name : str).
Arguments Pkcs1Key {K}.
Arguments Pkcs8Key {K}.
Arguments Sec1Key {K}.
Arguments OtherItem {K}.

(** The cipher suites of [rustls::crypto::ring]. *)
Inductive RingSuite :=
  | TLS13_CHACHA20_POLY1305_SHA256 | TLS13_AES_256_GCM_SHA384 | TLS13_AES_128_GCM_SHA256
  | RING_ECDHE_ECDSA_WITH_CHACHA20_POLY1305_SHA256 | RING_ECDHE_RSA_WITH_CHACHA20_POLY1305_SHA256
  | RING_ECDHE_ECDSA_WITH_AES_256_GCM_SHA384 | RING_ECDHE_ECDSA_WITH_AES_128_GCM_SHA256
  | RING_ECDHE_RSA_WITH_AES_256_GCM_SHA384 | RING_ECDHE_RSA_WITH_AES_128_GCM_SHA256.

(** rustls and rustls_pemfile.  [ring_provider] is ring's with other cipher
    suites; [verifier_build] is told whether clients may be unauthenticated. *)
Class Rustls := {
  Cert : Type;
  PrivateKey : Type;
  RootStore : Type;
  Verifier : Type;
  Provider : Type;
  IoError : Type;
  RustlsError : Type;
  VerifierError : Type;
  pem_certs : str → list (Cert + IoError);
  pem_read_all : str → list (PemItem PrivateKey + IoError);
  roots_empty : RootStore;
  roots_add : Cert → RootStore → RootStore + RustlsError;
  provider_default : option Provider;
  ring_provider : list RingSuite → Provider;
  load_private_key : Provider → PrivateKey → unit + RustlsError;
  verifier_build : RootStore → Provider → bool → Verifier + VerifierError;
  no_client_auth : Verifier;
  protocol_versions : Provider → unit + RustlsError;
  single_cert : Provider → Verifier → list Cert → PrivateKey → unit + RustlsError;
  ticketer : unit + RustlsError;
}.

Section loading.
Context `{Rustls} {P R : Type}.
Abbreviation TlsConfig := (TlsConfig P R).

(** [enum KeyError], [enum Error] of tls. *)
Inductive KeyError :=
  | BadKeyCount (n : nat)
  | KeyIo (e : IoError)
  | Unsupported (e : RustlsError)
  | BadItem (i : PemItem PrivateKey).

Inductive TlsFailure :=
  | Io (e : IoError)
  | Bind (e : str)
  | TlsError (e : RustlsError)
  | Mtls (e : VerifierError)
  | CertChain (e : IoError)
  | PrivKey (e : KeyError)
  | CertAuth (e : RustlsError)
  | ConfigError (e : str).

(** Files, by relative paths: their text, or an error that names the path. *)
Context (open : P → str + IoError).

(** [to_reader]; [certs_reader], [key_reader] and [ca_certs_reader]. *)
Definition to_reader (s : Source P) : str + IoError :=
  match s with FromPath path => open path | FromBytes bytes => inl bytes end.

(** [load_certs]. *)
Definition load_certs (self : TlsConfig) : list Cert + TlsFailure :=
  and_then (map_err Io (to_reader (cert_source self))) (λ text,
  map_err CertChain (collect (pem_certs text))).

(** [default_crypto_provider]. *)
Definition ring_suite (cipher : CipherSuite) : RingSuite :=
  match cipher with
  | TLS_CHACHA20_POLY1305_SHA256 => TLS13_CHACHA20_POLY1305_SHA256
  | TLS_AES_256_GCM_SHA384 => TLS13_AES_256_GCM_SHA384
  | TLS_AES_128_GCM_SHA256 => TLS13_AES_128_GCM_SHA256
  | TLS_ECDHE_ECDSA_WITH_CHACHA20_POLY1305_SHA256 => RING_ECDHE_ECDSA_WITH_CHACHA20_POLY1305_SHA256
  | TLS_ECDHE_RSA_WITH_CHACHA20_POLY1305_SHA256 => RING_ECDHE_RSA_WITH_CHACHA20_POLY1305_SHA256
  | TLS_ECDHE_ECDSA_WITH_AES_256_GCM_SHA384 => RING_ECDHE_ECDSA_WITH_AES_256_GCM_SHA384
  | TLS_ECDHE_ECDSA_WITH_AES_128_GCM_SHA256 => RING_ECDHE_ECDSA_WITH_AES_128_GCM_SHA256
  | TLS_ECDHE_RSA_WITH_AES_256_GCM_SHA384 => RING_ECDHE_RSA_WITH_AES_256_GCM_SHA384
  | TLS_ECDHE_RSA_WITH_AES_128_GCM_SHA256 => RING_ECDHE_RSA_WITH_AES_128_GCM_SHA256
  end.

Definition default_crypto_provider (self : TlsConfig) : Provider :=
  default (ring_provider (ring_suite <$> ciphers self)) provider_default.

(** [load_key]. *)
Definition item_key (item : PemItem PrivateKey) : PrivateKey + KeyError :=
  match item with
  | Pkcs1Key key | Pkcs8Key key | Sec1Key key => inl key
  | OtherItem _ => inr (BadItem item)
  end.

Definition load_key (self : TlsConfig) : PrivateKey + TlsFailure :=
  and_then (map_err Io (to_reader (key_source self))) (λ text,
  and_then (map_err PrivKey (collect ((λ result, and_then (map_err KeyIo result) item_key) <$> pem_read_all text))) (λ keys,
  match keys with
  | [key] =>
    and_then (map_err (PrivKey ∘ Unsupported) (load_private_key (default_crypto_provider self) key)) (λ _, inl key)
  | keys => inr (PrivKey (BadKeyCount (length keys)))
  end)).

(** [MtlsConfig::load_ca_certs]: the loop, from [roots]. *)
Fixpoint add_roots (certs : list (Cert + IoError)) (roots : RootStore) : RootStore + TlsFailure :=
  match certs with
  | [] => inl roots
  | cert :: certs =>
    and_then (map_err Io cert) (λ cert,
    and_then (map_err CertAuth (roots_add cert roots)) (add_roots certs))
  end.

Definition load_ca_certs (self : MtlsConfig P) : RootStore + TlsFailure :=
  and_then (map_err Io (to_reader (ca_source self))) (λ text, add_roots (pem_certs text) roots_empty).

(** [rustls::ServerConfig], what is set of it. *)
Record ServerConfig := mkServerConfig {
  provider : Provider;
  verifier : Verifier;
  chain : list Cert;
  private_key : PrivateKey;
  ignore_client_order : bool;
  session_cache : nat;
  alpn_protocols : list str;
}.

(** [_server_config]; [http2] is the feature. *)
Definition client_verifier (self : TlsConfig) : Verifier + TlsFailure :=
  match mutual self with
  | Some mtls =>
    and_then (load_ca_certs mtls) (λ ca,
    map_err Mtls (verifier_build ca (default_crypto_provider self) (negb (mandatory mtls))))
  | None => inl no_client_auth
  end.

Definition server_config (http2 : bool) (self : TlsConfig) : ServerConfig + TlsFailure :=
  let provider := default_crypto_provider self in
  and_then (client_verifier self) (λ verifier,
  and_then (map_err TlsError (protocol_versions provider)) (λ _,
  and_then (load_certs self) (λ chain,
  and_then (load_key self) (λ key,
  and_then (map_err TlsError (single_cert provider verifier chain key)) (λ _,
  and_then (map_err TlsError ticketer) (λ _,
  inl (mkServerConfig provider verifier chain key (prefer_server_cipher_order self) 1024
         ((if http2 then [ #"h2"] else []) ++ [ #"http/1.1"])))))))).

(** [validate]. *)
Definition validate (http2 : bool) (self : TlsConfig) : unit + TlsFailure :=
  match server_config http2 self with inl _ => inl tt | inr e => inr e end.
End loading.
Arguments KeyError {_}.
Arguments TlsFailure {_}.
Arguments ServerConfig {_}.

(** ** Listening *)

Section listening.
Context {P R Cfg Hello : Type} `{NetAddrs}.
Abbreviation TlsConfig := (TlsConfig P R).

(** [struct TlsListener]; its [connect] up to the handshake, which is rustls's:
    the configuration it is finished with. *)
Record TlsListener (L : Type) := mkTlsListener { listener : L; config : TlsConfig; default_config : Cfg }.
Arguments mkTlsListener {L}.
Arguments listener {L}.
Arguments config {L}.
Arguments default_config {L}.

(** [TlsListener::from], given what [server_config] yields; [bind]: a listener,
    the configuration the figment has, and the resolver that is managed. *)
Definition listener_from {L E} (server_config : TlsConfig → Cfg + E) (l : L) (config : TlsConfig)
  : TlsListener L + E := and_then (server_config config) (λ default, inl (mkTlsListener l config default)).

Definition tls_bind {L E E'} (bind_error : E' → E) (server_config : TlsConfig → Cfg + E)
    (bound : L + E') (extracted : TlsConfig + E) (managed : option R) : TlsListener L + E :=
  and_then (map_err bind_error bound) (λ l,
  and_then extracted (λ config, listener_from server_config l (set_resolver managed config))).

(** [bind_endpoint]. *)
Definition tls_bind_endpoint {E E'} (bind_error : E' → E) (extracted : TlsConfig + E)
    (bound : Endpoint TlsConfig + E') : Endpoint TlsConfig + E :=
  and_then extracted (λ config,
  match bound with inl e => inl (with_tls e config) | inr e => inr (bind_error e) end).

(** The part of [connect] that chooses the configuration; [resolve] is
    [Resolver::resolve]. *)
Definition connect_config {L} (resolve : R → Hello → option Cfg) (self : TlsListener L) (hello : Hello) : Cfg :=
  match resolver (config self) with
  | Some r => default (default_config self) (resolve r hello)
  | None => default_config self
  end.

(** [Listener::endpoint]; [Connection::endpoint] of a [TlsStream]. *)
Definition listener_endpoint {L E} (endpoint : L → Endpoint TlsConfig + E) (self : TlsListener L)
  : Endpoint TlsConfig + E := and_then (endpoint (listener self)) (λ e, inl (with_tls e (config self))).

Definition stream_endpoint {C E} (endpoint : C → Endpoint TlsConfig + E) (conn : C) : Endpoint TlsConfig + E :=
  and_then (endpoint conn) (λ e, inl (assume_tls e)).

(** [Fairing::on_ignite] of a resolver: what [init] makes is managed, as
    [Rocket::manage] does; otherwise the launch fails. *)
Definition resolver_on_ignite {B V E} (init : B → V + E) (manage : V → B → option B) (rocket : B) : option (B * bool) :=
  match init rocket with
  | inl resolver => (λ rocket, (rocket, true)) <$> manage resolver rocket
  | inr _ => Some (rocket, false)
  end.

(** What is bound: the listener, with the configuration read and the resolver
    that is managed, whatever the configuration's was.  A connection is given
    what the resolver finds for it, and the configuration's own otherwise. *)
Lemma tls_bind_spec {L E E'} (bind_error : E' → E) server_config (bound : L + E') extracted managed resolve l :
  tls_bind bind_error server_config bound extracted managed = inl l →
  bound = inl (listener l) ∧
  (∃ c, extracted = inl c ∧ config l = set_resolver managed c ∧ server_config (config l) = inl (default_config l)) ∧
  (∀ hello cfg, connect_config resolve l hello = cfg ↔
     match managed with
     | Some r => resolve r hello = Some cfg ∨ (resolve r hello = None ∧ default_config l = cfg)
     | None => default_config l = cfg
     end).
Proof.
  unfold tls_bind, listener_from. destruct bound as [l0|]; cbn; [|done]. destruct extracted as [c|]; cbn; [|done].
  destruct (server_config _) as [d|] eqn:Hd; cbn; [|done]. intros [= <-]. cbn.
  split_and!; [done|by exists c|]. intros hello cfg. unfold connect_config. cbn.
  destruct managed as [r|]; [|done]. destruct (resolve r hello) eqn:Hr; cbn; naive_solver.
Qed.
End listening.

(** ** Client certificates (core/lib/src/mtls) *)

(** [x509::ParsedExtension]: the names of a [subjectAlt], or anything else, a
    parse error among them.  [x509::X509Extension], by whether its object
    identifier is that of [subjectAlt]. *)
Inductive ParsedExtension := SubjectAlternativeName (names : str) | OtherExtension.

Record X509Extension := mkExtension { is_subject_alt : bool; critical : bool; parsed_extension : ParsedExtension }.

(** x509_parser: a certificate from DER, with the bytes left; the raw bytes of
    a name and its attributes, each readable as text or not; big integers. *)
Inductive DerError (E : Type) := DerIncomplete (needed : option nat) | DerError_ (e : E) | DerFailure (e : E).
Arguments DerIncomplete {E}.
Arguments DerError_ {E}.
Arguments DerFailure {E}.

Class X509 := {
  X509Certificate : Type;
  X509Name : Type;
  X509Error : Type;
  from_der : str → (str * X509Certificate) + DerError X509Error;
  x509_subject : X509Certificate → X509Name;
  x509_issuer : X509Certificate → X509Name;
  x509_serial : X509Certificate → N;
  x509_version : X509Certificate → Z;
  x509_extensions : X509Certificate → list X509Extension;
  as_raw : X509Name → str;
  common_name_attributes : X509Name → list (option str);
  email_attributes : X509Name → list (option str);
  parse_biguint : str → option N;
}.

Section certificate.
Context `{X509}.

(** [mtls::Error], and what it is made of. *)
Inductive MtlsError :=
  | Empty
  | NoSubject
  | NonCriticalSubjectAlt
  | Parse (e : X509Error)
  | Incomplete (n : option nat)
  | Trailing (n : nat).

Definition mtls_error_from (e : DerError X509Error) : MtlsError :=
  match e with
  | DerIncomplete n => Incomplete n
  | DerError_ e | DerFailure e => Parse e
  end.

Definition error_source (self : MtlsError) : option X509Error := match self with Parse e => Some e | _ => None end.

(** [struct Certificate]; [Certificate::parse_one] and [parse]. *)
Record Certificate := mkCertificate { x509 : X509Certificate; data : str }.

Definition check_subject (x509 : X509Certificate) : X509Certificate + MtlsError :=
  if is_empty (as_raw (x509_subject x509)) then
    match List.find is_subject_alt (x509_extensions x509) with
    | Some ext =>
      match parsed_extension ext with
      | SubjectAlternativeName _ => inr NoSubject
      | OtherExtension => if negb (critical ext) then inr NonCriticalSubjectAlt else inl x509
      end
    | None => inr NoSubject
    end
  else inl x509.

Definition parse_one (raw : str) : X509Certificate + MtlsError :=
  match from_der raw with
  | inl (left, x509) => if negb (is_empty left) then inr (Trailing (length left)) else check_subject x509
  | inr e => inr (mtls_error_from e)
  end.

Definition certificate_parse (chain : list str) : Certificate + MtlsError :=
  match chain with
  | [] => inr Empty
  | data :: _ => and_then (parse_one data) (λ x509, inl (mkCertificate x509 data))
  end.

(** [Certificate::serial], [version], [subject], [issuer], [extensions],
    [has_serial], [as_bytes]. *)
Definition serial (self : Certificate) : N := x509_serial (x509 self).
Definition version (self : Certificate) : Z := x509_version (x509 self).
Definition subject (self : Certificate) : X509Name := x509_subject (x509 self).
Definition issuer (self : Certificate) : X509Name := x509_issuer (x509 self).
Definition extensions (self : Certificate) : list X509Extension := x509_extensions (x509 self).
Definition has_serial (number : str) (self : Certificate) : option bool :=
  uint ← parse_biguint number; Some (bool_decide (uint = serial self)).
Definition as_bytes (self : Certificate) : str := data self.

(** [Name::common_names], [common_name], [emails], [email], [is_empty]. *)
Definition common_names (self : X509Name) : list str := omap id (common_name_attributes self).
Definition common_name (self : X509Name) : option str := head (common_names self).
Definition emails (self : X509Name) : list str := omap id (email_attributes self).
Definition email (self : X509Name) : option str := head (emails self).
Definition name_is_empty (self : X509Name) : bool := is_empty (as_raw self).

(** The guard, [Certificate::from_request], of the chain of the connection. *)
Definition certificate_guard (peer_certs : option (list str)) : GuardOutcome Certificate MtlsError :=
  match Outcome.option_or_forward (E := Empty_set) peer_certs Status.Unauthorized with
  | Success chain => Outcome.result_or_error (certificate_parse chain) Status.Unauthorized
  | Forward status => Forward status
  | Error e => match e with end
  end.

(** When a certificate is let in: the first of a chain, whole, with a subject.
    Without one its first [subjectAlt] is looked at, which must be critical and
    must not parse. *)
Lemma certificate_guard_spec peer_certs :
  (peer_certs = None → certificate_guard peer_certs = Forward Status.Unauthorized) ∧
  (∀ chain, peer_certs = Some chain →
    match certificate_guard peer_certs with
    | Success c =>
      head chain = Some (data c) ∧ from_der (data c) = inl ([], x509 c) ∧
      (name_is_empty (subject c) = true →
       ∃ ext, List.find is_subject_alt (extensions c) = Some ext ∧ critical ext = true ∧ parsed_extension ext = OtherExtension)
    | Error (status, e) =>
      status = Status.Unauthorized ∧
      match e with
      | Empty => chain = []
      | NoSubject | NonCriticalSubjectAlt =>
        ∃ raw x, head chain = Some raw ∧ from_der raw = inl ([], x) ∧ as_raw (x509_subject x) = []
      | Trailing n => ∃ raw left x, head chain = Some raw ∧ from_der raw = inl (left, x) ∧ n = length left ∧ 0 < n
      | Parse _ | Incomplete _ => ∃ raw e', head chain = Some raw ∧ from_der raw = inr e' ∧ e = mtls_error_from e'
      end
    | Forward _ => False
    end).
Proof.
  split; [by intros ->|]. intros chain ->. unfold certificate_guard. cbn. destruct chain as [|raw chain]; [done|].
  cbn. unfold parse_one. destruct (from_der raw) as [[left x]|e] eqn:Hd; cbn.
  2: { split; [done|]. destruct e; cbn; eauto. }
  destruct left as [|c left]; cbn; [|split; [done|]; exists raw, (c :: left), x; split_and!; [done..|cbn; lia]].
  unfold check_subject, name_is_empty, subject, extensions, is_empty. cbn.
  destruct (as_raw (x509_subject x)) eqn:Hs; cbn; [|by rewrite Hs].
  destruct (List.find _ _) as [ext|] eqn:Hf; cbn; [|by eauto 6].
  destruct (parsed_extension ext) eqn:Hp; cbn; [by eauto 6|]. destruct (critical ext) eqn:Hc; cbn; [|by eauto 6].
  split_and!; [done..|]. intros _. by exists ext.
Qed.

(** A certificate with no subject and a critical [subjectAlt] is refused. *)
Lemma subject_alt_refused raw x ext names :
  from_der raw = inl ([], x) → as_raw (x509_subject x) = [] →
  List.find is_subject_alt (x509_extensions x) = Some ext →
  critical ext = true → parsed_extension ext = SubjectAlternativeName names →
  certificate_guard (Some [raw]) = Error (Status.Unauthorized, NoSubject).
Proof.
  intros Hd Hs Hf Hc Hp. unfold certificate_guard. cbn. unfold parse_one. rewrite Hd. cbn.
  unfold check_subject. by rewrite Hs, Hf, Hp.
Qed.
End certificate.

(** ** What a configuration does *)

Section configured.
Context `{Rustls} {P R : Type} (open : P → str + IoError).
Abbreviation TlsConfig := (TlsConfig P R).

Lemma and_then_inl {A B E} (r : A + E) (k : A → B + E) b : and_then r k = inl b ↔ ∃ a, r = inl a ∧ k a = inl b.
Proof. destruct r; cbn; naive_solver. Qed.

Lemma map_err_inl {A E F} (f : E → F) (r : A + E) a : map_err f r = inl a ↔ r = inl a.
Proof. destruct r; cbn; naive_solver. Qed.

Lemma load_certs_spec (c : TlsConfig) certs :
  load_certs open c = inl certs ↔ ∃ text, to_reader open (cert_source c) = inl text ∧ pem_certs text = inl <$> certs.
Proof.
  unfold load_certs. rewrite and_then_inl. setoid_rewrite map_err_inl. by setoid_rewrite collect_inl.
Qed.

Lemma load_key_spec (c : TlsConfig) key :
  load_key open c = inl key ↔
  ∃ text item, to_reader open (key_source c) = inl text ∧ pem_read_all text = [inl item] ∧
    item_key item = inl key ∧ load_private_key (default_crypto_provider c) key = inl tt.
Proof.
  unfold load_key. rewrite and_then_inl. setoid_rewrite map_err_inl. setoid_rewrite and_then_inl.
  setoid_rewrite map_err_inl. setoid_rewrite collect_inl. split.
  - intros (text & Ht & keys & Hk & Hkey). destruct keys as [|k [|k' keys]]; [done| |done].
    apply and_then_inl in Hkey as ([] & Hl%map_err_inl & [= ->]).
    destruct (pem_read_all text) as [|r [|r' l]] eqn:Hp; [done| |done]. cbn in Hk. injection Hk as Hk.
    apply and_then_inl in Hk as (item & Hr%map_err_inl & Hi). exists text, item. by subst r.
  - intros (text & item & Ht & Hp & Hi & Hl). exists text. split; [done|]. exists [key]. rewrite Hp. cbn.
    by rewrite Hi, Hl.
Qed.

(** All the certificates of the file are roots. *)
Fixpoint roots_of (certs : list Cert) (roots : RootStore) : option RootStore :=
  match certs with
  | [] => Some roots
  | c :: certs => match roots_add c roots with inl roots => roots_of certs roots | inr _ => None end
  end.

Lemma add_roots_spec l roots roots' :
  add_roots l roots = inl roots' ↔ ∃ certs, l = inl <$> certs ∧ roots_of certs roots = Some roots'.
Proof.
  revert roots. induction l as [|[c|e] l IH]; intros roots; cbn.
  - split; [intros [= ->]; by exists []|]. intros ([|? ?] & Hc & Hr); [by injection Hr as ->|done].
  - rewrite and_then_inl. setoid_rewrite map_err_inl. setoid_rewrite IH. split.
    + intros (roots1 & Hr & certs & -> & Hc). exists (c :: certs). cbn. by rewrite Hr.
    + intros ([|c' certs] & Hc & Hr); [done|]. injection Hc as <- ->. cbn in Hr.
      destruct (roots_add c roots) as [roots1|]; [|done]. by eauto.
  - split; [done|]. intros ([|? ?] & ? & _); done.
Qed.

(** Which clients are let in: all without [mutual]; otherwise those whose
    certificates are signed by one of the authorities, and those that have none
    only when certificates are not mandatory. *)
Definition verifies (c : TlsConfig) (v : Verifier) : Prop :=
  match mutual c with
  | None => v = no_client_auth
  | Some m =>
    ∃ text certs roots, to_reader open (ca_source m) = inl text ∧ pem_certs text = inl <$> certs ∧
      roots_of certs roots_empty = Some roots ∧
      verifier_build roots (default_crypto_provider c) (negb (mandatory m)) = inl v
  end.

Lemma client_verifier_spec c v : client_verifier open c = inl v ↔ verifies c v.
Proof.
  unfold client_verifier, verifies, load_ca_certs. destruct (mutual c) as [m|]; [|naive_solver].
  rewrite and_then_inl. setoid_rewrite map_err_inl. setoid_rewrite and_then_inl. setoid_rewrite map_err_inl.
  setoid_rewrite add_roots_spec. naive_solver.
Qed.

(** A TLS configuration takes effect as it is written: a server configuration is
    made exactly when the chain parses, there is exactly one key and it is
    usable, the authorities of clients are all added, and rustls takes them;
    then it has these, the order of ciphers is the server's if it is preferred,
    and without a process-wide provider the cipher suites are exactly those
    configured, in order. *)
Theorem server_config_spec http2 (c : TlsConfig) (s : ServerConfig) :
  server_config open http2 c = inl s ↔
  verifies c (verifier s) ∧
  (∃ text, to_reader open (cert_source c) = inl text ∧ pem_certs text = inl <$> chain s) ∧
  (∃ text item, to_reader open (key_source c) = inl text ∧ pem_read_all text = [inl item] ∧
    item_key item = inl (private_key s) ∧ load_private_key (provider s) (private_key s) = inl tt) ∧
  protocol_versions (provider s) = inl tt ∧
  single_cert (provider s) (verifier s) (chain s) (private_key s) = inl tt ∧ ticketer = inl tt ∧
  provider s = default (ring_provider (ring_suite <$> cipher_set c)) provider_default ∧
  ignore_client_order s = prefer_server_cipher_order c ∧ session_cache s = 1024 ∧
  alpn_protocols s = (if http2 then [ #"h2"] else []) ++ [ #"http/1.1"].
Proof.
  unfold server_config. rewrite and_then_inl. setoid_rewrite client_verifier_spec.
  setoid_rewrite and_then_inl. setoid_rewrite map_err_inl. setoid_rewrite and_then_inl.
  setoid_rewrite load_certs_spec. setoid_rewrite and_then_inl. setoid_rewrite load_key_spec.
  setoid_rewrite and_then_inl. setoid_rewrite map_err_inl. setoid_rewrite and_then_inl. setoid_rewrite map_err_inl.
  split.
  - intros (v & Hv & [] & Hp & certs & Hc & k & Hk & [] & Hs & [] & Ht & [= <-]). by split_and!.
  - destruct s as [p v certs k i n a]. cbn. intros (Hv & Hc & Hk & Hp & Hs & Ht & -> & -> & -> & ->).
    exists v. split; [done|]. exists tt. split; [done|]. exists certs. split; [done|]. exists k. split; [done|].
    exists tt. split; [done|]. exists tt. done.
Qed.
End configured.

(** ** Certificates as such *)

Module TlsReference.
#[export] Instance x509_ref : X509 := {
  X509Certificate := str * list X509Extension;
  X509Name := str;
  X509Error := unit;
  from_der raw :=
    match raw with
    | "0"%char :: subject => inl ([], (subject, [mkExtension true true (SubjectAlternativeName #"DNS:a")]))
    | "1"%char :: subject => inl ([], (subject, [mkExtension true true OtherExtension]))
    | "2"%char :: subject => inl ([], (subject, [mkExtension true false OtherExtension]))
    | "3"%char :: rest => inl (rest, ([], []))
    | _ => inr (DerIncomplete None)
    end;
  x509_subject := fst;
  x509_issuer := fst;
  x509_serial _ := 7%N;
  x509_version _ := 2%Z;
  x509_extensions := snd;
  as_raw := id;
  common_name_attributes name := [Some name];
  email_attributes _ := [None];
  parse_biguint s := if bool_decide (s = #"7") then Some 7%N else None;
}.

(** With a subject anything goes; without, only a [subjectAlt] that is critical
    and does not parse. *)
Example certificate_examples :
  (λ raw, match certificate_guard (Some [raw]) with Success c => inl (common_name (subject c)) | Error (_, e) => inr (Some e) | Forward _ => inr None end)
    <$> [ #"0CN"; #"0"; #"1"; #"2"; #"3"; #"3x"; #"x"] =
  [inl (Some #"CN"); inr (Some NoSubject); inl (Some []); inr (Some NonCriticalSubjectAlt); inr (Some NoSubject);
   inr (Some (Trailing 1)); inr (Some (Incomplete None))].
Proof. by vm_compute. Qed.
End TlsReference.
