(* ===== verification/LocalClient.v ===== *)
(** * LocalClient: requests without a network
    (core/lib/src/local/asynchronous/client.rs, request.rs, response.rs and the
    methods of core/lib/src/local/client.rs, request.rs)

    A local client dispatches requests to an instance and, when it is tracking,
    keeps the cookies of the responses for the requests that follow.  The jar
    behind its lock is a field of the client, which a dispatch returns anew;
    requests made before and after may be dispatched in any order.  The time is
    an argument of the dispatch. *)

From S2P Require Import Prelude Crates RawStr Header Method MediaType UriTables MediaParse.
From S2P Require Import Uri UriForms Route Catcher Request Router FormName FormParser Data Cookies.
From S2P Require Import Response Status Outcome Lifecycle FormError FromForm Params Generated Endpoint Server.

(** [Cookie::expires_datetime], in seconds. *)
Class CookieExpiry `{CookieCrate} := { expires_datetime : cookie → option Z }.

Section local.
Context {U : Uncased} {P : Pear} {PC : PearCombinators} {IM : IndexMap str (list str) uncased_eq}.
Context {SP : StablePattern} {M : Memchr} {PE : PercentEncoding} {CC : CookieCrate} {CP : CookieParse}.
Context {CJ : CookieJars} {CE : CookieExpiry} {NA : NetAddrs} {TlsConfig Certificates IoHandler : Type}.
Abbreviation Setting := (Setting (TlsConfig := TlsConfig)).
Abbreviation Incoming := (Incoming (IM := IM) (TlsConfig := TlsConfig) (Certificates := Certificates)).

(** [struct Client]. *)
Record Client := mkClient {
  rocket : Rocket (IM := IM) (IoHandler := IoHandler);
  setting : Setting;
  client_cookies : jar;
  tracked : bool;
}.

(** [Client::_new] on the instance launched on its endpoint, and that endpoint. *)
Definition local_endpoint (secure : bool) : Endpoint TlsConfig :=
  if secure then assume_tls (Custom #"local client") else Custom #"local client".

Definition client_new (rocket : Rocket) (ip_header proxy_proto_header : option str) (tracked secure : bool) : Client :=
  mkClient rocket (mkSetting ip_header proxy_proto_header [local_endpoint secure]) jar_new tracked.

(** [Client::cookies]. *)
Definition client_jar (self : Client) : CookieJar :=
  jar_init (Some (client_cookies self)) (forallb is_tls (endpoints (setting self))).

(** [struct LocalRequest]; the URI on the right is not valid. *)
Record LocalRequest := mkLocalRequest { request : Incoming; data : str; uri : Origin + Origin }.

Definition set_request (request : Incoming) (self : LocalRequest) : LocalRequest :=
  mkLocalRequest request (data self) (uri self).

Definition add_original_cookie (c : cookie) (self : Incoming) : Incoming :=
  mkIncoming (inner self) (add_original c (cookies self)) (host self) (version self) (errors self) (connection self).

(** [LocalRequest::new], of what the URI converts to and its text. *)
Definition local_request_new (client : Client) (method : Method) (uri : option Origin) (uri_str : str) : LocalRequest :=
  let try_origin := match uri with Some origin => inl origin | None => inr (Origin_new uri_str None) end in
  let origin := match try_origin with inl origin => origin | inr bad => bad end in
  let request := incoming_new (setting client) method origin None in
  let request :=
    if tracked client then foldl (λ r c, add_original_cookie c r) request (jar_iter (client_cookies client)) else request in
  mkLocalRequest request [] try_origin.

(** [LocalRequest::override_version], [header] and [add_header], [remote],
    [cookie], [cookies], [body] and [set_body]. *)
Definition override_version (v : HttpVersion) (self : LocalRequest) : LocalRequest :=
  let r := request self in
  set_request (mkIncoming (inner r) (cookies r) (host r) (Some v) (errors r) (connection r)) self.

Definition local_header (h : Header) (self : LocalRequest) : LocalRequest :=
  let r := request self in
  let headed := add_header h (inner r) in
  set_request (mkIncoming headed (CookieJar_with (original (cookies r)) (ops (cookies r)) (secure headed)) (host r)
    (version r) (errors r) (connection r)) self.

Definition local_remote (endpoint : option (Endpoint TlsConfig)) (self : LocalRequest) : LocalRequest :=
  match endpoint with
  | Some endpoint => set_request (set_remote endpoint (request self)) self
  | None => self
  end.

Definition local_cookie (c : cookie) (self : LocalRequest) : LocalRequest :=
  set_request (add_original_cookie c (request self)) self.

Definition local_cookies (cs : list cookie) (self : LocalRequest) : LocalRequest :=
  foldl (λ self c, local_cookie c self) self cs.

Definition local_body (body : str) (self : LocalRequest) : LocalRequest :=
  mkLocalRequest (request self) body (uri self).

(** [struct LocalResponse] with [LocalResponse::new]: its cookies are those the
    response sets. *)
Record LocalResponse := mkLocalResponse { response : Response IM IoHandler; response_jar : CookieJar }.

Definition set_cookies (response : Response IM IoHandler) : list cookie :=
  omap parse_cookie (Header.get #"Set-Cookie" (resp_headers response)).

Definition local_response_new (rocket : Setting) (response : Response IM IoHandler) : LocalResponse :=
  mkLocalResponse response (foldl (λ j c, add_original c j) (jar_for rocket) (set_cookies response)).

(** What tracking does to the jar with one cookie. *)
Definition expired (current_time : Z) (c : cookie) : bool :=
  match expires_datetime c with Some expires => (expires <=? current_time)%Z | None => false end.

Definition track_cookie (current_time : Z) (j : jar) (c : cookie) : jar :=
  if expired current_time c then jar_force_remove (cookie_name c) j else jar_add_original c j.

(** [LocalRequest::_dispatch], for a URI that is not valid and in general. *)
Definition invalid_uri (self : LocalRequest) : bool :=
  match uri self with inr invalid => bool_decide (req_uri (inner (request self)) = invalid) | inl _ => false end.

Definition _dispatch (client : Client) (current_time : Z) (self : LocalRequest) : option (LocalResponse * Client) :=
  let rocket := rocket client in
  if invalid_uri self then
    '(r, _) ← dispatch_error rocket Status.BadRequest (inner (request self)) (cookies (request self));
    Some (local_response_new (setting client) r, client)
  else
    let '(req, d, jar) := preprocess rocket (inner (request self)) (data_local (data self)) (cookies (request self)) in
    r ← dispatch rocket req d jar;
    let response := local_response_new (setting client) r in
    let tracked_jar :=
      if tracked client then foldl (track_cookie current_time) (client_cookies client) (jar_iter (original (response_jar response)))
      else client_cookies client in
    Some (response, mkClient rocket (setting client) tracked_jar (tracked client)).
End local.

(** ** A tracking client is a store of cookies *)

Section sessions.
Context {U : Uncased} {P : Pear} {PC : PearCombinators} {IM : IndexMap str (list str) uncased_eq}.
Context {SP : StablePattern} {M : Memchr} {PE : PercentEncoding} {CC : CookieCrate} {CP : CookieParse}.
Context {CJ : CookieJars} {CJL : CookieJarsLaws} {CE : CookieExpiry} {NA : NetAddrs}.
Context {TlsConfig Certificates IoHandler : Type}.
Abbreviation Client := (Client (IM := IM) (TlsConfig := TlsConfig) (IoHandler := IoHandler)).
Abbreviation LocalRequest := (LocalRequest (IM := IM) (TlsConfig := TlsConfig) (Certificates := Certificates)).

(** What a response says of a name, by the last cookie it sets with it. *)
Definition verdict (now : Z) (n : str) (known : option cookie) (cs : list cookie) : option cookie :=
  match last (List.filter (λ c, bool_decide (cookie_name c = n)) cs) with
  | Some c => if expired now c then None else Some c
  | None => known
  end.

(** Dispatches one after the other, with the times and the cookies set by the
    responses of those that were routed. *)
Inductive session : Client → list (Z * list cookie) → Client → Prop :=
  | session_nil client : session client [] client
  | session_dispatch client now (req : LocalRequest) res client' events client'' :
      _dispatch client now req = Some (res, client') → session client' events client'' →
      session client (if invalid_uri req then events else (now, set_cookies (response res)) :: events) client''.

Lemma find_none_name n cs : n ∉ cookie_name <$> cs → List.find (λ c, bool_decide (cookie_name c = n)) cs = None.
Proof.
  induction cs as [|c cs IH]; [done|]. rewrite fmap_cons, not_elem_of_cons. intros [Hc Hn]. simpl.
  rewrite bool_decide_eq_false_2 by congruence. by apply IH.
Qed.

Lemma last_filter_find n cs : NoDup (cookie_name <$> cs) →
  last (List.filter (λ c, bool_decide (cookie_name c = n)) cs) = List.find (λ c, bool_decide (cookie_name c = n)) cs.
Proof.
  induction cs as [|c cs IH]; [done|]. rewrite fmap_cons, NoDup_cons. intros [Hc Hn]. simpl. specialize (IH Hn).
  case_bool_decide; [|done]. subst n. rewrite find_none_name in IH by done. by destruct (List.filter _ cs) as [|d ds] using rev_ind;
    [|rewrite last_snoc in IH].
Qed.

(** The jar after the cookies of a response, which have distinct names. *)
Lemma track_get now n cs j : jar_plain j → NoDup (cookie_name <$> cs) →
  jar_plain (foldl (track_cookie now) j cs) ∧
  jar_get n (foldl (track_cookie now) j cs) =
    match List.find (λ c, bool_decide (cookie_name c = n)) cs with
    | Some c => if expired now c then None else Some c
    | None => jar_get n j
    end.
Proof.
  revert j. induction cs as [|c cs IH]; intros j Hj; [done|]. rewrite fmap_cons, NoDup_cons. intros [Hc Hn]. simpl.
  assert (jar_plain (track_cookie now j c)) as Hp.
  { unfold track_cookie. destruct (expired now c); [by apply plain_force_remove|by apply plain_add_original]. }
  destruct (IH _ Hp Hn) as [Hp' ->]. split; [done|]. case_bool_decide as He.
  - subst n. rewrite find_none_name by done. unfold track_cookie.
    destruct (expired now c); by rewrite ?get_force_remove, ?get_add_original, bool_decide_eq_true_2.
  - case_match; [done|]. unfold track_cookie.
    destruct (expired now c); by rewrite ?get_force_remove, ?get_add_original, bool_decide_eq_false_2.
Qed.

(** A new request of a tracking client has the cookies of its jar. *)
Lemma request_cookies (client : Client) method u s n :
  tracked client = true → jar_plain (client_cookies client) →
  cookies_get n (cookies (request (local_request_new (Certificates := Certificates) client method u s))) =
    jar_get n (client_cookies client).
Proof.
  intros Ht Hp. unfold local_request_new. rewrite Ht. cbn [request].
  set (r0 := incoming_new _ _ _ _).
  assert (∀ cs (r : Incoming (IM := IM) (TlsConfig := TlsConfig) (Certificates := Certificates)), original (cookies (foldl (λ r c, add_original_cookie c r) r cs)) =
    foldl (λ j c, jar_add_original c j) (original (cookies r)) cs) as Ho.
  { induction cs as [|c cs IH]; intros r; [done|]. simpl. by rewrite IH. }
  unfold cookies_get. rewrite Ho. change (original (cookies r0)) with jar_new.
  rewrite (proj2 (jar_get_originals _ _ n plain_new)), get_new, <-(find_iter n) by done.
  rewrite (last_filter_find n) by by apply jar_iter_names. by destruct (List.find _ _).
Qed.
(** One dispatch of a tracking client. *)
Lemma dispatch_tracks (client client' : Client) now (req : LocalRequest) res :
  _dispatch client now req = Some (res, client') → jar_plain (client_cookies client) →
  tracked client' = tracked client ∧ setting client' = setting client ∧ rocket client' = rocket client ∧
  jar_plain (client_cookies client') ∧
  (tracked client = false → client_cookies client' = client_cookies client) ∧
  ∀ n, jar_get n (client_cookies client') =
    if tracked client && negb (invalid_uri req)
    then verdict now n (jar_get n (client_cookies client)) (set_cookies (response res))
    else jar_get n (client_cookies client).
Proof.
  unfold _dispatch. intros Hd Hp. destruct (invalid_uri req); simpl in *.
  { destruct (dispatch_error _ _ _ _) as [[r j]|]; [|done]. simpl in Hd. simplify_eq. rewrite andb_false_r. done. }
  destruct (preprocess _ _ _ _) as [[r d] j]. destruct (dispatch _ r d j) as [resp|]; [|done]. simpl in Hd. simplify_eq.
  cbn [tracked setting rocket client_cookies]. destruct (tracked client); [|done]. simpl.
  assert (∀ cs j, original (foldl (λ j c, add_original c j) j cs) = foldl (λ j c, jar_add_original c j) (original j) cs) as Ho.
  { induction cs as [|c cs IH]; intros k; [done|]. simpl. by rewrite IH. }
  rewrite Ho. cbn [original jar_for jar_init default].
  pose proof (jar_get_originals (set_cookies resp) jar_new) as Hj.
  destruct (Hj [] plain_new) as [Hpj _]. pose proof (jar_iter_names _ Hpj) as Hn.
  split_and!; try done; [by apply (track_get now [])|]. intros n. simpl.
  rewrite (proj2 (track_get now n _ _ Hp Hn)), find_iter by done. destruct (Hj n plain_new) as [_ ->].
  unfold verdict. rewrite get_new. by destruct (last _).
Qed.

Lemma dispatches (client : Client) now (req : LocalRequest) : is_Some (_dispatch client now req).
Proof.
  unfold _dispatch. destruct (invalid_uri req).
  - destruct (dispatch_error_total (rocket client) Status.BadRequest (inner (request req)) (cookies (request req))) as [[r j] ->].
    by eexists.
  - destruct (preprocess _ _ _ _) as [[r d] j]. destruct (dispatch_some (rocket client) r d j) as [resp ->]. by eexists.
Qed.

Lemma session_tracks (client client' : Client) events :
  session client events client' → jar_plain (client_cookies client) →
  tracked client' = tracked client ∧ jar_plain (client_cookies client') ∧
  (tracked client = true → ∀ n, jar_get n (client_cookies client') =
     foldl (λ known '(now, cs), verdict now n known cs) (jar_get n (client_cookies client)) events) ∧
  (tracked client = false → client_cookies client' = client_cookies client).
Proof.
  induction 1 as [client|client now req res client' events client'' Hd Hs IH]; [done|]. intros Hp.
  destruct (dispatch_tracks _ _ _ _ _ Hd Hp) as (Ht & _ & _ & Hp' & Hu & Hk).
  destruct (IH Hp') as (Ht' & Hp'' & Hk' & Hu'). split_and!; [congruence|done| |].
  - intros Htr n. rewrite Hk', Hk, Htr by congruence. by destruct (invalid_uri req).
  - intros Htr. rewrite Hu', Hu by congruence. done.
Qed.

End sessions.

(** ** A concrete instance *)

Module LocalReference.
Import Reference PearReference PearCombinatorsReference PearUriReference HeaderReference CookieReference.
Import EndpointReference ServerReference.

(** No cookie of this instance expires, but one without a value has. *)
#[export] Instance cookie_expiry_ref : CookieExpiry := {|
  expires_datetime c := if is_empty (rec_value c) then Some 0%Z else None |}.

(** A server that sets a cookie and removes another. *)
Definition baker : Rocket (IM := header_index) (IoHandler := unit) :=
  Rocket_new (router bare) [] [λ _ resp jar,
    (adjoin_header (Header_new #"Set-Cookie" #"id=1") (adjoin_header (Header_new #"Set-Cookie" #"old=") resp), jar)] None None.

Definition tracking : Client (TlsConfig := unit) := client_new baker None None true false.
Definition visit : LocalRequest := local_request_new (Certificates := unit) tracking Get (Some root) #"/".

End LocalReference.
