(* ===== verification/SyncPool.v ===== *)
(** * SyncPool: pools of blocking database connections
    (contrib/sync_db_pools/lib/src/connection.rs)

    Tasks get connections from a pool, run closures on them and drop them;
    what blocks is done by jobs on other threads, and a task may be cancelled
    wherever it awaits.  The system is a function of events: each is what one
    task or one job does between two points where others may run.  Tasks, jobs
    and the cells that connections share with their jobs are numbered in the
    order in which they come up.

    The semaphore of tokio and the pool of r2d2 are classes of operations with
    the number of permits and of connections still to be had; the mutex of a
    cell is the flag [locked] with the steps that wait for it not enabled. *)

From S2P Require Import Prelude Status Outcome.

(** [tokio::sync::Semaphore]: [acquire] completes when [try_acquire] succeeds;
    a dropped permit is released. *)
Class Semaphores := {
  Semaphore : Type;
  semaphore_new : nat → Semaphore;
  try_acquire : Semaphore → option Semaphore;
  release : Semaphore → Semaphore;
  available_permits : Semaphore → nat;
}.

Class SemaphoresLaws `{Semaphores} : Prop := {
  available_new n : available_permits (semaphore_new n) = n;
  try_acquire_Some s s' : try_acquire s = Some s' → available_permits s = S (available_permits s');
  try_acquire_None s : try_acquire s = None → available_permits s = 0;
  available_release s : available_permits (release s) = S (available_permits s);
}.

(** [r2d2]: a connection of the pool, when one is idle or can be made, and its
    return; [spare] are the ones not handed out. *)
Class R2d2 := {
  Pool : Type;
  PooledConnection : Type;
  checkout : Pool → option (PooledConnection * Pool);
  put_back : PooledConnection → Pool → Pool;
  spare : Pool → nat;
}.

Class R2d2Laws `{R2d2} : Prop := {
  checkout_Some p c p' : checkout p = Some (c, p') → spare p = S (spare p');
  put_back_spare c p : spare (put_back c p) = S (spare p);
}.

Section pool.
Context `{Semaphores} `{R2d2}.

(** What a [Connection] shares with its jobs: [Arc<Mutex<Option<..>>>]. *)
Record Cell := mkCell { held : option PooledConnection; locked : bool }.

(** How the closure of [run] ended: [Broken] is the panic of its [expect]. *)
Inductive Ran := Returned | Panicked | Broken.

(** The jobs given to [spawn_blocking], with whether a task awaits them:
    [get_timeout] of the pool, and its result; the closure of [run], waiting for
    the lock, holding it, done; the closure of [Drop]. *)
Inductive Job :=
  | JGet (joined : bool)
  | JGot (r : option PooledConnection)
  | JRun (c : nat) (joined : bool)
  | JRunning (c : nat) (joined : bool)
  | JRan (joined : bool) (r : Ran)
  | JDrop (c : nat)
  | JDone.

(** A task: in [get], awaiting the semaphore or the job that has the permit
    behind it; owning a [Connection], and in its [run]; and without one. *)
Inductive Task :=
  | Acquiring
  | Getting (k : nat)
  | Holding (c : nat)
  | Running (c k : nat)
  | Finished.

Record Sys := mkSys {
  semaphore : Semaphore;
  pool : Pool;
  tasks : list Task;
  jobs : list Job;
  cells : list Cell;
}.

Definition set_semaphore (x : Semaphore) (s : Sys) : Sys := mkSys x (pool s) (tasks s) (jobs s) (cells s).
Definition set_pool (x : Pool) (s : Sys) : Sys := mkSys (semaphore s) x (tasks s) (jobs s) (cells s).
Definition set_task (i : nat) (t : Task) (s : Sys) : Sys :=
  mkSys (semaphore s) (pool s) (<[i := t]> (tasks s)) (jobs s) (cells s).
Definition set_job (k : nat) (j : Job) (s : Sys) : Sys :=
  mkSys (semaphore s) (pool s) (tasks s) (<[k := j]> (jobs s)) (cells s).
Definition set_cell (c : nat) (x : Cell) (s : Sys) : Sys :=
  mkSys (semaphore s) (pool s) (tasks s) (jobs s) (<[c := x]> (cells s)).
Definition spawn_blocking (j : Job) (s : Sys) : Sys :=
  mkSys (semaphore s) (pool s) (tasks s) (jobs s ++ [j]) (cells s).
Definition cell_new (x : Cell) (s : Sys) : Sys :=
  mkSys (semaphore s) (pool s) (tasks s) (jobs s) (cells s ++ [x]).

(** A permit and a connection that are dropped. *)
Definition drop_permit (s : Sys) : Sys := set_semaphore (release (semaphore s)) s.
Definition drop_pooled (r : option PooledConnection) (s : Sys) : Sys :=
  match r with Some p => set_pool (put_back p (pool s)) s | None => s end.

(** A task calls [ConnectionPool::get]. *)
Definition get (s : Sys) : Sys := mkSys (semaphore s) (pool s) (tasks s ++ [Acquiring]) (jobs s) (cells s).

(** It gets a permit within the timeout, or not. *)
Definition get_permit (i : nat) (s : Sys) : option Sys :=
  match tasks s !! i with
  | Some Acquiring =>
    sem ← try_acquire (semaphore s);
    Some (set_task i (Getting (length (jobs s))) (spawn_blocking (JGet true) (set_semaphore sem s)))
  | _ => None
  end.

Definition get_no_permit (i : nat) (s : Sys) : option Sys :=
  match tasks s !! i with
  | Some Acquiring => Some (set_task i Finished s)
  | _ => None
  end.

(** The job gets a connection of the pool, or gives up; nobody takes the result
    of a job that is not awaited. *)
Definition get_done (k : nat) (joined : bool) (r : option PooledConnection) (s : Sys) : Sys :=
  if joined then set_job k (JGot r) s else set_job k JDone (drop_pooled r s).

Definition get_timeout (k : nat) (in_time : bool) (s : Sys) : option Sys :=
  match jobs s !! k with
  | Some (JGet joined) =>
    if in_time then '(p, pool) ← checkout (pool s); Some (get_done k joined (Some p) (set_pool pool s))
    else Some (get_done k joined None s)
  | _ => None
  end.

(** The task has the result. *)
Definition get_result (i : nat) (s : Sys) : option Sys :=
  match tasks s !! i with
  | Some (Getting k) =>
    match jobs s !! k with
    | Some (JGot (Some p)) =>
      Some (set_task i (Holding (length (cells s))) (set_job k JDone (cell_new (mkCell (Some p) false) s)))
    | Some (JGot None) => Some (set_task i Finished (set_job k JDone (drop_permit s)))
    | _ => None
    end
  | _ => None
  end.

(** [Connection::run]: the call, the lock and the [expect], the end of the
    closure. *)
Definition run (i : nat) (s : Sys) : option Sys :=
  match tasks s !! i with
  | Some (Holding c) => Some (set_task i (Running c (length (jobs s))) (spawn_blocking (JRun c true) s))
  | _ => None
  end.

Definition run_lock (k : nat) (s : Sys) : option Sys :=
  match jobs s !! k with
  | Some (JRun c joined) =>
    cell ← cells s !! c;
    if locked cell then None
    else match held cell with
         | Some p => Some (set_job k (JRunning c joined) (set_cell c (mkCell (Some p) true) s))
         | None => Some (set_job k (JRan joined Broken) s)
         end
  | _ => None
  end.

Definition run_return (k : nat) (panics : bool) (s : Sys) : option Sys :=
  match jobs s !! k with
  | Some (JRunning c joined) =>
    cell ← cells s !! c;
    Some (set_job k (JRan joined (if panics then Panicked else Returned)) (set_cell c (mkCell (held cell) false) s))
  | _ => None
  end.

(** [Drop for Connection], with a runtime and without, where it waits for the
    lock itself; and the job. *)
Definition drop_connection (c : nat) (s : Sys) : Sys := drop_permit (spawn_blocking (JDrop c) s).

Definition drop_outside (c : nat) (s : Sys) : option Sys :=
  cell ← cells s !! c;
  if locked cell then None
  else Some (drop_permit (set_cell c (mkCell None false) (drop_pooled (held cell) s))).

Definition drop_job (k : nat) (s : Sys) : option Sys :=
  match jobs s !! k with
  | Some (JDrop c) =>
    cell ← cells s !! c;
    if locked cell then None
    else Some (set_job k JDone (set_cell c (mkCell None false) (drop_pooled (held cell) s)))
  | _ => None
  end.

(** The end of [run] for the task: a panic is propagated and drops the
    connection. *)
Definition run_result (i : nat) (s : Sys) : option Sys :=
  match tasks s !! i with
  | Some (Running c k) =>
    match jobs s !! k with
    | Some (JRan _ Returned) => Some (set_task i (Holding c) (set_job k (JRan false Returned) s))
    | Some (JRan _ r) => Some (set_task i Finished (drop_connection c (set_job k (JRan false r) s)))
    | _ => None
    end
  | _ => None
  end.

Definition drop_task (i : nat) (runtime : bool) (s : Sys) : option Sys :=
  match tasks s !! i with
  | Some (Holding c) =>
    if runtime then Some (set_task i Finished (drop_connection c s))
    else set_task i Finished <$> drop_outside c s
  | _ => None
  end.

(** The future of a task is dropped: a job it awaits is no longer, what it owns
    is dropped. *)
Definition detach (j : Job) : Job :=
  match j with
  | JGet _ => JGet false
  | JRun c _ => JRun c false
  | JRunning c _ => JRunning c false
  | JRan _ r => JRan false r
  | j => j
  end.

Definition cancel (i : nat) (s : Sys) : option Sys :=
  match tasks s !! i with
  | Some Acquiring => Some (set_task i Finished s)
  | Some (Getting k) =>
    job ← jobs s !! k;
    let s := match job with
             | JGot r => set_job k JDone (drop_pooled r s)
             | job => set_job k (detach job) s
             end in
    Some (set_task i Finished (drop_permit s))
  | Some (Running c k) =>
    job ← jobs s !! k;
    Some (set_task i Finished (drop_connection c (set_job k (detach job) s)))
  | _ => None
  end.

(** The events, and their effect. *)
Inductive Event :=
  | EGet
  | EPermit (i : nat)
  | ENoPermit (i : nat)
  | ETimeout (k : nat) (in_time : bool)
  | EResult (i : nat)
  | ERun (i : nat)
  | ELock (k : nat)
  | EReturn (k : nat) (panics : bool)
  | ERunResult (i : nat)
  | EDrop (i : nat) (runtime : bool)
  | EDropJob (k : nat)
  | ECancel (i : nat).

Definition step (e : Event) (s : Sys) : option Sys :=
  match e with
  | EGet => Some (get s)
  | EPermit i => get_permit i s
  | ENoPermit i => get_no_permit i s
  | ETimeout k in_time => get_timeout k in_time s
  | EResult i => get_result i s
  | ERun i => run i s
  | ELock k => run_lock k s
  | EReturn k panics => run_return k panics s
  | ERunResult i => run_result i s
  | EDrop i runtime => drop_task i runtime s
  | EDropJob k => drop_job k s
  | ECancel i => cancel i s
  end.

Fixpoint steps (es : list Event) (s : Sys) : option Sys :=
  match es with
  | [] => Some s
  | e :: es => s ← step e s; steps es s
  end.

(** A pool as [ConnectionPool::fairing] makes it; [None] is the failure of the
    ignition, by the configuration or the pool. *)
Definition pool_new (pool_size : nat) (pool : Pool) : Sys := mkSys (semaphore_new pool_size) pool [] [] [].

Definition fairing {Config E1 E2} (config : Config + E1) (pool_size : Config → nat) (pool : Pool + E2) : option Sys :=
  match config with
  | inr _ => None
  | inl config => match pool with inl pool => Some (pool_new (pool_size config) pool) | inr _ => None end
  end.

(** [ConnectionPool::get_one], [FromRequest] and [Sentinel] of [Connection], of
    the managed state and the connection [get] yields from it. *)
Definition get_one (state : option Sys) (got : Sys → option nat) : option nat :=
  match state with Some pool => got pool | None => None end.

Definition from_request (state : option Sys) (got : Sys → option nat) : Outcome nat (Status * unit) Status :=
  match state with
  | Some c => Outcome.option_or_error (got c) (Status.ServiceUnavailable, tt)
  | None => Error (Status.InternalServerError, tt)
  end.

Definition abort (state : option Sys) : bool := match state with None => true | Some _ => false end.
End pool.

(** ** Counting permits, connections, owners and locks *)

Lemma sum_insert {A} (f : A → nat) (l : list A) i x y :
  l !! i = Some x → sum_list_with f (<[i := y]> l) + f x = sum_list_with f l + f y.
Proof.
  revert i. induction l as [|a l IH]; intros [|i] Hi; simplify_eq/=; [lia|]. specialize (IH i Hi). lia.
Qed.

Lemma sum_ge {A} (f : A → nat) (l : list A) i x : l !! i = Some x → f x ≤ sum_list_with f l.
Proof.
  revert i. induction l as [|a l IH]; intros [|i] Hi; simplify_eq/=; [lia|]. specialize (IH i Hi). lia.
Qed.

Lemma sum_two {A} (f : A → nat) (l : list A) i j x y :
  l !! i = Some x → l !! j = Some y → i ≠ j → f x + f y ≤ sum_list_with f l.
Proof.
  revert i j. induction l as [|a l IH]; intros [|i] [|j] Hi Hj Hne; simplify_eq/=.
  - pose proof (sum_ge f l j y Hj). lia.
  - pose proof (sum_ge f l i x Hi). lia.
  - assert (i ≠ j) as Hne' by lia. specialize (IH i j Hi Hj Hne'). lia.
Qed.

Lemma sum_snoc {A} (f : A → nat) (l : list A) x : sum_list_with f (l ++ [x]) = sum_list_with f l + f x.
Proof. rewrite sum_list_with_app. simpl. lia. Qed.

Section counting.
Context `{Semaphores} `{R2d2}.

Definition b2n (b : bool) : nat := if b then 1 else 0.

(** The permits a task has, the connection it owns, the job it awaits. *)
Definition permits (t : Task) : nat := match t with Getting _ | Holding _ | Running _ _ => 1 | _ => 0 end.
Definition owns (c : nat) (t : Task) : nat :=
  match t with Holding c' | Running c' _ => b2n (bool_decide (c' = c)) | _ => 0 end.
Definition waits_on (t : Task) : option nat := match t with Getting k | Running _ k => Some k | _ => None end.
Definition joins (k : nat) (t : Task) : nat := b2n (bool_decide (waits_on t = Some k)).

(** The connection a job has as its result, the one it drops, the one it has
    locked, and whether it is awaited. *)
Definition got (j : Job) : nat := match j with JGot (Some _) => 1 | _ => 0 end.
Definition drops (c : nat) (j : Job) : nat := match j with JDrop c' => b2n (bool_decide (c' = c)) | _ => 0 end.
Definition runs (c : nat) (j : Job) : nat := match j with JRunning c' _ => b2n (bool_decide (c' = c)) | _ => 0 end.
Definition awaited (j : Job) : nat :=
  match j with JGet b | JRun _ b | JRunning _ b | JRan b _ => b2n b | JGot _ => 1 | _ => 0 end.

Definition holds (x : Cell) : nat := match held x with Some _ => 1 | None => 0 end.
Definition locks (x : Cell) : nat := b2n (locked x).
Definition at_index {A} (f : A → nat) (l : list A) (i : nat) : nat := match l !! i with Some x => f x | None => 0 end.

(** What a task awaits is a job of its kind, which has not found its cell
    empty. *)
Definition fits (t : Task) (j : Job) : Prop :=
  match t, j with
  | Getting _, (JGet _ | JGot _) => True
  | Running c _, (JRun c' _ | JRunning c' _) => c' = c
  | Running _ _, JRan _ r => r ≠ Broken
  | _, _ => False
  end.

Definition await (js : list Job) (ts : list Task) : Prop :=
  ∀ t k, t ∈ ts → waits_on t = Some k → ∃ j, js !! k = Some j ∧ fits t j.

Definition in_cells (n : nat) (j : Job) : Prop := match j with JRun c _ => c < n | _ => True end.

(** The invariant of a pool of [size] connections. *)
Record pool_inv (size : nat) (s : Sys) : Prop := mkPoolInv {
  all_permits : available_permits (semaphore s) + sum_list_with permits (tasks s) = size;
  all_connections : spare (pool s) + sum_list_with holds (cells s) + sum_list_with got (jobs s) = size;
  one_owner c : sum_list_with (owns c) (tasks s) + sum_list_with (drops c) (jobs s) = at_index holds (cells s) c;
  one_lock c : sum_list_with (runs c) (jobs s) = at_index locks (cells s) c;
  one_waiter k : sum_list_with (joins k) (tasks s) = at_index awaited (jobs s) k;
  lock_held c : at_index locks (cells s) c ≤ at_index holds (cells s) c;
  run_cells : Forall (in_cells (length (cells s))) (jobs s);
  tasks_await : await (jobs s) (tasks s);
}.

Lemma at_index_insert {A} (f : A → nat) l i j x y :
  l !! i = Some x → at_index f (<[i := y]> l) j = if decide (i = j) then f y else at_index f l j.
Proof.
  intros Hi. unfold at_index. case_decide as He; [subst|].
  - by rewrite list_lookup_insert_eq by (by eapply lookup_lt_Some).
  - by rewrite list_lookup_insert_ne.
Qed.

Lemma at_index_snoc {A} (f : A → nat) l j y :
  at_index f (l ++ [y]) j = if decide (length l = j) then f y else at_index f l j.
Proof.
  unfold at_index. case_decide as He; [subst; by rewrite list_lookup_middle|].
  destruct (decide (j < length l)); [by rewrite lookup_app_l|].
  rewrite lookup_app_r by lia. rewrite (lookup_ge_None_2 [y]) by (simpl; lia). by rewrite lookup_ge_None_2 by lia.
Qed.

Lemma at_index_fresh {A} (f : A → nat) l : at_index f l (length l) = 0.
Proof. unfold at_index. by rewrite lookup_ge_None_2. Qed.

Lemma at_index_Some {A} (f : A → nat) l i x : l !! i = Some x → at_index f l i = f x.
Proof. unfold at_index. by intros ->. Qed.

(** Awaiting while tasks and jobs change. *)
Lemma await_job js ts k j j' :
  await js ts → js !! k = Some j → (∀ t, t ∈ ts → waits_on t = Some k → fits t j → fits t j') →
  await (<[k := j']> js) ts.
Proof.
  intros Ha Hj Hk t k' Ht Hw. destruct (Ha t k' Ht Hw) as (j0 & Hj0 & Hf). destruct (decide (k = k')) as [<-|Hne].
  - exists j'. rewrite list_lookup_insert_eq by (by eapply lookup_lt_Some). simplify_eq. by split; [|apply Hk].
  - exists j0. by rewrite list_lookup_insert_ne.
Qed.

Lemma await_spawn js ts j : await js ts → await (js ++ [j]) ts.
Proof.
  intros Ha t k Ht Hw. destruct (Ha t k Ht Hw) as (j0 & Hj0 & Hf). exists j0. split; [by apply lookup_app_l_Some|done].
Qed.

Lemma await_task js ts i t' :
  await js ts → (∀ k, waits_on t' = Some k → ∃ j, js !! k = Some j ∧ fits t' j) → await js (<[i := t']> ts).
Proof.
  intros Ha Ht' t k [i' Ht]%list_elem_of_lookup Hw. apply list_lookup_insert_Some in Ht as [(_ & <- & _)|[_ Ht]].
  - by apply Ht'.
  - eapply Ha; [|done]. by apply list_elem_of_lookup; exists i'.
Qed.

(** The one task that awaits a job is done with it. *)
Lemma await_joined js ts i t t' k j' :
  await js ts → ts !! i = Some t → waits_on t = Some k → sum_list_with (joins k) ts ≤ 1 → waits_on t' = None →
  await (<[k := j']> js) (<[i := t']> ts).
Proof.
  intros Ha Hi Hw Hs Hn t0 k0 [i0 Ht]%list_elem_of_lookup Hw0.
  apply list_lookup_insert_Some in Ht as [(_ & <- & _)|[Hne Ht]]; [congruence|].
  destruct (Ha t0 k0) as (j0 & Hj0 & Hf); [by apply list_elem_of_lookup; exists i0|done|]. exists j0.
  split; [|done]. rewrite list_lookup_insert_ne; [done|]. intros <-.
  pose proof (sum_two (joins k) ts i i0 t t0 Hi Ht Hne) as H2. unfold joins at 1 2 in H2.
  rewrite !bool_decide_eq_true_2 in H2 by done. simpl in H2. lia.
Qed.

Lemma awaited_le js k : at_index awaited js k ≤ 1.
Proof. unfold at_index. destruct (js !! k) as [[[]|?|? []|? []|[] ?|?|]|]; simpl; lia. Qed.

Lemma no_waiter k ts t : sum_list_with (joins k) ts = 0 → t ∈ ts → waits_on t ≠ Some k.
Proof.
  intros Hs [i Hi]%list_elem_of_lookup Hw. pose proof (sum_ge (joins k) ts i t Hi) as Hge. unfold joins at 1 in Hge.
  rewrite bool_decide_eq_true_2 in Hge by done. simpl in Hge. lia.
Qed.
End counting.

(** Counts after an update, by the counts before. *)
Ltac tally :=
  cbn [semaphore pool tasks jobs cells set_semaphore set_pool set_task set_job set_cell spawn_blocking cell_new
    drop_permit drop_pooled drop_connection];
  repeat first [rewrite sum_snoc | erewrite at_index_insert by eassumption | rewrite at_index_snoc]; rewrite ?length_insert;
  repeat match goal with
  | H : ?l !! ?i = Some ?x |- context [sum_list_with ?f (<[?i := ?y]> ?l)] =>
    let E := fresh "E" in pose proof (sum_insert f l i x y H) as E; revert E;
    generalize (sum_list_with f (<[i := y]> l)); intros ? ?
  end;
  repeat match goal with
  | H : ?l !! ?i = Some ?x |- context [at_index ?f ?l ?i] => rewrite (at_index_Some f l i x H)
  end;
  unfold permits, owns, joins, got, drops, runs, awaited, holds, locks, b2n in *; cbn [waits_on held locked] in *;
  repeat case_bool_decide; repeat case_decide; simplify_eq; rewrite ?at_index_fresh in *;
  repeat match goal with
  | H : ?l !! ?i = Some ?x, H2 : context [at_index ?f ?l ?i] |- _ =>
    rewrite (at_index_Some f l i x H) in H2; cbn [held locked] in H2
  end; try lia.

(** The cells of the jobs are still there. *)
Ltac keep_cells :=
  cbn [semaphore pool tasks jobs cells set_semaphore set_pool set_task set_job set_cell spawn_blocking cell_new
    drop_permit drop_pooled drop_connection]; rewrite ?length_insert, ?length_app;
  repeat match goal with
  | H : Forall ?P ?l |- Forall ?P ?l => exact H
  | |- Forall _ (_ ++ _) => apply Forall_app; split
  | |- Forall _ (<[_ := _]> _) => apply Forall_insert
  | |- Forall _ [_] => apply Forall_cons; split; [|constructor]
  end; try first [exact I | assumption];
  try match goal with
  | H : Forall (in_cells _) ?l, Hk : ?l !! _ = Some (JRun ?c _) |- in_cells _ (JRun ?c _) =>
    exact (Forall_lookup_1 _ _ _ _ H Hk)
  end;
  try (eapply Forall_impl; [eassumption|]; intros []; simpl; lia).

(** The parts of the invariant that count; the last part is left. *)
Ltac counts :=
  let Hp := fresh "Hp" in let Hc := fresh "Hc" in let Ho := fresh "Ho" in let Hl := fresh "Hl" in
  let Hw := fresh "Hw" in let Hh := fresh "Hh" in let Hr := fresh "Hr" in
  match goal with
  | Hinv : pool_inv _ _ |- _ => pose proof Hinv as [Hp Hc Ho Hl Hw Hh Hr _]; apply mkPoolInv;
    [tally; rewrite ?available_release; lia|tally; rewrite ?put_back_spare; lia
    |let x := fresh in intros x; pose proof (Ho x); pose proof (Hh x); tally
    |let x := fresh in intros x; pose proof (Hl x); tally
    |let x := fresh in intros x; pose proof (Hw x); tally|let x := fresh in intros x; pose proof (Hh x); tally|keep_cells|clear Hp Hc Ho Hl Hw Hh Hr]
  end.

Section invariant.
Context `{SemaphoresLaws} `{R2d2Laws} (size : nat).

Lemma waiters_le s k : pool_inv size s → sum_list_with (joins k) (tasks s) ≤ 1.
Proof. intros Hs. rewrite (one_waiter _ _ Hs). apply awaited_le. Qed.

(** The connection a task owns is in its cell. *)
Lemma owner_holds s c t : pool_inv size s → t ∈ tasks s → owns c t = 1 →
  ∃ p l, cells s !! c = Some (mkCell (Some p) l).
Proof.
  intros Hs [i Hi]%list_elem_of_lookup Ht. pose proof (sum_ge (owns c) _ _ _ Hi) as Hge.
  pose proof (one_owner _ _ Hs c) as Ho. unfold at_index, holds in Ho.
  destruct (cells s !! c) as [[[p|] l]|]; [by eauto|simpl in Ho; lia..].
Qed.

Lemma owns_self c k : owns c (Running c k) = 1 ∧ owns c (Holding c) = 1.
Proof. unfold owns. by rewrite bool_decide_eq_true_2. Qed.

Lemma get_inv s : pool_inv size s → pool_inv size (get s).
Proof.
  intros Hs. unfold get. counts. intros t k [Ht|Ht%list_elem_of_singleton]%elem_of_app Hw; [|by subst].
  by apply (tasks_await _ _ Hs t k).
Qed.

Lemma get_permit_inv i s s' : get_permit i s = Some s' → pool_inv size s → pool_inv size s'.
Proof.
  unfold get_permit. intros He Hs. destruct (tasks s !! i) as [[]|] eqn:Hi; try done.
  destruct (try_acquire (semaphore s)) as [sem|] eqn:Hsem; [|done]. injection He as <-.
  apply try_acquire_Some in Hsem. counts. apply await_task; [by apply await_spawn, Hs|].
  intros k [= <-]. exists (JGet true). split; [by apply list_lookup_middle|done].
Qed.

Lemma get_no_permit_inv i s s' : get_no_permit i s = Some s' → pool_inv size s → pool_inv size s'.
Proof.
  unfold get_no_permit. intros He Hs. destruct (tasks s !! i) as [[]|] eqn:Hi; try done.
  injection He as <-. counts. by apply await_task; [apply Hs|].
Qed.

(** The result of a job that nobody awaits is not kept. *)
Lemma get_done_inv k joined r p s : pool_inv size s → jobs s !! k = Some (JGet joined) →
  spare p + (match r with Some _ => 1 | None => 0 end) = spare (pool s) → pool_inv size (get_done k joined r (set_pool p s)).
Proof.
  intros Hs Hk Hp. unfold get_done. destruct joined, r as [c|]; (counts; eapply await_job; [apply Hs|done|]).
  1,2: by intros [].
  all: intros t Ht Hwait; destruct (no_waiter k (tasks s) t); [|done..];
    by rewrite (one_waiter _ _ Hs), (at_index_Some _ _ _ _ Hk).
Qed.

Lemma get_timeout_inv k b s s' : get_timeout k b s = Some s' → pool_inv size s → pool_inv size s'.
Proof.
  unfold get_timeout. intros He Hs. destruct (jobs s !! k) as [[joined| | | | | |]|] eqn:Hk; try done. destruct b.
  - destruct (checkout (pool s)) as [[c p]|] eqn:Hch; [|done]. apply checkout_Some in Hch. injection He as <-.
    apply get_done_inv; [done..|simpl; lia].
  - injection He as <-. apply (get_done_inv k joined None (pool s)); [done..|lia].
Qed.

Lemma get_result_inv i s s' : get_result i s = Some s' → pool_inv size s → pool_inv size s'.
Proof.
  unfold get_result. intros He Hs. destruct (tasks s !! i) as [[|k|c|c k|]|] eqn:Hi; try done. pose proof (waiters_le s k Hs).
  destruct (jobs s !! k) as [[|[p|]| | | | |]|] eqn:Hk; try done; injection He as <-; counts;
    (eapply await_joined; [apply Hs|done..]).
Qed.

Lemma run_inv i s s' : run i s = Some s' → pool_inv size s → pool_inv size s'.
Proof.
  unfold run. intros He Hs. destruct (tasks s !! i) as [[|k|c|c k|]|] eqn:Hi; try done. injection He as <-.
  destruct (owner_holds s c (Holding c) Hs) as (p & l & Hcell); [by apply list_elem_of_lookup; exists i|by apply (owns_self c 0)|].
  apply lookup_lt_Some in Hcell. counts.
  apply await_task; [by apply await_spawn, Hs|]. intros k [= <-]. exists (JRun c true). by split; [apply list_lookup_middle|].
Qed.

Lemma run_lock_inv k s s' : run_lock k s = Some s' → pool_inv size s → pool_inv size s'.
Proof.
  unfold run_lock. intros He Hs. destruct (jobs s !! k) as [[| |c joined| | | |]|] eqn:Hk; try done.
  destruct (cells s !! c) as [[h l]|] eqn:Hcell; [|done]. simpl in He. destruct l; [done|].
  destruct h as [p|]; injection He as <-; counts; (eapply await_job; [apply Hs|done|]); intros [| |c1|c1 k1|] Ht; try done.
  intros _ Hf. destruct (owner_holds s c1 _ Hs Ht) as (p & l & Hp); [by apply owns_self|]. simpl in Hf. congruence.
Qed.

Lemma run_return_inv k b s s' : run_return k b s = Some s' → pool_inv size s → pool_inv size s'.
Proof.
  unfold run_return. intros He Hs. destruct (jobs s !! k) as [[| | |c joined| | |]|] eqn:Hk; try done.
  destruct (cells s !! c) as [[h l]|] eqn:Hcell; [|done]. injection He as <-. destruct l; counts;
    (eapply await_job; [apply Hs|done|]); intros [] Ht; by destruct b.
Qed.

Lemma run_result_inv i s s' : run_result i s = Some s' → pool_inv size s → pool_inv size s'.
Proof.
  unfold run_result. intros He Hs. destruct (tasks s !! i) as [[|k|c|c k|]|] eqn:Hi; try done. pose proof (waiters_le s k Hs).
  destruct (jobs s !! k) as [[| | | |j []| |]|] eqn:Hk; try done; injection He as <-; counts.
  - eapply await_joined; [apply Hs|done..].
  - apply await_spawn. eapply await_joined; [apply Hs|done..].
  - apply await_spawn. eapply await_joined; [apply Hs|done..].
Qed.

Lemma drop_task_inv i b s s' : drop_task i b s = Some s' → pool_inv size s → pool_inv size s'.
Proof.
  unfold drop_task, drop_outside. intros He Hs. destruct (tasks s !! i) as [[|k|c|c k|]|] eqn:Hi; try done. destruct b.
  - injection He as <-. counts. apply await_task; [by apply await_spawn, Hs|done].
  - destruct (cells s !! c) as [[h l]|] eqn:Hcell; [|done]. simpl in He. destruct l; [done|]. injection He as <-.
    destruct h as [p|]; counts; by apply await_task; [apply Hs|].
Qed.

Lemma drop_job_inv k s s' : drop_job k s = Some s' → pool_inv size s → pool_inv size s'.
Proof.
  unfold drop_job. intros He Hs. destruct (jobs s !! k) as [[| | | | |c|]|] eqn:Hk; try done.
  destruct (cells s !! c) as [[h l]|] eqn:Hcell; [|done]. simpl in He. destruct l; [done|]. injection He as <-.
  destruct h as [p|]; counts; (eapply await_job; [apply Hs|done|]); by intros [].
Qed.

Lemma cancel_inv i s s' : cancel i s = Some s' → pool_inv size s → pool_inv size s'.
Proof.
  unfold cancel. intros He Hs. destruct (tasks s !! i) as [[|k|c|c k|]|] eqn:Hi; try done.
  - injection He as <-. counts. by apply await_task; [apply Hs|].
  - pose proof (waiters_le s k Hs). destruct (tasks_await _ _ Hs (Getting k) k) as (j & Hk & Hf);
      [by apply list_elem_of_lookup; exists i|done|]. rewrite Hk in He. injection He as <-.
    destruct j as [[]|[p|]| | | | |]; try done; cbn [detach]; counts; (eapply await_joined; [apply Hs|done..]).
  - pose proof (waiters_le s k Hs). destruct (tasks_await _ _ Hs (Running c k) k) as (j & Hk & Hf);
      [by apply list_elem_of_lookup; exists i|done|]. rewrite Hk in He. injection He as <-.
    destruct j as [| |c' []|c' []|[] r| |]; try done; cbn [detach]; counts; apply await_spawn; (eapply await_joined; [apply Hs|done..]).
Qed.
Lemma step_inv e s s' : step e s = Some s' → pool_inv size s → pool_inv size s'.
Proof.
  destruct e; simpl; [intros [= <-]; apply get_inv|apply get_permit_inv|apply get_no_permit_inv|apply get_timeout_inv
    |apply get_result_inv|apply run_inv|apply run_lock_inv|apply run_return_inv|apply run_result_inv|apply drop_task_inv
    |apply drop_job_inv|apply cancel_inv].
Qed.

Lemma steps_inv es s s' : steps es s = Some s' → pool_inv size s → pool_inv size s'.
Proof.
  revert s. induction es as [|e es IH]; intros s; simpl; [by intros [= <-]|].
  destruct (step e s) as [s1|] eqn:He; [|done]. intros Hs Hi. by eapply IH, step_inv.
Qed.

Lemma pool_new_inv p : spare p = size → pool_inv size (pool_new size p).
Proof.
  intros Hp. split; simpl; rewrite ?available_new; try lia; try done. intros t k Ht. by apply not_elem_of_nil in Ht.
Qed.

Lemma sum_zero {A} (f : A → nat) l : (∀ x, x ∈ l → f x = 0) → sum_list_with f l = 0.
Proof. induction l as [|x l IH]; intros Hf; simpl; [done|]. rewrite Hf, IH by set_solver. done. Qed.

(** What a job still has to do. *)
Definition work (j : Job) : nat :=
  match j with JRun _ _ => 2 | JGet _ | JRunning _ _ | JDrop _ => 1 | _ => 0 end.

(** Without tasks and with all jobs done everything is back in place. *)
Lemma restored s : pool_inv size s → (∀ t, t ∈ tasks s → t = Finished) → sum_list_with work (jobs s) = 0 →
  available_permits (semaphore s) = size ∧ spare (pool s) = size.
Proof.
  intros [Hp Hc Ho Hl Hw Hh _ Ha] Ht Hj.
  assert (∀ j, j ∈ jobs s → work j = 0) as Hj0.
  { intros j [k Hk]%list_elem_of_lookup. pose proof (sum_ge work _ _ _ Hk). lia. }
  assert (∀ f, f Finished = 0 → sum_list_with f (tasks s) = 0) as Hts.
  { intros f Hf. apply sum_zero. intros t Hin. by rewrite (Ht t Hin). }
  rewrite Hts in Hp by done. split; [lia|].
  assert (sum_list_with got (jobs s) = 0) as Hg.
  { apply sum_zero. intros j [k Hk]%list_elem_of_lookup. specialize (Hw k). rewrite Hts in Hw by done.
    rewrite (at_index_Some _ _ _ _ Hk) in Hw. by destruct j. }
  assert (sum_list_with holds (cells s) = 0) as Hcs.
  { apply sum_zero. intros x [c Hx]%list_elem_of_lookup. specialize (Ho c). rewrite Hts in Ho by done.
    rewrite (at_index_Some _ _ _ _ Hx), sum_zero in Ho; [done|]. intros j Hin. specialize (Hj0 j Hin). by destruct j. }
  lia.
Qed.
(** What the jobs do by themselves. *)
Definition job_event (e : Event) : bool :=
  match e with ETimeout _ _ | ELock _ | EReturn _ _ | EDropJob _ => true | _ => false end.

Lemma job_step e s s' : job_event e = true → step e s = Some s' →
  tasks s' = tasks s ∧ sum_list_with work (jobs s') < sum_list_with work (jobs s).
Proof.
  assert (∀ k j j', jobs s !! k = Some j → work j' < work j →
    sum_list_with work (<[k := j']> (jobs s)) < sum_list_with work (jobs s)) as Hlt.
  { intros k j j' Hk Hw. pose proof (sum_insert work _ _ _ j' Hk). lia. }
  destruct e as [| | |k b| | |k|k b| | |k|]; try done; intros _; simpl.
  - unfold get_timeout. destruct (jobs s !! k) as [[joined| | | | | |]|] eqn:Hk; try done. destruct b.
    + destruct (checkout (pool s)) as [[c p]|]; [|done]. intros [= <-]. destruct joined; (split; [done|]); (eapply Hlt; [done|simpl; lia]).
    + intros [= <-]. destruct joined; (split; [done|]); (eapply Hlt; [done|simpl; lia]).
  - unfold run_lock. destruct (jobs s !! k) as [[| |c joined| | | |]|] eqn:Hk; try done.
    destruct (cells s !! c) as [[h []]|]; try done. simpl. destruct h; intros [= <-]; (split; [done|]); (eapply Hlt; [done|simpl; lia]).
  - unfold run_return. destruct (jobs s !! k) as [[| | |c joined| | |]|] eqn:Hk; try done.
    destruct (cells s !! c) as [x|]; [|done]. intros [= <-]. split; [done|]. (eapply Hlt; [done|simpl; lia]).
  - unfold drop_job. destruct (jobs s !! k) as [[| | | | |c|]|] eqn:Hk; try done.
    destruct (cells s !! c) as [[h []]|]; try done. intros [= <-]. simpl. split; [by destruct h|].
    destruct h; (eapply Hlt; [done|simpl; lia]).
Qed.

(** A job that has locked a cell can return. *)
Lemma locked_returns s c x : pool_inv size s → cells s !! c = Some x → locked x = true →
  ∃ k s', run_return k false s = Some s'.
Proof.
  intros Hs Hx Hl. pose proof (one_lock _ _ Hs c) as Ho. rewrite (at_index_Some _ _ _ _ Hx) in Ho. unfold locks in Ho. rewrite Hl in Ho.
  assert (∃ j, j ∈ jobs s ∧ runs c j ≠ 0) as (j & Hj & Hr).
  { destruct (decide (Forall (λ j, runs c j = 0) (jobs s))) as [Hf|Hf].
    - rewrite Forall_forall in Hf. by rewrite sum_zero in Ho by done.
    - by apply not_Forall_Exists, Exists_exists in Hf; [|solve_decision]. }
  apply list_elem_of_lookup in Hj as [k Hk]. destruct j as [| | |c' b| | |]; try done.
  unfold runs in Hr. case_bool_decide as Hc; [subst c'|done]. exists k. unfold run_return. rewrite Hk, Hx. by eexists.
Qed.

(** No deadlock: while a job has something to do, some job can go on. *)
Lemma job_enabled s : pool_inv size s → sum_list_with work (jobs s) ≠ 0 → ∃ e s', job_event e = true ∧ step e s = Some s'.
Proof.
  intros Hs Hw. assert (∃ j, j ∈ jobs s ∧ work j ≠ 0) as (j & Hj & Hr).
  { destruct (decide (Forall (λ j, work j = 0) (jobs s))) as [Hf|Hf].
    - rewrite Forall_forall in Hf. by rewrite sum_zero in Hw by done.
    - by apply not_Forall_Exists, Exists_exists in Hf; [|solve_decision]. }
  apply list_elem_of_lookup in Hj as [k Hk].
  assert (∀ c x, cells s !! c = Some x → locked x = true → ∃ e s', job_event e = true ∧ step e s = Some s') as Hl.
  { intros c x Hx Hl. destruct (locked_returns s c x Hs Hx Hl) as (k' & s' & He). by exists (EReturn k' false), s'. }
  destruct j as [b| |c b|c b| |c|]; try done.
  - exists (ETimeout k false). simpl. unfold get_timeout. rewrite Hk. by eexists.
  - pose proof (Forall_lookup_1 _ _ _ _ (run_cells _ _ Hs) Hk) as Hc. simpl in Hc.
    apply lookup_lt_is_Some in Hc as [[h l] Hx]. destruct l; [by eapply Hl|]. exists (ELock k). simpl. unfold run_lock. rewrite Hk, Hx.
    destruct h; by eexists.
  - pose proof (one_lock _ _ Hs c) as Ho. pose proof (sum_ge (runs c) _ _ _ Hk) as Hge. unfold runs at 1 in Hge.
    rewrite bool_decide_eq_true_2 in Hge by done. simpl in Hge. unfold at_index in Ho.
    destruct (cells s !! c) as [x|] eqn:Hx; [|lia]. exists (EReturn k false). simpl. unfold run_return. rewrite Hk, Hx. by eexists.
  - pose proof (one_owner _ _ Hs c) as Ho. pose proof (sum_ge (drops c) _ _ _ Hk) as Hge. unfold drops at 1 in Hge.
    rewrite bool_decide_eq_true_2 in Hge by done. simpl in Hge. unfold at_index in Ho.
    destruct (cells s !! c) as [[h l]|] eqn:Hx; [|lia]. destruct l; [by eapply Hl|]. exists (EDropJob k). simpl.
    unfold drop_job. rewrite Hk, Hx. by eexists.
Qed.
End invariant.

(** ** The pool is sound *)

Section sound.
Context `{SemaphoresLaws} `{R2d2Laws}.


(** C16: Nothing is lost and nothing blocks for ever.  The jobs make a bounded
    number of steps by themselves; when they can make none, every task that
    awaits a job has its result to go on with, and if no task is left, all
    permits and all connections are back. *)
Theorem pool_drains (p : Pool) (es : list Event) (s : Sys) :
  steps es (pool_new (spare p) p) = Some s →
  (∀ es' s', Forall (λ e, job_event e = true) es' → steps es' s = Some s' → length es' ≤ sum_list_with work (jobs s)) ∧
  ((∀ e, job_event e = true → step e s = None) →
     (∀ i k, tasks s !! i = Some (Getting k) → is_Some (get_result i s)) ∧
     (∀ i c k, tasks s !! i = Some (Running c k) → is_Some (run_result i s)) ∧
     ((∀ t, t ∈ tasks s → t = Finished) → available_permits (semaphore s) = spare p ∧ spare (pool s) = spare p)).
Proof.
  intros Hes. pose proof (steps_inv (spare p) es _ _ Hes (pool_new_inv _ p eq_refl)) as Hs. split.
  - clear Hes Hs. intros es'. revert s. induction es' as [|e es' IH]; intros s s' Hall; simpl; [lia|].
    inversion_clear Hall as [|?? He Hall']. destruct (step e s) as [s1|] eqn:Hst; [|done]. intros Hrun.
    pose proof (proj2 (job_step e s s1 He Hst)). specialize (IH s1 s' Hall' Hrun). lia.
  - intros Hstuck. assert (sum_list_with work (jobs s) = 0) as Hw.
    { destruct (decide (sum_list_with work (jobs s) = 0)) as [|Hne]; [done|].
      destruct (job_enabled _ s Hs Hne) as (e & s' & He & Hst). by rewrite Hstuck in Hst. }
    assert (∀ k j, jobs s !! k = Some j → work j = 0) as Hj by (intros k j Hk; pose proof (sum_ge work _ _ _ Hk); lia).
    split_and!; [| |by intros Ht; apply restored].
    + intros i k Hi. destruct (tasks_await _ _ Hs (Getting k) k) as (j & Hk & Hf); [by apply list_elem_of_lookup; exists i|done|].
      pose proof (Hj k j Hk). unfold get_result. rewrite Hi, Hk. destruct j as [|[]| | | | |]; done || by eexists.
    + intros i c k Hi. destruct (tasks_await _ _ Hs (Running c k) k) as (j & Hk & Hf); [by apply list_elem_of_lookup; exists i|done|].
      pose proof (Hj k j Hk). unfold run_result. rewrite Hi, Hk. destruct j as [| | | |? []| |]; done || by eexists.
Qed.
End sound.

(** ** A concrete instance *)

(** Counters. *)
Module SyncPoolReference.
#[export] Instance semaphores_ref : Semaphores := {|
  Semaphore := nat;
  semaphore_new n := n;
  try_acquire n := match n with S n => Some n | O => None end;
  release := S;
  available_permits n := n |}.

#[export] Instance semaphores_laws : SemaphoresLaws.
Proof. split; [done|by intros [|s] s' [= ->]|by intros [|s]|done]. Qed.

#[export] Instance r2d2_ref : R2d2 := {|
  Pool := nat;
  PooledConnection := unit;
  checkout n := match n with S n => Some (tt, n) | O => None end;
  put_back _ := S;
  spare n := n |}.

#[export] Instance r2d2_laws : R2d2Laws.
Proof. split; [by intros [|p] c p' [= _ ->]|done]. Qed.

(** A task gets the only connection. *)
Definition single : @Pool r2d2_ref := 1.

Definition got_it : list Event := [EGet; EPermit 0; ETimeout 0 true; EResult 0].

(** The permit is released before the connection is dropped: a second task has
    a permit while the pool is empty, and times out or waits in a thread. *)
Lemma permit_released_early :
  ∃ s, steps (got_it ++ [EDrop 0 true; EGet; EPermit 1]) (pool_new 1 single) = Some s ∧
    spare (pool s) = 0 ∧ tasks s = [Finished; Getting 2] ∧ step (ETimeout 2 true) s = None.
Proof. by eexists. Qed.

(** A task cancelled in [run] leaves a closure behind that may find its cell
    empty, where it panics in its thread. *)
Lemma cancelled_run_panics :
  ∃ s, steps (got_it ++ [ERun 0; ECancel 0; EDropJob 2; ELock 1]) (pool_new 1 single) = Some s ∧
    jobs s !! 1 = Some (JRan false Broken).
Proof. by eexists. Qed.


Example pool_drains_witness :
  ∃ s, steps (got_it ++ [EDrop 0 true; EDropJob 1]) (pool_new 1 single) = Some s ∧ spare (pool s) = 1.
Proof.
  destruct (steps (got_it ++ [EDrop 0 true; EDropJob 1]) (pool_new 1 single)) as [s|] eqn:Hs; [|done]. exists s.
  split; [done|]. assert (jobs s = [JDone; JDone] ∧ tasks s = [Finished]) as [Hj Ht] by (by injection Hs as <-).
  apply (pool_drains single _ s Hs).
  - intros [| | |[|[|k]] b| | |[|[|k]]|[|[|k]] b| | |[|[|k]]|] He; try done;
      simpl; unfold get_timeout, run_lock, run_return, drop_job; by rewrite Hj.
  - intros t. rewrite Ht. by intros ->%list_elem_of_singleton.
Defined.
End SyncPoolReference.
